(* ===== verification/_CoqProject ===== *)
-Q . S2P
Prelude.v
Wire.v
Db.v
Fmt.v
WalFormat.v
Snapshot.v
Recovery.v
Types.v
Acker.v
Stage1.v
Stage2.v
FsyncPlanner.v
IoWork.v
Tests.v
Stage3.v
Kernel.v
Durability.v
NoLoss.v
Pipeline.v
System.v
Threads.v
Server.v
Accounts.v
Backpressure.v
Live.v
Safety.v
Progress.v
Drain.v
Lifetime.v
Rotation.v
Client.v
EndToEnd.v
AllocStat.v
Bench.v
LoadGen.v
LoadMain.v
AsyncClient.v
Api.v
BenchRun.v
Examples.v
