(* ===== verification/Prelude.v ===== *)
(** * In-Memory-Database: a verification development

    The program is a key-value server with a write-ahead log and two client
    libraries.  A request goes through three stages, each a thread or a group of
    tasks of its own, joined by channels:

    - stage 1 ([crates/server/src/stage1]) reads frames from the connections and
      writes responses back;
    - stage 2 ([stage2]) owns the table ([crates/storage/src/db.rs]), serves the
      requests in channel order and numbers the PUTs;
    - stage 3 ([stage3]) encodes the PUTs as records ([storage/src/wal_format.rs]),
      writes and syncs them through io_uring, and acknowledges;
    - [storage::recover] rebuilds the table at the start from a snapshot and the
      log; [main] puts everything together;
    - the clients ([crates/smart_client]) match responses to calls by order.

    ** The files

    - [Prelude]: outcomes of Rust computations (value, I/O error, panic), loops
      over lists, slices and indexing with their panics, u32 and u64 arithmetic
      with its wrap-around, little-endian integers, tactics and rewrite bases.
    - [Wire] ([wire/src/lib.rs]): request bodies, their accessors, response codes.
    - [Db] ([storage/src/db.rs]): the table as a map to reference-counted
      allocations in a store, with the in-place overwrite of [put] and the handles
      that readers hold; the class [KvStore] with its laws [KvLaws] is what
      stage 2, snapshots and recovery rely on, and [Db] implements it.  [Fmt]: its
      Debug printer, over UTF-8.
    - [WalFormat]: records, the FNV checksum, segment names, [list_segments].
    - [Snapshot] ([storage/src/snapshot.rs]): the writer as calls on a file system
      with crashes and failing calls, and [load].
    - [Recovery] ([storage/src/lib.rs]): [recover] over what the calls on the data
      directory return.
    - [Types] ([types.rs], [args.rs], constants of [main.rs]); [Acker] ([acker.rs]).
    - [Stage1]: the accept loop, the reader loop of a connection and the rounds of
      its writer.
    - [Stage2]: [apply_batch] and [run_main_loop], its channels as inputs and
      outputs of an iteration; the sequential specification [spec_run].
    - [FsyncPlanner], [IoWork], [Stage3]: the WAL engine, every method of
      [WalEngine], over the interface [Slab] (the slab crate) with its documented
      laws; what it does to the outside is in its state (submission queue,
      entries submitted, trace of sends).  [Tests]: the unit tests of [io_work.rs].
    - [Kernel]: the documented behaviour of the io_uring operations used, as a
      step relation, and the interface [Uring] that any such kernel implements.
    - [Durability]: the engine and the kernel as a world of steps; the invariant
      behind acknowledgements.  [NoLoss]: the same with complete writes, where an
      acknowledgement covers the whole log before it.
    - [Pipeline]: lemmas that relate requests, batches, records and recovery.
    - [System]: stage 2, the channel, stage 3, the kernel and the buffer pool as
      one step system [sys_step].  [Threads]: the same with each thread in
      program order, and its inclusion in [sys_step].
    - [Server]: [main], a run, a crash and the next start.
    - [Accounts]: where every reply and every buffer is.
    - [Backpressure]: the bounded response channels, the two threads that wait in
      [blocking_send], the writers down to the bytes of [write_all], sockets of
      bounded size and their peers.  [Live]: the server of [Threads] with these:
      each thread hands its replies over one at a time, and waits.
    - [Safety]: well-formed states of the system, and when a thread panics.
      [Progress]: that the threads do not both wait for each other while writes
      are complete.  [Drain]: that all work can be finished from every state
      reached in [Live].  [Rotation]: [rotate] together with the kernel.
    - [Lifetime]: the life of a data directory, one run of the server after the
      other, each from [main] on what the runs before it have left to its end at
      any moment.
    - [Client] ([smart_client/src/reader.rs], [sync.rs]), [AsyncClient]
      ([async_client.rs]): the tasks of a connection, a step per stretch between
      two points where they wait.
    - [Api]: [connect], [get], [put] and [call] of both clients over the class
      [Connection] with its laws [ConnectionLaws], which the connection of [Client]
      and the session of [AsyncClient] implement.
    - [EndToEnd]: client, stage 1, stage 2 and back.
    - [Bench] and [BenchRun] ([smart_client/examples/bench.rs]), [LoadGen] and
      [LoadMain] ([server/benches/loadgen.rs]) and [AllocStat]
      ([server/src/alloc_stat.rs]): the benchmark's keys and its run; the load
      generator's codec, frame reader, random numbers and rounds, and its [main]
      with the percentiles; and the counting allocator.
    - [Examples] ([examples/sync_client.rs], [examples/async_client.rs]): the two
      programs as computations over the results of their calls, run against every
      state of a connection of either client (the class [OrderedClient]) and the
      server of [EndToEnd].

    ** What is shown

    - Storage: [put] refines a map insertion and never changes a value a reader
      holds; records round-trip and are rejected when damaged; snapshots survive a
      crash at any point; recovery returns the table after the complete records,
      and never invents one.
    - Serving: stage 2 is a sequential map in channel order; each reply is sent
      once, to the right connection, with the value of that map; without fsync a
      client sees exactly this through both codecs.  In all modes, whatever waits
      for room in a channel, what reaches a peer is a prefix of the frames of these
      replies ([Live]).
    - Durability: an acknowledged batch is on disk; with complete writes so is
      everything before it, and the next start recovers it.
    - Composition: what stage 2 sends stage 3 accepts; the buffers circulate;
      the threads' loops are runs of the step system, for which most invariants are
      proved ([Threads.threads.loops_are_system_steps], a lemma for the others); a
      rotation leaves a complete segment behind.
    - Over the runs: as long as no run leaves a torn record (after one, nothing
      that later runs log is recovered, [Recovery.recovery.torn_tail_hides_next_run]),
      a start recovers the table of having served, run after run, a prefix of what
      each run served; all of it, if the run was stopped with nothing left to do,
      and that can be reached from every state without a fatal error, once the
      kernel completes what it holds and the peers read.  The snapshot is the same in all
      these runs, since the server never writes one.
    - Safety: a started system stays well formed, and a thread panics exactly on
      a malformed request (stage 2), a fatal error the kernel reports or a call of
      the ring that fails (stage 3).
    - Clients: a call is answered once, by the response to its own request or by an
      error, across lost connections; the channel of calls is bounded; the example
      programs print what they mean to; where PUTs wait for the disk, two pipelined
      calls can get each other's response; and the asynchronous client's supervisor
      outlives its handles.
    - Liveness: the threads never both wait for the other while writes are
      complete (in the modes without durable acknowledgements, ever); from every
      state reached without a fatal error, a kernel that completes what it holds and
      peers that read let both threads finish and every reply arrive; writers drain
      while their peers read; a client that does not read stops the thread that
      answers it, for all; and, as theorems with concrete runs, the ways the server
      can stop or strand a client.

    ** Bounds and fuel

    Integers are [Z] with the wrap-around of their width written out; theorems
    assume that LSNs and file offsets stay below 2^64 and records below 2^32
    bytes, where the code would wrap.  Loops that consume a list or a stream have
    its length as fuel, and an unfolding lemma shows that it is enough
    ([Stage1.stage1.reader_loop_unfold], [Client.client.extract_unfold],
    [Recovery]'s loops over the segments).  [rotate_drain] takes the outcomes of
    its rounds as a list; its result says whether they ended the loop.

    ** Assumptions

    The classes [SlabLaws] and [UringLaws] state documented behaviour of the slab
    crate and of io_uring; each has an instance, so they can hold ([KvLaws] is
    proved for the code's own table).  A request's reply channel is the number of
    its connection.  The socket between a writer and its peer is a queue of at most
    [cap] bytes, [cap] being any positive number, or any at all for safety.  In
    [Live], what stage 3 returns to the pool and submits during an iteration is
    taken to have happened when the iteration starts; the safety properties are
    those of [sys_step], which fixes no such moment.  The asynchronous client
    reaches the server or not by a function of the attempt.

    ** Not modelled

    Logging and the [logger] macros, clap's parsing, thread and runtime creation,
    socket options; the escapes of [{:?}] on text and the quotients the benchmarks
    print in floating point; [Snapshotter::try_begin] and [poll], which are
    [todo!()]; the clocks of the benchmarks, whose readings are arguments; callers
    of the clients that drop the future of a call; in the runs of the examples, a
    connection lost and replaced in the middle.  The
    periodic snapshot of stage 2 is
    disabled in the source and so it is here; [rotate] and [retire] are verified
    though nothing sends their messages yet. *)

From stdpp Require Export base list gmap countable numbers strings.
From coqutil Require Export Byte Word.LittleEndianList.
From Stdlib Require Export Lia Sorting.Sorted.
From Stdlib Require Strings.String.

#[global] Open Scope Z_scope.
#[global] Set Default Goal Selector "!".

(** ** Outcomes

    A Rust computation returns ([Done]), returns an [std::io::Error] that the
    code propagates with [?] ([IoErr], carrying the raw OS code), or panics
    ([Panic]; the release profile aborts the process on a panic). *)

Inductive outcome (A : Type) : Type :=
| Done (a : A)
| IoErr (e : Z)
| Panic.
Arguments Done {A} a.
Arguments IoErr {A} e.
Arguments Panic {A}.

#[export] Instance outcome_ret : MRet outcome := @Done.
#[export] Instance outcome_bind : MBind outcome := fun A B f m =>
  match m with
  | Done a => f a
  | IoErr e => IoErr e
  | Panic => Panic
  end.

(** A Rust [assert!]: panics when the condition is false. *)
Definition assert_that (b : bool) : outcome unit := if b then Done tt else Panic.

Section outcome_lemmas.
Context {A B : Type}.

Lemma bind_Done (m : outcome A) (f : A -> outcome B) b :
  m ≫= f = Done b <-> exists a, m = Done a /\ f a = Done b.
Proof. destruct m; simpl; split; [eauto|intros (?&?&?); congruence|done|by intros (?&?&?)|done|by intros (?&?&?)]. Qed.

Lemma bind_Panic (m : outcome A) (f : A -> outcome B) :
  m ≫= f = Panic <-> m = Panic \/ exists a, m = Done a /\ f a = Panic.
Proof.
  destruct m; simpl; split; [eauto|intros [?|(?&?&?)]; congruence|done|..|done].
  - by intros [?|(?&?&?)].
  - by left.
Qed.

Lemma assert_that_Done b u : assert_that b = Done u <-> b = true.
Proof. by destruct b, u. Qed.
End outcome_lemmas.

(** Decompose every successful bind in the context. *)
Ltac run_outcome :=
  repeat match goal with
  | H : mbind _ _ = Done _ |- _ =>
      let a := fresh "a" in
      apply bind_Done in H as (a & ? & H)
  | H : Done _ = Done _ |- _ => injection H as H
  | H : mret _ = Done _ |- _ => injection H as H
  | H : Panic = Done _ |- _ => discriminate H
  | H : IoErr _ = Done _ |- _ => discriminate H
  | H : assert_that _ = Done _ |- _ => apply assert_that_Done in H
  | p : (_ * _)%type |- _ => destruct p
  | u : unit |- _ => destruct u
  end; simplify_eq/=.

(** Reduce binds only. *)
Ltac ostep := cbn [mbind outcome_bind mret outcome_ret].

(** A loop over a list that threads a state through a fallible body. *)
Fixpoint fold_outcome {S X : Type} (f : S -> X -> outcome S) (s : S) (l : list X) : outcome S :=
  match l with
  | [] => Done s
  | x :: l => s' ← f s x; fold_outcome f s' l
  end.

(** A loop over [iter_mut()]: the body updates its element and a state. *)
Fixpoint map_outcome {S X : Type} (f : S -> X -> outcome (S * X)) (s : S) (l : list X)
    : outcome (S * list X) :=
  match l with
  | [] => Done (s, [])
  | x :: l =>
      '(s1, x') ← f s x;
      '(s2, l') ← map_outcome f s1 l;
      Done (s2, x' :: l')
  end.

Lemma fold_outcome_app {S X} (f : S -> X -> outcome S) s l1 l2 :
  fold_outcome f s (l1 ++ l2) = (s' ← fold_outcome f s l1; fold_outcome f s' l2).
Proof.
  revert s; induction l1 as [|x l1 IH]; intros s; simpl; [done|].
  destruct (f s x); simpl; auto.
Qed.

(** What every turn of a loop keeps, the loop keeps. *)
Lemma fold_outcome_rel {A B} (f : A -> B -> outcome A) (R : A -> A -> Prop) `{!PreOrder R} :
  (forall a b a', f a b = Done a' -> R a a') ->
  forall l a a', fold_outcome f a l = Done a' -> R a a'.
Proof.
  intros Hf. induction l as [|b l IH]; intros a a'; cbn [fold_outcome].
  - by intros [= ->].
  - intros (a1 & H1 & H2)%bind_Done. etransitivity; [by eapply Hf|by apply IH].
Qed.

Lemma map_outcome_length {S X} (f : S -> X -> outcome (S * X)) s l s' l' :
  map_outcome f s l = Done (s', l') -> length l' = length l.
Proof.
  revert s s' l'; induction l as [|x l IH]; intros s s' l' H; simpl in *.
  - by run_outcome.
  - run_outcome. f_equal. eauto.
Qed.

(** ** Machine integers

    [u64]/[usize] values are integers in [0, 2^64); the arithmetic is the one
    of the release profile (no overflow checks: operations wrap). *)

Definition u64 (z : Z) : Prop := 0 <= z < 2 ^ 64.
Definition u32 (z : Z) : Prop := 0 <= z < 2 ^ 32.
Definition wrap64 (z : Z) : Z := z mod 2 ^ 64.
(** [x as u32] *)
Definition as_u32 (z : Z) : Z := z mod 2 ^ 32.
Definition add64 (a b : Z) : Z := wrap64 (a + b).
Definition sub64 (a b : Z) : Z := wrap64 (a - b).
(** [a.saturating_sub(b)] *)
Definition sat_sub (a b : Z) : Z := Z.max 0 (a - b).

#[export] Instance u64_decision z : Decision (u64 z).
Proof. unfold u64. apply _. Defined.
#[export] Instance u32_decision z : Decision (u32 z).
Proof. unfold u32. apply _. Defined.

(** Prove a closed decidable goal by evaluation. *)
Ltac decide_vm := apply (bool_decide_unpack _); vm_compute; exact I.

Lemma wrap64_small z : u64 z -> wrap64 z = z.
Proof. intros H. apply Z.mod_small, H. Qed.
Lemma wrap64_u64 z : u64 (wrap64 z).
Proof. apply Z.mod_pos_bound. lia. Qed.
Lemma as_u32_small z : u32 z -> as_u32 z = z.
Proof. intros H. apply Z.mod_small, H. Qed.
Lemma as_u32_u32 z : u32 (as_u32 z).
Proof. apply Z.mod_pos_bound. lia. Qed.
Lemma add64_small a b : u64 (a + b) -> add64 a b = a + b.
Proof. apply wrap64_small. Qed.
Lemma sub64_small a b : u64 (a - b) -> sub64 a b = a - b.
Proof. apply wrap64_small. Qed.
Lemma add64_wrap a b : add64 (wrap64 a) b = wrap64 (a + b).
Proof. unfold add64, wrap64. by rewrite Zplus_mod_idemp_l. Qed.
Lemma add64_wrap2 a b : add64 (wrap64 a) (wrap64 b) = wrap64 (a + b).
Proof. unfold add64, wrap64. by rewrite <- Zplus_mod. Qed.
Lemma add64_u64 a b : u64 (add64 a b).
Proof. apply wrap64_u64. Qed.

(** *** Bits *)

Lemma u64_bits z : 0 <= z -> (forall n, 64 <= n -> Z.testbit z n = false) -> u64 z.
Proof.
  intros Hz Hb. assert (z = z mod 2 ^ 64) as ->; [|apply Z.mod_pos_bound; lia].
  apply Z.bits_inj'. intros n Hn. destruct (decide (n < 64)).
  - by rewrite Z.mod_pow2_bits_low.
  - rewrite Z.mod_pow2_bits_high by lia. apply Hb. lia.
Qed.

Lemma bits_u64 z n : u64 z -> 64 <= n -> Z.testbit z n = false.
Proof. intros Hz Hn. rewrite <- (Z.mod_small z (2 ^ 64)) by done. apply Z.mod_pow2_bits_high. lia. Qed.

Lemma lxor_u64 a b : u64 a -> u64 b -> u64 (Z.lxor a b).
Proof.
  intros Ha Hb. apply u64_bits.
  - apply Z.lxor_nonneg. unfold u64 in *. lia.
  - intros n Hn. by rewrite Z.lxor_spec, !bits_u64.
Qed.
Lemma shiftr_u64 a k : 0 <= k -> u64 a -> u64 (Z.shiftr a k).
Proof.
  intros Hk Ha. apply u64_bits; [apply Z.shiftr_nonneg, Ha|].
  intros n Hn. rewrite Z.shiftr_spec by lia. apply bits_u64; [done|lia].
Qed.

(** ** Bytes and slices *)

Abbreviation bytes := (list Init.Byte.byte).

(** The length of a [Vec], a slice or a [Bytes], as a [usize]. *)
Abbreviation len l := (Z.of_nat (length l)).

Definition is_nil {A} (l : list A) : bool := match l with [] => true | _ => false end.
Lemma is_nil_ok {A} (l : list A) : is_nil l = true -> l = [].
Proof. by destruct l. Qed.

(** A byte-string literal [b"..."]. *)
Definition bstr (s : string) : bytes := String.list_byte_of_string s.

#[export] Instance byte_eq_dec : EqDecision Init.Byte.byte := Byte.byte_eq_dec.
#[export] Program Instance byte_countable : Countable Init.Byte.byte :=
  inj_countable Byte.to_N Byte.of_N _.
Next Obligation. intros b. apply Byte.of_to_N. Qed.

(** [&b[lo..hi]]: panics when the range is not inside the slice. *)
Definition slice {A} (b : list A) (lo hi : Z) : outcome (list A) :=
  if (0 <=? lo) && (lo <=? hi) && (hi <=? len b)
  then Done (take (Z.to_nat (hi - lo)) (drop (Z.to_nat lo) b))
  else Panic.
(** [&b[lo..]] *)
Definition slice_from {A} (b : list A) (lo : Z) : outcome (list A) := slice b lo (len b).
(** [b[i]] *)
Definition index {A} (b : list A) (i : Z) : outcome A :=
  if i <? 0 then Panic else
  match b !! Z.to_nat i with Some x => Done x | None => Panic end.

(** Decide a comparison: [lia] alone does not know that lengths are
    non-negative inside a boolean. *)
Ltac lia_bool :=
  lazymatch goal with
  | |- true = _ => symmetry; lia_bool
  | |- false = _ => symmetry; lia_bool
  | |- (_ <=? _) = true => apply Z.leb_le; lia
  | |- (_ <=? _) = false => apply Z.leb_gt; lia
  | |- (_ <? _) = true => apply Z.ltb_lt; lia
  | |- (_ <? _) = false => apply Z.ltb_ge; lia
  | |- (_ =? _) = true => apply Z.eqb_eq; lia
  | |- (_ =? _) = false => apply Z.eqb_neq; lia
  | |- _ => lia
  end.

#[global] Arguments slice : simpl never.
#[global] Arguments slice_from : simpl never.
#[global] Arguments index : simpl never.
#[global] Opaque le_split le_combine.

(** Arithmetic side conditions about lengths. *)
Create Rewrite HintDb len.
#[export] Hint Rewrite @length_app @length_take @length_drop @length_nil @length_cons
  @length_fmap @length_replicate @length_le_split @length_insert : len.
Ltac len_lia := autorewrite with len in *; simpl length in *; try lia; try nia.

Section slice_lemmas.
Context {A : Type}.
Implicit Types a b c : list A.

Lemma slice_Done b lo hi r :
  slice b lo hi = Done r <->
  0 <= lo <= hi /\ hi <= len b /\ r = take (Z.to_nat (hi - lo)) (drop (Z.to_nat lo) b).
Proof.
  unfold slice. destruct (0 <=? lo) eqn:?, (lo <=? hi) eqn:?, (hi <=? len b) eqn:?; simpl;
    (split; [intros; simplify_eq; split_and?; auto; lia | intros (?&?&->); try lia; auto]).
Qed.

Lemma slice_Panic b lo hi :
  slice b lo hi = Panic <-> ~ (0 <= lo <= hi /\ hi <= len b).
Proof.
  unfold slice. destruct (0 <=? lo) eqn:?, (lo <=? hi) eqn:?, (hi <=? len b) eqn:?; simpl;
    split; try done; lia.
Qed.

Lemma slice_not_IoErr b lo hi e : slice b lo hi <> IoErr e.
Proof. unfold slice. by case_match. Qed.

(** The slice that covers the middle part of a concatenation. *)
Lemma slice_mid a b c lo hi :
  lo = len a -> hi = lo + len b -> slice (a ++ b ++ c) lo hi = Done b.
Proof.
  intros -> ->. apply slice_Done. split_and!; [lia|lia|len_lia|].
  replace (Z.to_nat (len a)) with (length a) by lia.
  replace (Z.to_nat (len a + len b - len a)) with (length b) by lia.
  by rewrite drop_app_length, take_app_length.
Qed.

Lemma slice_prefix a b hi : hi = len a -> slice (a ++ b) 0 hi = Done a.
Proof. intros ->. by apply (slice_mid [] a b). Qed.

Lemma slice_from_app a b lo : lo = len a -> slice_from (a ++ b) lo = Done b.
Proof.
  intros ->. unfold slice_from.
  rewrite <- (app_nil_r b) at 1. apply slice_mid; len_lia.
Qed.

Lemma slice_from_Done b lo r :
  slice_from b lo = Done r -> r = drop (Z.to_nat lo) b /\ 0 <= lo <= len b.
Proof.
  intros (?&?&->)%slice_Done. split; [|lia].
  apply take_ge. len_lia.
Qed.

Lemma index_Done b i x : index b i = Done x <-> 0 <= i /\ b !! Z.to_nat i = Some x.
Proof.
  unfold index. destruct (i <? 0) eqn:?; [split; [done|lia]|].
  case_match; split; try done; intros; destruct_and?; simplify_eq; auto. split; [lia|done].
Qed.

Lemma index_Panic b i : index b i = Panic <-> ~ (0 <= i < len b).
Proof.
  unfold index. destruct (i <? 0) eqn:?; [split; [lia|done]|].
  destruct (b !! Z.to_nat i) eqn:E.
  - apply lookup_lt_Some in E. split; [done|lia].
  - apply lookup_ge_None in E. split; [lia|done].
Qed.

Lemma index_not_IoErr b i e : index b i <> IoErr e.
Proof. unfold index. by repeat case_match. Qed.
End slice_lemmas.

(** ** Little-endian integers *)

Lemma le_split_u32 z : u32 z -> le_combine (le_split 4 z) = z.
Proof. intros H. rewrite le_combine_split. by apply Z.mod_small. Qed.
Lemma le_split_u64 z : u64 z -> le_combine (le_split 8 z) = z.
Proof. intros H. rewrite le_combine_split. by apply Z.mod_small. Qed.
Lemma le_combine_u32 b : length b = 4%nat -> u32 (le_combine b).
Proof. intros H. pose proof (le_combine_bound b) as Hb. rewrite H in Hb. exact Hb. Qed.
Lemma le_combine_u64 b : length b = 8%nat -> u64 (le_combine b).
Proof. intros H. pose proof (le_combine_bound b) as Hb. rewrite H in Hb. exact Hb. Qed.
Lemma le_split_4_inj a b : u32 a -> u32 b -> le_split 4 a = le_split 4 b -> a = b.
Proof. intros Ha Hb H. rewrite <- (le_split_u32 a Ha), H. by apply le_split_u32. Qed.
