(* ===== verification/Wire.v ===== *)
(** * The wire protocol crate ([crates/wire/src/lib.rs])

    Opcodes, the request frame encoder, the accessors of a request body
    [[op][klen:u32][key][val]], responses and their status codes, and the two
    little-endian readers every other crate uses.  Accessors index a slice and
    so may panic: they live in [outcome]. *)

From S2P Require Import Prelude.

Module wire.

(** wire protocol opcodes *)
Definition OP_GET : Init.Byte.byte := Byte.x00.
Definition OP_PUT : Init.Byte.byte := Byte.x01.

(** Wire body layout: [[op:1][klen:u32][key][val]] *)
Definition BODY_HDR : Z := 5.

Inductive Operation :=
| Get
| Put
| Unknown (n : Init.Byte.byte).

#[export] Instance Operation_eq_dec : EqDecision Operation.
Proof. solve_decision. Defined.

(** The conversions the enum's discriminants and [catch_all] declare. *)
Definition operation_from (b : Init.Byte.byte) : Operation :=
  if decide (b = OP_GET) then Get else if decide (b = OP_PUT) then Put else Unknown b.
Definition operation_into (op : Operation) : Init.Byte.byte :=
  match op with Get => OP_GET | Put => OP_PUT | Unknown n => n end.

(** --- helpers --- *)
Definition rd_u32 (b : bytes) : outcome Z :=
  b0 ← index b 0; b1 ← index b 1; b2 ← index b 2; b3 ← index b 3;
  Done (le_combine [b0; b1; b2; b3]).
Definition rd_u64 (b : bytes) : outcome Z :=
  b0 ← index b 0; b1 ← index b 1; b2 ← index b 2; b3 ← index b 3;
  b4 ← index b 4; b5 ← index b 5; b6 ← index b 6; b7 ← index b 7;
  Done (le_combine [b0; b1; b2; b3; b4; b5; b6; b7]).

(** [value.map(|v| v.len()).unwrap_or(0)] *)
Definition value_len (value : option bytes) : Z :=
  match value with Some v => len v | None => 0 end.

(** Raw method for encoding a request: returns the grown buffer and the number
    of bytes appended (0 for a PUT without a value, which appends nothing). *)
Definition encode_raw (buf : bytes) (op : Operation) (key : bytes) (value : option bytes)
    : bytes * Z :=
  let len_before := len buf in
  if bool_decide (op = Put) && bool_decide (value = None) then (buf, 0) else
  let body_len := 1 + 4 + len key + value_len value in
  let buf := buf ++ le_split 4 (as_u32 body_len) in
  let buf := buf ++ [operation_into op] in
  let buf := buf ++ le_split 4 (as_u32 (len key)) in
  let buf := buf ++ key in
  let buf := match value with Some v => buf ++ v | None => buf end in
  (buf, len buf - len_before).

Definition encode (op : Operation) (key : bytes) (value : option bytes) : option bytes :=
  let '(buf, n) := encode_raw [] op key value in
  if negb (n =? 0) then Some buf else None.

Definition op (body : bytes) : outcome Init.Byte.byte := index body 0.
Definition klen (body : bytes) : outcome Z := h ← slice body 1 5; rd_u32 h.
Definition key (body : bytes) : outcome bytes :=
  k ← klen body; slice body BODY_HDR (BODY_HDR + k).
Definition split_kv (body : bytes) : outcome (bytes * bytes) :=
  k ← klen body;
  kb ← slice body BODY_HDR (BODY_HDR + k);
  vb ← slice_from body (BODY_HDR + k);
  Done (kb, vb).

Inductive Resp :=
| Value (v : bytes)
| RespOk
| Miss
| UnknownOp
| RespUnknown.

#[export] Instance Resp_eq_dec : EqDecision Resp.
Proof. solve_decision. Defined.

Definition to_proto_code (r : Resp) : Init.Byte.byte :=
  match r with
  | Value _ => Byte.x00
  | RespOk => Byte.x01
  | Miss => Byte.x02
  | UnknownOp => Byte.x03
  | _ => Byte.x04
  end.

(** [body[1..]] cannot panic here: the first byte exists. *)
Definition from_proto_code (body : bytes) : Resp :=
  match body with
  | Byte.x00 :: rest => Value rest
  | Byte.x01 :: _ => RespOk
  | Byte.x02 :: _ => Miss
  | Byte.x03 :: _ => UnknownOp
  | _ => RespUnknown
  end.

(** ** Reading integers back *)

Lemma rd_u32_app z r : u32 z -> rd_u32 (le_split 4 z ++ r) = Done z.
Proof.
  intros Hz. rewrite <- (le_split_u32 z Hz) at 2.
  pose proof (length_le_split 4 z) as Hl.
  destruct (le_split 4 z) as [|b0 [|b1 [|b2 [|b3 [|]]]]]; try discriminate Hl. reflexivity.
Qed.

Lemma rd_u64_app z r : u64 z -> rd_u64 (le_split 8 z ++ r) = Done z.
Proof.
  intros Hz. rewrite <- (le_split_u64 z Hz) at 2.
  pose proof (length_le_split 8 z) as Hl.
  destruct (le_split 8 z) as [|b0 [|b1 [|b2 [|b3 [|b4 [|b5 [|b6 [|b7 [|]]]]]]]]];
    try discriminate Hl. reflexivity.
Qed.

Lemma rd_u32_le z : u32 z -> rd_u32 (le_split 4 z) = Done z.
Proof. intros. rewrite <- (app_nil_r (le_split 4 z)). by apply rd_u32_app. Qed.
Lemma rd_u64_le z : u64 z -> rd_u64 (le_split 8 z) = Done z.
Proof. intros. rewrite <- (app_nil_r (le_split 8 z)). by apply rd_u64_app. Qed.

Lemma rd_u32_Done b : length b = 4%nat -> rd_u32 b = Done (le_combine b).
Proof. intros Hl. destruct b as [|b0 [|b1 [|b2 [|b3 [|]]]]]; try discriminate Hl. reflexivity. Qed.
Lemma rd_u64_Done b : length b = 8%nat -> rd_u64 b = Done (le_combine b).
Proof.
  intros Hl. destruct b as [|b0 [|b1 [|b2 [|b3 [|b4 [|b5 [|b6 [|b7 [|]]]]]]]]];
    try discriminate Hl. reflexivity.
Qed.

(** ** Well-formed bodies *)

(** A body as the accessors need it: the header is complete and the key fits. *)
Definition body_ok (body : bytes) : bool :=
  (5 <=? len body) && (5 + le_combine (take 4 (drop 1 body)) <=? len body).

(** The request body [[op][klen][key][val]] a client builds. *)
Definition mk_body (o : Init.Byte.byte) (k v : bytes) : bytes :=
  o :: le_split 4 (len k) ++ k ++ v.

Lemma klen_Done body : 5 <= len body -> klen body = Done (le_combine (take 4 (drop 1 body))).
Proof.
  intros H. unfold klen.
  assert (slice body 1 5 = Done (take 4 (drop 1 body))) as ->.
  { apply slice_Done. split_and!; [lia..|done]. }
  simpl. apply rd_u32_Done. len_lia.
Qed.

Lemma klen_Panic body : len body < 5 -> klen body = Panic.
Proof.
  intros H. unfold klen. assert (slice body 1 5 = Panic) as ->; [|done].
  apply slice_Panic. lia.
Qed.

Lemma body_ok_spec body :
  body_ok body = true <->
  5 <= len body /\ 5 + le_combine (take 4 (drop 1 body)) <= len body.
Proof. unfold body_ok. lia. Qed.

Lemma split_kv_ok body :
  body_ok body = true ->
  exists k v, split_kv body = Done (k, v) /\ key body = Done k.
Proof.
  intros (H1 & H2)%body_ok_spec. unfold split_kv, key. rewrite (klen_Done _ H1). simpl.
  pose proof (le_combine_bound (take 4 (drop 1 body))) as [Hb _].
  set (n := le_combine _) in *. unfold BODY_HDR.
  destruct (slice body 5 (5 + n)) as [k| |] eqn:E;
    [|by apply slice_not_IoErr in E|apply slice_Panic in E; lia].
  destruct (slice_from body (5 + n)) as [v| |] eqn:E';
    [|by apply slice_not_IoErr in E'|apply slice_Panic in E'; lia].
  simpl. eauto.
Qed.

Lemma split_kv_not_ok body : body_ok body = false -> split_kv body = Panic /\ key body = Panic.
Proof.
  intros H. unfold split_kv, key.
  destruct (decide (5 <= len body)) as [Hl|Hl].
  - rewrite (klen_Done _ Hl). simpl.
    assert (~ (5 + le_combine (take 4 (drop 1 body)) <= len body)) as Hn.
    { intros ?. assert (body_ok body = true) by (by apply body_ok_spec). congruence. }
    assert (slice body BODY_HDR (BODY_HDR + le_combine (take 4 (drop 1 body))) = Panic) as ->; [|done].
    apply slice_Panic. unfold BODY_HDR. lia.
  - rewrite (klen_Panic body) by lia. done.
Qed.

Lemma mk_body_length o k v : len (mk_body o k v) = 5 + len k + len v.
Proof. unfold mk_body. len_lia. Qed.

Lemma mk_body_klen o k v :
  u32 (len k) -> le_combine (take 4 (drop 1 (mk_body o k v))) = len k.
Proof.
  intros Hk. unfold mk_body. rewrite skipn_cons, drop_0.
  rewrite take_app_length' by (by rewrite length_le_split). by apply le_split_u32.
Qed.

Lemma mk_body_ok o k v : u32 (len k) -> body_ok (mk_body o k v) = true.
Proof.
  intros Hk. apply body_ok_spec. rewrite mk_body_length, mk_body_klen by done. lia.
Qed.

Lemma op_mk_body o k v : op (mk_body o k v) = Done o.
Proof. reflexivity. Qed.

Lemma klen_mk_body o k v : u32 (len k) -> klen (mk_body o k v) = Done (len k).
Proof.
  intros Hk. rewrite klen_Done by (rewrite mk_body_length; lia). by rewrite mk_body_klen.
Qed.

Lemma split_kv_mk_body o k v : u32 (len k) -> split_kv (mk_body o k v) = Done (k, v).
Proof.
  intros Hk. unfold split_kv. rewrite klen_mk_body by done. simpl.
  unfold mk_body, BODY_HDR.
  change (o :: ?x) with ([o] ++ x). rewrite (app_assoc [o]).
  rewrite (slice_mid _ k v) by len_lia. ostep.
  rewrite (app_assoc _ k v). rewrite (slice_from_app _ v) by len_lia. done.
Qed.

Lemma key_mk_body o k v : u32 (len k) -> key (mk_body o k v) = Done k.
Proof.
  intros Hk. destruct (split_kv_ok _ (mk_body_ok o k v Hk)) as (k' & v' & H & ->).
  rewrite split_kv_mk_body in H by done. by simplify_eq.
Qed.

Lemma split_kv_not_IoErr b e : split_kv b <> IoErr e.
Proof.
  destruct (body_ok b) eqn:E; [by destruct (split_kv_ok b E) as (?&?&->&_)|].
  by destruct (split_kv_not_ok b E) as [-> _].
Qed.

Lemma operation_from_into o : operation_into (operation_from o) = o.
Proof. unfold operation_from. repeat case_decide; by subst. Qed.

(** ** The frame a request is encoded to *)

Lemma encode_raw_frame buf o k v :
  (o = Put -> v <> None) -> u32 (5 + len k + value_len v) ->
  encode_raw buf o k v =
  (let body := mk_body (operation_into o) k (default [] v) in
   (buf ++ le_split 4 (len body) ++ body, 4 + len body)).
Proof.
  intros Hv Hu. unfold encode_raw.
  assert (bool_decide (o = Put) && bool_decide (v = None) = false) as ->.
  { destruct (decide (o = Put)); [|by rewrite bool_decide_false].
    rewrite andb_false_iff. right. apply bool_decide_false. auto. }
  cbv zeta. rewrite !mk_body_length. unfold mk_body, value_len in *.
  unfold u32 in Hu.
  destruct v as [v|]; simpl in *; rewrite !as_u32_small by (unfold u32; lia).
  - f_equal; [|len_lia]. rewrite <- !app_assoc. simpl. repeat f_equal; lia.
  - f_equal; [|len_lia]. rewrite <- !app_assoc, app_nil_r. simpl. repeat f_equal; lia.
Qed.

(** ** Properties *)

Lemma body_ok_mk_body body :
  body_ok body = true -> exists o k v, u32 (len k) /\ body = mk_body o k v.
Proof.
  intros (H1 & H2)%body_ok_spec. destruct body as [|o rest]; [simpl in H1; lia|].
  change (drop 1 (o :: rest)) with (drop 0 rest) in H2. rewrite drop_0 in H2.
  set (n := le_combine (take 4 rest)) in *.
  assert (length (take 4 rest) = 4%nat) as H4 by len_lia.
  pose proof (le_combine_u32 _ H4) as Hn. fold n in Hn. unfold u32 in Hn.
  exists o, (take (Z.to_nat n) (drop 4 rest)), (drop (Z.to_nat n) (drop 4 rest)).
  assert (len (take (Z.to_nat n) (drop 4 rest)) = n) as Hl by len_lia.
  rewrite Hl. split; [done|]. unfold mk_body. rewrite Hl, take_drop. unfold n.
  rewrite split_le_combine' by done. by rewrite take_drop.
Qed.

(** [split_kv] parses exactly the request bodies of the protocol: it returns
    (k, v) if and only if the body is an opcode, the length of [k] in four
    little-endian bytes, [k] and [v]; on anything else it panics. *)
Theorem split_kv_parses body :
  (forall k v, split_kv body = Done (k, v) <-> exists o, u32 (len k) /\ body = mk_body o k v) /\
  (split_kv body = Panic <-> ~ exists o k v, u32 (len k) /\ body = mk_body o k v).
Proof.
  assert (forall k v, split_kv body = Done (k, v) <-> exists o, u32 (len k) /\ body = mk_body o k v) as Hd.
  { intros k v. split; [|intros (o & Hk & ->); by apply split_kv_mk_body].
    intros H. destruct (body_ok body) eqn:E; [|by destruct (split_kv_not_ok _ E); congruence].
    destruct (body_ok_mk_body _ E) as (o & k' & v' & Hk & ->).
    rewrite split_kv_mk_body in H by done. injection H as <- <-. by exists o. }
  split; [done|]. split.
  - intros Hp (o & k & v & Hk & E). rewrite (proj2 (Hd k v)) in Hp; [done|by exists o].
  - intros Hn. destruct (body_ok body) eqn:E; [by destruct Hn; apply body_ok_mk_body|].
    by apply split_kv_not_ok.
Qed.

(** A request survives its encoding: [encode] gives the length-prefixed frame
    from whose body the accessors read back the opcode, the key and the value (an
    absent value reads as the empty one); a PUT without a value is refused. *)
Theorem request_roundtrip o k v :
  (encode Put k None = None) /\
  ((o = Put -> v <> None) -> u32 (5 + len k + value_len v) ->
   exists body, encode o k v = Some (le_split 4 (len body) ++ body) /\
     op body = Done (operation_into o) /\ key body = Done k /\
     split_kv body = Done (k, default [] v)).
Proof.
  split; [done|]. intros Hv Hu. exists (mk_body (operation_into o) k (default [] v)).
  unfold encode. rewrite encode_raw_frame by done. cbv zeta.
  assert (u32 (len k)) as Hk by (unfold u32, value_len in *; destruct v; lia).
  replace (negb (4 + len (mk_body (operation_into o) k (default [] v)) =? 0)) with true
    by (symmetry; apply negb_true_iff, Z.eqb_neq; lia).
  rewrite app_nil_l. split; [done|]. split; [apply op_mk_body|].
  split; [by apply key_mk_body|by apply split_kv_mk_body].
Qed.

Lemma request_roundtrip_witness :
  exists body, encode Put (bstr "k") (Some (bstr "v")) = Some (le_split 4 (len body) ++ body) /\
    split_kv body = Done (bstr "k", bstr "v").
Proof.
  destruct (request_roundtrip Put (bstr "k") (Some (bstr "v"))) as [_ H].
  destruct H as (body & E & _ & _ & Hs); [discriminate|decide_vm|].
  exists body. split; [exact E|exact Hs].
Defined.

End wire.

#[export] Existing Instance wire.Operation_eq_dec.
#[export] Existing Instance wire.Resp_eq_dec.
