(* ===== verification/Db.v ===== *)
(** * The in-memory table ([crates/storage/src/db.rs])

    [Db] is a hash map from keys to [Arc<[u8]>] values.  A GET clones the [Arc]
    into its response, so the table and pending responses share allocations,
    and [put] overwrites a value in place exactly when the table is the only
    holder.  The model keeps that sharing explicit: the table maps keys to
    locations, and the [Arc] allocations carry their strong counts.

    [KvStore]/[KvLaws] is the interface the other components are verified
    against: a finite map of byte strings.  The theorems about [Db] discharge
    it ([Db_laws]). *)

From S2P Require Import Prelude.
From stdpp Require Import gmultiset fin_maps.

(** ** The interface: what the table promises its clients *)

Class KvStore (S : Type) := {
  kv_new : S;
  kv_len : S -> Z;
  kv_get : S -> bytes -> option bytes * S;
  kv_put : S -> bytes -> bytes -> S;
  kv_insert_raw : S -> bytes -> bytes -> S;
  kv_iter : S -> list (bytes * bytes);
}.

(** The state is well formed and its content is a finite map; the operations
    read and update that map, and iteration visits every entry once, in an
    unspecified order. *)
Class KvLaws (S : Type) `{KvStore S} := {
  kv_wf : S -> Prop;
  kv_view : S -> gmap bytes bytes;
  kv_new_wf : kv_wf kv_new;
  kv_new_view : kv_view kv_new = ∅;
  kv_len_view s : kv_wf s -> kv_len s = Z.of_nat (size (kv_view s));
  kv_get_wf s k : kv_wf s -> kv_wf (kv_get s k).2;
  kv_get_fst s k : kv_wf s -> (kv_get s k).1 = kv_view s !! k;
  kv_get_view s k : kv_wf s -> kv_view (kv_get s k).2 = kv_view s;
  kv_put_wf s k v : kv_wf s -> kv_wf (kv_put s k v);
  kv_put_view s k v : kv_wf s -> kv_view (kv_put s k v) = <[k := v]> (kv_view s);
  kv_insert_raw_wf s k v : kv_wf s -> kv_wf (kv_insert_raw s k v);
  kv_insert_raw_view s k v : kv_wf s -> kv_view (kv_insert_raw s k v) = <[k := v]> (kv_view s);
  kv_iter_view s : kv_wf s -> kv_iter s ≡ₚ map_to_list (kv_view s);
}.

Create HintDb kv.
#[export] Hint Resolve kv_new_wf kv_get_wf kv_put_wf kv_insert_raw_wf : kv.

Module db.

(** ** [Arc<[u8]>] allocations *)

Record ArcInner := mk_arc { data : bytes; strong : nat }.

(** The table, and the [Arc] allocations it shares with responses. *)
Record Db := mk_db {
  db_map : gmap bytes N;
  arcs : gmap N ArcInner;
  next_loc : N;
}.

(** [Arc::from(v)] *)
Definition arc_from (s : Db) (v : bytes) : N * Db :=
  (next_loc s,
   mk_db (db_map s) (<[next_loc s := mk_arc v 1]> (arcs s)) (N.succ (next_loc s))).

(** [Arc::clone] *)
Definition arc_clone (s : Db) (l : N) : Db :=
  mk_db (db_map s) (alter (fun c => mk_arc (data c) (S (strong c))) l (arcs s)) (next_loc s).

(** Dropping one handle; the last one frees the allocation. *)
Definition arc_drop (s : Db) (l : N) : Db :=
  match arcs s !! l with
  | Some c =>
      match strong c with
      | S (S n) => mk_db (db_map s) (<[l := mk_arc (data c) (S n)]> (arcs s)) (next_loc s)
      | _ => mk_db (db_map s) (delete l (arcs s)) (next_loc s)
      end
  | None => s
  end.

(** [Arc::get_mut] succeeds for a unique handle; the buffer is overwritten. *)
Definition arc_write (s : Db) (l : N) (v : bytes) : Db :=
  mk_db (db_map s) (<[l := mk_arc v 1]> (arcs s)) (next_loc s).

Definition set_map (s : Db) (m : gmap bytes N) : Db := mk_db m (arcs s) (next_loc s).

(** ** The operations of [Db] *)

Definition new : Db := mk_db ∅ ∅ 0.

Definition db_len (s : Db) : Z := Z.of_nat (size (db_map s)).

Definition get (s : Db) (k : bytes) : option N := db_map s !! k.

(** In-place overwrite when the size matches and no reader holds the value;
    otherwise a fresh allocation replaces the slot (and the slot's handle on
    the old one is dropped). *)
Definition put (s : Db) (k v : bytes) : Db :=
  match db_map s !! k with
  | Some slot =>
      match arcs s !! slot with
      | Some c =>
          if (length (data c) =? length v)%nat && (strong c =? 1)%nat
          then arc_write s slot v
          else
            let '(l, s1) := arc_from s v in
            arc_drop (set_map s1 (<[k := l]> (db_map s1))) slot
      | None => s
      end
  | None =>
      let '(l, s1) := arc_from s v in
      set_map s1 (<[k := l]> (db_map s1))
  end.

(** [HashMap::remove]: the caller receives the handle. *)
Definition remove (s : Db) (k : bytes) : option N * Db :=
  (db_map s !! k, set_map s (delete k (db_map s))).
Definition remove_entry (s : Db) (k : bytes) : option (bytes * N) * Db :=
  ((fun l => (k, l)) <$> db_map s !! k, set_map s (delete k (db_map s))).

(** raw insert, only for recovery: [HashMap::insert] returns the old handle,
    which the statement drops. *)
Definition insert_raw (s : Db) (k v : bytes) : Db :=
  let '(l, s1) := arc_from s v in
  let s2 := set_map s1 (<[k := l]> (db_map s1)) in
  match db_map s !! k with Some old => arc_drop s2 old | None => s2 end.

(** The bytes behind a handle. *)
Definition deref (s : Db) (l : N) : option bytes := data <$> arcs s !! l.

Definition iter (s : Db) : list (bytes * bytes) :=
  omap (fun kl => (fun v => (kl.1, v)) <$> deref s kl.2) (map_to_list (db_map s)).

(** The table's content. *)
Definition view (s : Db) : gmap bytes bytes := omap (deref s) (db_map s).

(** A GET as stage 2 performs it: look up, clone the [Arc] into the response. *)
Definition get_clone (s : Db) (k : bytes) : option bytes * Db :=
  match get s k with
  | Some l => (deref s l, arc_clone s l)
  | None => (None, s)
  end.

(** ** The reference-count invariant

    [owners s l] counts the keys whose slot holds location [l]; the multiset
    [rd] holds the handles owned by responses.  Every allocation's strong
    count is the number of its holders, it has at least one, and no two keys
    share an allocation. *)

Definition owners (m : gmap bytes N) (l : N) : nat :=
  size (filter (fun kl : bytes * N => kl.2 = l) m).

Definition strong_of (s : Db) (l : N) : nat :=
  match arcs s !! l with Some c => strong c | None => 0 end.

Record arc_wf (rd : gmultiset N) (s : Db) : Prop := {
  wf_count l : strong_of s l = (owners (db_map s) l + multiplicity l rd)%nat;
  wf_single l : (owners (db_map s) l <= 1)%nat;
  wf_pos l c : arcs s !! l = Some c -> strong c <> 0%nat;
  wf_fresh l c : arcs s !! l = Some c -> (l < next_loc s)%N;
}.

(** *** Counting owners *)

Definition hit (o : option N) (l : N) : nat := if decide (o = Some l) then 1 else 0.

Lemma owners_delete m k l : owners m l = (hit (m !! k) l + owners (delete k m) l)%nat.
Proof.
  unfold owners, hit. destruct (m !! k) as [x|] eqn:E.
  - rewrite <- (insert_delete_id m k x) at 1 by done.
    case_decide as Hx; simplify_eq.
    + rewrite map_filter_insert_True by done.
      rewrite map_size_insert_None; [done|].
      apply map_lookup_filter_None. left. apply lookup_delete_eq.
    + rewrite map_filter_insert_False by naive_solver. simpl.
      by rewrite delete_delete_eq.
  - rewrite decide_False by done. by rewrite delete_id.
Qed.

Lemma owners_insert m k x l :
  owners (<[k := x]> m) l = (hit (Some x) l + owners (delete k m) l)%nat.
Proof. rewrite (owners_delete _ k), lookup_insert_eq, delete_insert_eq. done. Qed.

Lemma owners_insert_old m k x l :
  (owners (<[k := x]> m) l + hit (m !! k) l = hit (Some x) l + owners m l)%nat.
Proof. rewrite owners_insert, (owners_delete m k l). lia. Qed.

Lemma owners_pos m k l : m !! k = Some l -> owners m l <> 0%nat.
Proof.
  intros H. rewrite (owners_delete m k), H. unfold hit. rewrite decide_True by done. lia.
Qed.

Lemma owners_unique m k k' l :
  owners m l = 1%nat -> m !! k = Some l -> m !! k' = Some l -> k = k'.
Proof.
  intros H1 Hk Hk'. destruct (decide (k = k')) as [|Hne]; [done|].
  rewrite (owners_delete m k), Hk, (owners_delete (delete k m) k') in H1.
  rewrite lookup_delete_ne, Hk' in H1 by done.
  unfold hit in H1. rewrite !decide_True in H1 by done. lia.
Qed.

(** *** Handles: ownership moves between the table and the readers *)

Definition held (o : option N) : gmultiset N :=
  match o with Some l => {[+ l +]} | None => ∅ end.

#[local] Arguments held : simpl never.

Lemma multiplicity_held o l : multiplicity l (held o) = hit o l.
Proof.
  unfold hit, held. destruct o as [x|]; simpl.
  - rewrite multiplicity_singleton. repeat case_decide; naive_solver.
  - apply multiplicity_empty.
Qed.

Lemma held_None (rd : gmultiset N) : held None ⊎ rd = rd.
Proof. apply (left_id_L ∅ (⊎)). Qed.

Lemma strong_of_pos s rd l :
  arc_wf rd s -> (owners (db_map s) l + multiplicity l rd <> 0)%nat ->
  exists c, arcs s !! l = Some c /\ strong c = (owners (db_map s) l + multiplicity l rd)%nat.
Proof.
  intros Hwf Hpos. pose proof (wf_count _ _ Hwf l) as Hc. unfold strong_of in Hc.
  destruct (arcs s !! l) as [c|]; [eauto|lia].
Qed.

Lemma strong_of_zero s rd l :
  arc_wf rd s -> arcs s !! l = None -> owners (db_map s) l = 0%nat /\ multiplicity l rd = 0%nat.
Proof.
  intros Hwf Hn. pose proof (wf_count _ _ Hwf l) as Hc. unfold strong_of in Hc.
  rewrite Hn in Hc. lia.
Qed.

Lemma new_wf : arc_wf ∅ new.
Proof.
  assert (forall l, owners ∅ l = 0%nat) as Ho.
  { intros l. unfold owners. by rewrite map_filter_empty, map_size_empty. }
  split; simpl; intros *; [|rewrite Ho; lia|by rewrite lookup_empty..].
  unfold strong_of; simpl. by rewrite lookup_empty, Ho, multiplicity_empty.
Qed.

Lemma arc_from_wf rd s v :
  arc_wf rd s -> arc_wf (held (Some (next_loc s)) ⊎ rd) (arc_from s v).2.
Proof.
  intros Hwf.
  assert (arcs s !! next_loc s = None) as Hfr.
  { destruct (arcs s !! next_loc s) eqn:E; [|done]. apply (wf_fresh _ _ Hwf) in E. lia. }
  destruct (strong_of_zero _ _ _ Hwf Hfr) as [Ho Hm].
  split; simpl; intros l; [|by apply (wf_single _ _ Hwf)|..].
  - rewrite multiplicity_disj_union, multiplicity_held.
    pose proof (wf_count _ _ Hwf l) as Hc. unfold strong_of, hit in *; simpl.
    destruct (decide (l = next_loc s)) as [->|Hne].
    + rewrite lookup_insert_eq, decide_True by done. simpl. lia.
    + rewrite lookup_insert_ne, decide_False by naive_solver. lia.
  - intros c Hc. destruct (decide (l = next_loc s)) as [->|Hne].
    + rewrite lookup_insert_eq in Hc. by simplify_eq.
    + rewrite lookup_insert_ne in Hc by done. by eapply wf_pos.
  - intros c Hc. destruct (decide (l = next_loc s)) as [->|Hne]; [lia|].
    rewrite lookup_insert_ne in Hc by done. apply (wf_fresh _ _ Hwf) in Hc. lia.
Qed.

Lemma link_wf rd s k l :
  arc_wf (held (Some l) ⊎ rd) s -> owners (db_map s) l = 0%nat ->
  arc_wf (held (db_map s !! k) ⊎ rd) (set_map s (<[k := l]> (db_map s))).
Proof.
  intros Hwf Hz. split; simpl; intros x; [| |by eapply wf_pos|by eapply wf_fresh];
    pose proof (owners_insert_old (db_map s) k l x) as Ho.
  - pose proof (wf_count _ _ Hwf x) as Hc. unfold strong_of in *; simpl.
    rewrite multiplicity_disj_union, multiplicity_held in *. lia.
  - pose proof (wf_single _ _ Hwf x). unfold hit in *. repeat case_decide; simplify_eq; lia.
Qed.

Lemma unlink_wf rd s k :
  arc_wf rd s -> arc_wf (held (db_map s !! k) ⊎ rd) (set_map s (delete k (db_map s))).
Proof.
  intros Hwf. split; simpl; intros x; [| |by eapply wf_pos|by eapply wf_fresh];
    pose proof (owners_delete (db_map s) k x) as Ho.
  - pose proof (wf_count _ _ Hwf x) as Hc. unfold strong_of in *; simpl.
    rewrite multiplicity_disj_union, multiplicity_held. lia.
  - pose proof (wf_single _ _ Hwf x). lia.
Qed.

Lemma arc_clone_wf rd s l :
  arc_wf rd s -> is_Some (arcs s !! l) -> arc_wf (held (Some l) ⊎ rd) (arc_clone s l).
Proof.
  intros Hwf [c Hl]. split; simpl; intros x; [|by apply (wf_single _ _ Hwf)|..].
  - pose proof (wf_count _ _ Hwf x) as Hc. unfold strong_of in *; simpl.
    rewrite multiplicity_disj_union, multiplicity_held. unfold hit.
    destruct (decide (x = l)) as [->|Hne].
    + rewrite lookup_alter_eq, Hl, decide_True in * by done. simpl in *. lia.
    + rewrite lookup_alter_ne, decide_False by naive_solver. lia.
  - intros c' Hc'. destruct (decide (x = l)) as [->|Hne].
    + rewrite lookup_alter_eq, Hl in Hc'. by simplify_eq/=.
    + rewrite lookup_alter_ne in Hc' by done. by eapply wf_pos.
  - intros c' Hc'. destruct (decide (x = l)) as [->|Hne].
    + by eapply wf_fresh.
    + rewrite lookup_alter_ne in Hc' by done. by eapply wf_fresh.
Qed.

(** What [arc_drop] leaves in the heap. *)
Lemma arc_drop_lookup rd s l x :
  arc_wf (held (Some l) ⊎ rd) s ->
  arcs (arc_drop s l) !! x =
  (if decide (x = l)
   then c ← arcs s !! l; if decide (strong c = 1)%nat then None else Some (mk_arc (data c) (pred (strong c)))
   else arcs s !! x).
Proof.
  intros Hwf.
  destruct (strong_of_pos _ _ l Hwf) as (c & Hc & Hs).
  { rewrite multiplicity_disj_union, multiplicity_held. unfold hit. rewrite decide_True by done. lia. }
  unfold arc_drop. rewrite Hc. pose proof (wf_pos _ _ Hwf _ _ Hc) as Hp.
  case_decide as Hx; subst; simpl; destruct (strong c) as [|[|n]] eqn:Es; simpl; try done.
  - by rewrite lookup_delete_eq.
  - by rewrite lookup_insert_eq.
  - by rewrite lookup_delete_ne.
  - by rewrite lookup_insert_ne.
Qed.

Lemma arc_drop_map s l : db_map (arc_drop s l) = db_map s.
Proof. unfold arc_drop. by repeat case_match. Qed.

Lemma arc_drop_wf rd s l : arc_wf (held (Some l) ⊎ rd) s -> arc_wf rd (arc_drop s l).
Proof.
  intros Hwf. pose proof (arc_drop_lookup rd s l) as Hlk.
  split; intros x; specialize (Hlk x Hwf);
    [|rewrite arc_drop_map; by apply (wf_single _ _ Hwf)|..].
  - pose proof (wf_count _ _ Hwf x) as Hc. unfold strong_of in *. rewrite Hlk, arc_drop_map.
    rewrite multiplicity_disj_union, multiplicity_held in Hc. unfold hit in Hc.
    destruct (decide (x = l)) as [->|Hne].
    + rewrite decide_True in Hc by done. destruct (arcs s !! l) as [c|]; simpl; [|lia].
      case_decide; simpl; lia.
    + rewrite decide_False in Hc by naive_solver. lia.
  - intros c Hc. rewrite Hlk in Hc. case_decide; [|by eapply wf_pos].
    destruct (arcs s !! l) as [c'|] eqn:E; simpl in Hc; [|done].
    case_decide; simplify_eq/=. apply (wf_pos _ _ Hwf) in E. lia.
  - intros c Hc. rewrite Hlk in Hc.
    assert (next_loc (arc_drop s l) = next_loc s) as ->
      by (unfold arc_drop; by repeat case_match).
    case_decide; [|by eapply wf_fresh]. subst.
    destruct (arcs s !! l) as [c'|] eqn:E; simpl in Hc; [|done]. by eapply wf_fresh.
Qed.

(** A location somebody still holds keeps its bytes when another handle drops. *)
Lemma arc_drop_deref rd s l x :
  arc_wf (held (Some l) ⊎ rd) s ->
  (owners (db_map s) x + multiplicity x rd <> 0)%nat ->
  deref (arc_drop s l) x = deref s x.
Proof.
  intros Hwf Hx. unfold deref. rewrite (arc_drop_lookup rd) by done.
  case_decide as E; [subst|done].
  pose proof (wf_count _ _ Hwf l) as Hc. unfold strong_of in Hc.
  rewrite multiplicity_disj_union, multiplicity_held in Hc. unfold hit in Hc.
  rewrite decide_True in Hc by done.
  destruct (arcs s !! l) as [c|]; simpl in *; [|done].
  rewrite decide_False by lia. done.
Qed.

Lemma arc_from_deref rd s v x :
  arc_wf rd s -> (owners (db_map s) x + multiplicity x rd <> 0)%nat ->
  deref (arc_from s v).2 x = deref s x.
Proof.
  intros Hwf Hx. destruct (strong_of_pos _ _ _ Hwf Hx) as (c & Hc & _).
  pose proof (wf_fresh _ _ Hwf _ _ Hc). unfold deref; simpl.
  rewrite lookup_insert_ne by lia. done.
Qed.

Lemma arc_clone_deref s l x : deref (arc_clone s l) x = deref s x.
Proof.
  unfold deref; simpl. destruct (decide (x = l)) as [->|Hne].
  - rewrite lookup_alter_eq. by destruct (arcs s !! l).
  - by rewrite lookup_alter_ne.
Qed.

Lemma lookup_view s k : view s !! k = db_map s !! k ≫= deref s.
Proof. unfold view. apply lookup_omap. Qed.

(** ** Correctness of the updates *)

(** What an update of key [k] to [v] must do: keep the counts exact, change the
    content at [k] only, and leave the bytes behind every reader's handle. *)
Record updates (rd : gmultiset N) (s s' : Db) (k v : bytes) : Prop := {
  upd_wf : arc_wf rd s';
  upd_view : view s' = <[k := v]> (view s);
  upd_readers l : l ∈ rd -> deref s' l = deref s l;
}.

Lemma elem_of_multiplicity_ne (rd : gmultiset N) l : l ∈ rd -> multiplicity l rd <> 0%nat.
Proof. rewrite elem_of_multiplicity. lia. Qed.

(** A fresh allocation linked at [k], before the old handle is dropped. *)
Lemma fresh_link_correct rd s k v :
  arc_wf rd s ->
  let s2 := set_map (arc_from s v).2 (<[k := next_loc s]> (db_map s)) in
  arc_wf (held (db_map s !! k) ⊎ rd) s2 /\
  deref s2 (next_loc s) = Some v /\
  forall l, (owners (db_map s) l + multiplicity l rd <> 0)%nat -> deref s2 l = deref s l.
Proof.
  intros Hwf s2. split_and!.
  - apply (link_wf rd (arc_from s v).2 k (next_loc s)); [by apply arc_from_wf|].
    apply (strong_of_zero s rd); [done|].
    destruct (arcs s !! next_loc s) eqn:E; [|done]. apply (wf_fresh _ _ Hwf) in E. lia.
  - unfold deref; simpl. by rewrite lookup_insert_eq.
  - intros l Hl. by eapply (arc_from_deref rd).
Qed.

Lemma view_insert s s' k v l :
  db_map s' = <[k := l]> (db_map s) -> deref s' l = Some v ->
  (forall k' x, k' <> k -> db_map s !! k' = Some x -> deref s' x = deref s x) ->
  view s' = <[k := v]> (view s).
Proof.
  intros Hm Hl Hd. apply map_eq. intros k'. rewrite lookup_view, Hm.
  destruct (decide (k' = k)) as [->|Hne].
  - by rewrite !lookup_insert_eq.
  - rewrite !lookup_insert_ne, lookup_view by done.
    destruct (db_map s !! k') eqn:E; simpl; eauto.
Qed.

Lemma insert_raw_correct rd s k v : arc_wf rd s -> updates rd s (insert_raw s k v) k v.
Proof.
  intros Hwf. destruct (fresh_link_correct rd s k v Hwf) as (Hwf2 & Hnew & Hold).
  unfold insert_raw, arc_from in *. cbv beta iota zeta. simpl db_map in *. simpl snd in *.
  set (s2 := set_map _ _) in *.
  destruct (db_map s !! k) as [old|] eqn:E.
  - pose proof (arc_drop_wf _ _ _ Hwf2) as Hwf3.
    assert (forall l, (owners (db_map s2) l + multiplicity l rd <> 0)%nat ->
      deref (arc_drop s2 old) l = deref s2 l) as Hd by (intros; by eapply arc_drop_deref).
    split; [done| |].
    + apply (view_insert _ _ _ _ (next_loc s)); [by rewrite arc_drop_map| |].
      * rewrite Hd; [done|]. simpl.
        pose proof (owners_pos (<[k:=next_loc s]> (db_map s)) k (next_loc s) (lookup_insert_eq _ _ _)).
        lia.
      * intros k' x Hne Hx. rewrite Hd, Hold.
        -- done.
        -- pose proof (owners_pos _ _ _ Hx). lia.
        -- assert (owners (db_map s2) x <> 0%nat); [|lia].
           apply (owners_pos _ k'). simpl. by rewrite lookup_insert_ne.
    + intros l Hl%elem_of_multiplicity_ne. rewrite Hd, Hold; [done|lia..].
  - split; [by rewrite held_None in Hwf2| |].
    + apply (view_insert _ _ _ _ (next_loc s)); [done..|].
      intros k' x Hne Hx. apply Hold. pose proof (owners_pos _ _ _ Hx). lia.
    + intros l Hl%elem_of_multiplicity_ne. apply Hold. lia.
Qed.

(** The in-place branch: the table is the only holder. *)
Lemma arc_write_correct rd s k v slot c :
  arc_wf rd s -> db_map s !! k = Some slot -> arcs s !! slot = Some c -> strong c = 1%nat ->
  updates rd s (arc_write s slot v) k v.
Proof.
  intros Hwf Hk Hc Hs.
  pose proof (wf_count _ _ Hwf slot) as Hn. unfold strong_of in Hn. rewrite Hc, Hs in Hn.
  pose proof (owners_pos _ _ _ Hk) as Hp.
  assert (owners (db_map s) slot = 1%nat) as Ho by lia.
  assert (forall x, x <> slot -> deref (arc_write s slot v) x = deref s x) as Hd.
  { intros x Hx. unfold deref; simpl. by rewrite lookup_insert_ne. }
  split.
  - split; simpl; intros x; [|by apply (wf_single _ _ Hwf)|..].
    + pose proof (wf_count _ _ Hwf x) as Hx. unfold strong_of in *; simpl.
      destruct (decide (x = slot)) as [->|Hne].
      * rewrite lookup_insert_eq. simpl. lia.
      * rewrite lookup_insert_ne by done. done.
    + intros c'. destruct (decide (x = slot)) as [->|Hne].
      * rewrite lookup_insert_eq. intros; by simplify_eq.
      * rewrite lookup_insert_ne by done. by eapply wf_pos.
    + intros c'. destruct (decide (x = slot)) as [->|Hne].
      * intros _. by eapply wf_fresh.
      * rewrite lookup_insert_ne by done. by eapply wf_fresh.
  - apply (view_insert _ _ _ _ slot).
    + simpl. symmetry. by apply insert_id.
    + unfold deref; simpl. by rewrite lookup_insert_eq.
    + intros k' x Hne Hx. apply Hd. intros ->. apply Hne. by eapply owners_unique.
  - intros l Hl%elem_of_multiplicity_ne. apply Hd. intros ->. lia.
Qed.

(** [put] writes in place or does what [insert_raw] does. *)
Lemma put_cases s k v :
  (exists slot c, db_map s !! k = Some slot /\ arcs s !! slot = Some c /\
     length (data c) = length v /\ strong c = 1%nat /\ put s k v = arc_write s slot v) \/
  (exists slot, db_map s !! k = Some slot /\ arcs s !! slot = None /\ put s k v = s) \/
  put s k v = insert_raw s k v.
Proof.
  unfold put, insert_raw. destruct (db_map s !! k) as [slot|] eqn:E; [|auto].
  destruct (arcs s !! slot) as [c|] eqn:Ec; [|right; left; by exists slot].
  destruct (_ && _) eqn:Eb; [|auto].
  apply andb_true_iff in Eb as [?%Nat.eqb_eq ?%Nat.eqb_eq]. left. eauto 10.
Qed.

Lemma put_updates rd s k v : arc_wf rd s -> updates rd s (put s k v) k v.
Proof.
  intros Hwf. destruct (put_cases s k v) as [(slot&c&?&?&?&?&->)|[(slot&Hk&Hn&_)| ->]].
  - by eapply arc_write_correct.
  - apply (strong_of_zero _ _ _ Hwf) in Hn as [Hn _]. by apply owners_pos in Hk.
  - by apply insert_raw_correct.
Qed.

Lemma get_clone_wf rd s k :
  arc_wf rd s -> arc_wf (held (get s k) ⊎ rd) (get_clone s k).2.
Proof.
  intros Hwf. unfold get_clone, get. destruct (db_map s !! k) as [l|] eqn:E; simpl.
  - apply arc_clone_wf; [done|]. pose proof (owners_pos _ _ _ E).
    destruct (strong_of_pos _ _ l Hwf) as (c & -> & _); [lia|eauto].
  - by rewrite held_None.
Qed.

Lemma get_clone_view s k : view (get_clone s k).2 = view s.
Proof.
  apply map_eq. intros k'. rewrite !lookup_view. unfold get_clone.
  destruct (get s k) as [l|]; [|done]. simpl.
  destruct (db_map s !! k'); simpl; [apply arc_clone_deref|done].
Qed.

Lemma get_clone_fst s k : (get_clone s k).1 = view s !! k.
Proof. unfold get_clone, get. rewrite lookup_view. by destruct (db_map s !! k). Qed.

(** Every slot of a well-formed table points at an allocation. *)
Lemma deref_slot rd s k l : arc_wf rd s -> db_map s !! k = Some l -> is_Some (deref s l).
Proof.
  intros Hwf Hk. pose proof (owners_pos _ _ _ Hk).
  destruct (strong_of_pos _ _ l Hwf) as (c & Hc & _); [lia|].
  unfold deref. rewrite Hc. eauto.
Qed.

Lemma view_dom rd s : arc_wf rd s -> dom (view s) = dom (db_map s).
Proof.
  intros Hwf. apply set_eq. intros k. rewrite !elem_of_dom, lookup_view.
  split; [intros [v Hv]; destruct (db_map s !! k) eqn:E; [eauto|done]|].
  intros [l Hl]. rewrite Hl. simpl. by eapply deref_slot.
Qed.

Lemma len_view rd s : arc_wf rd s -> db_len s = Z.of_nat (size (view s)).
Proof.
  intros Hwf. unfold db_len. f_equal. rewrite <- !size_dom. by rewrite (view_dom rd).
Qed.

(** ** Iteration *)

Lemma omap_keyed_fst {A B} (f : A -> option B) (l : list (bytes * A)) k :
  k ∈ (omap (fun kl => (fun v => (kl.1, v)) <$> f kl.2) l).*1 -> k ∈ l.*1.
Proof.
  intros ([k' v] & -> & ([k'' a] & Hin & Ha)%list_elem_of_omap)%list_elem_of_fmap.
  simpl in Ha. destruct (f a); simplify_eq/=. apply list_elem_of_fmap. by eexists (_, a).
Qed.

Lemma omap_keyed_NoDup {A B} (f : A -> option B) (l : list (bytes * A)) :
  NoDup l.*1 -> NoDup (omap (fun kl => (fun v => (kl.1, v)) <$> f kl.2) l).*1.
Proof.
  induction l as [|[k a] l IH]; simpl; [done|]. intros [Hk Hnd]%NoDup_cons.
  destruct (f a); simpl; [|auto]. constructor; [|auto].
  intros ?%omap_keyed_fst. done.
Qed.

Lemma iter_view s : iter s ≡ₚ map_to_list (view s).
Proof.
  apply NoDup_Permutation; [|apply NoDup_map_to_list|].
  - apply (NoDup_fmap_1 fst). apply omap_keyed_NoDup, NoDup_fst_map_to_list.
  - intros [k v]. unfold iter. rewrite list_elem_of_omap, elem_of_map_to_list, lookup_view. split.
    + intros ([k' l] & Hin%elem_of_map_to_list & Hv). simpl in *.
      destruct (deref s l) eqn:E; simplify_eq/=. by rewrite Hin.
    + intros Hv. destruct (db_map s !! k) as [l|] eqn:E; simpl in *; [|done].
      exists (k, l). rewrite elem_of_map_to_list. split; [done|]. simpl. by rewrite Hv.
Qed.

(** ** [Db] implements the interface *)

#[export] Instance Db_store : KvStore Db := {|
  kv_new := new;
  kv_len := db_len;
  kv_get := get_clone;
  kv_put := put;
  kv_insert_raw := insert_raw;
  kv_iter := iter;
|}.

#[export] Program Instance Db_laws : KvLaws Db := {|
  kv_wf s := exists rd, arc_wf rd s;
  kv_view := view;
|}.
Next Obligation. exists ∅. apply new_wf. Qed.
Next Obligation. done. Qed.
Next Obligation. intros s [rd Hwf]. by apply (len_view rd). Qed.
Next Obligation. intros s k [rd Hwf]. eexists. by apply get_clone_wf. Qed.
Next Obligation. intros s k _. apply get_clone_fst. Qed.
Next Obligation. intros s k _. apply get_clone_view. Qed.
Next Obligation. intros s k v [rd Hwf]. exists rd. by eapply upd_wf, put_updates. Qed.
Next Obligation. intros s k v [rd Hwf]. by eapply upd_view, put_updates. Qed.
Next Obligation. intros s k v [rd Hwf]. exists rd. by eapply upd_wf, insert_raw_correct. Qed.
Next Obligation. intros s k v [rd Hwf]. by eapply upd_view, insert_raw_correct. Qed.
Next Obligation. intros s _. apply iter_view. Qed.

(** ** Properties *)

(** C23: [Db::put] on a table whose reference counts are exact updates the
    content at its key only, keeps the counts exact, and never changes the
    bytes behind a handle a response still holds, although it overwrites in
    place when it can. *)
Theorem put_refines_map rd s k v :
  arc_wf rd s ->
  arc_wf rd (put s k v) /\
  view (put s k v) = <[k := v]> (view s) /\
  (forall l, l ∈ rd -> deref (put s k v) l = deref s l).
Proof.
  intros Hwf. destruct (put_updates rd s k v Hwf) as [H1 H2 H3]. auto.
Qed.

(** [put] reuses the value's allocation (allocates nothing) exactly when
    the key is present with a value of the same length and no response holds a
    handle on it. *)
Theorem put_in_place_iff rd s k v :
  arc_wf rd s ->
  next_loc (put s k v) = next_loc s <->
  exists l w, get s k = Some l /\ deref s l = Some w /\ length w = length v /\ l ∉ rd.
Proof.
  intros Hwf. assert (next_loc (insert_raw s k v) <> next_loc s) as Hfresh.
  { unfold insert_raw, arc_from. destruct (db_map s !! k) as [o|]; simpl; [|lia].
    unfold arc_drop; simpl. repeat case_match; simpl; lia. }
  split.
  - intros Hn. destruct (put_cases s k v) as [(l&c&Hk&Hc&Hl&Hs&_)|[(l&Hk&Hc&_)|E]].
    + exists l, (data c). unfold get, deref. rewrite Hc. split_and!; try done.
      intros Hrd%elem_of_multiplicity_ne. pose proof (wf_count _ _ Hwf l) as Hcnt.
      unfold strong_of in Hcnt. rewrite Hc, Hs in Hcnt. apply owners_pos in Hk. lia.
    + apply (strong_of_zero _ _ _ Hwf) in Hc as [Hc _]. by apply owners_pos in Hk.
    + by rewrite E in Hn.
  - intros (l & w & Hk & Hw & Hl & Hrd). unfold get, deref, put in *. rewrite Hk.
    destruct (arcs s !! l) as [c|] eqn:Hc; simplify_eq/=.
    pose proof (wf_count _ _ Hwf l) as Hcnt. unfold strong_of in Hcnt. rewrite Hc in Hcnt.
    pose proof (owners_pos _ _ _ Hk). rewrite not_elem_of_multiplicity in Hrd.
    rewrite Hl, Nat.eqb_refl. simpl. destruct (strong c =? 1)%nat eqn:Es; [done|].
    apply Nat.eqb_neq in Es. pose proof (wf_single _ _ Hwf l). lia.
Qed.

(** A sequence of PUTs applied to the table. *)
Definition put_all (s : Db) (kvs : list (bytes * bytes)) : Db :=
  fold_left (fun s kv => put s kv.1 kv.2) kvs s.

Lemma put_all_updates rd s kvs :
  arc_wf rd s ->
  arc_wf rd (put_all s kvs) /\
  (forall l, l ∈ rd -> deref (put_all s kvs) l = deref s l).
Proof.
  revert s. induction kvs as [|[k v] kvs IH]; intros s Hwf; simpl; [auto|].
  destruct (put_updates rd s k v Hwf) as [Hwf' _ Hrd].
  destruct (IH _ Hwf') as [H1 H2]. split; [done|].
  intros l Hl. unfold put_all in *. by rewrite H2, Hrd.
Qed.

(** C24: the value a GET put into its response is a snapshot: whatever PUTs run
    before the response is sent, the bytes behind the response's handle stay
    the value the key had at the GET. *)
Theorem get_is_snapshot rd s k l kvs :
  arc_wf rd s -> get s k = Some l ->
  deref (put_all (get_clone s k).2 kvs) l = view s !! k.
Proof.
  intros Hwf Hk. pose proof (get_clone_wf rd s k Hwf) as Hwf'. rewrite Hk in Hwf'.
  destruct (put_all_updates _ _ kvs Hwf') as [_ Hd]. rewrite Hd.
  - unfold get_clone. rewrite Hk. simpl. rewrite arc_clone_deref, lookup_view.
    unfold get in Hk. by rewrite Hk.
  - apply gmultiset_elem_of_disj_union. left. by apply gmultiset_elem_of_singleton.
Qed.

(** ** Witnesses *)

(** A table holding [k -> v], with one response holding the value of [k]. *)
Definition ex_db : Db := (get_clone (put new (bstr "k") (bstr "v")) (bstr "k")).2.

Lemma ex_put_wf : arc_wf ∅ (put new (bstr "k") (bstr "v")).
Proof. apply (upd_wf ∅ new _ (bstr "k") (bstr "v")), put_updates, new_wf. Qed.

Lemma ex_db_wf : arc_wf (held (Some 0%N)) ex_db.
Proof.
  pose proof (get_clone_wf ∅ _ (bstr "k") ex_put_wf) as H.
  rewrite (right_id_L ∅ (⊎)) in H. exact H.
Qed.

Lemma put_refines_map_witness :
  arc_wf (held (Some 0%N)) ex_db /\
  view (put ex_db (bstr "k") (bstr "w")) = <[bstr "k" := bstr "w"]> (view ex_db) /\
  deref (put ex_db (bstr "k") (bstr "w")) 0 = Some (bstr "v").
Proof.
  destruct (put_refines_map (held (Some 0%N)) ex_db (bstr "k") (bstr "w") ex_db_wf) as (_ & H1 & H2).
  split; [apply ex_db_wf|]. split; [exact H1|].
  rewrite H2; [reflexivity|]. by apply gmultiset_elem_of_singleton.
Defined.

Lemma put_in_place_iff_witness :
  next_loc (put (put new (bstr "k") (bstr "v")) (bstr "k") (bstr "w")) =
  next_loc (put new (bstr "k") (bstr "v")).
Proof.
  apply (put_in_place_iff ∅ _ (bstr "k") (bstr "w") ex_put_wf).
  exists 0%N, (bstr "v"). split_and!; [reflexivity..|]. apply gmultiset_not_elem_of_empty.
Defined.

Lemma get_is_snapshot_witness :
  deref (put_all ex_db [(bstr "k", bstr "w"); (bstr "k", bstr "zz")]) 0 = Some (bstr "v").
Proof.
  unfold ex_db. rewrite (get_is_snapshot ∅ (put new (bstr "k") (bstr "v")) (bstr "k") 0%N
    [(bstr "k", bstr "w"); (bstr "k", bstr "zz")] ex_put_wf eq_refl).
  reflexivity.
Defined.

End db.

#[export] Existing Instance db.Db_store.
#[export] Existing Instance db.Db_laws.
