(* ===== verification/Fmt.v ===== *)
(** * The Debug printer of the table ([Debug for Db] in [crates/storage/src/db.rs])

    [std::str::from_utf8] as the decoder of RFC 3629 that the standard library
    implements, to a list of Unicode scalar values, and the entries that
    [debug_map] is given. *)

From S2P Require Import Prelude Db.
Local Open Scope Z_scope.

Module fmt.

(** ** UTF-8 *)

(** Unicode scalar values. *)
Definition is_char (c : Z) : bool := (0 <=? c) && (c <? 0xD800) || (0xE000 <=? c) && (c <? 0x110000).

Definition between (lo hi b : Z) : bool := (lo <=? b) && (b <=? hi).
(** The six bits of a continuation byte. *)
Definition low6 (b : Z) : Z := Z.land b 0x3F.

(** [std::str::from_utf8]: the second byte's range depends on the first. *)
Fixpoint from_utf8 (s : bytes) : option (list Z) :=
  match s with
  | [] => Some []
  | b0 :: s =>
      let b0 := byte.unsigned b0 in
      if b0 <? 0x80 then cons b0 <$> from_utf8 s else
      match s with
      | [] => None
      | b1 :: s =>
          let b1 := byte.unsigned b1 in
          if between 0xC2 0xDF b0 then
            if between 0x80 0xBF b1 then cons (Z.land b0 0x1F * 64 + low6 b1) <$> from_utf8 s else None
          else
          match s with
          | [] => None
          | b2 :: s =>
              let b2 := byte.unsigned b2 in
              if between 0xE0 0xEF b0 then
                if between (if b0 =? 0xE0 then 0xA0 else 0x80) (if b0 =? 0xED then 0x9F else 0xBF) b1 &&
                   between 0x80 0xBF b2
                then cons ((Z.land b0 0x0F * 64 + low6 b1) * 64 + low6 b2) <$> from_utf8 s else None
              else
              match s with
              | [] => None
              | b3 :: s =>
                  let b3 := byte.unsigned b3 in
                  if between 0xF0 0xF4 b0 &&
                     between (if b0 =? 0xF0 then 0x90 else 0x80) (if b0 =? 0xF4 then 0x8F else 0xBF) b1 &&
                     between 0x80 0xBF b2 && between 0x80 0xBF b3
                  then cons (((Z.land b0 0x07 * 64 + low6 b1) * 64 + low6 b2) * 64 + low6 b3) <$> from_utf8 s
                  else None
              end
          end
      end
  end.

(** ** [fmt] *)

Definition text (s : bytes) : list Z := default (byte.unsigned <$> bstr "~NaN~") (from_utf8 s).

(** The entries of the [debug_map], which is the one field [map] of the [debug_struct]. *)
Definition fmt {S} `{KvStore S} (db : S) : list (list Z * list Z) :=
  (fun kv => (text kv.1, text kv.2)) <$> kv_iter db.

(** ** The specification of UTF-8 *)

Definition byte_of (z : Z) : Init.Byte.byte := byte.of_Z z.
Definition encode_char (c : Z) : bytes :=
  byte_of <$>
  if c <? 0x80 then [c]
  else if c <? 0x800 then [0xC0 + c / 64; 0x80 + c mod 64]
  else if c <? 0x10000 then [0xE0 + c / 64 / 64; 0x80 + c / 64 mod 64; 0x80 + c mod 64]
  else [0xF0 + c / 64 / 64 / 64; 0x80 + c / 64 / 64 mod 64; 0x80 + c / 64 mod 64; 0x80 + c mod 64].

Lemma land_ones b n : 0 <= n -> Z.land b (2 ^ n - 1) = b mod 2 ^ n.
Proof. intros Hn. rewrite <- Z.land_ones by done. by rewrite Z.ones_equiv. Qed.

Lemma low6_mod b : low6 b = b mod 64.
Proof. apply (land_ones b 6). done. Qed.

Lemma unsigned_byte_of z : 0 <= z < 256 -> byte.unsigned (byte_of z) = z.
Proof. intros Hz. unfold byte_of. rewrite byte.unsigned_of_Z. by apply Z.mod_small. Qed.

Lemma byte_of_unsigned b : byte_of (byte.unsigned b) = b.
Proof. apply byte.of_Z_unsigned. Qed.

Lemma land_low b : Z.land b 0x1F = b mod 32 /\ Z.land b 0x0F = b mod 16 /\ Z.land b 0x07 = b mod 8.
Proof. split_and!; [apply (land_ones b 5)|apply (land_ones b 4)|apply (land_ones b 3)]; done. Qed.

(** Linear arithmetic with the divisions of the encoding. *)
Ltac solve_utf8 :=
  unfold is_char, between in *;
  repeat match goal with |- context [if ?x =? ?y then _ else _] => destruct (Z.eqb_spec x y) end;
  Z.to_euclidean_division_equations; lia.

Ltac decide_if :=
  match goal with
  | |- context [if ?b then _ else _] =>
      first [replace b with true by solve_utf8 | replace b with false by solve_utf8]
  end.

Lemma from_utf8_char c s : is_char c = true -> from_utf8 (encode_char c ++ s) = cons c <$> from_utf8 s.
Proof.
  intros Hc. unfold encode_char. assert (0 <= c < 0x110000) as Hb by (unfold is_char in Hc; lia).
  destruct (c <? 0x80) eqn:E1; [|destruct (c <? 0x800) eqn:E2; [|destruct (c <? 0x10000) eqn:E3]];
    cbn [fmap list_fmap app from_utf8]; rewrite !unsigned_byte_of by solve_utf8;
    repeat decide_if; rewrite ?low6_mod, ?(proj1 (land_low _)), ?(proj1 (proj2 (land_low _))), ?(proj2 (proj2 (land_low _)));
    do 2 f_equal; solve_utf8.
Qed.

Lemma from_utf8_cons b0 s cs :
  from_utf8 (b0 :: s) = Some cs ->
  exists c s' cs', is_char c = true /\ b0 :: s = encode_char c ++ s' /\ cs = c :: cs' /\ from_utf8 s' = Some cs'.
Proof.
  pose proof (byte.unsigned_range b0) as R0. cbn [from_utf8].
  assert (forall z b, z = byte.unsigned b -> byte_of z = b) as Hby by (intros z b ->; apply byte_of_unsigned).
  destruct (byte.unsigned b0 <? 0x80) eqn:E0.
  { intros (cs' & Hs & ->)%fmap_Some. exists (byte.unsigned b0), s, cs'. split; [unfold is_char; lia|]. split; [|done].
    unfold encode_char. rewrite E0. cbn [fmap list_fmap app]. f_equal. by rewrite byte_of_unsigned. }
  destruct s as [|b1 s]; [done|]. pose proof (byte.unsigned_range b1) as R1.
  destruct (between 0xC2 0xDF _) eqn:E1.
  { destruct (between 0x80 0xBF _) eqn:E2; [|done]. intros (cs' & Hs & ->)%fmap_Some.
    do 3 eexists. split; [|split; [|by split]]; rewrite low6_mod, (proj1 (land_low _)); [solve_utf8|].
    unfold encode_char. repeat decide_if. cbn [fmap list_fmap app]. repeat (apply (f_equal2 cons); [symmetry; apply Hby; solve_utf8|]). done. }
  destruct s as [|b2 s]; [done|]. pose proof (byte.unsigned_range b2) as R2.
  destruct (between 0xE0 0xEF _) eqn:E2.
  { destruct (_ && _) eqn:E3; [|done]. apply andb_true_iff in E3 as [E3 E4]. intros (cs' & Hs & ->)%fmap_Some.
    do 3 eexists. split; [|split; [|by split]]; rewrite !low6_mod, (proj1 (proj2 (land_low _)));
      destruct (Z.eqb_spec (byte.unsigned b0) 0xE0), (Z.eqb_spec (byte.unsigned b0) 0xED); try lia; try solve_utf8.
    all: unfold encode_char; repeat decide_if; cbn [fmap list_fmap app].
    all: repeat (apply (f_equal2 cons); [symmetry; apply Hby; solve_utf8|]); done. }
  destruct s as [|b3 s]; [done|]. pose proof (byte.unsigned_range b3) as R3.
  destruct (_ && _) eqn:E3; [|done]. rewrite !andb_true_iff in E3. destruct E3 as [[[E3 E4] E5] E6].
  intros (cs' & Hs & ->)%fmap_Some.
  do 3 eexists. split; [|split; [|by split]]; rewrite !low6_mod, (proj2 (proj2 (land_low _)));
    destruct (Z.eqb_spec (byte.unsigned b0) 0xF0), (Z.eqb_spec (byte.unsigned b0) 0xF4); try lia; try solve_utf8.
  all: unfold encode_char; repeat decide_if; cbn [fmap list_fmap app].
  all: repeat (apply (f_equal2 cons); [symmetry; apply Hby; solve_utf8|]); done.
Qed.

(** [from_utf8] accepts exactly the encodings of sequences of scalar values. *)
Lemma from_utf8_iff s cs :
  from_utf8 s = Some cs <-> Forall (fun c => is_char c = true) cs /\ s = concat (encode_char <$> cs).
Proof.
  split.
  - revert s. induction cs as [|c cs IH]; intros [|b0 s] Hs; try done.
    + by apply from_utf8_cons in Hs as (?&?&?&_&_&?&_).
    + apply from_utf8_cons in Hs as (c' & s' & cs' & Hc & -> & [= <- <-] & Hs). destruct (IH s' Hs) as [Hf ->].
      split; [by constructor|done].
  - intros [Hf ->]. induction Hf as [|c cs Hc Hf IH]; [done|]. rewrite fmap_cons. cbn [concat].
    by rewrite from_utf8_char, IH.
Qed.

(** ** Property *)

(** The printer shows every entry of the table once; a key or value that is not
    UTF-8 is shown as [~NaN~], and text as itself: the scalar values shown encode
    to the bytes stored. *)
Theorem fmt_shows_entries {S} `{KvLaws S} (db : S) :
  kv_wf db ->
  fmt db ≡ₚ (fun kv => (text kv.1, text kv.2)) <$> map_to_list (kv_view db) /\
  (forall s cs, text s = cs ->
     (Forall (fun c => is_char c = true) cs /\ s = concat (encode_char <$> cs)) \/
     (cs = byte.unsigned <$> bstr "~NaN~" /\ from_utf8 s = None)).
Proof.
  intros Hwf. split; [unfold fmt; by rewrite kv_iter_view|]. intros s cs <-. unfold text.
  destruct (from_utf8 s) as [cs|] eqn:E; [left; by apply from_utf8_iff|by right].
Qed.

(** "é€" and a byte that is no UTF-8. *)
Lemma fmt_shows_entries_witness :
  exists l, fmt (kv_insert_raw (kv_new (S := db.Db)) [Byte.xc3; Byte.xa9; Byte.xe2; Byte.x82; Byte.xac] [Byte.xff]) = l /\
    l ≡ₚ [([0xE9; 0x20AC], [126; 78; 97; 78; 126])].
Proof.
  eexists. split; [reflexivity|].
  destruct (fmt_shows_entries (kv_insert_raw (kv_new (S := db.Db)) [Byte.xc3; Byte.xa9; Byte.xe2; Byte.x82; Byte.xac] [Byte.xff]))
    as [E _]; [apply kv_insert_raw_wf, kv_new_wf|]. rewrite E. vm_compute. reflexivity.
Defined.

End fmt.
