(* ===== verification/WalFormat.v ===== *)
(** * The write-ahead-log format ([crates/storage/src/wal_format.rs])

    The FNV-1a checksum, the record encoder and decoder, and the naming and
    listing of segment files.  A directory listing is what [read_dir] yields:
    a list of entries in an unspecified order, each of which may be an I/O
    error; a path is represented by its file name in the data directory. *)

From S2P Require Import Prelude Wire.
Local Open Scope Z_scope.

Module wal_format.

Definition SEG_PREFIX : bytes := bstr "wal.".
Definition LEN_SIZE : Z := 4.
Definition CHECKSUM_SIZE : Z := 8.

(** ** Segment names *)

(** The value of an ASCII digit. *)
Definition digit_val (b : Init.Byte.byte) : option Z :=
  let d := byte.unsigned b - 48 in
  if (0 <=? d) && (d <=? 9) then Some d else None.

(** The digit loop of [str::parse::<u64>]: checked multiply, then checked add. *)
Fixpoint parse_digits (acc : Z) (ds : bytes) : option Z :=
  match ds with
  | [] => Some acc
  | c :: ds =>
      d ← digit_val c;
      if 2 ^ 64 <=? acc * 10 then None else
      if 2 ^ 64 <=? acc * 10 + d then None else
      parse_digits (acc * 10 + d) ds
  end.

(** [num.parse::<u64>().ok()]: an optional [+], then at least one digit. *)
Definition parse_u64 (s : bytes) : option Z :=
  match s with
  | [] => None
  | c :: rest =>
      if decide (c = Byte.x2b) then
        match rest with [] => None | _ => parse_digits 0 rest end
      else parse_digits 0 s
  end.

Fixpoint strip_prefix (p s : bytes) : option bytes :=
  match p, s with
  | [], _ => Some s
  | a :: p, b :: s => if decide (a = b) then strip_prefix p s else None
  | _ :: _, [] => None
  end.

(** The start LSN a file name declares, if it is a segment's. *)
Definition segment_lsn (name : bytes) : option Z :=
  num ← strip_prefix SEG_PREFIX name; parse_u64 num.

(** [sort_by_key(|(s, _)| *s)] is a stable sort. *)
Fixpoint insert_by_key {A} (x : Z * A) (l : list (Z * A)) : list (Z * A) :=
  match l with
  | [] => [x]
  | y :: l' => if x.1 <=? y.1 then x :: y :: l' else y :: insert_by_key x l'
  end.
Definition sort_by_key {A} (l : list (Z * A)) : list (Z * A) :=
  foldr insert_by_key [] l.

(** list wal segments sorted by start_lsn *)
Definition list_segments (dir_exists : bool) (read_dir : outcome (list (outcome bytes)))
    : outcome (list (Z * bytes)) :=
  if negb dir_exists then Done [] else
  entries ← read_dir;
  v ← fold_outcome (fun v e =>
        name ← e;
        match segment_lsn name with
        | Some start => Done (v ++ [(start, name)])
        | None => Done v
        end) [] entries;
  Done (sort_by_key v).

(** [n] decimal digits of [z], most significant first: [{:0n}]. *)
Fixpoint dec_digits (n : nat) (z : Z) : bytes :=
  match n with
  | O => []
  | S n => dec_digits n (z / 10) ++ [byte.of_Z (48 + z mod 10)]
  end.

Definition segment_path (start_lsn : Z) : bytes := SEG_PREFIX ++ dec_digits 20 start_lsn.

(** ** Records *)

Definition FNV_BASIS : Z := 0xcbf29ce484222325.
Definition FNV_PRIME : Z := 0x00000100000001b3.

Definition checksum_step (h : Z) (x : Init.Byte.byte) : Z :=
  wrap64 (Z.lxor h (byte.unsigned x) * FNV_PRIME).
(** fnv1a 64bit checksum *)
Definition checksum (b : bytes) : Z := fold_left checksum_step b FNV_BASIS.

(** Body: [[len](wire-body | [lsn][op][k-len][key][value])[checksum]].  The
    checksum covers what was appended from [body_start] on. *)
Definition encode_record (out : bytes) (lsn : Z) (wire_bytes_blob : bytes) : bytes :=
  let body_len := 8 + len wire_bytes_blob in
  let out := out ++ le_split 4 (as_u32 body_len) in
  let body_start := length out in
  let out := out ++ le_split 8 lsn in
  let out := out ++ wire_bytes_blob in
  let cs := checksum (drop body_start out) in
  out ++ le_split 8 cs.

(** Result of decoder *)
Record Record := mk_record { lsn : Z; wire_body : bytes; consumed : Z }.

(** Decode one record at the start of bytes; [None]: torn or corrupted tail. *)
Definition decode_record (b : bytes) : outcome (option Record) :=
  if len b <? LEN_SIZE then Done None else
  h ← slice b 0 4;
  body_len ← wire.rd_u32 h;
  let body_end := LEN_SIZE + body_len in
  if len b <? body_end + CHECKSUM_SIZE then Done None else
  body ← slice b LEN_SIZE body_end;
  csb ← slice b body_end (body_end + CHECKSUM_SIZE);
  cs ← wire.rd_u64 csb;
  if negb (checksum body =? cs) then Done None else
  l ← slice body 0 8;
  l ← wire.rd_u64 l;
  w ← slice_from body 8;
  Done (Some (mk_record l w (body_end + CHECKSUM_SIZE))).

(** ** The bytes of a record *)

Definition record_body (l : Z) (w : bytes) : bytes := le_split 8 l ++ w.
Definition record_bytes (l : Z) (w : bytes) : bytes :=
  le_split 4 (8 + len w) ++ record_body l w ++ le_split 8 (checksum (record_body l w)).

Lemma encode_record_app out l w :
  u32 (8 + len w) -> encode_record out l w = out ++ record_bytes l w.
Proof.
  intros Hu. unfold encode_record, record_bytes, record_body. rewrite as_u32_small by done.
  rewrite <- !(app_assoc out).
  assert (drop (length (out ++ le_split 4 (8 + len w)))
      (out ++ (le_split 4 (8 + len w) ++ le_split 8 l) ++ w) = le_split 8 l ++ w) as ->.
  { rewrite <- !app_assoc, app_assoc. apply drop_app_length. }
  by rewrite <- !app_assoc.
Qed.

Lemma record_body_length l w : len (record_body l w) = 8 + len w.
Proof. unfold record_body. len_lia. Qed.
Lemma record_bytes_length l w : len (record_bytes l w) = 20 + len w.
Proof. unfold record_bytes, record_body. len_lia. Qed.

(** ** The checksum *)

Lemma checksum_step_u64 h x : u64 (checksum_step h x).
Proof. apply wrap64_u64. Qed.

Lemma checksum_u64 b : u64 (checksum b).
Proof.
  unfold checksum. assert (u64 FNV_BASIS) as H by (unfold u64, FNV_BASIS; lia).
  revert H. generalize FNV_BASIS. induction b as [|x b IH]; intros h Hh; simpl; [done|].
  apply IH, checksum_step_u64.
Qed.

Lemma lxor_byte_u64 a x : u64 a -> u64 (Z.lxor a (byte.unsigned x)).
Proof.
  intros Ha. apply lxor_u64; [done|]. pose proof (byte.unsigned_range x). unfold u64. lia.
Qed.

(** The FNV prime is odd, so multiplying by it is a bijection of [u64]. *)
Lemma fnv_mul_inj a b : u64 a -> u64 b -> wrap64 (a * FNV_PRIME) = wrap64 (b * FNV_PRIME) -> a = b.
Proof.
  intros Ha Hb H. unfold wrap64 in H.
  assert (forall z, u64 z -> (z * FNV_PRIME) mod 2 ^ 64 * 14886173955864302971 mod 2 ^ 64 = z) as Hinv.
  { intros z Hz. rewrite Z.mul_mod_idemp_l by lia. rewrite <- Z.mul_assoc.
    rewrite <- Z.mul_mod_idemp_r by lia.
    replace (FNV_PRIME * 14886173955864302971 mod 2 ^ 64) with 1 by reflexivity.
    rewrite Z.mul_1_r. by apply Z.mod_small. }
  rewrite <- (Hinv a Ha), <- (Hinv b Hb). by rewrite H.
Qed.

Lemma lxor_inj_l a b c : Z.lxor a c = Z.lxor b c -> a = b.
Proof.
  intros H. rewrite <- (Z.lxor_0_r a), <- (Z.lxor_0_r b), <- (Z.lxor_nilpotent c).
  by rewrite <- !Z.lxor_assoc, H.
Qed.

Lemma checksum_step_inj_l h h' x :
  u64 h -> u64 h' -> checksum_step h x = checksum_step h' x -> h = h'.
Proof.
  intros ?? H%fnv_mul_inj; [|by apply lxor_byte_u64..]. by eapply lxor_inj_l.
Qed.

Lemma checksum_step_inj_r h x x' :
  u64 h -> checksum_step h x = checksum_step h x' -> x = x'.
Proof.
  intros ? H%fnv_mul_inj; [|by apply lxor_byte_u64..]. rewrite !(Z.lxor_comm h) in H.
  apply lxor_inj_l in H. by apply byte.unsigned_inj.
Qed.

Lemma checksum_fold_inj b h h' :
  u64 h -> u64 h' -> fold_left checksum_step b h = fold_left checksum_step b h' -> h = h'.
Proof.
  revert h h'. induction b as [|x b IH]; intros h h' Hh Hh' H; simpl in *; [done|].
  apply IH in H; [|apply checksum_step_u64..]. by eapply checksum_step_inj_l.
Qed.

(** Changing one byte always changes the checksum. *)
Lemma checksum_one_byte a x x' c : checksum (a ++ x :: c) = checksum (a ++ x' :: c) -> x = x'.
Proof.
  unfold checksum. rewrite !fold_left_app. simpl.
  intros H%checksum_fold_inj; [|apply checksum_step_u64..].
  apply checksum_step_inj_r in H; [done|]. apply (checksum_u64 a).
Qed.

(** ** Decoding a frame *)

(** A framed body followed by a stored checksum: the shape the decoder reads. *)
Definition frame (body : bytes) (cs : Z) : bytes :=
  le_split 4 (len body) ++ body ++ le_split 8 cs.

Lemma frame_length body cs : len (frame body cs) = 12 + len body.
Proof. unfold frame. len_lia. Qed.

Lemma decode_frame body cs rest :
  u32 (len body) -> u64 cs ->
  decode_record (frame body cs ++ rest) =
  if checksum body =? cs then
    l ← slice body 0 8; l ← wire.rd_u64 l; w ← slice_from body 8;
    Done (Some (mk_record l w (12 + len body)))
  else Done None.
Proof.
  intros Hu Hcs. pose proof (frame_length body cs) as Hl.
  assert (len (frame body cs ++ rest) = 12 + len body + len rest) as Hlen by len_lia.
  unfold decode_record, LEN_SIZE, CHECKSUM_SIZE. rewrite Hlen.
  replace (_ <? 4) with false by lia.
  assert (slice (frame body cs ++ rest) 0 4 = Done (le_split 4 (len body))) as ->.
  { unfold frame. rewrite <- !app_assoc. apply slice_prefix. len_lia. }
  ostep. rewrite wire.rd_u32_le by done. ostep. cbv zeta.
  replace (_ <? _) with false by lia.
  assert (slice (frame body cs ++ rest) 4 (4 + len body) = Done body) as ->.
  { unfold frame. rewrite <- !app_assoc. apply slice_mid; len_lia. }
  assert (slice (frame body cs ++ rest) (4 + len body) (4 + len body + 8) = Done (le_split 8 cs)) as ->.
  { unfold frame. rewrite (app_assoc (le_split 4 _)), <- app_assoc. apply slice_mid; len_lia. }
  ostep. rewrite wire.rd_u64_le by done. ostep.
  destruct (checksum body =? cs); [|done]. simpl negb. cbv iota.
  by replace (4 + len body + 8) with (12 + len body) by lia.
Qed.

(** Every input is either too short for the frame it announces, or a frame. *)
Lemma decode_cases b :
  (decode_record b = Done None /\
   (len b < 4 \/ len b < 12 + le_combine (take 4 b))) \/
  exists body cs rest, b = frame body cs ++ rest /\ u32 (len body) /\ u64 cs.
Proof.
  destruct (decide (len b < 4)) as [Hs|Hs].
  { left. unfold decode_record, LEN_SIZE. replace (_ <? _) with true by lia. auto. }
  set (n := le_combine (take 4 b)).
  assert (u32 n) as Hn by (apply le_combine_u32; len_lia).
  destruct (decide (len b < 12 + n)) as [Hi|Hi].
  { left. split; [|auto]. unfold decode_record, LEN_SIZE, CHECKSUM_SIZE.
    replace (len b <? 4) with false by lia.
    assert (slice b 0 4 = Done (take 4 b)) as ->.
    { apply slice_Done. split_and!; [lia..|done]. }
    ostep. rewrite wire.rd_u32_Done by len_lia. ostep. fold n. cbv zeta.
    by replace (_ <? _) with true by lia. }
  right. unfold u32 in Hn.
  set (body := take (Z.to_nat n) (drop 4 b)).
  set (csb := take 8 (drop (Z.to_nat n) (drop 4 b))).
  assert (len body = n) as Hb by (unfold body; len_lia).
  assert (length csb = 8%nat) as Hc by (unfold csb; len_lia).
  exists body, (le_combine csb), (drop 8 (drop (Z.to_nat n) (drop 4 b))).
  split_and!; [|unfold u32; lia|by apply le_combine_u64].
  unfold frame. rewrite Hb. unfold n. rewrite split_le_combine' by len_lia.
  rewrite (split_le_combine' csb 8) by done. fold n. unfold body, csb.
  by rewrite <- !app_assoc, !take_drop.
Qed.

Lemma record_bytes_frame l w : record_bytes l w = frame (record_body l w) (checksum (record_body l w)).
Proof. unfold record_bytes, frame. by rewrite record_body_length. Qed.

Lemma decode_record_app l w rest :
  u64 l -> u32 (8 + len w) ->
  decode_record (record_bytes l w ++ rest) = Done (Some (mk_record l w (20 + len w))).
Proof.
  intros Hl Hu. rewrite record_bytes_frame, decode_frame;
    [|by rewrite record_body_length|apply checksum_u64].
  rewrite Z.eqb_refl, record_body_length. unfold record_body.
  rewrite (slice_prefix (le_split 8 l)) by len_lia. ostep.
  rewrite wire.rd_u64_le by done. ostep.
  rewrite slice_from_app by len_lia. ostep. by rewrite Z.add_assoc.
Qed.

Lemma decode_truncated l w p q :
  u32 (8 + len w) -> record_bytes l w = p ++ q -> q <> [] -> decode_record p = Done None.
Proof.
  intros Hu Hpq Hq. pose proof (record_bytes_length l w) as Hl. rewrite Hpq in Hl.
  assert (0 < len q) as Hq' by (destruct q; [done|simpl; lia]).
  destruct (decode_cases p) as [[H _]|(body & cs & rest & -> & Hb & _)]; [done|exfalso].
  rewrite record_bytes_frame in Hpq. unfold frame in Hpq. rewrite <- !app_assoc in Hpq.
  apply app_inj_1 in Hpq as [Hn _]; [|len_lia].
  apply le_split_4_inj in Hn; [|by rewrite record_body_length|done].
  rewrite record_body_length in Hn. pose proof (frame_length body cs). len_lia.
Qed.

(** Only what the encoder writes is accepted. *)
Lemma decode_sound b r :
  decode_record b = Done (Some r) ->
  u64 (lsn r) /\ u32 (8 + len (wire_body r)) /\ consumed r = 20 + len (wire_body r) /\
  b = record_bytes (lsn r) (wire_body r) ++ drop (Z.to_nat (consumed r)) b.
Proof.
  intros Hd. destruct (decode_cases b) as [[H _]|(body & cs & rest & -> & Hb & Hcs)]; [congruence|].
  rewrite decode_frame in Hd by done.
  destruct (checksum body =? cs) eqn:E; [|done]. apply Z.eqb_eq in E.
  apply bind_Done in Hd as (l8 & (Hs1 & Hs2 & ->)%slice_Done & Hd).
  rewrite Z.sub_0_r in Hd. change (Z.to_nat 0) with 0%nat in *. rewrite drop_0 in Hd.
  rewrite wire.rd_u64_Done in Hd by len_lia. ostep.
  apply bind_Done in Hd as (l & [= <-] & Hd).
  apply bind_Done in Hd as (w & (-> & _)%slice_from_Done & [= <-]). simpl.
  assert (len (drop (Z.to_nat 8) body) = len body - 8) as Hlw by len_lia.
  assert (record_body (le_combine (take (Z.to_nat 8) body)) (drop (Z.to_nat 8) body) = body) as Hrb.
  { unfold record_body. rewrite split_le_combine' by len_lia. apply take_drop. }
  split_and!; [apply le_combine_u64; len_lia|rewrite Hlw; unfold u32 in *; lia|lia|].
  rewrite record_bytes_frame, Hrb, E. f_equal.
  symmetry. apply drop_app_length'. pose proof (frame_length body cs). lia.
Qed.

Lemma decode_Panic_iff b :
  decode_record b = Panic <->
  exists body rest, len body < 8 /\ b = frame body (checksum body) ++ rest.
Proof.
  split.
  - intros Hd. destruct (decode_cases b) as [[H _]|(body & cs & rest & -> & Hb & Hcs)]; [congruence|].
    rewrite decode_frame in Hd by done.
    destruct (checksum body =? cs) eqn:E; [|done]. apply Z.eqb_eq in E as <-.
    exists body, rest. split; [|done].
    destruct (decide (len body < 8)) as [|Hge]; [done|exfalso].
    assert (slice body 0 8 = Done (take 8 body)) as Hs.
    { apply slice_Done. split_and!; [lia..|]. by rewrite drop_0. }
    rewrite Hs in Hd. revert Hd. ostep. rewrite wire.rd_u64_Done by len_lia. ostep.
    destruct (slice_from body 8) as [w| |] eqn:Ew; ostep; [done|done|].
    apply slice_Panic in Ew. lia.
  - intros (body & rest & Hl & ->). rewrite decode_frame;
      [|unfold u32; lia|apply checksum_u64].
    rewrite Z.eqb_refl. assert (slice body 0 8 = Panic) as ->; [|done].
    apply slice_Panic. lia.
Qed.

Lemma decode_not_IoErr b e : decode_record b <> IoErr e.
Proof.
  intros Hd. destruct (decode_cases b) as [[H _]|(body & cs & rest & -> & Hb & Hcs)]; [congruence|].
  rewrite decode_frame in Hd by done. destruct (_ =? _); [|done].
  destruct (slice body 0 8) as [s8| |] eqn:E; [|by apply slice_not_IoErr in E|done].
  apply slice_Done in E as (?&?&E). revert Hd. ostep.
  rewrite wire.rd_u64_Done by (rewrite E; len_lia). ostep.
  destruct (slice_from body 8) eqn:Ew; ostep; [done|by apply slice_not_IoErr in Ew|done].
Qed.

(** ** Segment names and listings *)

Lemma digit_val_of_Z d : 0 <= d <= 9 -> digit_val (byte.of_Z (48 + d)) = Some d.
Proof.
  intros Hd. unfold digit_val. rewrite byte.unsigned_of_Z. unfold byte.wrap.
  rewrite Z.mod_small by lia. replace (48 + d - 48) with d by lia.
  by replace ((0 <=? d) && (d <=? 9)) with true by lia.
Qed.

Lemma parse_digits_app acc d1 d2 :
  parse_digits acc (d1 ++ d2) = (x ← parse_digits acc d1; parse_digits x d2).
Proof.
  revert acc. induction d1 as [|c d1 IH]; intros acc; simpl; [done|].
  destruct (digit_val c); simpl; [|done]. by repeat case_match.
Qed.

Lemma dec_digits_length n z : length (dec_digits n z) = n.
Proof. revert z. induction n; intros z; simpl; [done|]. rewrite length_app, IHn. simpl. lia. Qed.

Lemma parse_dec_digits n acc z :
  0 <= acc -> 0 <= z < 10 ^ Z.of_nat n -> acc * 10 ^ Z.of_nat n + z < 2 ^ 64 ->
  parse_digits acc (dec_digits n z) = Some (acc * 10 ^ Z.of_nat n + z).
Proof.
  intros Hacc. revert z. induction n as [|n IH]; intros z Hz Hb.
  - simpl in *. f_equal. lia.
  - rewrite Nat2Z.inj_succ, Z.pow_succ_r in Hz, Hb |- * by lia.
    simpl. rewrite parse_digits_app.
    pose proof (Z.div_mod z 10 ltac:(lia)) as Hdm.
    pose proof (Z.mod_pos_bound z 10 ltac:(lia)) as Hm.
    set (P := 10 ^ Z.of_nat n) in *. assert (0 < P) by (apply Z.pow_pos_nonneg; lia).
    rewrite IH by nia. cbn [mbind option_bind parse_digits].
    rewrite digit_val_of_Z by lia. cbn [mbind option_bind].
    replace (2 ^ 64 <=? _) with false by nia. replace (2 ^ 64 <=? _) with false by nia.
    f_equal. nia.
Qed.

Lemma dec_digits_head n z :
  exists c t, dec_digits (S n) z = byte.of_Z (48 + c) :: t /\ 0 <= c <= 9.
Proof.
  revert z. induction n as [|n IH]; intros z.
  - exists (z mod 10), []. split; [done|]. pose proof (Z.mod_pos_bound z 10). lia.
  - destruct (IH (z / 10)) as (c & t & Heq & Hc). eexists c, _. split; [|done].
    remember (S n) as m. cbn [dec_digits]. by rewrite Heq.
Qed.

Lemma strip_prefix_app p s : strip_prefix p (p ++ s) = Some s.
Proof. induction p as [|a p IH]; simpl; [done|]. by rewrite decide_True. Qed.

Lemma parse_u64_plain s : hd Byte.x2b s <> Byte.x2b -> parse_u64 s = parse_digits 0 s.
Proof. destruct s as [|c s]; simpl; [done|]. intros. by rewrite decide_False. Qed.

Lemma insert_by_key_perm {A} (x : Z * A) l : insert_by_key x l ≡ₚ x :: l.
Proof.
  induction l as [|y l IH]; simpl; [done|]. case_match; [done|].
  rewrite IH. constructor.
Qed.

Lemma sort_by_key_perm {A} (l : list (Z * A)) : sort_by_key l ≡ₚ l.
Proof. induction l as [|x l IH]; simpl; [done|]. rewrite insert_by_key_perm. by f_equiv. Qed.

(** Ordered by start LSN. *)
Definition by_key {A} (x y : Z * A) : Prop := x.1 <= y.1.

Lemma insert_by_key_sorted {A} (x : Z * A) l :
  StronglySorted by_key l -> StronglySorted by_key (insert_by_key x l).
Proof.
  induction 1 as [|y l Hs IH Hall]; simpl; [repeat constructor|].
  destruct (x.1 <=? y.1) eqn:E.
  - constructor; [by constructor|]. constructor; [unfold by_key; lia|].
    eapply Forall_impl; [exact Hall|]. unfold by_key. intros; lia.
  - constructor; [done|]. rewrite insert_by_key_perm. constructor; [unfold by_key; lia|done].
Qed.

Lemma sort_by_key_sorted {A} (l : list (Z * A)) : StronglySorted by_key (sort_by_key l).
Proof. induction l; simpl; [constructor|by apply insert_by_key_sorted]. Qed.

(** Entries with the same key keep their order. *)
Lemma insert_by_key_stable {A} (x : Z * A) l k :
  filter (fun y => y.1 = k) (insert_by_key x l) = filter (fun y => y.1 = k) (x :: l).
Proof.
  induction l as [|y l IH]; simpl; [done|]. destruct (x.1 <=? y.1) eqn:E; [done|].
  rewrite filter_cons, IH, !filter_cons. repeat case_decide; try done. lia.
Qed.

Lemma sort_by_key_stable {A} (l : list (Z * A)) k :
  filter (fun y => y.1 = k) (sort_by_key l) = filter (fun y => y.1 = k) l.
Proof.
  induction l as [|x l IH]; simpl; [done|].
  by rewrite insert_by_key_stable, !filter_cons, IH.
Qed.

(** The segments among some names, in listing order. *)
Definition segments_of (names : list bytes) : list (Z * bytes) :=
  omap (fun n => (fun s => (s, n)) <$> segment_lsn n) names.

Lemma list_segments_ok names :
  list_segments true (Done (Done <$> names)) = Done (sort_by_key (segments_of names)).
Proof.
  unfold list_segments. simpl.
  assert (forall v, fold_outcome (fun v e => name ← e;
     match segment_lsn name with Some start => Done (v ++ [(start, name)]) | None => Done v end)
     v (Done <$> names) = Done (v ++ segments_of names)) as Hf.
  { unfold segments_of. induction names as [|n names IH]; intros v; simpl; [by rewrite app_nil_r|].
    destruct (segment_lsn n); simpl; rewrite IH; [|done]. by rewrite <- app_assoc. }
  by rewrite Hf.
Qed.

(** ** Properties *)

(** C32: decoding what [encode_record] appended gives back the record and
    consumes exactly its bytes, whatever follows it in the segment. *)
Theorem decode_encode_record l w rest :
  u64 l -> u32 (8 + len w) ->
  decode_record (encode_record [] l w ++ rest) =
  Done (Some (mk_record l w (len (encode_record [] l w)))).
Proof.
  intros Hl Hu. rewrite encode_record_app by done. simpl.
  by rewrite decode_record_app, record_bytes_length by done.
Qed.

(** The decoder accepts nothing else: an accepted input starts with the
    bytes [encode_record] writes for the record it returns. *)
Theorem decode_record_sound b r :
  decode_record b = Done (Some r) ->
  u64 (lsn r) /\ b = encode_record [] (lsn r) (wire_body r) ++ drop (Z.to_nat (consumed r)) b.
Proof.
  intros (Hl & Hu & _ & Hb)%decode_sound. split; [done|]. by rewrite encode_record_app by done.
Qed.

(** A torn record is reported as such, never as a record and never with a
    panic: every strict prefix of an encoded record decodes to [None]. *)
Theorem decode_torn l w n :
  u32 (8 + len w) -> 0 <= n < len (encode_record [] l w) ->
  decode_record (take (Z.to_nat n) (encode_record [] l w)) = Done None.
Proof.
  intros Hu Hn. rewrite encode_record_app in * by done. simpl in *.
  apply (decode_truncated l w _ (drop (Z.to_nat n) (record_bytes l w))); [done|by rewrite take_drop|].
  intros Hd. apply (f_equal length) in Hd. len_lia.
Qed.

(** A record with any one byte of its body (LSN, opcode, key or value)
    changed on disk is rejected: FNV-1a detects every single-byte change. *)
Theorem decode_corrupt_byte l w i x rest :
  u32 (8 + len w) -> (4 <= i < 12 + length w)%nat -> record_bytes l w !! i <> Some x ->
  decode_record (<[i := x]> (encode_record [] l w) ++ rest) = Done None.
Proof.
  intros Hu Hi Hx. rewrite encode_record_app by done. simpl. rewrite record_bytes_frame in *.
  pose proof (record_body_length l w) as Hbl.
  set (body := record_body l w) in *. set (cs := checksum body). fold cs in Hx.
  destruct (lookup_lt_is_Some_2 body (i - 4)) as [y Hy]; [lia|].
  pose proof (take_drop_middle _ _ _ Hy) as Hsplit.
  assert (<[i := x]> (frame body cs) = frame (<[(i - 4)%nat := x]> body) cs) as ->.
  { unfold frame. rewrite length_insert.
    rewrite insert_app_r_alt by (rewrite length_le_split; lia). rewrite length_le_split.
    by rewrite insert_app_l by lia. }
  rewrite decode_frame; [|rewrite length_insert; unfold u32 in *; lia|apply checksum_u64].
  destruct (_ =? cs) eqn:E; [exfalso|done]. apply Z.eqb_eq in E. unfold cs in E.
  apply Hx. unfold frame. rewrite lookup_app_r by (rewrite length_le_split; lia).
  rewrite length_le_split, lookup_app_l by lia. rewrite Hy. f_equal.
  rewrite <- Hsplit in E. rewrite insert_app_r_alt in E by len_lia.
  rewrite length_take, Nat.min_l, Nat.sub_diag in E by lia. simpl in E.
  symmetry. by apply checksum_one_byte in E.
Qed.

(** The decoder panics on exactly one kind of input: a frame announcing
    fewer than 8 body bytes whose stored checksum is right. *)
Theorem decode_record_panics_iff b :
  decode_record b = Panic <->
  exists body rest, len body < 8 /\
    b = le_split 4 (len body) ++ body ++ le_split 8 (checksum body) ++ rest.
Proof.
  rewrite decode_Panic_iff. unfold frame.
  split; intros (body & rest & Hl & ->); exists body, rest; by rewrite <- !app_assoc.
Qed.

(** The name [segment_path] gives a segment is listed by [list_segments]
    under the same start LSN. *)
Theorem segment_path_listed l : u64 l -> segment_lsn (segment_path l) = Some l.
Proof.
  intros [H1 H2]. unfold segment_lsn, segment_path. rewrite strip_prefix_app.
  cbn [mbind option_bind]. rewrite parse_u64_plain.
  - rewrite parse_dec_digits; [done|lia|lia|lia].
  - destruct (dec_digits_head 19 l) as (c & t & -> & Hc).
    simpl. intros Heq. apply (f_equal byte.unsigned) in Heq.
    rewrite byte.unsigned_of_Z in Heq. unfold byte.wrap in Heq.
    rewrite Z.mod_small in Heq by lia. change (byte.unsigned Byte.x2b) with 43 in Heq. lia.
Qed.

(** [list_segments] returns exactly the segment files, ordered by start
    LSN; files with the same start keep the listing's order. *)
Theorem list_segments_sorted names l :
  list_segments true (Done (Done <$> names)) = Done l ->
  StronglySorted by_key l /\ l ≡ₚ segments_of names /\
  (forall k, filter (fun y => y.1 = k) l = filter (fun y => y.1 = k) (segments_of names)).
Proof.
  rewrite list_segments_ok. intros [= <-].
  split_and!; [apply sort_by_key_sorted|apply sort_by_key_perm|apply sort_by_key_stable].
Qed.

(** ** Witnesses *)

Definition ex_body : bytes := wire.mk_body wire.OP_PUT (bstr "key") (bstr "v1").

Lemma decode_encode_record_witness :
  decode_record (encode_record [] 7 ex_body ++ bstr "junk") = Done (Some (mk_record 7 ex_body 30)).
Proof.
  apply (decode_encode_record 7 ex_body (bstr "junk")); decide_vm.
Defined.

Lemma decode_record_sound_witness :
  exists r, decode_record (encode_record [] 7 ex_body) = Done (Some r) /\ u64 (lsn r).
Proof.
  exists (mk_record 7 ex_body 30). split; [vm_compute; reflexivity|].
  apply (decode_record_sound (encode_record [] 7 ex_body) (mk_record 7 ex_body 30)).
  vm_compute. reflexivity.
Defined.

Lemma decode_torn_witness : decode_record (take (Z.to_nat 29) (encode_record [] 7 ex_body)) = Done None.
Proof.
  apply (decode_torn 7 ex_body 29); decide_vm.
Defined.

Lemma decode_corrupt_byte_witness :
  decode_record (<[20%nat := Byte.x00]> (encode_record [] 7 ex_body) ++ []) = Done None.
Proof.
  apply (decode_corrupt_byte 7 ex_body 20 Byte.x00 []);
    [decide_vm|vm_compute; lia|vm_compute; congruence].
Defined.

Lemma segment_path_listed_witness : segment_lsn (segment_path 42) = Some 42.
Proof. apply (segment_path_listed 42). unfold u64. lia. Defined.

Lemma list_segments_sorted_witness :
  exists l,
    list_segments true (Done (Done <$> [segment_path 9; bstr "snapshot"; segment_path 2])) = Done l /\
    StronglySorted by_key l /\ length l = 2%nat.
Proof.
  eexists. split; [vm_compute; reflexivity|]. split; [|reflexivity].
  eapply (list_segments_sorted [segment_path 9; bstr "snapshot"; segment_path 2]).
  vm_compute. reflexivity.
Defined.

End wal_format.
