(* ===== verification/Snapshot.v ===== *)
(** * Snapshots ([crates/storage/src/snapshot.rs])

    The snapshot file format, its loader, and the writer
    [write_snapshot_sync_TEMP_FUNC] over a small model of the file system: a
    volatile name space, the name space that survives a crash, file contents
    and which of them have reached the disk.  Each call of the writer may fail;
    a crash is a call that does not return, so the states a run with a failing
    call leaves are the states a crash can leave.  The writer and the loader
    use the table through [KvStore]. *)

From S2P Require Import Prelude Wire Db.
Local Open Scope Z_scope.

(** ** File system *)

Module fs.

(** What the OS answers to one call: success, or an error code and, for a
    write, how many bytes reached the file before it. *)
Abbreviation fault := (option (Z * nat)).

Record Fs := mk_fs {
  names : gmap bytes N;       (* the name space a running process sees *)
  dnames : gmap bytes N;      (* the name space on disk *)
  files : gmap N bytes;       (* contents by inode, as a running process sees them *)
  synced : gset N;            (* inodes whose content is on disk *)
  next_ino : N;
  faults : list fault;        (* the answers to the calls to come; success after them *)
}.

(** Fallible computations over the file system. *)
Definition io (A : Type) : Type := Fs -> Fs * (A + Z).
#[export] Instance io_ret : MRet io := fun A a s => (s, inl a).
#[export] Instance io_bind : MBind io := fun A B f m s =>
  match m s with
  | (s, inl a) => f a s
  | (s, inr e) => (s, inr e)
  end.

Definition set_faults (s : Fs) (r : list fault) : Fs :=
  mk_fs (names s) (dnames s) (files s) (synced s) (next_ino s) r.

(** One call: [ok] is its effect, [fail n] what a failed one leaves. *)
Definition call {A} (ok : Fs -> Fs * A) (fail : nat -> Fs -> Fs) : io A := fun s =>
  match faults s with
  | Some (e, n) :: r => (fail n (set_faults s r), inr e)
  | _ => let '(s', a) := ok (set_faults s (tail (faults s))) in (s', inl a)
  end.

Definition set_file (s : Fs) (i : N) (c : bytes) : Fs :=
  mk_fs (names s) (dnames s) (<[i := c]> (files s)) (synced s ∖ {[i]}) (next_ino s) (faults s).

(** [File::create]: truncates an existing file. *)
Definition create (name : bytes) : io N :=
  call (fun s =>
    match names s !! name with
    | Some i => (set_file s i [], i)
    | None =>
        let i := next_ino s in
        (mk_fs (<[name := i]> (names s)) (dnames s) (<[i := []]> (files s)) (synced s ∖ {[i]})
           (N.succ i) (faults s), i)
    end) (fun _ s => s).

(** [write_all] at the end of the file. *)
Definition append (i : N) (chunk : bytes) : io unit :=
  call (fun s => (set_file s i (default [] (files s !! i) ++ chunk), tt))
       (fun n s => set_file s i (default [] (files s !! i) ++ take n chunk)).

(** [sync_data] *)
Definition sync_data (i : N) : io unit :=
  call (fun s => (mk_fs (names s) (dnames s) (files s) ({[i]} ∪ synced s) (next_ino s) (faults s), tt))
       (fun _ s => s).

(** [fs::rename]: atomic in the name space. *)
Definition rename (a b : bytes) : io unit :=
  call (fun s =>
    (match names s !! a with
     | Some i => mk_fs (<[b := i]> (delete a (names s))) (dnames s) (files s) (synced s) (next_ino s) (faults s)
     | None => s
     end, tt)) (fun _ s => s).

(** [File::open(dir)] then [sync_all]: the caller ignores a failure. *)
Definition sync_dir : io unit :=
  call (fun s => (mk_fs (names s) (names s) (files s) (synced s) (next_ino s) (faults s), tt))
       (fun _ s => s).

Definition ignore (m : io unit) : io unit := fun s => ((m s).1, inl tt).

Fixpoint for_each {X} (f : X -> io unit) (l : list X) : io unit :=
  match l with
  | [] => mret tt
  | x :: l => f x ≫= fun _ => for_each f l
  end.

End fs.

Module snapshot.
Import fs.

Definition SNAPSHOT_MAGIC : Z := le_combine (bstr "SNAP").

(** The child of a running snapshot is never started by this code. *)
Record Snapshotter := mk_snapshotter {
  running : option Z;
  last_boundary_lsn : Z;
  min_lsn_gap : Z;
}.

Inductive Begin := Started | RejectReason.
Inductive Outcome := Committed (boundary_lsn : Z) | Failed.

(** ** Loading *)

Section load.
Context {S : Type} `{KvStore S}.

(** The loop [for _ in 0..db_len] from position [p].  Each iteration that does
    not break advances [p] by at least 8, so a fuel of [len bytes - p]
    iterations is never exhausted before the [break] ([load_loop_unfold]). *)
Fixpoint load_loop (fuel : nat) (n p : Z) (b : bytes) (db : S) : outcome S :=
  match fuel with
  | O => Done db
  | Datatypes.S fuel =>
      if n <=? 0 then Done db else
      if len b <? p + 4 then Done db else
      kh ← slice b p (p + 4);
      key_len ← wire.rd_u32 kh;
      let p := p + 4 in
      key ← slice b p (p + key_len);
      let p := p + key_len in
      vh ← slice b p (p + 4);
      val_len ← wire.rd_u32 vh;
      let p := p + 4 in
      val ← slice b p (p + val_len);
      let p := p + val_len in
      load_loop fuel (n - 1) p b (kv_insert_raw db key val)
  end.

Definition load (b : bytes) (db : S) : outcome (option Z * S) :=
  bad ← (if len b <? 20 then Done true
         else h ← slice b 0 4; m ← wire.rd_u32 h; Done (negb (as_u32 m =? SNAPSHOT_MAGIC)));
  if (bad : bool) then Done (None, db) else
  lb ← slice b 4 12;
  lsn ← wire.rd_u64 lb;
  nb ← slice b 12 20;
  db_len ← wire.rd_u64 nb;
  db ← load_loop (length b) db_len 20 b db;
  Done (Some lsn, db).

(** ** Writing *)

Definition new (start_lsn min_lsn_gap : Z) : Snapshotter :=
  mk_snapshotter None start_lsn min_lsn_gap.

(** The writes of the header and of the entries, in order. *)
Definition header_chunks (db : S) (lsn : Z) : list bytes :=
  [le_split 4 SNAPSHOT_MAGIC; le_split 8 lsn; le_split 8 (kv_len db)].
Definition entry_chunks (kv : bytes * bytes) : list bytes :=
  [le_split 4 (as_u32 (len kv.1)); kv.1; le_split 4 (as_u32 (len kv.2)); kv.2].

Definition tmp_name : bytes := bstr "snapshot.tmp".
Definition snap_name : bytes := bstr "snapshot".

(** [write_snapshot_sync_TEMP_FUNC].  [BufWriter] delays bytes but does not
    change or reorder them, so each [write_all] is one append. *)
Definition write_snapshot (self : Snapshotter) (db : S) (lsn : Z) : io (bool * Snapshotter) :=
  if sub64 lsn (last_boundary_lsn self) <=? min_lsn_gap self then mret (false, self) else
  create tmp_name ≫= fun f =>
  for_each (append f) (header_chunks db lsn) ≫= fun _ =>
  for_each (fun kv => for_each (append f) (entry_chunks kv)) (kv_iter db) ≫= fun _ =>
  sync_data f ≫= fun _ =>
  rename tmp_name snap_name ≫= fun _ =>
  ignore sync_dir ≫= fun _ =>
  mret (true, mk_snapshotter (running self) lsn (min_lsn_gap self)).

(** [todo!()] *)
Definition try_begin (self : Snapshotter) (db_ref : S) (applied_lsn : Z) : outcome Begin := Panic.
Definition poll (self : Snapshotter) : outcome (option Outcome) := Panic.

(** The bytes of a snapshot file. *)
Definition entry_bytes (kv : bytes * bytes) : bytes :=
  le_split 4 (as_u32 (len kv.1)) ++ kv.1 ++ le_split 4 (as_u32 (len kv.2)) ++ kv.2.
Definition file_bytes (lsn n : Z) (kvs : list (bytes * bytes)) : bytes :=
  le_split 4 SNAPSHOT_MAGIC ++ le_split 8 lsn ++ le_split 8 n ++ concat (entry_bytes <$> kvs).

End load.

(** ** The loader reads back what was written *)

Section load_laws.
Context {S : Type} `{KvLaws S}.

(** The loop never runs out of fuel: with enough, one more unit changes nothing. *)
Lemma load_loop_fuel (f1 f2 : nat) n p b (db : S) :
  0 <= p -> len b - p <= Z.of_nat f1 -> len b - p <= Z.of_nat f2 ->
  load_loop f1 n p b db = load_loop f2 n p b db.
Proof.
  revert f2 n p db. induction f1 as [|f1 IH]; intros [|f2] n p db Hp H1 H2; simpl.
  - done.
  - replace (len b <? p + 4) with true by lia. by destruct (n <=? 0).
  - replace (len b <? p + 4) with true by lia. by destruct (n <=? 0).
  - destruct (n <=? 0); [done|]. destruct (len b <? p + 4) eqn:E; [done|].
    destruct (slice b p (p + 4)) as [kh| |]; ostep; [|done..].
    destruct (wire.rd_u32 kh) as [kl| |]; ostep; [|done..]. cbv zeta.
    destruct (slice b (p + 4) (p + 4 + kl)) as [k| |] eqn:E1; ostep; [|done..].
    apply slice_Done in E1.
    destruct (slice b (p + 4 + kl) _) as [vh| |]; ostep; [|done..].
    destruct (wire.rd_u32 vh) as [vl| |]; ostep; [|done..].
    destruct (slice b (p + 4 + kl + 4) (p + 4 + kl + 4 + vl)) as [v| |] eqn:E2; ostep; [|done..].
    apply slice_Done in E2. apply IH; lia.
Qed.

Lemma load_loop_unfold n p b (db : S) :
  0 <= p -> p <= len b ->
  load_loop (length b) n p b db =
  if n <=? 0 then Done db else
  if len b <? p + 4 then Done db else
  kh ← slice b p (p + 4);
  kl ← wire.rd_u32 kh;
  k ← slice b (p + 4) (p + 4 + kl);
  vh ← slice b (p + 4 + kl) (p + 4 + kl + 4);
  vl ← wire.rd_u32 vh;
  v ← slice b (p + 4 + kl + 4) (p + 4 + kl + 4 + vl);
  load_loop (length b) (n - 1) (p + 4 + kl + 4 + vl) b (kv_insert_raw db k v).
Proof.
  intros Hp Hl. rewrite (load_loop_fuel _ (Datatypes.S (length b))) by lia.
  cbn [load_loop]. by cbv zeta.
Qed.

(** Entries whose lengths fit their 32-bit fields. *)
Definition entry_fits (kv : bytes * bytes) : Prop := u32 (len kv.1) /\ u32 (len kv.2).

#[export] Instance entry_fits_decision kv : Decision (entry_fits kv).
Proof. unfold entry_fits. apply _. Defined.

Lemma load_loop_entries kvs pre post (db : S) n :
  Forall entry_fits kvs -> len kvs <= n ->
  let b := pre ++ concat (entry_bytes <$> kvs) ++ post in
  load_loop (length b) n (len pre) b db =
  load_loop (length b) (n - len kvs) (len pre + len (concat (entry_bytes <$> kvs))) b
    (fold_left (fun s kv => kv_insert_raw s kv.1 kv.2) kvs db).
Proof.
  intros Hf. cbv zeta. revert pre db n. induction Hf as [|[k v] kvs [Hk Hv] Hf IH]; intros pre db n Hn.
  - simpl. f_equal; lia.
  - set (b := pre ++ concat (entry_bytes <$> (k, v) :: kvs) ++ post).
    simpl in Hk, Hv.
    assert (b = pre ++ le_split 4 (len k) ++ k ++ le_split 4 (len v) ++ v ++
        concat (entry_bytes <$> kvs) ++ post) as Eb.
    { unfold b. rewrite fmap_cons. cbn [concat]. unfold entry_bytes at 1. simpl fst. simpl snd.
      rewrite !as_u32_small by done. by rewrite <- !app_assoc. }
    assert (len b = len pre + 8 + len k + len v + len (concat (entry_bytes <$> kvs)) + len post) as El.
    { rewrite Eb. len_lia. }
    assert (b = (pre ++ entry_bytes (k, v)) ++ concat (entry_bytes <$> kvs) ++ post) as Eb'.
    { unfold b. rewrite fmap_cons. cbn [concat]. by rewrite <- !app_assoc. }
    clearbody b. rewrite load_loop_unfold by lia.
    simpl length in Hn. replace (n <=? 0) with false by lia_bool.
    replace (len b <? len pre + 4) with false by lia_bool.
    assert (slice b (len pre) (len pre + 4) = Done (le_split 4 (len k))) as ->.
    { rewrite Eb. apply slice_mid; len_lia. }
    ostep. rewrite wire.rd_u32_le by done. ostep.
    assert (slice b (len pre + 4) (len pre + 4 + len k) = Done k) as ->.
    { rewrite Eb, app_assoc. apply slice_mid; len_lia. }
    ostep.
    assert (slice b (len pre + 4 + len k) (len pre + 4 + len k + 4) = Done (le_split 4 (len v))) as ->.
    { rewrite Eb, 2!app_assoc. apply slice_mid; len_lia. }
    ostep. rewrite wire.rd_u32_le by done. ostep.
    assert (slice b (len pre + 4 + len k + 4) (len pre + 4 + len k + 4 + len v) = Done v) as ->.
    { rewrite Eb, 3!app_assoc. apply slice_mid; len_lia. }
    ostep. clear El. rewrite Eb'.
    assert (len (entry_bytes (k, v)) = 8 + len k + len v) as Hel.
    { unfold entry_bytes. simpl fst. simpl snd. len_lia. }
    specialize (IH (pre ++ entry_bytes (k, v)) (kv_insert_raw db k v) (n - 1) ltac:(lia)).
    replace (len pre + 4 + len k + 4 + len v) with (len (pre ++ entry_bytes (k, v))) by len_lia.
    rewrite IH. rewrite fmap_cons. cbn [fold_left fst snd concat]. f_equal; len_lia.
Qed.

Lemma fold_insert_view (kvs : list (bytes * bytes)) (s : S) :
  kv_wf s ->
  kv_wf (fold_left (fun s kv => kv_insert_raw s kv.1 kv.2) kvs s) /\
  kv_view (fold_left (fun s kv => kv_insert_raw s kv.1 kv.2) kvs s) =
  fold_left (fun m kv => <[kv.1 := kv.2]> m) kvs (kv_view s).
Proof.
  revert s. induction kvs as [|[k v] kvs IH]; intros s Hs; simpl; [done|].
  destruct (IH (kv_insert_raw s k v)) as [H1 H2]; [by apply kv_insert_raw_wf|].
  split; [done|]. by rewrite H2, kv_insert_raw_view.
Qed.

Lemma fold_insert_list (kvs : list (bytes * bytes)) (m : gmap bytes bytes) :
  NoDup kvs.*1 ->
  fold_left (fun m kv => <[kv.1 := kv.2]> m) kvs m = list_to_map kvs ∪ m.
Proof.
  revert m. induction kvs as [|[k v] kvs IH]; intros m Hnd; simpl.
  - by rewrite (left_id_L ∅ (∪)).
  - apply NoDup_cons in Hnd as [Hk Hnd]. rewrite IH by done.
    rewrite <- insert_union_r by (by apply not_elem_of_list_to_map_1).
    apply insert_union_l.
Qed.


Lemma fold_insert_to_map (kvs : list (bytes * bytes)) (m : gmap bytes bytes) :
  kvs ≡ₚ map_to_list m -> fold_left (fun m kv => <[kv.1 := kv.2]> m) kvs (∅ : gmap bytes bytes) = m.
Proof.
  intros Hp. assert (NoDup kvs.*1) as Hnd by (rewrite Hp; apply NoDup_fst_map_to_list).
  rewrite fold_insert_list by done. rewrite (right_id_L ∅ (∪)).
  rewrite (list_to_map_proper _ (map_to_list m)) by done. apply list_to_map_to_list.
Qed.

(** The loader of a file whose header announces [n] entries, of which the file
    holds [kvs] and less than a length field more. *)
Lemma load_file lsn n kvs post (db : S) :
  u64 lsn -> u64 n -> Forall entry_fits kvs -> len kvs <= n ->
  len post < 4 \/ n = len kvs ->
  load (file_bytes lsn n kvs ++ post) db =
  Done (Some lsn, fold_left (fun s kv => kv_insert_raw s kv.1 kv.2) kvs db).
Proof.
  intros Hl Hn Hf Hle Hpost. unfold load.
  set (b := file_bytes _ _ _ ++ post).
  set (hdr := le_split 4 SNAPSHOT_MAGIC ++ le_split 8 lsn ++ le_split 8 n).
  assert (b = hdr ++ concat (entry_bytes <$> kvs) ++ post) as Eb.
  { unfold b, hdr, file_bytes. by rewrite <- !app_assoc. }
  assert (len hdr = 20) as Hh by (unfold hdr; len_lia).
  assert (20 <= len b) as Hb by (rewrite Eb; len_lia).
  assert (u32 SNAPSHOT_MAGIC) as Hm by (unfold u32; vm_compute; intuition congruence).
  replace (len b <? 20) with false by lia_bool.
  assert (slice b 0 4 = Done (le_split 4 SNAPSHOT_MAGIC)) as ->.
  { rewrite Eb. unfold hdr. rewrite <- !app_assoc. apply slice_prefix. len_lia. }
  ostep. rewrite wire.rd_u32_le by done. ostep.
  rewrite as_u32_small, Z.eqb_refl by done. simpl negb. cbv iota.
  assert (slice b 4 12 = Done (le_split 8 lsn)) as ->.
  { rewrite Eb. unfold hdr. rewrite <- !app_assoc. apply slice_mid; len_lia. }
  ostep. rewrite wire.rd_u64_le by done. ostep.
  assert (slice b 12 20 = Done (le_split 8 n)) as ->.
  { rewrite Eb. unfold hdr. rewrite <- !app_assoc, (app_assoc (le_split 4 _)). apply slice_mid; len_lia. }
  ostep. rewrite wire.rd_u64_le by done. ostep.
  rewrite <- Hh at 1. rewrite Eb at 1 2. rewrite load_loop_entries by done. rewrite <- Eb.
  assert (len b = len hdr + len (concat (entry_bytes <$> kvs)) + len post) as El by (rewrite Eb; len_lia).
  rewrite load_loop_unfold by lia.
  destruct (n - len kvs <=? 0) eqn:En; [done|].
  by replace (len b <? _) with true by lia_bool.
Qed.

End load_laws.

(** ** Effects of the writer on the file system *)

Section write_effects.

(** Only the inode [f] changed. *)
Record tmp_only (f : N) (s s' : Fs) : Prop := {
  to_names : names s' = names s;
  to_dnames : dnames s' = dnames s;
  to_next : next_ino s' = next_ino s;
  to_files i : i <> f -> files s' !! i = files s !! i;
  to_synced i : i <> f -> i ∈ synced s' <-> i ∈ synced s;
}.

#[export] Instance tmp_only_preorder f : PreOrder (tmp_only f).
Proof.
  split.
  - intros s. by split.
  - intros s1 s2 s3 [A1 A2 A3 A4 A5] [B1 B2 B3 B4 B5]. split; [congruence..| |].
    + intros i Hi. by rewrite B4, A4.
    + intros i Hi. by rewrite B5, A5.
Qed.

Lemma set_file_tmp_only f c s : tmp_only f s (set_file s f c).
Proof. split; simpl; [done..| |]; intros i Hi; [by rewrite lookup_insert_ne|set_solver]. Qed.

Lemma set_faults_tmp_only f r s : tmp_only f s (set_faults s r).
Proof. by split. Qed.

Lemma call_cases {A} (ok : Fs -> Fs * A) fail s :
  (exists e n q, call ok fail s = (fail n (set_faults s q), inr e)) \/
  (exists q, call ok fail s = (let '(s', a) := ok (set_faults s q) in (s', inl a))).
Proof. unfold call. destruct (faults s) as [|[[e n]|] q]; simpl; eauto. Qed.

Lemma call_tmp_only {A} f (ok : Fs -> Fs * A) fail s :
  (forall s, tmp_only f s (ok s).1) -> (forall n s, tmp_only f s (fail n s)) ->
  tmp_only f s (call ok fail s).1.
Proof.
  intros Hok Hf. destruct (call_cases ok fail s) as [(e & n & q & ->)|(q & ->)]; simpl.
  - transitivity (set_faults s q); [apply set_faults_tmp_only|apply Hf].
  - transitivity (set_faults s q); [apply set_faults_tmp_only|].
    specialize (Hok (set_faults s q)). by destruct (ok _).
Qed.

Lemma append_tmp_only f c s : tmp_only f s (append f c s).1.
Proof. apply call_tmp_only; intros; apply set_file_tmp_only. Qed.

Lemma append_file f c s s' u :
  append f c s = (s', inl u) -> files s' !! f = Some (default [] (files s !! f) ++ c).
Proof.
  unfold append, call. destruct (faults s) as [|[[e n]|] r]; simpl; intros ?; simplify_eq/=;
    by rewrite lookup_insert_eq.
Qed.

Lemma sync_tmp_only f s : tmp_only f s (sync_data f s).1.
Proof. apply call_tmp_only; intros; [split; simpl; [done..|]; set_solver|done]. Qed.

Lemma sync_file f s s' u :
  sync_data f s = (s', inl u) -> files s' = files s /\ f ∈ synced s'.
Proof.
  unfold sync_data, call. destruct (faults s) as [|[[e n]|] r]; simpl; intros ?; simplify_eq/=; set_solver.
Qed.

(** A loop of appends, to the end or to its first failure. *)
Lemma for_each_append {X} f (g : X -> list bytes) l s :
  tmp_only f s (for_each (fun x => for_each (append f) (g x)) l s).1 /\
  (forall s' u, for_each (fun x => for_each (append f) (g x)) l s = (s', inl u) ->
     default [] (files s' !! f) = default [] (files s !! f) ++ concat (concat (g <$> l))).
Proof.
  assert (forall cs s, tmp_only f s (for_each (append f) cs s).1 /\
    (forall s' u, for_each (append f) cs s = (s', inl u) ->
       default [] (files s' !! f) = default [] (files s !! f) ++ concat cs)) as Hin.
  { clear s. induction cs as [|c cs IH]; intros s; cbn [for_each].
    - split; [done|]. intros s' u [= <- <-]. simpl. by rewrite app_nil_r.
    - unfold mbind, io_bind. pose proof (append_tmp_only f c s) as Ht.
      destruct (append f c s) as [s1 [u1|e]] eqn:Ea; simpl in *; [|split; [done|congruence]].
      destruct (IH s1) as [IH1 IH2]. split; [by transitivity s1|].
      intros s' u Hr. rewrite (IH2 _ _ Hr), (append_file _ _ _ _ _ Ea). simpl.
      by rewrite <- app_assoc. }
  revert s. induction l as [|x l IH]; intros s; cbn [for_each].
  - split; [done|]. intros s' u [= <- <-]. simpl. by rewrite app_nil_r.
  - unfold mbind, io_bind. destruct (Hin (g x) s) as [H1 H2].
    destruct (for_each (append f) (g x) s) as [s1 [u1|e]] eqn:Ea; simpl in *; [|split; [done|congruence]].
    destruct (IH s1) as [IH1 IH2]. split; [by transitivity s1|].
    intros s' u Hr. rewrite (IH2 _ _ Hr), (H2 _ _ eq_refl), concat_app. by rewrite <- app_assoc.
Qed.

(** What a crash can leave under the name [snapshot]: the name is looked up in
    the running or in the on-disk name space, and an unsynced file may hold
    anything. *)
Definition snapshot_after_crash (s : Fs) (c : option bytes) : Prop :=
  exists nm, (nm = names s \/ nm = dnames s) /\
  match nm !! snap_name with
  | None => c = None
  | Some i => i ∈ synced s -> c = Some (default [] (files s !! i))
  end.

(** No name of the snapshot is the temporary file's inode or a fresh one. *)
Definition snap_inode (s : Fs) (i : N) : Prop :=
  names s !! snap_name = Some i \/ dnames s !! snap_name = Some i.
Record fs_wf (s : Fs) : Prop := {
  wf_snap i : snap_inode s i -> names s !! tmp_name <> Some i;
  wf_snap_ino i : snap_inode s i -> (i < next_ino s)%N;
  wf_tmp_ino i : names s !! tmp_name = Some i -> (i < next_ino s)%N;
}.

Lemma crash_tmp_only f s s' c :
  tmp_only f s s' -> ~ snap_inode s f -> snapshot_after_crash s' c -> snapshot_after_crash s c.
Proof.
  intros [H1 H2 _ H3 H4] Hf (nm & Hnm & Hc). rewrite H1, H2 in Hnm. exists nm. split; [done|].
  destruct (nm !! snap_name) as [i|] eqn:E; [|done].
  assert (i <> f) as Hi.
  { intros ->. apply Hf. destruct Hnm as [->| ->]; [by left|by right]. }
  by rewrite H3, H4 in Hc.
Qed.

Lemma tmp_only_inode f s s' i : tmp_only f s s' -> snap_inode s' i <-> snap_inode s i.
Proof. intros [H1 H2 _ _ _]. unfold snap_inode. by rewrite H1, H2. Qed.

Lemma tmp_only_wf f s s' : tmp_only f s s' -> fs_wf s -> fs_wf s'.
Proof.
  intros Ht [W1 W2 W3].
  split; intros i; rewrite ?(tmp_only_inode _ _ _ i Ht); destruct Ht as [E1 _ E2 _ _]; rewrite ?E1, ?E2; auto.
Qed.

(** [File::create("snapshot.tmp")] does not touch the snapshot. *)
Lemma create_effect s s' r :
  fs_wf s -> create tmp_name s = (s', r) ->
  fs_wf s' /\ (forall c, snapshot_after_crash s' c -> snapshot_after_crash s c) /\
  (forall f, r = inl f ->
     names s' !! tmp_name = Some f /\ files s' !! f = Some [] /\ ~ snap_inode s' f).
Proof.
  intros Hwf Hc. unfold create in Hc.
  edestruct (call_cases (A := N)) as [(e & n & q & Hq)|(q & Hq)]; rewrite Hq in Hc; clear Hq.
  { injection Hc as <- <-. split_and!; [by destruct Hwf|done|done]. }
  cbv beta in Hc. simpl names in Hc. destruct (names s !! tmp_name) as [f|] eqn:E.
  - injection Hc as <- <-.
    assert (~ snap_inode s f) as Hf by (intros Hi; by apply (wf_snap _ Hwf f Hi)).
    assert (tmp_only f s (set_file (set_faults s q) f [])) as Ht.
    { transitivity (set_faults s q); [apply set_faults_tmp_only|apply set_file_tmp_only]. }
    split_and!; [by eapply tmp_only_wf|intros c; by eapply crash_tmp_only|].
    intros f' [= <-]. simpl. by rewrite lookup_insert_eq.
  - injection Hc as <- <-. set (f := next_ino s).
    assert (~ snap_inode s f) as Hf by (intros Hi%(wf_snap_ino _ Hwf); unfold f in *; lia).
    match goal with |- fs_wf ?x /\ _ => set (s' := x) end.
    assert (forall i, snap_inode s' i <-> snap_inode s i) as Hsi.
    { intros i. unfold snap_inode, s'; simpl. by rewrite lookup_insert_ne. }
    split_and!.
    + split; intros i; rewrite ?Hsi; simpl.
      * intros Hi. rewrite lookup_insert_eq. intros [= <-]. done.
      * intros Hi%(wf_snap_ino _ Hwf). lia.
      * rewrite lookup_insert_eq. intros [= <-]. lia.
    + intros c (nm & Hnm & Hc). exists (if decide (nm = names s') then names s else nm).
      case_decide as Hd.
      * split; [by left|]. subst nm. simpl in Hc. rewrite lookup_insert_ne in Hc by done.
        destruct (names s !! snap_name) as [i|] eqn:Ei; [|done].
        assert (i <> f) by (intros ->; apply Hf; by left).
        rewrite lookup_insert_ne in Hc by done. set_solver.
      * destruct Hnm as [|Hnm]; [done|]. split; [by right|]. subst nm. simpl in *.
        destruct (dnames s !! snap_name) as [i|] eqn:Ei; [|done].
        assert (i <> f) by (intros ->; apply Hf; by right).
        rewrite lookup_insert_ne in Hc by done. set_solver.
    + intros f' [= <-]. rewrite Hsi. simpl. by rewrite !lookup_insert_eq.
Qed.

End write_effects.

Section write_laws.
Context {S : Type} `{KvStore S}.

(** Everything the writer appends to the temporary file. *)
Lemma chunks_bytes (db : S) lsn :
  concat (header_chunks db lsn) ++ concat (concat (entry_chunks <$> kv_iter db)) =
  file_bytes lsn (kv_len db) (kv_iter db).
Proof.
  unfold header_chunks, file_bytes. cbn [concat].
  rewrite <- !app_assoc, app_nil_l. do 3 f_equal.
  induction (kv_iter db) as [|kv l IH]; [done|].
  rewrite !fmap_cons. cbn [concat]. rewrite concat_app, IH. f_equal.
  unfold entry_chunks, entry_bytes. cbn [concat]. by rewrite app_nil_r.
Qed.

(** The part of the writer that fills and syncs the temporary file. *)
Definition fill (f : N) (db : S) (lsn : Z) : io unit :=
  for_each (append f) (header_chunks db lsn) ≫= fun _ =>
  for_each (fun kv => for_each (append f) (entry_chunks kv)) (kv_iter db) ≫= fun _ =>
  sync_data f.

Lemma fill_effect f (db : S) lsn s :
  files s !! f = Some [] ->
  tmp_only f s (fill f db lsn s).1 /\
  (forall s' u, fill f db lsn s = (s', inl u) ->
     f ∈ synced s' /\ default [] (files s' !! f) = file_bytes lsn (kv_len db) (kv_iter db)).
Proof.
  intros Hf. unfold fill, mbind, io_bind.
  destruct (for_each_append f (fun _ : unit => header_chunks db lsn) [tt] s) as [H1 H2].
  cbn [for_each] in H1, H2. unfold mbind, io_bind in H1, H2.
  destruct (for_each (append f) (header_chunks db lsn) s) as [s1 [u1|e]]; simpl in *; [|by split].
  specialize (H2 _ _ eq_refl). rewrite app_nil_r, Hf in H2.
  destruct (for_each_append f entry_chunks (kv_iter db) s1) as [H3 H4].
  destruct (for_each _ (kv_iter db) s1) as [s2 [u2|e]]; simpl in *; [|split; [by transitivity s1|done]].
  specialize (H4 _ _ eq_refl). rewrite H2 in H4. simpl in H4.
  pose proof (sync_tmp_only f s2) as H5. split; [by transitivity s1; [|transitivity s2]|].
  intros s' u Hs. destruct (sync_file _ _ _ _ Hs) as [E1 E2]. rewrite E1, H4. split; [done|].
  apply chunks_bytes.
Qed.

(** [fs::rename] of a synced temporary file over the snapshot. *)
Lemma rename_effect f s s' r :
  fs_wf s -> names s !! tmp_name = Some f -> f ∈ synced s ->
  rename tmp_name snap_name s = (s', r) ->
  fs_wf s' /\
  (forall c, snapshot_after_crash s' c ->
     snapshot_after_crash s c \/ c = Some (default [] (files s !! f))) /\
  (forall u, r = inl u -> names s' !! snap_name = Some f /\ files s' = files s).
Proof.
  intros Hwf Hn Hs Hr. unfold rename in Hr.
  edestruct (call_cases (A := unit)) as [(e & n & q & Hq)|(q & Hq)]; rewrite Hq in Hr; clear Hq.
  { injection Hr as <- <-. split_and!; [by destruct Hwf|by left|done]. }
  cbv beta in Hr. simpl names in Hr. rewrite Hn in Hr. injection Hr as <- <-. split_and!.
  - destruct Hwf as [W1 W2 W3]. split; intros i; unfold snap_inode; simpl;
      rewrite ?lookup_insert_eq, ?(lookup_insert_ne _ snap_name tmp_name), ?lookup_delete_eq by done; [done| |done].
    intros [[= <-]|Hi]; [by apply W3|apply W2; by right].
  - intros c (nm & Hnm & Hc). destruct Hnm as [Hnm|Hnm]; subst nm; simpl in Hc.
    + rewrite lookup_insert_eq in Hc. right. by apply Hc.
    + left. exists (dnames s). auto.
  - intros u _. simpl. by rewrite lookup_insert_eq.
Qed.

Lemma sync_dir_effect s :
  fs_wf s -> fs_wf (sync_dir s).1 /\
  (forall c, snapshot_after_crash (sync_dir s).1 c -> snapshot_after_crash s c) /\
  names (sync_dir s).1 = names s /\ files (sync_dir s).1 = files s.
Proof.
  intros Hwf. unfold sync_dir.
  edestruct (call_cases (A := unit)) as [(e & n & q & Hq)|(q & Hq)]; rewrite Hq; clear Hq; simpl.
  { split_and!; [by destruct Hwf|done..]. }
  destruct Hwf as [W1 W2 W3]. split_and!; [|intros c (nm & Hnm & Hc)|done..].
  - split; intros i; unfold snap_inode; simpl; [|intros [?|?]; apply W2; by left|apply W3].
    intros [?|?]; apply W1; by left.
  - exists (names s). split; [by left|]. simpl in *. by destruct Hnm; subst nm.
Qed.

(** The writer as the sequence of its stages. *)
Lemma write_snapshot_stages self (db : S) lsn s :
  write_snapshot self db lsn s =
  if sub64 lsn (last_boundary_lsn self) <=? min_lsn_gap self then (s, inl (false, self)) else
  match create tmp_name s with
  | (s1, inr e) => (s1, inr e)
  | (s1, inl f) =>
      match fill f db lsn s1 with
      | (s2, inr e) => (s2, inr e)
      | (s2, inl _) =>
          match rename tmp_name snap_name s2 with
          | (s3, inr e) => (s3, inr e)
          | (s3, inl _) =>
              ((sync_dir s3).1, inl (true, mk_snapshotter (running self) lsn (min_lsn_gap self)))
          end
      end
  end.
Proof.
  unfold write_snapshot, fill. destruct (_ <=? _); [done|].
  cbv beta delta [mbind io_bind mret io_ret ignore].
  destruct (create tmp_name s) as [s1 [f|e]]; [|done].
  destruct (for_each (append f) (header_chunks db lsn) s1) as [s2 [u|e]]; [|done].
  destruct (for_each _ (kv_iter db) s2) as [s3 [u'|e]]; [|done].
  destruct (sync_data f s3) as [s4 [u''|e]]; [|done].
  by destruct (rename tmp_name snap_name s4) as [s5 [u3|e]].
Qed.

(** C18: the snapshot writer is crash safe.  Whichever of its calls fails or is
    cut short by a crash (a write possibly after some of its bytes), what the
    name [snapshot] holds after the crash is what it could hold before the call
    or the complete new file; and the file system stays fit for the next call. *)
Theorem write_snapshot_crash_safe self (db : S) lsn s :
  fs_wf s ->
  let s' := (write_snapshot self db lsn s).1 in
  fs_wf s' /\
  forall c, snapshot_after_crash s' c ->
    snapshot_after_crash s c \/ c = Some (file_bytes lsn (kv_len db) (kv_iter db)).
Proof.
  intros Hwf. cbv zeta. rewrite write_snapshot_stages. destruct (_ <=? _); [simpl; auto|].
  destruct (create tmp_name s) as [s1 r1] eqn:Ec.
  destruct (create_effect _ _ _ Hwf Ec) as (Hwf1 & Hc1 & Hok1).
  destruct r1 as [f|e]; [|cbn [fst]; auto]. destruct (Hok1 f eq_refl) as (Hn & Hf & Hsn).
  destruct (fill_effect f db lsn s1 Hf) as [Ht Hfill].
  assert (fs_wf (fill f db lsn s1).1) as Hwf2 by (by eapply tmp_only_wf).
  assert (forall c, snapshot_after_crash (fill f db lsn s1).1 c -> snapshot_after_crash s c) as Hc2.
  { intros c Hc. apply Hc1. by eapply crash_tmp_only. }
  destruct (fill f db lsn s1) as [s2 [u|e]]; cbn [fst] in *; [|auto].
  destruct (Hfill _ _ eq_refl) as [Hsy Hfb].
  destruct (rename tmp_name snap_name s2) as [s3 r3] eqn:Er.
  destruct (rename_effect f s2 s3 r3) as (Hwf3 & Hc3 & Hok3);
    [done|by rewrite (to_names _ _ _ Ht)|done|done|].
  assert (forall c, snapshot_after_crash s3 c ->
    snapshot_after_crash s c \/ c = Some (file_bytes lsn (kv_len db) (kv_iter db))) as Hfin.
  { intros c [Hc| ->]%Hc3; [left; auto|right; by rewrite Hfb]. }
  destruct r3; cbn [fst]; [|auto].
  destruct (sync_dir_effect s3 Hwf3) as (Hwf4 & Hc4 & _). split; [done|]. intros c Hc. auto.
Qed.

End write_laws.

(** ** Properties of the pair *)

Section roundtrip.
Context {S : Type} `{KvLaws S}.

(** The file a process finds under a name. *)
Definition read_file (s : Fs) (name : bytes) : option bytes :=
  i ← names s !! name; files s !! i.

Lemma write_snapshot_content self self' (db : S) lsn s s' :
  fs_wf s -> write_snapshot self db lsn s = (s', inl (true, self')) ->
  default [] (read_file s' snap_name) = file_bytes lsn (kv_len db) (kv_iter db) /\
  last_boundary_lsn self' = lsn.
Proof.
  intros Hwf Hw. rewrite write_snapshot_stages in Hw. destruct (_ <=? _); [done|].
  destruct (create tmp_name s) as [s1 [f|e]] eqn:Ec; [|done].
  destruct (create_effect _ _ _ Hwf Ec) as (Hwf1 & _ & Hok1).
  destruct (Hok1 f eq_refl) as (Hn & Hf & _).
  destruct (fill_effect f db lsn s1 Hf) as [Ht Hfill].
  assert (fs_wf (fill f db lsn s1).1) as Hwf2 by (by eapply tmp_only_wf).
  destruct (fill f db lsn s1) as [s2 [u|e]]; cbn [fst] in *; [|done].
  destruct (Hfill _ _ eq_refl) as [Hsy Hfb].
  destruct (rename tmp_name snap_name s2) as [s3 r3] eqn:Er.
  destruct (rename_effect f s2 s3 r3) as (Hwf3 & _ & Hok3);
    [done|by rewrite (to_names _ _ _ Ht)|done|done|].
  destruct r3 as [u3|]; [|done]. destruct (Hok3 _ eq_refl) as [Hnm Hfl].
  destruct (sync_dir_effect s3 Hwf3) as (_ & _ & Hn4 & Hf4).
  injection Hw as <- <-. split; [|done]. unfold read_file.
  rewrite Hn4, Hnm. cbn [mbind option_bind]. by rewrite Hf4, Hfl.
Qed.

Lemma iter_len (db : S) : kv_wf db -> kv_len db = len (kv_iter db).
Proof.
  intros Hwf. rewrite kv_len_view, kv_iter_view by done. f_equal.
  symmetry. apply length_map_to_list.
Qed.

(** C35: a snapshot that [write_snapshot_sync_TEMP_FUNC] reports as written is
    read back by [load] with its LSN and exactly the table's content, when the
    numbers fit the format's fields. *)
Theorem write_snapshot_load self self' (db : S) lsn s s' :
  fs_wf s -> kv_wf db -> u64 lsn -> u64 (kv_len db) -> Forall entry_fits (kv_iter db) ->
  write_snapshot self db lsn s = (s', inl (true, self')) ->
  exists db', load (default [] (read_file s' snap_name)) kv_new = Done (Some lsn, db') /\
    kv_wf db' /\ kv_view db' = kv_view db.
Proof.
  intros Hfs Hwf Hl Hn Hf Hw. destruct (write_snapshot_content _ _ _ _ _ _ Hfs Hw) as [-> _].
  rewrite iter_len in * by done. eexists. split.
  - rewrite <- (app_nil_r (file_bytes _ _ _)). apply load_file; auto. lia.
  - destruct (fold_insert_view (kv_iter db) kv_new kv_new_wf) as [H1 H2]. split; [done|].
    rewrite H2, kv_new_view. apply fold_insert_to_map. by apply kv_iter_view.
Qed.

(** The loader trusts the header: a snapshot cut after some of the entries
    its header announces is accepted under its full LSN with the entries that
    are left. *)
Theorem load_accepts_cut_snapshot lsn kvs lost (db : S) :
  u64 lsn -> u64 (len (kvs ++ lost)) -> Forall entry_fits kvs ->
  load (file_bytes lsn (len (kvs ++ lost)) kvs) db =
  Done (Some lsn, fold_left (fun s kv => kv_insert_raw s kv.1 kv.2) kvs db).
Proof.
  intros Hl Hn Hf. rewrite <- (app_nil_r (file_bytes _ _ _)). apply load_file; auto.
  - len_lia.
  - left. simpl. lia.
Qed.

End roundtrip.

(** ** Witnesses *)

(** An empty data directory whose third call (the second header write) fails
    after 3 bytes. *)
Definition ex_fs (fs : list fault) : Fs := mk_fs ∅ ∅ ∅ ∅ 0 fs.
Definition ex_db : db.Db := kv_put (kv_put kv_new (bstr "a") (bstr "1")) (bstr "bc") (bstr "").

Lemma ex_fs_wf q : fs_wf (ex_fs q).
Proof. split; intros i; unfold snap_inode; simpl; rewrite !lookup_empty; intuition congruence. Qed.

Lemma ex_db_snap_wf : kv_wf ex_db.
Proof. unfold ex_db. auto with kv. Qed.

Lemma write_snapshot_crash_safe_witness :
  let s' := (write_snapshot (new 1 0) ex_db 9 (ex_fs [None; None; Some (28, 3%nat)])).1 in
  fs_wf s' /\ read_file s' tmp_name = Some (le_split 4 SNAPSHOT_MAGIC ++ take 3 (le_split 8 9)) /\
  (forall c, snapshot_after_crash s' c ->
     snapshot_after_crash (ex_fs [None; None; Some (28, 3%nat)]) c \/
     c = Some (file_bytes 9 (kv_len ex_db) (kv_iter ex_db))).
Proof.
  cbv zeta.
  destruct (write_snapshot_crash_safe (new 1 0) ex_db 9 (ex_fs [None; None; Some (28, 3%nat)]) (ex_fs_wf _))
    as [H1 H2].
  split; [exact H1|]. split; [vm_compute; reflexivity|exact H2].
Defined.

Lemma write_snapshot_load_witness :
  exists s' self' db',
    write_snapshot (new 1 0) ex_db 9 (ex_fs []) = (s', inl (true, self')) /\
    load (default [] (read_file s' snap_name)) kv_new = Done (Some 9, db') /\
    db.view db' = db.view ex_db.
Proof.
  destruct (write_snapshot (new 1 0) ex_db 9 (ex_fs [])) as [s' [[b self']|e]] eqn:E;
    [|vm_compute in E; discriminate E].
  destruct b; [|vm_compute in E; discriminate E].
  destruct (write_snapshot_load (new 1 0) self' ex_db 9 (ex_fs []) s' (ex_fs_wf _) ex_db_snap_wf)
    as (db' & H1 & _ & H2);
    [decide_vm..|exact E|].
  exists s', self', db'. split; [reflexivity|]. split; [exact H1|exact H2].
Defined.

Lemma load_accepts_cut_snapshot_witness :
  exists db', load (file_bytes 9 2 [(bstr "a", bstr "1")]) db.new = Done (Some 9, db') /\
    db.db_len db' = 1.
Proof.
  eexists. split.
  - apply (load_accepts_cut_snapshot (S := db.Db) 9 [(bstr "a", bstr "1")] [(bstr "b", bstr "2")]);
      decide_vm.
  - vm_compute. reflexivity.
Defined.

End snapshot.
