(* ===== verification/Recovery.v ===== *)
(** * Crash recovery ([crates/storage/src/lib.rs])

    [recover]: load the snapshot if there is one, then replay the WAL records
    above its LSN in segment order, stopping at the first torn or corrupted
    record.  The data directory enters through what its calls return. *)

From S2P Require Import Prelude Wire Db WalFormat Snapshot.
Local Open Scope Z_scope.

Module recovery.
Import wal_format.

(** What the calls on the data directory return. *)
Record DataDir := mk_dir {
  create_dir_all : outcome unit;
  snapshot_file : option (outcome bytes);      (* [None]: it does not exist *)
  read_dir : outcome (list (outcome bytes));
  read : bytes -> outcome bytes;
}.

Section recover.
Context {S : Type} `{KvStore S}.

(** The variables of the replay loop. *)
Record Replay := mk_replay { rp_db : S; highest : Z; replayed : Z }.

(** The body of the [while] loop, after a record was decoded. *)
Definition replay_record (snap_lsn : Z) (st : Replay) (rec : Record) : outcome Replay :=
  if lsn rec <=? snap_lsn then Done st else
  o ← wire.op (wire_body rec);
  db ← (if decide (o = wire.OP_PUT) then
          '(k, v) ← wire.split_kv (wire_body rec);
          Done (kv_insert_raw (rp_db st) k v)
        else Done (rp_db st));
  Done (mk_replay db (Z.max (highest st) (lsn rec)) (add64 (replayed st) 1)).

(** [while p < bytes.len()] on the unread suffix [bytes[p..]]; the flag says
    that the segment is torn.  A record takes at least 20 bytes, so a fuel of
    [bytes.len()] iterations always reaches the end ([replay_loop_unfold]). *)
Fixpoint replay_loop (fuel : nat) (snap_lsn : Z) (rest : bytes) (st : Replay)
    : outcome (Replay * bool) :=
  match fuel with
  | O => Done (st, false)
  | Datatypes.S fuel =>
      if 0 <? len rest then
        r ← decode_record rest;
        match r with
        | None => Done (st, true)
        | Some rec =>
            st ← replay_record snap_lsn st rec;
            replay_loop fuel snap_lsn (drop (Z.to_nat (consumed rec)) rest) st
        end
      else Done (st, false)
  end.

(** ['main: for ... in list_segments(dir)?]; a torn segment breaks out. *)
Fixpoint replay_segments (rd : bytes -> outcome bytes) (snap_lsn : Z) (segs : list (Z * bytes))
    (st : Replay) : outcome (Replay * bool) :=
  match segs with
  | [] => Done (st, false)
  | (_, path) :: segs =>
      b ← rd path;
      '(st, torn) ← replay_loop (length b) snap_lsn b st;
      if (torn : bool) then Done (st, true) else replay_segments rd snap_lsn segs st
  end.

(** Returns (db, next_lsn). *)
Definition recover (d : DataDir) : outcome (S * Z) :=
  _ ← create_dir_all d;
  '(snap, db) ← (match snapshot_file d with
                 | Some f => b ← f; snapshot.load b kv_new
                 | None => Done (None, kv_new)
                 end);
  let snap_lsn := default 0 snap in
  segs ← list_segments true (read_dir d);
  '(st, torn) ← replay_segments (read d) snap_lsn segs (mk_replay db snap_lsn 0);
  Done (rp_db st, add64 (highest st) 1).

End recover.
Arguments Replay S : clear implicits.

(** ** The meaning of a log *)

(** A record as the server writes it: bounds of its fields, and a body the
    replay can read. *)
Definition redo_ok (w : bytes) : bool :=
  match wire.op w with
  | Done o => if decide (o = wire.OP_PUT) then wire.body_ok w else true
  | _ => false
  end.
Definition rec_ok (r : Z * bytes) : Prop :=
  u64 r.1 /\ u32 (8 + len r.2) /\ redo_ok r.2 = true.

#[export] Instance rec_ok_decision r : Decision (rec_ok r).
Proof. unfold rec_ok. apply _. Defined.

(** The effect of a body on the table's content. *)
Definition redo_body (m : gmap bytes bytes) (w : bytes) : gmap bytes bytes :=
  match wire.op w, wire.split_kv w with
  | Done o, Done (k, v) => if decide (o = wire.OP_PUT) then <[k := v]> m else m
  | _, _ => m
  end.

(** The records above the snapshot, applied in order. *)
Definition redo (snap : Z) (m : gmap bytes bytes) (recs : list (Z * bytes)) : gmap bytes bytes :=
  fold_left (fun m r => if r.1 <=? snap then m else redo_body m r.2) recs m.
Definition redo_lsn (snap : Z) (h : Z) (recs : list (Z * bytes)) : Z :=
  fold_left (fun h r => if r.1 <=? snap then h else Z.max h r.1) recs h.

(** The bytes of a log. *)
Definition wal_bytes (recs : list (Z * bytes)) : bytes :=
  concat ((fun r => record_bytes r.1 r.2) <$> recs).

Lemma wal_bytes_app r1 r2 : wal_bytes (r1 ++ r2) = wal_bytes r1 ++ wal_bytes r2.
Proof. unfold wal_bytes. by rewrite fmap_app, concat_app. Qed.
Lemma wal_bytes_cons r recs : wal_bytes (r :: recs) = record_bytes r.1 r.2 ++ wal_bytes recs.
Proof. done. Qed.

Section recover_laws.
Context {S : Type} `{KvLaws S}.
Implicit Types st : Replay S.

(** ** The loops *)

Lemma replay_loop_fuel (f1 f2 : nat) snap rest st :
  (length rest <= f1)%nat -> (length rest <= f2)%nat ->
  replay_loop f1 snap rest st = replay_loop f2 snap rest st.
Proof.
  revert f2 rest st. induction f1 as [|f1 IH]; intros [|f2] rest st H1 H2; cbn [replay_loop].
  - done.
  - by replace (0 <? len rest) with false by lia_bool.
  - by replace (0 <? len rest) with false by lia_bool.
  - destruct (0 <? len rest) eqn:E; [|done].
    destruct (decode_record rest) as [[rec|]| |] eqn:Ed; ostep; [|done..].
    destruct (replay_record snap st rec); ostep; [|done..].
    apply decode_sound in Ed as (_ & _ & Hc & _). apply Z.ltb_lt in E. apply IH; len_lia.
Qed.

(** The loop equation of the source, with no fuel. *)
Lemma replay_loop_unfold snap b st :
  replay_loop (length b) snap b st =
  if 0 <? len b then
    r ← decode_record b;
    match r with
    | None => Done (st, true)
    | Some rec =>
        st ← replay_record snap st rec;
        let rest := drop (Z.to_nat (consumed rec)) b in
        replay_loop (length rest) snap rest st
    end
  else Done (st, false).
Proof.
  rewrite (replay_loop_fuel _ (Datatypes.S (length b))) by lia. cbn [replay_loop].
  destruct (0 <? len b) eqn:E; [|done].
  destruct (decode_record b) as [[rec|]| |] eqn:Ed; ostep; [|done..].
  destruct (replay_record snap st rec); ostep; [|done..].
  apply decode_sound in Ed as (_ & _ & Hc & _). apply Z.ltb_lt in E.
  apply replay_loop_fuel; len_lia.
Qed.

(** What a replay state means. *)
Record replays (snap : Z) (recs : list (Z * bytes)) (st st' : Replay S) : Prop := {
  rps_wf : kv_wf (rp_db st');
  rps_view : kv_view (rp_db st') = redo snap (kv_view (rp_db st)) recs;
  rps_lsn : highest st' = redo_lsn snap (highest st) recs;
}.

Lemma replays_nil snap st : kv_wf (rp_db st) -> replays snap [] st st.
Proof. by split. Qed.

Lemma replays_trans snap r1 r2 st1 st2 st3 :
  replays snap r1 st1 st2 -> replays snap r2 st2 st3 -> replays snap (r1 ++ r2) st1 st3.
Proof.
  intros [A1 A2 A3] [B1 B2 B3]. split; [done|..].
  - unfold redo in *. by rewrite fold_left_app, B2, A2.
  - unfold redo_lsn in *. by rewrite fold_left_app, B3, A3.
Qed.

Lemma replay_record_ok snap st l w c :
  kv_wf (rp_db st) -> rec_ok (l, w) ->
  exists st', replay_record snap st (mk_record l w c) = Done st' /\ replays snap [(l, w)] st st'.
Proof.
  intros Hwf (_ & _ & Hr). unfold replay_record, redo_ok in *. simpl in *.
  destruct (l <=? snap) eqn:E.
  { exists st. split; [done|]. split; [done|unfold redo|unfold redo_lsn]; simpl; by rewrite E. }
  destruct (wire.op w) as [o| |] eqn:Eo; try done. ostep. destruct (decide (o = wire.OP_PUT)) as [->|Hne].
  - destruct (wire.split_kv_ok w Hr) as (k & v & Hkv & _). rewrite Hkv. ostep.
    eexists. split; [done|]. split; simpl; [by apply kv_insert_raw_wf|unfold redo|unfold redo_lsn]; simpl; rewrite E.
    + unfold redo_body. by rewrite Eo, Hkv, decide_True, kv_insert_raw_view.
    + done.
  - ostep. eexists. split; [done|]. split; simpl; [done|unfold redo|unfold redo_lsn]; simpl; rewrite E; [|done].
    unfold redo_body. rewrite Eo. by destruct (wire.split_kv w) as [[k v]| |]; rewrite ?decide_False.
Qed.

(** Whatever the record, the replay panics or applies it. *)
Lemma replay_record_any snap st l w c :
  kv_wf (rp_db st) ->
  replay_record snap st (mk_record l w c) = Panic \/
  exists st', replay_record snap st (mk_record l w c) = Done st' /\ replays snap [(l, w)] st st'.
Proof.
  intros Hwf. unfold replay_record. simpl. destruct (l <=? snap) eqn:E.
  { right. exists st. split; [done|]. split; [done|unfold redo|unfold redo_lsn]; simpl; by rewrite E. }
  destruct (wire.op w) as [o| e |] eqn:Eo; ostep; [|by destruct (index_not_IoErr w 0 e)|by left].
  destruct (decide (o = wire.OP_PUT)) as [->|Hne].
  - destruct (wire.split_kv w) as [[k v]| e |] eqn:Hkv; ostep; [|by destruct (wire.split_kv_not_IoErr w e)|by left].
    right. eexists. split; [done|].
    split; simpl; [by apply kv_insert_raw_wf|unfold redo|unfold redo_lsn]; simpl; rewrite E; [|done].
    unfold redo_body. by rewrite Eo, Hkv, decide_True, kv_insert_raw_view.
  - right. eexists. split; [done|]. split; simpl; [done|unfold redo|unfold redo_lsn]; simpl; rewrite E; [|done].
    unfold redo_body. rewrite Eo. by destruct (wire.split_kv w) as [[k v]| |]; rewrite ?decide_False.
Qed.

(** A well-formed log prefix is replayed completely. *)
Lemma replay_wal snap recs rest st :
  kv_wf (rp_db st) -> Forall rec_ok recs ->
  exists st', replays snap recs st st' /\
    replay_loop (length (wal_bytes recs ++ rest)) snap (wal_bytes recs ++ rest) st =
    replay_loop (length rest) snap rest st'.
Proof.
  intros Hwf Hok. revert st Hwf. induction Hok as [|[l w] recs Hr Hok IH]; intros st Hwf.
  - exists st. split; [by apply replays_nil|done].
  - destruct Hr as (Hl & Hu & Hr). simpl in Hl, Hu.
    rewrite wal_bytes_cons, <- app_assoc. simpl fst. simpl snd.
    set (b := record_bytes l w ++ wal_bytes recs ++ rest).
    pose proof (record_bytes_length l w) as Hbl.
    assert (len b = 20 + len w + len (wal_bytes recs ++ rest)) as Hb by (unfold b; len_lia).
    destruct (replay_record_ok snap st l w (20 + len w) Hwf) as (st1 & E1 & R1); [done|].
    destruct (IH st1 (rps_wf _ _ _ _ R1)) as (st' & R2 & E2). exists st'.
    split; [by apply (replays_trans snap [(l, w)] recs st st1 st')|]. rewrite <- E2.
    rewrite replay_loop_unfold. replace (0 <? len b) with true by lia_bool.
    assert (decode_record b = Done (Some (mk_record l w (20 + len w)))) as ->
      by (by apply decode_record_app).
    ostep. rewrite E1. ostep. cbv zeta.
    assert (drop (Z.to_nat (20 + len w)) b = wal_bytes recs ++ rest) as Hd.
    { unfold b. apply drop_app_length'. lia. }
    cbn [consumed]. by rewrite Hd.
Qed.


(** Any bytes: the replay applies the records they start with, and panics or
    stops; it never makes up a record. *)
Lemma replay_any snap b st :
  kv_wf (rp_db st) ->
  replay_loop (length b) snap b st = Panic \/
  exists recs tail st' torn, b = wal_bytes recs ++ tail /\ replays snap recs st st' /\
    replay_loop (length b) snap b st = Done (st', torn).
Proof.
  remember (length b) as n eqn:Hn. revert b st Hn. induction (lt_wf n) as [n _ IH]. intros b st -> Hwf.
  rewrite replay_loop_unfold. destruct (0 <? len b).
  2:{ right. exists [], b, st, false. split; [done|]. split; [by apply replays_nil|done]. }
  destruct (decode_record b) as [[[l w c]|]|er|] eqn:Ed; ostep.
  - apply decode_sound in Ed as (Hl & Hu & Hc & Hb). simpl in Hl, Hu, Hc, Hb. cbn [consumed].
    destruct (replay_record_any snap st l w c Hwf) as [->|(st1 & -> & R1)]; ostep; [by left|].
    set (rest := drop (Z.to_nat c) b) in *. cbv zeta.
    assert (length rest < length b)%nat as Hlt by (pose proof (record_bytes_length l w); apply (f_equal length) in Hb; len_lia).
    destruct (IH _ Hlt rest st1 eq_refl (rps_wf _ _ _ _ R1))
      as [->|(recs & tail & st' & torn & E & R & ->)]; [by left|].
    right. exists ((l, w) :: recs), tail, st', torn. rewrite wal_bytes_cons, <- app_assoc, <- E.
    split; [done|]. split; [|done]. by apply (replays_trans snap [(l, w)] recs st st1 st').
  - right. exists [], b, st, true. split; [done|]. split; [by apply replays_nil|done].
  - by apply decode_not_IoErr in Ed.
  - by left.
Qed.

(** ** Segments *)

(** The records of complete segments. *)
Definition holds_logs (rd : bytes -> outcome bytes) (segs : list (Z * bytes))
    (logs : list (list (Z * bytes))) : Prop :=
  Forall2 (fun s recs => rd s.2 = Done (wal_bytes recs)) segs logs.

Lemma holds_logs_ext rd rd' segs logs :
  (forall x, x ∈ segs -> rd' x.2 = rd x.2) -> holds_logs rd segs logs -> holds_logs rd' segs logs.
Proof.
  intros Hx Hl. induction Hl as [|s recs segs logs Hs Hl IH]; [constructor|].
  constructor; [by rewrite Hx by set_solver|]. apply IH. set_solver.
Qed.

(** A tail the replay stops at. *)
Definition torn_tail (tail : bytes) : Prop := tail <> [] /\ decode_record tail = Done None.

Lemma replay_complete snap recs st :
  kv_wf (rp_db st) -> Forall rec_ok recs ->
  exists st', replays snap recs st st' /\
    replay_loop (length (wal_bytes recs)) snap (wal_bytes recs) st = Done (st', false).
Proof.
  intros Hwf Hok. destruct (replay_wal snap recs [] st Hwf Hok) as (st' & Hr & E).
  rewrite !app_nil_r in E. exists st'. split; [done|]. by rewrite E.
Qed.

Lemma replay_torn snap recs tail st :
  kv_wf (rp_db st) -> Forall rec_ok recs -> torn_tail tail ->
  exists st', replays snap recs st st' /\
    replay_loop (length (wal_bytes recs ++ tail)) snap (wal_bytes recs ++ tail) st = Done (st', true).
Proof.
  intros Hwf Hok [Hne Hd]. destruct (replay_wal snap recs tail st Hwf Hok) as (st' & Hr & E).
  exists st'. split; [done|]. rewrite E, replay_loop_unfold, Hd.
  destruct tail; [done|]. by replace (0 <? _) with true by (simpl; lia_bool).
Qed.

Lemma replay_segments_complete rd snap segs logs more st :
  kv_wf (rp_db st) -> holds_logs rd segs logs -> Forall rec_ok (concat logs) ->
  exists st', replays snap (concat logs) st st' /\
    replay_segments rd snap (segs ++ more) st = replay_segments rd snap more st'.
Proof.
  intros Hwf Hl. revert st Hwf.
  induction Hl as [|[start path] recs segs logs Hrd Hl IH]; intros st Hwf Hok; simpl in *.
  - exists st. split; [by apply replays_nil|done].
  - apply Forall_app in Hok as [Hok1 Hok2]. rewrite Hrd. ostep.
    destruct (replay_complete snap recs st Hwf Hok1) as (st1 & R1 & ->). ostep.
    destruct (IH st1 (rps_wf _ _ _ _ R1) Hok2) as (st' & R2 & E). exists st'.
    split; [by eapply replays_trans|done].
Qed.

Lemma replay_segments_torn rd snap segs logs s recs tail more st :
  kv_wf (rp_db st) -> holds_logs rd segs logs -> rd s.2 = Done (wal_bytes recs ++ tail) ->
  torn_tail tail -> Forall rec_ok (concat logs ++ recs) ->
  exists st', replays snap (concat logs ++ recs) st st' /\
    replay_segments rd snap (segs ++ s :: more) st = Done (st', true).
Proof.
  intros Hwf Hl Hrd Ht [Hok1 Hok2]%Forall_app.
  destruct (replay_segments_complete rd snap segs logs (s :: more) st Hwf Hl Hok1) as (st1 & R1 & ->).
  destruct s as [start path]; simpl in *. rewrite Hrd. ostep.
  destruct (replay_torn snap recs tail st1 (rps_wf _ _ _ _ R1) Hok2 Ht) as (st' & R2 & ->).
  exists st'. split; [by eapply replays_trans|done].
Qed.

(** The state the replay starts from. *)
Definition start_of (d : DataDir) : outcome (option Z * S) :=
  match snapshot_file d with
  | Some f => b ← f; snapshot.load b kv_new
  | None => Done (None, kv_new)
  end.

Lemma recover_unfold d o db0 segs :
  create_dir_all d = Done tt -> start_of d = Done (o, db0) ->
  list_segments true (read_dir d) = Done segs ->
  recover d = ('(st, torn) ← replay_segments (read d) (default 0 o) segs (mk_replay db0 (default 0 o) 0);
               Done (rp_db st, add64 (highest st) 1)).
Proof.
  intros H1 H2 H3. unfold recover. rewrite H1. ostep. fold (start_of d). rewrite H2. ostep.
  by rewrite H3.
Qed.

(** Maps of a fold over records only see the records above the snapshot. *)
Lemma redo_app snap m r1 r2 : redo snap m (r1 ++ r2) = redo snap (redo snap m r1) r2.
Proof. unfold redo. apply fold_left_app. Qed.

Lemma redo_below snap m recs : Forall (fun r => r.1 <= snap) recs -> redo snap m recs = m.
Proof.
  intros Hf. revert m. induction Hf as [|r recs Hr Hf IH]; intros m; unfold redo in *; simpl; [done|].
  replace (r.1 <=? snap) with true by lia_bool. apply IH.
Qed.

Lemma redo_above s1 s2 m recs :
  Forall (fun r => s1 < r.1 /\ s2 < r.1) recs -> redo s1 m recs = redo s2 m recs.
Proof.
  intros Hf. revert m. induction Hf as [|r recs Hr Hf IH]; intros m; unfold redo in *; simpl; [done|].
  replace (r.1 <=? s1) with false by lia_bool. replace (r.1 <=? s2) with false by lia_bool. apply IH.
Qed.

Lemma wal_bytes_snoc recs r : wal_bytes (recs ++ [r]) = wal_bytes recs ++ record_bytes r.1 r.2.
Proof. rewrite wal_bytes_app. f_equal. unfold wal_bytes. simpl. apply app_nil_r. Qed.

(** A byte prefix of a log is a record prefix and a torn tail. *)
Lemma wal_bytes_cut recs n :
  Forall rec_ok recs -> (n <= length (wal_bytes recs))%nat ->
  exists k tail, (k <= length recs)%nat /\ take n (wal_bytes recs) = wal_bytes (take k recs) ++ tail /\
    (tail = [] \/ torn_tail tail) /\
    (forall r, recs !! k = Some r -> len tail < len (record_bytes r.1 r.2)).
Proof.
  intros Hok. revert n. induction Hok as [|[l w] recs Hr Hok IH]; intros n Hn.
  - assert (n = 0)%nat as -> by (simpl in Hn; lia).
    exists 0%nat, []. split_and!; [lia|done|by left|done].
  - rewrite wal_bytes_cons in *. simpl fst in *. simpl snd in *.
    destruct (decide (n < length (record_bytes l w))%nat) as [Hlt|Hge].
    + exists 0%nat, (take n (record_bytes l w)). simpl. split_and!.
      * lia.
      * by rewrite take_app_le by lia.
      * destruct n as [|n]; [by left|right]. split; [intros Hd%(f_equal length); len_lia|].
        apply (decode_truncated l w _ (drop (Datatypes.S n) (record_bytes l w))); [apply Hr|by rewrite take_drop|].
        intros Hd%(f_equal length). len_lia.
      * intros r [= <-]. simpl. len_lia.
    + rewrite length_app in Hn. destruct (IH (n - length (record_bytes l w))%nat) as (k & tail & Hk & E & Ht & Hlt); [lia|].
      exists (Datatypes.S k), tail. simpl. split_and!; [lia| |done|done].
      rewrite take_app_ge, E, wal_bytes_cons by lia. by rewrite app_assoc.
Qed.

End recover_laws.

(** ** Properties *)

Section recover_properties.
Context {S : Type} `{KvLaws S}.

(** Recovery of a directory whose segments are intact up to a torn record
    in segment [s]: the recovered table is the snapshot's content with every
    record above the snapshot's LSN applied in log order, up to the torn one;
    the returned LSN is one above the highest of them.  The segments [more]
    listed after [s] have no influence at all. *)
Lemma recover_until_torn (d : DataDir) o (db0 : S) segs s more logs recs tail :
  create_dir_all d = Done tt -> start_of d = Done (o, db0) -> kv_wf db0 ->
  list_segments true (read_dir d) = Done (segs ++ s :: more) ->
  holds_logs (read d) segs logs -> read d s.2 = Done (wal_bytes recs ++ tail) -> torn_tail tail ->
  Forall rec_ok (concat logs ++ recs) ->
  exists db, recover d = Done (db, add64 (redo_lsn (default 0 o) (default 0 o) (concat logs ++ recs)) 1) /\
    kv_wf db /\ kv_view db = redo (default 0 o) (kv_view db0) (concat logs ++ recs).
Proof.
  intros Hd Hs Hwf Hls Hl Hr Ht Hok.
  destruct (replay_segments_torn (read d) (default 0 o) segs logs s recs tail more
    (mk_replay db0 (default 0 o) 0) Hwf Hl Hr Ht Hok) as (st & [R1 R2 R3] & E).
  exists (rp_db st). rewrite (recover_unfold d o db0 _ Hd Hs Hls), E. ostep. by rewrite R3.
Qed.

(** Recovery of an intact directory returns the snapshot's content with
    every record above the snapshot's LSN applied in log order. *)
Lemma recover_intact (d : DataDir) o (db0 : S) segs logs :
  create_dir_all d = Done tt -> start_of d = Done (o, db0) -> kv_wf db0 ->
  list_segments true (read_dir d) = Done segs ->
  holds_logs (read d) segs logs -> Forall rec_ok (concat logs) ->
  exists db, recover d = Done (db, add64 (redo_lsn (default 0 o) (default 0 o) (concat logs)) 1) /\
    kv_wf db /\ kv_view db = redo (default 0 o) (kv_view db0) (concat logs).
Proof.
  intros Hd Hs Hwf Hls Hl Hok.
  destruct (replay_segments_complete (read d) (default 0 o) segs logs []
    (mk_replay db0 (default 0 o) 0) Hwf Hl Hok) as (st & [R1 R2 R3] & E).
  rewrite app_nil_r in E.
  exists (rp_db st). rewrite (recover_unfold d o db0 _ Hd Hs Hls), E.
  cbn [replay_segments]. ostep. by rewrite R3.
Qed.

(** C17: prefix consistency.  When a crash cuts the last segment at any byte,
    recovery returns exactly the table after some prefix of the log: all
    earlier segments, and of the cut one every record that is complete in the
    bytes left (record [k] is the first that is not). *)
Theorem recover_prefix_consistent (d : DataDir) o (db0 : S) segs s logs recs n :
  create_dir_all d = Done tt -> start_of d = Done (o, db0) -> kv_wf db0 ->
  list_segments true (read_dir d) = Done (segs ++ [s]) ->
  holds_logs (read d) segs logs ->
  read d s.2 = Done (take n (wal_bytes recs)) -> (n <= length (wal_bytes recs))%nat ->
  Forall rec_ok (concat logs ++ recs) ->
  exists k db, kv_view db = redo (default 0 o) (kv_view db0) (concat logs ++ take k recs) /\
    recover d = Done (db, add64 (redo_lsn (default 0 o) (default 0 o) (concat logs ++ take k recs)) 1) /\
    len (wal_bytes (take k recs)) <= Z.of_nat n /\
    (forall r, recs !! k = Some r -> Z.of_nat n < len (wal_bytes (take k recs)) + len (record_bytes r.1 r.2)).
Proof.
  intros Hd Hs Hwf Hls Hl Hr Hn Hok. apply Forall_app in Hok as [Hok1 Hok2].
  destruct (wal_bytes_cut recs n Hok2 Hn) as (k & tail & Hk & E & Ht & Hlt).
  assert (len (wal_bytes (take k recs)) + len tail = Z.of_nat n) as Hlen.
  { apply (f_equal length) in E. len_lia. }
  assert (Forall rec_ok (take k recs)) as Hok2' by (by apply Forall_take).
  rewrite E in Hr. exists k. destruct Ht as [->|Ht].
  - rewrite app_nil_r in Hr.
    destruct (recover_intact d o db0 (segs ++ [s]) (logs ++ [take k recs])) as (db & H1 & H2 & H3); auto.
    + apply Forall2_app; [done|]. by repeat constructor.
    + rewrite concat_app. simpl. rewrite app_nil_r. by apply Forall_app.
    + rewrite concat_app in H1, H3. simpl in H1, H3. rewrite app_nil_r in H1, H3.
      exists db. split_and!; [done..|lia|]. intros r Hr'. specialize (Hlt r Hr'). simpl in *. lia.
  - destruct (recover_until_torn d o db0 segs s [] logs (take k recs) tail) as (db & H1 & H2 & H3); auto.
    + by apply Forall_app.
    + exists db. split_and!; [done..|lia|]. intros r Hr'. specialize (Hlt r Hr'). lia.
Qed.

(** C31: recovery makes nothing up.  Whatever bytes the last segment holds after a
    crash, [recover] panics, or it returns the table after the records of the
    earlier segments and some records that the file really starts with, each of
    them as the encoder writes it. *)
Theorem recover_invents_nothing (d : DataDir) o (db0 : S) segs s logs img :
  create_dir_all d = Done tt -> start_of d = Done (o, db0) -> kv_wf db0 ->
  list_segments true (read_dir d) = Done (segs ++ [s]) ->
  holds_logs (read d) segs logs -> Forall rec_ok (concat logs) -> read d s.2 = Done img ->
  recover d = Panic \/
  exists recs tail db, img = wal_bytes recs ++ tail /\
    recover d = Done (db, add64 (redo_lsn (default 0 o) (default 0 o) (concat logs ++ recs)) 1) /\
    kv_wf db /\ kv_view db = redo (default 0 o) (kv_view db0) (concat logs ++ recs).
Proof.
  intros Hd Hs Hwf Hls Hl Hok Hr.
  destruct (replay_segments_complete (read d) (default 0 o) segs logs [s]
    (mk_replay db0 (default 0 o) 0) Hwf Hl Hok) as (st1 & R1 & E1).
  rewrite (recover_unfold d o db0 _ Hd Hs Hls), E1. destruct s as [start path]. simpl in Hr.
  cbn [replay_segments]. rewrite Hr. ostep.
  destruct (replay_any (default 0 o) img st1) as [->|(recs & tail & st' & torn & E & R & ->)];
    [apply R1|by left|right].
  destruct (replays_trans _ _ _ _ _ _ R1 R) as [W V Lh]. simpl in V, Lh.
  exists recs, tail, (rp_db st'). rewrite <- Lh. by destruct torn.
Qed.

(** C19: a snapshot replaces the log up to its LSN.  Recovering from a snapshot
    that holds the effect of the records up to [snap], whether or not the
    segments still contain those records, gives the content that replaying the
    whole log from nothing gives. *)
Theorem snapshot_replaces_log (d : DataDir) snap (db0 : S) segs logs old kept new :
  create_dir_all d = Done tt -> start_of d = Done (Some snap, db0) -> kv_wf db0 ->
  list_segments true (read_dir d) = Done segs ->
  holds_logs (read d) segs logs -> concat logs = kept ++ new -> Forall rec_ok (concat logs) ->
  kept `suffix_of` old -> 0 <= snap ->
  Forall (fun r => 0 < r.1 <= snap) old -> Forall (fun r => snap < r.1) new ->
  kv_view db0 = redo 0 ∅ old ->
  exists db n, recover d = Done (db, n) /\ kv_view db = redo 0 ∅ (old ++ new).
Proof.
  intros Hd Hs Hwf Hls Hl Hc Hok [dropped Hold] Hsnap Ho Hn Hv.
  destruct (recover_intact d (Some snap) db0 segs logs) as (db & H1 & _ & H3); auto.
  exists db, (add64 (redo_lsn snap snap (concat logs)) 1). split; [done|].
  rewrite H3, Hc. simpl. rewrite !redo_app, Hv.
  rewrite (redo_below snap _ kept).
  - apply redo_above. eapply Forall_impl; [exact Hn|]. simpl. lia.
  - rewrite Hold in Ho. apply Forall_app in Ho as [_ Ho].
    eapply Forall_impl; [exact Ho|]. simpl. lia.
Qed.

Lemma sort_by_key_last {A} (l : list (Z * A)) x :
  Forall (fun y => y.1 < x.1) l -> sort_by_key (l ++ [x]) = sort_by_key l ++ [x].
Proof.
  assert (forall (y : Z * A) q, y.1 < x.1 -> insert_by_key y (q ++ [x]) = insert_by_key y q ++ [x]) as Hins.
  { intros y q Hy. induction q as [|z q IH]; simpl.
    - by replace (y.1 <=? x.1) with true by lia_bool.
    - destruct (y.1 <=? z.1); [done|]. by rewrite IH. }
  induction 1 as [|y l Hy Hf IH]; simpl; [done|]. by rewrite IH, Hins.
Qed.

Lemma segments_of_app n1 n2 : segments_of (n1 ++ n2) = segments_of n1 ++ segments_of n2.
Proof. unfold segments_of. apply omap_app. Qed.

(** C38: after an unclean shutdown the next run's log is unreachable.  If a
    segment ends in a torn record, the server restarts with a new segment named
    by the LSN [recover] returned; whatever the server then writes to it (and
    acknowledges as durable), the next recovery returns the same table and the
    same LSN again, because the replay stops at the old torn record. *)
Theorem torn_tail_hides_next_run (d d' : DataDir) o (db0 : S) names segs s more logs recs tail db next :
  create_dir_all d = Done tt -> start_of d = Done (o, db0) -> kv_wf db0 ->
  read_dir d = Done (Done <$> names) ->
  list_segments true (read_dir d) = Done (segs ++ s :: more) ->
  holds_logs (read d) segs logs -> read d s.2 = Done (wal_bytes recs ++ tail) -> torn_tail tail ->
  Forall rec_ok (concat logs ++ recs) ->
  recover d = Done (db, next) -> u64 next -> Forall (fun x => x.1 < next) (segs ++ s :: more) ->
  create_dir_all d' = Done tt -> snapshot_file d' = snapshot_file d ->
  read_dir d' = Done (Done <$> (names ++ [segment_path next])) ->
  (forall x, x ∈ segs ++ [s] -> read d' x.2 = read d x.2) ->
  exists db', recover d' = Done (db', next) /\ kv_view db' = kv_view db.
Proof.
  intros Hd Hs Hwf Hnames Hls Hl Hr Ht Hok Hrec Hu Hlt Hd' Hsn Hn' Hsame.
  destruct (recover_until_torn d o db0 segs s more logs recs tail) as (db1 & E1 & _ & V1); auto.
  rewrite E1 in Hrec. injection Hrec as -> <-. set (next := add64 _ 1) in *.
  assert (list_segments true (read_dir d') = Done (segs ++ s :: more ++ [(next, segment_path next)])) as Hls'.
  { rewrite Hn', list_segments_ok, segments_of_app. rewrite Hnames, list_segments_ok in Hls.
    injection Hls as Hls. assert (segments_of [segment_path next] = [(next, segment_path next)]) as ->.
    { unfold segments_of. cbn [omap list_omap]. by rewrite segment_path_listed. }
    rewrite sort_by_key_last, Hls; [by rewrite <- app_assoc|].
    rewrite <- Hls, sort_by_key_perm in Hlt. done. }
  destruct (recover_until_torn d' o db0 segs s (more ++ [(next, segment_path next)]) logs recs tail)
    as (db2 & E2 & _ & V2); auto.
  - unfold start_of in *. by rewrite Hsn.
  - apply (holds_logs_ext (read d)); [|done]. intros x Hx. apply Hsame. set_solver.
  - rewrite Hsame by set_solver. done.
  - exists db2. split; [done|congruence].
Qed.

End recover_properties.

(** ** Witnesses *)

Definition ex_put (l : Z) (k v : bytes) : Z * bytes := (l, wire.mk_body wire.OP_PUT k v).
Definition ex_old : list (Z * bytes) := [ex_put 2 (bstr "a") (bstr "1"); ex_put 3 (bstr "b") (bstr "2")].
Definition ex_new : list (Z * bytes) := [ex_put 6 (bstr "a") (bstr "9")].
Definition ex_tail : bytes := take 11 (record_bytes 4 (wire.mk_body wire.OP_PUT (bstr "c") (bstr "3"))).

(** A data directory given by its files. *)
Definition ex_dir (snap : option bytes) (files : list (bytes * bytes)) : DataDir :=
  mk_dir (Done tt) (Done <$> snap) (Done (Done <$> files.*1))
    (fun p => match list_find (fun f => f.1 = p) files with
              | Some (_, f) => Done f.2 | None => IoErr 2 end).

(** First run: crashed in the middle of record 4.  Second run: wrote [ex_new]. *)
Definition ex_crashed : DataDir := ex_dir None [(segment_path 1, wal_bytes ex_old ++ ex_tail)].
Definition ex_second_run : DataDir :=
  ex_dir None [(segment_path 1, wal_bytes ex_old ++ ex_tail); (segment_path 4, wal_bytes ex_new)].

Lemma ex_torn : torn_tail ex_tail.
Proof. split; [by vm_compute|vm_compute; reflexivity]. Qed.
Lemma ex_old_ok : Forall rec_ok ex_old.
Proof. decide_vm. Qed.

(** The last segment ends in bytes that are not a record. *)
Lemma recover_invents_nothing_witness :
  recover (S := db.Db) ex_crashed = Panic \/
  exists recs tail (d : db.Db), wal_bytes ex_old ++ ex_tail = wal_bytes recs ++ tail /\
    recover ex_crashed = Done (d, add64 (redo_lsn 0 0 recs) 1) /\ db.view d = redo 0 ∅ recs.
Proof.
  destruct (recover_invents_nothing (S := db.Db) ex_crashed None kv_new [] (1, segment_path 1) []
    (wal_bytes ex_old ++ ex_tail)) as [E|(recs & tail & d & E & R & _ & V)];
    [reflexivity|reflexivity|apply kv_new_wf|vm_compute; reflexivity|constructor|constructor|reflexivity
    |by left|right].
  exists recs, tail, d. split; [exact E|]. split; [exact R|exact V].
Defined.

Lemma recover_prefix_consistent_witness :
  exists k (d : db.Db),
    db.view d = redo 0 ∅ (take k ex_old) /\
    len (wal_bytes (take k ex_old)) <= 40 /\
    recover (ex_dir None [(segment_path 1, take 40 (wal_bytes ex_old))]) =
      Done (d, add64 (redo_lsn 0 0 (take k ex_old)) 1).
Proof.
  destruct (recover_prefix_consistent (S := db.Db)
    (ex_dir None [(segment_path 1, take 40 (wal_bytes ex_old))]) None kv_new [] (1, segment_path 1) [] ex_old 40)
    as (k & d & H1 & H2 & H3 & _);
    [reflexivity|reflexivity|apply kv_new_wf|vm_compute; reflexivity|constructor|vm_compute; reflexivity
    |apply Nat.leb_le; vm_compute; reflexivity|apply ex_old_ok|].
  exists k, d. split; [exact H1|]. split; [exact H3|exact H2].
Defined.

(** A snapshot at LSN 3, and a segment that still holds record 3. *)
Definition ex_kept : list (Z * bytes) := [ex_put 3 (bstr "b") (bstr "2")].
Definition ex_snap_dir : DataDir :=
  ex_dir (Some (snapshot.file_bytes 3 2 [(bstr "a", bstr "1"); (bstr "b", bstr "2")]))
    [(segment_path 2, wal_bytes (ex_kept ++ ex_new))].
Definition ex_db0 : db.Db :=
  kv_insert_raw (kv_insert_raw kv_new (bstr "a") (bstr "1")) (bstr "b") (bstr "2").

Lemma snapshot_replaces_log_witness :
  exists (d : db.Db) n, recover ex_snap_dir = Done (d, n) /\ kv_view d = redo 0 ∅ (ex_old ++ ex_new).
Proof.
  apply (snapshot_replaces_log (S := db.Db) ex_snap_dir 3 ex_db0 [(2, segment_path 2)]
    [ex_kept ++ ex_new] ex_old ex_kept ex_new);
    [reflexivity|vm_compute; reflexivity|unfold ex_db0; auto with kv|vm_compute; reflexivity|
    |reflexivity|decide_vm| |lia|decide_vm|decide_vm|vm_compute; reflexivity].
  - constructor; [vm_compute; reflexivity|constructor].
  - exists [ex_put 2 (bstr "a") (bstr "1")]. reflexivity.
Defined.

Lemma torn_tail_hides_next_run_witness :
  exists d d' : db.Db, recover ex_crashed = Done (d, 4) /\ recover ex_second_run = Done (d', 4) /\
    db.view d' = db.view d /\ redo 0 ∅ (ex_old ++ ex_new) !! bstr "a" <> db.view d !! bstr "a".
Proof.
  destruct (recover_until_torn (S := db.Db) ex_crashed None kv_new [] (1, segment_path 1) [] [] ex_old ex_tail)
    as (d & E & _ & V);
    [reflexivity|reflexivity|apply kv_new_wf|vm_compute; reflexivity|constructor|reflexivity
    |apply ex_torn|apply ex_old_ok|].
  assert (recover ex_crashed = Done (d, 4)) as E4 by exact E.
  destruct (torn_tail_hides_next_run (S := db.Db) ex_crashed ex_second_run None kv_new [segment_path 1]
    [] (1, segment_path 1) [] [] ex_old ex_tail d 4) as (d' & H1 & H2);
    [reflexivity|reflexivity|apply kv_new_wf|reflexivity|vm_compute; reflexivity|constructor|reflexivity
    |apply ex_torn|apply ex_old_ok|exact E4|decide_vm|decide_vm|reflexivity|reflexivity|reflexivity| |].
  - intros x Hx. apply list_elem_of_singleton in Hx as ->. reflexivity.
  - exists d, d'. split; [exact E4|]. split; [exact H1|]. split; [exact H2|].
    change (db.view d) with (kv_view d). rewrite V. vm_compute. discriminate.
Defined.

End recovery.
