(* ===== verification/Types.v ===== *)
(** * The server's data ([crates/server/src/types.rs], [args.rs] and the
    constants and messages of [main.rs])

    A request's reply channel is represented by the number of the connection
    that owns its receiving end. *)

From S2P Require Import Prelude Wire.
Local Open Scope Z_scope.

Module args.

Inductive Mode :=
| NoFsync
| Sync
| Async.

#[export] Instance Mode_eq_dec : EqDecision Mode.
Proof. solve_decision. Defined.

(** The parsed command line and its defaults. *)
Record Args := mk_args { port : Z; mode : Mode; dir : bytes }.
Definition default_args : Args := mk_args 9000 NoFsync (bstr "./pocdata").

End args.

Module types.

Record Request := mk_request {
  data : bytes;                     (* wire body: [op][klen:u32][key][val] *)
  reply : N;
  resp : option wire.Resp;
}.

Definition set_resp (r : Request) (x : option wire.Resp) : Request :=
  mk_request (data r) (reply r) x.

Definition op (r : Request) : outcome wire.Operation :=
  o ← wire.op (data r); Done (wire.operation_from o).
Definition op_u8 (r : Request) : outcome Init.Byte.byte := wire.op (data r).
Definition key (r : Request) : outcome bytes := wire.key (data r).
Definition split_kv (r : Request) : outcome (bytes * bytes) := wire.split_kv (data r).
Definition is_read_only (r : Request) : outcome bool :=
  o ← op r; Done (bool_decide (o = wire.Get)).

(** Batch struct that circulates in a fixed ring pool.  The batch owns the LSNs
    of the half-open interval (lsn_low, lsn_hi]. *)
Record Batch := mk_batch {
  items : list Request;
  out : bytes;                      (* wal redo buffer *)
  lsn_low : Z;
  lsn_hi : Z;
}.

Definition with_capacity (items_cap out_cap : Z) : Batch := mk_batch [] [] 0 0.
Definition recycle (b : Batch) : Batch := mk_batch [] [] 0 0.
Definition has_wal_work (b : Batch) : bool := lsn_low b <? lsn_hi b.

Definition set_items (b : Batch) (l : list Request) : Batch :=
  mk_batch l (out b) (lsn_low b) (lsn_hi b).

(** *** Constants and messages of [main.rs] *)

Definition SNAPSHOT_EVERY_LSN : Z := 2000000.
Definition SNAPSHOT_MIN_LSN_GAP : Z := 500000.
Definition RING_DEPTH : Z := 128.
Definition MAX_BATCH : Z := 1024.
Definition N_BUFFERS : nat := 32.
Definition OUT_CAP : Z := 256 * 1024.
Definition REQ_BOUND : Z := 65536.
Definition RESP_BOUND : Z := 8192.

Inductive WalMsg :=
| Write (b : Batch)
| Rotate (boundary_lsn : Z)
| Retire (boundary_lsn : Z).

(** The buffers [main] puts into the pool. *)
Definition buffers_pool : list Batch := replicate N_BUFFERS (with_capacity MAX_BATCH OUT_CAP).

(** ** What stage 1 guarantees about a request's body, and what stage 2 needs *)

(** The opcode of a non-empty body. *)
Definition opc (r : Request) : wire.Operation :=
  match data r with b :: _ => wire.operation_from b | [] => wire.Get end.

(** A request the pipeline can process: non-empty, and with a complete key when
    the operation has one. *)
Definition req_ok (r : Request) : bool :=
  match data r with
  | [] => false
  | b :: _ =>
      match wire.operation_from b with
      | wire.Unknown _ => true
      | _ => wire.body_ok (data r)
      end
  end.

Definition is_get (r : Request) : bool := bool_decide (opc r = wire.Get).
Definition is_put (r : Request) : bool := bool_decide (opc r = wire.Put).

Lemma op_Done r : data r <> [] -> op r = Done (opc r).
Proof. unfold op, opc, wire.op. destruct (data r); [done|reflexivity]. Qed.

Lemma req_ok_nonempty r : req_ok r = true -> data r <> [].
Proof. unfold req_ok. by destruct (data r). Qed.

Lemma op_ok r : req_ok r = true -> op r = Done (opc r).
Proof. intros H. apply op_Done. by apply req_ok_nonempty. Qed.

Lemma is_read_only_ok r : data r <> [] -> is_read_only r = Done (is_get r).
Proof. intros H. unfold is_read_only. by rewrite op_Done. Qed.

Lemma req_ok_body r : req_ok r = true -> opc r = wire.Get \/ opc r = wire.Put -> wire.body_ok (data r) = true.
Proof.
  unfold req_ok, opc. destruct (data r) as [|b d]; [done|].
  destruct (wire.operation_from b); [done|done|intros _ [?|?]; discriminate].
Qed.

(** The key and value of a well-formed GET or PUT. *)
Definition kv_of (r : Request) : bytes * bytes :=
  match wire.split_kv (data r) with Done kv => kv | _ => ([], []) end.

Lemma split_kv_req r :
  req_ok r = true -> opc r = wire.Get \/ opc r = wire.Put ->
  split_kv r = Done (kv_of r) /\ key r = Done (kv_of r).1.
Proof.
  intros Hr Ho. destruct (wire.split_kv_ok _ (req_ok_body r Hr Ho)) as (k & v & H1 & H2).
  unfold split_kv, key, kv_of. by rewrite H1, H2.
Qed.

(** The PUTs among some requests. *)
Definition put_reqs (l : list Request) : list Request := filter (fun r => is_put r = true) l.

Lemma put_reqs_app l1 l2 : put_reqs (l1 ++ l2) = put_reqs l1 ++ put_reqs l2.
Proof. apply filter_app. Qed.
Lemma put_reqs_cons r l : put_reqs (r :: l) = (if is_put r then [r] else []) ++ put_reqs l.
Proof. unfold put_reqs. rewrite filter_cons. by destruct (is_put r). Qed.

Lemma set_resp_data r x : data (set_resp r x) = data r.
Proof. done. Qed.
Lemma req_ok_set_resp r x : req_ok (set_resp r x) = req_ok r.
Proof. done. Qed.
Lemma opc_set_resp r x : opc (set_resp r x) = opc r.
Proof. done. Qed.

End types.

#[export] Existing Instance args.Mode_eq_dec.
