(* ===== verification/Acker.v ===== *)
(** * Client acknowledgements ([crates/server/src/acker.rs])

    [Acker::advance] sends the responses a newly reached durability level
    releases.  What it sends is returned as a list of (connection, response)
    pairs in sending order; a send to a closed connection is ignored by the
    code, so whether the peer is still there does not matter here. *)

From S2P Require Import Prelude Wire Types.
Local Open Scope Z_scope.

Module acker.
Import types args.

(** Durability guarantee levels; the order is strictly significant. *)
Inductive AckPoint := Applied | Written | Durable.

#[export] Instance AckPoint_eq_dec : EqDecision AckPoint.
Proof. solve_decision. Defined.

(** The derived order compares the discriminants, which start at 1. *)
Definition discr (p : AckPoint) : Z :=
  match p with Applied => 1 | Written => 2 | Durable => 3 end.
Definition ack_le (a b : AckPoint) : bool := discr a <=? discr b.

Definition ack_point_from (m : Mode) : AckPoint :=
  match m with
  | NoFsync => Applied
  | Async => Written
  | Sync => Durable
  end.

Record Acker := mk_acker { level : AckPoint }.
Definition new (m : Mode) : Acker := mk_acker (ack_point_from m).

(** Read-only requests are satisfied from memory; mutations depend on the mode. *)
Definition required (a : Acker) (req : Request) : outcome AckPoint :=
  ro ← is_read_only req; Done (if (ro : bool) then Applied else level a).

(** The replies sent, in order. *)
Abbreviation replies := (list (N * wire.Resp)).

Definition advance_one (a : Acker) (reached : AckPoint) (sent : replies) (req : Request)
    : outcome (replies * Request) :=
  need ← required a req;
  if ack_le need reached then
    match resp req with
    | Some r => Done (sent ++ [(reply req, r)], set_resp req None)
    | None => Done (sent, req)
    end
  else Done (sent, req).

Definition advance (a : Acker) (batch : Batch) (reached : AckPoint) : outcome (replies * Batch) :=
  '(sent, items') ← map_outcome (advance_one a reached) [] (items batch);
  Done (sent, set_items batch items').

Definition is_settled (a : Acker) (batch : Batch) : bool :=
  forallb (fun r => match resp r with None => true | Some _ => false end) (items batch).

(** ** The effect of [advance] *)

(** The level a request waits for, as a total function of its opcode. *)
Definition need (a : Acker) (r : Request) : AckPoint := if is_get r then Applied else level a.

(** Whether reaching [p] releases the request. *)
Definition due (a : Acker) (p : AckPoint) (r : Request) : bool := ack_le (need a r) p.

Definition released (a : Acker) (p : AckPoint) (l : list Request) : replies :=
  omap (fun r => if due a p r then (fun x => (reply r, x)) <$> resp r else None) l.
Definition settle (a : Acker) (p : AckPoint) (r : Request) : Request :=
  if due a p r then set_resp r None else r.

Lemma set_resp_id r : resp r = None -> set_resp r None = r.
Proof. destruct r; simpl. by intros ->. Qed.

Lemma released_cons a p r l : released a p (r :: l) = released a p [r] ++ released a p l.
Proof.
  unfold released. cbn [omap list_omap].
  by destruct (if due a p r then (fun x => (reply r, x)) <$> resp r else None).
Qed.

Lemma advance_one_ok a p s r :
  data r <> [] -> advance_one a p s r = Done (s ++ released a p [r], settle a p r).
Proof.
  intros Hr. unfold advance_one, required. rewrite is_read_only_ok by done. ostep.
  fold (need a r). fold (due a p r). unfold released, settle. cbn [omap list_omap].
  destruct (due a p r); [|by rewrite app_nil_r].
  destruct (resp r) eqn:Er; simpl; [done|]. by rewrite app_nil_r, set_resp_id.
Qed.

Lemma advance_ok a b p :
  Forall (fun r => data r <> []) (items b) ->
  advance a b p = Done (released a p (items b), set_items b (settle a p <$> items b)).
Proof.
  intros Hne. unfold advance.
  assert (forall s, map_outcome (advance_one a p) s (items b) =
    Done (s ++ released a p (items b), settle a p <$> items b)) as ->; [|done].
  induction Hne as [|r l Hr Hl IH]; intros s; cbn [map_outcome].
  - by rewrite app_nil_r.
  - rewrite advance_one_ok by done. ostep. rewrite IH. ostep.
    by rewrite (released_cons a p r l), app_assoc.
Qed.

Lemma settle_data a p r : data (settle a p r) = data r.
Proof. unfold settle. by destruct (due a p r). Qed.
Lemma settle_opc a p r : opc (settle a p r) = opc r.
Proof. unfold settle. by destruct (due a p r). Qed.
Lemma settle_nonempty a p l :
  Forall (fun r => data r <> []) l -> Forall (fun r => data r <> []) (settle a p <$> l).
Proof.
  intros Hl. apply Forall_fmap. eapply Forall_impl; [exact Hl|]. intros r Hr. simpl.
  by rewrite settle_data.
Qed.

Lemma ack_le_Durable q : ack_le q Durable = true.
Proof. by destruct q. Qed.

Lemma due_Durable a r : due a Durable r = true.
Proof. apply ack_le_Durable. Qed.

Lemma ack_le_trans p q r : ack_le p q = true -> ack_le q r = true -> ack_le p r = true.
Proof. unfold ack_le. lia. Qed.

Lemma due_settle a p q r : due a p (settle a q r) = due a p r.
Proof. unfold due, need, is_get. by rewrite settle_opc. Qed.

Lemma resp_settle a p r : resp (settle a p r) = if due a p r then None else resp r.
Proof. unfold settle. by destruct (due a p r). Qed.

(** ** Properties *)

(** When the data of every request is non-empty, [advance] cannot panic; it
    sends, in batch order, exactly the pending responses whose requirement the
    reached level meets, and takes exactly those out of the batch. *)
Theorem advance_sends_due a b p :
  Forall (fun r => data r <> []) (items b) ->
  exists b', advance a b p = Done (released a p (items b), b') /\
    Forall2 (fun r r' => data r' = data r /\ reply r' = reply r /\
      resp r' = if ack_le (if is_get r then Applied else level a) p then None else resp r)
      (items b) (items b') /\
    out b' = out b /\ lsn_low b' = lsn_low b /\ lsn_hi b' = lsn_hi b.
Proof.
  intros Hne. rewrite advance_ok by done. eexists. split; [done|]. split_and!; [|done..].
  simpl. apply Forall2_fmap_r, Forall_Forall2_diag, Forall_true. intros r.
  unfold compose. rewrite settle_data, resp_settle. split_and!; [done| |done].
  unfold settle. by destruct (due a p r).
Qed.

(** Every response is sent exactly once: advancing a batch through all the
    levels releases each of its responses, whatever the mode, and no level
    releases again what an earlier one released. *)
Theorem advance_exactly_once a b b1 b2 b3 s1 s2 s3 :
  Forall (fun r => data r <> []) (items b) ->
  advance a b Applied = Done (s1, b1) ->
  advance a b1 Written = Done (s2, b2) ->
  advance a b2 Durable = Done (s3, b3) ->
  s1 ++ s2 ++ s3 ≡ₚ omap (fun r => (fun x => (reply r, x)) <$> resp r) (items b) /\
  is_settled a b3 = true.
Proof.
  intros Hne H1 H2 H3. rewrite advance_ok in H1 by done. injection H1 as <- <-.
  rewrite advance_ok in H2 by (by apply settle_nonempty). injection H2 as <- <-.
  rewrite advance_ok in H3 by (by apply settle_nonempty, settle_nonempty). injection H3 as <- <-.
  simpl. clear Hne. split.
  - induction (items b) as [|r l IH]; [done|].
    unfold released in *. rewrite !fmap_cons. cbn [omap list_omap].
    rewrite !due_settle, !due_Durable, !resp_settle, !due_settle.
    assert (reply (settle a Applied r) = reply r) as Hr1 by (unfold settle; by destruct (due a Applied r)).
    assert (reply (settle a Written (settle a Applied r)) = reply r) as Hr2.
    { unfold settle at 1. by destruct (due a Written _). }
    rewrite Hr1, Hr2.
    destruct (resp r) as [x|], (due a Applied r), (due a Written r); simpl; rewrite <- IH; try done;
      by rewrite ?Permutation_middle, ?app_assoc, ?Permutation_middle.
  - unfold is_settled. simpl. rewrite forallb_forall. intros r Hr%list_elem_of_In.
    apply list_elem_of_fmap in Hr as (r' & -> & _). by rewrite resp_settle, due_Durable.
Qed.

(** A PUT's response is never released below the level of the mode: in
    [sync] mode only [Durable] releases it, in [async] mode not before
    [Written]; in [nofsync] mode it is released as soon as it is applied. *)
Theorem put_waits_for_mode m p r x :
  is_put r = true -> resp r = Some x ->
  released (new m) p [r] =
  match m, p with
  | Sync, Durable | NoFsync, _ | Async, Written | Async, Durable => [(reply r, x)]
  | _, _ => []
  end.
Proof.
  intros Hp Hx. unfold released, due, need. cbn [omap list_omap].
  assert (is_get r = false) as ->.
  { unfold is_put, is_get in *. apply bool_decide_eq_true in Hp. rewrite Hp. by apply bool_decide_false. }
  rewrite Hx. by destruct m, p.
Qed.

(** Responses leave out of request order: in [sync] and [async] mode a PUT
    followed by a GET on one connection gets the GET's response first, before
    the write has even been handed to stage 3. *)
Theorem sync_get_overtakes_put m put get x y out lo hi :
  m <> NoFsync -> is_put put = true -> is_get get = true ->
  data put <> [] -> data get <> [] -> resp put = Some x -> resp get = Some y ->
  exists b', advance (new m) (mk_batch [put; get] out lo hi) Applied = Done ([(reply get, y)], b') /\
    resp <$> items b' = [Some x; None].
Proof.
  intros Hm Hp Hg Hd1 Hd2 Hx Hy. rewrite advance_ok by (simpl; auto).
  assert (is_get put = false) as Hng.
  { unfold is_put, is_get in *. apply bool_decide_eq_true in Hp. rewrite Hp. by apply bool_decide_false. }
  eexists. split.
  - unfold released, due, need. cbn. rewrite Hng, Hg, Hx, Hy. by destruct m.
  - simpl. rewrite !resp_settle. unfold due, need. rewrite Hng, Hg, Hx, Hy. by destruct m.
Qed.

(** ** Witnesses *)

Definition ex_put : Request :=
  mk_request (wire.mk_body wire.OP_PUT (bstr "k") (bstr "v")) 7 (Some wire.RespOk).
Definition ex_get : Request :=
  mk_request (wire.mk_body wire.OP_GET (bstr "k") []) 7 (Some (wire.Value (bstr "v"))).
Definition ex_batch : Batch := mk_batch [ex_put; ex_get] [] 4 5.

Lemma ex_batch_nonempty : Forall (fun r => data r <> []) (items ex_batch).
Proof. repeat constructor; discriminate. Qed.

Lemma advance_sends_due_witness :
  exists b', advance (new Sync) ex_batch Written = Done ([(7%N, wire.Value (bstr "v"))], b') /\
    lsn_hi b' = 5.
Proof.
  destruct (advance_sends_due (new Sync) ex_batch Written ex_batch_nonempty) as (b' & H1 & _ & _ & _ & H2).
  exists b'. split; [exact H1|exact H2].
Defined.

Lemma advance_exactly_once_witness :
  [(7%N, wire.Value (bstr "v"))] ++ [] ++ [(7%N, wire.RespOk)] ≡ₚ
  [(7%N, wire.RespOk); (7%N, wire.Value (bstr "v"))].
Proof.
  apply (advance_exactly_once (new Sync) ex_batch (set_items ex_batch [ex_put; set_resp ex_get None])
    (set_items ex_batch [ex_put; set_resp ex_get None])
    (set_items ex_batch [set_resp ex_put None; set_resp ex_get None])
    [(7%N, wire.Value (bstr "v"))] [] [(7%N, wire.RespOk)] ex_batch_nonempty); reflexivity.
Defined.

Lemma put_waits_for_mode_witness : released (new Sync) Written [ex_put] = [].
Proof. apply (put_waits_for_mode Sync Written ex_put wire.RespOk); reflexivity. Defined.

Lemma sync_get_overtakes_put_witness :
  exists b', advance (new Sync) ex_batch Applied = Done ([(7%N, wire.Value (bstr "v"))], b').
Proof.
  destruct (sync_get_overtakes_put Sync ex_put ex_get wire.RespOk (wire.Value (bstr "v")) [] 4 5)
    as (b' & H & _); try discriminate; try reflexivity.
  exists b'. exact H.
Defined.

End acker.
