(* ===== verification/Stage1.v ===== *)
(** * Stage 1: connections ([crates/server/src/stage1/mod.rs])

    One connection has a reader task and a writer task.  The reader sees the
    bytes the peer sends until the stream ends ([read_exact] fails once fewer
    bytes are left than it asks for), and forwards requests; whether the send
    to stage 2 still succeeds is given per request.  The writer drains the
    connection's response queue in rounds. *)

From S2P Require Import Prelude Wire Types.
Local Open Scope Z_scope.

Module stage1.
Import types.

Definition MAX_FRAME : Z := 8 * 1024 * 1024.
Definition WRITE_CHUNK : Z := 256 * 1024.

(** ** Reader *)

(** [reader.read_exact(buf)] for a buffer of [n] bytes: the bytes and the rest. *)
Definition read_exact (stream : bytes) (n : Z) : option (bytes * bytes) :=
  if len stream <? n then None
  else Some (take (Z.to_nat n) stream, drop (Z.to_nat n) stream).

(** The reader loop of [handle_conn] for connection [conn]: the requests it
    forwards.  [tx_open i] says whether the [i]-th send to stage 2 succeeds.
    An iteration that does not break reads at least 5 bytes, so a fuel of
    [len stream] iterations is enough ([reader_loop_unfold]). *)
Fixpoint reader_loop (fuel : nat) (tx_open : nat -> bool) (conn : N) (i : nat) (stream : bytes)
    : list Request :=
  match fuel with
  | O => []
  | S fuel =>
      match read_exact stream 4 with
      | None => []
      | Some (len_buf, stream) =>
          let n := le_combine len_buf in
          if (n =? 0) || (MAX_FRAME <? n) then [] else
          match read_exact stream n with
          | None => []
          | Some (data, stream) =>
              let req := mk_request data conn None in
              if tx_open i then req :: reader_loop fuel tx_open conn (S i) stream else []
          end
      end
  end.

Definition handle_conn_reader (tx_open : nat -> bool) (conn : N) (stream : bytes) : list Request :=
  reader_loop (length stream) tx_open conn 0 stream.

(** ** The accept loop of [start_server] *)

(** What [listener.accept] returns, call after call: [handle_conn] is spawned
    for each connection (numbered from [next]), a failure is skipped; [TCP_NODELAY]
    may fail. *)
Fixpoint accept_loop (next : N) (accepted : list bool) : list N :=
  match accepted with
  | [] => []
  | true :: accepted => next :: accept_loop (N.succ next) accepted
  | false :: accepted => accept_loop next accepted
  end.

(** The connections spawned; a port that is taken is a panic. *)
Definition start_server (bound : bool) (accepted : list bool) : outcome (list N) :=
  if bound then Done (accept_loop 0 accepted) else Panic.

(** Every connection has a task and a number of its own, and an error of
    [accept] costs no other connection. *)
Lemma accept_loop_spec next accepted :
  NoDup (accept_loop next accepted) /\ length (accept_loop next accepted) = length (filter (fun b => b = true) accepted) /\
  Forall (fun c => (next <= c)%N) (accept_loop next accepted).
Proof.
  revert next. induction accepted as [|[|] accepted IH]; intros next; [by repeat constructor|..]; cbn [accept_loop].
  - destruct (IH (N.succ next)) as (A & B & C). rewrite Forall_forall in C. split_and!.
    + constructor; [|done]. intros Hin%C. lia.
    + rewrite filter_cons_True by done. simpl. by rewrite B.
    + constructor; [done|]. apply Forall_forall. intros c Hc%C. lia.
  - destruct (IH next) as (A & B & C). by rewrite filter_cons_False.
Qed.

(** ** Writer *)

Definition encode_resp (buf : bytes) (r : wire.Resp) : outcome bytes :=
  match r with
  | wire.Value v =>
      Done (buf ++ le_split 4 (as_u32 (1 + len v)) ++ [wire.to_proto_code r] ++ v)
  | wire.RespOk | wire.Miss | wire.UnknownOp =>
      Done (buf ++ le_split 4 1 ++ [wire.to_proto_code r])
  | wire.RespUnknown => Panic            (* unreachable!() *)
  end.

(** The inner loop over the responses [ready] that [try_recv] yields: the
    buffer, and the responses left in the queue. *)
Fixpoint coalesce (buf : bytes) (ready : list wire.Resp) : outcome (bytes * list wire.Resp) :=
  match ready with
  | [] => Done (buf, [])
  | r :: ready =>
      buf ← encode_resp buf r;
      if WRITE_CHUNK <=? len buf then Done (buf, ready) else coalesce buf ready
  end.

(** One round of the writer task: [first] was received, [ready] can be received
    without waiting; the bytes of the round's [write_all], and what is left. *)
Definition writer_round (first : wire.Resp) (ready : list wire.Resp) : outcome (bytes * list wire.Resp) :=
  buf ← encode_resp [] first;
  coalesce buf ready.

(** A run of the writer over a queue: each round says how many of the responses
    still to come are ready, and whether its [write_all] succeeds; the result is
    the list of the writes attempted. *)
Fixpoint writer_run (rounds : list (nat * bool)) (queue : list wire.Resp) : outcome (list bytes) :=
  match rounds, queue with
  | (n, written) :: rounds, first :: rest =>
      '(buf, queue') ← writer_round first (take n rest);
      if (written : bool) then
        ws ← writer_run rounds (queue' ++ drop n rest);
        Done (buf :: ws)
      else Done [buf]
  | _, _ => Done []
  end.

(** ** Lemmas: the reader *)

Lemma read_exact_app a b n : n = len a -> read_exact (a ++ b) n = Some (a, b).
Proof.
  intros ->. unfold read_exact. rewrite length_app.
  replace (_ <? _) with false by lia_bool.
  by rewrite Nat2Z.id, take_app_length, drop_app_length.
Qed.

Lemma read_exact_Some s n a b :
  read_exact s n = Some (a, b) -> 0 <= n -> s = a ++ b /\ len a = n.
Proof.
  unfold read_exact. destruct (len s <? n) eqn:E; [done|]. intros [= <- <-] Hn.
  split; [by rewrite take_drop|len_lia].
Qed.

Lemma reader_loop_fuel (f1 f2 : nat) tx c i s :
  (length s <= f1)%nat -> (length s <= f2)%nat ->
  reader_loop f1 tx c i s = reader_loop f2 tx c i s.
Proof.
  revert f2 i s. induction f1 as [|f1 IH]; intros [|f2] i s H1 H2; cbn [reader_loop]; [done|..].
  - unfold read_exact at 1. by replace (len s <? 4) with true by lia_bool.
  - unfold read_exact at 1. by replace (len s <? 4) with true by lia_bool.
  - destruct (read_exact s 4) as [[lb s1]|] eqn:E1; [|done]. cbv zeta.
    destruct (_ || _); [done|].
    destruct (read_exact s1 (le_combine lb)) as [[d s2]|] eqn:E2; [|done].
    destruct (tx i); [|done]. f_equal.
    apply read_exact_Some in E1 as [-> Hl1]; [|lia].
    pose proof (le_combine_bound lb). apply read_exact_Some in E2 as [-> Hl2]; [|lia].
    apply IH; len_lia.
Qed.

(** The loop equation of the source, with no fuel. *)
Lemma reader_loop_unfold tx c i s :
  reader_loop (length s) tx c i s =
  match read_exact s 4 with
  | None => []
  | Some (lb, s1) =>
      if (le_combine lb =? 0) || (MAX_FRAME <? le_combine lb) then [] else
      match read_exact s1 (le_combine lb) with
      | None => []
      | Some (d, s2) =>
          if tx i then mk_request d c None :: reader_loop (length s2) tx c (S i) s2 else []
      end
  end.
Proof.
  rewrite (reader_loop_fuel _ (S (length s))) by lia. cbn [reader_loop].
  destruct (read_exact s 4) as [[lb s1]|] eqn:E1; [|done]. cbv zeta.
  destruct (_ || _); [done|].
  destruct (read_exact s1 (le_combine lb)) as [[d s2]|] eqn:E2; [|done].
  destruct (tx i); [|done]. f_equal.
  apply read_exact_Some in E1 as [-> Hl1]; [|lia].
  pose proof (le_combine_bound lb). apply read_exact_Some in E2 as [-> Hl2]; [|lia].
  apply reader_loop_fuel; len_lia.
Qed.

(** A length-prefixed frame. *)
Definition frame (body : bytes) : bytes := le_split 4 (len body) ++ body.

Lemma reader_frame tx c i body rest :
  0 < len body <= MAX_FRAME ->
  reader_loop (length (frame body ++ rest)) tx c i (frame body ++ rest) =
  if tx i then mk_request body c None :: reader_loop (length rest) tx c (S i) rest else [].
Proof.
  intros Hb. unfold MAX_FRAME in Hb. rewrite reader_loop_unfold. unfold frame at 1.
  rewrite <- app_assoc, read_exact_app by len_lia.
  rewrite le_split_u32 by (unfold u32; lia). unfold MAX_FRAME.
  replace ((len body =? 0) || (8 * 1024 * 1024 <? len body)) with false by lia.
  by rewrite read_exact_app.
Qed.

Lemma reader_frames tx c i bodies rest :
  Forall (fun b => 0 < len b <= MAX_FRAME) bodies -> (forall j, tx j = true) ->
  reader_loop (length (concat (frame <$> bodies) ++ rest)) tx c i (concat (frame <$> bodies) ++ rest) =
  ((fun b => mk_request b c None) <$> bodies) ++
  reader_loop (length rest) tx c (i + length bodies) rest.
Proof.
  intros Hb Htx. revert i. induction Hb as [|b bodies Hb Hbs IH]; intros i.
  - simpl. by rewrite Nat.add_0_r.
  - rewrite !fmap_cons. cbn [concat]. rewrite <- app_assoc, reader_frame, Htx by done.
    rewrite IH. simpl. by rewrite Nat.add_succ_r.
Qed.

(** ** Lemmas: the writer *)

(** The frame of a response. *)
Definition resp_frame (r : wire.Resp) : bytes :=
  match r with
  | wire.Value v => frame (wire.to_proto_code r :: v)
  | _ => frame [wire.to_proto_code r]
  end.

(** A response the writer can encode. *)
Definition resp_ok (r : wire.Resp) : Prop :=
  match r with
  | wire.Value v => u32 (1 + len v)
  | wire.RespUnknown => False
  | _ => True
  end.

Lemma encode_resp_frame buf r : resp_ok r -> encode_resp buf r = Done (buf ++ resp_frame r).
Proof.
  intros Hr. destruct r; simpl in *; try done.
  rewrite as_u32_small by done. unfold frame. simpl length.
  rewrite Nat2Z.inj_succ, <- Z.add_1_l. done.
Qed.

Lemma coalesce_ok ready buf :
  Forall resp_ok ready ->
  exists n, (n <= length ready)%nat /\
    coalesce buf ready = Done (buf ++ concat (resp_frame <$> take n ready), drop n ready).
Proof.
  intros Hok. revert buf. induction Hok as [|r ready Hr Hok IH]; intros buf; cbn [coalesce].
  - exists 0%nat. simpl. by rewrite app_nil_r.
  - rewrite encode_resp_frame by done. ostep.
    destruct (WRITE_CHUNK <=? len (buf ++ resp_frame r)) eqn:E.
    + exists 1%nat. split; [simpl; lia|]. simpl. by rewrite app_nil_r.
    + destruct (IH (buf ++ resp_frame r)) as (n & Hn & E1).
      exists (S n). split; [simpl; lia|]. simpl. by rewrite E1, <- app_assoc.
Qed.

Lemma writer_round_ok first rest n :
  resp_ok first -> Forall resp_ok rest ->
  exists m queue',
    writer_round first (take n rest) =
      Done (resp_frame first ++ concat (resp_frame <$> take m rest), queue') /\
    queue' ++ drop n rest = drop m rest.
Proof.
  intros Hf Hok. unfold writer_round. rewrite encode_resp_frame by done. ostep. simpl app.
  destruct (coalesce_ok (take n rest) (resp_frame first)) as (m & Hm & ->); [by apply Forall_take|].
  rewrite length_take in Hm. exists m. eexists. rewrite take_take, Nat.min_l by lia. split; [done|].
  rewrite <- (take_drop n rest) at 3. rewrite drop_app_le by (rewrite length_take; lia). done.
Qed.

Lemma writer_run_ok rounds queue :
  Forall resp_ok queue ->
  exists ws n, writer_run rounds queue = Done ws /\
    concat ws = concat (resp_frame <$> take n queue) /\
    (Forall (fun x => x.2 = true) rounds -> (length queue <= length rounds)%nat ->
     concat ws = concat (resp_frame <$> queue)).
Proof.
  revert queue. induction rounds as [|[n w] rounds IH]; intros queue Hok.
  - exists [], 0%nat. split_and!; [done..|]. intros _ Hl. by destruct queue; [|simpl in Hl; lia].
  - destruct queue as [|first rest]; [by exists [], 0%nat|].
    apply Forall_cons in Hok as [Hf Hok].
    destruct (writer_round_ok first rest n Hf Hok) as (m & queue' & E & Eq).
    cbn [writer_run]. rewrite E. ostep. rewrite Eq. destruct w.
    + destruct (IH (drop m rest)) as (ws & k & Ew & Ec & Ea); [by apply Forall_drop|].
      rewrite Ew. ostep. eexists _, (S (m + k)). split; [done|]. cbn [concat take fmap list_fmap].
      rewrite <- app_assoc. split.
      * rewrite Ec, <- concat_app, <- fmap_app. by rewrite take_take_drop.
      * intros [_ Hw]%Forall_cons Hl. rewrite Ea; [|done|simpl in Hl; len_lia].
        by rewrite <- concat_app, <- fmap_app, take_drop.
    + eexists _, (S m). split; [done|]. cbn [concat take fmap list_fmap].
      split; [by rewrite app_nil_r|]. intros [? _]%Forall_cons. done.
Qed.

(** ** Properties *)

(** C33: the server reads back what a client encodes: from the frames of any
    number of requests within the size limit, in any chunking of the stream,
    the reader forwards exactly these requests' bodies in order, and what
    follows them is read as the next frame. *)
Theorem reader_reads_encoded tx conn reqs rest :
  Forall (fun q : wire.Operation * bytes * option bytes =>
    (q.1.1 = wire.Put -> q.2 <> None) /\ 5 + len q.1.2 + wire.value_len q.2 <= MAX_FRAME) reqs ->
  (forall j, tx j = true) ->
  handle_conn_reader tx conn
    (fold_left (fun buf q => (wire.encode_raw buf q.1.1 q.1.2 q.2).1) reqs [] ++ rest) =
  ((fun q => mk_request (wire.mk_body (wire.operation_into q.1.1) q.1.2 (default [] q.2)) conn None) <$> reqs) ++
  reader_loop (length rest) tx conn (length reqs) rest.
Proof.
  intros Hq Htx.
  set (body := fun q : wire.Operation * bytes * option bytes =>
    wire.mk_body (wire.operation_into q.1.1) q.1.2 (default [] q.2)).
  assert (forall buf, fold_left (fun buf q => (wire.encode_raw buf q.1.1 q.1.2 q.2).1) reqs buf =
    buf ++ concat (frame <$> (body <$> reqs))) as ->.
  { induction Hq as [|q reqs [H1 H2] Hq IH]; intros buf; [by rewrite app_nil_r|].
    cbn [fold_left]. rewrite wire.encode_raw_frame; [|done|].
    - rewrite IH. simpl. by rewrite <- app_assoc.
    - unfold u32, MAX_FRAME, wire.value_len in *. destruct q.2; lia. }
  unfold handle_conn_reader. rewrite app_nil_l, reader_frames; [|apply Forall_fmap; eapply Forall_impl; [exact Hq|]|done].
  - by rewrite <- list_fmap_compose, length_fmap.
  - intros q [_ Hq2]. unfold compose, body, wire.mk_body. unfold wire.value_len in Hq2.
    destruct q.2; len_lia.
Qed.

(** Whatever bytes a peer sends, every request that reaches stage 2 has a
    body of 1 to 8 MiB, belongs to this connection and carries no response. *)
Theorem reader_bounds tx conn stream :
  Forall (fun r => 1 <= len (data r) <= MAX_FRAME /\ reply r = conn /\ resp r = None)
    (handle_conn_reader tx conn stream).
Proof.
  unfold handle_conn_reader. generalize (length stream) at 1. intros fuel. generalize 0%nat.
  revert stream. induction fuel as [|fuel IH]; intros s i; cbn [reader_loop]; [constructor|].
  destruct (read_exact s 4) as [[lb s1]|] eqn:E1; [|constructor]. cbv zeta.
  destruct (_ || _) eqn:Eb; [constructor|].
  destruct (read_exact s1 (le_combine lb)) as [[d s2]|] eqn:E2; [|constructor].
  destruct (tx i); [|constructor]. constructor; [|done].
  pose proof (le_combine_bound lb). apply read_exact_Some in E2 as [_ Hl]; [|lia].
  simpl. split; [lia|done].
Qed.

(** However the responses arrive, the writer's writes put together are the
    responses' frames in queue order, none lost, repeated or mixed with another;
    if a write fails, they are the frames of the responses up to some point. *)
Theorem writer_preserves_order rounds queue :
  Forall resp_ok queue ->
  exists ws n, writer_run rounds queue = Done ws /\
    concat ws = concat (resp_frame <$> take n queue) /\
    (Forall (fun x => x.2 = true) rounds -> (length queue <= length rounds)%nat ->
     concat ws = concat (resp_frame <$> queue)).
Proof. apply writer_run_ok. Qed.

(** ** Witnesses *)

Definition ex_reqs : list (wire.Operation * bytes * option bytes) :=
  [(wire.Put, bstr "k", Some (bstr "v")); (wire.Get, bstr "k", None)].

Lemma reader_reads_encoded_witness :
  data <$> handle_conn_reader (fun _ => true) 3
    (fold_left (fun buf q => (wire.encode_raw buf q.1.1 q.1.2 q.2).1) ex_reqs [] ++ [Byte.x00]) =
  [wire.mk_body wire.OP_PUT (bstr "k") (bstr "v"); wire.mk_body wire.OP_GET (bstr "k") []].
Proof.
  rewrite (reader_reads_encoded (fun _ => true) 3 ex_reqs [Byte.x00]); [reflexivity| |done].
  repeat constructor; vm_compute; intuition congruence.
Defined.

Lemma writer_preserves_order_witness :
  exists ws, writer_run [(1%nat, true); (0%nat, true); (0%nat, false)] [wire.RespOk; wire.Value (bstr "v"); wire.Miss] = Done ws /\
    length ws = 2%nat.
Proof.
  destruct (writer_preserves_order [(1%nat, true); (0%nat, true); (0%nat, false)]
    [wire.RespOk; wire.Value (bstr "v"); wire.Miss])
    as (ws & n & H1 & H2); [repeat constructor; vm_compute; intuition congruence|].
  exists ws. split; [exact H1|].
  assert (length <$> (match writer_run [(1%nat, true); (0%nat, true); (0%nat, false)]
    [wire.RespOk; wire.Value (bstr "v"); wire.Miss] with
    Done ws => Some ws | _ => None end) = Some 2%nat) as Hc by (vm_compute; reflexivity).
  rewrite H1 in Hc. simpl in Hc. congruence.
Defined.

End stage1.
