(* ===== verification/Stage2.v ===== *)
(** * Stage 2: the table's thread ([crates/server/src/stage2/mod.rs])

    [apply_batch] and the loop of [run_main_loop], over any table that
    implements [KvStore].  The channels are inputs and outputs of an iteration:
    what has arrived on [item_rx], the batch [free_rx] yields, whether stage 3
    still listens; the replies sent and the message for stage 3. *)

From S2P Require Import Prelude Wire Db Snapshot Types Acker Stage1.
Local Open Scope Z_scope.

Module stage2.
Import types acker.

Section stage2.
Context {S : Type} `{KvStore S}.

(** ** [apply_batch] *)

(** The body of the loop over [batch.items.iter_mut()]. *)
Definition apply_req (st : S * Z) (req : Request) : outcome ((S * Z) * Request) :=
  let '(db, lsn) := st in
  o ← op req;
  match o with
  | wire.Get =>
      k ← key req;
      let '(found, db) := kv_get db k in
      let r := match found with Some v => wire.Value v | None => wire.Miss end in
      Done ((db, lsn), set_resp req (Some r))
  | wire.Put =>
      let lsn := add64 lsn 1 in
      '(k, v) ← split_kv req;
      Done ((kv_put db k v, lsn), set_resp req (Some wire.RespOk))
  | wire.Unknown _ => Done ((db, lsn), set_resp req (Some wire.UnknownOp))
  end.

Definition apply_batch (db : S) (batch : Batch) (lsn : Z) : outcome (S * Batch * Z) :=
  '(st, items') ← map_outcome apply_req (db, lsn) (items batch);
  Done (st.1, mk_batch items' (out batch) lsn st.2, st.2).

(** ** [run_main_loop] *)

Record Loop := mk_loop {
  loop_db : S;
  lsn : Z;
  last_compact_lsn : Z;
  recycled_batch : option Batch;
  snapshotter : snapshot.Snapshotter;
  item_rx : list Request;           (* the requests in the channel *)
}.

Definition run_main_loop_init (db : S) (start_lsn : Z) : Loop :=
  mk_loop db start_lsn (sat_sub start_lsn 1) None
    (snapshot.new start_lsn SNAPSHOT_MIN_LSN_GAP) [].

(** What the channels do during an iteration. *)
Record Input := mk_input {
  free : option Batch;              (* [None]: [free_rx] is closed *)
  arrivals : list Request;          (* requests sent before [blocking_recv_many] returns *)
  s3_listens : bool;
}.

Inductive Next :=
| Break
| Continue (st : Loop) (sent : replies) (msg : option WalMsg).

(** [blocking_recv_many(&mut items, limit)]: moves up to [limit] requests. *)
Definition recv_many (batch_items queue : list Request) (limit : Z)
    : Z * list Request * list Request :=
  let got := take (Z.to_nat limit) queue in
  (len got, batch_items ++ got, drop (Z.to_nat limit) queue).

(** The periodic snapshot is disabled in the source: the trigger computes the
    durable LSN and does nothing with it. *)
Definition snapshot_trigger (st : Loop) : Loop :=
  if SNAPSHOT_EVERY_LSN <=? sat_sub (lsn st) (last_compact_lsn st)
  then let durable_lsn := sub64 (lsn st) 1 in st
  else st.

Definition iteration (ack : Acker) (st : Loop) (inp : Input) : outcome Next :=
  match (match recycled_batch st with Some b => Some b | None => free inp end) with
  | None => Done Break
  | Some batch =>
      let '(n, its, queue) := recv_many (items batch) (item_rx st ++ arrivals inp) MAX_BATCH in
      if n =? 0 then Done Break else
      '(db, batch, lsn) ← apply_batch (loop_db st) (set_items batch its) (lsn st);
      '(sent, batch) ← advance ack batch Applied;
      if has_wal_work batch then
        _ ← assert_that (s3_listens inp);
        let st := mk_loop db lsn (last_compact_lsn st) None (snapshotter st) queue in
        Done (Continue (snapshot_trigger st) sent (Some (Write batch)))
      else
        Done (Continue (mk_loop db lsn (last_compact_lsn st) (Some (recycle batch)) (snapshotter st) queue)
                sent None)
  end.

(** The loop over a sequence of inputs: the replies and the messages, in order. *)
Fixpoint run (ack : Acker) (st : Loop) (inps : list Input) : outcome (Loop * replies * list WalMsg) :=
  match inps with
  | [] => Done (st, [], [])
  | inp :: inps =>
      r ← iteration ack st inp;
      match r with
      | Break => Done (st, [], [])
      | Continue st sent msg =>
          '(st, sents, msgs) ← run ack st inps;
          Done (st, sent ++ sents, option_list msg ++ msgs)
      end
  end.

End stage2.
Arguments Loop S : clear implicits.
Arguments Next S : clear implicits.

(** ** The specification: a key-value store that serves one request at a time *)

Definition spec_step (m : gmap bytes bytes) (r : Request) : gmap bytes bytes :=
  if is_put r then <[(kv_of r).1 := (kv_of r).2]> m else m.
Definition spec_resp (m : gmap bytes bytes) (r : Request) : wire.Resp :=
  match opc r with
  | wire.Get => match m !! (kv_of r).1 with Some v => wire.Value v | None => wire.Miss end
  | wire.Put => wire.RespOk
  | wire.Unknown _ => wire.UnknownOp
  end.
Definition spec_view (m : gmap bytes bytes) (reqs : list Request) : gmap bytes bytes :=
  fold_left spec_step reqs m.
(** The requests with the responses the specification gives them. *)
Fixpoint spec_run (m : gmap bytes bytes) (reqs : list Request) : list Request :=
  match reqs with
  | [] => []
  | r :: reqs => set_resp r (Some (spec_resp m r)) :: spec_run (spec_step m r) reqs
  end.
(** The number of PUTs. *)
Definition puts (reqs : list Request) : Z := len (filter (fun r => is_put r = true) reqs).

Lemma spec_run_app m r1 r2 : spec_run m (r1 ++ r2) = spec_run m r1 ++ spec_run (spec_view m r1) r2.
Proof. revert m. induction r1 as [|r r1 IH]; intros m; simpl; [done|]. by rewrite IH. Qed.
Lemma spec_view_app m r1 r2 : spec_view m (r1 ++ r2) = spec_view (spec_view m r1) r2.
Proof. apply fold_left_app. Qed.
Lemma spec_run_length m reqs : length (spec_run m reqs) = length reqs.
Proof. revert m. induction reqs as [|r reqs IH]; intros m; simpl; auto. Qed.
Lemma spec_run_data m reqs : data <$> spec_run m reqs = data <$> reqs.
Proof. revert m. induction reqs as [|r reqs IH]; intros m; [done|]. simpl. by rewrite IH. Qed.
Lemma spec_run_nonempty m reqs :
  Forall (fun r => req_ok r = true) reqs -> Forall (fun r => data r <> []) (spec_run m reqs).
Proof.
  intros Hok. revert m. induction Hok as [|r reqs Hr Hok IH]; intros m; simpl; constructor; [|done].
  by apply req_ok_nonempty.
Qed.
Lemma puts_app r1 r2 : puts (r1 ++ r2) = puts r1 + puts r2.
Proof. unfold puts. rewrite filter_app, length_app. lia. Qed.
Lemma puts_cons r reqs : puts (r :: reqs) = (if is_put r then 1 else 0) + puts reqs.
Proof. unfold puts. rewrite filter_cons. destruct (is_put r); simpl; lia. Qed.
Lemma puts_nonneg reqs : 0 <= puts reqs.
Proof. unfold puts. lia. Qed.

(** The value of a key after some requests: the last PUT decides. *)
Lemma spec_view_untouched m reqs k :
  Forall (fun r => is_put r = true -> (kv_of r).1 <> k) reqs -> spec_view m reqs !! k = m !! k.
Proof.
  intros Hf. revert m. induction Hf as [|r reqs Hr Hf IH]; intros m; [done|].
  unfold spec_view in *. simpl. rewrite IH. unfold spec_step. destruct (is_put r) eqn:E; [|done].
  rewrite lookup_insert_ne; [done|]. by apply Hr.
Qed.

(** ** [apply_batch] implements the specification *)

Section apply_laws.
Context {S : Type} `{KvLaws S}.

Lemma is_put_opc r : is_put r = true <-> opc r = wire.Put.
Proof. apply bool_decide_eq_true. Qed.
Lemma is_get_opc r : is_get r = true <-> opc r = wire.Get.
Proof. apply bool_decide_eq_true. Qed.

Lemma apply_req_ok (db : S) lsn r :
  kv_wf db -> req_ok r = true -> u64 lsn -> u64 (lsn + puts [r]) ->
  exists db', kv_wf db' /\ kv_view db' = spec_step (kv_view db) r /\
    apply_req (db, lsn) r = Done ((db', lsn + puts [r]), set_resp r (Some (spec_resp (kv_view db) r))).
Proof.
  intros Hwf Hr Hl Hu. unfold apply_req. rewrite op_ok by done. ostep.
  pose proof (is_put_opc r) as Hp. unfold spec_step, spec_resp. rewrite puts_cons in *.
  assert (puts [] = 0) as -> by done. rewrite Z.add_0_r in *.
  destruct (opc r) eqn:Eo.
  - destruct (split_kv_req r Hr (or_introl Eo)) as [_ ->]. ostep.
    replace (is_put r) with false by (destruct (is_put r); [by destruct Hp as [Hp _]; discriminate Hp|done]).
    destruct (kv_get db (kv_of r).1) as [found db'] eqn:Eg.
    pose proof (kv_get_wf db (kv_of r).1 Hwf) as H1. pose proof (kv_get_view db (kv_of r).1 Hwf) as H2.
    pose proof (kv_get_fst db (kv_of r).1 Hwf) as H3. rewrite Eg in H1, H2, H3. simpl in *.
    exists db'. split_and!; [done|done|]. by rewrite H3, Z.add_0_r.
  - destruct (split_kv_req r Hr (or_intror Eo)) as [-> _]. ostep.
    replace (is_put r) with true in * by (symmetry; by apply Hp).
    destruct (kv_of r) as [k v]. exists (kv_put db k v).
    split_and!; [by apply kv_put_wf|by apply kv_put_view|]. by rewrite add64_small.
  - replace (is_put r) with false by (destruct (is_put r); [by destruct Hp as [Hp _]; discriminate Hp|done]).
    exists db. split_and!; [done..|]. by rewrite Z.add_0_r.
Qed.

Lemma apply_items_ok (db : S) lsn reqs :
  kv_wf db -> Forall (fun r => req_ok r = true) reqs -> u64 lsn -> u64 (lsn + puts reqs) ->
  exists db', kv_wf db' /\ kv_view db' = spec_view (kv_view db) reqs /\
    map_outcome apply_req (db, lsn) reqs = Done ((db', lsn + puts reqs), spec_run (kv_view db) reqs).
Proof.
  intros Hwf Hok. revert db lsn Hwf. induction Hok as [|r reqs Hr Hok IH]; intros db lsn Hwf Hl Hu.
  - exists db. split_and!; [done..|]. simpl. by rewrite Z.add_0_r.
  - pose proof (puts_nonneg reqs). pose proof (puts_nonneg [r]).
    assert (puts (r :: reqs) = puts [r] + puts reqs) as Hc by (rewrite !puts_cons; by destruct (is_put r)).
    rewrite Hc in Hu. unfold u64 in *.
    destruct (apply_req_ok db lsn r) as (db1 & W1 & V1 & E1); [done..|unfold u64; lia|].
    destruct (IH db1 (lsn + puts [r])) as (db' & W2 & V2 & E2); [done|lia|lia|].
    exists db'. cbn [map_outcome spec_run]. rewrite E1. ostep. rewrite E2. ostep.
    split_and!; [done| |].
    + rewrite V2, V1. done.
    + rewrite V1, Hc. by rewrite Z.add_assoc.
Qed.

Lemma apply_batch_ok (db : S) b lsn :
  kv_wf db -> Forall (fun r => req_ok r = true) (items b) -> u64 lsn -> u64 (lsn + puts (items b)) ->
  exists db', kv_wf db' /\ kv_view db' = spec_view (kv_view db) (items b) /\
    apply_batch db b lsn =
      Done (db', mk_batch (spec_run (kv_view db) (items b)) (out b) lsn (lsn + puts (items b)),
            lsn + puts (items b)).
Proof.
  intros Hwf Hok Hl Hu. destruct (apply_items_ok db lsn (items b)) as (db' & W & V & E); [done..|].
  exists db'. split_and!; [done..|]. unfold apply_batch. by rewrite E.
Qed.

(** A request [apply_req] cannot process is one whose body is malformed. *)
Lemma apply_req_not_ok (st : S * Z) r : req_ok r = false -> apply_req st r = Panic.
Proof.
  intros Hr. destruct st as [db lsn]. unfold apply_req, req_ok, op, key, split_kv, wire.op in *.
  destruct (data r) as [|b d] eqn:Ed; [done|]. change (index (b :: d) 0) with (Done b : outcome Init.Byte.byte). ostep.
  destruct (wire.operation_from b); [..|done]; destruct (wire.split_kv_not_ok _ Hr) as [E1 E2].
  - by rewrite E2.
  - by rewrite E1.
Qed.

Lemma apply_req_total (st : S * Z) r : req_ok r = true -> exists st' r', apply_req st r = Done (st', r').
Proof.
  intros Hr. destruct st as [db lsn]. unfold apply_req. rewrite op_ok by done. ostep.
  destruct (opc r) eqn:Eo.
  - destruct (split_kv_req r Hr (or_introl Eo)) as [_ ->]. ostep. destruct (kv_get _ _). eauto.
  - destruct (split_kv_req r Hr (or_intror Eo)) as [-> _]. ostep. destruct (kv_of r). eauto.
  - eauto.
Qed.

(** ** The loop *)

Record loop_wf (st : Loop S) : Prop := {
  lw_db : kv_wf (loop_db st);
  lw_batch b : recycled_batch st = Some b -> items b = [] /\ out b = [];
}.

(** The channels are open, a request is there, and the pool hands out batches
    that were recycled. *)
Record input_ok (inp : Input) : Prop := {
  in_arrivals : arrivals inp <> [];
  in_free : exists b, free inp = Some b /\ items b = [] /\ out b = [];
  in_s3 : s3_listens inp = true;
}.

(** The messages are writes whose LSN intervals tile [(lo, hi]]: each takes as
    many LSNs as it has PUTs, at least one; the redo buffers are empty. *)
Fixpoint tiles (lo : Z) (msgs : list WalMsg) (hi : Z) : Prop :=
  match msgs with
  | [] => lo = hi
  | Write b :: msgs =>
      lsn_low b = lo /\ lo < lsn_hi b /\ lsn_hi b = lo + len (put_reqs (items b)) /\ out b = [] /\
      len (items b) <= MAX_BATCH /\ tiles (lsn_hi b) msgs hi
  | _ => False
  end.
Definition wal_items (msgs : list WalMsg) : list Request :=
  concat ((fun m => match m with Write b => items b | _ => [] end) <$> msgs).

Lemma is_put_settle a p r : is_put (settle a p r) = is_put r.
Proof. unfold is_put. by rewrite settle_opc. Qed.

Lemma put_reqs_settle a p l : put_reqs (settle a p <$> l) = settle a p <$> put_reqs l.
Proof.
  unfold put_reqs. induction l as [|r l IH]; [done|].
  rewrite fmap_cons, !filter_cons, is_put_settle. destruct (decide _); [by rewrite fmap_cons, IH|done].
Qed.

Lemma put_reqs_length m l : len (put_reqs (spec_run m l)) = puts l.
Proof.
  revert m. induction l as [|r l IH]; intros m; [done|]. specialize (IH (spec_step m r)).
  rewrite puts_cons, <- IH. unfold put_reqs. simpl spec_run. rewrite filter_cons.
  change (is_put (set_resp _ _)) with (is_put r). destruct (is_put r); simpl; lia.
Qed.

Lemma released_app a p l1 l2 : released a p (l1 ++ l2) = released a p l1 ++ released a p l2.
Proof. apply omap_app. Qed.

Lemma snapshot_trigger_id (st : Loop S) : snapshot_trigger st = st.
Proof. unfold snapshot_trigger. by destruct (_ <=? _). Qed.

Lemma iteration_served ack (st : Loop S) inp :
  loop_wf st -> input_ok inp ->
  let queue := item_rx st ++ arrivals inp in
  let got := take (Z.to_nat MAX_BATCH) queue in
  Forall (fun r => req_ok r = true) got -> u64 (lsn st) -> u64 (lsn st + puts got) ->
  exists st', loop_wf st' /\ item_rx st' = drop (Z.to_nat MAX_BATCH) queue /\
    kv_view (loop_db st') = spec_view (kv_view (loop_db st)) got /\
    lsn st' = lsn st + puts got /\
    recycled_batch st' = (if 0 <? puts got then None else Some (mk_batch [] [] 0 0)) /\
    iteration ack st inp = Done (Continue st'
      (released ack Applied (spec_run (kv_view (loop_db st)) got))
      (if 0 <? puts got
       then Some (Write (mk_batch (settle ack Applied <$> spec_run (kv_view (loop_db st)) got) []
                           (lsn st) (lsn st + puts got)))
       else None)).
Proof.
  intros [Wdb Wb] [Ia (fb & If & Ifb & Ifo) Is] queue got Hok Hl Hu. unfold iteration, recv_many.
  fold queue. fold got.
  destruct (match recycled_batch st with Some b => Some b | None => free inp end) as [batch|] eqn:Eb;
    [|destruct (recycled_batch st); [done|congruence]].
  assert (items batch = [] /\ out batch = []) as [Hb Hbo]
    by (destruct (recycled_batch st) as [rb|]; [injection Eb as ->; by apply Wb|by replace batch with fb by congruence]).
  assert (got <> []) as Hg.
  { unfold got, queue, MAX_BATCH. destruct (item_rx st), (arrivals inp); done. }
  replace (len got =? 0) with false by (symmetry; apply Z.eqb_neq; destruct got; [done|simpl; lia]).
  rewrite Hb. simpl app.
  destruct (apply_batch_ok (loop_db st) (set_items batch got) (lsn st)) as (db' & W & V & E);
    [done..|].
  simpl in E, V. rewrite E, Hbo. ostep.
  rewrite advance_ok by (by apply spec_run_nonempty). ostep.
  unfold has_wal_work, set_items. simpl lsn_low. simpl lsn_hi.
  replace (lsn st <? lsn st + puts got) with (0 <? puts got) by lia_bool.
  destruct (0 <? puts got).
  - rewrite Is. simpl assert_that. ostep.
    exists (mk_loop db' (lsn st + puts got) (last_compact_lsn st) None (snapshotter st)
      (drop (Z.to_nat MAX_BATCH) queue)). rewrite snapshot_trigger_id.
    split; [by split; simpl|]. by split_and!.
  - exists (mk_loop db' (lsn st + puts got) (last_compact_lsn st) (Some (mk_batch [] [] 0 0)) (snapshotter st)
      (drop (Z.to_nat MAX_BATCH) queue)).
    split; [split; simpl; [done|by intros ? [= <-]]|]. by split_and!.
Qed.

Lemma iteration_ok ack (st : Loop S) inp :
  loop_wf st -> input_ok inp ->
  let queue := item_rx st ++ arrivals inp in
  let got := take (Z.to_nat MAX_BATCH) queue in
  Forall (fun r => req_ok r = true) queue -> u64 (lsn st) -> u64 (lsn st + puts got) ->
  exists st', loop_wf st' /\ item_rx st' = drop (Z.to_nat MAX_BATCH) queue /\
    kv_view (loop_db st') = spec_view (kv_view (loop_db st)) got /\
    lsn st' = lsn st + puts got /\
    recycled_batch st' = (if 0 <? puts got then None else Some (mk_batch [] [] 0 0)) /\
    iteration ack st inp = Done (Continue st'
      (released ack Applied (spec_run (kv_view (loop_db st)) got))
      (if 0 <? puts got
       then Some (Write (mk_batch (settle ack Applied <$> spec_run (kv_view (loop_db st)) got) []
                           (lsn st) (lsn st + puts got)))
       else None)).
Proof. intros Hwf Hi queue got Hok. apply iteration_served; [done|done|by apply Forall_take]. Qed.

(** [apply_batch] panics on a malformed request. *)
Lemma apply_batch_panic (db : S) b lsn0 :
  apply_batch db b lsn0 = Panic <-> Exists (fun r => req_ok r = false) (items b).
Proof.
  unfold apply_batch. rewrite bind_Panic.
  transitivity (map_outcome apply_req (db, lsn0) (items b) = Panic).
  { split; [intros [?|([st l] & _ & ?)]; [done|discriminate]|by left]. }
  generalize (db, lsn0). induction (items b) as [|r l IH]; intros st; cbn [map_outcome].
  - split; [done|]. by intros ?%Exists_nil.
  - rewrite Exists_cons. destruct (req_ok r) eqn:Er.
    + destruct (apply_req_total st r Er) as (st' & r' & ->). ostep.
      transitivity (map_outcome apply_req st' l = Panic).
      { destruct (map_outcome apply_req st' l) as [[? ?]| |]; ostep; split; congruence. }
      rewrite IH. split; [by right|intros [?|?]; [congruence|done]].
    + rewrite apply_req_not_ok by done. ostep. by split; [left|].
Qed.

Lemma iteration_panic ack (st : Loop S) inp :
  loop_wf st -> input_ok inp ->
  Exists (fun r => req_ok r = false) (take (Z.to_nat MAX_BATCH) (item_rx st ++ arrivals inp)) ->
  iteration ack st inp = Panic.
Proof.
  intros [Wdb Wb] [Ia (fb & If & Ifb & _) _]. unfold iteration, recv_many.
  set (got := take _ _). intros Hx.
  destruct (match recycled_batch st with Some b => Some b | None => free inp end) as [batch|] eqn:Eb;
    [|destruct (recycled_batch st); [done|congruence]].
  assert (items batch = []) as Hb
    by (destruct (recycled_batch st) as [rb|]; [injection Eb as ->; by apply Wb|by replace batch with fb by congruence]).
  rewrite Hb. simpl app. replace (len got =? 0) with false by (symmetry; apply Z.eqb_neq; destruct Hx; simpl; lia).
  by rewrite (proj2 (apply_batch_panic (loop_db st) (set_items batch got) (lsn st)) Hx).
Qed.

Definition all_requests (st : Loop S) (inps : list Input) : list Request :=
  item_rx st ++ concat (arrivals <$> inps).

Lemma run_ok ack (st : Loop S) inps :
  loop_wf st -> Forall input_ok inps ->
  Forall (fun r => req_ok r = true) (all_requests st inps) ->
  u64 (lsn st) -> u64 (lsn st + puts (all_requests st inps)) ->
  exists st' msgs served, all_requests st inps = served ++ item_rx st' /\ loop_wf st' /\
    run ack st inps = Done (st', released ack Applied (spec_run (kv_view (loop_db st)) served), msgs) /\
    kv_view (loop_db st') = spec_view (kv_view (loop_db st)) served /\
    lsn st' = lsn st + puts served /\ tiles (lsn st) msgs (lsn st') /\
    put_reqs (wal_items msgs) =
      settle ack Applied <$> put_reqs (spec_run (kv_view (loop_db st)) served) /\
    (forall r, r ∈ wal_items msgs -> data r ∈ data <$> served).
Proof.
  intros Hwf Hin. revert st Hwf. induction Hin as [|inp inps Hi Hin IH]; intros st Hwf Hok Hl Hu.
  - exists st, [], []. unfold all_requests. simpl. rewrite app_nil_r, Z.add_0_r.
    split_and!; try done. by intros r Hr%not_elem_of_nil.
  - unfold all_requests in *. rewrite fmap_cons in *. cbn [concat] in *. rewrite app_assoc in *.
    set (queue := item_rx st ++ arrivals inp) in *.
    set (got := take (Z.to_nat MAX_BATCH) queue). set (rest := drop (Z.to_nat MAX_BATCH) queue).
    assert (queue = got ++ rest) as Hq by (symmetry; apply take_drop).
    pose proof (puts_nonneg rest). pose proof (puts_nonneg (concat (arrivals <$> inps))).
    pose proof (puts_nonneg got). rewrite Hq, !puts_app in Hu. rewrite Hq in Hok |- *.
    apply Forall_app in Hok as [Hok1 Hok2].
    destruct (iteration_ok ack st inp) as (st1 & W1 & Q1 & V1 & L1 & _ & E1);
      [done|done|by fold queue; rewrite Hq|done|fold queue; fold got; unfold u64 in *; lia|].
    fold queue in Q1, V1, L1, E1. fold got in V1, L1, E1. fold rest in Q1.
    destruct (IH st1) as (st' & msgs & served & A & W & E & V & L & T & P & D); [done|..].
    { rewrite Q1. apply Forall_app in Hok1 as [_ ?]. by apply Forall_app. }
    { rewrite L1. unfold u64 in *. lia. }
    { rewrite L1, Q1, puts_app. unfold u64 in *. lia. }
    rewrite Q1 in A. exists st'. eexists. exists (got ++ served).
    split; [by rewrite <- !app_assoc, A|]. split; [done|].
    cbn [run]. rewrite E1. ostep. rewrite E. ostep. split.
    { rewrite spec_run_app, released_app, V1. done. }
    split; [by rewrite V, V1, spec_view_app|]. split; [rewrite L, L1, puts_app; lia|].
    rewrite spec_run_app, put_reqs_app, fmap_app, <- V1, <- P, <- (put_reqs_settle ack).
    set (now := settle ack Applied <$> spec_run (kv_view (loop_db st)) got) in *.
    assert (len (put_reqs now) = puts got) as Hn
      by (unfold now; by rewrite put_reqs_settle, length_fmap, put_reqs_length).
    assert (forall r, r ∈ now -> data r ∈ data <$> got) as Hd.
    { intros r (r' & -> & Hr')%list_elem_of_fmap. rewrite settle_data, <- (spec_run_data (kv_view (loop_db st))).
      by apply list_elem_of_fmap_2. }
    rewrite L1 in T. rewrite fmap_app. destruct (0 <? puts got) eqn:Ep.
    + split.
      * simpl. rewrite Hn. split_and!; [done|lia|done|done| |done].
        unfold now. rewrite length_fmap, spec_run_length. unfold got, MAX_BATCH. len_lia.
      * split; [apply put_reqs_app|].
        intros r [Hr|Hr]%elem_of_app; apply elem_of_app; [left; by apply Hd|right; by apply D].
    + apply Z.ltb_ge in Ep. split; [by replace (lsn st + puts got) with (lsn st) in T by lia|]. split.
      * destruct (put_reqs now); [done|simpl in Hn; lia].
      * intros r Hr. apply elem_of_app. right. by apply D.
Qed.

(** ** Properties *)

(** Stage 2 is linearizable in the order of the channel: applying a batch of
    well-formed requests gives every request the response, and the table the
    content, of serving the requests one at a time on a finite map; the batch
    owns the LSNs (lsn, lsn + number of PUTs]. *)
Theorem apply_batch_sequential (db : S) b lsn0 :
  kv_wf db -> Forall (fun r => req_ok r = true) (items b) ->
  u64 lsn0 -> u64 (lsn0 + puts (items b)) ->
  exists db' b', apply_batch db b lsn0 = Done (db', b', lsn0 + puts (items b)) /\
    kv_wf db' /\ kv_view db' = fold_left spec_step (items b) (kv_view db) /\
    items b' = spec_run (kv_view db) (items b) /\
    lsn_low b' = lsn0 /\ lsn_hi b' = lsn0 + puts (items b) /\ out b' = out b.
Proof.
  intros Hwf Hok Hl Hu. destruct (apply_batch_ok db b lsn0) as (db' & W & V & E); [done..|].
  exists db'. eexists. by split_and!.
Qed.

(** Read your writes: a GET is answered with the value of the last PUT to its
    key that precedes it, in its batch or before; what other keys' PUTs or
    unknown operations lie between does not matter. *)
Theorem get_sees_last_put (db : S) b lsn0 before put between get after :
  kv_wf db -> Forall (fun r => req_ok r = true) (items b) ->
  u64 lsn0 -> u64 (lsn0 + puts (items b)) ->
  items b = before ++ put :: between ++ get :: after ->
  opc put = wire.Put -> opc get = wire.Get -> (kv_of put).1 = (kv_of get).1 ->
  Forall (fun r => is_put r = true -> (kv_of r).1 <> (kv_of get).1) between ->
  exists db' b' l, apply_batch db b lsn0 = Done (db', b', l) /\
    items b' !! (length before + Datatypes.S (length between))%nat =
      Some (set_resp get (Some (wire.Value (kv_of put).2))).
Proof.
  intros Hwf Hok Hl Hu Hi Hp Hg Hk Hb.
  destruct (apply_batch_ok db b lsn0) as (db' & W & V & E); [done..|].
  exists db'. do 2 eexists. split; [exact E|]. simpl. rewrite Hi, spec_run_app.
  rewrite lookup_app_r by (rewrite spec_run_length; lia). rewrite spec_run_length, Nat.add_comm, Nat.add_sub.
  cbn [spec_run]. rewrite lookup_cons. cbv iota. rewrite spec_run_app.
  rewrite lookup_app_r, spec_run_length, Nat.sub_diag by (rewrite spec_run_length; lia). simpl.
  unfold spec_resp. rewrite Hg, spec_view_untouched by done. unfold spec_step.
  apply is_put_opc in Hp. rewrite Hp, Hk, lookup_insert_eq. done.
Qed.

(** C30: [apply_batch] panics exactly on a batch with a malformed request: an
    empty body, or a GET or PUT whose key does not fit in the body. *)
Theorem apply_batch_panics_iff (db : S) b lsn0 :
  apply_batch db b lsn0 = Panic <-> Exists (fun r => req_ok r = false) (items b).
Proof. apply apply_batch_panic. Qed.

(** C8: the main loop refines a key-value store that serves one request at a time:
    while the channels are open it processes the requests in arrival order
    ([served] is what it has taken from the channel so far), holds the table the
    store would hold, sends at once exactly the store's responses that the mode
    does not delay, and hands every PUT, once and in order, to stage 3 in batches
    of at most [MAX_BATCH] requests whose LSN intervals tile (start, current]. *)
Theorem run_main_loop_refines ack (st : Loop S) inps :
  loop_wf st -> Forall input_ok inps ->
  Forall (fun r => req_ok r = true) (all_requests st inps) ->
  u64 (lsn st) -> u64 (lsn st + puts (all_requests st inps)) ->
  exists st' msgs served, all_requests st inps = served ++ item_rx st' /\ loop_wf st' /\
    run ack st inps = Done (st', released ack Applied (spec_run (kv_view (loop_db st)) served), msgs) /\
    kv_view (loop_db st') = spec_view (kv_view (loop_db st)) served /\
    lsn st' = lsn st + puts served /\ tiles (lsn st) msgs (lsn st') /\
    put_reqs (wal_items msgs) =
      settle ack Applied <$> put_reqs (spec_run (kv_view (loop_db st)) served) /\
    (forall r, r ∈ wal_items msgs -> data r ∈ data <$> served).
Proof. apply run_ok. Qed.

End apply_laws.

(** A peer can stop the server: the five bytes of a frame whose body is the
    single byte 0 (a GET without a key) pass the checks of stage 1 and make
    stage 2 panic, whatever the table holds. *)
Theorem short_get_panics {S} `{KvStore S} tx conn (db : S) b lsn0 :
  tx 0%nat = true ->
  exists r, stage1.handle_conn_reader tx conn [Byte.x01; Byte.x00; Byte.x00; Byte.x00; Byte.x00] = [r] /\
    apply_batch db (set_items b [r]) lsn0 = Panic.
Proof.
  intros Htx. exists (mk_request [Byte.x00] conn None). split.
  - unfold stage1.handle_conn_reader.
    change [Byte.x01; Byte.x00; Byte.x00; Byte.x00; Byte.x00] with (stage1.frame [Byte.x00] ++ []) at 2.
    change (length [Byte.x01; Byte.x00; Byte.x00; Byte.x00; Byte.x00]) with (length (stage1.frame [Byte.x00] ++ [])).
    rewrite stage1.reader_frame by (unfold stage1.MAX_FRAME; simpl; lia). by rewrite Htx.
  - reflexivity.
Qed.

(** ** Witnesses *)

Definition ex_req (o : Init.Byte.byte) (k v : string) (c : N) : Request :=
  mk_request (wire.mk_body o (bstr k) (bstr v)) c None.
Definition ex_reqs : list Request :=
  [ex_req wire.OP_PUT "a" "1" 1; ex_req wire.OP_PUT "b" "2" 2; ex_req wire.OP_GET "a" "" 1].
Definition ex_db : db.Db := kv_put kv_new (bstr "a") (bstr "0").

Lemma ex_table_wf : kv_wf ex_db.
Proof. apply kv_put_wf, kv_new_wf. Qed.

Lemma apply_batch_sequential_witness :
  exists db' b', apply_batch ex_db (mk_batch ex_reqs [] 0 0) 7 = Done (db', b', 9) /\
    resp <$> items b' = [Some wire.RespOk; Some wire.RespOk; Some (wire.Value (bstr "1"))].
Proof.
  destruct (apply_batch_sequential ex_db (mk_batch ex_reqs [] 0 0) 7 ex_table_wf)
    as (db' & b' & E & _ & _ & Hi & _); [repeat constructor|decide_vm|decide_vm|].
  exists db', b'. split; [exact E|]. rewrite Hi. vm_compute. reflexivity.
Defined.

Lemma get_sees_last_put_witness :
  exists db' b' l, apply_batch ex_db (mk_batch ex_reqs [] 0 0) 7 = Done (db', b', l) /\
    items b' !! 2%nat = Some (set_resp (ex_req wire.OP_GET "a" "" 1) (Some (wire.Value (bstr "1")))).
Proof.
  apply (get_sees_last_put ex_db (mk_batch ex_reqs [] 0 0) 7 [] (ex_req wire.OP_PUT "a" "1" 1)
    [ex_req wire.OP_PUT "b" "2" 2] (ex_req wire.OP_GET "a" "" 1) [] ex_table_wf);
    try reflexivity; try decide_vm.
Defined.

Definition ex_loop : Loop db.Db := run_main_loop_init ex_db 7.
Definition ex_inputs : list Input :=
  [mk_input (Some (with_capacity 0 0)) ex_reqs true;
   mk_input (Some (with_capacity 0 0)) [ex_req wire.OP_GET "b" "" 3] true].

Lemma run_main_loop_refines_witness :
  exists st' msgs, run (acker.new args.NoFsync) ex_loop ex_inputs =
    Done (st', [(1%N, wire.RespOk); (2%N, wire.RespOk); (1%N, wire.Value (bstr "1"));
                (3%N, wire.Value (bstr "2"))], msgs) /\ lsn st' = 9.
Proof.
  destruct (run_main_loop_refines (acker.new args.NoFsync) ex_loop ex_inputs)
    as (st' & msgs & served & A & _ & E & _ & L & _).
  - split; [exact ex_table_wf|done].
  - repeat (apply Forall_cons; split); [..|constructor];
      (split; [discriminate|by exists (with_capacity 0 0)|reflexivity]).
  - repeat constructor.
  - decide_vm.
  - decide_vm.
  - assert (exists q, run (acker.new args.NoFsync) ex_loop ex_inputs = Done q /\ item_rx q.1.1 = [] /\
      q.1.2 = [(1%N, wire.RespOk); (2%N, wire.RespOk); (1%N, wire.Value (bstr "1")); (3%N, wire.Value (bstr "2"))] /\
      lsn q.1.1 = 9) as (q & Eq & _ & Hs & Hl).
    { eexists. split; [vm_compute; reflexivity|]. repeat split. }
    rewrite E in Eq. injection Eq as <-. simpl in Hs, Hl. exists st', msgs. rewrite <- Hs. split; [exact E|exact Hl].
Defined.

Lemma short_get_panics_witness :
  exists r, stage1.handle_conn_reader (fun _ => true) 4 [Byte.x01; Byte.x00; Byte.x00; Byte.x00; Byte.x00] = [r] /\
    apply_batch ex_db (set_items (with_capacity 0 0) [r]) 0 = Panic.
Proof. apply (short_get_panics (fun _ => true) 4 ex_db (with_capacity 0 0) 0). reflexivity. Defined.

End stage2.
