(* ===== verification/FsyncPlanner.v ===== *)
(** * When the WAL is synced, and where it is written
    ([crates/server/src/stage3/fsync_planner.rs] and [segment.rs]) *)

From S2P Require Import Prelude WalFormat Types.
Local Open Scope Z_scope.

Module fsync_planner.
Import args.

Inductive FsyncCadence :=
| Never
| Consistently
| Bytes (n : Z).

Definition cadence_from (m : Mode) : FsyncCadence :=
  match m with
  | NoFsync => Never
  | Sync => Consistently
  | Async => Bytes (Z.shiftl 1 20)
  end.

Record FsyncPlanner := mk_planner {
  cadence : FsyncCadence;
  dirty_bytes : Z;
  flush_running : bool;
}.

Definition new (c : FsyncCadence) : FsyncPlanner := mk_planner c 0 false.

(** A [true] answer consumes the window. *)
Definition should_fsync (p : FsyncPlanner) : bool * FsyncPlanner :=
  if dirty_bytes p =? 0 then (false, p) else
  let due := match cadence p with
             | Never => false
             | Consistently => negb (flush_running p)
             | Bytes limit => limit <=? dirty_bytes p
             end in
  if due then (true, mk_planner (cadence p) 0 true) else (false, p).

Definition on_fsync_completed (p : FsyncPlanner) : FsyncPlanner :=
  mk_planner (cadence p) (dirty_bytes p) false.

Definition on_write_queued (p : FsyncPlanner) (n : Z) : FsyncPlanner :=
  mk_planner (cadence p) (add64 (dirty_bytes p) n) (flush_running p).

(** What the engine tells the planner, and when it asks. *)
Inductive event := Queued (n : Z) | Completed | Asked.

(** A history of events: the windows of the fsyncs armed (the dirty bytes each
    answer consumed), and the planner at the end. *)
Fixpoint history (p : FsyncPlanner) (es : list event) : list Z * FsyncPlanner :=
  match es with
  | [] => ([], p)
  | Queued n :: es => history (on_write_queued p n) es
  | Completed :: es => history (on_fsync_completed p) es
  | Asked :: es =>
      let '(due, p') := should_fsync p in
      let '(ws, q) := history p' es in
      ((if due then [dirty_bytes p] else []) ++ ws, q)
  end.

Definition queued (es : list event) : Z :=
  fold_right (fun e n => match e with Queued k => k + n | _ => n end) 0 es.
Definition sum (l : list Z) : Z := fold_right Z.add 0 l.

Definition events_ok (es : list event) : Prop :=
  Forall (fun e => match e with Queued n => 0 <= n | _ => True end) es.

Lemma queued_nonneg es : events_ok es -> 0 <= queued es.
Proof. induction 1 as [|[n| |] es H Hes IH]; simpl in *; lia. Qed.

Lemma should_fsync_cases p :
  (should_fsync p = (true, mk_planner (cadence p) 0 true) /\ dirty_bytes p <> 0 /\
   match cadence p with Never => False | Consistently => flush_running p = false | Bytes n => n <= dirty_bytes p end) \/
  (should_fsync p = (false, p) /\
   (dirty_bytes p = 0 \/
    match cadence p with Never => True | Consistently => flush_running p = true | Bytes n => dirty_bytes p < n end)).
Proof.
  unfold should_fsync. destruct (dirty_bytes p =? 0) eqn:Ez; [right; split; [done|left; lia]|].
  destruct (cadence p) as [| |n] eqn:Ec; simpl.
  - right. by auto.
  - destruct (flush_running p); simpl; [by auto|left]. split_and!; [done|lia|done].
  - destruct (n <=? dirty_bytes p) eqn:En; [left|right]; (split_and?; [done|lia..]) || (split; [done|right; lia]).
Qed.

(** No queued byte escapes the planner: over any history, the bytes queued
    are exactly the bytes of the windows the armed fsyncs cover and the bytes
    still dirty, so each queued byte is in one window or still dirty. *)
Theorem planner_accounts_all es p :
  events_ok es -> 0 <= dirty_bytes p -> u64 (dirty_bytes p + queued es) ->
  let '(ws, q) := history p es in
  sum ws + dirty_bytes q = dirty_bytes p + queued es /\ Forall (fun w => 0 < w) ws.
Proof.
  revert p. induction es as [|e es IH]; intros p Hok Hd Hu; [simpl; split; [lia|constructor]|].
  apply Forall_cons in Hok as [He Hok]. pose proof (queued_nonneg es Hok) as Hq.
  destruct e as [n| |]; simpl in *.
  - assert (add64 (dirty_bytes p) n = dirty_bytes p + n) as Ea by (apply add64_small; unfold u64 in *; lia).
    specialize (IH (on_write_queued p n) Hok). simpl in IH. rewrite Ea in IH.
    destruct (history (on_write_queued p n) es) as [ws q].
    destruct IH as [IH1 IH2]; [lia|by rewrite <- Z.add_assoc|]. split; [lia|done].
  - by apply (IH (on_fsync_completed p)).
  - destruct (should_fsync_cases p) as [(E & Hz & _)|(E & _)]; rewrite E.
    + specialize (IH (mk_planner (cadence p) 0 true) Hok). simpl in IH.
      destruct (history _ es) as [ws q]. unfold u64 in *.
      destruct IH as [IH1 IH2]; [lia|lia|]. simpl. split; [lia|]. constructor; [lia|done].
    + specialize (IH p Hok Hd Hu). by destruct (history p es).
Qed.

(** The cadences: [nofsync] never arms an fsync; in [sync] mode, after the
    question, dirty bytes only wait while an fsync is running, which arms the
    next one when it completes; in [async] mode fewer than 1 MiB of queued bytes
    are left outside every armed fsync. *)
Theorem planner_cadence m p :
  cadence p = cadence_from m -> 0 <= dirty_bytes p ->
  let '(due, q) := should_fsync p in
  cadence q = cadence p /\
  match m with
  | NoFsync => due = false
  | Sync => (dirty_bytes q = 0 \/ flush_running q = true) /\
            (due = true -> flush_running p = false) /\
            (dirty_bytes q <> 0 -> (should_fsync (on_fsync_completed q)).1 = true)
  | Async => dirty_bytes q < 2 ^ 20 /\ (due = true -> 2 ^ 20 <= dirty_bytes p)
  end.
Proof.
  intros Hc Hd. destruct (should_fsync_cases p) as [(E & Hz & Hm)|(E & Hm)]; rewrite E, Hc in *;
    (split; [done|]); destruct m; simpl in *; try done.
  - split_and!; [by left|done|done].
  - split_and!; [naive_solver|done|]. intros Hq. unfold should_fsync. simpl.
    replace (dirty_bytes p =? 0) with false by lia_bool. by rewrite Hc.
  - split; [|done]. destruct Hm as [->|Hm]; [reflexivity|exact Hm].
Qed.

Lemma planner_accounts_all_witness :
  sum [5; 9] + 3 = 0 + 17 /\ Forall (fun w => 0 < w) [5; 9].
Proof.
  apply (planner_accounts_all [Queued 5; Asked; Queued 2; Asked; Queued 7; Completed; Asked; Queued 3]
    (new Consistently)); [repeat constructor; lia|simpl; lia|decide_vm].
Defined.

Lemma planner_cadence_witness :
  dirty_bytes (should_fsync (mk_planner (cadence_from Async) 3000000 false)).2 < 2 ^ 20.
Proof.
  assert (0 <= dirty_bytes (mk_planner (cadence_from Async) 3000000 false)) as Hd by (simpl; lia).
  pose proof (planner_cadence Async (mk_planner (cadence_from Async) 3000000 false) eq_refl Hd) as H.
  destruct (should_fsync _) as [due q]. destruct H as [_ [H _]]. exact H.
Defined.

End fsync_planner.

Module segment.
Import wal_format.

(** An open segment file; [fd] is the descriptor the OS returned. *)
Record Segment := mk_segment { fd : Z; offset : Z; start_lsn : Z }.

(** [OpenOptions::new().write(true).create(true).open(path)] returns a
    descriptor and [metadata().len()] the file's length. *)
Definition open (open_file : bytes -> outcome Z) (file_len : Z -> outcome Z) (start_lsn : Z)
    : outcome Segment :=
  fd ← open_file (segment_path start_lsn);
  n ← file_len fd;
  Done (mk_segment fd n start_lsn).

(** Returns (old_offset, new_offset). *)
Definition advance_offset (s : Segment) (bytes_size : Z) : (Z * Z) * Segment :=
  ((offset s, add64 (offset s) bytes_size), mk_segment (fd s) (add64 (offset s) bytes_size) (start_lsn s)).

End segment.
