(* ===== verification/IoWork.v ===== *)
(** * The I/O vocabulary of the WAL engine ([crates/server/src/stage3/io_work.rs])

    What the engine asks the ring to do ([sqe]) and how each operation ends
    ([complete]).  The [io_uring] crate only receives the submission entries:
    an entry is the data its builder is given. *)

From S2P Require Import Prelude Types.
Local Open Scope Z_scope.

Module io_work.
Import types.

(** [libc::EINTR], [libc::EAGAIN], [libc::ENOENT] on Linux. *)
Definition EINTR : Z := 4.
Definition EAGAIN : Z := 11.
Definition ENOENT : Z := 2.

Record WriteOp := mk_write { data : Batch; offset : Z; done : Z }.

(** One unit of in-flight async I/O. *)
Inductive IoWork :=
| WriteWork (w : WriteOp)
| FsyncWork (target_lsn : Z)
| RemoveWork (path : bytes).

Inductive Verdict :=
| VOk (batch : option Batch)
| VRetry (w : IoWork)
| VDurable
| VFatal (code : Z).

(** Submission queue entries. *)
Inductive SqeOp :=
| SqWrite (fd : Z) (buf : bytes) (off : Z)
| SqFsync (fd : Z) (datasync : bool)
| SqUnlinkAt (path : bytes).
Record Sqe := mk_sqe { sq_op : SqeOp; sq_drain : bool; user_data : N }.

Definition write (b : Batch) (off : Z) : IoWork := WriteWork (mk_write b off 0).

Definition sqe (work : IoWork) (fd : Z) (ud : N) : outcome Sqe :=
  match work with
  | WriteWork w =>
      remainder ← slice_from (out (data w)) (done w);
      let buf := take (Z.to_nat (as_u32 (len remainder))) remainder in
      Done (mk_sqe (SqWrite fd buf (add64 (offset w) (done w))) false ud)
  | FsyncWork _ => Done (mk_sqe (SqFsync fd true) true ud)
  | RemoveWork p => Done (mk_sqe (SqUnlinkAt p) false ud)
  end.

(** [res] is the completion's [i32] result: a byte count or a negated errno. *)
Definition complete (work : IoWork) (res : Z) : Verdict :=
  match work with
  | WriteWork w =>
      if (res =? - EINTR) || (res =? - EAGAIN) then VRetry (WriteWork w) else
      if res <? 0 then VFatal (- res) else
      let w := mk_write (data w) (offset w) (add64 (done w) res) in
      if done w <? len (out (data w)) then VRetry (WriteWork w) else VOk (Some (data w))
  | FsyncWork _ => if res <? 0 then VFatal (- res) else VDurable
  | RemoveWork _ => VOk None
  end.

(** ** Resuming a write *)

(** A write's fields are in range: what is done is part of the buffer, and the
    file positions fit in 64 bits. *)
Record write_ok (w : WriteOp) : Prop := {
  wo_done : 0 <= done w <= len (out (data w));
  wo_off : 0 <= offset w;
  wo_end : u64 (offset w + len (out (data w)));
}.

Lemma sqe_write w fd ud :
  write_ok w ->
  sqe (WriteWork w) fd ud =
  Done (mk_sqe (SqWrite fd (take (Z.to_nat (as_u32 (len (out (data w)) - done w)))
                             (drop (Z.to_nat (done w)) (out (data w)))) (offset w + done w)) false ud).
Proof.
  intros [Hd Ho He]. unfold sqe, slice_from.
  assert (slice (out (data w)) (done w) (len (out (data w))) = Done (drop (Z.to_nat (done w)) (out (data w)))) as ->.
  { apply slice_Done. split_and!; [lia|lia|lia|]. symmetry. apply take_ge. len_lia. }
  ostep. rewrite add64_small by (unfold u64 in *; lia).
  by replace (len (drop (Z.to_nat (done w)) (out (data w)))) with (len (out (data w)) - done w) by len_lia.
Qed.

(** The outcomes of a write's completion. *)
Lemma complete_write_cases w res :
  write_ok w -> res <= len (out (data w)) - done w ->
  (complete (WriteWork w) res = VRetry (WriteWork w) /\ (res = - EINTR \/ res = - EAGAIN)) \/
  (complete (WriteWork w) res = VFatal (- res) /\ res < 0 /\ res <> - EINTR /\ res <> - EAGAIN) \/
  (0 <= res /\ done w + res < len (out (data w)) /\
   complete (WriteWork w) res = VRetry (WriteWork (mk_write (data w) (offset w) (done w + res)))) \/
  (0 <= res /\ done w + res = len (out (data w)) /\ complete (WriteWork w) res = VOk (Some (data w))).
Proof.
  intros [Hd Ho He] Hr. unfold complete.
  destruct ((res =? - EINTR) || (res =? - EAGAIN)) eqn:Et; [left; split; [done|lia]|right].
  destruct (res <? 0) eqn:En; [left; split; [done|lia]|right].
  rewrite add64_small by (unfold u64 in *; lia). simpl.
  destruct (done w + res <? len (out (data w))) eqn:El; [left|right]; (split_and!; [lia|lia|done]).
Qed.

(** A write driven through the ring until it is not retried: the pieces the
    kernel accepted, with their file positions, and the final verdict.  The
    kernel accepts at most the bytes it was offered. *)
Inductive driven (fd : Z) : WriteOp -> list (Z * bytes) -> Verdict -> Prop :=
| driven_last w ud buf off res v :
    sqe (WriteWork w) fd ud = Done (mk_sqe (SqWrite fd buf off) false ud) ->
    res <= len buf -> complete (WriteWork w) res = v -> (forall w', v <> VRetry w') ->
    driven fd w [(off, take (Z.to_nat res) buf)] v
| driven_again w w' ud buf off res acc v :
    sqe (WriteWork w) fd ud = Done (mk_sqe (SqWrite fd buf off) false ud) ->
    res <= len buf -> complete (WriteWork w) res = VRetry (WriteWork w') ->
    driven fd w' acc v ->
    driven fd w ((off, take (Z.to_nat res) buf) :: acc) v.

(** Pieces that follow each other from a position. *)
Fixpoint contiguous (pos : Z) (pieces : list (Z * bytes)) : Prop :=
  match pieces with
  | [] => True
  | (off, b) :: pieces => off = pos /\ contiguous (pos + len b) pieces
  end.

Lemma as_u32_le z : 0 <= z -> 0 <= as_u32 z <= z.
Proof. intros Hz. unfold as_u32. pose proof (Z.mod_pos_bound z (2 ^ 32)). pose proof (Z.mod_le z (2 ^ 32)). lia. Qed.

Lemma take_drop_more {A} (l : list A) a b c :
  0 <= a -> 0 <= c -> c <= b ->
  take (Z.to_nat c) (take (Z.to_nat b) (drop (Z.to_nat a) l)) ++ drop (Z.to_nat (a + c)) l =
  drop (Z.to_nat a) l.
Proof.
  intros Ha Hc Hb. rewrite take_take, Nat.min_l by lia.
  rewrite Z2Nat.inj_add, <- drop_drop by lia. apply take_drop.
Qed.

(** C34: a write survives short writes and interruptions: however many times it is
    retried, if it ends in [Ok] the engine gets its batch back, and the pieces
    the kernel accepted are, back to back from the resume position, exactly the
    bytes that were not written yet; none skipped, repeated or moved. *)
Theorem retries_write_everything fd w acc b :
  write_ok w -> driven fd w acc (VOk (Some b)) ->
  b = data w /\ concat (snd <$> acc) = drop (Z.to_nat (done w)) (out (data w)) /\
  contiguous (offset w + done w) acc.
Proof.
  intros Hw Hd. remember (VOk (Some b)) as v eqn:Ev. revert Hw Ev.
  induction Hd as [w ud buf off res v Hs Hr Hc Hn|w w' ud buf off res acc v Hs Hr Hc Hd IH];
    intros Hw ->; rewrite sqe_write in Hs by done; injection Hs as <- <-;
    pose proof Hw as [Hd1 Ho He];
    pose proof (as_u32_le (len (out (data w)) - done w)) as Ha.
  - assert (res <= len (out (data w)) - done w) as Hr' by len_lia.
    destruct (complete_write_cases w res Hw Hr') as [[E _]|[[E _]|[(_ & _ & E)|(H1 & H2 & E)]]];
      rewrite E in Hc; try discriminate. injection Hc as <-. split; [done|]. simpl. rewrite app_nil_r.
    split; [|done]. rewrite take_take, Nat.min_l by len_lia. apply take_ge. len_lia.
  - assert (res <= len (out (data w)) - done w) as Hr' by len_lia.
    destruct (complete_write_cases w res Hw Hr') as [[E Ht]|[[E _]|[(H1 & H2 & E)|(_ & _ & E)]]];
      rewrite E in Hc; try discriminate; injection Hc as <-.
    + destruct (IH Hw eq_refl) as (I1 & I2 & I3).
      assert (Z.to_nat res = 0%nat) as -> by (unfold EINTR, EAGAIN in Ht; lia).
      simpl. rewrite Z.add_0_r. by split_and!.
    + destruct IH as (I1 & I2 & I3); [split; simpl; [lia|done..]|done|]. cbn [data done offset] in *.
      split; [done|]. rewrite fmap_cons. cbn [concat snd contiguous]. rewrite I2. split; [apply take_drop_more; len_lia|]. split; [done|].
      replace (len (take _ _)) with res by len_lia. by rewrite <- Z.add_assoc.
Qed.

Definition ex_out : Batch := mk_batch [] (bstr "abcdef") 0 2.

Lemma retries_write_everything_witness :
  ex_out = ex_out /\ concat (snd <$> [(10, bstr "ab"); (12, []); (12, bstr "cdef")]) = bstr "abcdef" /\
  contiguous 10 [(10, bstr "ab"); (12, []); (12, bstr "cdef")].
Proof.
  apply (retries_write_everything 3 (mk_write ex_out 10 0) [(10, bstr "ab"); (12, []); (12, bstr "cdef")] ex_out).
  - split; decide_vm.
  - apply (driven_again 3 (mk_write ex_out 10 0) (mk_write ex_out 10 2) 0 (bstr "abcdef") 10 2);
      [reflexivity|simpl; lia|reflexivity|].
    apply (driven_again 3 (mk_write ex_out 10 2) (mk_write ex_out 10 2) 0 (bstr "cdef") 12 (- EINTR));
      [reflexivity|unfold EINTR; simpl; lia|reflexivity|].
    apply (driven_last 3 (mk_write ex_out 10 2) 0 (bstr "cdef") 12 4);
      [reflexivity|simpl; lia|reflexivity|discriminate].
Defined.

End io_work.
