(* ===== verification/Tests.v ===== *)
(** * The unit tests of [crates/server/src/stage3/io_work.rs], evaluated on the model *)

From S2P Require Import Prelude Types IoWork.
Local Open Scope Z_scope.

Module tests.
Import types io_work.

Definition batch (n : nat) : Batch := mk_batch [] (replicate n Byte.xab) 0 0.

Definition short_write_retries_at_first_unwritten_byte : bool :=
  match complete (write (batch 100) 0) 60 with
  | VRetry (WriteWork w) => done w =? 60
  | _ => false
  end.

Definition eintr_retries_without_progress : bool :=
  match complete (write (batch 100) 0) (- EINTR) with
  | VRetry (WriteWork w) => done w =? 0
  | _ => false
  end.

Definition remove_tolerates_enoent : bool :=
  match complete (RemoveWork (bstr "/nope")) (- ENOENT) with
  | VOk None => true
  | _ => false
  end.

Lemma io_work_tests :
  short_write_retries_at_first_unwritten_byte && eintr_retries_without_progress && remove_tolerates_enoent = true.
Proof. vm_compute. reflexivity. Qed.

End tests.
