(* ===== verification/Stage3.v ===== *)
(** * Stage 3: the WAL engine ([crates/server/src/stage3/mod.rs])

    [WalEngine] encodes the batches of stage 2, writes them through io_uring and
    acknowledges them.  Its channels, the ring and the file system are inputs of
    each operation (what is received, which completions are there, what a call
    returns); what the engine does to the outside is in its state: the
    submission queue, the entries handed to the kernel so far ([submitted]) and
    the events of its channel sends ([trace]).  The slab crate is the interface
    [Slab]. *)

From S2P Require Import Prelude Wire Db WalFormat Recovery Types Acker FsyncPlanner IoWork.
Local Open Scope Z_scope.

(** ** The slab crate: in-flight operations by key *)

Class Slab (L : Type) := {
  slab_new : L;
  slab_len : L -> Z;
  slab_vacant_key : L -> N;                    (* [vacant_entry().key()] *)
  slab_insert : L -> io_work.IoWork -> L;      (* [vacant_entry().insert(work)] *)
  slab_remove : L -> N -> outcome (io_work.IoWork * L);
}.

(** Its documented behaviour: a map whose vacant entry has an unused key;
    removing an absent key panics. *)
Class SlabLaws (L : Type) `{Slab L} := {
  slab_view : L -> gmap N io_work.IoWork;
  slab_new_view : slab_view slab_new = ∅;
  slab_len_view l : slab_len l = Z.of_nat (size (slab_view l));
  slab_vacant_view l : slab_view l !! slab_vacant_key l = None;
  slab_insert_view l w : slab_view (slab_insert l w) = <[slab_vacant_key l := w]> (slab_view l);
  slab_remove_Some l k w :
    slab_view l !! k = Some w -> exists l', slab_remove l k = Done (w, l') /\ slab_view l' = delete k (slab_view l);
  slab_remove_None l k : slab_view l !! k = None -> slab_remove l k = Panic;
}.

Module stage3.
Import types args acker fsync_planner io_work.

Definition DEFAULT_SPIN_BUDGET : Z := 500.
(** [i32] decrement *)
Definition dec32 (z : Z) : Z := (z - 1 + 2 ^ 31) mod 2 ^ 32 - 2 ^ 31.

(** ** State *)

(** The engine's side of the ring: entries pushed and not yet submitted, the
    capacity of the submission queue, and all entries the kernel has taken. *)
Record Ring := mk_ring { sq : list Sqe; sq_entries : Z; submitted : list Sqe }.
Record Cqe := mk_cqe { cq_user_data : N; cq_result : Z }.

(** Sends on the clients' channels and on [recycle_tx], in order: [advance] on a
    batch with what it sent, and a batch returned to the pool. *)
Inductive Event :=
| Advanced (b : Batch) (p : AckPoint) (sent : replies)
| Recycled (b : Batch).

Section engine.
Context {L : Type} `{Slab L}.

Record WalEngine := mk_engine {
  dir : bytes;
  depth : Z;
  ring : Ring;
  pending : list IoWork;
  inflight : L;
  spin_budget : Z;
  last_ingested_lsn : Z;
  seg : segment.Segment;
  ack : Acker;
  planner : FsyncPlanner;
  awaiting_fsync : list Batch;
  trace : list Event;
}.

Definition set_ring st r := mk_engine (dir st) (depth st) r (pending st) (inflight st) (spin_budget st)
  (last_ingested_lsn st) (seg st) (ack st) (planner st) (awaiting_fsync st) (trace st).
Definition set_pending st p := mk_engine (dir st) (depth st) (ring st) p (inflight st) (spin_budget st)
  (last_ingested_lsn st) (seg st) (ack st) (planner st) (awaiting_fsync st) (trace st).
Definition set_inflight st l := mk_engine (dir st) (depth st) (ring st) (pending st) l (spin_budget st)
  (last_ingested_lsn st) (seg st) (ack st) (planner st) (awaiting_fsync st) (trace st).
Definition set_spin st n := mk_engine (dir st) (depth st) (ring st) (pending st) (inflight st) n
  (last_ingested_lsn st) (seg st) (ack st) (planner st) (awaiting_fsync st) (trace st).
Definition set_ingested st n := mk_engine (dir st) (depth st) (ring st) (pending st) (inflight st) (spin_budget st)
  n (seg st) (ack st) (planner st) (awaiting_fsync st) (trace st).
Definition set_seg st s := mk_engine (dir st) (depth st) (ring st) (pending st) (inflight st) (spin_budget st)
  (last_ingested_lsn st) s (ack st) (planner st) (awaiting_fsync st) (trace st).
Definition set_planner st p := mk_engine (dir st) (depth st) (ring st) (pending st) (inflight st) (spin_budget st)
  (last_ingested_lsn st) (seg st) (ack st) p (awaiting_fsync st) (trace st).
Definition set_awaiting st l := mk_engine (dir st) (depth st) (ring st) (pending st) (inflight st) (spin_budget st)
  (last_ingested_lsn st) (seg st) (ack st) (planner st) l (trace st).
Definition emit st es := mk_engine (dir st) (depth st) (ring st) (pending st) (inflight st) (spin_budget st)
  (last_ingested_lsn st) (seg st) (ack st) (planner st) (awaiting_fsync st) (trace st ++ es).

(** [IoUring::new] and [Segment::open] may fail. *)
Definition new (ring_new : Z -> outcome Ring) (open_file : bytes -> outcome Z) (file_len : Z -> outcome Z)
    (ring_depth : Z) (dir : bytes) (start_lsn : Z) (mode : Mode) (a : Acker) : outcome WalEngine :=
  r ← ring_new (as_u32 ring_depth);
  s ← segment.open open_file file_len start_lsn;
  Done (mk_engine dir ring_depth r [] slab_new DEFAULT_SPIN_BUDGET start_lsn s a
          (fsync_planner.new (cadence_from mode)) [] []).

Definition inflight_len (st : WalEngine) : Z := slab_len (inflight st).
Definition out_of_spins (st : WalEngine) : bool := spin_budget st <=? 0.
Definition should_park (st : WalEngine) : bool :=
  match pending st with [] => inflight_len st =? 0 | _ => false end.
Definition ring_is_full (st : WalEngine) : bool := depth st <=? inflight_len st.

(** ** Operations *)

(** What the channel from stage 2 holds when the engine looks. *)
Inductive Recv := Received (m : WalMsg) | Empty | Disconnected.

(** [Parked]: [recv] on an empty channel; the thread sleeps. *)
Inductive Polled := Msg (m : WalMsg) | NoMsg | Parked.

Definition poll_channel_or_park (st : WalEngine) (r : Recv) : outcome (Polled * WalEngine) :=
  match r with
  | Received m => Done (Msg m, st)
  | Empty =>
      if should_park st then Done (Parked, st)
      else Done (NoMsg, set_spin st (dec32 (spin_budget st)))
  | Disconnected => Panic
  end.

(** The body of the loop that builds [batch.out]. *)
Definition encode_item (acc : Z * bytes) (req : Request) : outcome (Z * bytes) :=
  let '(lsn, o) := acc in
  op ← op req;
  match op with
  | wire.Put => let lsn := add64 lsn 1 in Done (lsn, wal_format.encode_record o lsn (types.data req))
  | wire.Get | wire.Unknown _ => Done (lsn, o)
  end.

(** [debug_assert_eq!] is compiled out of the release profile. *)
Definition handle_batch (st : WalEngine) (batch : Batch) : outcome WalEngine :=
  _ ← assert_that (lsn_low batch =? last_ingested_lsn st);
  '(lsn, o) ← fold_outcome encode_item (lsn_low batch, out batch) (items batch);
  let batch := mk_batch (items batch) o (lsn_low batch) (lsn_hi batch) in
  let st := set_ingested st (lsn_hi batch) in
  let batch_size := len (out batch) in
  let '((offset, _), s) := segment.advance_offset (seg st) batch_size in
  let st := set_seg st s in
  let st := set_planner st (on_write_queued (planner st) batch_size) in
  Done (set_pending st (pending st ++ [write batch offset])).

(** The kernel takes the first [n] entries of the queue, or the call fails. *)
Inductive SubmitResult := Submitted (n : nat) | SubmitErr (e : Z).

Definition submit_n (st : WalEngine) (n : nat) : WalEngine :=
  let r := ring st in
  set_ring st (mk_ring (drop n (sq r)) (sq_entries r) (submitted r ++ take n (sq r))).

Definition submit (st : WalEngine) (r : SubmitResult) : outcome WalEngine :=
  match r with
  | Submitted n => Done (submit_n st n)
  | SubmitErr _ => Panic
  end.

Definition submit_ring_and_park (st : WalEngine) (r : SubmitResult) : outcome WalEngine :=
  match r with
  | Submitted n => Done (submit_n st n)
  | SubmitErr e => if e =? EINTR then Done st else Panic
  end.

(** The loop of [handle_pending], which moves the queue's head until the queue,
    the ring or the in-flight window is exhausted. *)
Fixpoint push_pending (fd depth entries : Z) (pend : list IoWork) (infl : L) (q : list Sqe)
    : outcome (list IoWork * L * list Sqe) :=
  match pend with
  | [] => Done ([], infl, q)
  | work :: rest =>
      if negb (entries <=? len q) && (slab_len infl <? depth) then
        e ← sqe work fd (slab_vacant_key infl);
        push_pending fd depth entries rest (slab_insert infl work) (q ++ [e])
      else Done (pend, infl, q)
  end.

Definition handle_pending (st : WalEngine) : outcome (bool * WalEngine) :=
  match pending st with
  | [] => Done (false, st)
  | _ =>
      let before_pull := inflight_len st in
      '(pi, q) ← push_pending (segment.fd (seg st)) (depth st) (sq_entries (ring st))
        (pending st) (inflight st) (sq (ring st));
      let st := set_pending (set_inflight st pi.2) pi.1 in
      let st := set_ring st (mk_ring q (sq_entries (ring st)) (submitted (ring st))) in
      Done (negb (before_pull =? inflight_len st), st)
  end.

(** [advance(Durable)] and recycling, for each batch that awaits an fsync. *)
Definition release_one (st : WalEngine) (b : Batch) : outcome WalEngine :=
  '(sent, b') ← advance (ack st) b Durable;
  Done (emit st [Advanced b Durable sent; Recycled (recycle b')]).
Definition release_awaiting (st : WalEngine) : outcome WalEngine :=
  fold_outcome release_one (set_awaiting st []) (awaiting_fsync st).

Definition reap_one (st : WalEngine) (cqe : Cqe) : outcome WalEngine :=
  '(work, infl) ← slab_remove (inflight st) (cq_user_data cqe);
  let st := set_inflight st infl in
  match complete work (cq_result cqe) with
  | VOk (Some batch) =>
      '(sent, b') ← advance (ack st) batch Written;
      let st := emit st [Advanced batch Written sent] in
      if is_settled (ack st) b' then Done (emit st [Recycled (recycle b')])
      else Done (set_awaiting st (awaiting_fsync st ++ [b']))
  | VOk None => Done st
  | VRetry w =>
      let p := match w with
               | WriteWork o =>
                   on_write_queued (planner st) (sub64 (len (out (io_work.data o))) (done o))
               | _ => planner st
               end in
      Done (set_pending (set_planner st p) (w :: pending st))
  | VDurable =>
      st ← release_awaiting st;
      Done (set_planner st (on_fsync_completed (planner st)))
  | VFatal _ => Panic
  end.

Definition reap_cqes (st : WalEngine) (cqes : list Cqe) : outcome WalEngine :=
  fold_outcome reap_one st cqes.

(** The loop of [rotate]; each round of the list is the outcome of a
    [submit_and_wait] and the completions then reaped.  [false]: the rounds ran
    out, the loop is still waiting. *)
Fixpoint rotate_drain (st : WalEngine) (rounds : list (SubmitResult * list Cqe))
    : outcome (bool * WalEngine) :=
  if negb (inflight_len st =? 0) || match pending st with [] => false | _ => true end then
    match rounds with
    | [] => Done (false, st)
    | (r, cqes) :: rounds =>
        '(_, st) ← handle_pending st;
        st ← submit_ring_and_park st r;
        st ← reap_cqes st cqes;
        rotate_drain st rounds
    end
  else Done (true, st).

Definition rotate (st : WalEngine) (rounds : list (SubmitResult * list Cqe)) (fsync_ret : Z)
    (open_file : bytes -> outcome Z) (file_len : Z -> outcome Z) (boundary_lsn : Z)
    : outcome (bool * WalEngine) :=
  '(drained, st) ← rotate_drain st rounds;
  if negb (drained : bool) then Done (false, st) else
  _ ← assert_that (fsync_ret =? 0);
  let st := set_planner st (on_fsync_completed (planner st)) in
  st ← release_awaiting st;
  match segment.open open_file file_len boundary_lsn with
  | Done s => Done (true, set_seg st s)
  | _ => Panic
  end.

Definition retire (st : WalEngine) (list_segments : outcome (list (Z * bytes))) (boundary_lsn : Z)
    : outcome WalEngine :=
  if segment.start_lsn (seg st) <? boundary_lsn then Panic else
  match list_segments with
  | Done segs =>
      let old := filter (fun s => (s : Z * bytes).1 < boundary_lsn) segs in
      _ ← assert_that (forallb (fun s => negb (existsb (fun c => Byte.eqb c Byte.x00) (s : Z * bytes).2)) old);
      Done (set_pending st (pending st ++ ((fun s => RemoveWork s.2) <$> old)))
  | Panic => Panic
  | IoErr _ => Done st
  end.

(** ** The loop of [start] *)

(** What the outside does during one iteration. *)
Record Input := mk_input {
  in_recv : Recv;
  in_rounds : list (SubmitResult * list Cqe);  (* of the loop of [rotate] *)
  in_fsync_ret : Z;
  in_open : bytes -> outcome Z;
  in_len : Z -> outcome Z;
  in_segments : outcome (list (Z * bytes));
  in_cqes : list Cqe;                          (* completions there when reaping *)
  in_submit : SubmitResult;
}.

Definition handle_msg (st : WalEngine) (i : Input) (m : WalMsg) : outcome (bool * WalEngine) :=
  match m with
  | Write b => st ← handle_batch st b; Done (true, st)
  | Rotate boundary => rotate st (in_rounds i) (in_fsync_ret i) (in_open i) (in_len i) boundary
  | Retire boundary => st ← retire st (in_segments i) boundary; Done (true, st)
  end.

Definition plan_fsync (st : WalEngine) : WalEngine :=
  let '(due, p) := should_fsync (planner st) in
  let st := set_planner st p in
  if due then set_pending st (pending st ++ [FsyncWork (last_ingested_lsn st)]) else st.

(** The iteration after the channel was polled. *)
Definition turn (st : WalEngine) (cqes : list Cqe) (sub : SubmitResult) : outcome WalEngine :=
  let st := plan_fsync st in
  '(is_need_submit, st) ← handle_pending st;
  st ← reap_cqes st cqes;
  if (out_of_spins st && negb (inflight_len st =? 0)) || ring_is_full st then submit_ring_and_park st sub
  else if (is_need_submit : bool) then submit st sub
  else Done st.

(** [false]: the thread sleeps in a call, and the state is the one it sleeps in. *)
Definition iteration (st : WalEngine) (i : Input) : outcome (bool * WalEngine) :=
  '(polled, st) ← poll_channel_or_park st (in_recv i);
  match polled with
  | Parked => Done (false, st)
  | NoMsg => st ← turn st (in_cqes i) (in_submit i); Done (true, st)
  | Msg m =>
      '(goes_on, st) ← handle_msg st i m;
      if negb (goes_on : bool) then Done (false, st) else
      st ← turn (set_spin st DEFAULT_SPIN_BUDGET) (in_cqes i) (in_submit i);
      Done (true, st)
  end.

End engine.
Arguments WalEngine L : clear implicits.

(** ** What the engine holds *)

Section laws.
Context {L : Type} `{SlabLaws L}.
Implicit Types st : WalEngine L.

Definition batches_of (w : IoWork) : list Batch :=
  match w with WriteWork o => [io_work.data o] | _ => [] end.
Definition inflight_ops st : list IoWork := snd <$> map_to_list (slab_view (inflight st)).
(** The buffers in the engine's hands. *)
Definition held st : list Batch :=
  ((pending st ++ inflight_ops st) ≫= batches_of) ++ awaiting_fsync st.
(** The responses not sent yet. *)
Definition unsent (b : Batch) : replies :=
  omap (fun r => (fun x => (reply r, x)) <$> resp r) (items b).
Definition owed st : replies := held st ≫= unsent.
Definition sent_of (tr : list Event) : replies :=
  tr ≫= (fun e => match e with Advanced _ _ s => s | Recycled _ => [] end).
Definition recycled_of (tr : list Event) : list Batch :=
  tr ≫= (fun e => match e with Recycled b => [b] | Advanced _ _ _ => [] end).

(** A batch [advance] can read, and an operation the engine can submit. *)
Definition batch_ok (b : Batch) : Prop := Forall (fun r => types.data r <> []) (items b).
Definition op_ok (w : IoWork) : Prop :=
  match w with WriteWork o => write_ok o /\ batch_ok (io_work.data o) | _ => True end.

Record engine_wf st : Prop := {
  ew_pending : Forall op_ok (pending st);
  ew_inflight : map_Forall (fun _ w => op_ok w) (slab_view (inflight st));
  ew_awaiting : Forall batch_ok (awaiting_fsync st);
  ew_recycled : Forall (fun b => b = mk_batch [] [] 0 0) (recycled_of (trace st));
}.

(** From [st] to [st'] the batches [new] came in; every buffer is held or was
    returned to the pool, every response is owed or was sent, exactly once. *)
Record conserves (new : list Batch) st st' : Prop := {
  cs_buffers : (length (held st') + length (recycled_of (trace st')) =
                length (held st) + length (recycled_of (trace st)) + length new)%nat;
  cs_replies : owed st' ++ sent_of (trace st') ≡ₚ owed st ++ sent_of (trace st) ++ (new ≫= unsent);
}.

Lemma conserves_refl st st' :
  held st' ≡ₚ held st -> trace st' = trace st -> conserves [] st st'.
Proof.
  intros Hh Ht. split.
  - rewrite Ht, Hh. simpl. lia.
  - rewrite Ht. simpl. rewrite app_nil_r. unfold owed. by rewrite Hh.
Qed.

Lemma conserves_trans n1 n2 st1 st2 st3 :
  conserves n1 st1 st2 -> conserves n2 st2 st3 -> conserves (n1 ++ n2) st1 st3.
Proof.
  intros [A1 A2] [B1 B2]. split.
  - rewrite length_app. lia.
  - rewrite B2, bind_app, !app_assoc. f_equiv. by rewrite <- !app_assoc.
Qed.

Lemma recycled_of_app t1 t2 : recycled_of (t1 ++ t2) = recycled_of t1 ++ recycled_of t2.
Proof. apply bind_app. Qed.
Lemma sent_of_app t1 t2 : sent_of (t1 ++ t2) = sent_of t1 ++ sent_of t2.
Proof. apply bind_app. Qed.

(** ** [advance] on one batch *)

Lemma advance_unsent a b p :
  batch_ok b ->
  exists sent b', advance a b p = Done (sent, b') /\ batch_ok b' /\
    out b' = out b /\ lsn_low b' = lsn_low b /\ lsn_hi b' = lsn_hi b /\
    sent = released a p (items b) /\ sent ++ unsent b' ≡ₚ unsent b.
Proof.
  intros Hb. rewrite advance_ok by done. do 2 eexists. split; [done|].
  split; [by apply settle_nonempty|]. do 4 (split; [done|]). unfold unsent. simpl. clear Hb.
  induction (items b) as [|r l IH]; [done|]. rewrite released_cons, fmap_cons.
  cbn [omap list_omap]. rewrite resp_settle. unfold released at 1. cbn [omap list_omap].
  assert (reply (settle a p r) = reply r) as -> by (unfold settle; by destruct (due a p r)).
  destruct (resp r) as [x|], (due a p r); simpl; rewrite <- IH; try done.
  by rewrite Permutation_middle.
Qed.

Lemma unsent_settled a b : is_settled a b = true <-> unsent b = [].
Proof.
  unfold is_settled, unsent. induction (items b) as [|r l IH]; [done|].
  cbn [forallb omap list_omap]. destruct (resp r); simpl; [split; discriminate|done].
Qed.

Lemma advance_Durable a b :
  batch_ok b ->
  exists sent b', advance a b Durable = Done (sent, b') /\ sent = released a Durable (items b) /\ sent ≡ₚ unsent b.
Proof.
  intros Hb. destruct (advance_unsent a b Durable Hb) as (sent & b' & E & _ & _ & _ & _ & Es & Ep).
  exists sent, b'. do 2 (split; [done|]). rewrite <- Ep.
  assert (unsent b' = []) as ->; [|by rewrite app_nil_r].
  rewrite advance_ok in E by done. injection E as <- <-. unfold unsent. simpl.
  clear. induction (items b) as [|r l IH]; [done|]. rewrite fmap_cons. cbn [omap list_omap].
  by rewrite resp_settle, due_Durable, IH.
Qed.

(** ** The operations, one by one *)

Definition empty_batch : Batch := mk_batch [] [] 0 0.

(** The events that release one batch after an fsync. *)
Definition release_events (a : Acker) (b : Batch) : list Event :=
  [Advanced b Durable (released a Durable (items b)); Recycled empty_batch].

Lemma release_list_ok bs st :
  Forall batch_ok bs ->
  fold_outcome release_one st bs = Done (emit st (bs ≫= release_events (ack st))).
Proof.
  intros Hb. revert st. induction Hb as [|b bs Hb Hbs IH]; intros st; cbn [fold_outcome].
  - destruct st. unfold emit. simpl. by rewrite app_nil_r.
  - unfold release_one. destruct (advance_Durable (ack st) b Hb) as (sent & b' & E & Es & _).
    rewrite E. ostep. rewrite IH. unfold emit. simpl. rewrite <- app_assoc. by rewrite <- Es.
Qed.

Lemma release_awaiting_ok st :
  Forall batch_ok (awaiting_fsync st) ->
  release_awaiting st = Done (emit (set_awaiting st []) (awaiting_fsync st ≫= release_events (ack st))).
Proof. intros Hb. unfold release_awaiting. by rewrite release_list_ok. Qed.

Lemma sent_of_release a bs : Forall batch_ok bs -> sent_of (bs ≫= release_events a) ≡ₚ bs ≫= unsent.
Proof.
  induction 1 as [|b bs Hb Hbs IH]; [done|]. rewrite !bind_cons, sent_of_app. f_equiv; [|done].
  destruct (advance_Durable a b Hb) as (sent & b' & _ & -> & Ep). simpl. by rewrite app_nil_r, Ep.
Qed.

Lemma recycled_of_release a bs :
  recycled_of (bs ≫= release_events a) = replicate (length bs) empty_batch.
Proof. induction bs as [|b bs IH]; [done|]. rewrite bind_cons, recycled_of_app, IH. done. Qed.

Lemma Forall_replicate_eq {A} n (x : A) : Forall (fun y => y = x) (replicate n x).
Proof. by apply Forall_replicate. Qed.

(** Releasing keeps the books, whatever else is held. *)
Lemma release_conserves st :
  engine_wf st ->
  let st' := emit (set_awaiting st []) (awaiting_fsync st ≫= release_events (ack st)) in
  engine_wf st' /\ conserves [] st st'.
Proof.
  intros [Hp Hi Ha Hr]. simpl. split; [split; simpl; [done..|constructor|]|].
  - rewrite recycled_of_app, recycled_of_release. apply Forall_app. split; [done|].
    apply Forall_replicate_eq.
  - split.
    + unfold held. simpl. rewrite recycled_of_app, recycled_of_release.
      change (inflight_ops (emit _ _)) with (inflight_ops st). len_lia.
    + unfold owed, held. simpl. change (inflight_ops (emit _ _)) with (inflight_ops st).
      rewrite sent_of_app, (sent_of_release _ _ Ha), !bind_app, !app_nil_r.
      rewrite <- !app_assoc. do 2 f_equiv. by rewrite Permutation_app_comm.
Qed.

Lemma inflight_insert st k w :
  slab_view (inflight st) !! k = None ->
  (snd <$> map_to_list (<[k := w]> (slab_view (inflight st)))) ≡ₚ w :: inflight_ops st.
Proof. intros Hk. by rewrite map_to_list_insert. Qed.

Lemma inflight_delete st k w :
  slab_view (inflight st) !! k = Some w ->
  inflight_ops st ≡ₚ w :: (snd <$> map_to_list (delete k (slab_view (inflight st)))).
Proof. intros Hk. unfold inflight_ops. by rewrite <- (map_to_list_delete _ _ _ Hk). Qed.

Lemma held_remove st k w l :
  slab_view (inflight st) !! k = Some w -> slab_view l = delete k (slab_view (inflight st)) ->
  held st ≡ₚ batches_of w ++ held (set_inflight st l).
Proof.
  intros Hk Hl. unfold held, inflight_ops at 2. simpl. rewrite Hl, !bind_app, (inflight_delete st k w Hk).
  rewrite bind_cons, <- !app_assoc, !app_assoc. do 2 f_equiv. by rewrite Permutation_app_comm.
Qed.

(** A completion the engine can process: of an operation in flight, with a
    result the kernel may give and that is not a fatal error. *)
Definition cqe_ok st (c : Cqe) : Prop :=
  exists w, slab_view (inflight st) !! cq_user_data c = Some w /\
    (forall e, complete w (cq_result c) <> VFatal e) /\
    (forall o, w = WriteWork o -> cq_result c <= len (out (io_work.data o)) - done o).

(** The engine after one completion. *)
Inductive reaped st (c : Cqe) st' : Prop :=
| reaped_write o l sent b' :
    slab_view (inflight st) !! cq_user_data c = Some (WriteWork o) ->
    0 <= cq_result c -> done o + cq_result c = len (out (io_work.data o)) ->
    slab_view l = delete (cq_user_data c) (slab_view (inflight st)) ->
    sent = released (ack st) Written (items (io_work.data o)) ->
    advance (ack st) (io_work.data o) Written = Done (sent, b') ->
    st' = (if is_settled (ack st) b'
           then emit (set_inflight st l) [Advanced (io_work.data o) Written sent; Recycled empty_batch]
           else set_awaiting (emit (set_inflight st l) [Advanced (io_work.data o) Written sent])
                  (awaiting_fsync st ++ [b'])) ->
    reaped st c st'
| reaped_retry o o' l :
    slab_view (inflight st) !! cq_user_data c = Some (WriteWork o) ->
    o' = mk_write (io_work.data o) (io_work.offset o) (done o + Z.max 0 (cq_result c)) ->
    (0 <= cq_result c -> done o' < len (out (io_work.data o))) ->
    (cq_result c < 0 -> cq_result c = - EINTR \/ cq_result c = - EAGAIN) ->
    slab_view l = delete (cq_user_data c) (slab_view (inflight st)) ->
    st' = set_pending (set_planner (set_inflight st l)
            (on_write_queued (planner st) (len (out (io_work.data o)) - done o')))
            (WriteWork o' :: pending st) ->
    reaped st c st'
| reaped_fsync t l :
    slab_view (inflight st) !! cq_user_data c = Some (FsyncWork t) -> 0 <= cq_result c ->
    slab_view l = delete (cq_user_data c) (slab_view (inflight st)) ->
    st' = set_planner (emit (set_awaiting (set_inflight st l) [])
            (awaiting_fsync st ≫= release_events (ack st))) (on_fsync_completed (planner st)) ->
    reaped st c st'
| reaped_remove p l :
    slab_view (inflight st) !! cq_user_data c = Some (RemoveWork p) ->
    slab_view l = delete (cq_user_data c) (slab_view (inflight st)) ->
    st' = set_inflight st l ->
    reaped st c st'.

Lemma sub64_remainder o : write_ok o -> sub64 (len (out (io_work.data o))) (done o) = len (out (io_work.data o)) - done o.
Proof. intros [Hd Ho He]. apply sub64_small. unfold u64 in *. lia. Qed.

Lemma reap_one_ok st c :
  engine_wf st -> cqe_ok st c -> exists st', reap_one st c = Done st' /\ reaped st c st'.
Proof.
  intros [Hp Hi Ha Hr] (w & Hw & Hf & Hb). unfold reap_one.
  destruct (slab_remove_Some _ _ _ Hw) as (l & -> & Hl). ostep.
  pose proof (map_Forall_lookup_1 _ _ _ _ Hi Hw) as Hok. simpl in Hok.
  destruct w as [o|t|p].
  - destruct Hok as [Ho Hbo]. specialize (Hb o eq_refl).
    destruct (complete_write_cases o (cq_result c) Ho Hb) as [(E & Ht)|[(E & _)|[(H1 & H2 & E)|(H1 & H2 & E)]]];
      rewrite E.
    + eexists. split; [done|]. rewrite sub64_remainder by done.
      eapply (reaped_retry st c _ o o l); [done| |unfold EINTR, EAGAIN in Ht; lia|done|done|done].
      replace (Z.max 0 (cq_result c)) with 0 by (unfold EINTR, EAGAIN in Ht; lia).
      rewrite Z.add_0_r. by destruct o.
    + by apply Hf in E.
    + eexists. split; [done|]. rewrite sub64_remainder.
      * eapply (reaped_retry st c _ o (mk_write (io_work.data o) (io_work.offset o) (done o + cq_result c)) l);
          [done| |done|lia|done|done]. f_equal. lia.
      * destruct Ho. split; simpl; [lia|done..].
    + destruct (advance_unsent (ack st) (io_work.data o) Written Hbo) as (sent & b' & Ea & Hb' & _ & _ & _ & Es & _).
      simpl ack. rewrite Ea. ostep. eexists. split; [|by eapply (reaped_write st c _ o l sent b')].
      destruct (is_settled (ack st) b'); [|done]. unfold emit. simpl. by rewrite <- app_assoc.
  - specialize (Hf (- cq_result c)). cbn [complete] in *.
    destruct (cq_result c <? 0) eqn:En; [done|]. apply Z.ltb_ge in En.
    rewrite release_awaiting_ok by done. ostep. eexists. split; [done|]. by eapply (reaped_fsync st c _ t l).
  - simpl. eexists. split; [done|]. by eapply (reaped_remove st c _ p l).
Qed.

Lemma emit_conserves st b sent b' :
  batch_ok b -> advance (ack st) b Written = Done (sent, b') ->
  batch_ok b' /\ sent ++ unsent b' ≡ₚ unsent b.
Proof.
  intros Hb E. destruct (advance_unsent (ack st) b Written Hb) as (s & b'' & E' & H1 & _ & _ & _ & _ & H2).
  rewrite E in E'. by injection E' as <- <-.
Qed.

(** The books are kept when a batch leaves [held], is advanced, and is recycled
    or held again. *)
Lemma conserves_held st st' b sent rest more :
  held st ≡ₚ b :: rest -> held st' ≡ₚ more ++ rest ->
  sent ++ (more ≫= unsent) ≡ₚ unsent b ->
  sent_of (trace st') = sent_of (trace st) ++ sent ->
  (length (recycled_of (trace st')) + length more = length (recycled_of (trace st)) + 1)%nat ->
  conserves [] st st'.
Proof.
  intros H1 H2 H3 H4 H5. split.
  - rewrite H1, H2. simpl. len_lia.
  - unfold owed. rewrite H1, H2, H4, bind_app, bind_cons, <- H3. simpl. rewrite app_nil_r.
    solve_Permutation.
Qed.

Lemma reaped_wf st c st' : engine_wf st -> reaped st c st' -> engine_wf st' /\ conserves [] st st'.
Proof.
  intros Hwf Hre. pose proof Hwf as [Hp Hi Ha Hr].
  destruct Hre as [o l sent b' Hw Hc Hd Hl Hs Ea Hst|o o' l Hw Ho' Hlt Hneg Hl Hst|t l Hw Hc Hl Hst|p l Hw Hl Hst];
    pose proof (map_Forall_lookup_1 _ _ _ _ Hi Hw) as Hok; simpl in Hok;
    pose proof (map_Forall_delete _ _ (cq_user_data c) Hi) as Hi'; rewrite <- Hl in Hi';
    pose proof (held_remove st _ _ l Hw Hl) as Hh; simpl in Hh; rewrite Hst.
  - destruct Hok as [Ho Hbo]. destruct (emit_conserves st _ _ _ Hbo Ea) as [Hb' Hu].
    destruct (is_settled (ack st) b') eqn:Eset.
    + apply unsent_settled in Eset. split; [split; simpl; try done|].
      * rewrite recycled_of_app. apply Forall_app. split; [done|by repeat constructor].
      * eapply (conserves_held st _ _ sent _ []); [exact Hh|done|by rewrite <- Hu, Eset| |].
        -- simpl. rewrite sent_of_app. simpl. by rewrite app_nil_r.
        -- simpl. rewrite recycled_of_app. len_lia.
    + split; [split; simpl; try done|].
      * apply Forall_app. by repeat constructor.
      * rewrite recycled_of_app. apply Forall_app. by repeat constructor.
      * eapply (conserves_held st _ _ sent _ [b']); [exact Hh| |by rewrite <- Hu; simpl; rewrite app_nil_r| |].
        -- unfold held. simpl. rewrite app_assoc. by rewrite Permutation_app_comm.
        -- simpl. rewrite sent_of_app. simpl. by rewrite app_nil_r.
        -- simpl. rewrite recycled_of_app. len_lia.
  - destruct Hok as [[Hd1 Hd2 Hd3] Hbo]. split; [split; simpl; try done|].
    + constructor; [|done]. rewrite Ho'. split; [|done]. rewrite Ho' in Hlt. simpl in *.
      split; simpl; [|done..]. destruct (decide (0 <= cq_result c)); [specialize (Hlt ltac:(done))|]; lia.
    + apply conserves_refl; [|done]. rewrite Hh. unfold held. by rewrite Ho'.
  - assert (engine_wf (set_inflight st l)) as Hwf' by (by split).
    destruct (release_conserves _ Hwf') as [[R1 R2 R3 R4] C]. split; [by split|].
    apply (conserves_trans [] [] st (set_inflight st l)); [by apply conserves_refl|].
    destruct C as [C1 C2]. by split.
  - split; [by split|]. by apply conserves_refl.
Qed.

(** *** Completions *)

Lemma reaped_inflight st c st' :
  reaped st c st' -> slab_view (inflight st') = delete (cq_user_data c) (slab_view (inflight st)).
Proof. destruct 1; subst; try done. by destruct (is_settled (ack st) b'). Qed.

Definition cqes_ok st (cqes : list Cqe) : Prop :=
  NoDup (cq_user_data <$> cqes) /\ Forall (cqe_ok st) cqes.

Lemma cqe_ok_reaped st c st' c' :
  reaped st c st' -> cq_user_data c' <> cq_user_data c -> cqe_ok st c' -> cqe_ok st' c'.
Proof.
  intros Hre Hne (w & Hw & H1 & H2). exists w. split; [|done].
  by rewrite (reaped_inflight _ _ _ Hre), lookup_delete_ne.
Qed.

Lemma reap_cqes_ok st cqes :
  engine_wf st -> cqes_ok st cqes ->
  exists st', reap_cqes st cqes = Done st' /\ engine_wf st' /\ conserves [] st st'.
Proof.
  unfold reap_cqes. revert st. induction cqes as [|c cqes IH]; intros st Hwf [Hnd Hok]; cbn [fold_outcome].
  - exists st. split; [done|]. split; [done|by apply conserves_refl].
  - rewrite fmap_cons in Hnd. apply NoDup_cons in Hnd as [Hnin Hnd]. apply Forall_cons in Hok as [Hc Hok].
    destruct (reap_one_ok st c Hwf Hc) as (st1 & -> & Hre). ostep.
    destruct (reaped_wf st c st1 Hwf Hre) as [Hwf1 C1].
    destruct (IH st1 Hwf1) as (st' & -> & Hwf' & C2).
    { split; [done|]. apply Forall_forall. intros c' Hc'.
      apply (cqe_ok_reaped st c st1); [done| |by eapply Forall_forall].
      intros E. apply Hnin. rewrite <- E. by apply list_elem_of_fmap_2. }
    exists st'. split; [done|]. split; [done|]. by apply (conserves_trans [] [] st st1 st').
Qed.

(** *** Submissions *)

Lemma sqe_ok w fd k : op_ok w -> exists e, sqe w fd k = Done e /\ user_data e = k.
Proof. destruct w; [intros [Hw _]; rewrite sqe_write by done|..]; eauto. Qed.

(** Operations pushed one after the other, with their entries. *)
Inductive pushed (fd : Z) : L -> list IoWork -> list Sqe -> L -> Prop :=
| pushed_nil l : pushed fd l [] [] l
| pushed_cons l w ws e es l' :
    sqe w fd (slab_vacant_key l) = Done e ->
    pushed fd (slab_insert l w) ws es l' -> pushed fd l (w :: ws) (e :: es) l'.

Lemma slab_len_insert l w : slab_len (slab_insert l w) = slab_len l + 1.
Proof.
  rewrite !slab_len_view, slab_insert_view, map_size_insert_None by apply slab_vacant_view. lia.
Qed.

Lemma push_pending_ok fd depth entries pend infl q :
  Forall op_ok pend ->
  exists moved new pend' infl',
    push_pending fd depth entries pend infl q = Done (pend', infl', q ++ new) /\
    pend = moved ++ pend' /\ pushed fd infl moved new infl' /\
    (pend' = [] \/ entries <= len (q ++ new) \/ depth <= slab_len infl') /\
    (slab_len infl <= depth -> slab_len infl' <= depth) /\
    (len q <= entries -> len (q ++ new) <= entries).
Proof.
  intros Hok. revert infl q. induction Hok as [|w pend Hw Hok IH]; intros infl q; cbn [push_pending].
  - exists [], [], [], infl. rewrite app_nil_r. split_and!; try done; [constructor|by left].
  - destruct (negb (entries <=? len q) && (slab_len infl <? depth)) eqn:E.
    + destruct (sqe_ok w fd (slab_vacant_key infl) Hw) as (e & He & _). rewrite He. ostep.
      destruct (IH (slab_insert infl w) (q ++ [e])) as (moved & new & pend' & infl' & E1 & E2 & E3 & E4 & E5 & E6).
      rewrite <- app_assoc in *. simpl app in *.
      exists (w :: moved), (e :: new), pend', infl'. split; [done|]. split; [by rewrite E2|].
      split; [by econstructor|]. split; [done|].
      rewrite slab_len_insert in E5. apply andb_true_iff in E as [E7 E8]. apply negb_true_iff in E7.
      rewrite length_app in E6. simpl in E6. split; intros; [apply E5|apply E6]; lia.
    + exists [], [], (w :: pend), infl. rewrite app_nil_r. split_and!; try done; [constructor|].
      right. apply andb_false_iff in E as [E|E]; [left; apply negb_false_iff in E|right]; lia.
Qed.

Lemma pushed_held fd l ws es l' :
  pushed fd l ws es l' -> snd <$> map_to_list (slab_view l') ≡ₚ ws ++ (snd <$> map_to_list (slab_view l)).
Proof.
  induction 1 as [l|l w ws e es l' He Hp IH]; [done|].
  rewrite IH, slab_insert_view, map_to_list_insert by apply slab_vacant_view.
  rewrite fmap_cons. simpl. by rewrite Permutation_middle.
Qed.

Lemma pushed_ok fd l ws es l' :
  pushed fd l ws es l' -> Forall op_ok ws -> map_Forall (fun _ w => op_ok w) (slab_view l) ->
  map_Forall (fun _ w => op_ok w) (slab_view l').
Proof.
  induction 1 as [l|l w ws e es l' He Hp IH]; [done|]. intros [Hw Hws]%Forall_cons Hl.
  apply IH; [done|]. rewrite slab_insert_view. by apply map_Forall_insert_2.
Qed.

(** What [handle_pending] does to the state. *)
Lemma handle_pending_ok st :
  engine_wf st ->
  exists moved new pend' infl' need,
    let st' := set_ring (set_pending (set_inflight st infl') pend')
                 (mk_ring (sq (ring st) ++ new) (sq_entries (ring st)) (submitted (ring st))) in
    handle_pending st = Done (need, st') /\
    pending st = moved ++ pend' /\ pushed (segment.fd (seg st)) (inflight st) moved new infl' /\
    (pend' = [] \/ sq_entries (ring st) <= len (sq (ring st) ++ new) \/ depth st <= slab_len infl') /\
    (slab_len (inflight st) <= depth st -> slab_len infl' <= depth st) /\
    (len (sq (ring st)) <= sq_entries (ring st) -> len (sq (ring st) ++ new) <= sq_entries (ring st)).
Proof.
  intros [Hp Hi Ha Hr]. unfold handle_pending.
  destruct (pending st) as [|w ws] eqn:Ep.
  - exists [], [], [], (inflight st), false. rewrite app_nil_r. simpl.
    split; [destruct st as [? ? [] ? ? ? ? ? ? ? ? ?]; simpl in *; by subst|].
    split_and!; try done; [constructor|by left].
  - destruct (push_pending_ok (segment.fd (seg st)) (depth st) (sq_entries (ring st)) (w :: ws)
      (inflight st) (sq (ring st)) Hp) as (moved & new & pend' & infl' & E1 & E2 & E3).
    rewrite E1. ostep. do 5 eexists. split; [reflexivity|]. by split.
Qed.

Lemma handle_pending_wf st :
  engine_wf st ->
  exists need st', handle_pending st = Done (need, st') /\ engine_wf st' /\ conserves [] st st'.
Proof.
  intros Hwf. destruct (handle_pending_ok st Hwf) as (moved & new & pend' & infl' & need & E & Ep & Hpu & _).
  destruct Hwf as [Hp Hi Ha Hr]. rewrite Ep in Hp. apply Forall_app in Hp as [Hp1 Hp2].
  do 2 eexists. split; [exact E|]. split.
  - split; simpl; try done. by eapply pushed_ok.
  - apply conserves_refl; [|done]. unfold held, inflight_ops. simpl. rewrite Ep, (pushed_held _ _ _ _ _ Hpu).
    rewrite !bind_app. f_equiv. rewrite (Permutation_app_comm (pend' ≫= _)), <- app_assoc.
    rewrite <- !app_assoc. f_equiv. by rewrite Permutation_app_comm.
Qed.

(** *** Encoding a batch *)

(** The records a list of PUT bodies makes after LSN [l]. *)
Fixpoint number (l : Z) (bodies : list bytes) : list (Z * bytes) :=
  match bodies with
  | [] => []
  | b :: bodies => (l + 1, b) :: number (l + 1) bodies
  end.
Definition put_bodies (its : list Request) : list bytes := types.data <$> put_reqs its.
(** The redo bytes of a batch that starts after LSN [l]. *)
Definition redo_bytes (l : Z) (its : list Request) : bytes :=
  recovery.wal_bytes (number l (put_bodies its)).

Lemma encode_items_ok its l o :
  Forall (fun r => types.data r <> [] /\ u32 (8 + len (types.data r))) its ->
  0 <= l -> u64 (l + len (put_bodies its)) ->
  fold_outcome encode_item (l, o) its = Done (l + len (put_bodies its), o ++ redo_bytes l its).
Proof.
  intros Hok. revert l o. induction Hok as [|r its [Hr Hu] Hok IH]; intros l o Hl Hb; cbn [fold_outcome].
  - unfold redo_bytes, recovery.wal_bytes. simpl. by rewrite Z.add_0_r, app_nil_r.
  - unfold redo_bytes, put_bodies in *. rewrite put_reqs_cons in *.
    unfold encode_item at 2. rewrite op_Done by done. ostep.
    assert (is_put r = bool_decide (opc r = wire.Put)) as Hp by done.
    destruct (opc r) eqn:Eo; [by rewrite Hp; apply IH; rewrite Hp in Hb| |by rewrite Hp; apply IH; rewrite Hp in Hb].
    rewrite Hp, bool_decide_true in * by done. cbn [app] in *. rewrite !fmap_cons in *. cbn [number].
    rewrite !length_cons in *. unfold u64 in Hb. ostep.
    rewrite add64_small, wal_format.encode_record_app, IH by (done || (unfold u64; lia)).
    rewrite recovery.wal_bytes_cons, <- app_assoc. cbn [fst snd]. do 2 f_equal. lia.
Qed.

(** The batch as it is queued for writing. *)
Definition encoded (b : Batch) : Batch :=
  mk_batch (items b) (redo_bytes (lsn_low b) (items b)) (lsn_low b) (lsn_hi b).

(** A batch stage 2 may hand over, and room for it in the segment. *)
Record ingestable st (b : Batch) : Prop := {
  ig_low : lsn_low b = last_ingested_lsn st;
  ig_out : out b = [];
  ig_items : Forall (fun r => types.data r <> [] /\ u32 (8 + len (types.data r))) (items b);
  ig_lsn : 0 <= lsn_low b;
  ig_hi : lsn_hi b = lsn_low b + len (put_bodies (items b));
  ig_u64 : u64 (lsn_hi b);
  ig_off : 0 <= segment.offset (seg st);
  ig_end : u64 (segment.offset (seg st) + len (redo_bytes (lsn_low b) (items b)));
}.

Lemma handle_batch_ok st b :
  ingestable st b ->
  let n := len (redo_bytes (lsn_low b) (items b)) in
  handle_batch st b = Done (
    set_pending
      (set_planner
        (set_seg (set_ingested st (lsn_hi b))
          (segment.mk_segment (segment.fd (seg st)) (segment.offset (seg st) + n) (segment.start_lsn (seg st))))
        (on_write_queued (planner st) n))
      (pending st ++ [write (encoded b) (segment.offset (seg st))])).
Proof.
  intros [Hlo Ho Hi Hl Hh Hu Hf He] n. unfold handle_batch. rewrite Hlo, Z.eqb_refl.
  cbn [assert_that]. ostep. rewrite Ho, encode_items_ok; [|done|lia|congruence]. ostep.
  simpl. rewrite add64_small by (rewrite <- Hlo; done). unfold encoded, n. by rewrite <- Hlo.
Qed.

Lemma handle_batch_wf st b :
  engine_wf st -> ingestable st b ->
  exists st', handle_batch st b = Done st' /\ engine_wf st' /\ conserves [b] st st'.
Proof.
  intros [Hp Hi Ha Hr] Hb. rewrite handle_batch_ok by done. eexists. split; [done|].
  destruct Hb as [Hlo Ho Hit Hl Hh Hu Hf He].
  assert (batch_ok (encoded b)) as Hbo by (eapply Forall_impl; [exact Hit|]; by intros r [? _]).
  split; [split; simpl; try done|].
  - apply Forall_app. split; [done|]. constructor; [|constructor]. split; [|done].
    split; simpl; [lia|done|done].
  - split.
    + unfold held. simpl. change (inflight_ops _) with (inflight_ops st).
      rewrite !bind_app. simpl. rewrite !length_app. simpl. lia.
    + unfold owed, held. simpl. change (inflight_ops (set_pending _ _)) with (inflight_ops st).
      rewrite !bind_app. simpl. rewrite !app_nil_r. change (unsent (encoded b)) with (unsent b).
      solve_Permutation.
Qed.

(** *** The rest of a turn *)

Lemma plan_fsync_wf st : engine_wf st -> engine_wf (plan_fsync st) /\ conserves [] st (plan_fsync st).
Proof.
  intros [Hp Hi Ha Hr]. unfold plan_fsync. destruct (should_fsync (planner st)) as [due p]. destruct due.
  - split; [split; simpl; try done; apply Forall_app; by repeat constructor|].
    apply conserves_refl; [|done]. unfold held. simpl. by rewrite !bind_app, !app_nil_r.
  - split; [by split|]. by apply conserves_refl.
Qed.

Lemma submit_n_wf st n : engine_wf st -> engine_wf (submit_n st n) /\ conserves [] st (submit_n st n).
Proof. intros [Hp Hi Ha Hr]. split; [by split|]. by apply conserves_refl. Qed.

(** The system calls of a turn succeed ([submit_and_wait] may be interrupted,
    [submit] may not), and the completions are of operations in flight. *)
Record turn_input st (cqes : list Cqe) (sub : SubmitResult) : Prop := {
  ti_cqes need st1 : handle_pending (plan_fsync st) = Done (need, st1) -> cqes_ok st1 cqes;
  ti_sub : exists n, sub = Submitted n;
}.

Lemma turn_wf st cqes sub :
  engine_wf st -> turn_input st cqes sub ->
  exists st', turn st cqes sub = Done st' /\ engine_wf st' /\ conserves [] st st'.
Proof.
  intros Hwf [Hc (n & ->)]. unfold turn.
  destruct (plan_fsync_wf st Hwf) as [Hwf1 C1].
  destruct (handle_pending_wf _ Hwf1) as (need & st2 & E2 & Hwf2 & C2). rewrite E2. ostep.
  destruct (reap_cqes_ok st2 cqes Hwf2 (Hc _ _ E2)) as (st3 & E3 & Hwf3 & C3). rewrite E3. ostep.
  pose proof (conserves_trans [] [] _ _ _ C1 C2) as C12.
  pose proof (conserves_trans [] [] _ _ _ C12 C3) as C123.
  destruct (submit_n_wf st3 n Hwf3) as [Hwf4 C4].
  pose proof (conserves_trans [] [] _ _ _ C123 C4) as C.
  destruct (_ || _); [by eexists|]. destruct need; by eexists.
Qed.

(** *** Rotation *)

(** In every round of the drain the call succeeds or is interrupted, and the
    completions are of operations in flight. *)
Fixpoint rounds_ok st (rounds : list (SubmitResult * list Cqe)) : Prop :=
  match rounds with
  | [] => True
  | (r, cqes) :: rounds =>
      ((exists n, r = Submitted n) \/ r = SubmitErr EINTR) /\
      forall need st1 st2, handle_pending st = Done (need, st1) -> submit_ring_and_park st1 r = Done st2 ->
        cqes_ok st2 cqes /\ forall st3, reap_cqes st2 cqes = Done st3 -> rounds_ok st3 rounds
  end.

Lemma submit_park_wf st r :
  engine_wf st -> (exists n, r = Submitted n) \/ r = SubmitErr EINTR ->
  exists st', submit_ring_and_park st r = Done st' /\ engine_wf st' /\ conserves [] st st'.
Proof.
  intros Hwf [[n ->]| ->].
  - eexists. split; [done|]. by apply submit_n_wf.
  - exists st. split; [done|]. split; [done|by apply conserves_refl].
Qed.

Lemma rotate_drain_ok st rounds :
  engine_wf st -> rounds_ok st rounds ->
  exists fin st', rotate_drain st rounds = Done (fin, st') /\ engine_wf st' /\ conserves [] st st' /\
    (fin = true -> pending st' = [] /\ slab_view (inflight st') = ∅).
Proof.
  revert st. induction rounds as [|[r cqes] rounds IH]; intros st Hwf Hr; cbn [rotate_drain];
    destruct (negb (inflight_len st =? 0) || match pending st with [] => false | _ => true end) eqn:E.
  1,3: idtac.
  all: try (exists true, st; split; [done|split; [done|split; [by apply conserves_refl|intros _]]];
    apply orb_false_iff in E as [E1 E2]; split; [by destruct (pending st)|];
    apply negb_false_iff, Z.eqb_eq in E1; unfold inflight_len in E1; rewrite slab_len_view in E1;
    apply map_size_empty_iff; lia).
  - exists false, st. split; [done|]. split; [done|]. split; [by apply conserves_refl|done].
  - destruct Hr as [Hr Hrest].
    destruct (handle_pending_wf st Hwf) as (need & st1 & E1 & Hwf1 & C1).
    destruct (submit_park_wf st1 r Hwf1 Hr) as (st2 & E2 & Hwf2 & C2).
    destruct (Hrest need st1 st2 E1 E2) as [Hc Hn].
    destruct (reap_cqes_ok st2 cqes Hwf2 Hc) as (st3 & E3 & Hwf3 & C3).
    destruct (IH st3 Hwf3 (Hn st3 E3)) as (fin & st' & E4 & Hwf4 & C4 & Hfin).
    rewrite E1. ostep. rewrite E2. ostep. rewrite E3. ostep.
    exists fin, st'. split; [done|]. split; [done|]. split; [|done].
    apply (conserves_trans [] [] st st3 st'); [|done]. apply (conserves_trans [] [] st st2 st3); [|done].
    by apply (conserves_trans [] [] st st1 st2).
Qed.

(** ** Properties *)

(** C25: nothing is lost in the WAL engine: an iteration of its loop on admissible
    inputs does not panic, every batch buffer is still held or went back to the
    pool, and every response is still owed or was sent, each exactly once; the
    engine sleeps exactly when it has nothing queued or in flight and the channel
    is empty; and what it recycles is an emptied batch. *)
Theorem iteration_conserves st i :
  engine_wf st ->
  match in_recv i with Received (Write b) => ingestable st b | Empty => True | _ => False end ->
  (forall p st1, poll_channel_or_park st (in_recv i) = Done (p, st1) ->
   forall st2, match p with Msg (Write b) => handle_batch st1 b = Done st2 | _ => st2 = st1 end ->
     turn_input (match p with Msg _ => set_spin st2 DEFAULT_SPIN_BUDGET | _ => st2 end) (in_cqes i) (in_submit i)) ->
  exists goes_on st', iteration st i = Done (goes_on, st') /\ engine_wf st' /\
    conserves (match in_recv i with Received (Write b) => [b] | _ => [] end) st st' /\
    (goes_on = false <-> should_park st = true /\ in_recv i = Empty).
Proof.
  intros Hwf Hin Ht. unfold iteration.
  destruct (in_recv i) as [[b| |]| |] eqn:Er; try done; simpl poll_channel_or_park in *.
  - destruct (handle_batch_wf st b Hwf Hin) as (st1 & E1 & Hwf1 & C1). ostep. cbn [handle_msg]. rewrite E1. ostep.
    assert (engine_wf (set_spin st1 DEFAULT_SPIN_BUDGET)) as Hwf2 by (by destruct Hwf1; split).
    destruct (turn_wf _ (in_cqes i) (in_submit i) Hwf2 (Ht _ _ eq_refl st1 E1)) as (st' & E2 & Hwf' & C2).
    cbn [negb]. rewrite E2. ostep. exists true, st'. split; [done|]. split; [done|]. split; [|by split; [|intros []]].
    apply (conserves_trans [b] [] st st1 st'); [done|]. destruct C2 as [B1 B2]. by split.
  - destruct (should_park st) eqn:Ep.
    + ostep. exists false, st. split; [done|]. split; [done|]. split; [by apply conserves_refl|done].
    + ostep. assert (engine_wf (set_spin st (dec32 (spin_budget st)))) as Hwf2 by (by destruct Hwf; split).
      destruct (turn_wf _ (in_cqes i) (in_submit i) Hwf2 (Ht _ _ eq_refl _ eq_refl)) as (st' & E2 & Hwf' & C2).
      rewrite E2. ostep. exists true, st'. split; [done|]. split; [done|]. split; [|by split; [|intros []]].
      destruct C2 as [B1 B2]. by split.
Qed.

(** C28: the redo log: a batch that continues the LSN sequence is queued as one
    write at the segment's offset whose bytes are exactly the WAL records of its
    PUTs, numbered from [lsn_low + 1] in request order; the offset moves past
    them and the watermark to [lsn_hi].  A gap or reordering panics. *)
Theorem handle_batch_encodes st b :
  (ingestable st b ->
   exists st', handle_batch st b = Done st' /\
     let redo := recovery.wal_bytes (number (lsn_low b) (types.data <$> put_reqs (items b))) in
     pending st' = pending st ++
       [WriteWork (mk_write (mk_batch (items b) redo (lsn_low b) (lsn_hi b)) (segment.offset (seg st)) 0)] /\
     segment.offset (seg st') = segment.offset (seg st) + len redo /\
     last_ingested_lsn st' = lsn_hi b /\
     dirty_bytes (planner st') = add64 (dirty_bytes (planner st)) (len redo)) /\
  (lsn_low b <> last_ingested_lsn st -> handle_batch st b = Panic).
Proof.
  split.
  - intros Hb. rewrite handle_batch_ok by done. eexists. split; [done|]. by split_and!.
  - intros Hne. unfold handle_batch. by replace (lsn_low b =? last_ingested_lsn st) with false by lia_bool.
Qed.

(** Submission is first in, first out and bounded: [handle_pending] moves a
    prefix of the queue to the ring, in order, each entry describing its
    operation under the key it is in flight with; it stops only when the queue,
    the submission queue or the in-flight window is exhausted, and overflows
    neither of the latter. *)
Theorem handle_pending_fifo st :
  engine_wf st -> slab_len (inflight st) <= depth st -> len (sq (ring st)) <= sq_entries (ring st) ->
  exists need st' moved new,
    handle_pending st = Done (need, st') /\ pending st = moved ++ pending st' /\
    sq (ring st') = sq (ring st) ++ new /\
    pushed (segment.fd (seg st)) (inflight st) moved new (inflight st') /\
    slab_len (inflight st') <= depth st /\ len (sq (ring st')) <= sq_entries (ring st) /\
    (pending st' = [] \/ len (sq (ring st')) = sq_entries (ring st) \/ slab_len (inflight st') = depth st).
Proof.
  intros Hwf Hd Hq. destruct (handle_pending_ok st Hwf) as (moved & new & pend' & infl' & need & E & Ep & Hpu & Hs & H1 & H2).
  do 2 eexists. exists moved, new. split; [exact E|]. simpl. specialize (H1 Hd). specialize (H2 Hq).
  split_and!; try done. destruct Hs as [?|[?|?]]; [by left|right; left; lia|right; right; lia].
Qed.

(** When the drain of a rotation ends, nothing is left behind: every response
    has been sent and every buffer recycled before the new segment is opened,
    whatever was pending, in flight or waiting for an fsync. *)
Theorem rotate_releases_all st rounds open_file file_len boundary s :
  engine_wf st -> rounds_ok st rounds ->
  segment.open open_file file_len boundary = Done s ->
  exists fin st', rotate st rounds 0 open_file file_len boundary = Done (fin, st') /\
    engine_wf st' /\ conserves [] st st' /\
    (fin = true -> owed st' = [] /\ held st' = [] /\ seg st' = s /\ flush_running (planner st') = false).
Proof.
  intros Hwf Hr Hs. unfold rotate.
  destruct (rotate_drain_ok st rounds Hwf Hr) as (fin & st1 & E1 & Hwf1 & C1 & Hfin). rewrite E1. ostep.
  destruct fin; cbn [negb]; [|exists false, st1; by split_and!].
  destruct (Hfin eq_refl) as [Hp Hi].
  set (st2 := set_planner st1 _). assert (engine_wf st2) as Hwf2 by (by destruct Hwf1; split).
  assert (conserves [] st1 st2) as C2 by (by apply conserves_refl).
  cbn [assert_that Z.eqb]. ostep. rewrite release_awaiting_ok by (by destruct Hwf2).
  destruct (release_conserves st2 Hwf2) as [Hwf3 C3]. ostep. rewrite Hs.
  do 2 eexists. split; [done|]. split; [by destruct Hwf3; split|].
  pose proof (conserves_trans [] [] _ _ _ C1 C2) as C12.
  pose proof (conserves_trans [] [] _ _ _ C12 C3) as C.
  assert (held (set_seg (emit (set_awaiting st2 []) (awaiting_fsync st2 ≫= release_events (ack st2))) s) = []) as Hh.
  { unfold held, inflight_ops. simpl. by rewrite Hp, Hi. }
  split; [by destruct C; split|]. intros _. unfold owed. rewrite Hh. by split_and!.
Qed.

(** Retiring never unlinks the active segment: it panics when the active
    segment would be older than the boundary, and otherwise queues the removal of
    exactly the listed segments below the boundary, none of which is the active
    one. *)
Theorem retire_spares_active st segs boundary :
  (segment.start_lsn (seg st) < boundary -> retire st (Done segs) boundary = Panic) /\
  (boundary <= segment.start_lsn (seg st) ->
   Forall (fun s => Byte.x00 ∉ s.2) segs ->
   exists old, retire st (Done segs) boundary = Done (set_pending st (pending st ++ ((fun s => RemoveWork s.2) <$> old))) /\
     (forall s, s ∈ old <-> s ∈ segs /\ s.1 < boundary) /\
     Forall (fun s => s.1 <> segment.start_lsn (seg st)) old).
Proof.
  unfold retire. split; intros Hb.
  - by replace (segment.start_lsn (seg st) <? boundary) with true by lia_bool.
  - intros Hz. replace (segment.start_lsn (seg st) <? boundary) with false by lia_bool.
    set (old := filter _ segs).
    assert (forall s, s ∈ old <-> s ∈ segs /\ s.1 < boundary) as Ho.
    { intros s. unfold old. rewrite list_elem_of_filter. tauto. }
    exists old. split; [|split; [done|apply Forall_forall; intros s Hx; apply Ho in Hx; lia]].
    assert (forallb (fun s => negb (existsb (fun c => Byte.eqb c Byte.x00) s.2)) old = true) as ->; [|done].
    apply forallb_forall. intros s Hx%list_elem_of_In. apply Ho in Hx as [Hx _].
    apply negb_true_iff, not_true_iff_false. intros (c & Hc & Ec)%existsb_exists.
    apply Byte.byte_dec_bl in Ec as ->. rewrite Forall_forall in Hz. apply (Hz s Hx). by apply list_elem_of_In.
Qed.

End laws.

(** ** A concrete slab: a finite map whose vacant key is above all others *)

Definition next_key (l : list (N * IoWork)) : N := foldr (fun kw m => N.max (N.succ kw.1) m) 0%N l.

Lemma next_key_above l k w : (k, w) ∈ l -> (k < next_key l)%N.
Proof.
  induction l as [|[k' w'] l IH]; [by intros ?%not_elem_of_nil|].
  intros [[= <- <-]|Hin]%elem_of_cons; simpl; [lia|]. specialize (IH Hin). lia.
Qed.

#[export] Instance map_slab : Slab (gmap N IoWork) := {|
  slab_new := ∅;
  slab_len l := Z.of_nat (size l);
  slab_vacant_key l := next_key (map_to_list l);
  slab_insert l w := <[next_key (map_to_list l) := w]> l;
  slab_remove l k := match l !! k with Some w => Done (w, delete k l) | None => Panic end;
|}.

#[export] Program Instance map_slab_laws : SlabLaws (gmap N IoWork) := {| slab_view l := l |}.
Next Obligation. done. Qed.
Next Obligation. done. Qed.
Next Obligation.
  intros l. simpl. destruct (l !! next_key (map_to_list l)) as [w|] eqn:E; [|done].
  apply elem_of_map_to_list, next_key_above in E. lia.
Qed.
Next Obligation. done. Qed.
Next Obligation. intros l k w Hk. simpl in *. rewrite Hk. by eexists. Qed.
Next Obligation. intros l k Hk. simpl in *. by rewrite Hk. Qed.

(** ** Witnesses *)

Definition ex_put (k v : string) (c : N) : Request :=
  mk_request (wire.mk_body wire.OP_PUT (bstr k) (bstr v)) c (Some wire.RespOk).
Definition ex_batch : Batch := mk_batch [ex_put "k" "v" 5; ex_put "l" "w" 6] [] 1 3.
Definition ex_engine (m : Mode) : WalEngine (gmap N IoWork) :=
  mk_engine (bstr "d") 4 (mk_ring [] 4 []) [] ∅ DEFAULT_SPIN_BUDGET 1 (segment.mk_segment 3 0 1)
    (acker.new m) (fsync_planner.new (cadence_from m)) [] [].
Definition ex_input (r : Recv) : Input :=
  mk_input r [] 0 (fun _ => Done 9) (fun _ => Done 0) (Done []) [] (Submitted 2).

Lemma ex_engine_wf m : engine_wf (ex_engine m).
Proof. split; simpl; [constructor|apply map_Forall_empty|constructor|constructor]. Qed.

Lemma ex_ingestable m : ingestable (ex_engine m) ex_batch.
Proof.
  split; try reflexivity; try decide_vm; try (simpl; lia).
Qed.

Lemma iteration_conserves_witness :
  exists st', iteration (ex_engine Sync) (ex_input (Received (Write ex_batch))) = Done (true, st') /\
    length (held st') = 1%nat.
Proof.
  destruct (iteration_conserves (ex_engine Sync) (ex_input (Received (Write ex_batch))))
    as ([|] & st' & E & _ & [C _] & Hg).
  - apply ex_engine_wf.
  - apply ex_ingestable.
  - intros p st1 [= <- <-] st2 _. split; [|by exists 2%nat]. intros. split; constructor.
  - exists st'. split; [exact E|].
    assert (exists q, iteration (ex_engine Sync) (ex_input (Received (Write ex_batch))) = Done q /\
      length (held q.2) = 1%nat) as (q & Eq & Hq) by (eexists; split; vm_compute; reflexivity).
    rewrite E in Eq. injection Eq as <-. exact Hq.
  - destruct Hg as [Hg _]. destruct (Hg eq_refl) as [_ Hr]. discriminate Hr.
Defined.

Lemma handle_batch_encodes_witness :
  exists st', handle_batch (ex_engine Async) ex_batch = Done st' /\
    segment.offset (seg st') = len (recovery.wal_bytes [(2, wire.mk_body wire.OP_PUT (bstr "k") (bstr "v"));
                                                       (3, wire.mk_body wire.OP_PUT (bstr "l") (bstr "w"))]).
Proof.
  destruct (handle_batch_encodes (ex_engine Async) ex_batch) as [H _].
  destruct (H (ex_ingestable Async)) as (st' & E & _ & Ho & _). exists st'. split; [exact E|].
  rewrite Ho. reflexivity.
Defined.

Lemma handle_pending_fifo_witness :
  exists need st', handle_pending (ex_engine Sync) = Done (need, st') /\ sq (ring st') = [].
Proof.
  destruct (handle_pending_fifo (ex_engine Sync)) as (need & st' & moved & new & E & _ & _ & _ & _ & Hq & _);
    [apply ex_engine_wf|decide_vm|decide_vm|].
  exists need, st'. split; [exact E|]. vm_compute in E. by injection E as <- <-.
Defined.

(** A rotation that writes out a queued batch before it seals the segment. *)
Definition ex_queued : WalEngine (gmap N IoWork) :=
  match handle_batch (ex_engine Sync) ex_batch with Done st => st | _ => ex_engine Sync end.
Definition ex_rounds : list (SubmitResult * list Cqe) := [(Submitted 1, [mk_cqe 0 54])].

Lemma rotate_releases_all_witness :
  exists st', rotate ex_queued ex_rounds 0 (fun _ => Done 9) (fun _ => Done 0) 3 = Done (true, st') /\
    owed st' = [] /\ sent_of (trace st') = [(5%N, wire.RespOk); (6%N, wire.RespOk)].
Proof.
  assert (handle_batch (ex_engine Sync) ex_batch = Done ex_queued) as Eq by (vm_compute; reflexivity).
  destruct (handle_batch_wf (ex_engine Sync) ex_batch (ex_engine_wf Sync) (ex_ingestable Sync))
    as (q & E & Hwf & _). rewrite E in Eq. injection Eq as ->.
  destruct (rotate_releases_all ex_queued ex_rounds (fun _ => Done 9) (fun _ => Done 0) 3
    (segment.mk_segment 9 0 3)) as (fin & st' & Er & _ & _ & Hfin); [exact Hwf| |reflexivity|].
  - split; [left; by exists 1%nat|]. intros need st1 st2 E1 E2. vm_compute in E1. injection E1 as <- <-.
    vm_compute in E2. injection E2 as <-. split; [|done]. split; [vm_compute; constructor; [by intros ?%not_elem_of_nil|constructor]|].
    constructor; [|constructor]. eexists. split; [vm_compute; reflexivity|].
    split; [vm_compute; discriminate|]. intros o [= <-]. decide_vm.
  - assert (exists st, rotate ex_queued ex_rounds 0 (fun _ => Done 9) (fun _ => Done 0) 3 = Done (true, st) /\
      sent_of (trace st) = [(5%N, wire.RespOk); (6%N, wire.RespOk)]) as (st & E1 & E2)
      by (eexists; split; vm_compute; reflexivity).
    rewrite Er in E1. injection E1 as -> ->. exists st. split; [exact Er|].
    destruct (Hfin eq_refl) as [Ho _]. split; [exact Ho|exact E2].
Defined.

Lemma retire_spares_active_witness :
  exists old, retire (ex_engine Sync) (Done [(0, bstr "wal.0"); (1, bstr "wal.1")]) 1 =
    Done (set_pending (ex_engine Sync) ([] ++ ((fun s : Z * bytes => RemoveWork s.2) <$> old))) /\
    Forall (fun s : Z * bytes => s.1 <> 1) old.
Proof.
  destruct (retire_spares_active (ex_engine Sync) [(0, bstr "wal.0"); (1, bstr "wal.1")] 1) as [_ H].
  destruct H as (old & E & _ & Hf); [simpl; lia| |exists old; split; [exact E|exact Hf]].
  repeat constructor; apply (bool_decide_unpack _); vm_compute; exact I.
Defined.

End stage3.

#[export] Existing Instance stage3.map_slab.
#[export] Existing Instance stage3.map_slab_laws.
