(* ===== verification/Kernel.v ===== *)
(** * What the WAL engine relies on: io_uring and the page cache

    The kernel is not part of the repository.  [doc_step] states the documented
    behaviour of the operations the engine submits on one segment file: entries
    run in any order, except that one with [IO_DRAIN] waits for all entries
    submitted before it and holds back all later ones; a write moves a prefix of
    its buffer into the page cache, possibly in several steps; an fsync makes
    durable what the page cache held when it started; the page cache may reach
    the disk at any time; completions are queued in completion order.

    [Uring] is the interface the engine is verified against: any kernel whose
    steps are documented ones. *)

From S2P Require Import Prelude Types IoWork Stage3.
Local Open Scope Z_scope.

Module kernel.
Import io_work stage3.

(** The bytes of the segment by file position. *)
Abbreviation content := (gmap Z Init.Byte.byte).

Fixpoint write_at (m : content) (off : Z) (b : bytes) : content :=
  match b with
  | [] => m
  | x :: b => write_at (<[off := x]> m) (off + 1) b
  end.

(** An entry the kernel holds; [snap] is what a running fsync will make durable. *)
Record KOp := mk_kop { k_sqe : Sqe; snap : option content }.

Record Kernel := mk_kernel {
  ops : list KOp;        (* not completed, in submission order *)
  page : content;        (* what a running process would read *)
  disk : content;        (* what survives a power loss *)
  cq : list Cqe;         (* completions not reaped *)
}.

(** Whether an entry may run, given those before it. *)
Definition can_run (before : list KOp) (o : KOp) : Prop :=
  Forall (fun p => sq_drain (k_sqe p) = false) before /\ (sq_drain (k_sqe o) = true -> before = []).

Section doc.
(** The results a write of [n] bytes may have. *)
Variable write_result : Z -> Z -> Prop.

Inductive doc_step : Kernel -> Kernel -> Prop :=
| doc_write_part before e fd buf off after i j pg dk q :
    sq_op e = SqWrite fd buf off -> can_run before (mk_kop e None) -> (i <= j)%nat ->
    doc_step (mk_kernel (before ++ mk_kop e None :: after) pg dk q)
      (mk_kernel (before ++ mk_kop e None :: after)
        (write_at pg (off + Z.of_nat i) (take (j - i) (drop i buf))) dk q)
| doc_write_done before e fd buf off after r pg dk q :
    sq_op e = SqWrite fd buf off -> can_run before (mk_kop e None) ->
    r <= len buf -> write_result (len buf) r ->
    doc_step (mk_kernel (before ++ mk_kop e None :: after) pg dk q)
      (mk_kernel (before ++ after) (write_at pg off (take (Z.to_nat r) buf)) dk (q ++ [mk_cqe (user_data e) r]))
| doc_fsync_start before e fd ds after pg dk q :
    sq_op e = SqFsync fd ds -> can_run before (mk_kop e None) ->
    doc_step (mk_kernel (before ++ mk_kop e None :: after) pg dk q)
      (mk_kernel (before ++ mk_kop e (Some pg) :: after) pg dk q)
| doc_fsync_done before e s after r pg dk q :
    0 <= r ->
    doc_step (mk_kernel (before ++ mk_kop e (Some s) :: after) pg dk q)
      (mk_kernel (before ++ after) pg (s ∪ dk) (q ++ [mk_cqe (user_data e) r]))
| doc_fsync_failed before e s after r pg dk q :
    r < 0 ->
    doc_step (mk_kernel (before ++ mk_kop e (Some s) :: after) pg dk q)
      (mk_kernel (before ++ after) pg dk (q ++ [mk_cqe (user_data e) r]))
| doc_unlink_done before e p after r pg dk q :
    sq_op e = SqUnlinkAt p -> can_run before (mk_kop e None) ->
    doc_step (mk_kernel (before ++ mk_kop e None :: after) pg dk q)
      (mk_kernel (before ++ after) pg dk (q ++ [mk_cqe (user_data e) r]))
| doc_writeback m o pg dk q :
    m ⊆ pg -> doc_step (mk_kernel o pg dk q) (mk_kernel o pg (m ∪ dk) q).
End doc.

(** Any result; and a kernel whose writes are never short, interrupted or failing. *)
Definition any_result (n r : Z) : Prop := True.
Definition full_result (n r : Z) : Prop := r = n.

Definition submit_ops (k : Kernel) (es : list Sqe) : Kernel :=
  mk_kernel (ops k ++ ((fun e => mk_kop e None) <$> es)) (page k) (disk k) (cq k).
Definition take_cqes (k : Kernel) (n : nat) : Kernel :=
  mk_kernel (ops k) (page k) (disk k) (drop n (cq k)).

End kernel.

(** ** The interface *)

Class Uring (K : Type) := {
  ku_view : K -> kernel.Kernel;
  ku_step : K -> K -> Prop;
  ku_submit : K -> list io_work.Sqe -> K;    (* [io_uring_enter] takes entries *)
  ku_take : K -> nat -> K;                   (* the completion queue's head moves *)
}.

(** Its documented behaviour; the results of writes satisfy [write_result]. *)
Class UringLaws (K : Type) `{Uring K} (write_result : Z -> Z -> Prop) := {
  ku_step_doc k k' : ku_step k k' -> kernel.doc_step write_result (ku_view k) (ku_view k');
  ku_submit_doc k es : ku_view (ku_submit k es) = kernel.submit_ops (ku_view k) es;
  ku_take_doc k n : ku_view (ku_take k n) = kernel.take_cqes (ku_view k) n;
}.

Module kernel_laws.
Import kernel.

(** The documented kernel itself, for any constraint on the results. *)
Definition doc_kernel (write_result : Z -> Z -> Prop) : Type := Kernel.
#[export] Instance doc_uring R : Uring (doc_kernel R) := {|
  ku_view k := k; ku_step := doc_step R; ku_submit := submit_ops; ku_take := take_cqes |}.
#[export] Instance doc_uring_laws R : UringLaws (doc_kernel R) R.
Proof. by split. Qed.

(** Whether [z] is one of the [n] positions from [off]. *)
Definition within (off n z : Z) : bool := (off <=? z) && (z <? off + n).

Lemma within_spec off n z : within off n z = true <-> off <= z < off + n.
Proof. unfold within. lia. Qed.

Lemma write_at_lookup b m off z :
  write_at m off b !! z = (if within off (len b) z then b !! Z.to_nat (z - off) else m !! z).
Proof.
  revert m off. induction b as [|x b IH]; intros m off; cbn [write_at].
  - destruct (within off _ z) eqn:E; [|done]. apply within_spec in E. simpl in E. lia.
  - rewrite IH. destruct (within (off + 1) (len b) z) eqn:E1, (within off (len (x :: b)) z) eqn:E2.
    + apply within_spec in E1. replace (Z.to_nat (z - off)) with (S (Z.to_nat (z - (off + 1)))) by lia. done.
    + apply within_spec in E1. apply not_true_iff_false in E2. rewrite within_spec in E2. simpl in E2. lia.
    + apply within_spec in E2. apply not_true_iff_false in E1. rewrite within_spec in E1. simpl length in E2.
      replace z with off by lia. by rewrite lookup_insert_eq, Z.sub_diag.
    + apply not_true_iff_false in E2. rewrite within_spec in E2. simpl in E2.
      rewrite lookup_insert_ne; [done|lia].
Qed.

End kernel_laws.

#[export] Existing Instance kernel_laws.doc_uring.
#[export] Existing Instance kernel_laws.doc_uring_laws.
