(* ===== verification/Durability.v ===== *)
(** * Durability: what an acknowledgement of the WAL engine means

    The engine of [Stage3] and a documented kernel run concurrently ([wstep]:
    the operations of the engine's loop interleaved with kernel steps).  The
    proof goes through an abstract state [St] that keeps only what durability
    depends on; [sim] shows that every step of the world is a sequence of
    abstract steps, and [inv] is the invariant of those.

    Stage 2 sends only writes ([Stage2.run_main_loop_refines]), so one segment
    file is enough here. *)

From S2P Require Import Prelude Wire Types Acker FsyncPlanner IoWork Stage3 Kernel.
Local Open Scope Z_scope.

Module durability.
Import types acker fsync_planner io_work stage3 kernel kernel_laws.

(** ** The log and its bytes in the file *)

Section log.
(** The length of the segment file when it was opened. *)
Variable base : Z.

(** The file position of the [i]-th batch of the log. *)
Definition pos (log : list Batch) (i : nat) : Z := base + len (concat (out <$> take i log)).

(** Two views of the same batch, before and after its responses were sent. *)
Definition wal_eq (b b' : Batch) : Prop :=
  out b = out b' /\ lsn_low b = lsn_low b' /\ lsn_hi b = lsn_hi b'.
Definition at_index (log : list Batch) (i : nat) (b : Batch) : Prop :=
  exists b', log !! i = Some b' /\ wal_eq b b'.
Definition placed (log : list Batch) (o : WriteOp) (i : nat) : Prop :=
  at_index log i (io_work.data o) /\ io_work.offset o = pos log i.

Definition present (m : content) (lo hi : Z) : Prop := forall z, lo <= z < hi -> is_Some (m !! z).
Definition grows (m m' : content) : Prop := forall z, is_Some (m !! z) -> is_Some (m' !! z).
(** What is in the file from [base] on are bytes of the log. *)
Definition agrees (log : list Batch) (m : content) : Prop :=
  forall z x, m !! z = Some x -> base <= z -> concat (out <$> log) !! Z.to_nat (z - base) = Some x.

(** ** The abstract state *)

Record St := mk_st {
  pend : list IoWork;
  fl : gmap N IoWork;          (* in flight *)
  subq : list Sqe;             (* pushed, not yet taken by the kernel *)
  kern : Kernel;
  aw : list Batch;             (* waiting for an fsync *)
  acked : list Batch;          (* acknowledged as durable *)
  lg : list Batch;             (* the batches ingested so far, as encoded *)
}.

(** The engine's steps. *)
Inductive astep : St -> St -> Prop :=
| a_ingest p f q k a c l b :
    write_ok (mk_write b (pos l (length l)) 0) ->
    astep (mk_st p f q k a c l) (mk_st (p ++ [write b (pos l (length l))]) f q k a c (l ++ [b]))
| a_arm p f q k a c l t :
    astep (mk_st p f q k a c l) (mk_st (p ++ [FsyncWork t]) f q k a c l)
| a_push w p f q k a c l key fd e :
    f !! key = None -> sqe w fd key = Done e ->
    astep (mk_st (w :: p) f q k a c l) (mk_st p (<[key := w]> f) (q ++ [e]) k a c l)
| a_submit p f q k a c l n :
    astep (mk_st p f q k a c l) (mk_st p f (drop n q) (submit_ops k (take n q)) a c l)
| a_reap_write p f q op pg dk cqe cq a c l o b' more :
    f !! cq_user_data cqe = Some (WriteWork o) -> 0 <= cq_result cqe ->
    done o + cq_result cqe = len (out (io_work.data o)) ->
    wal_eq b' (io_work.data o) -> more = [] \/ more = [b'] ->
    astep (mk_st p f q (mk_kernel op pg dk (cqe :: cq)) a c l)
      (mk_st p (delete (cq_user_data cqe) f) q (mk_kernel op pg dk cq) (a ++ more) c l)
| a_reap_retry p f q op pg dk cqe cq a c l o :
    f !! cq_user_data cqe = Some (WriteWork o) ->
    (0 <= cq_result cqe -> done o + cq_result cqe < len (out (io_work.data o))) ->
    (cq_result cqe < 0 -> cq_result cqe = - EINTR \/ cq_result cqe = - EAGAIN) ->
    astep (mk_st p f q (mk_kernel op pg dk (cqe :: cq)) a c l)
      (mk_st (WriteWork (mk_write (io_work.data o) (io_work.offset o) (done o + Z.max 0 (cq_result cqe))) :: p)
        (delete (cq_user_data cqe) f) q (mk_kernel op pg dk cq) a c l)
| a_reap_fsync p f q op pg dk cqe cq a c l t :
    f !! cq_user_data cqe = Some (FsyncWork t) -> 0 <= cq_result cqe ->
    astep (mk_st p f q (mk_kernel op pg dk (cqe :: cq)) a c l)
      (mk_st p (delete (cq_user_data cqe) f) q (mk_kernel op pg dk cq) [] (c ++ a) l)
| a_reap_remove p f q op pg dk cqe cq a c l path :
    f !! cq_user_data cqe = Some (RemoveWork path) ->
    astep (mk_st p f q (mk_kernel op pg dk (cqe :: cq)) a c l)
      (mk_st p (delete (cq_user_data cqe) f) q (mk_kernel op pg dk cq) a c l).

(** ** Facts about positions *)

Lemma pos_app l1 l2 i : (i <= length l1)%nat -> pos (l1 ++ l2) i = pos l1 i.
Proof. intros Hi. unfold pos. by rewrite take_app_le. Qed.

Lemma pos_S l i b : l !! i = Some b -> pos l (S i) = pos l i + len (out b).
Proof.
  intros Hi. unfold pos. rewrite (take_S_r _ _ _ Hi), fmap_app, concat_app. simpl. len_lia.
Qed.

Lemma pos_le l i j : (i <= j)%nat -> pos l i <= pos l j.
Proof.
  intros Hij. unfold pos. replace (take j l) with (take i l ++ take (j - i) (drop i l)).
  - rewrite fmap_app, concat_app. len_lia.
  - rewrite take_take_drop. f_equal. lia.
Qed.

Lemma pos_base l i : base <= pos l i.
Proof. unfold pos. lia. Qed.

Lemma at_index_app l1 l2 i b : at_index l1 i b -> at_index (l1 ++ l2) i b /\ (i < length l1)%nat.
Proof.
  intros (b' & Hi & He). pose proof (lookup_lt_Some _ _ _ Hi). split; [|done].
  exists b'. by rewrite lookup_app_l.
Qed.

Lemma at_index_S l i b : at_index l i b -> pos l (S i) = pos l i + len (out b).
Proof. intros (b' & Hi & He & _). by rewrite He, (pos_S _ _ _ Hi). Qed.

Lemma placed_app l1 l2 o i : placed l1 o i -> placed (l1 ++ l2) o i.
Proof.
  intros [Ha Ho]. destruct (at_index_app l1 l2 i _ Ha). split; [done|]. rewrite pos_app; [done|lia].
Qed.

Lemma grows_refl m : grows m m.
Proof. by intros z. Qed.
Lemma present_grows m m' lo hi : grows m m' -> present m lo hi -> present m' lo hi.
Proof. intros Hg Hp z Hz. by apply Hg, Hp. Qed.
Lemma grows_write_at m off b : grows m (write_at m off b).
Proof.
  intros z Hz. rewrite write_at_lookup. destruct (within off (len b) z) eqn:E; [|done].
  apply within_spec in E. apply lookup_lt_is_Some. lia.
Qed.
Lemma grows_union_r m m' : grows m (m' ∪ m).
Proof. intros z [x Hz]. rewrite lookup_union, Hz. destruct (m' !! z); by eexists. Qed.
Lemma grows_union_l m m' : grows m (m ∪ m').
Proof. intros z [x Hz]. exists x. by apply lookup_union_Some_l. Qed.

Lemma present_write_at m off b lo :
  present m lo off -> lo <= off -> present (write_at m off b) lo (off + len b).
Proof.
  intros Hp Hlo z Hz. rewrite write_at_lookup. destruct (within off (len b) z) eqn:E.
  - apply within_spec in E. apply lookup_lt_is_Some. lia.
  - apply Hp. apply not_true_iff_false in E. rewrite within_spec in E. lia.
Qed.

(** A byte of a placed batch is a byte of the log. *)
Lemma log_byte l i b z :
  at_index l i b -> pos l i <= z < pos l i + len (out b) ->
  concat (out <$> l) !! Z.to_nat (z - base) = out b !! Z.to_nat (z - pos l i).
Proof.
  intros (b' & Hi & Ho & _) Hz. rewrite Ho in *.
  pose proof (take_drop_middle _ _ _ Hi) as Hl. rewrite <- Hl at 1.
  rewrite fmap_app, concat_app, fmap_cons. cbn [concat]. unfold pos in *.
  rewrite lookup_app_r by lia. rewrite lookup_app_l by lia. f_equal. lia.
Qed.

Lemma agrees_app l1 l2 m : agrees l1 m -> agrees (l1 ++ l2) m.
Proof.
  intros Ha z x Hz Hb. specialize (Ha z x Hz Hb). rewrite fmap_app, concat_app.
  by apply lookup_app_l_Some.
Qed.

Lemma agrees_union l m m' : agrees l m -> agrees l m' -> agrees l (m ∪ m').
Proof. intros H1 H2 z x [Hz|[_ Hz]]%lookup_union_Some_raw; [by apply H1|by apply H2]. Qed.

Lemma agrees_subset l m m' : m' ⊆ m -> agrees l m -> agrees l m'.
Proof. intros Hs Ha z x Hz. apply Ha. by eapply lookup_weaken. Qed.

(** Writing a part of a placed batch at its position keeps the agreement. *)
Lemma agrees_write l i b m k buf :
  at_index l i b -> agrees l m -> 0 <= k ->
  (forall n x, buf !! n = Some x -> out b !! (Z.to_nat k + n)%nat = Some x) ->
  agrees l (write_at m (pos l i + k) buf).
Proof.
  intros Hi Ha Hk Hb z x Hz Hbz. rewrite write_at_lookup in Hz.
  destruct (within (pos l i + k) (len buf) z) eqn:E; [|by apply Ha].
  apply within_spec in E. apply Hb in Hz. pose proof (lookup_lt_Some _ _ _ Hz).
  rewrite (log_byte l i b) by (done || lia). rewrite <- Hz. f_equal. lia.
Qed.

End log.

(** ** The invariant *)

(** Membership in concatenations. *)
Ltac in_app := repeat rewrite ?elem_of_app, ?elem_of_cons in *; tauto.

Section inv.
Variable base : Z.
(** [good l m i]: what an acknowledgement of the [i]-th batch promises about the
    bytes [m]; more bytes and more batches do not break the promise. *)
Variable good : list Batch -> content -> nat -> Prop.

Record good_laws : Prop := {
  good_grows l m m' i : grows m m' -> good l m i -> good l m' i;
  good_app l l' m i : (i < length l)%nat -> good l m i -> good (l ++ l') m i;
}.

Definition op_fine (l : list Batch) (pg : content) (w : IoWork) : Prop :=
  match w with
  | WriteWork o =>
      write_ok o /\ (exists i, placed base l o i) /\
      present pg (io_work.offset o) (io_work.offset o + done o)
  | _ => True
  end.

Definition keys (s : St) : list N :=
  (user_data <$> subq s) ++ ((fun o => user_data (k_sqe o)) <$> ops (kern s)) ++ (cq_user_data <$> cq (kern s)).

(** The completion [c] ends the write [o]. *)
Definition finishes (f : gmap N IoWork) (c : Cqe) (o : WriteOp) : Prop :=
  f !! cq_user_data c = Some (WriteWork o) /\ 0 <= cq_result c /\
  done o + cq_result c = len (out (io_work.data o)).

(** The promise holds in [m] for the batches [a] and for those whose write ends
    with a completion of [q]. *)
Definition secured (l : list Batch) (f : gmap N IoWork) (m : content) (a : list Batch) (q : list Cqe) : Prop :=
  (forall b, b ∈ a -> exists i, at_index l i b /\ good l m i) /\
  (forall c o, c ∈ q -> finishes f c o -> exists i, placed base l o i /\ good l m i).

Record inv (s : St) : Prop := {
  i_pend w : w ∈ pend s -> op_fine (lg s) (page (kern s)) w;
  i_fl k w : fl s !! k = Some w -> op_fine (lg s) (page (kern s)) w;
  i_keys : NoDup (keys s);
  i_sqe e : e ∈ subq s ++ (k_sqe <$> ops (kern s)) ->
    exists w fd, fl s !! user_data e = Some w /\ sqe w fd (user_data e) = Done e;
  i_cq c : c ∈ cq (kern s) -> exists w, fl s !! cq_user_data c = Some w /\
    forall o, w = WriteWork o -> cq_result c <= len (out (io_work.data o)) - done o /\
      (0 <= cq_result c ->
       present (page (kern s)) (io_work.offset o) (io_work.offset o + done o + cq_result c));
  i_page : agrees base (lg s) (page (kern s));
  i_disk : agrees base (lg s) (disk (kern s));
  i_aw b : b ∈ aw s -> exists i, at_index (lg s) i b /\
    present (page (kern s)) (pos base (lg s) i) (pos base (lg s) (S i));
  i_run o m : o ∈ ops (kern s) -> snap o = Some m ->
    head (ops (kern s)) = Some o /\ sq_drain (k_sqe o) = true /\ agrees base (lg s) m /\
    secured (lg s) (fl s) m (aw s) (cq (kern s));
  i_done q1 c q2 t : cq (kern s) = q1 ++ c :: q2 ->
    fl s !! cq_user_data c = Some (FsyncWork t) -> 0 <= cq_result c ->
    secured (lg s) (fl s) (disk (kern s)) (aw s) q1;
  i_acked b : b ∈ acked s -> exists i, at_index (lg s) i b /\ good (lg s) (disk (kern s)) i;
}.

Context (G : good_laws).

Lemma op_fine_grows l pg pg' w : grows pg pg' -> op_fine l pg w -> op_fine l pg' w.
Proof. intros Hg. destruct w; simpl; [|done..]. intros (?&?&?). split_and!; [done..|]. by eapply present_grows. Qed.

Lemma op_fine_app l l' pg w : op_fine l pg w -> op_fine (l ++ l') pg w.
Proof. destruct w; simpl; [|done..]. intros (?&(i&Hi)&?). split_and!; [done| |done]. exists i. by apply placed_app. Qed.

Lemma secured_app l l' f m a q : secured l f m a q -> secured (l ++ l') f m a q.
Proof.
  intros [H1 H2]. split.
  - intros b (i & Hi & Hg)%H1. exists i. destruct (at_index_app l l' i b Hi). split; [done|]. by apply good_app.
  - intros c o Hc Hf. destruct (H2 c o Hc Hf) as (i & Hi & Hg). exists i. split; [by apply placed_app|].
    destruct Hi as [Hi _]. destruct (at_index_app l l' i _ Hi). by apply good_app.
Qed.

Lemma secured_grows l f m m' a q : grows m m' -> secured l f m a q -> secured l f m' a q.
Proof.
  intros Hg [H1 H2]. split.
  - intros b (i & Hi & Hgo)%H1. exists i. split; [done|]. by eapply good_grows.
  - intros c o Hc Hf. destruct (H2 c o Hc Hf) as (i & Hi & Hgo). exists i. split; [done|]. by eapply good_grows.
Qed.

(** New in-flight keys do not matter to completions that are there already. *)
Lemma secured_fl l f f' m a q :
  (forall c, c ∈ q -> f' !! cq_user_data c = f !! cq_user_data c) -> secured l f m a q -> secured l f' m a q.
Proof.
  intros Hf [H1 H2]. split; [done|]. intros c o Hc (F1 & F2 & F3). apply (H2 c o Hc).
  split_and!; [|done..]. by rewrite <- Hf.
Qed.

(** *** Steps of the engine's side *)

Lemma inv_ingest s b :
  inv s -> write_ok (mk_write b (pos base (lg s) (length (lg s))) 0) ->
  inv (mk_st (pend s ++ [write b (pos base (lg s) (length (lg s)))]) (fl s) (subq s) (kern s) (aw s) (acked s) (lg s ++ [b])).
Proof.
  intros [P F Ks E C Pg D A R Q W] Hw. split; simpl.
  - intros w [Hin|Hin]%elem_of_app; [by apply op_fine_app, P|]. apply list_elem_of_singleton in Hin as ->.
    simpl. split; [done|]. split.
    + exists (length (lg s)). split; [|by rewrite pos_app]. exists b. simpl. by rewrite lookup_app_r, Nat.sub_diag.
    + intros z Hz. simpl in Hz. lia.
  - intros k w Hk. by apply op_fine_app, (F k).
  - done.
  - done.
  - done.
  - by apply agrees_app.
  - by apply agrees_app.
  - intros x (i & Hi & Hp)%A. exists i. destruct (at_index_app _ [b] _ _ Hi). split; [done|].
    rewrite !pos_app by lia. done.
  - intros o m Ho Hs. destruct (R o m Ho Hs) as (R1 & R2 & R3 & R4). split_and!; [done..| |].
    + by apply agrees_app.
    + by apply secured_app.
  - intros q1 c q2 t Hq Hc Hr. by apply secured_app, (Q q1 c q2 t).
  - intros x (i & Hi & Hg)%W. exists i. destruct (at_index_app _ [b] _ _ Hi). split; [done|]. by apply good_app.
Qed.

Lemma inv_arm s t :
  inv s -> inv (mk_st (pend s ++ [FsyncWork t]) (fl s) (subq s) (kern s) (aw s) (acked s) (lg s)).
Proof.
  intros [P F Ks E C Pg D A R Q W]. split; simpl; try done.
  intros w [Hin|Hin]%elem_of_app; [by apply P|]. by apply list_elem_of_singleton in Hin as ->.
Qed.

Lemma sqe_user_data w fd key e : sqe w fd key = Done e -> user_data e = key.
Proof.
  destruct w; simpl; [|by intros [= <-]..].
  destruct (slice_from _ _); simpl; [by intros [= <-]|done|done].
Qed.

Lemma keys_fl s k : inv s -> k ∈ keys s -> is_Some (fl s !! k).
Proof.
  intros I. unfold keys. rewrite !elem_of_app, !list_elem_of_fmap.
  intros [(e & -> & He)|[(o & -> & Ho)|(c & -> & Hc)]].
  - destruct (i_sqe s I e) as (w & fd & Hw & _); [in_app|eauto].
  - destruct (i_sqe s I (k_sqe o)) as (w & fd & Hw & _); [|eauto].
    apply elem_of_app. right. by apply list_elem_of_fmap_2.
  - destruct (i_cq s I c Hc) as (w & Hw & _). eauto.
Qed.

Lemma cq_key s c : c ∈ cq (kern s) -> cq_user_data c ∈ keys s.
Proof. intros Hc. unfold keys. rewrite !elem_of_app. right; right. by apply list_elem_of_fmap_2. Qed.
Lemma sqe_key s e : e ∈ subq s ++ (k_sqe <$> ops (kern s)) -> user_data e ∈ keys s.
Proof.
  unfold keys. rewrite !elem_of_app. intros [He|(o & -> & Ho)%list_elem_of_fmap].
  - left. by apply list_elem_of_fmap_2.
  - right; left. apply list_elem_of_fmap. by exists o.
Qed.

Lemma inv_push s w p key fd e :
  inv s -> pend s = w :: p -> fl s !! key = None -> sqe w fd key = Done e ->
  inv (mk_st p (<[key := w]> (fl s)) (subq s ++ [e]) (kern s) (aw s) (acked s) (lg s)).
Proof.
  intros I Hp Hk He. pose proof (sqe_user_data _ _ _ _ He) as Hud.
  assert (forall k, k ∈ keys s -> <[key := w]> (fl s) !! k = fl s !! k) as Hf.
  { intros k [x Hx]%keys_fl; [|done]. apply lookup_insert_ne. congruence. }
  assert (key ∉ keys s) as Hnk by (intros [x Hx]%keys_fl; [congruence|done]).
  pose proof I as [P F Ks E C Pg D A R Q W]. split; simpl.
  - intros x Hx. apply P. rewrite Hp. by constructor.
  - intros k x [[<- <-]|[_ Hx]]%lookup_insert_Some; [|by apply (F k)]. apply P. rewrite Hp. by constructor.
  - unfold keys in *. simpl. rewrite fmap_app, <- app_assoc. simpl.
    rewrite Hud, <- Permutation_middle. by constructor.
  - intros x Hx. rewrite <- app_assoc in Hx. simpl in Hx.
    apply elem_of_app in Hx as [Hx|[->|Hx]%elem_of_cons].
    + destruct (E x) as (w' & fd' & E1 & E2); [in_app|]. exists w', fd'.
      rewrite Hf; [done|]. apply sqe_key. in_app.
    + exists w, fd. by rewrite Hud, lookup_insert_eq.
    + destruct (E x) as (w' & fd' & E1 & E2); [in_app|]. exists w', fd'.
      rewrite Hf; [done|]. apply sqe_key. in_app.
  - intros c Hc. rewrite Hf by (by apply cq_key). by apply C.
  - done.
  - done.
  - done.
  - intros o m Ho Hs. destruct (R o m Ho Hs) as (R1 & R2 & R3 & R4). split_and!; [done..|].
    eapply secured_fl; [|exact R4]. intros c Hc. by apply Hf, cq_key.
  - intros q1 c q2 t Hq Hc Hr. rewrite Hf in Hc by (apply cq_key; rewrite Hq; in_app).
    eapply secured_fl; [|by eapply Q]. intros c' Hc'. apply Hf, cq_key. rewrite Hq. in_app.
  - done.
Qed.

Lemma inv_submit s n :
  inv s ->
  inv (mk_st (pend s) (fl s) (drop n (subq s)) (submit_ops (kern s) (take n (subq s))) (aw s) (acked s) (lg s)).
Proof.
  intros [P F Ks E C Pg D A R Q W]. split; simpl; try done.
  - unfold keys in *. simpl. rewrite fmap_app, <- list_fmap_compose.
    change ((fun o => user_data (k_sqe o)) ∘ (fun e => mk_kop e None)) with user_data.
    rewrite <- (take_drop n (subq s)), fmap_app in Ks.
    match goal with |- NoDup ?l => match type of Ks with NoDup ?l' =>
      assert (l ≡ₚ l') as -> by solve_Permutation end end. done.
  - intros e He. assert (e ∈ subq s ++ (k_sqe <$> ops (kern s)) -> exists w fd, fl s !! user_data e = Some w /\ sqe w fd (user_data e) = Done e) as E0 by apply E.
    rewrite fmap_app, <- list_fmap_compose in He.
    change (k_sqe ∘ (fun e => mk_kop e None)) with (fun e : Sqe => e) in He. rewrite list_fmap_id in He.
    apply E0. rewrite <- (take_drop n (subq s)). in_app.
  - intros o m [Ho|Ho]%elem_of_app Hs.
    + destruct (R o m Ho Hs) as (R1 & R2 & R3 & R4). split; [|done]. by destruct (ops (kern s)).
    + apply list_elem_of_fmap in Ho as (e & -> & _). done.
Qed.

(** *** Reaping a completion *)

Lemma at_index_eq l i b b' : wal_eq b b' -> at_index l i b' -> at_index l i b.
Proof.
  intros (E1 & E2 & E3) (x & Hx & F1 & F2 & F3). exists x. split; [done|]. by split_and!; etransitivity.
Qed.

Lemma secured_pop l f m a a' c q :
  (forall c', c' ∈ q -> delete (cq_user_data c) f !! cq_user_data c' = f !! cq_user_data c') ->
  (forall b, b ∈ a' -> b ∈ a \/ exists o, finishes f c o /\ wal_eq b (io_work.data o)) ->
  secured l f m a (c :: q) -> secured l (delete (cq_user_data c) f) m a' q.
Proof.
  intros Hf Ha [H1 H2]. split.
  - intros b [Hb|(o & Ho & Hw)]%Ha; [by apply H1|].
    destruct (H2 c o) as (i & [Hi _] & Hg); [by left|done|]. exists i. split; [|done]. by eapply at_index_eq.
  - intros c' o Hc' (F1 & F2 & F3). apply (H2 c'); [by right|]. rewrite Hf in F1 by done. done.
Qed.

(** The completion at the head of the queue is consumed. *)
Lemma inv_pop s c q p' a' k' :
  inv s -> cq (kern s) = c :: q ->
  (forall w, w ∈ p' -> op_fine (lg s) (page (kern s)) w) ->
  (forall b, b ∈ a' -> b ∈ aw s \/ exists o, finishes (fl s) c o /\ wal_eq b (io_work.data o)) ->
  (forall b, b ∈ k' -> b ∈ acked s \/
     (b ∈ aw s /\ 0 <= cq_result c /\ exists t, fl s !! cq_user_data c = Some (FsyncWork t))) ->
  inv (mk_st p' (delete (cq_user_data c) (fl s)) (subq s)
        (mk_kernel (ops (kern s)) (page (kern s)) (disk (kern s)) q) a' k' (lg s)).
Proof.
  intros [P F Ks E C Pg D A R Q W] Hq Hp Ha Hk. unfold keys in *. rewrite Hq in *.
  rewrite app_assoc, fmap_cons, <- Permutation_middle, <- app_assoc in Ks.
  apply NoDup_cons in Ks as [Hnk Ks]. rewrite !elem_of_app in Hnk.
  assert (forall c', c' ∈ q -> delete (cq_user_data c) (fl s) !! cq_user_data c' = fl s !! cq_user_data c') as Hf.
  { intros c' Hc'. apply lookup_delete_ne. intros Hc. apply Hnk. right; right. rewrite Hc.
    by apply list_elem_of_fmap_2. }
  split; simpl.
  - done.
  - intros k w [_ Hw]%lookup_delete_Some. by apply (F k).
  - done.
  - intros e He. destruct (E e He) as (w & fd & E1 & E2). exists w, fd. split; [|done].
    rewrite lookup_delete_ne; [done|]. intros Hc. apply Hnk. rewrite Hc.
    apply elem_of_app in He as [He|(o & -> & Ho)%list_elem_of_fmap]; [left; by apply list_elem_of_fmap_2|].
    right; left. apply list_elem_of_fmap. by exists o.
  - intros c' Hc'. rewrite Hf by done. apply C. by right.
  - done.
  - done.
  - intros b [Hb|(o & (F1 & F2 & F3) & Hw)]%Ha; [by apply A|].
    destruct (F _ _ F1) as (Hok & (i & [Hi Ho]) & _). exists i. split; [by eapply at_index_eq|].
    destruct (C c) as (w & Hw' & Hc); [by left|]. rewrite F1 in Hw'. injection Hw' as <-.
    destruct (Hc o eq_refl) as [_ Hpr]. specialize (Hpr F2).
    rewrite (at_index_S _ _ _ _ Hi), <- Ho, <- F3, Z.add_assoc. done.
  - intros o m Ho Hs. destruct (R o m Ho Hs) as (R1 & R2 & R3 & R4). split_and!; try done; by eapply secured_pop.
  - intros q1 c' q2 t Hq' Hc Hr. apply (secured_pop _ _ _ (aw s)); [|done|].
    + intros x Hx. apply Hf. rewrite Hq'. in_app.
    + rewrite Hf in Hc by (rewrite Hq'; in_app). apply (Q (c :: q1) c' q2 t); [by rewrite Hq'|done|done].
  - intros b [Hb|(Hb & Hr & t & Ht)]%Hk; [by apply W|].
    destruct (Q [] c q t eq_refl Ht Hr) as [H1 _]. by apply H1.
Qed.

(** *** Steps of the kernel *)

(** An entry whose turn it is runs alone with no fsync: no snapshot exists. *)
Lemma no_snap s before o after x m :
  inv s -> ops (kern s) = before ++ o :: after -> can_run before o -> snap o = None ->
  x ∈ ops (kern s) -> snap x = Some m -> False.
Proof.
  intros I Ho [Hb _] Hn Hx Hs. destruct (i_run s I x m Hx Hs) as (Hh & Hd & _).
  rewrite Ho in Hh. destruct before as [|y before]; simpl in Hh; injection Hh as ->; [congruence|].
  apply Forall_cons in Hb as [Hb _]. congruence.
Qed.

(** A running fsync is the first entry, and there is no other. *)
Lemma snap_head s before o after m :
  inv s -> ops (kern s) = before ++ o :: after -> snap o = Some m ->
  before = [] /\ forall x, x ∈ after -> snap x = None.
Proof.
  intros I Ho Hs. pose proof (i_keys s I) as Ks. unfold keys in Ks. rewrite Ho in Ks.
  apply NoDup_app in Ks as (_ & _ & Ks). apply NoDup_app in Ks as (Ks & _ & _).
  destruct (i_run s I o m) as (Hh & _); [rewrite Ho; in_app|done|]. rewrite Ho in Hh.
  assert (before = []) as ->.
  { destruct before as [|y before]; [done|]. simpl in Hh. injection Hh as ->.
    apply NoDup_cons in Ks as [Hn _]. destruct Hn. apply list_elem_of_fmap. eexists. split; [reflexivity|in_app]. }
  split; [done|]. intros x Hx. destruct (snap x) as [m'|] eqn:Ex; [|done].
  destruct (i_run s I x m') as (Hh' & _); [rewrite Ho; in_app|done|]. rewrite Ho in Hh'. injection Hh' as ->.
  apply NoDup_cons in Ks as [Hn _]. destruct Hn. apply list_elem_of_fmap. by exists x.
Qed.

(** The write behind an entry. *)
Lemma entry_write s before o after fd buf off :
  inv s -> ops (kern s) = before ++ o :: after -> sq_op (k_sqe o) = SqWrite fd buf off ->
  exists w i, fl s !! user_data (k_sqe o) = Some (WriteWork w) /\ write_ok w /\ placed base (lg s) w i /\
    present (page (kern s)) (io_work.offset w) (io_work.offset w + done w) /\
    off = io_work.offset w + done w /\
    buf = take (Z.to_nat (as_u32 (len (out (io_work.data w)) - done w))) (drop (Z.to_nat (done w)) (out (io_work.data w))).
Proof.
  intros I Ho Hop. destruct (i_sqe s I (k_sqe o)) as (w & fd' & Hw & He).
  { rewrite Ho, fmap_app, fmap_cons. in_app. }
  pose proof (i_fl s I _ _ Hw) as Hf.
  destruct w as [w|t|p]; simpl in Hf; [|by injection He as He; rewrite <- He in Hop..].
  destruct Hf as (Hok & (i & Hi) & Hp). exists w, i. rewrite sqe_write in He by done. injection He as He.
  rewrite <- He in Hop. simpl in Hop. injection Hop as _ <- <-. done.
Qed.

Definition set_kern (s : St) (k : Kernel) : St := mk_st (pend s) (fl s) (subq s) k (aw s) (acked s) (lg s).

Lemma inv_page s pg :
  inv s -> grows (page (kern s)) pg -> agrees base (lg s) pg ->
  inv (set_kern s (mk_kernel (ops (kern s)) pg (disk (kern s)) (cq (kern s)))).
Proof.
  intros [P F Ks E C Pg D A R Q W] Hg Ha. split; simpl; try done.
  - intros w Hw. by eapply op_fine_grows, P.
  - intros k w Hw. by eapply op_fine_grows, F.
  - intros c Hc. destruct (C c Hc) as (w & Hw & H). exists w. split; [done|].
    intros o Ho. destruct (H o Ho) as [H1 H2]. split; [done|]. intros Hr. by eapply present_grows, H2.
  - intros b (i & Hi & Hp)%A. exists i. split; [done|]. by eapply present_grows.
Qed.

Lemma inv_disk s dk :
  inv s -> grows (disk (kern s)) dk -> agrees base (lg s) dk ->
  inv (set_kern s (mk_kernel (ops (kern s)) (page (kern s)) dk (cq (kern s)))).
Proof.
  intros [P F Ks E C Pg D A R Q W] Hg Ha. split; simpl; try done.
  - intros q1 c q2 t Hq Hc Hr. eapply secured_grows; [exact Hg|]. by eapply Q.
  - intros b (i & Hi & Hp)%W. exists i. split; [done|]. by eapply good_grows.
Qed.

(** An entry completes; its effect on the contents is already there. *)
Lemma inv_complete s before o after c :
  inv s -> ops (kern s) = before ++ o :: after -> cq_user_data c = user_data (k_sqe o) ->
  (forall x, x ∈ before ++ after -> snap x = None) ->
  (forall w, fl s !! cq_user_data c = Some (WriteWork w) ->
     cq_result c <= len (out (io_work.data w)) - done w /\
     (0 <= cq_result c ->
      present (page (kern s)) (io_work.offset w) (io_work.offset w + done w + cq_result c))) ->
  (forall t, fl s !! cq_user_data c = Some (FsyncWork t) -> 0 <= cq_result c ->
     secured (lg s) (fl s) (disk (kern s)) (aw s) (cq (kern s))) ->
  inv (set_kern s (mk_kernel (before ++ after) (page (kern s)) (disk (kern s)) (cq (kern s) ++ [c]))).
Proof.
  intros I Ho Hud Hns Hw Hfs. pose proof I as [P F Ks E C Pg D A R Q W]. unfold keys in *. rewrite Ho in *.
  split; simpl; try done.
  - unfold keys. simpl. rewrite !fmap_app in *. simpl in *. rewrite Hud.
    match goal with |- NoDup ?l => match type of Ks with NoDup ?l' =>
      assert (l ≡ₚ l') as -> by solve_Permutation end end. done.
  - intros e He. apply E. rewrite !fmap_app in *. simpl. in_app.
  - intros x [Hx|Hx%list_elem_of_singleton]%elem_of_app; [by apply C|subst x].
    destruct (E (k_sqe o)) as (w & fd & Hf & _); [rewrite !fmap_app; simpl; in_app|].
    exists w. rewrite Hud. split; [done|]. intros w' ->. apply Hw. by rewrite Hud.
  - intros x m Hx Hs. by rewrite Hns in Hs.
  - intros q1 x q2 t Hq Hx Hr. destruct q2 as [|y q2 _] using rev_ind.
    + apply app_inj_tail in Hq as [<- <-]. by apply (Hfs t).
    + rewrite app_comm_cons, app_assoc in Hq. apply app_inj_tail in Hq as [Hq _]. by apply (Q q1 x q2 t).
Qed.

Lemma inv_fsync_start s before e fd ds after :
  inv s -> ops (kern s) = before ++ mk_kop e None :: after -> sq_op e = SqFsync fd ds ->
  can_run before (mk_kop e None) ->
  secured (lg s) (fl s) (page (kern s)) (aw s) (cq (kern s)) ->
  inv (set_kern s (mk_kernel (before ++ mk_kop e (Some (page (kern s))) :: after)
                     (page (kern s)) (disk (kern s)) (cq (kern s)))).
Proof.
  intros I Ho Hop Hc Hsec.
  pose proof (fun x m => no_snap s before (mk_kop e None) after x m I Ho Hc eq_refl) as Hns.
  assert (sq_drain e = true) as Hd.
  { destruct (i_sqe s I e) as (w & fd' & _ & He); [rewrite Ho, fmap_app; simpl; in_app|].
    destruct w as [w|t|p]; simpl in He.
    - destruct (slice_from _ _); simpl in He; [|done|done]. injection He as He. by rewrite <- He in Hop.
    - injection He as He. by rewrite <- He.
    - injection He as He. by rewrite <- He in Hop. }
  assert (before = []) as -> by (by apply Hc).
  pose proof I as [P F Ks E C Pg D A R Q W]. unfold keys in *. rewrite Ho in *. split; simpl; try done.
  intros o m [->|Hx]%elem_of_cons Hs.
  - simpl in Hs. injection Hs as <-. by split_and!.
  - destruct (Hns o m); [by right|done].
Qed.

(** The promise holds in the page cache whenever an fsync may start. *)
Definition startable (s : St) : Prop :=
  forall before e fd ds after, ops (kern s) = before ++ mk_kop e None :: after -> sq_op e = SqFsync fd ds ->
    can_run before (mk_kop e None) -> secured (lg s) (fl s) (page (kern s)) (aw s) (cq (kern s)).

Lemma inv_astep s s' : inv s -> astep base s s' -> inv s'.
Proof.
  intros I Hs.
  destruct Hs as [p f q k a c l b Hok|p f q k a c l t|w p f q k a c l key fd e Hk He|p f q k a c l n
                 |p f q op pg dk x cqs a c l o b' more Hf Hr Hd Hw Hm
                 |p f q op pg dk x cqs a c l o Hf Hlt Hn
                 |p f q op pg dk x cqs a c l t Hf Hr
                 |p f q op pg dk x cqs a c l path Hf];
    match type of I with inv ?s0 => set (s0' := s0) in * end.
  - by apply (inv_ingest s0').
  - by apply (inv_arm s0').
  - by apply (inv_push s0' w p key fd e).
  - by apply (inv_submit s0').
  - apply (inv_pop s0' x cqs p (a ++ more) c I eq_refl).
    + apply (i_pend s0' I).
    + intros b Hb. apply elem_of_app in Hb as [Hb|Hb]; [by left|]. right. exists o.
      destruct Hm as [->| ->]; [by apply not_elem_of_nil in Hb|]. by apply list_elem_of_singleton in Hb as ->.
    + by left.
  - apply (inv_pop s0' x cqs _ a c I eq_refl); [|by left|by left].
    intros w Hw. apply elem_of_cons in Hw as [->|Hw]; [|by apply (i_pend s0' I)].
    destruct (i_fl s0' I _ _ Hf) as ([Hd1 Hd2 Hd3] & Hpl & Hp).
    destruct (i_cq s0' I x) as (w & Hw & Hc); [by left|]. simpl in Hw. rewrite Hf in Hw. injection Hw as <-.
    destruct (Hc o eq_refl) as [Hc1 Hc2]. split; [split; simpl; [|done..]|split; [done|]].
    + destruct (decide (0 <= cq_result x)); [specialize (Hlt ltac:(done))|]; lia.
    + simpl. destruct (decide (0 <= cq_result x)).
      * rewrite Z.max_r, Z.add_assoc by done. by apply Hc2.
      * by replace (done o + Z.max 0 (cq_result x)) with (done o) by lia.
  - apply (inv_pop s0' x cqs p [] (c ++ a) I eq_refl).
    + apply (i_pend s0' I).
    + by intros b Hb%not_elem_of_nil.
    + intros b Hb. apply elem_of_app in Hb as [Hb|Hb]; [by left|]. right. by eauto.
  - apply (inv_pop s0' x cqs p a c I eq_refl); [apply (i_pend s0' I)|by left|by left].
Qed.

Variable write_result : Z -> Z -> Prop.

(** Every documented kernel step keeps the invariant, if the promise holds in the
    page cache when an fsync starts. *)
Lemma inv_kernel s k :
  inv s -> doc_step write_result (kern s) k ->
  (forall before e fd ds after, ops (kern s) = before ++ mk_kop e None :: after -> sq_op e = SqFsync fd ds ->
     can_run before (mk_kop e None) -> secured (lg s) (fl s) (page (kern s)) (aw s) (cq (kern s))) ->
  inv (set_kern s k).
Proof.
  intros I Hk Hst. destruct s as [p f q [op pg dk cqs] a c l]. simpl in *.
  remember (mk_kernel op pg dk cqs) as k0 eqn:Ek.
  destruct Hk as [before e fd buf off after i j pg0 dk0 q0 Hop Hc Hij
                 |before e fd buf off after r pg0 dk0 q0 Hop Hc Hr Hres
                 |before e fd ds after pg0 dk0 q0 Hop Hc
                 |before e sn after r pg0 dk0 q0 Hr
                 |before e sn after r pg0 dk0 q0 Hr
                 |before e path after r pg0 dk0 q0 Hop Hc
                 |m o pg0 dk0 q0 Hm]; injection Ek as <- <- <- <-;
    match type of I with inv ?s0 => set (s := s0) in * end.
  - destruct (entry_write s before (mk_kop e None) after fd buf off I eq_refl Hop)
      as (w & n & Hf & Hok & Hpl & Hpr & -> & ->).
    apply (inv_page s); [done|apply grows_write_at|]. destruct Hpl as [Hpl ->].
    rewrite <- Z.add_assoc. destruct Hok as [Hd _ _].
    eapply agrees_write; [exact Hpl|apply (i_page s I)|lia|].
    intros n' x Hx. apply lookup_take_Some in Hx as [Hx _]. rewrite lookup_drop in Hx.
    apply lookup_take_Some in Hx as [Hx _]. rewrite lookup_drop in Hx. rewrite <- Hx. f_equal. lia.
  - destruct (entry_write s before (mk_kop e None) after fd buf off I eq_refl Hop)
      as (w & n & Hf & Hok & Hpl & Hpr & -> & ->).
    set (buf := take _ _) in *. set (pg' := write_at pg0 _ _).
    assert (inv (set_kern s (mk_kernel (before ++ mk_kop e None :: after) pg' dk0 q0))) as I'.
    { apply (inv_page s); [done|apply grows_write_at|]. unfold pg'. destruct Hpl as [Hpl ->]. destruct Hok as [Hd _ _].
      eapply agrees_write; [exact Hpl|apply (i_page s I)|lia|].
      intros n' x Hx. apply lookup_take_Some in Hx as [Hx _]. unfold buf in Hx.
      apply lookup_take_Some in Hx as [Hx _]. by rewrite lookup_drop in Hx. }
    pose proof (as_u32_le (len (out (io_work.data w)) - done w)) as Hu. destruct Hok as [Hd _ _].
    assert (len buf <= len (out (io_work.data w)) - done w) as Hlb by (unfold buf; len_lia).
    apply (inv_complete _ before (mk_kop e None) after (mk_cqe (user_data e) r) I' eq_refl eq_refl).
    + intros x Hx. destruct (snap x) as [m|] eqn:Ex; [|done].
      destruct (no_snap s before (mk_kop e None) after x m I eq_refl Hc eq_refl); [simpl; in_app|done].
    + simpl. intros w' Hw'. simpl in Hf. rewrite Hf in Hw'. injection Hw' as <-. split; [lia|].
      intros Hr0. unfold pg'. replace r with (len (take (Z.to_nat r) buf)) at 2 by len_lia.
      apply present_write_at; [done|lia].
    + simpl. intros t Ht. simpl in Hf. congruence.
  - apply (inv_fsync_start s before e fd ds after); try done. by apply (Hst before e fd ds after).
  - destruct (i_run s I (mk_kop e (Some sn)) sn) as (_ & _ & R3 & R4); [simpl; in_app|done|].
    destruct (snap_head s before _ after sn I eq_refl eq_refl) as [-> Hno].
    assert (inv (set_kern s (mk_kernel ([] ++ mk_kop e (Some sn) :: after) pg0 (sn ∪ dk0) q0))) as I'.
    { apply (inv_disk s); [done|apply grows_union_r|]. apply agrees_union; [done|apply (i_disk s I)]. }
    apply (inv_complete _ [] (mk_kop e (Some sn)) after (mk_cqe (user_data e) r) I' eq_refl eq_refl); [done|..].
    + simpl. intros w Hw. destruct (i_run s I (mk_kop e (Some sn)) sn) as (_ & Hd & _); [simpl; in_app|done|].
      destruct (i_sqe s I e) as (w' & fd & Hw' & He); [simpl; in_app|]. simpl in Hw'.
      rewrite Hw in Hw'. injection Hw' as <-. simpl in He, Hd.
      destruct (slice_from _ _); simpl in He; [|done|done]. injection He as He. by rewrite <- He in Hd.
    + simpl. intros t Ht _. eapply secured_grows; [apply grows_union_l|exact R4].
  - destruct (snap_head s before _ after sn I eq_refl eq_refl) as [-> Hno].
    apply (inv_complete s [] (mk_kop e (Some sn)) after (mk_cqe (user_data e) r) I eq_refl eq_refl); [done|..].
    + simpl. intros w Hw. destruct (i_run s I (mk_kop e (Some sn)) sn) as (_ & Hd & _); [simpl; in_app|done|].
      destruct (i_sqe s I e) as (w' & fd & Hw' & He); [simpl; in_app|]. simpl in Hw'.
      rewrite Hw in Hw'. injection Hw' as <-. simpl in He, Hd.
      destruct (slice_from _ _); simpl in He; [|done|done]. injection He as He. by rewrite <- He in Hd.
    + simpl. intros t Ht Hr'. lia.
  - apply (inv_complete s before (mk_kop e None) after (mk_cqe (user_data e) r) I eq_refl eq_refl).
    + intros x Hx. destruct (snap x) as [m|] eqn:Ex; [|done].
      destruct (no_snap s before (mk_kop e None) after x m I eq_refl Hc eq_refl); [simpl; in_app|done].
    + simpl. intros w Hw. destruct (i_sqe s I e) as (w' & fd & Hw' & He); [simpl; rewrite fmap_app; simpl; in_app|].
      simpl in Hw'. rewrite Hw in Hw'. injection Hw' as <-. simpl in He.
      destruct (slice_from _ _); simpl in He; [|done|done]. injection He as He. by rewrite <- He in Hop.
    + simpl. intros t Ht. destruct (i_sqe s I e) as (w' & fd & Hw' & He); [simpl; rewrite fmap_app; simpl; in_app|].
      simpl in Hw'. rewrite Ht in Hw'. injection Hw' as <-. simpl in He. injection He as He. by rewrite <- He in Hop.
  - apply (inv_disk s); [done|apply grows_union_r|].
    apply agrees_union; [|apply (i_disk s I)]. eapply agrees_subset; [exact Hm|apply (i_page s I)].
Qed.

End inv.

(** ** The promise that each batch's own bytes are there *)

Definition own_bytes (base : Z) (l : list Batch) (m : content) (i : nat) : Prop :=
  present m (pos base l i) (pos base l (S i)).

Lemma own_laws base : good_laws (own_bytes base).
Proof.
  split.
  - intros l m m' i Hg Hp. by eapply present_grows.
  - intros l l' m i Hi Hp. unfold own_bytes. rewrite !pos_app by lia. done.
Qed.

Lemma own_startable base s : inv base (own_bytes base) s -> startable base (own_bytes base) s.
Proof.
  intros I before e fd ds after _ _ _. split.
  - apply (i_aw _ _ _ I).
  - intros c o Hc (Hf & Hr & Hd). destruct (i_fl _ _ _ I _ _ Hf) as (_ & (i & Hi) & _).
    destruct (i_cq _ _ _ I c Hc) as (w & Hw & Hcq). rewrite Hf in Hw. injection Hw as <-.
    destruct (Hcq o eq_refl) as [_ Hp]. specialize (Hp Hr). exists i. split; [done|].
    destruct Hi as [Hi Ho]. unfold own_bytes.
    by rewrite (at_index_S _ _ _ _ Hi), <- Ho, <- Hd, Z.add_assoc.
Qed.

(** ** The engine and the kernel together *)

Section world.
Context {L : Type} `{SlabLaws L} {K : Type} {write_result : Z -> Z -> Prop} `{UringLaws K write_result}.

(** The log is a history variable: the batches ingested so far, as encoded. *)
Record World := mk_world { eng : WalEngine L; uring : K; ingested : list Batch }.

(** The operations of the engine's loop, and the kernel, one at a time. *)
Inductive wstep : World -> World -> Prop :=
| w_ingest e k l b e' :
    ingestable e b -> handle_batch e b = Done e' ->
    wstep (mk_world e k l) (mk_world e' k (l ++ [encoded b]))
| w_plan e k l : wstep (mk_world e k l) (mk_world (plan_fsync e) k l)
| w_pending e k l n e' : handle_pending e = Done (n, e') -> wstep (mk_world e k l) (mk_world e' k l)
| w_submit e k l n :
    wstep (mk_world e k l) (mk_world (submit_n e n) (ku_submit k (take n (sq (ring e)))) l)
| w_reap e k l n e' :
    reap_cqes e (take n (cq (ku_view k))) = Done e' -> wstep (mk_world e k l) (mk_world e' (ku_take k n) l)
| w_spin e k l n : wstep (mk_world e k l) (mk_world (set_spin e n) k l)
| w_kernel e k k' l : ku_step k k' -> wstep (mk_world e k l) (mk_world e k' l).

(** The batches acknowledged as durable. *)
Definition durable_acks (tr : list Event) : list Batch :=
  tr ≫= (fun ev => match ev with Advanced b Durable _ => [b] | _ => [] end).

Definition abs (w : World) : St :=
  mk_st (pending (eng w)) (slab_view (inflight (eng w))) (sq (ring (eng w))) (ku_view (uring w))
    (awaiting_fsync (eng w)) (durable_acks (trace (eng w))) (ingested w).

(** A fresh engine on a segment file of [base] bytes. *)
Record initial (w : World) : Prop := {
  in_pending : pending (eng w) = [];
  in_inflight : slab_view (inflight (eng w)) = ∅;
  in_sq : sq (ring (eng w)) = [];
  in_awaiting : awaiting_fsync (eng w) = [];
  in_trace : trace (eng w) = [];
  in_log : ingested w = [];
  in_ops : ops (ku_view (uring w)) = [];
  in_cq : cq (ku_view (uring w)) = [];
  in_page z : segment.offset (seg (eng w)) <= z -> page (ku_view (uring w)) !! z = None;
  in_disk z : segment.offset (seg (eng w)) <= z -> disk (ku_view (uring w)) !! z = None;
}.

Variable base : Z.

Record world_wf (w : World) : Prop := {
  ww_eng : engine_wf (eng w);
  ww_off : segment.offset (seg (eng w)) = pos base (ingested w) (length (ingested w));
}.

Lemma durable_acks_app t1 t2 : durable_acks (t1 ++ t2) = durable_acks t1 ++ durable_acks t2.
Proof. apply bind_app. Qed.

Lemma durable_acks_release a bs : durable_acks (bs ≫= release_events a) = bs.
Proof. induction bs as [|b bs IH]; [done|]. rewrite bind_cons, durable_acks_app, IH. done. Qed.

Variable good : list Batch -> content -> nat -> Prop.
Context (G : good_laws good).
Abbreviation astep := (astep base).
Abbreviation inv := (inv base good).

(** Pushing operations one after the other. *)
Lemma pushed_steps fd l ws es l' p q k a c lg :
  pushed fd l ws es l' ->
  rtc astep (mk_st (ws ++ p) (slab_view l) q k a c lg) (mk_st p (slab_view l') (q ++ es) k a c lg).
Proof.
  intros Hp. revert q. induction Hp as [l|l w ws e es l' He Hp IH]; intros q.
  - by rewrite app_nil_r.
  - eapply rtc_l; [|].
    + apply a_push with (key := slab_vacant_key l) (fd := fd) (e := e); [apply slab_vacant_view|done].
    + rewrite <- slab_insert_view. specialize (IH (q ++ [e])). by rewrite <- app_assoc in IH.
Qed.

(** One completion, reaped by the engine. *)
Lemma reaped_step e c e' op pg dk q l :
  engine_wf e -> reaped e c e' ->
  astep (mk_st (pending e) (slab_view (inflight e)) (sq (ring e)) (mk_kernel op pg dk (c :: q))
           (awaiting_fsync e) (durable_acks (trace e)) l)
        (mk_st (pending e') (slab_view (inflight e')) (sq (ring e')) (mk_kernel op pg dk q)
           (awaiting_fsync e') (durable_acks (trace e')) l).
Proof.
  intros Hwf Hre. destruct Hre as [o lb sent b' Hw Hc Hd Hl Hs Ea ->|o o' lb Hw -> Hlt Hneg Hl ->|t lb Hw Hc Hl ->|p lb Hw Hl ->].
  - assert (batch_ok (io_work.data o)) as Hb by (by destruct (map_Forall_lookup_1 _ _ _ _ (ew_inflight _ Hwf) Hw)).
    destruct (advance_unsent (ack e) (io_work.data o) Written Hb) as (s2 & b2 & E2 & _ & W1 & W2 & W3 & _).
    rewrite Ea in E2. injection E2 as <- <-.
    assert (wal_eq b' (io_work.data o)) as Hweq by done.
    destruct (is_settled (ack e) b'); simpl; rewrite durable_acks_app, Hl; simpl; rewrite app_nil_r.
    + rewrite <- (app_nil_r (awaiting_fsync e)) at 2. by eapply a_reap_write with (b' := b'); eauto.
    + eapply a_reap_write; eauto.
  - simpl. rewrite Hl. eapply a_reap_retry; [done| |done]. intros Hr. specialize (Hlt Hr). simpl in Hlt. lia.
  - simpl. rewrite durable_acks_app, durable_acks_release, Hl. by eapply a_reap_fsync.
  - simpl. rewrite Hl. by eapply a_reap_remove.
Qed.

(** The invariant makes the completion at the head one the engine understands. *)
Lemma inv_cqe_ok e k l c q e' :
  inv (mk_st (pending e) (slab_view (inflight e)) (sq (ring e)) k (awaiting_fsync e) (durable_acks (trace e)) l) ->
  cq k = c :: q -> reap_one e c = Done e' -> cqe_ok e c.
Proof.
  intros I Hq Hr. destruct (i_cq _ _ _ I c) as (w & Hw & Hc); [simpl; rewrite Hq; by left|]. simpl in Hw.
  exists w. split; [done|]. split.
  - intros x Hx. unfold reap_one in Hr. destruct (slab_remove_Some _ _ _ Hw) as (lb & E & _).
    rewrite E in Hr. simpl in Hr. by rewrite Hx in Hr.
  - intros o Ho. by apply Hc.
Qed.

Lemma reap_steps cqes e e' op pg dk q l :
  inv (mk_st (pending e) (slab_view (inflight e)) (sq (ring e)) (mk_kernel op pg dk (cqes ++ q))
         (awaiting_fsync e) (durable_acks (trace e)) l) ->
  engine_wf e -> reap_cqes e cqes = Done e' ->
  rtc astep
    (mk_st (pending e) (slab_view (inflight e)) (sq (ring e)) (mk_kernel op pg dk (cqes ++ q))
         (awaiting_fsync e) (durable_acks (trace e)) l)
    (mk_st (pending e') (slab_view (inflight e')) (sq (ring e')) (mk_kernel op pg dk q)
         (awaiting_fsync e') (durable_acks (trace e')) l) /\
  engine_wf e' /\ seg e' = seg e /\ conserves [] e e'.
Proof.
  unfold reap_cqes. revert e. induction cqes as [|c cqes IH]; intros e I Hwf Hr; cbn [fold_outcome] in Hr.
  - injection Hr as <-. split_and!; try done. by apply conserves_refl.
  - apply bind_Done in Hr as (e1 & E1 & Hr).
    pose proof (inv_cqe_ok e _ l c (cqes ++ q) e1 I eq_refl E1) as Hc.
    destruct (reap_one_ok e c Hwf Hc) as (e2 & E2 & Hre). rewrite E1 in E2. injection E2 as <-.
    assert (seg e1 = seg e) as Hseg.
    { destruct Hre as [? ? ? ? ? ? ? ? ? ? ->|? ? ? ? ? ? ? ? ->|? ? ? ? ? ->|? ? ? ? ->]; try done.
      by destruct (is_settled _ _). }
    pose proof (reaped_step e c e1 op pg dk (cqes ++ q) l Hwf Hre) as Hstep.
    destruct (reaped_wf e c e1 Hwf Hre) as [Hwf1 C1].
    rewrite <- Hseg. destruct (IH e1) as (R & Hwf' & Hs' & C2); [|done|done|].
    + eapply (inv_astep base good G); [exact I|exact Hstep].
    + split; [eapply rtc_l; [exact Hstep|exact R]|]. split_and!; [done|done|].
      by apply (conserves_trans [] [] e e1 e').
Qed.

Lemma inv_rtc s s' : rtc astep s s' -> inv s -> inv s'.
Proof. induction 1 as [|s1 s2 s3 Hs _ IH]; [done|]. intros I. apply IH. by eapply inv_astep. Qed.

(** Every step of the world is a sequence of the engine's abstract steps, or one
    documented step of the kernel. *)
Lemma wstep_sim w w' :
  wstep w w' -> world_wf w -> inv (abs w) ->
  world_wf w' /\
  (rtc astep (abs w) (abs w') \/
   exists k, doc_step write_result (kern (abs w)) k /\ abs w' = set_kern (abs w) k).
Proof.
  intros Hs [Hwf Hoff] I.
  destruct Hs as [e k l b e' Hb He|e k l|e k l n e' He|e k l n|e k l n e' He|e k l n|e k k' l Hk];
    unfold abs in *; simpl in *.
  - pose proof Hb as Hb'. destruct Hb' as [Hlo Ho Hi Hl Hh Hu Hf Hend].
    assert (engine_wf e') as Hwf' by (destruct (handle_batch_wf e b Hwf Hb) as (e2 & E2 & ? & _); congruence).
    rewrite handle_batch_ok in He by done. injection He as <-. split.
    + split; [done|]. simpl. rewrite length_app, Nat.add_comm. simpl.
      rewrite (pos_S base _ (length l) (encoded b)) by (by rewrite lookup_app_r, Nat.sub_diag).
      rewrite pos_app by done. by rewrite Hoff.
    + left. apply rtc_once. simpl. rewrite Hoff. apply a_ingest.
      rewrite <- Hoff. split; simpl; [lia|done|done].
  - split; [split; [by apply plan_fsync_wf|]|].
    + unfold plan_fsync. by destruct (should_fsync _) as [[|] q].
    + left. unfold plan_fsync. destruct (should_fsync _) as [[|] q]; simpl; [|done].
      apply rtc_once. by apply a_arm.
  - destruct (handle_pending_wf e Hwf) as (n2 & e2 & E2 & Hwf2 & _). rewrite He in E2. injection E2 as <- <-.
    destruct (handle_pending_ok e Hwf) as (moved & new & pend' & infl' & need & E & Ep & Hpu & _).
    rewrite He in E. injection E as -> ->. split; [by split|]. left. simpl.
    rewrite Ep. by eapply pushed_steps.
  - split; [split; [by apply submit_n_wf|done]|]. left. rewrite ku_submit_doc.
    apply rtc_once. by apply a_submit.
  - rewrite ku_take_doc. destruct (ku_view k) as [op pg dk q] eqn:Ek. unfold take_cqes. simpl in *.
    rewrite <- (take_drop n q) in I. destruct (reap_steps _ e e' op pg dk _ l I Hwf He) as (R & Hwf' & Hseg & _).
    rewrite take_drop in R. split; [split; [done|simpl; by rewrite Hseg]|by left].
  - split; [split; [by destruct Hwf; split|done]|by left].
  - split; [by split|]. right. apply ku_step_doc in Hk. by eexists.
Qed.

(** Every step keeps the books of the engine; only ingesting brings batches in. *)
Lemma wstep_conserves w w' :
  wstep w w' -> world_wf w -> inv (abs w) ->
  exists new, ingested w' = ingested w ++ (encoded <$> new) /\ conserves new (eng w) (eng w').
Proof.
  intros Hs [Hwf Hoff] I.
  destruct Hs as [e k l b e' Hb He|e k l|e k l n e' He|e k l n|e k l n e' He|e k l n|e k k' l Hk];
    unfold abs in *; simpl in *; [exists [b]; split; [done|]|exists []; rewrite app_nil_r; split; [done|]..].
  - destruct (handle_batch_wf e b Hwf Hb) as (e2 & E2 & _ & C). by replace e' with e2 by congruence.
  - by apply plan_fsync_wf.
  - destruct (handle_pending_wf e Hwf) as (n2 & e2 & E2 & _ & C). by replace e' with e2 by congruence.
  - by apply submit_n_wf.
  - destruct (ku_view k) as [op pg dk q]. simpl in *. rewrite <- (take_drop n q) in I.
    by destruct (reap_steps _ e e' op pg dk _ l I Hwf He) as (_ & _ & _ & C).
  - by apply conserves_refl.
  - by apply conserves_refl.
Qed.

Lemma wstep_ok w w' :
  wstep w w' -> world_wf w -> inv (abs w) -> startable base good (abs w) -> world_wf w' /\ inv (abs w').
Proof.
  intros Hs W I Hst. destruct (wstep_sim w w' Hs W I) as [W' [R|(k & Hk & E)]]; (split; [done|]).
  - by eapply inv_rtc.
  - rewrite E. by apply (inv_kernel base good G write_result).
Qed.

Lemma inv_initial w : initial w -> engine_wf (eng w) -> base = segment.offset (seg (eng w)) ->
  world_wf w /\ inv (abs w).
Proof.
  intros [I1 I2 I3 I4 I5 I6 I7 I8 I9 I10] Hwf Hb. split.
  - split; [done|]. rewrite I6, <- Hb. unfold pos. simpl. lia.
  - unfold abs. rewrite I1, I2, I3, I4, I5, I6. destruct (ku_view (uring w)) as [o pg dk q]. simpl in *. subst o q.
    split; unfold keys; simpl; try done; try (by intros ? ?%not_elem_of_nil); try (by intros ? ? ?%not_elem_of_nil).
    + constructor.
    + intros z x Hz Hbz. rewrite I9 in Hz; [done|lia].
    + intros z x Hz Hbz. rewrite I10 in Hz; [done|lia].
Qed.

Lemma wsteps_ok w w' :
  (forall s, inv s -> startable base good s) ->
  rtc wstep w w' -> world_wf w -> inv (abs w) -> world_wf w' /\ inv (abs w').
Proof.
  intros Hst. induction 1 as [w|w1 w2 w3 Hs _ IH]; [done|]. intros Hw I.
  destruct (wstep_ok w1 w2 Hs Hw I (Hst _ I)). by apply IH.
Qed.

Lemma initial_wf w : initial w -> engine_wf (eng w).
Proof.
  intros [I1 I2 I3 I4 I5 I6 I7 I8 I9 I10]. split.
  - rewrite I1. constructor.
  - rewrite I2. apply map_Forall_empty.
  - rewrite I4. constructor.
  - rewrite I5. constructor.
Qed.

End world.

Arguments World : clear implicits.

Section loop.
Context {L : Type} `{SlabLaws L} {K : Type} `{Uring K}.
Implicit Types e : WalEngine L.

Lemma kernel_steps e (k k' : K) l : rtc ku_step k k' -> rtc wstep (mk_world e k l) (mk_world e k' l).
Proof.
  induction 1 as [k|k1 k2 k3 Hs _ IH]; [done|]. eapply rtc_l; [by apply w_kernel|exact IH].
Qed.

(** Reaping does not touch the ring. *)
Definition same_ring e e' : Prop := ring e' = ring e.
#[local] Instance same_ring_preorder : PreOrder same_ring.
Proof. split; [by intros e|]. unfold same_ring. intros e1 e2 e3 A1 A2. congruence. Qed.

Lemma release_awaiting_ring e e' : release_awaiting e = Done e' -> same_ring e e'.
Proof.
  intros Hr. transitivity (set_awaiting e []); [done|]. eapply (fold_outcome_rel _ _); [|exact Hr].
  intros e1 b e2. unfold release_one. by intros ([s b'] & _ & [= <-])%bind_Done.
Qed.

Lemma reap_cqes_ring e cs e' : reap_cqes e cs = Done e' -> same_ring e e'.
Proof.
  apply (fold_outcome_rel _ _). intros e1 c e2. unfold reap_one. intros ([w l] & _ & Hr)%bind_Done.
  destruct (complete w (cq_result c)) as [[b|]|w'| |]; try done.
  - apply bind_Done in Hr as ([s b'] & _ & Hr). by destruct (is_settled _ _); injection Hr as <-.
  - by injection Hr as <-.
  - by injection Hr as <-.
  - apply bind_Done in Hr as (e3 & Hr & [= <-]). by apply release_awaiting_ring in Hr.
Qed.

(** The entries that the engine has given to the kernel in between. *)
Definition entered e e' : list Sqe := drop (length (submitted (ring e))) (submitted (ring e')).

(** The kernel once [n] completions were reaped and [es] submitted. *)
Definition after_turn (k1 : K) (n : nat) (es : list Sqe) : K :=
  match es with [] => ku_take k1 n | _ => ku_submit (ku_take k1 n) es end.

Lemma submit_n_nothing e n : take n (sq (ring e)) = [] -> submit_n e n = e.
Proof.
  intros Ht. assert (drop n (sq (ring e)) = sq (ring e)) as Hd.
  { rewrite <- (take_drop n (sq (ring e))) at 2. by rewrite Ht. }
  destruct e as [? ? [q ? s] ? ? ? ? ? ? ? ? ?]. unfold submit_n, set_ring in *. simpl in *.
  by rewrite Ht, Hd, app_nil_r.
Qed.

Lemma turn_steps e cqes m e' (k k1 : K) l n :
  turn e cqes (Submitted m) = Done e' ->
  rtc ku_step k k1 -> cqes = take n (cq (ku_view k1)) ->
  rtc wstep (mk_world e k l) (mk_world e' (after_turn k1 n (entered e e')) l).
Proof.
  unfold turn. intros Ht Hk Hc.
  apply bind_Done in Ht as ([need e1] & E1 & Ht). apply bind_Done in Ht as (e2 & E2 & Ht). subst cqes.
  assert (submitted (ring e2) = submitted (ring e)) as Hring.
  { rewrite (reap_cqes_ring _ _ _ E2).
    assert (submitted (ring e1) = submitted (ring (plan_fsync e))) as ->.
    { revert E1. unfold handle_pending. destruct (pending _); [by intros [= <- <-]|].
      by intros ([pi q] & _ & [= <- <-])%bind_Done. }
    unfold plan_fsync. by destruct (should_fsync _) as [[|] q]. }
  assert (rtc wstep (mk_world e k l) (mk_world e2 (ku_take k1 n) l)) as R.
  { eapply rtc_l; [apply w_plan|]. eapply rtc_l; [by eapply w_pending|].
    etransitivity; [by apply kernel_steps|]. by apply rtc_once, w_reap. }
  assert (forall e3, e3 = submit_n e2 m ->
    rtc wstep (mk_world e k l) (mk_world e3 (after_turn k1 n (entered e e3)) l)) as Hsub.
  { intros e3 ->. unfold entered. simpl. rewrite Hring, drop_app_length. unfold after_turn.
    destruct (take m (sq (ring e2))) as [|x es] eqn:Et; [by rewrite submit_n_nothing|].
    etransitivity; [exact R|]. apply rtc_once. rewrite <- Et. apply w_submit. }
  destruct (_ || _); [apply Hsub; simpl in Ht; congruence|].
  destruct need; [apply Hsub; simpl in Ht; congruence|]. injection Ht as <-.
  unfold entered. by rewrite Hring, drop_all.
Qed.

(** The engine's loop is covered by the steps durability is proved for: an
    iteration that receives a batch or nothing, while the kernel works on, is a
    sequence of the world's steps. *)
Theorem iteration_is_world_steps e i goes_on e' (k k1 : K) l n m :
  match in_recv i with Received (Write b) => ingestable e b | Empty => True | _ => False end ->
  rtc ku_step k k1 -> in_cqes i = take n (cq (ku_view k1)) -> in_submit i = Submitted m ->
  iteration e i = Done (goes_on, e') ->
  exists k', rtc wstep (mk_world e k l)
    (mk_world e' k' (l ++ match in_recv i with Received (Write b) => [encoded b] | _ => [] end)).
Proof.
  intros Hin Hk Hc Hsub Hit. unfold iteration in Hit. rewrite Hsub in Hit.
  destruct (in_recv i) as [[b| |]| |] eqn:Er; try done; simpl poll_channel_or_park in Hit.
  - apply bind_Done in Hit as ([p e0] & E0 & Hit). injection E0 as <- <-. cbn [handle_msg] in Hit.
    apply bind_Done in Hit as ([g e1] & E1 & Hit). apply bind_Done in E1 as (e1' & E1 & E2).
    injection E2 as <- <-. cbn [negb] in Hit. apply bind_Done in Hit as (e2 & E2 & E3). injection E3 as _ <-.
    eexists. pose proof (turn_steps _ _ _ _ k k1 (l ++ [encoded b]) n E2 Hk Hc) as R.
    eapply rtc_l; [by eapply w_ingest|]. eapply rtc_l; [apply w_spin|exact R].
  - rewrite app_nil_r. destruct (should_park e); simpl in Hit.
    + injection Hit as _ <-. by exists k.
    + apply bind_Done in Hit as (e2 & E2 & E3). injection E3 as _ <-.
      eexists. pose proof (turn_steps _ _ _ _ k k1 l n E2 Hk Hc) as R.
      eapply rtc_l; [apply w_spin|exact R].
Qed.

End loop.

(** ** Executions, to run concrete ones *)

#[export] Instance ingestable_dec {L} `{Slab L} (e : WalEngine L) b : Decision (ingestable e b).
Proof.
  destruct (decide (lsn_low b = last_ingested_lsn e /\ out b = [] /\
    Forall (fun r => types.data r <> [] /\ u32 (8 + len (types.data r))) (items b) /\
    0 <= lsn_low b /\ lsn_hi b = lsn_low b + len (put_bodies (items b)) /\ u64 (lsn_hi b) /\
    0 <= segment.offset (seg e) /\ u64 (segment.offset (seg e) + len (redo_bytes (lsn_low b) (items b)))))
    as [Hd|Hd].
  - left. destruct Hd as (?&?&?&?&?&?&?&?). by split.
  - right. intros []. by apply Hd.
Defined.

Inductive action :=
| Ingest (b : Batch)
| Plan
| Pending
| Submit (n : nat)
| Reap (n : nat)
| KWrite (i : nat) (r : Z)       (* the [i]-th entry, a write, completes with [r] *)
| KSync (i : nat).               (* the [i]-th entry, an fsync, starts and completes *)

Section exec.
Context {L : Type} `{SlabLaws L}.
Variable write_result : Z -> Z -> Prop.
Variable result_ok : Z -> Z -> bool.

Definition can_run_b (before : list KOp) (o : KOp) : bool :=
  forallb (fun p => negb (sq_drain (k_sqe p))) before &&
  (negb (sq_drain (k_sqe o)) || match before with [] => true | _ => false end).

Definition kernel_act (k : Kernel) (i : nat) (act : KOp -> option (content * content * Z)) : option Kernel :=
  match ops k !! i with
  | Some o =>
      match snap o with
      | Some _ => None
      | None =>
          if can_run_b (take i (ops k)) o then
            match act o with
            | Some (pg, dk, r) =>
                Some (mk_kernel (take i (ops k) ++ drop (S i) (ops k)) pg dk (cq k ++ [mk_cqe (user_data (k_sqe o)) r]))
            | None => None
            end
          else None
      end
  | None => None
  end.

(** A move of the kernel, if [a] is one. *)
Definition kernel_one (k : Kernel) (a : action) : option Kernel :=
  match a with
  | KWrite i r =>
      kernel_act k i (fun o =>
        match sq_op (k_sqe o) with
        | SqWrite fd buf off =>
            if (r <=? len buf) && result_ok (len buf) r
            then Some (write_at (page k) off (take (Z.to_nat r) buf), disk k, r) else None
        | _ => None
        end)
  | KSync i =>
      kernel_act k i (fun o =>
        match sq_op (k_sqe o) with
        | SqFsync fd ds => Some (page k, page k ∪ disk k, 0)
        | _ => None
        end)
  | _ => None
  end.

Fixpoint kernel_exec (k : Kernel) (acts : list action) : option Kernel :=
  match acts with
  | [] => Some k
  | a :: acts => k' ← kernel_one k a; kernel_exec k' acts
  end.

Definition exec_one (w : World L (doc_kernel write_result)) (a : action)
    : option (World L (doc_kernel write_result)) :=
  let 'mk_world e k l := w in
  match a with
  | Ingest b =>
      if decide (ingestable e b) then
        match handle_batch e b with Done e' => Some (mk_world e' k (l ++ [encoded b])) | _ => None end
      else None
  | Plan => Some (mk_world (plan_fsync e) k l)
  | Pending => match handle_pending e with Done (_, e') => Some (mk_world e' k l) | _ => None end
  | Submit n => Some (mk_world (submit_n e n) (ku_submit k (take n (sq (ring e)))) l)
  | Reap n =>
      match reap_cqes e (take n (cq (ku_view k))) with
      | Done e' => Some (mk_world e' (ku_take k n) l)
      | _ => None
      end
  | KWrite _ _ | KSync _ => k' ← kernel_one k a; Some (mk_world e k' l)
  end.

Fixpoint exec (w : World L (doc_kernel write_result)) (acts : list action)
    : option (World L (doc_kernel write_result)) :=
  match acts with
  | [] => Some w
  | a :: acts => w' ← exec_one w a; exec w' acts
  end.

Context (Hres : forall n r, result_ok n r = true -> write_result n r).

Lemma can_run_b_ok before o : can_run_b before o = true -> can_run before o.
Proof.
  intros [H1 H2]%andb_true_iff. split.
  - apply Forall_forall. intros p Hp. rewrite forallb_forall in H1.
    by apply negb_true_iff, H1, list_elem_of_In.
  - intros Hd. rewrite Hd in H2. by destruct before.
Qed.

Lemma kernel_act_ok k i act k' :
  kernel_act k i act = Some k' ->
  exists before e after pg dk r, ops k = before ++ mk_kop e None :: after /\ can_run before (mk_kop e None) /\
    act (mk_kop e None) = Some (pg, dk, r) /\
    k' = mk_kernel (before ++ after) pg dk (cq k ++ [mk_cqe (user_data e) r]).
Proof.
  unfold kernel_act. destruct (ops k !! i) as [[e [|]]|] eqn:Ei; simpl; [done| |done].
  destruct (can_run_b _ _) eqn:Ec; [|done]. destruct (act _) as [[[pg dk] r]|] eqn:Ea; [|done].
  intros [= <-]. exists (take i (ops k)), e, (drop (S i) (ops k)), pg, dk, r.
  split; [symmetry; by apply take_drop_middle|]. split; [by apply can_run_b_ok|]. done.
Qed.

Lemma kernel_one_ok k a k' : kernel_one k a = Some k' -> rtc (doc_step write_result) k k'.
Proof.
  destruct a as [b| | |n|n|i r|i]; cbn [kernel_one]; try done.
  - intros (b & x & af & pg & dk & r' & Ho & Hc & Ha & ->)%kernel_act_ok.
    simpl in Ha. destruct (sq_op x) as [fd buf off| |] eqn:Es; [|done..].
    destruct ((r <=? len buf) && result_ok (len buf) r) eqn:Er; [|done]. injection Ha as <- <- <-.
    apply andb_true_iff in Er as [Er1 Er2]. apply rtc_once. destruct k as [o pg dk q]. simpl in *. subst o.
    eapply (doc_write_done _ b x fd buf off af r pg dk q); [done|done|lia|by apply Hres].
  - intros (b & x & af & pg & dk & r' & Ho & Hc & Ha & ->)%kernel_act_ok.
    simpl in Ha. destruct (sq_op x) as [|fd ds|] eqn:Es; [done| |done]. injection Ha as <- <- <-.
    destruct k as [o pg dk q]. simpl in *. subst o.
    eapply rtc_l; [by eapply (doc_fsync_start _ b x fd ds af pg dk q)|].
    apply rtc_once. by eapply (doc_fsync_done _ b x pg af 0 pg dk q).
Qed.

Lemma kernel_exec_ok k acts k' : kernel_exec k acts = Some k' -> rtc (doc_step write_result) k k'.
Proof.
  revert k. induction acts as [|a acts IH]; intros k; cbn [kernel_exec]; [by intros [= <-]|].
  intros (k1 & H1 & H2)%bind_Some. etransitivity; [by eapply kernel_one_ok|by apply IH].
Qed.

Lemma exec_one_ok w a w' : exec_one w a = Some w' -> rtc wstep w w'.
Proof.
  destruct w as [e k l]. destruct a as [b| | |n|n|i r|i]; cbn [exec_one];
    [..|intros (k' & Hk%kernel_one_ok & [= <-])%bind_Some; by apply kernel_steps
       |intros (k' & Hk%kernel_one_ok & [= <-])%bind_Some; by apply kernel_steps].
  - destruct (decide _) as [Hi|]; [|done]. destruct (handle_batch e b) eqn:E; [|done..].
    intros [= <-]. by apply rtc_once, w_ingest.
  - intros [= <-]. apply rtc_once, w_plan.
  - destruct (handle_pending e) as [[n e']| |] eqn:E; [|done..]. intros [= <-]. by eapply rtc_once, w_pending.
  - intros [= <-]. apply rtc_once. exact (w_submit e k l n).
  - destruct (reap_cqes _ _) eqn:E; [|done..]. intros [= <-]. apply rtc_once. exact (w_reap e k l n _ E).
Qed.

Lemma exec_ok w acts w' : exec w acts = Some w' -> rtc wstep w w'.
Proof.
  revert w. induction acts as [|a acts IH]; intros w; cbn [exec]; [by intros [= <-]|].
  intros (w1 & H1 & H2)%bind_Some. etransitivity; [by eapply exec_one_ok|by apply IH].
Qed.

End exec.

Section theorems.
Context {L : Type} `{SlabLaws L} {K : Type} `{UringLaws K any_result}.
Implicit Types w : World L K.

(** ** Properties *)

(** C7: an acknowledgement with durability is true: in every execution of the
    engine's operations interleaved with a kernel that behaves as documented,
    with any short, interrupted or reordered writes, when a batch is acknowledged
    as durable then every byte of its WAL records is on disk, at the batch's
    place in the log. *)
Theorem durable_ack_is_on_disk w0 w b :
  initial w0 -> rtc wstep w0 w -> b ∈ durable_acks (trace (eng w)) ->
  exists i b', ingested w !! i = Some b' /\ wal_eq b b' /\
    forall n x, out b !! n = Some x ->
      disk (ku_view (uring w)) !! (pos (segment.offset (seg (eng w0))) (ingested w) i + Z.of_nat n) = Some x.
Proof.
  intros Hi0 Hr Hb. set (base := segment.offset (seg (eng w0))).
  destruct (inv_initial base (own_bytes base) w0 Hi0 (initial_wf w0 Hi0) eq_refl) as [W0 I0].
  destruct (wsteps_ok base (own_bytes base) (own_laws base) w0 w (own_startable base) Hr W0 I0) as [W I].
  destruct (i_acked _ _ _ I b Hb) as (i & Hi & Hg). simpl in Hi, Hg.
  pose proof Hi as (b' & Hl & Hw). exists i, b'. split; [done|]. split; [done|].
  intros n x Hn. pose proof (lookup_lt_Some _ _ _ Hn) as Hlt.
  unfold own_bytes in Hg. rewrite (at_index_S _ _ _ _ Hi) in Hg.
  destruct (Hg (pos base (ingested w) i + Z.of_nat n)) as [y Hy]; [lia|]. rewrite Hy.
  pose proof (i_disk _ _ _ I _ _ Hy) as Hd. simpl in Hd.
  pose proof (pos_base base (ingested w) i). rewrite (log_byte base _ i b) in Hd by (done || lia).
  rewrite <- Hd by lia. rewrite <- Hn. f_equal. lia.
Qed.

End theorems.

(** A client of [sync] mode can wait forever: an execution reaches a state in
    which a written PUT still waits for its fsync, the planner has dirty bytes and
    runs no fsync, the kernel is idle, and yet the engine sleeps on the channel,
    whatever else an iteration with no message would bring. *)
Theorem sync_ack_can_wait_forever :
  exists w0 w : World (gmap N IoWork) (doc_kernel any_result),
    initial w0 /\ ack (eng w0) = acker.new args.Sync /\ rtc wstep w0 w /\
    ops (ku_view (uring w)) = [] /\ cq (ku_view (uring w)) = [] /\ sq (ring (eng w)) = [] /\
    owed (eng w) = [(6%N, wire.RespOk)] /\ dirty_bytes (planner (eng w)) <> 0 /\
    flush_running (planner (eng w)) = false /\
    forall i, in_recv i = Empty -> iteration (eng w) i = Done (false, eng w).
Proof.
  pose (put := fun k c => mk_request (wire.mk_body wire.OP_PUT (bstr k) (bstr "v")) c (Some wire.RespOk)).
  pose (b1 := mk_batch [put "k"%string 5%N] [] 1 2). pose (b2 := mk_batch [put "l"%string 6%N] [] 2 3).
  pose (w0 := mk_world (stage3.ex_engine args.Sync) (mk_kernel [] ∅ ∅ []) [] :
    World (gmap N IoWork) (doc_kernel any_result)).
  assert (exists w, exec any_result (fun _ _ => true) w0
    [Ingest b1; Plan; Pending; Submit 2; Ingest b2; Plan; Pending; Submit 1; KWrite 0 27; KSync 0; KWrite 0 27;
     Plan; Pending; Reap 3] = Some w /\
    ops (ku_view (uring w)) = [] /\ cq (ku_view (uring w)) = [] /\ sq (ring (eng w)) = [] /\
    owed (eng w) = [(6%N, wire.RespOk)] /\ dirty_bytes (planner (eng w)) = 27 /\
    flush_running (planner (eng w)) = false /\ should_park (eng w) = true)
    as (w & Hx & H1 & H2 & H3 & H4 & H5 & H6 & H7)
    by (eexists; split; [vm_compute; reflexivity|split_and!; vm_compute; reflexivity]).
  exists w0, w. split; [by split|]. split; [reflexivity|]. split; [eapply exec_ok; [|exact Hx]; done|].
  rewrite H1, H2, H3, H4, H5, H6. do 6 (split; [done|]). intros i Hi. unfold iteration, poll_channel_or_park.
  by rewrite Hi, H7.
Qed.

(** C37: a durable acknowledgement is not enough for recovery when the kernel
    writes short: an execution acknowledges a batch as durable while bytes of an
    earlier batch, whose write has to be retried, are not on disk. *)
Theorem durable_ack_behind_hole :
  exists (w0 w : World (gmap N IoWork) (doc_kernel any_result)) b b',
    initial w0 /\ rtc wstep w0 w /\ b ∈ durable_acks (trace (eng w)) /\ lsn_hi b = 4 /\
    ingested w !! 1%nat = Some b' /\ lsn_hi b' = 3 /\
    disk (ku_view (uring w)) !! (pos 0 (ingested w) 1 + 10) = None.
Proof.
  pose (put := fun k c => mk_request (wire.mk_body wire.OP_PUT (bstr k) (bstr "v")) c (Some wire.RespOk)).
  pose (b0 := mk_batch [put "k"%string 5%N] [] 1 2). pose (b1 := mk_batch [put "l"%string 6%N] [] 2 3).
  pose (b2 := mk_batch [put "m"%string 7%N] [] 3 4).
  pose (w0 := mk_world (stage3.ex_engine args.Sync) (mk_kernel [] ∅ ∅ []) [] :
    World (gmap N IoWork) (doc_kernel any_result)).
  assert (exists w b', exec any_result (fun _ _ => true) w0
    [Ingest b0; Plan; Pending; Submit 2; Ingest b1; Plan; Pending; Submit 1; Ingest b2; Plan; Pending; Submit 1;
     KWrite 0 27; KSync 0; Reap 2; Plan; Pending; Submit 1; KWrite 0 10; KWrite 0 27; KSync 0; Reap 3] = Some w /\
    durable_acks (trace (eng w)) !! 1%nat = Some (encoded b2) /\
    ingested w !! 1%nat = Some b' /\ lsn_hi b' = 3 /\
    disk (ku_view (uring w)) !! (pos 0 (ingested w) 1 + 10) = None)
    as (w & b' & Hx & H1 & H2 & H3 & H4)
    by (do 2 eexists; split; [vm_compute; reflexivity|split_and!; vm_compute; reflexivity]).
  exists w0, w, (encoded b2), b'. split; [by split|]. split; [eapply exec_ok; [|exact Hx]; done|].
  split; [eapply list_elem_of_lookup_2; exact H1|]. rewrite H2, H3, H4. by split_and!.
Qed.

(** ** Witness *)

Definition ex_world : World (gmap N IoWork) (doc_kernel any_result) :=
  mk_world (stage3.ex_engine args.Sync) (mk_kernel [] ∅ ∅ []) [].
Definition ex_actions : list action :=
  [Ingest stage3.ex_batch; Plan; Pending; Submit 2; KWrite 0 54; KSync 0; Reap 2].

Lemma durable_ack_is_on_disk_witness :
  exists w, exec any_result (fun _ _ => true) ex_world ex_actions = Some w /\
    disk (ku_view (uring w)) !! 0 = Some Byte.x0f.
Proof.
  assert (exists w, exec any_result (fun _ _ => true) ex_world ex_actions = Some w /\
    durable_acks (trace (eng w)) = [encoded stage3.ex_batch] /\ length (ingested w) = 1%nat) as (w & Hx & Ha & Hl)
    by (eexists; split; [vm_compute; reflexivity|split; vm_compute; reflexivity]).
  exists w. split; [exact Hx|].
  destruct (durable_ack_is_on_disk ex_world w (encoded stage3.ex_batch)) as (i & b' & Hi & _ & Hd).
  - by split.
  - eapply exec_ok; [|exact Hx]. done.
  - rewrite Ha. by left.
  - assert (i = 0%nat) as -> by (apply lookup_lt_Some in Hi; lia).
    apply (Hd 0%nat Byte.x0f). vm_compute. reflexivity.
Defined.

Lemma iteration_is_world_steps_witness :
  exists k' e', iteration (stage3.ex_engine args.Sync) (stage3.ex_input (Received (Write stage3.ex_batch))) = Done (true, e') /\
    rtc wstep ex_world (mk_world e' k' [encoded stage3.ex_batch]).
Proof.
  assert (exists e', iteration (stage3.ex_engine args.Sync) (stage3.ex_input (Received (Write stage3.ex_batch))) = Done (true, e'))
    as (e' & E) by (eexists; vm_compute; reflexivity).
  destruct (iteration_is_world_steps (stage3.ex_engine args.Sync)
    (stage3.ex_input (Received (Write stage3.ex_batch))) true e'
    (uring ex_world) (uring ex_world) [] 0 2 (stage3.ex_ingestable args.Sync)) as (k' & R);
    [reflexivity|reflexivity|reflexivity|exact E|].
  exists k', e'. split; [exact E|exact R].
Defined.

End durability.
