(* ===== verification/NoLoss.v ===== *)
(** * No acknowledged write is lost

    When the kernel's writes are never short, interrupted or failing, an
    acknowledgement with durability covers the whole log up to the batch: all
    earlier batches are on disk too, so recovery reaches the acknowledged one.
    The proof adds to [durability.inv] the order of the queued operations. *)

From stdpp Require Import sorting.
From S2P Require Import Prelude Types Acker FsyncPlanner IoWork Stage3 Kernel Durability.
Local Open Scope Z_scope.

Module noloss.
Import types acker fsync_planner io_work stage3 kernel kernel_laws durability.

Section order.
Variable base : Z.
Abbreviation pos := (pos base).
Abbreviation placed := (placed base).

(** ** The queue of operations that have not completed, in submission order *)

Definition queue (s : St) : list IoWork :=
  omap (fun e => fl s !! user_data e) ((k_sqe <$> ops (kern s)) ++ subq s) ++ pend s.

(** What follows the first fsync of a queue. *)
Fixpoint after_fsync (q : list IoWork) : list IoWork :=
  match q with
  | [] => []
  | FsyncWork _ :: q => q
  | _ :: q => after_fsync q
  end.

Definition write_end (o : WriteOp) : Z := io_work.offset o + len (out (io_work.data o)).

(** A write comes before the writes that start after its end. *)
Definition precedes (w w' : IoWork) : Prop :=
  match w, w' with WriteWork o, WriteWork o' => write_end o <= io_work.offset o' | _, _ => True end.

(** No write after the first fsync starts below [z]. *)
Definition behind (q : list IoWork) (z : Z) : Prop :=
  forall o, WriteWork o ∈ after_fsync q -> z <= io_work.offset o.

Record ordered (s : St) : Prop := {
  o_fresh o : WriteWork o ∈ pend s -> done o = 0;
  o_fresh_fl k o : fl s !! k = Some (WriteWork o) -> done o = 0;
  o_full c o : c ∈ cq (kern s) -> fl s !! cq_user_data c = Some (WriteWork o) ->
    cq_result c = len (out (io_work.data o));
  o_sorted : StronglySorted precedes (queue s);
  o_cover i : (i < length (lg s))%nat ->
    present (page (kern s)) (pos (lg s) i) (pos (lg s) (S i)) \/
    exists o, WriteWork o ∈ queue s /\ placed (lg s) o i;
  o_aw b : b ∈ aw s -> exists i, at_index (lg s) i b /\ behind (queue s) (pos (lg s) (S i));
  o_cq c o : c ∈ cq (kern s) -> fl s !! cq_user_data c = Some (WriteWork o) -> behind (queue s) (write_end o);
}.

(** ** Facts about queues *)

Lemma after_fsync_incl q w : w ∈ after_fsync q -> w ∈ q.
Proof. induction q as [|[] q IH]; simpl; [done|..]; rewrite elem_of_cons; tauto. Qed.

Lemma after_fsync_drop q1 w q2 x : x ∈ after_fsync (q1 ++ q2) -> x ∈ after_fsync (q1 ++ w :: q2).
Proof.
  induction q1 as [|y q1 IH]; simpl.
  - destruct w; [done|by apply after_fsync_incl|done].
  - destruct y; [done| |done]. rewrite !elem_of_app, elem_of_cons. tauto.
Qed.

Lemma after_fsync_snoc q w x : x ∈ after_fsync (q ++ [w]) -> x ∈ after_fsync q \/ x = w.
Proof.
  induction q as [|y q IH]; simpl.
  - destruct w; simpl; by intros ?%not_elem_of_nil.
  - destruct y; [done| |done]. rewrite elem_of_app, list_elem_of_singleton. tauto.
Qed.

Lemma after_fsync_none q1 q2 x :
  (forall t, FsyncWork t ∉ q1) -> x ∈ after_fsync (q1 ++ q2) -> x ∈ q2.
Proof.
  induction q1 as [|y q1 IH]; simpl; intros Hn; [by apply after_fsync_incl|].
  destruct y as [o|t|p]; [apply IH|by destruct (Hn t); left|apply IH];
    intros t Ht; apply (Hn t); by right.
Qed.

Lemma behind_drop q1 w q2 z : behind (q1 ++ w :: q2) z -> behind (q1 ++ q2) z.
Proof. intros H o Ho. apply H. by apply after_fsync_drop. Qed.

Lemma sorted_drop q1 w q2 : StronglySorted precedes (q1 ++ w :: q2) -> StronglySorted precedes (q1 ++ q2).
Proof.
  intros Hs. apply StronglySorted_app in Hs as (H12 & H1 & H2).
  apply StronglySorted_inv in H2 as [H2 H2f]. apply StronglySorted_app_2; [|done|done].
  intros x y Hx Hy. apply H12; [done|by right].
Qed.

Lemma sorted_after q1 w q2 x : StronglySorted precedes (q1 ++ w :: q2) -> x ∈ q2 -> precedes w x.
Proof.
  intros Hs Hx. apply StronglySorted_app in Hs as (_ & _ & H2).
  apply StronglySorted_inv in H2 as [_ H2]. rewrite Forall_forall in H2. by apply H2.
Qed.

(** The place of an entry in the queue. *)
Lemma queue_split s before o after w :
  ops (kern s) = before ++ o :: after -> fl s !! user_data (k_sqe o) = Some w ->
  queue s = omap (fun e => fl s !! user_data e) (k_sqe <$> before) ++ w ::
            (omap (fun e => fl s !! user_data e) ((k_sqe <$> after) ++ subq s) ++ pend s).
Proof.
  intros Ho Hw. unfold queue. rewrite Ho, fmap_app, fmap_cons, <- app_assoc, omap_app.
  cbn [app omap list_omap]. rewrite Hw, <- app_assoc. done.
Qed.

(** Covering every batch up to one covers the log up to its end. *)
Lemma present_prefix m l i :
  (forall j, (j <= i)%nat -> present m (pos l j) (pos l (S j))) -> present m base (pos l (S i)).
Proof.
  induction i as [|i IH]; intros Hj z Hz.
  - apply (Hj 0%nat); [lia|]. unfold durability.pos at 1. rewrite take_0. simpl. lia.
  - destruct (decide (z < pos l (S i))); [|apply (Hj (S i)); lia].
    apply IH; [intros j Hji; apply Hj; lia|lia].
Qed.

(** ** The order is kept by the engine's steps *)

Variable good : list Batch -> content -> nat -> Prop.
Abbreviation inv := (durability.inv base good).

Lemma omap_fl_ext {A} (key : A -> N) (f f' : gmap N IoWork) (es : list A) :
  (forall e, e ∈ es -> f !! key e = f' !! key e) ->
  omap (fun e => f !! key e) es = omap (fun e => f' !! key e) es.
Proof.
  induction es as [|e es IH]; intros He; [done|]. cbn [omap list_omap].
  rewrite (He e) by left. rewrite IH; [done|]. intros x Hx. apply He. by right.
Qed.

Lemma queue_placed s o : inv s -> WriteWork o ∈ queue s -> exists i, placed (lg s) o i.
Proof.
  intros I [Ho|Ho]%elem_of_app.
  - apply list_elem_of_omap in Ho as (e & _ & He). by destruct (i_fl _ _ _ I _ _ He) as (_ & Hi & _).
  - by destruct (i_pend _ _ _ I _ Ho) as (_ & Hi & _).
Qed.

Lemma placed_end l o i : placed l o i -> write_end o = pos l (S i) /\ (i < length l)%nat.
Proof.
  intros [Hi Ho]. unfold write_end. rewrite Ho, (at_index_S _ _ _ _ Hi).
  split; [done|]. destruct Hi as (b & Hb & _). by eapply lookup_lt_Some.
Qed.

Lemma ordered_ingest s b :
  inv s -> ordered s ->
  ordered (mk_st (pend s ++ [write b (pos (lg s) (length (lg s)))]) (fl s) (subq s) (kern s) (aw s) (acked s) (lg s ++ [b])).
Proof.
  intros I [F1 F2 F3 Hs Hc Ha Hq]. set (w := write b (pos (lg s) (length (lg s)))).
  match goal with |- ordered ?x => set (s' := x) end.
  assert (queue s' = queue s ++ [w]) as Hqueue by (unfold queue; simpl; by rewrite app_assoc).
  assert (forall z, z <= pos (lg s) (length (lg s)) -> behind (queue s) z -> behind (queue s') z) as Hb.
  { intros z Hz Hb o Ho. rewrite Hqueue in Ho. apply after_fsync_snoc in Ho as [Ho|[= ->]]; [by apply Hb|done]. }
  split; simpl.
  - intros o [Ho|Ho%list_elem_of_singleton]%elem_of_app; [by apply F1|]. unfold w in Ho. by injection Ho as ->.
  - done.
  - done.
  - rewrite Hqueue. apply StronglySorted_app_2; [|done|by repeat constructor].
    intros x y Hx ->%list_elem_of_singleton. destruct x as [o| |]; [|done..].
    destruct (queue_placed s o I Hx) as (i & Hi). destruct (placed_end _ _ _ Hi) as [He Hlt].
    unfold precedes. rewrite He. apply pos_le. lia.
  - intros i Hi. rewrite length_app in Hi. simpl in Hi. rewrite Hqueue.
    destruct (decide (i < length (lg s))%nat) as [Hlt|Hge].
    + destruct (Hc i Hlt) as [Hp|(o & Ho & Hpl)]; [left; by rewrite !pos_app by lia|right].
      exists o. split; [by apply elem_of_app; left|by apply placed_app].
    + assert (i = length (lg s)) as -> by lia. right. exists (mk_write b (pos (lg s) (length (lg s))) 0).
      split; [apply elem_of_app; right; by left|]. split; [|simpl; by rewrite pos_app].
      exists b. by rewrite lookup_app_r, Nat.sub_diag.
  - intros x Hx. destruct (Ha x Hx) as (i & Hi & Hbe). exists i. destruct (at_index_app _ [b] _ _ Hi).
    split; [done|]. rewrite pos_app by lia. apply Hb; [apply pos_le; lia|done].
  - intros c o Hcq Hf. apply Hb; [|by eapply Hq].
    destruct (i_fl _ _ _ I _ _ Hf) as (_ & (i & Hi) & _). destruct (placed_end _ _ _ Hi) as [-> Hlt].
    apply pos_le. lia.
Qed.

Lemma ordered_arm s t :
  ordered s -> ordered (mk_st (pend s ++ [FsyncWork t]) (fl s) (subq s) (kern s) (aw s) (acked s) (lg s)).
Proof.
  intros [F1 F2 F3 Hs Hc Ha Hq]. match goal with |- ordered ?x => set (s' := x) end.
  assert (queue s' = queue s ++ [FsyncWork t]) as Hqueue by (unfold queue; simpl; by rewrite app_assoc).
  assert (forall z, behind (queue s) z -> behind (queue s') z) as Hb.
  { intros z Hb o Ho. rewrite Hqueue in Ho. apply after_fsync_snoc in Ho as [Ho|[=]]. by apply Hb. }
  split; simpl.
  - intros o [Ho|Ho%list_elem_of_singleton]%elem_of_app; [by apply F1|done].
  - done.
  - done.
  - rewrite Hqueue. apply StronglySorted_app_2; [|done|by repeat constructor].
    intros x y Hx ->%list_elem_of_singleton. by destruct x.
  - intros i Hi. rewrite Hqueue. destruct (Hc i Hi) as [Hp|(o & Ho & Hpl)]; [by left|right].
    exists o. split; [by apply elem_of_app; left|done].
  - intros x Hx. destruct (Ha x Hx) as (i & Hi & Hbe). exists i. split; [done|by apply Hb].
  - intros c o Hcq Hf. apply Hb. by eapply Hq.
Qed.

(** Steps that do not change the queue. *)
Lemma ordered_same s s' :
  ordered s -> queue s' = queue s -> lg s' = lg s -> page (kern s') = page (kern s) ->
  (forall o, WriteWork o ∈ pend s' -> done o = 0) ->
  (forall k o, fl s' !! k = Some (WriteWork o) -> done o = 0) ->
  (forall c, c ∈ cq (kern s') -> c ∈ cq (kern s) /\ fl s' !! cq_user_data c = fl s !! cq_user_data c) ->
  (forall b, b ∈ aw s' -> b ∈ aw s \/ exists i, at_index (lg s) i b /\ behind (queue s) (pos (lg s) (S i))) ->
  ordered s'.
Proof.
  intros [F1 F2 F3 Hs Hc Ha Hq] Eq El Ep Hp Hf Hcq Haw. split; rewrite ?Eq, ?El, ?Ep; try done.
  - intros c o Hin Hw. destruct (Hcq c Hin) as [Hin' E]. rewrite E in Hw. by apply F3.
  - intros b [Hb|Hb]%Haw; [by apply Ha|done].
  - intros c o Hin Hw. destruct (Hcq c Hin) as [Hin' E]. rewrite E in Hw. by eapply Hq.
Qed.

(** A new key is none of those in use. *)
Lemma insert_new_key s w key k :
  inv s -> fl s !! key = None -> k ∈ keys s -> <[key := w]> (fl s) !! k = fl s !! k.
Proof. intros I Hk [x Hx]%(keys_fl base good); [|done]. apply lookup_insert_ne. congruence. Qed.

Lemma queue_push s w p key fd e :
  inv s -> pend s = w :: p -> fl s !! key = None -> sqe w fd key = Done e ->
  queue (mk_st p (<[key := w]> (fl s)) (subq s ++ [e]) (kern s) (aw s) (acked s) (lg s)) = queue s.
Proof.
  intros I Hp Hk He. unfold queue. simpl. rewrite app_assoc, omap_app, Hp, <- app_assoc. f_equal.
  - apply omap_fl_ext. intros x Hx. apply insert_new_key; [done..|]. apply sqe_key. in_app.
  - cbn [omap list_omap]. by rewrite (sqe_user_data _ _ _ _ He), lookup_insert_eq.
Qed.

Lemma queue_submit s n :
  queue (mk_st (pend s) (fl s) (drop n (subq s)) (submit_ops (kern s) (take n (subq s))) (aw s) (acked s) (lg s)) =
  queue s.
Proof.
  unfold queue. simpl. do 2 f_equal. rewrite fmap_app, <- list_fmap_compose.
  change (k_sqe ∘ (fun e => mk_kop e None)) with (fun e : Sqe => e). rewrite list_fmap_id.
  by rewrite <- app_assoc, take_drop.
Qed.

(** The key of the completion at the head is used once. *)
Lemma head_key s c q :
  inv s -> cq (kern s) = c :: q ->
  (forall e, e ∈ (k_sqe <$> ops (kern s)) ++ subq s -> user_data e <> cq_user_data c) /\
  (forall x, x ∈ q -> cq_user_data x <> cq_user_data c).
Proof.
  intros I Hq. pose proof (i_keys _ _ _ I) as Ks. unfold keys in Ks. rewrite Hq in Ks.
  rewrite app_assoc, fmap_cons, <- Permutation_middle, <- app_assoc in Ks.
  apply NoDup_cons in Ks as [Hnk _]. rewrite !elem_of_app in Hnk. split; intros x Hx E; apply Hnk; rewrite <- E.
  - apply elem_of_app in Hx as [(o & -> & Ho)%list_elem_of_fmap|Hx]; [|left; by apply list_elem_of_fmap_2].
    right; left. apply list_elem_of_fmap. by exists o.
  - right; right. by apply list_elem_of_fmap_2.
Qed.

Lemma queue_pop s c q a' k' :
  inv s -> cq (kern s) = c :: q ->
  queue (mk_st (pend s) (delete (cq_user_data c) (fl s)) (subq s)
           (mk_kernel (ops (kern s)) (page (kern s)) (disk (kern s)) q) a' k' (lg s)) = queue s.
Proof.
  intros I Hq. unfold queue. simpl. f_equal. apply omap_fl_ext. intros e He. apply lookup_delete_ne.
  intros E. by apply (proj1 (head_key s c q I Hq) e).
Qed.

Lemma ordered_push s w p key fd e :
  inv s -> ordered s -> pend s = w :: p -> fl s !! key = None -> sqe w fd key = Done e ->
  ordered (mk_st p (<[key := w]> (fl s)) (subq s ++ [e]) (kern s) (aw s) (acked s) (lg s)).
Proof.
  intros I Ho Hp Hk He. apply (ordered_same s); simpl; try done.
  - by eapply queue_push.
  - intros o Hin. apply (o_fresh s Ho). rewrite Hp. by right.
  - intros k o [[_ Hw]|[_ Hx]]%lookup_insert_Some; [|by eapply (o_fresh_fl s Ho)].
    apply (o_fresh s Ho). rewrite Hp, Hw. by left.
  - intros c Hc. split; [done|]. by apply insert_new_key, cq_key.
  - by left.
Qed.

Lemma ordered_submit s n :
  ordered s ->
  ordered (mk_st (pend s) (fl s) (drop n (subq s)) (submit_ops (kern s) (take n (subq s))) (aw s) (acked s) (lg s)).
Proof.
  intros Ho. apply (ordered_same s); simpl; try done.
  - apply queue_submit.
  - apply (o_fresh s Ho).
  - apply (o_fresh_fl s Ho).
  - by left.
Qed.

Lemma ordered_pop s c q a' k' :
  inv s -> ordered s -> cq (kern s) = c :: q ->
  (forall b, b ∈ a' -> b ∈ aw s \/ exists o, finishes (fl s) c o /\ wal_eq b (io_work.data o)) ->
  ordered (mk_st (pend s) (delete (cq_user_data c) (fl s)) (subq s)
            (mk_kernel (ops (kern s)) (page (kern s)) (disk (kern s)) q) a' k' (lg s)).
Proof.
  intros I Ho Hq Ha. apply (ordered_same s); simpl; try done.
  - by apply queue_pop.
  - apply (o_fresh s Ho).
  - intros k o [_ Hw]%lookup_delete_Some. by eapply (o_fresh_fl s Ho).
  - intros x Hx. split; [rewrite Hq; by right|]. apply lookup_delete_ne.
    intros E. by apply (proj2 (head_key s c q I Hq) x).
  - intros b [Hb|(o & (F1 & F2 & F3) & Hw)]%Ha; [by left|right].
    destruct (i_fl _ _ _ I _ _ F1) as (_ & (i & Hi) & _). exists i. split; [by eapply at_index_eq; [|apply Hi]|].
    destruct (placed_end _ _ _ Hi) as [<- _]. apply (o_cq s Ho c); [rewrite Hq; by left|done].
Qed.

Lemma ordered_astep s s' : inv s -> ordered s -> astep base s s' -> ordered s'.
Proof.
  intros I Ho Hs.
  destruct Hs as [p f q k a c l b Hok|p f q k a c l t|w p f q k a c l key fd e Hk He|p f q k a c l n
                 |p f q op pg dk x cqs a c l o b' more Hf Hr Hd Hw Hm
                 |p f q op pg dk x cqs a c l o Hf Hlt Hn
                 |p f q op pg dk x cqs a c l t Hf Hr
                 |p f q op pg dk x cqs a c l path Hf];
    match type of I with inv ?s0 => set (s0' := s0) in * end.
  - by apply (ordered_ingest s0').
  - by apply (ordered_arm s0').
  - by apply (ordered_push s0' w p key fd e).
  - by apply (ordered_submit s0').
  - apply (ordered_pop s0' x cqs (a ++ more) c I Ho eq_refl).
    intros b Hb. apply elem_of_app in Hb as [Hb|Hb]; [by left|]. right. exists o.
    destruct Hm as [->| ->]; [by apply not_elem_of_nil in Hb|]. by apply list_elem_of_singleton in Hb as ->.
  - exfalso. pose proof (o_fresh_fl s0' Ho _ _ Hf) as Hd. pose proof (o_full s0' Ho x o) as Hfull.
    rewrite Hfull in Hlt; [|by left|done]. lia.
  - apply (ordered_pop s0' x cqs [] (c ++ a) I Ho eq_refl). by intros b Hb%not_elem_of_nil.
  - apply (ordered_pop s0' x cqs a c I Ho eq_refl). by left.
Qed.

(** ** ... and by the kernel's *)

Lemma ordered_page s pg :
  ordered s -> grows (page (kern s)) pg ->
  ordered (set_kern s (mk_kernel (ops (kern s)) pg (disk (kern s)) (cq (kern s)))).
Proof.
  intros [F1 F2 F3 Hs Hc Ha Hq] Hg. split; try done.
  intros i Hi. destruct (Hc i Hi) as [Hp|Hp]; [left; by eapply present_grows|by right].
Qed.

(** Entries before one that may run are no fsyncs. *)
Lemma before_no_fsync s before o after t :
  inv s -> ops (kern s) = before ++ o :: after -> can_run before o ->
  FsyncWork t ∉ omap (fun e => fl s !! user_data e) (k_sqe <$> before).
Proof.
  intros I Ho [Hb _] Hin. apply list_elem_of_omap in Hin as (e & He & Hf).
  apply list_elem_of_fmap in He as (x & -> & Hx).
  destruct (i_sqe _ _ _ I (k_sqe x)) as (w & fd & Hw & Hs); [rewrite Ho, fmap_app; apply elem_of_app; right; apply elem_of_app; left; by apply list_elem_of_fmap_2|].
  rewrite Hf in Hw. injection Hw as <-. injection Hs as Hs.
  rewrite Forall_forall in Hb. specialize (Hb x Hx). by rewrite <- Hs in Hb.
Qed.

(** An entry completes: its operation leaves the queue. *)
Lemma queue_complete s before o after pg dk q :
  ops (kern s) = before ++ o :: after ->
  queue (set_kern s (mk_kernel (before ++ after) pg dk q)) =
  omap (fun e => fl s !! user_data e) (k_sqe <$> before) ++
  omap (fun e => fl s !! user_data e) ((k_sqe <$> after) ++ subq s) ++ pend s.
Proof. intros Ho. unfold queue. simpl. by rewrite fmap_app, <- app_assoc, omap_app, <- app_assoc. Qed.

Lemma ordered_complete s before o after c w :
  inv s -> ordered s -> ops (kern s) = before ++ o :: after -> fl s !! user_data (k_sqe o) = Some w ->
  cq_user_data c = user_data (k_sqe o) ->
  (forall x, w = WriteWork x -> can_run before o /\ cq_result c = len (out (io_work.data x)) /\
     present (page (kern s)) (io_work.offset x) (write_end x)) ->
  ordered (set_kern s (mk_kernel (before ++ after) (page (kern s)) (disk (kern s)) (cq (kern s) ++ [c]))).
Proof.
  intros I Hor Ho Hw Hud Hx. pose proof Hor as [F1 F2 F3 Hs Hc Ha Hq].
  pose proof (queue_split s before o after w Ho Hw) as Eq.
  match goal with |- ordered ?x => set (s' := x) end.
  pose proof (queue_complete s before o after (page (kern s)) (disk (kern s)) (cq (kern s) ++ [c]) Ho) as Eq'.
  fold s' in Eq'.
  set (q1 := omap _ (k_sqe <$> before)) in *. set (q2 := omap _ _ ++ pend s) in *.
  assert (forall z, behind (queue s) z -> behind (queue s') z) as Hb.
  { intros z. rewrite Eq, Eq'. apply behind_drop. }
  split; simpl; try done.
  - intros x o' [Hin|Hin%list_elem_of_singleton]%elem_of_app Hf; [by apply F3|subst x].
    rewrite Hud, Hw in Hf. injection Hf as ->. by apply Hx.
  - rewrite Eq'. rewrite Eq in Hs. by eapply sorted_drop.
  - intros i Hi. destruct (Hc i Hi) as [Hp|(o' & Hin & Hpl)]; [by left|].
    rewrite Eq, elem_of_app, elem_of_cons in Hin. destruct Hin as [Hin|[E|Hin]].
    + right. exists o'. split; [|done]. rewrite Eq'. apply elem_of_app. by left.
    + left. destruct (Hx o') as (_ & _ & Hp); [done|]. destruct (placed_end _ _ _ Hpl) as [<- _].
      destruct Hpl as [_ <-]. done.
    + right. exists o'. split; [|done]. rewrite Eq'. apply elem_of_app. by right.
  - intros b (i & Hi & Hbe)%Ha. exists i. split; [done|by apply Hb].
  - intros x o' [Hin|Hin%list_elem_of_singleton]%elem_of_app Hf; [apply Hb; by eapply Hq|subst x].
    rewrite Hud, Hw in Hf. injection Hf as ->. destruct (Hx o') as (Hrun & _ & _); [done|].
    intros y Hy. rewrite Eq' in Hy. apply after_fsync_none in Hy.
    + rewrite Eq in Hs. by apply (sorted_after _ _ _ _ Hs) in Hy.
    + intros t. by eapply before_no_fsync.
Qed.

Lemma ordered_fsync_end s before e m0 after r :
  inv s -> ordered s -> ops (kern s) = before ++ mk_kop e (Some m0) :: after ->
  ordered (set_kern s (mk_kernel (before ++ after) (page (kern s)) (disk (kern s))
                         (cq (kern s) ++ [mk_cqe (user_data e) r]))).
Proof.
  intros I Hor Ho.
  destruct (i_run _ _ _ I (mk_kop e (Some m0)) m0) as (_ & Hd & _); [rewrite Ho; in_app|done|].
  destruct (i_sqe _ _ _ I e) as (w & fd & Hw & He); [rewrite Ho, fmap_app; simpl; in_app|].
  apply (ordered_complete s before (mk_kop e (Some m0)) after (mk_cqe (user_data e) r) w I Hor Ho Hw eq_refl).
  intros x ->. simpl in He, Hd. destruct (slice_from _ _); simpl in He; [|done|done].
  injection He as He. by rewrite <- He in Hd.
Qed.

Lemma ordered_kernel s k :
  inv s -> ordered s -> Forall (fun b => u32 (len (out b))) (lg s) ->
  doc_step full_result (kern s) k -> ordered (set_kern s k).
Proof.
  intros I Hor Hlen Hk. destruct s as [p f q [op pg dk cqs] a c l]. simpl in *.
  remember (mk_kernel op pg dk cqs) as k0 eqn:Ek.
  destruct Hk as [before e fd buf off after i j pg0 dk0 q0 Hop Hc Hij
                 |before e fd buf off after r pg0 dk0 q0 Hop Hc Hr Hres
                 |before e fd ds after pg0 dk0 q0 Hop Hc
                 |before e m0 after r pg0 dk0 q0 Hr
                 |before e m0 after r pg0 dk0 q0 Hr
                 |before e path after r pg0 dk0 q0 Hop Hc
                 |m o pg0 dk0 q0 Hm]; injection Ek as <- <- <- <-;
    match type of I with inv ?s0 => set (s := s0) in * end.
  4,5: pose proof (ordered_fsync_end s before e m0 after r I Hor eq_refl) as Hfs.
  - apply (ordered_page s); [done|apply grows_write_at].
  - destruct (entry_write base good s before (mk_kop e None) after fd buf off I eq_refl Hop)
      as (w & n & Hf & Hok & Hpl & Hpr & -> & ->).
    pose proof (o_fresh_fl s Hor _ _ Hf) as Hd. rewrite Hd, Z.add_0_r, Z.sub_0_r in *.
    assert (u32 (len (out (io_work.data w)))) as Hu.
    { destruct Hpl as [(b & Hb & Ho & _) _]. rewrite Ho. by eapply (Forall_lookup_1 _ _ _ _ Hlen). }
    rewrite as_u32_small in * by done. change (drop (Z.to_nat 0) ?x) with (drop 0 x) in *.
    rewrite drop_0 in *. unfold full_result in Hres. rewrite (take_ge (out _)) in * by lia. subst r.
    rewrite take_ge by lia.
    set (pg' := write_at pg0 (io_work.offset w) (out (io_work.data w))).
    assert (grows pg0 pg') as Hg by apply grows_write_at.
    assert (agrees base (lg s) pg') as Hag.
    { destruct Hpl as [Hpl Hoff]. unfold pg'. rewrite Hoff, <- (Z.add_0_r (pos _ _)).
      eapply agrees_write; [exact Hpl|apply (i_page _ _ _ I)|lia|]. by intros. }
    pose proof (inv_page base good s pg' I Hg Hag) as I'.
    pose proof (ordered_page s pg' Hor Hg) as Hor'.
    apply (ordered_complete _ before (mk_kop e None) after (mk_cqe (user_data e) (len (out (io_work.data w))))
      (WriteWork w) I' Hor' eq_refl Hf eq_refl).
    intros x [= <-]. split; [done|]. split; [done|]. unfold write_end, pg'. simpl.
    apply present_write_at; [|lia]. intros z Hz. lia.
  - apply (ordered_same s); simpl; try done.
    + unfold queue. simpl. by rewrite !fmap_app.
    + apply (o_fresh s Hor).
    + apply (o_fresh_fl s Hor).
    + by left.
  - eapply (ordered_same (set_kern s (mk_kernel (before ++ after) pg0 dk0 (q0 ++ [mk_cqe (user_data e) r]))));
      [exact Hfs|done..| | |done|by left]; [apply (o_fresh s Hor)|apply (o_fresh_fl s Hor)].
  - exact Hfs.
  - destruct (i_sqe _ _ _ I e) as (w & fd & Hw & He); [simpl; rewrite fmap_app; simpl; in_app|].
    apply (ordered_complete s before (mk_kop e None) after (mk_cqe (user_data e) r) w I Hor eq_refl Hw eq_refl).
    intros x ->. simpl in He. destruct (slice_from _ _); simpl in He; [|done|done].
    injection He as He. by rewrite <- He in Hop.
  - apply (ordered_same s); try done; [apply (o_fresh s Hor)|apply (o_fresh_fl s Hor)|by left].
Qed.

End order.

(** ** The promise that the log is there up to each batch *)

Definition prefix_bytes (base : Z) (l : list Batch) (m : content) (i : nat) : Prop :=
  present m base (pos base l (S i)).

Lemma prefix_laws base : good_laws (prefix_bytes base).
Proof.
  split.
  - intros l m m' i Hg Hp. by eapply present_grows.
  - intros l l' m i Hi Hp. unfold prefix_bytes. rewrite !pos_app by lia. done.
Qed.

Section prefix.
Variable base : Z.
Abbreviation inv := (durability.inv base (prefix_bytes base)).

Lemma ordered_startable s : inv s -> ordered base s -> startable base (prefix_bytes base) s.
Proof.
  intros I Ho before e fd ds after Hops Hop Hrun.
  destruct (i_sqe _ _ _ I e) as (w & fd' & Hw & He); [rewrite Hops, fmap_app; simpl; in_app|].
  assert (exists t, w = FsyncWork t /\ sq_drain e = true) as (t & -> & Hd).
  { destruct w as [x|t|p]; simpl in He.
    - destruct (slice_from _ _); simpl in He; [|done|done]. injection He as He. by rewrite <- He in Hop.
    - injection He as He. exists t. by rewrite <- He.
    - injection He as He. by rewrite <- He in Hop. }
  assert (before = []) as -> by (by apply Hrun).
  pose proof (queue_split s [] (mk_kop e None) after _ Hops Hw) as Eq. simpl in Eq.
  assert (forall i z, z = pos base (lg s) (S i) -> (i < length (lg s))%nat -> behind (queue s) z ->
    prefix_bytes base (lg s) (page (kern s)) i) as Hpre.
  { intros i z -> Hi Hb. apply present_prefix. intros j Hj.
    destruct (o_cover base s Ho j) as [Hp|(o & Hin & Hpl)]; [lia|done|].
    assert (pos base (lg s) (S i) <= io_work.offset o) as Hle.
    { apply Hb. rewrite Eq in Hin |- *. simpl. apply elem_of_cons in Hin as [[=]|Hin]. done. }
    destruct Hpl as [_ Hoff]. pose proof (pos_le base (lg s) (S j) (S i)). intros y Hy. lia. }
  split.
  - intros b (i & Hi & Hb)%(o_aw base s Ho). exists i. split; [done|].
    apply (Hpre i _ eq_refl); [|done]. destruct Hi as (b' & Hi & _). by eapply lookup_lt_Some.
  - intros c o Hc (Hf & Hr & Hdn). destruct (i_fl _ _ _ I _ _ Hf) as (_ & (i & Hi) & _).
    destruct (placed_end _ _ _ _ Hi) as [He' Hlt]. exists i. split; [done|].
    apply (Hpre i (write_end o)); [done|done|]. by eapply (o_cq base s Ho).
Qed.

End prefix.

Section theorems.
Context {L : Type} `{SlabLaws L} {K : Type} `{UringLaws K full_result}.
Implicit Types w : World L K.

Lemma ordered_rtc base good s s' :
  good_laws good -> rtc (astep base) s s' -> durability.inv base good s -> ordered base s -> ordered base s'.
Proof.
  intros G. induction 1 as [|s1 s2 s3 Hs _ IH]; [done|]. intros I Ho.
  apply IH; [by eapply inv_astep|by eapply ordered_astep].
Qed.

Lemma lg_astep base s s' : astep base s s' -> exists l, lg s' = lg s ++ l.
Proof. destruct 1; simpl; try (by exists []; rewrite app_nil_r). by eexists. Qed.

Lemma ingested_grows w w' : wstep w w' -> exists l, ingested w' = ingested w ++ l.
Proof. destruct 1; simpl; try (by exists []; rewrite app_nil_r). by eexists. Qed.

Lemma ingested_grows_rtc w w' : rtc wstep w w' -> exists l, ingested w' = ingested w ++ l.
Proof.
  induction 1 as [|w1 w2 w3 Hs _ [l IH]]; [by exists []; rewrite app_nil_r|].
  destruct (ingested_grows _ _ Hs) as [l' E]. exists (l' ++ l). by rewrite IH, E, app_assoc.
Qed.

Lemma ordered_initial base w : initial w -> ordered base (abs w).
Proof.
  intros [I1 I2 I3 I4 I5 I6 I7 I8 I9 I10]. unfold abs. rewrite I1, I2, I3, I4, I5, I6.
  destruct (ku_view (uring w)) as [o pg dk q]. simpl in *. subst o q.
  split; unfold queue; simpl; try done; try (by intros ? ?%not_elem_of_nil);
    try (by intros ? ? ?%not_elem_of_nil).
  - constructor.
  - intros i Hi. lia.
Qed.

Lemma wstep_ordered base w w' :
  wstep w w' -> Forall (fun b => u32 (len (out b))) (ingested w) ->
  world_wf base w -> durability.inv base (prefix_bytes base) (abs w) -> ordered base (abs w) ->
  world_wf base w' /\ durability.inv base (prefix_bytes base) (abs w') /\ ordered base (abs w').
Proof.
  intros Hs Hlen W I Ho.
  destruct (wstep_sim base (prefix_bytes base) (prefix_laws base) w w' Hs W I) as [W2 Hsim].
  destruct (wstep_ok base (prefix_bytes base) (prefix_laws base) w w' Hs W I (ordered_startable base _ I Ho))
    as [_ I2].
  split_and!; [done|done|]. destruct Hsim as [R|(k & Hk & E)].
  - by eapply ordered_rtc; [apply prefix_laws| | |].
  - rewrite E. by apply (ordered_kernel base (prefix_bytes base)).
Qed.

Lemma reachable_ordered base w w' :
  rtc wstep w w' -> Forall (fun b => u32 (len (out b))) (ingested w') ->
  world_wf base w -> durability.inv base (prefix_bytes base) (abs w) -> ordered base (abs w) ->
  durability.inv base (prefix_bytes base) (abs w') /\ ordered base (abs w').
Proof.
  induction 1 as [|w1 w2 w3 Hs Hr IH]; [done|]. intros Hlen W I Ho.
  destruct (wstep_ordered base w1 w2 Hs) as (W2 & I2 & Ho2); try done; [|by apply IH].
  destruct (ingested_grows_rtc w1 w3) as [l El]; [by eapply rtc_l|]. rewrite El in Hlen.
  by apply Forall_app in Hlen as [? _].
Qed.

Lemma ack_covers w0 w b :
  initial w0 -> rtc wstep w0 w -> Forall (fun b => u32 (len (out b))) (ingested w) ->
  b ∈ durable_acks (trace (eng w)) ->
  exists i b', ingested w !! i = Some b' /\ wal_eq b b' /\
    forall n x, concat (out <$> take (S i) (ingested w)) !! n = Some x ->
      disk (ku_view (uring w)) !! (segment.offset (seg (eng w0)) + Z.of_nat n) = Some x.
Proof.
  intros Hi0 Hr Hlen Hb. set (base := segment.offset (seg (eng w0))).
  destruct (inv_initial base (prefix_bytes base) w0 Hi0 (initial_wf w0 Hi0) eq_refl) as [W0 I0].
  destruct (reachable_ordered base w0 w Hr Hlen W0 I0 (ordered_initial base w0 Hi0)) as [I Ho].
  destruct (i_acked _ _ _ I b Hb) as (i & Hi & Hg). simpl in Hi, Hg.
  pose proof Hi as (b' & Hl & Hw). exists i, b'. split; [done|]. split; [done|].
  intros n x Hn. pose proof (lookup_lt_Some _ _ _ Hn) as Hlt.
  destruct (Hg (base + Z.of_nat n)) as [y Hy]; [unfold pos; lia|]. rewrite Hy.
  pose proof (i_disk _ _ _ I _ _ Hy) as Hd. simpl in Hd.
  replace (Z.to_nat (base + Z.of_nat n - base)) with n in Hd by lia.
  rewrite <- Hd by lia. rewrite <- Hn. symmetry.
  rewrite <- (take_drop (S i) (ingested w)) at 2. rewrite fmap_app, concat_app. by rewrite lookup_app_l.
Qed.

(** C6: no acknowledged write can be lost: when the kernel's writes are complete
    (and no batch's records exceed 4 GiB), a batch acknowledged as durable has
    the whole log up to its own end on disk, every earlier batch included, in
    any interleaving of the engine and the kernel. *)
Theorem durable_ack_covers_log w0 w b :
  initial w0 -> rtc wstep w0 w -> Forall (fun b => u32 (len (out b))) (ingested w) ->
  b ∈ durable_acks (trace (eng w)) ->
  exists i b', ingested w !! i = Some b' /\ wal_eq b b' /\
    forall n x, concat (out <$> take (S i) (ingested w)) !! n = Some x ->
      disk (ku_view (uring w)) !! (segment.offset (seg (eng w0)) + Z.of_nat n) = Some x.
Proof. apply ack_covers. Qed.

End theorems.

(** ** Witness *)

Definition full_ok (n r : Z) : bool := r =? n.
Lemma full_ok_result n r : full_ok n r = true -> full_result n r.
Proof. unfold full_ok, full_result. lia. Qed.

Definition ex_world : World (gmap N IoWork) (doc_kernel full_result) :=
  mk_world (stage3.ex_engine args.Sync) (mk_kernel [] ∅ ∅ []) [].

Lemma durable_ack_covers_log_witness :
  exists w, exec full_result full_ok ex_world ex_actions = Some w /\
    disk (ku_view (uring w)) !! 1 = Some Byte.x00.
Proof.
  assert (exists w, exec full_result full_ok ex_world ex_actions = Some w /\
    durable_acks (trace (eng w)) = [encoded stage3.ex_batch] /\ length (ingested w) = 1%nat /\
    forallb (fun b => bool_decide (u32 (len (out b)))) (ingested w) = true)
    as (w & Hx & Ha & Hl & Hu)
    by (eexists; split; [vm_compute; reflexivity|split; [|split]; vm_compute; reflexivity]).
  exists w. split; [exact Hx|].
  destruct (durable_ack_covers_log ex_world w (encoded stage3.ex_batch)) as (i & b' & Hi & _ & Hd).
  - by split.
  - eapply exec_ok; [|exact Hx]. exact full_ok_result.
  - apply Forall_forall. intros b Hb. rewrite forallb_forall in Hu.
    eapply bool_decide_eq_true, Hu. by apply list_elem_of_In.
  - rewrite Ha. by left.
  - assert (i = 0%nat) as -> by (apply lookup_lt_Some in Hi; lia).
    apply (Hd 1%nat Byte.x00). vm_compute in Hx. injection Hx as <-. vm_compute. reflexivity.
Defined.

End noloss.
