(* ===== verification/Pipeline.v ===== *)
(** * The pipeline end to end

    What the stages promise each other and what the whole server promises a
    client: the batches of stage 2 are what stage 3 expects, and what stage 3
    acknowledged as durable is what [recover] restores after a crash. *)

From S2P Require Import Prelude Wire Db WalFormat Snapshot Recovery Types Acker Stage1 Stage2.
From S2P Require Import FsyncPlanner IoWork Stage3 Kernel Durability NoLoss.
Local Open Scope Z_scope.

Module pipeline.
Import types acker wal_format kernel kernel_laws.

(** ** From requests to log records *)

(** The records of a batch. *)
Definition batch_records (b : Batch) : list (Z * bytes) :=
  stage3.number (lsn_low b) (stage3.put_bodies (items b)).
Definition log_records (l : list Batch) : list (Z * bytes) := concat (batch_records <$> l).
(** The requests of the batches, in order. *)
Definition log_items (l : list Batch) : list Request := concat (items <$> l).

(** A batch as the engine logs it. *)
Record logged (b : Batch) : Prop := {
  lo_out : out b = recovery.wal_bytes (batch_records b);
  lo_items : Forall (fun r => types.data r <> [] /\ u32 (8 + len (types.data r))) (items b);
  lo_low : 0 <= lsn_low b;
  lo_hi : u64 (lsn_low b + len (stage3.put_bodies (items b)));
}.

Lemma encoded_logged {L} `{Slab L} (e : stage3.WalEngine L) b :
  stage3.ingestable e b -> logged (stage3.encoded b).
Proof. intros [Hlo Ho Hi Hl Hh Hu Hf He]. split; simpl; try done. by rewrite <- Hh. Qed.

Lemma wal_bytes_log l : Forall logged l -> concat (out <$> l) = recovery.wal_bytes (log_records l).
Proof.
  induction 1 as [|b l Hb Hl IH]; [done|]. unfold log_records in *. rewrite !fmap_cons. cbn [concat].
  by rewrite recovery.wal_bytes_app, (lo_out b Hb), IH.
Qed.

Lemma op_index (o : Init.Byte.byte) d : wire.op (o :: d) = Done o.
Proof. by apply index_Done. Qed.

Lemma number_app l w1 w2 : stage3.number l (w1 ++ w2) = stage3.number l w1 ++ stage3.number (l + len w1) w2.
Proof.
  revert l. induction w1 as [|w w1 IH]; intros l; simpl; [by rewrite Z.add_0_r|].
  rewrite IH. do 3 f_equal. lia.
Qed.

(** Batches whose LSNs are contiguous: one numbering of all their PUTs. *)
Lemma log_records_number l0 l :
  (forall i b, l !! i = Some b -> lsn_low b = l0 + len (put_reqs (log_items (take i l)))) ->
  log_records l = stage3.number l0 (types.data <$> put_reqs (log_items l)).
Proof.
  revert l0. induction l as [|b l IH]; intros l0 Hl; [done|].
  unfold log_records, log_items in *. rewrite !fmap_cons. cbn [concat].
  rewrite put_reqs_app, fmap_app, number_app, length_fmap. f_equal.
  - unfold batch_records, stage3.put_bodies. rewrite (Hl 0%nat b eq_refl). simpl. by rewrite Z.add_0_r.
  - apply IH. intros i b' Hi. rewrite (Hl (Datatypes.S i) b' Hi). cbn [take]. rewrite fmap_cons. cbn [concat].
    rewrite put_reqs_app, length_app. lia.
Qed.

Lemma req_ok_redo r : req_ok r = true -> recovery.redo_ok (types.data r) = true.
Proof.
  unfold req_ok, recovery.redo_ok. destruct (types.data r) as [|o d]; [done|]. rewrite op_index.
  destruct (decide (o = wire.OP_PUT)) as [->|]; done.
Qed.

Lemma is_put_data r : types.data r <> [] -> is_put r = true -> wire.op (types.data r) = Done wire.OP_PUT.
Proof.
  unfold is_put, opc. destruct (types.data r) as [|o d]; [done|]. intros _ H%bool_decide_eq_true.
  rewrite op_index. f_equal. unfold wire.operation_from in H. repeat case_decide; congruence.
Qed.

Lemma redo_body_put m r :
  req_ok r = true -> is_put r = true -> recovery.redo_body m (types.data r) = stage2.spec_step m r.
Proof.
  intros Hr Hp. unfold recovery.redo_body. rewrite is_put_data by (done || by apply req_ok_nonempty).
  destruct (split_kv_req r Hr) as [Hs _]; [right; by apply stage2.is_put_opc|]. unfold split_kv in Hs. rewrite Hs.
  unfold stage2.spec_step. rewrite Hp. destruct (kv_of r). by rewrite decide_True.
Qed.

(** Replaying the records of some requests gives the table of serving them. *)
Lemma redo_number its l m :
  Forall (fun r => req_ok r = true) its -> 0 <= l ->
  recovery.redo 0 m (stage3.number l (stage3.put_bodies its)) = stage2.spec_view m its.
Proof.
  intros Hok. revert l m. induction Hok as [|r its Hr Hok IH]; intros l m Hl; [done|].
  unfold stage3.put_bodies in *. rewrite put_reqs_cons. unfold stage2.spec_view. cbn [fold_left].
  fold (stage2.spec_view (stage2.spec_step m r) its).
  destruct (is_put r) eqn:Ep.
  - cbn [app fmap list_fmap stage3.number]. unfold recovery.redo. cbn [fold_left fst snd].
    replace (l + 1 <=? 0) with false by lia_bool. rewrite redo_body_put by done.
    apply IH. lia.
  - rewrite app_nil_l, IH by done. f_equal. unfold stage2.spec_step. by rewrite Ep.
Qed.

Lemma redo_log l m :
  Forall logged l -> Forall (fun r => req_ok r = true) (log_items l) ->
  recovery.redo 0 m (log_records l) = stage2.spec_view m (log_items l).
Proof.
  intros Hl. revert m. induction Hl as [|b l Hb Hl IH]; intros m Hok; [done|].
  unfold log_records, log_items in *. rewrite !fmap_cons in *. cbn [concat] in *.
  apply Forall_app in Hok as [H1 H2].
  rewrite recovery.redo_app, stage2.spec_view_app, IH by done. f_equal.
  apply redo_number; [done|]. apply (lo_low b Hb).
Qed.

Lemma number_rec_ok its l :
  Forall (fun r => req_ok r = true) its ->
  Forall (fun r => types.data r <> [] /\ u32 (8 + len (types.data r))) its ->
  0 <= l -> u64 (l + len (stage3.put_bodies its)) ->
  Forall recovery.rec_ok (stage3.number l (stage3.put_bodies its)).
Proof.
  intros Hok. revert l. induction Hok as [|r its Hr Hok IH]; intros l Hd Hl Hu; [constructor|].
  apply Forall_cons in Hd as [[_ Hs] Hd]. unfold stage3.put_bodies in *. rewrite put_reqs_cons in *.
  destruct (is_put r); [|by apply IH]. cbn [app] in *. rewrite fmap_cons in *. cbn [stage3.number].
  rewrite length_cons in Hu. unfold u64 in *.
  constructor; [|apply IH; [done|lia|lia]]. split; [unfold u64; simpl; lia|]. split; [done|]. by apply req_ok_redo.
Qed.

Lemma log_rec_ok l :
  Forall logged l -> Forall (fun r => req_ok r = true) (log_items l) -> Forall recovery.rec_ok (log_records l).
Proof.
  induction 1 as [|b l Hb Hl IH]; [constructor|]. unfold log_items, log_records in *. rewrite !fmap_cons.
  cbn [concat]. intros [H1 H2]%Forall_app. apply Forall_app. split; [|by apply IH].
  destruct Hb. by apply number_rec_ok.
Qed.

(** ** What reaches the log *)

Lemma ingested_logged {L} `{SlabLaws L} {K} `{Uring K} (w w' : durability.World L K) :
  rtc durability.wstep w w' -> Forall logged (durability.ingested w) -> Forall logged (durability.ingested w').
Proof.
  induction 1 as [w|w1 w2 w3 Hs _ IH]; [done|]. intros Hl. apply IH.
  destruct Hs; simpl in *; try done. apply Forall_app. split; [done|]. constructor; [|constructor].
  by eapply encoded_logged.
Qed.

(** ** A crash and the restart *)

(** A data directory whose segments are complete logs. *)
Record intact {S} `{KvLaws S} (d : recovery.DataDir) (o : option Z) (db0 : S) (segs : list (Z * bytes))
    (logs : list (list (Z * bytes))) : Prop := {
  it_dir : recovery.create_dir_all d = Done tt;
  it_start : recovery.start_of d = Done (o, db0);
  it_wf : kv_wf db0;
  it_logs : recovery.holds_logs (recovery.read d) segs logs;
  it_ok : Forall recovery.rec_ok (concat logs);
}.

(** The table the server starts with. *)
Definition start_view {S} `{KvLaws S} (o : option Z) (db0 : S) (logs : list (list (Z * bytes)))
    : gmap bytes bytes := recovery.redo (default 0 o) (kv_view db0) (concat logs).

(** Bytes the replay gets through: records, then the end or a torn one. *)
Definition clean (b : bytes) (recs : list (Z * bytes)) : Prop :=
  Forall recovery.rec_ok recs /\
  exists tail, b = recovery.wal_bytes recs ++ tail /\ (tail = [] \/ recovery.torn_tail tail).

Lemma lookup_prefix {A} (l img : list A) :
  (forall n x, l !! n = Some x -> img !! n = Some x) -> exists rest, img = l ++ rest.
Proof.
  revert img. induction l as [|y l IH]; intros img Hl; [by exists img|].
  destruct img as [|z img]; [by specialize (Hl 0%nat y eq_refl)|].
  pose proof (Hl 0%nat y eq_refl) as [= ->].
  destruct (IH img) as [rest ->]; [|by exists rest]. intros n x Hn. by apply (Hl (Datatypes.S n)).
Qed.

Lemma recover_clean {S} `{KvLaws S} d o (db0 : S) segs logs s img recs :
  intact d o db0 segs logs -> list_segments true (recovery.read_dir d) = Done (segs ++ [s]) ->
  recovery.read d s.2 = Done img -> clean img recs ->
  exists db next, recovery.recover d = Done (db, next) /\
    kv_view db = recovery.redo (default 0 o) (start_view o db0 logs) recs.
Proof.
  intros [Hd Hs Hwf Hl Hok] Hls Hr (Hrok & tail & -> & Ht). unfold start_view.
  rewrite <- recovery.redo_app. destruct Ht as [->|Ht].
  - rewrite app_nil_r in Hr.
    destruct (recovery.recover_intact d o db0 (segs ++ [s]) (logs ++ [recs])) as (db & E & _ & V); auto.
    + apply Forall2_app; [done|]. by repeat constructor.
    + rewrite concat_app. simpl. rewrite app_nil_r. by apply Forall_app.
    + rewrite concat_app in V. simpl in V. rewrite app_nil_r in V. eauto.
  - destruct (recovery.recover_until_torn d o db0 segs s [] logs recs tail) as (db & E & _ & V); auto.
    + by apply Forall_app.
    + eauto.
Qed.

Lemma log_above l z :
  Forall (fun b => z <= lsn_low b) l -> Forall (fun r => z < r.1) (log_records l).
Proof.
  induction 1 as [|b l Hb Hl IH]; [constructor|]. unfold log_records in *. rewrite fmap_cons. cbn [concat].
  apply Forall_app. split; [|done]. unfold batch_records. revert Hb. generalize (lsn_low b).
  induction (stage3.put_bodies (items b)) as [|w ws IHw]; intros z' Hz; [constructor|].
  cbn [stage3.number]. constructor; [simpl; lia|]. apply IHw. lia.
Qed.

Section crash.
Context {S : Type} `{KvLaws S} {L : Type} `{SlabLaws L} {K : Type} `{UringLaws K full_result}.

(** What a crash leaves when a batch has been acknowledged as durable: the
    records of all batches up to that one, which a restart replays on the table
    the run started with. *)
Lemma crash_ok (w0 w : durability.World L K) b img d o (db0 : S) segs logs s :
  durability.initial w0 -> segment.offset (stage3.seg (durability.eng w0)) = 0 ->
  rtc durability.wstep w0 w ->
  Forall (fun r => req_ok r = true) (log_items (durability.ingested w)) ->
  Forall (fun b => u32 (len (out b)) /\ default 0 o <= lsn_low b) (durability.ingested w) ->
  b ∈ durability.durable_acks (stage3.trace (durability.eng w)) ->
  (forall n x, kernel.disk (ku_view (durability.uring w)) !! Z.of_nat n = Some x -> img !! n = Some x) ->
  intact d o db0 segs logs -> list_segments true (recovery.read_dir d) = Done (segs ++ [s]) ->
  recovery.read d s.2 = Done img -> 0 <= default 0 o ->
  exists i b' rest, durability.ingested w !! i = Some b' /\ durability.wal_eq b b' /\
    img = recovery.wal_bytes (log_records (take (Datatypes.S i) (durability.ingested w))) ++ rest /\
    forall more, clean rest more ->
      exists db next, recovery.recover d = Done (db, next) /\
        kv_view db = recovery.redo (default 0 o)
          (stage2.spec_view (start_view o db0 logs) (log_items (take (Datatypes.S i) (durability.ingested w)))) more.
Proof.
  intros Hi0 Hoff Hr Hok Hb Hack Himg Hd Hls Hrd Ho. apply Forall_and in Hb as [Hlen Hlow].
  destruct (noloss.ack_covers w0 w b Hi0 Hr Hlen Hack) as (i & b' & Hi & Hw & Hdisk).
  pose proof (ingested_logged w0 w Hr) as Hlog. destruct Hi0. rewrite in_log in Hlog.
  specialize (Hlog (Forall_nil_2 _)).
  set (l := durability.ingested w) in *. set (got := take (Datatypes.S i) l) in *.
  assert (Forall logged got) as Hlg by (by apply Forall_take).
  assert (Forall (fun r => req_ok r = true) (log_items got)) as Hgok.
  { unfold log_items in *. rewrite <- (take_drop (Datatypes.S i) l), fmap_app, concat_app in Hok.
    by apply Forall_app in Hok as [? _]. }
  rewrite wal_bytes_log in Hdisk by done.
  destruct (lookup_prefix (recovery.wal_bytes (log_records got)) img) as [rest Hrest].
  { intros n x Hn. apply Himg. rewrite <- (Hdisk n x Hn), Hoff. f_equal. }
  exists i, b', rest. split; [done|]. split; [done|]. split; [done|].
  intros more [Hmok (tail & -> & Ht)].
  destruct (recover_clean d o db0 segs logs s img (log_records got ++ more)) as (db & next & E & V); [done..| |].
  - split; [apply Forall_app; split; [by apply log_rec_ok|done]|]. exists tail.
    split; [|done]. by rewrite Hrest, recovery.wal_bytes_app, app_assoc.
  - exists db, next. split; [done|]. rewrite V, recovery.redo_app. f_equal.
    rewrite (recovery.redo_above _ 0); [by apply redo_log|].
    eapply Forall_impl; [apply (log_above got (default 0 o)); by apply Forall_take|]. simpl. lia.
Qed.

End crash.

End pipeline.
