(* ===== verification/System.v ===== *)
(** * Stages 2 and 3 together

    The two threads and the channel between them as one step system, with the
    kernel: an iteration of stage 2 appends its message, stage 3 takes the
    message at the head or makes any other step of its world.  The channel keeps
    the order, so what stage 2 sends is what stage 3 expects, and what a crash
    leaves on disk is a state that stage 2 has been through. *)

From S2P Require Import Prelude Wire Db WalFormat Snapshot Recovery Types Acker Stage1 Stage2.
From S2P Require Import FsyncPlanner IoWork Stage3 Kernel Durability NoLoss Pipeline.
Local Open Scope Z_scope.

Module system.
Import types acker wal_format io_work kernel kernel_laws pipeline.

(** ** The log position moves only with a batch *)

Section frame.
Context {L : Type} `{Slab L}.
Implicit Types e : stage3.WalEngine L.

(** What the next batch depends on is the same, and events were only added. *)
Definition same_log e e' : Prop :=
  stage3.last_ingested_lsn e' = stage3.last_ingested_lsn e /\ stage3.seg e' = stage3.seg e /\
  stage3.trace e `prefix_of` stage3.trace e'.

#[export] Instance same_log_preorder : PreOrder same_log.
Proof.
  split; [by intros e|]. intros e1 e2 e3 (A1 & A2 & A3) (B1 & B2 & B3).
  split_and!; [congruence|congruence|by etransitivity].
Qed.

Lemma emit_log e es : same_log e (stage3.emit e es).
Proof. split_and!; [done|done|by eexists]. Qed.

Lemma plan_fsync_log e : same_log e (stage3.plan_fsync e).
Proof. unfold stage3.plan_fsync. by destruct (fsync_planner.should_fsync _) as [[|] q]. Qed.

Lemma handle_pending_log e n e' : stage3.handle_pending e = Done (n, e') -> same_log e e'.
Proof.
  unfold stage3.handle_pending. destruct (stage3.pending e); [by intros [= <- <-]|].
  by intros ([pi q] & _ & [= <- <-])%bind_Done.
Qed.

Lemma release_awaiting_log e e' : stage3.release_awaiting e = Done e' -> same_log e e'.
Proof.
  intros Hr. transitivity (stage3.set_awaiting e []); [done|].
  eapply (fold_outcome_rel _ _); [|exact Hr].
  intros e1 b e2. unfold stage3.release_one. intros ([s b'] & _ & [= <-])%bind_Done. apply emit_log.
Qed.

Lemma reap_one_log e c e' : stage3.reap_one e c = Done e' -> same_log e e'.
Proof.
  unfold stage3.reap_one. intros ([w l] & _ & Hr)%bind_Done.
  destruct (io_work.complete w (stage3.cq_result c)) as [[b|]|w'| |]; try done.
  - apply bind_Done in Hr as ([s b'] & _ & Hr).
    transitivity (stage3.emit (stage3.set_inflight e l) [stage3.Advanced b Written s]);
      [apply (emit_log (stage3.set_inflight e l))|].
    destruct (is_settled _ _); injection Hr as <-; [apply emit_log|done].
  - by injection Hr as <-.
  - by injection Hr as <-.
  - apply bind_Done in Hr as (e1 & Hr & [= <-]). by apply release_awaiting_log in Hr.
Qed.

Lemma reap_cqes_log e cs e' : stage3.reap_cqes e cs = Done e' -> same_log e e'.
Proof. apply (fold_outcome_rel _ _), reap_one_log. Qed.

End frame.

(** The steps of stage 3's world other than taking a batch leave the log alone. *)
Lemma wstep_log {L} `{SlabLaws L} {K} `{Uring K} (w w' : durability.World L K) :
  durability.wstep w w' -> durability.ingested w' = durability.ingested w ->
  same_log (durability.eng w) (durability.eng w').
Proof.
  destruct 1; simpl; intros Hl; try done.
  - apply (f_equal length) in Hl. rewrite length_app in Hl. simpl in Hl. lia.
  - apply plan_fsync_log.
  - by eapply handle_pending_log.
  - by eapply reap_cqes_log.
Qed.

(** ** The system *)

Section system.
Context {S : Type} `{KvLaws S} {L : Type} `{SlabLaws L} {K : Type} `{Uring K}.
Variable ack : Acker.

Record Sys := mk_sys {
  s2 : stage2.Loop S;
  chan : list WalMsg;                       (* the channel of stages 2 and 3 *)
  s3 : durability.World L K;
  served : list Request;                    (* what stage 2 has taken so far *)
  pool : list Batch;                        (* the channel of free buffers *)
  replied : replies;                        (* what stage 2 has sent to the clients *)
}.

(** The buffers that stage 3 puts back into the pool during a step. *)
Definition returned (e e' : stage3.WalEngine L) : list Batch :=
  drop (length (stage3.recycled_of (stage3.trace e))) (stage3.recycled_of (stage3.trace e')).

(** What stage 1 lets through, and a GET or PUT must be well formed for stage 2
    to survive it. *)
Definition arrives (r : Request) : Prop := req_ok r = true /\ u32 (8 + len (types.data r)).

Inductive sys_step : Sys -> Sys -> Prop :=
| y_stage2 y inp st' sent msg :
    stage2.input_ok inp -> Forall arrives (stage2.arrivals inp) ->
    (stage2.recycled_batch (s2 y) = None -> stage2.free inp = head (pool y)) ->
    u64 (stage2.lsn (s2 y) + stage2.puts (stage2.item_rx (s2 y) ++ stage2.arrivals inp)) ->
    stage2.iteration ack (s2 y) inp = Done (stage2.Continue st' sent msg) ->
    sys_step y (mk_sys st' (chan y ++ option_list msg) (s3 y)
      (served y ++ take (Z.to_nat MAX_BATCH) (stage2.item_rx (s2 y) ++ stage2.arrivals inp))
      (match stage2.recycled_batch (s2 y) with Some _ => pool y | None => tail (pool y) end)
      (replied y ++ sent))
| y_take y b rest e' :
    chan y = Write b :: rest ->
    u64 (segment.offset (stage3.seg (durability.eng (s3 y))) +
         len (stage3.redo_bytes (lsn_low b) (items b))) ->
    stage3.handle_batch (durability.eng (s3 y)) b = Done e' ->
    sys_step y (mk_sys (s2 y) rest
      (durability.mk_world e' (durability.uring (s3 y)) (durability.ingested (s3 y) ++ [stage3.encoded b]))
      (served y) (pool y) (replied y))
| y_stage3 y w' :
    durability.wstep (s3 y) w' -> durability.ingested w' = durability.ingested (s3 y) ->
    sys_step y (mk_sys (s2 y) (chan y) w' (served y)
      (pool y ++ returned (durability.eng (s3 y)) (durability.eng w')) (replied y)).

(** The system after [recover], the filling of the pool and [WalEngine::new]. *)
Record start (y : Sys) : Prop := {
  st_loop : stage2.loop_wf (s2 y);
  st_queue : stage2.item_rx (s2 y) = [];
  st_lsn : u64 (stage2.lsn (s2 y)) /\ stage3.last_ingested_lsn (durability.eng (s3 y)) = stage2.lsn (s2 y);
  st_chan : chan y = [];
  st_world : durability.initial (s3 y);
  st_off : segment.offset (stage3.seg (durability.eng (s3 y))) = 0;
  st_served : served y = [];
  st_pool : pool y = buffers_pool /\ stage2.recycled_batch (s2 y) = None;
  st_replied : replied y = [];
}.

Record sys_inv (m0 : gmap bytes bytes) (l0 : Z) (y : Sys) : Prop := {
  si_loop : stage2.loop_wf (s2 y);
  si_queue : Forall arrives (stage2.item_rx (s2 y));
  si_lsn : u64 (stage2.lsn (s2 y));
  si_low : 0 <= stage3.last_ingested_lsn (durability.eng (s3 y));
  si_off : 0 <= segment.offset (stage3.seg (durability.eng (s3 y)));
  si_tiles : stage2.tiles (stage3.last_ingested_lsn (durability.eng (s3 y))) (chan y) (stage2.lsn (s2 y));
  si_arrived : Forall arrives (log_items (durability.ingested (s3 y)) ++ stage2.wal_items (chan y));
  si_view : kv_view (stage2.loop_db (s2 y)) = stage2.spec_view m0 (served y);
  si_puts : types.data <$> put_reqs (log_items (durability.ingested (s3 y)) ++ stage2.wal_items (chan y)) =
            types.data <$> put_reqs (served y);
  si_start : 0 <= l0;
  si_last : stage3.last_ingested_lsn (durability.eng (s3 y)) =
            l0 + len (put_reqs (log_items (durability.ingested (s3 y))));
  si_batch i b : durability.ingested (s3 y) !! i = Some b ->
    lsn_low b = l0 + len (put_reqs (log_items (take i (durability.ingested (s3 y))))) /\
    lsn_hi b = l0 + len (put_reqs (log_items (take (Datatypes.S i) (durability.ingested (s3 y)))));
}.

Lemma inv_start y : start y -> sys_inv (kv_view (stage2.loop_db (s2 y))) (stage2.lsn (s2 y)) y.
Proof.
  intros [A1 A2 [A3 A3'] A4 A5 A6 A7 A8 A9]. destruct A5. split; rewrite ?A2, ?A4, ?A6, ?A7, ?in_log; try done.
  - rewrite A3'. unfold u64 in A3. lia.
  - unfold u64 in A3. lia.
  - rewrite A3'. simpl. lia.
Qed.

(** ** The invariant is kept *)

Lemma tiles_app lo m1 mid m2 hi :
  stage2.tiles lo m1 mid -> stage2.tiles mid m2 hi -> stage2.tiles lo (m1 ++ m2) hi.
Proof.
  revert lo. induction m1 as [|[b| |] m1 IH]; intros lo; simpl; [by intros ->| |done..].
  intros (A1 & A2 & A3 & A4 & A5 & A6) Hm. split_and!; try done. by apply IH.
Qed.

Lemma tiles_le lo msgs hi : stage2.tiles lo msgs hi -> lo <= hi.
Proof.
  revert lo. induction msgs as [|[b| |] msgs IH]; intros lo; simpl; [by intros ->| |done..].
  intros (A1 & A2 & A3 & A4 & A5 & A6%IH). lia.
Qed.

Lemma arrives_data l l' : types.data <$> l = types.data <$> l' -> Forall arrives l' -> Forall arrives l.
Proof.
  revert l'. induction l as [|r l IH]; intros [|r' l']; try done. intros [= Hd Hl] [Hr Hf]%Forall_cons.
  constructor; [|by eapply IH]. unfold arrives, req_ok in *. by rewrite Hd.
Qed.

Lemma put_reqs_data l l' :
  types.data <$> l = types.data <$> l' -> types.data <$> put_reqs l = types.data <$> put_reqs l'.
Proof.
  revert l'. induction l as [|r l IH]; intros [|r' l']; try done. intros [= Hd Hl].
  rewrite !put_reqs_cons. assert (is_put r = is_put r') as ->.
  { unfold is_put, opc. by rewrite Hd. }
  rewrite !fmap_app, (IH l' Hl). f_equal. by destruct (is_put r'); simpl; rewrite ?Hd.
Qed.

Lemma wal_items_app m1 m2 : stage2.wal_items (m1 ++ m2) = stage2.wal_items m1 ++ stage2.wal_items m2.
Proof. unfold stage2.wal_items. by rewrite fmap_app, concat_app. Qed.

Lemma arrives_ok l : Forall arrives l -> Forall (fun r => req_ok r = true) l.
Proof. intros Hl. eapply Forall_impl; [exact Hl|]. by intros r [? _]. Qed.

(** The batch at the head of the channel is one stage 3 can take. *)
Lemma head_ingestable m0 l0 y b rest :
  sys_inv m0 l0 y -> chan y = Write b :: rest ->
  u64 (segment.offset (stage3.seg (durability.eng (s3 y))) + len (stage3.redo_bytes (lsn_low b) (items b))) ->
  stage3.ingestable (durability.eng (s3 y)) b.
Proof.
  intros [A1 A2 A3 A4 A5 A6 A7 A8 A9 A10 A11 A12] Hc Hu. rewrite Hc in A6, A7. simpl in A6.
  destruct A6 as (Hlo & Hlt & Hhi & Ho & Hn & Ht). apply tiles_le in Ht.
  apply Forall_app in A7 as [_ A7]. apply (Forall_app _ (items b)) in A7 as [A7 _].
  assert (len (stage3.put_bodies (items b)) = len (put_reqs (items b))) as Hp
    by (unfold stage3.put_bodies; by rewrite length_fmap).
  unfold u64 in *. split; try done; try lia; [|unfold u64; lia].
  eapply Forall_impl; [exact A7|]. intros r [Hr Hr']. split; [by apply req_ok_nonempty|done].
Qed.

Lemma inv_step m0 l0 y y' : sys_inv m0 l0 y -> sys_step y y' -> sys_inv m0 l0 y'.
Proof.
  intros I Hs. destruct Hs as [y inp st' sent msg Hin Har Hfr Hu Hit|y b rest e' Hc Hu He|y w' Hs Hl].
  - destruct I as [A1 A2 A3 A4 A5 A6 A7 A8 A9 A10 A11 A12].
    set (queue := stage2.item_rx (s2 y) ++ stage2.arrivals inp) in *.
    assert (Forall arrives queue) as Hq by (by apply Forall_app).
    set (got := take (Z.to_nat MAX_BATCH) queue).
    assert (Forall arrives got) as Hg by (by apply Forall_take).
    pose proof (stage2.puts_nonneg (drop (Z.to_nat MAX_BATCH) queue)). pose proof (stage2.puts_nonneg got).
    rewrite <- (take_drop (Z.to_nat MAX_BATCH) queue), stage2.puts_app in Hu. fold got in Hu.
    destruct (stage2.iteration_ok ack (s2 y) inp) as (st2 & W & Q & V & Ln & _ & E);
      [done|done|by apply arrives_ok|done|fold queue; fold got; unfold u64 in *; lia|].
    fold queue in Q, V, Ln, E. fold got in V, Ln, E. rewrite E in Hit. injection Hit as <- _ Hmsg.
    set (now := settle ack Applied <$> stage2.spec_run (kv_view (stage2.loop_db (s2 y))) got) in *.
    assert (types.data <$> now = types.data <$> got) as Hnow.
    { unfold now. rewrite <- list_fmap_compose. rewrite <- (stage2.spec_run_data (kv_view (stage2.loop_db (s2 y))) got).
      apply list_fmap_ext. intros _ r _. unfold compose. apply settle_data. }
    assert (len (put_reqs now) = stage2.puts got) as Hlen.
    { change (stage2.puts got) with (len (put_reqs got)). apply put_reqs_data in Hnow.
      apply (f_equal length) in Hnow. rewrite !length_fmap in Hnow. by rewrite Hnow. }
    assert (stage2.tiles (stage2.lsn (s2 y)) (option_list msg) (stage2.lsn st2) /\
            Forall arrives (stage2.wal_items (option_list msg)) /\
            types.data <$> put_reqs (stage2.wal_items (option_list msg)) = types.data <$> put_reqs got)
      as (T & F & P).
    { rewrite <- Hmsg, Ln. destruct (0 <? stage2.puts got) eqn:Ep.
      - apply Z.ltb_lt in Ep. unfold stage2.wal_items. simpl. rewrite app_nil_r. split.
        + rewrite Hlen. split_and!; try done; [lia|].
          unfold now. rewrite length_fmap, stage2.spec_run_length. unfold got, MAX_BATCH. len_lia.
        + split; [by eapply arrives_data|by apply put_reqs_data].
      - apply Z.ltb_ge in Ep. simpl. split; [lia|]. split; [constructor|].
        apply put_reqs_data in Hnow. rewrite <- Hnow. destruct (put_reqs now); [done|simpl in Hlen; lia]. }
    split; simpl; try done.
    + rewrite Q. by apply Forall_drop.
    + rewrite Ln. unfold u64 in *. lia.
    + by eapply tiles_app.
    + rewrite wal_items_app, app_assoc. by apply Forall_app.
    + by rewrite V, A8, stage2.spec_view_app.
    + by rewrite wal_items_app, app_assoc, put_reqs_app, fmap_app, A9, P, put_reqs_app, fmap_app.
  - pose proof (head_ingestable m0 l0 y b rest I Hc Hu) as Hb.
    destruct I as [A1 A2 A3 A4 A5 A6 A7 A8 A9 A10 A11 A12]. rewrite Hc in *. simpl in A6.
    destruct A6 as (Hlo & Hlt & Hhi & Ho & Hn & Ht).
    rewrite stage3.handle_batch_ok in He by done. injection He as <-.
    assert (log_items (durability.ingested (s3 y) ++ [stage3.encoded b]) ++ stage2.wal_items rest =
            log_items (durability.ingested (s3 y)) ++ stage2.wal_items (Write b :: rest)) as Hw.
    { unfold log_items, stage2.wal_items. rewrite fmap_app, concat_app. simpl. rewrite app_nil_r.
      by rewrite <- app_assoc. }
    assert (put_reqs (log_items (durability.ingested (s3 y) ++ [stage3.encoded b])) =
            put_reqs (log_items (durability.ingested (s3 y))) ++ put_reqs (items b)) as Hp.
    { unfold log_items. rewrite fmap_app, concat_app, put_reqs_app. simpl. by rewrite app_nil_r. }
    split; simpl; rewrite ?Hw, ?Hp, ?length_app; try done; try lia.
    intros i b' [[Hlt' Hi]|[-> <-]]%lookup_snoc_Some.
    + rewrite !take_app_le by lia. by apply A12.
    + rewrite take_app_length, (take_ge _ (Datatypes.S _)), Hp, length_app by len_lia. simpl. lia.
  - destruct (wstep_log _ _ Hs Hl) as (E1 & E2 & _). destruct I.
    by split; simpl; rewrite ?E1, ?E2, ?Hl.
Qed.

(** ** What the composition gives *)

Lemma inv_steps m0 l0 y y' :
  sys_inv m0 l0 y -> rtc sys_step y y' -> sys_inv m0 l0 y' /\ rtc durability.wstep (s3 y) (s3 y').
Proof.
  intros I Hr. induction Hr as [y|y1 y2 y3 Hy Hr IH]; [done|].
  destruct (IH (inv_step m0 l0 _ _ I Hy)) as [I3 R]. split; [done|]. etransitivity; [|exact R].
  destruct Hy as [y inp st' sent msg|y b rest e' Hc Hu He|y w' Hw Hl]; simpl; [done| |by apply rtc_once].
  pose proof (head_ingestable m0 l0 y b rest I Hc Hu) as Hb. apply rtc_once.
  destruct (s3 y). by apply durability.w_ingest.
Qed.

Lemma sys_ok y0 y :
  start y0 -> rtc sys_step y0 y ->
  sys_inv (kv_view (stage2.loop_db (s2 y0))) (stage2.lsn (s2 y0)) y /\ rtc durability.wstep (s3 y0) (s3 y).
Proof. intros Hs. by apply inv_steps, inv_start. Qed.

(** The stages fit together.  Whatever stage 1 delivers and however the two
    threads interleave, the message at the head of the channel is a batch that
    continues the log exactly where it ends, so stage 3 accepts it: its gap
    assertion never fires (as long as the segment stays within 2^64 bytes), and
    neither do the panics of the encoder. *)
Theorem stage3_accepts_stage2 y0 y m rest :
  start y0 -> rtc sys_step y0 y -> chan y = m :: rest ->
  exists b, m = Write b /\ 0 < len (put_reqs (items b)) /\
    (u64 (segment.offset (stage3.seg (durability.eng (s3 y))) +
          len (stage3.redo_bytes (lsn_low b) (items b))) ->
     exists e', stage3.handle_batch (durability.eng (s3 y)) b = Done e').
Proof.
  intros Hs Hr Hc. destruct (sys_ok y0 y Hs Hr) as [I _].
  pose proof (si_tiles _ _ _ I) as Ht. rewrite Hc in Ht. destruct m as [b| |]; [|done|done].
  exists b. split; [done|]. destruct Ht as (? & ? & ? & _). split; [lia|]. intros Hu.
  rewrite stage3.handle_batch_ok by (by eapply head_ingestable). by eexists.
Qed.

End system.

Arguments Sys : clear implicits.

(** What a run returns to the pool is what its steps return. *)
Lemma returned_trans {L} `{Slab L} (e1 e2 e3 : stage3.WalEngine L) :
  stage3.trace e1 `prefix_of` stage3.trace e2 -> stage3.trace e2 `prefix_of` stage3.trace e3 ->
  returned e1 e3 = returned e1 e2 ++ returned e2 e3.
Proof.
  intros [t1 E1] [t2 E2]. unfold returned. rewrite E2, E1, !stage3.recycled_of_app, <- !app_assoc.
  rewrite !drop_app_length, app_assoc, drop_app_length. done.
Qed.

Lemma wsteps_lift {S} `{KvStore S} {L} `{SlabLaws L} {K} `{Uring K} ack a c sv p r
    (w w' : durability.World L K) :
  rtc durability.wstep w w' -> durability.ingested w' = durability.ingested w ->
  rtc (sys_step (S := S) ack) (mk_sys a c w sv p r)
    (mk_sys a c w' sv (p ++ returned (durability.eng w) (durability.eng w')) r) /\
  same_log (durability.eng w) (durability.eng w').
Proof.
  intros Hr. revert p. induction Hr as [w|w1 w2 w3 Hw Hr IH]; intros p Hl.
  { split; [|done]. unfold returned. by rewrite drop_all, app_nil_r. }
  destruct (noloss.ingested_grows _ _ Hw) as [l1 E1]. destruct (noloss.ingested_grows_rtc _ _ Hr) as [l2 E2].
  assert (l1 = [] /\ l2 = []) as [-> ->].
  { apply (f_equal length) in Hl. rewrite E2, E1, !length_app in Hl.
    split; apply length_zero_iff_nil; lia. }
  rewrite !app_nil_r in *. pose proof (wstep_log _ _ Hw E1) as L1.
  destruct (IH (p ++ returned (durability.eng w1) (durability.eng w2))) as [R L2]; [congruence|].
  split; [|by etransitivity]. destruct L1 as (_ & _ & P1), L2 as (_ & _ & P2).
  rewrite (returned_trans _ _ _ P1 P2), app_assoc. eapply rtc_l; [|exact R].
  by apply (y_stage3 ack (mk_sys a c w1 sv p r) w2).
Qed.

(** ** Witnesses *)

(** A table that holds a key, and a batch of two PUTs. *)
Definition ex_table : db.Db := kv_insert_raw kv_new (bstr "k") (bstr "old").
Definition ex_sys0 : Sys db.Db (gmap N IoWork) (doc_kernel full_result) :=
  mk_sys (stage2.run_main_loop_init ex_table 1) [] noloss.ex_world [] buffers_pool [].
Definition ex_input : stage2.Input :=
  stage2.mk_input (Some (with_capacity 0 0))
    [stage2.ex_req wire.OP_PUT "k" "v" 5; stage2.ex_req wire.OP_PUT "l" "w" 6] true.

Lemma ex_start : start ex_sys0.
Proof.
  split; [|done|split; [decide_vm|reflexivity]|done|by split|done|done|done|done].
  split; [by apply kv_insert_raw_wf, kv_new_wf|done].
Qed.

(** Stage 2 has handed its batch over. *)
Definition ex_sys1 : Sys db.Db (gmap N IoWork) (doc_kernel full_result) :=
  match stage2.iteration (acker.new args.Sync) (s2 ex_sys0) ex_input with
  | Done (stage2.Continue st sent msg) =>
      mk_sys st (option_list msg) noloss.ex_world (stage2.arrivals ex_input) (tail buffers_pool) sent
  | _ => ex_sys0
  end.

Lemma ex_input_ok : stage2.input_ok ex_input.
Proof. split; [discriminate|by exists (with_capacity 0 0)|reflexivity]. Qed.

Lemma ex_handover : rtc (sys_step (acker.new args.Sync)) ex_sys0 ex_sys1.
Proof.
  apply rtc_once. destruct (stage2.iteration (acker.new args.Sync) (s2 ex_sys0) ex_input)
    as [[|st sent msg]| |] eqn:E; [by vm_compute in E| |by vm_compute in E..].
  unfold ex_sys1. rewrite E. by apply (y_stage2 _ ex_sys0 ex_input st sent msg); [apply ex_input_ok|decide_vm|done|decide_vm|].
Qed.

Lemma stage3_accepts_stage2_witness :
  exists b e', chan ex_sys1 = [Write b] /\
    stage3.handle_batch (durability.eng (s3 ex_sys1)) b = Done e'.
Proof.
  assert (exists m, chan ex_sys1 = [m] /\ segment.offset (stage3.seg (durability.eng (s3 ex_sys1))) = 0 /\
    match m with Write b => len (stage3.redo_bytes (lsn_low b) (items b)) | _ => 0 end = 54) as (m & Hc & Ho & Hl)
    by (eexists; split; [vm_compute; reflexivity|split; vm_compute; reflexivity]).
  destruct (stage3_accepts_stage2 (acker.new args.Sync) ex_sys0 ex_sys1 m [] ex_start ex_handover Hc)
    as (b & -> & _ & He).
  destruct He as [e' He]; [rewrite Ho, Hl; decide_vm|]. exists b, e'. split; [exact Hc|exact He].
Defined.

End system.
