(* ===== verification/Threads.v ===== *)
(** * The threads in program order

    [System.v] lets stage 3 and the kernel take their steps in any order.  Here
    stage 3 moves by whole iterations of its loop, as the code does, with the
    kernel at work in between; every such run is a run of the system, so what is
    proved there holds for the loops.  [exec] runs concrete ones. *)

From S2P Require Import Prelude Wire Db WalFormat Snapshot Recovery Types Acker Stage1 Stage2.
From S2P Require Import FsyncPlanner IoWork Stage3 Kernel Durability NoLoss Pipeline System.
Local Open Scope Z_scope.

Module threads.
Import types acker io_work kernel kernel_laws system.

(** What stage 3 finds in its channel, and the batch it then takes. *)
Definition arriving (c : list WalMsg) : stage3.Recv :=
  match c with m :: _ => stage3.Received m | [] => stage3.Empty end.
Definition taken (c : list WalMsg) : list Batch :=
  match c with Write b :: _ => [stage3.encoded b] | _ => [] end.

Section threads.
Context {S : Type} `{KvLaws S} {L : Type} `{SlabLaws L} {K : Type} `{Uring K}.
Variable ack : Acker.
Implicit Types y : Sys S L K.

(** The segment has room for the batch at the head of the channel. *)
Definition has_room y : Prop :=
  match chan y with
  | Write b :: _ => u64 (segment.offset (stage3.seg (durability.eng (s3 y))) +
                         len (stage3.redo_bytes (lsn_low b) (items b)))
  | _ => True
  end.

Inductive loop_step : Sys S L K -> Sys S L K -> Prop :=
| l_stage2 y inp st' sent msg :
    stage2.input_ok inp -> Forall arrives (stage2.arrivals inp) ->
    (stage2.recycled_batch (s2 y) = None -> stage2.free inp = head (pool y)) ->
    u64 (stage2.lsn (s2 y) + stage2.puts (stage2.item_rx (s2 y) ++ stage2.arrivals inp)) ->
    stage2.iteration ack (s2 y) inp = Done (stage2.Continue st' sent msg) ->
    loop_step y (mk_sys st' (chan y ++ option_list msg) (s3 y)
      (served y ++ take (Z.to_nat MAX_BATCH) (stage2.item_rx (s2 y) ++ stage2.arrivals inp))
      (match stage2.recycled_batch (s2 y) with Some _ => pool y | None => tail (pool y) end)
      (replied y ++ sent))
| l_stage3 y i k1 n m e' :
    has_room y -> stage3.in_recv i = arriving (chan y) ->
    rtc ku_step (durability.uring (s3 y)) k1 -> stage3.in_cqes i = take n (cq (ku_view k1)) ->
    stage3.in_submit i = stage3.Submitted m ->
    stage3.iteration (durability.eng (s3 y)) i = Done (true, e') ->
    loop_step y (mk_sys (s2 y) (tail (chan y))
      (durability.mk_world e' (durability.after_turn k1 n (durability.entered (durability.eng (s3 y)) e'))
         (durability.ingested (s3 y) ++ taken (chan y)))
      (served y) (pool y ++ returned (durability.eng (s3 y)) e') (replied y))
| l_kernel y k' :
    ku_step (durability.uring (s3 y)) k' ->
    loop_step y (mk_sys (s2 y) (chan y)
      (durability.mk_world (durability.eng (s3 y)) k' (durability.ingested (s3 y))) (served y) (pool y) (replied y)).


Lemma handle_batch_frame (e : stage3.WalEngine L) b e' :
  stage3.handle_batch e b = Done e' -> stage3.trace e' = stage3.trace e /\ stage3.ring e' = stage3.ring e.
Proof.
  unfold stage3.handle_batch. intros ([] & _ & Hr)%bind_Done. apply bind_Done in Hr as ([lsn o] & _ & Hr).
  by injection Hr as <-.
Qed.

(** A turn of the loop as steps of stage 3. *)
Lemma turn_system a c sv p r (e e' : stage3.WalEngine L) (k k1 : K) l n m cqes spin :
  stage3.turn (stage3.set_spin e spin) cqes (stage3.Submitted m) = Done e' ->
  rtc ku_step k k1 -> cqes = take n (cq (ku_view k1)) ->
  rtc (sys_step (S := S) ack) (mk_sys a c (durability.mk_world e k l) sv p r)
    (mk_sys a c (durability.mk_world e' (durability.after_turn k1 n (durability.entered e e')) l) sv
       (p ++ returned e e') r).
Proof.
  intros Ht Hk Hc. pose proof (durability.turn_steps _ _ _ _ k k1 l n Ht Hk Hc) as R.
  eapply (wsteps_lift ack a c sv p r (durability.mk_world e k l) (durability.mk_world e' _ l)); [|done].
  eapply rtc_l; [apply (durability.w_spin e k l spin)|exact R].
Qed.

Lemma stage3_system y i k1 n m e' :
  (forall b c, chan y = b :: c -> exists b', b = Write b') ->
  has_room y -> stage3.in_recv i = arriving (chan y) ->
  rtc ku_step (durability.uring (s3 y)) k1 -> stage3.in_cqes i = take n (cq (ku_view k1)) ->
  stage3.in_submit i = stage3.Submitted m ->
  stage3.iteration (durability.eng (s3 y)) i = Done (true, e') ->
  rtc (sys_step ack) y (mk_sys (s2 y) (tail (chan y))
      (durability.mk_world e' (durability.after_turn k1 n (durability.entered (durability.eng (s3 y)) e'))
         (durability.ingested (s3 y) ++ taken (chan y)))
      (served y) (pool y ++ returned (durability.eng (s3 y)) e') (replied y)).
Proof.
  intros Hw Hroom Hin Hk Hc Hsub Hit. destruct y as [a c [e k l] sv p r]. unfold has_room in Hroom. simpl in *.
  unfold stage3.iteration in Hit. rewrite Hin, Hsub in Hit. destruct c as [|x c]; simpl arriving in Hit.
  - cbn [stage3.poll_channel_or_park] in Hit. rewrite app_nil_r. destruct (stage3.should_park e); [done|].
    revert Hit. ostep. intros (e2 & E2 & [= <-])%bind_Done. by eapply turn_system.
  - destruct (Hw x c eq_refl) as [b ->]. cbn [stage3.poll_channel_or_park stage3.handle_msg] in Hit.
    revert Hit. ostep. intros ([g e1] & (e1' & E1 & [= <- <-])%bind_Done & Hit)%bind_Done.
    cbn [negb] in Hit. apply bind_Done in Hit as (e2 & E2 & [= <-]).
    destruct (handle_batch_frame e b e1' E1) as [Et Er].
    eapply rtc_l; [by eapply (y_take ack (mk_sys a (Write b :: c) (durability.mk_world e k l) sv p r) b c e1')|].
    simpl. unfold returned, durability.entered. rewrite <- Et, <- Er. by eapply turn_system.
Qed.

Lemma loop_step_inv m0 l0 y y' : sys_inv m0 l0 y -> loop_step y y' -> rtc (sys_step ack) y y'.
Proof.
  intros I Hl. pose proof (si_tiles _ _ _ I) as Ht.
  destruct Hl as [y inp st' sent msg|y i k1 n m e' Hroom Hin Hk Hc Hsub Hit|y k' Hk].
  - apply rtc_once. by apply (y_stage2 ack y inp).
  - apply (stage3_system y i k1 n m e'); try done. intros b c Hb. rewrite Hb in Ht. by destruct b; [eexists|..].
  - destruct y as [a c [e k l] sv p r]. simpl in *.
    destruct (wsteps_lift ack a c sv p r (durability.mk_world e k l) (durability.mk_world e k' l)) as [R _];
      [by apply rtc_once, durability.w_kernel|done|].
    unfold returned in R. simpl in R. by rewrite drop_all, app_nil_r in R.
Qed.

Lemma loop_step_system y0 y y' :
  start y0 -> rtc (sys_step ack) y0 y -> loop_step y y' -> rtc (sys_step ack) y y'.
Proof. intros Hs Hr. destruct (sys_ok ack y0 y Hs Hr) as [I _]. by eapply loop_step_inv. Qed.

Lemma loops_system y0 y : start y0 -> rtc loop_step y0 y -> rtc (sys_step ack) y0 y.
Proof.
  intros Hs Hr0. revert y Hr0. refine (rtc_ind_r _ _ _ _); [done|]. intros y1 y2 _ Hl IH.
  etransitivity; [exact IH|]. by eapply loop_step_system.
Qed.

End threads.

(** ** Property *)

(** The loops are covered.  Whatever the threads do in program order (stage 2 a
    whole iteration at a time; stage 3 a whole iteration of its loop, with the
    kernel at work before the completions are reaped, and the messages of the
    channel in order), the system does in its single steps: every state the
    program reaches is one for which the properties of the system are proved. *)
Theorem loops_are_system_steps {S} `{KvLaws S} {L} `{SlabLaws L} {K} `{Uring K} ack (y0 y : Sys S L K) :
  start y0 -> rtc (loop_step ack) y0 y -> rtc (sys_step ack) y0 y.
Proof. apply loops_system. Qed.

(** ** Executions *)

Section exec.
Context {L : Type} `{SlabLaws L}.
Variable ack : Acker.
Variable R : Z -> Z -> Prop.
Variable result_ok : Z -> Z -> bool.
Abbreviation System := (Sys db.Db L (doc_kernel R)).

(** Stage 2 serves the requests that have arrived; stage 3 makes one turn of its
    loop, the kernel having made [acts] before the completions are reaped, and
    all of the submission queue is submitted. *)
Inductive move := Serve (reqs : list Request) | Turn (acts : list durability.action).

#[export] Instance arrives_dec r : Decision (arrives r).
Proof. unfold arrives. apply _. Defined.
#[export] Instance has_room_dec (y : System) : Decision (has_room y).
Proof. unfold has_room. destruct (chan y) as [|[b| |] c]; apply _. Defined.

Definition serve_input (y : System) (reqs : list Request) : stage2.Input :=
  stage2.mk_input (match stage2.recycled_batch (s2 y) with Some _ => Some (with_capacity 0 0) | None => head (pool y) end)
    reqs true.

Definition is_free (b : option Batch) : bool := match b with Some (mk_batch [] [] _ _) => true | _ => false end.

Definition exec_move (y : System) (m : move) : option System :=
  match m with
  | Serve reqs =>
      let inp := serve_input y reqs in
      if match reqs with [] => false | _ => true end && is_free (stage2.free inp) &&
         bool_decide (Forall arrives reqs) &&
         bool_decide (u64 (stage2.lsn (s2 y) + stage2.puts (stage2.item_rx (s2 y) ++ reqs))) then
        match stage2.iteration ack (s2 y) inp with
        | Done (stage2.Continue st' sent msg) =>
            Some (mk_sys st' (chan y ++ option_list msg) (s3 y)
              (served y ++ take (Z.to_nat MAX_BATCH) (stage2.item_rx (s2 y) ++ reqs))
              (match stage2.recycled_batch (s2 y) with Some _ => pool y | None => tail (pool y) end)
              (replied y ++ sent))
        | _ => None
        end
      else None
  | Turn acts =>
      if bool_decide (has_room y) then
        k1 ← durability.kernel_exec result_ok (durability.uring (s3 y)) acts;
        let i := stage3.mk_input (arriving (chan y)) [] 0 (fun _ => Panic) (fun _ => Panic) Panic (cq k1)
                   (stage3.Submitted (Z.to_nat RING_DEPTH)) in
        match stage3.iteration (durability.eng (s3 y)) i with
        | Done (true, e') =>
            Some (mk_sys (s2 y) (tail (chan y))
              (durability.mk_world e'
                 (durability.after_turn (K := doc_kernel R) k1 (length (cq k1))
                    (durability.entered (durability.eng (s3 y)) e'))
                 (durability.ingested (s3 y) ++ taken (chan y)))
              (served y) (pool y ++ returned (durability.eng (s3 y)) e') (replied y))
        | _ => None
        end
      else None
  end.

Fixpoint exec (y : System) (ms : list move) : option System :=
  match ms with
  | [] => Some y
  | m :: ms => y' ← exec_move y m; exec y' ms
  end.

Context (Hres : forall n r, result_ok n r = true -> R n r).

Lemma exec_move_ok y m y' : exec_move y m = Some y' -> loop_step ack y y'.
Proof.
  destruct m as [reqs|acts]; cbn [exec_move].
  - destruct (_ && _) eqn:E; [|done]. rewrite !andb_true_iff, !bool_decide_eq_true in E.
    destruct E as [[[E1 E2] E3] E4].
    assert (reqs <> []) by (by destruct reqs).
    destruct (stage2.iteration ack (s2 y) (serve_input y reqs)) as [[|st' sent msg]| |] eqn:Ei; [done| |done..].
    intros [= <-]. apply (l_stage2 ack y (serve_input y reqs)); try done.
    + split; [done| |done]. destruct (stage2.free (serve_input y reqs)) as [[[|] [|] ? ?]|]; [|done..].
      by eexists.
    + simpl. by intros ->.
  - destruct (bool_decide (has_room y)) eqn:Er; [|done]. apply bool_decide_eq_true in Er.
    intros (k1 & Hk & Hm)%bind_Some. cbv zeta in Hm.
    destruct (stage3.iteration _ _) as [[[|] e']| |] eqn:Ei; [|done..]. injection Hm as <-.
    eapply (l_stage3 ack y _ k1 (length (cq k1)) (Z.to_nat RING_DEPTH) e' Er); [..|exact Ei]; try done.
    + by eapply durability.kernel_exec_ok.
    + simpl. by rewrite firstn_all.
Qed.

Lemma exec_moves_ok y ms y' : exec y ms = Some y' -> rtc (loop_step ack) y y'.
Proof.
  revert y. induction ms as [|m ms IH]; intros y; cbn [exec]; [by intros [= <-]|].
  intros (y1 & H1 & H2)%bind_Some. eapply rtc_l; [by eapply exec_move_ok|by apply IH].
Qed.

End exec.

(** ** Witness *)

Definition ex_moves : list move :=
  [Serve (stage2.arrivals ex_input); Turn []; Turn [durability.KWrite 0 54; durability.KSync 0]].

Lemma ex_exec :
  match exec (acker.new args.Sync) full_result noloss.full_ok ex_sys0 ex_moves with
  | Some y => length (served y) = 2%nat /\ chan y = [] /\
      stage3.sent_of (stage3.trace (durability.eng (s3 y))) = [(5%N, wire.RespOk); (6%N, wire.RespOk)]
  | None => False
  end.
Proof. vm_compute. repeat split. Qed.

Lemma loops_are_system_steps_witness :
  exists y : Sys db.Db (gmap N IoWork) (doc_kernel full_result),
    rtc (sys_step (acker.new args.Sync)) ex_sys0 y /\ length (served y) = 2%nat /\ chan y = [] /\
    stage3.sent_of (stage3.trace (durability.eng (s3 y))) = [(5%N, wire.RespOk); (6%N, wire.RespOk)].
Proof.
  pose proof ex_exec as Ht.
  destruct (exec (acker.new args.Sync) full_result noloss.full_ok ex_sys0 ex_moves) as [y|] eqn:Ex; [|destruct Ht].
  exists y. split; [apply loops_are_system_steps; [exact ex_start|]; eapply exec_moves_ok; [|exact Ex];
    exact noloss.full_ok_result|exact Ht].
Defined.

End threads.
