(* ===== verification/Server.v ===== *)
(** * The server: start, run, crash, restart ([crates/server/src/main.rs])

    [main] wires the stages on what [recover] returns; the flagship property
    composes everything: recovery, stage 2, the channel, stage 3, the kernel, a
    crash, and recovery again. *)

From S2P Require Import Prelude Wire Db WalFormat Snapshot Recovery Types Acker Stage1 Stage2.
From S2P Require Import FsyncPlanner IoWork Stage3 Kernel Durability NoLoss Pipeline System.
Local Open Scope Z_scope.

Module server.
Import types acker wal_format io_work kernel kernel_laws pipeline system.

(** ** [main]: recovery and the wiring of the stages *)

Section main.
Context {S : Type} `{KvLaws S} {L : Type} `{SlabLaws L} {K : Type} `{Uring K}.

(** [main] up to the point where the threads run: [storage::recover], then
    [Acker::new], [WalEngine::new] and the start of [run_main_loop], all at the
    LSN that [recover] returned.  [k] is the kernel's state. *)
Definition main (d : recovery.DataDir) (ring_new : Z -> outcome stage3.Ring) (open_file : bytes -> outcome Z)
    (file_len : Z -> outcome Z) (k : K) (a : args.Args) : outcome (Acker * Sys S L K) :=
  '(db, start_lsn) ← recovery.recover d;
  let ack := acker.new (args.mode a) in
  e ← stage3.new ring_new open_file file_len RING_DEPTH (args.dir a) start_lsn (args.mode a) ack;
  Done (ack, mk_sys (stage2.run_main_loop_init db start_lsn) [] (durability.mk_world e k []) []
    buffers_pool []).

(** The ring is new, the segment's file is new, and nothing is in the kernel. *)
Record fresh_env (ring_new : Z -> outcome stage3.Ring) (file_len : Z -> outcome Z) (k : K) : Prop := {
  fe_ring n r : ring_new n = Done r -> stage3.sq r = [];
  fe_file fd n : file_len fd = Done n -> n = 0;
  fe_kernel : ops (ku_view k) = [] /\ cq (ku_view k) = [];
  fe_pages z : page (ku_view k) !! z = None /\ disk (ku_view k) !! z = None;
}.

Lemma redo_lsn_ge snap h recs : h <= recovery.redo_lsn snap h recs.
Proof.
  revert h. unfold recovery.redo_lsn. induction recs as [|r recs IH]; intros h; simpl; [lia|].
  destruct (r.1 <=? snap); [apply IH|]. etransitivity; [|apply IH]. lia.
Qed.

(** What [main] reaches from an intact directory. *)
Lemma main_start d ring_new open_file file_len k a ack y o (db0 : S) segs logs :
  main d ring_new open_file file_len k a = Done (ack, y) ->
  fresh_env ring_new file_len k -> intact d o db0 segs logs ->
  list_segments true (recovery.read_dir d) = Done segs -> 0 <= default 0 o ->
  u64 (recovery.redo_lsn (default 0 o) (default 0 o) (concat logs) + 1) ->
  start y /\ ack = acker.new (args.mode a) /\ kv_view (stage2.loop_db (s2 y)) = start_view o db0 logs /\
  default 0 o < stage2.lsn (s2 y).
Proof.
  intros Hm [F1 F2 [F3 F4] F5] [Hd Hst Hwf Hl Hok] Hls Ho Hu.
  destruct (recovery.recover_intact d o db0 segs logs Hd Hst Hwf Hls Hl Hok) as (db & E & W & V).
  pose proof (redo_lsn_ge (default 0 o) (default 0 o) (concat logs)).
  unfold main in Hm. rewrite E, add64_small in Hm by (done || unfold u64 in *; lia). simpl in Hm.
  apply bind_Done in Hm as (e & He & [= <- <-]). unfold stage3.new in He.
  apply bind_Done in He as (r & Hr & He). apply bind_Done in He as (sg & Hs & [= <-]).
  unfold segment.open in Hs. apply bind_Done in Hs as (fd & _ & Hs). apply bind_Done in Hs as (n & Hn & [= <-]).
  apply F2 in Hn as ->. apply F1 in Hr. split; [|split; [done|split; [done|simpl; lia]]].
  split; simpl; try done.
  split; simpl; try done; [apply slab_new_view|intros z _; apply F5..].
Qed.

End main.

(** ** A crash of the system *)

Lemma spec_view_data m l l' :
  types.data <$> put_reqs l = types.data <$> put_reqs l' -> stage2.spec_view m l = stage2.spec_view m l'.
Proof.
  set (put m w := <[(kv_of (mk_request w 0%N None)).1 := (kv_of (mk_request w 0%N None)).2]> m : gmap bytes bytes).
  assert (forall k, stage2.spec_view m k = fold_left put (types.data <$> put_reqs k) m) as E.
  { intros k. revert m. induction k as [|r k IH]; intros m; [done|]. rewrite put_reqs_cons, fmap_app, fold_left_app.
    rewrite <- IH. unfold stage2.spec_view. cbn [fold_left]. f_equal. unfold stage2.spec_step.
    by destruct (is_put r). }
  intros Hd. by rewrite !E, Hd.
Qed.

(** A prefix of the PUTs is the PUTs of a prefix. *)
Lemma put_prefix l ds more :
  types.data <$> put_reqs l = ds ++ more ->
  exists n, (n <= length l)%nat /\ types.data <$> put_reqs (take n l) = ds.
Proof.
  revert ds. induction l as [|r l IH]; intros ds Hd.
  - exists 0%nat. split; [done|]. by destruct ds.
  - rewrite put_reqs_cons in Hd. destruct (is_put r) eqn:Ep.
    + destruct ds as [|d ds]; [by exists 0%nat; split; [lia|]|]. injection Hd as Hr Hd.
      destruct (IH ds Hd) as (n & Hn & E). exists (Datatypes.S n). split; [simpl; lia|].
      cbn [take]. rewrite put_reqs_cons, Ep, fmap_app, E. simpl. by rewrite Hr.
    + destruct (IH ds Hd) as (n & Hn & E). exists (Datatypes.S n). split; [simpl; lia|].
      cbn [take]. by rewrite put_reqs_cons, Ep, fmap_app, E.
Qed.

Section crash.
Context {S : Type} `{KvLaws S} {L : Type} `{SlabLaws L} {K : Type} `{UringLaws K full_result}.

(** What has been logged and served when a batch has been acknowledged. *)
Lemma crash_prefix ack (y0 y : Sys S L K) b img d o (db0 : S) segs logs s :
  start y0 -> rtc (sys_step ack) y0 y ->
  Forall (fun b => u32 (len (out b))) (durability.ingested (s3 y)) ->
  b ∈ durability.durable_acks (stage3.trace (durability.eng (s3 y))) ->
  (forall n x, disk (ku_view (durability.uring (s3 y))) !! Z.of_nat n = Some x -> img !! n = Some x) ->
  intact d o db0 segs logs -> list_segments true (recovery.read_dir d) = Done (segs ++ [s]) ->
  recovery.read d s.2 = Done img -> 0 <= default 0 o <= stage2.lsn (s2 y0) ->
  kv_view (stage2.loop_db (s2 y0)) = start_view o db0 logs ->
  exists n rest, (n <= length (served y))%nat /\
    lsn_hi b = stage2.lsn (s2 y0) + stage2.puts (take n (served y)) /\
    img = recovery.wal_bytes (stage3.number (stage2.lsn (s2 y0)) (types.data <$> put_reqs (take n (served y)))) ++ rest /\
    forall more, clean rest more ->
      exists db next, recovery.recover d = Done (db, next) /\
        kv_view db = recovery.redo (default 0 o)
          (stage2.spec_view (kv_view (stage2.loop_db (s2 y0))) (take n (served y))) more.
Proof.
  intros Hs Hr Hlen Hack Himg Hd Hls Hrd Ho Hv. destruct (sys_ok ack y0 y Hs Hr) as [I Rw].
  destruct Hs as [_ _ _ _ Hi0 Hoff _ _ _]. destruct I. rewrite Hv. apply Forall_app in si_arrived0 as [Hok _].
  destruct (crash_ok (s3 y0) (s3 y) b img d o db0 segs logs s) as (i & b' & rest & Hi & (_ & _ & Hhi) & E & Hrec);
    try done; [by apply arrives_ok| |lia|].
  { apply Forall_and. split; [done|]. apply Forall_lookup. intros j bj Hj. destruct (si_batch0 j bj Hj). lia. }
  destruct (si_batch0 i b' Hi) as [_ Hb'].
  set (got := take (Datatypes.S i) (durability.ingested (s3 y))) in *.
  assert (exists more, types.data <$> put_reqs (served y) = (types.data <$> put_reqs (log_items got)) ++ more)
    as [more Hpre].
  { rewrite <- si_puts0, <- (take_drop (Datatypes.S i) (durability.ingested (s3 y))). fold got.
    unfold log_items. rewrite fmap_app, concat_app, !put_reqs_app, !fmap_app, <- !app_assoc. by eexists. }
  apply put_prefix in Hpre as (n & Hn & Hp). exists n, rest. split; [done|]. split.
  { rewrite Hhi, Hb'. f_equal. apply (f_equal length) in Hp. rewrite !length_fmap in Hp.
    unfold stage2.puts. fold (put_reqs (take n (served y))). by rewrite Hp. }
  split.
  { rewrite Hp, <- log_records_number; [done|]. intros j bj Hj. unfold got in *.
    apply lookup_take_Some in Hj as [Hj Hji]. destruct (si_batch0 j bj Hj) as [-> _].
    by rewrite take_take, Nat.min_l by lia. }
  intros more' Hc. destruct (Hrec more' Hc) as (db & next & Er & V). exists db, next. split; [done|].
  rewrite V. f_equal. by apply spec_view_data.
Qed.

(** C1: an acknowledged write survives a crash.  The server starts ([main]) on an
    intact data directory with a fresh segment, and its threads and the kernel
    run in any interleaving, with complete writes, until the machine crashes.  If
    the file of the segment then still has every byte that was on disk, the file
    starts with the records of exactly the PUTs among the first [n] requests
    served, where [n] covers every LSN up to the end of any batch that was
    acknowledged as durable; and if what follows them ends in complete records or
    a torn one, a restart recovers the table of having served these [n] requests
    on the table recovered before, with only later records applied on top. *)
Theorem acked_writes_survive_crash d0 ring_new open_file file_len (k : K) a ack (y0 y : Sys S L K) b img
    d o (db0 : S) segs logs s :
  main d0 ring_new open_file file_len k a = Done (ack, y0) -> fresh_env ring_new file_len k ->
  intact d0 o db0 segs logs -> list_segments true (recovery.read_dir d0) = Done segs -> 0 <= default 0 o ->
  u64 (recovery.redo_lsn (default 0 o) (default 0 o) (concat logs) + 1) ->
  rtc (sys_step ack) y0 y ->
  Forall (fun b => u32 (len (out b))) (durability.ingested (s3 y)) ->
  b ∈ durability.durable_acks (stage3.trace (durability.eng (s3 y))) ->
  (forall n x, disk (ku_view (durability.uring (s3 y))) !! Z.of_nat n = Some x -> img !! n = Some x) ->
  intact d o db0 segs logs -> list_segments true (recovery.read_dir d) = Done (segs ++ [s]) ->
  recovery.read d s.2 = Done img ->
  exists n rest, (n <= length (served y))%nat /\
    lsn_hi b = stage2.lsn (s2 y0) + stage2.puts (take n (served y)) /\
    img = recovery.wal_bytes (stage3.number (stage2.lsn (s2 y0)) (types.data <$> put_reqs (take n (served y)))) ++ rest /\
    forall more, clean rest more ->
      exists db next, recovery.recover d = Done (db, next) /\
        kv_view db = recovery.redo (default 0 o)
          (stage2.spec_view (start_view o db0 logs) (take n (served y))) more.
Proof.
  intros Hm Hf Hd0 Hl0 Ho Hu Hr Hlen Hack Himg Hd Hls Hrd.
  destruct (main_start _ _ _ _ _ _ _ _ _ _ _ _ Hm Hf Hd0 Hl0 Ho Hu) as (Hs & _ & Hv & Hlt).
  rewrite <- Hv. eapply crash_prefix; try done. lia.
Qed.

End crash.

(** ** Witness *)

(** Every byte of the disk is in the image. *)
Definition disk_in (m : content) (img : bytes) : bool :=
  forallb (fun p => bool_decide (img !! Z.to_nat p.1 = Some p.2)) (map_to_list m).
Lemma disk_in_ok m img n x : disk_in m img = true -> m !! Z.of_nat n = Some x -> img !! n = Some x.
Proof.
  unfold disk_in. rewrite forallb_forall. intros Hf Hm.
  specialize (Hf (Z.of_nat n, x)). rewrite <- list_elem_of_In, elem_of_map_to_list in Hf.
  specialize (Hf Hm). apply bool_decide_eq_true in Hf. simpl in Hf. by rewrite Nat2Z.id in Hf.
Qed.


(** The first run left a segment with record 2.  The second one serves two PUTs;
    its crash leaves three bytes of a further record. *)
Definition ex_first_log : list (Z * bytes) := [recovery.ex_put 2 (bstr "k") (bstr "old")].
Definition ex_dir0 : recovery.DataDir :=
  recovery.ex_dir None [(segment_path 1, recovery.wal_bytes ex_first_log)].
Definition ex_ring_new (n : Z) : outcome stage3.Ring := Done (stage3.mk_ring [] n []).
Definition ex_main : outcome (Acker * Sys db.Db (gmap N IoWork) (doc_kernel full_result)) :=
  main ex_dir0 ex_ring_new (fun _ => Done 4) (fun _ => Done 0) (mk_kernel [] ∅ ∅ [])
    (args.mk_args 9000 args.Sync (bstr "d")).

Definition ex_tail : bytes := [Byte.x0f; Byte.x00; Byte.x00].
Definition ex_img : bytes :=
  recovery.wal_bytes (stage3.number 3 (types.data <$> stage2.arrivals ex_input)) ++ ex_tail.
Definition ex_restart : recovery.DataDir :=
  recovery.ex_dir None [(segment_path 3, ex_img); (segment_path 1, recovery.wal_bytes ex_first_log)].
Definition ex_actions : list durability.action :=
  [durability.Plan; durability.Pending; durability.Submit 2; durability.KWrite 0 54; durability.KSync 0;
   durability.Reap 2].

Lemma ex_intact0 : intact (S := db.Db) ex_dir0 None kv_new [(1, segment_path 1)] [ex_first_log].
Proof.
  split; [reflexivity|reflexivity|apply kv_new_wf| |decide_vm].
  constructor; [vm_compute; reflexivity|constructor].
Qed.
Lemma ex_intact1 : intact (S := db.Db) ex_restart None kv_new [(1, segment_path 1)] [ex_first_log].
Proof.
  split; [reflexivity|reflexivity|apply kv_new_wf| |decide_vm].
  constructor; [vm_compute; reflexivity|constructor].
Qed.

Lemma ex_fresh : fresh_env ex_ring_new (fun _ => Done 0) (mk_kernel [] ∅ ∅ [] : doc_kernel full_result).
Proof. split; [by intros n r [= <-]|by intros _ n [= <-]|done|done]. Qed.

(** The whole run, as far as it is computed. *)
Lemma ex_run_test :
  match ex_main with
  | Done (ack, y0) =>
      match stage2.iteration ack (s2 y0) ex_input with
      | Done (stage2.Continue st [] (Some (Write b))) =>
          match stage3.handle_batch (durability.eng (s3 y0)) b with
          | Done e' =>
              match durability.exec full_result noloss.full_ok
                (durability.mk_world e' (durability.uring (s3 y0)) [stage3.encoded b]) ex_actions with
              | Some w =>
                  segment.offset (stage3.seg (durability.eng (s3 y0))) + len (stage3.redo_bytes (lsn_low b) (items b)) = 54 /\
                  durability.ingested w = [stage3.encoded b] /\ len (out (stage3.encoded b)) = 54 /\
                  lsn_hi <$> durability.durable_acks (stage3.trace (durability.eng w)) = [5] /\
                  stage2.lsn (s2 y0) = 3 /\ stage2.item_rx (s2 y0) = [] /\
                  stage2.recycled_batch (s2 y0) = None /\ pool y0 = buffers_pool /\ chan y0 = [] /\ served y0 = [] /\
                  durability.ingested (s3 y0) = [] /\
                  disk_in (disk (ku_view (durability.uring w))) ex_img = true
              | None => False
              end
          | _ => False
          end
      | _ => False
      end
  | _ => False
  end.
Proof. vm_compute. repeat split. Qed.

Lemma ex_run :
  exists ack y0 b e' w b' st, ex_main = Done (ack, y0) /\
    stage2.iteration ack (s2 y0) ex_input = Done (stage2.Continue st [] (Some (Write b))) /\
    u64 (segment.offset (stage3.seg (durability.eng (s3 y0))) + len (stage3.redo_bytes (lsn_low b) (items b))) /\
    stage3.handle_batch (durability.eng (s3 y0)) b = Done e' /\
    durability.exec full_result noloss.full_ok
      (durability.mk_world e' (durability.uring (s3 y0)) [stage3.encoded b]) ex_actions = Some w /\
    durability.ingested w = [stage3.encoded b] /\ u32 (len (out (stage3.encoded b))) /\
    durability.durable_acks (stage3.trace (durability.eng w)) = [b'] /\ lsn_hi b' = 5 /\
    stage2.lsn (s2 y0) = 3 /\ stage2.item_rx (s2 y0) = [] /\
    stage2.recycled_batch (s2 y0) = None /\ pool y0 = buffers_pool /\ chan y0 = [] /\ served y0 = [] /\
    durability.ingested (s3 y0) = [] /\
    disk_in (disk (ku_view (durability.uring w))) ex_img = true.
Proof.
  pose proof ex_run_test as Ht. destruct ex_main as [[ack y0]| |] eqn:Em; [|destruct Ht..].
  destruct (stage2.iteration ack (s2 y0) ex_input) as [[|st [|] [[b| |]|]]| |] eqn:Ei; try destruct Ht.
  destruct (stage3.handle_batch (durability.eng (s3 y0)) b) as [e'| |] eqn:Ee; [|destruct Ht..].
  destruct (durability.exec full_result noloss.full_ok _ ex_actions) as [w|] eqn:Ew; [|destruct Ht].
  destruct Ht as (T1 & T2 & T3 & T4 & Ht).
  destruct (durability.durable_acks (stage3.trace (durability.eng w))) as [|b' [|]] eqn:Ea;
    [discriminate T4| |discriminate T4].
  injection T4 as T4. exists ack, y0, b, e', w, b', st. rewrite T1, T3, T4.
  split; [reflexivity|]. split; [exact Ei|]. split; [decide_vm|]. split; [exact Ee|]. split; [exact Ew|].
  split; [exact T2|]. split; [decide_vm|]. split; [exact Ea|]. split; [reflexivity|exact Ht].
Qed.

Lemma acked_writes_survive_crash_witness :
  exists (db : db.Db) next, recovery.recover ex_restart = Done (db, next) /\
    kv_view db !! bstr "k" = Some (bstr "v") /\ kv_view db !! bstr "l" = Some (bstr "w").
Proof.
  destruct ex_run as (ack & y0 & b & e' & w & b' & st & Hm & Hit & Hu & He & Hx & Hg & Hu' & Ha & Hh & Hl0
    & Hq0 & Hb0 & Hp0 & Hc0 & Hs0 & Hg0 & Hd).
  set (y := mk_sys st [] w (stage2.arrivals ex_input)
    (tail (pool y0) ++ returned e' (durability.eng w)) (replied y0 ++ [])).
  assert (rtc (sys_step ack) y0 y) as Hr.
  { eapply rtc_l; [apply (y_stage2 ack y0 ex_input st [] (Some (Write b)))|].
    - exact ex_input_ok.
    - decide_vm.
    - intros _. by rewrite Hp0.
    - rewrite Hl0, Hq0. decide_vm.
    - exact Hit.
    - rewrite Hc0, Hs0, Hq0, Hb0. eapply rtc_l; [eapply (y_take ack _ b [] e'); [reflexivity|exact Hu|exact He]|].
      simpl. rewrite Hg0. eapply (wsteps_lift ack _ _ _ _ _ (durability.mk_world e' _ _) w); [|by rewrite Hg].
      eapply durability.exec_ok; [|exact Hx]. exact noloss.full_ok_result. }
  destruct (acked_writes_survive_crash (S := db.Db) (K := doc_kernel full_result) ex_dir0 ex_ring_new (fun _ => Done 4) (fun _ => Done 0)
    (mk_kernel [] ∅ ∅ []) (args.mk_args 9000 args.Sync (bstr "d")) ack y0 y b' ex_img
    ex_restart None kv_new [(1, segment_path 1)] [ex_first_log] (3, segment_path 3))
    as (n & rest & Hn & Hl & Hrest & Hrec).
  - exact Hm.
  - exact ex_fresh.
  - exact ex_intact0.
  - vm_compute. reflexivity.
  - simpl. lia.
  - decide_vm.
  - exact Hr.
  - simpl. rewrite Hg. by constructor.
  - simpl. rewrite Ha. by left.
  - intros z x. by apply disk_in_ok.
  - exact ex_intact1.
  - vm_compute. reflexivity.
  - reflexivity.
  - change (served y) with (stage2.arrivals ex_input) in *. rewrite Hh, Hl0 in Hl. rewrite Hl0 in Hrest. clearbody y.
    assert (n = 2)%nat as ->.
    { clear -Hn Hl. destruct n as [|[|[|n]]]; [discriminate Hl|discriminate Hl|reflexivity|simpl in Hn; lia]. }
    assert (rest = ex_tail) as -> by (by apply app_inv_head in Hrest).
    destruct (Hrec []) as (db & next & E & V).
    + split; [constructor|]. exists ex_tail. split; [reflexivity|right]. split; [discriminate|vm_compute; reflexivity].
    + exists db, next. split; [exact E|]. rewrite V. split; vm_compute; reflexivity.
Defined.

End server.
