(* ===== verification/Accounts.v ===== *)
(** * The accounts of the running server: replies and buffers

    Over the whole system of [System.v] (stage 2, the channel, stage 3 and the
    kernel, in any interleaving): where the response of every request is, and
    where every buffer of the pool is.  The last part runs the two ways in which
    the accounts go wrong for a client: a response that is thrown away, and a
    state in which every buffer is stuck. *)

From S2P Require Import Prelude Wire Db WalFormat Snapshot Recovery Types Acker Stage1 Stage2.
From S2P Require Import FsyncPlanner IoWork Stage3 Kernel Durability NoLoss Pipeline System Threads Server.
Local Open Scope Z_scope.

Module accounts.
Import types acker io_work kernel kernel_laws system threads.

(** ** What the clients are due *)

(** The responses of a sequential map, to the connections that asked. *)
Fixpoint answers (m : gmap bytes bytes) (reqs : list Request) : replies :=
  match reqs with
  | [] => []
  | r :: reqs => (reply r, stage2.spec_resp m r) :: answers (stage2.spec_step m r) reqs
  end.

(** The responses some requests still carry. *)
Definition carried (l : list Request) : replies :=
  omap (fun r => (fun x => (reply r, x)) <$> resp r) l.
Definition in_message (m : WalMsg) : replies :=
  match m with Write b => stage3.unsent b | _ => [] end.

Lemma answers_app m r1 r2 : answers m (r1 ++ r2) = answers m r1 ++ answers (stage2.spec_view m r1) r2.
Proof. revert m. induction r1 as [|r r1 IH]; intros m; simpl; [done|]. by rewrite IH. Qed.

Lemma carried_spec_run m l : carried (stage2.spec_run m l) = answers m l.
Proof. revert m. induction l as [|r l IH]; intros m; [done|]. simpl. by rewrite <- IH. Qed.

(** Advancing sends a part of what the requests carry and leaves the rest. *)
Lemma released_carried a p l :
  Forall (fun r => types.data r <> []) l -> released a p l ++ carried (settle a p <$> l) ≡ₚ carried l.
Proof.
  intros Hl. destruct (stage3.advance_unsent a (mk_batch l [] 0 0) p Hl) as (s & b & E & _ & _ & _ & _ & -> & P).
  rewrite advance_ok in E by done. by injection E as <-.
Qed.

(** What is left after stage 2 has answered, when no PUT is among the requests. *)
Definition unknown_ops (l : replies) : Prop := Forall (fun p => p.2 = wire.UnknownOp) l.

Lemma left_over a m l :
  stage2.puts l = 0 ->
  let rest := carried (settle a Applied <$> stage2.spec_run m l) in
  unknown_ops rest /\ (level a = Applied -> rest = []).
Proof.
  revert m. induction l as [|r l IH]; intros m Hp; [by split; [constructor|]|].
  rewrite stage2.puts_cons in Hp. pose proof (stage2.puts_nonneg l).
  destruct (is_put r) eqn:Er; [lia|]. specialize (IH (stage2.spec_step m r) ltac:(lia)) as [IH1 IH2].
  cbn [stage2.spec_run]. rewrite fmap_cons. unfold carried in *. cbn [omap list_omap]. rewrite resp_settle.
  unfold due, need. change (is_get (set_resp _ _)) with (is_get r).
  destruct (is_get r) eqn:Eg; [by split|]. simpl resp.
  destruct (ack_le (level a) Applied) eqn:El; simpl.
  - by split.
  - split; [|by intros Hl; rewrite Hl in El]. constructor; [|done]. simpl. unfold stage2.spec_resp.
    unfold is_get, is_put in *. by destruct (opc r).
Qed.

(** In no-fsync mode stage 2 leaves nothing to send. *)
Lemma nothing_left a l : level a = Applied -> carried (settle a Applied <$> l) = [].
Proof.
  intros Ha. unfold carried. induction l as [|r l IH]; [done|]. rewrite fmap_cons. cbn [omap list_omap].
  rewrite resp_settle. unfold due, need. rewrite Ha, IH. by destruct (is_get r).
Qed.

(** ** The books *)

Section books.
Context {S : Type} `{KvLaws S} {L : Type} `{SlabLaws L} {K : Type} (R : Z -> Z -> Prop) `{UringLaws K R}.
Variable ack : Acker.
Implicit Types y : Sys S L K.

(** The replies that left the server. *)
Definition sent y : replies := replied y ++ stage3.sent_of (stage3.trace (durability.eng (s3 y))).
(** The responses that wait for their level, in the channel and in stage 3. *)
Definition waiting y : replies := stage3.owed (durability.eng (s3 y)) ++ (chan y ≫= in_message).

(** The buffers: free, kept by stage 2, in the channel, in stage 3. *)
Definition buffers y : nat :=
  length (pool y) + length (option_list (stage2.recycled_batch (s2 y))) + length (chan y) +
  length (stage3.held (durability.eng (s3 y))).

Record books (m0 : gmap bytes bytes) y : Prop := {
  bk_replies : exists lost, sent y ++ waiting y ++ lost ≡ₚ answers m0 (served y) /\ unknown_ops lost /\
    (level ack = Applied -> lost = []);
  bk_nofsync : level ack = Applied -> waiting y = [];
  bk_buffers : buffers y = N_BUFFERS;
  bk_pool : Forall (fun b => b = with_capacity MAX_BATCH OUT_CAP) (pool y);
}.

Lemma books_start y : start y -> books (kv_view (stage2.loop_db (s2 y))) y.
Proof.
  intros [A1 A2 A3 A4 A5 A6 A7 [A8 A8'] A9].
  assert (stage3.held (durability.eng (s3 y)) = []) as Hh.
  { unfold stage3.held, stage3.inflight_ops. destruct A5 as [I1 I2 I3 I4 _ _ _ _ _ _].
    by rewrite I1, I2, I4, map_to_list_empty. }
  split.
  - exists []. unfold sent, waiting, stage3.owed. destruct A5. rewrite A4, A7, A9, Hh, in_trace. split; [done|].
    by split; [constructor|].
  - intros _. unfold waiting, stage3.owed. by rewrite A4, Hh.
  - unfold buffers. by rewrite A4, A8, A8', Hh.
  - rewrite A8. by apply Forall_replicate.
Qed.

(** The kernel and the engine of a reachable state, as the durability proof sees them. *)
Lemma engine_ok (w0 w : durability.World L K) :
  durability.initial w0 -> rtc durability.wstep w0 w ->
  let base := segment.offset (stage3.seg (durability.eng w0)) in
  durability.world_wf base w /\ durability.inv base (durability.own_bytes base) (durability.abs w).
Proof.
  intros Hi Hr base.
  destruct (durability.inv_initial base (durability.own_bytes base) w0 Hi (durability.initial_wf w0 Hi) eq_refl)
    as [W0 I0].
  by apply (durability.wsteps_ok base (durability.own_bytes base) (durability.own_laws base) w0 w
    (durability.own_startable base) Hr W0 I0).
Qed.

(** *** The steps *)

Lemma owed_nothing (o s more : replies) : o ++ s ++ more ≡ₚ s -> o = [].
Proof. intros Hp%Permutation_length. rewrite !length_app in Hp. destruct o; [done|simpl in Hp; lia]. Qed.

Lemma books_stage2 m0 l0 y inp st' out msg :
  sys_inv m0 l0 y -> books m0 y ->
  stage2.input_ok inp -> Forall arrives (stage2.arrivals inp) ->
  (stage2.recycled_batch (s2 y) = None -> stage2.free inp = head (pool y)) ->
  u64 (stage2.lsn (s2 y) + stage2.puts (stage2.item_rx (s2 y) ++ stage2.arrivals inp)) ->
  stage2.iteration ack (s2 y) inp = Done (stage2.Continue st' out msg) ->
  books m0 (mk_sys st' (chan y ++ option_list msg) (s3 y)
    (served y ++ take (Z.to_nat MAX_BATCH) (stage2.item_rx (s2 y) ++ stage2.arrivals inp))
    (match stage2.recycled_batch (s2 y) with Some _ => pool y | None => tail (pool y) end)
    (replied y ++ out)).
Proof.
  intros I [(lost & Hl & Hk & Ha) Hnf Hb Hp] Hin Har Hfr Hu Hit.
  pose proof (si_view _ _ _ I) as Hv. set (queue := stage2.item_rx (s2 y) ++ stage2.arrivals inp) in *.
  assert (Forall (fun r => req_ok r = true) queue) as Hq.
  { apply arrives_ok, Forall_app. split; [apply (si_queue _ _ _ I)|done]. }
  set (got := take (Z.to_nat MAX_BATCH) queue) in *.
  pose proof (stage2.puts_nonneg (drop (Z.to_nat MAX_BATCH) queue)). pose proof (stage2.puts_nonneg got).
  rewrite <- (take_drop (Z.to_nat MAX_BATCH) queue), stage2.puts_app in Hu. fold got in Hu.
  pose proof (si_lsn _ _ _ I) as Hlsn.
  destruct (stage2.iteration_ok ack (s2 y) inp) as (st2 & _ & _ & _ & _ & Hrb & E);
    [apply (si_loop _ _ _ I)|done|done|done|fold queue; fold got; unfold u64 in *; lia|].
  fold queue in Hrb, E. fold got in Hrb, E. rewrite E in Hit. injection Hit as <- Ho Hm.
  set (run := stage2.spec_run (kv_view (stage2.loop_db (s2 y))) got) in *.
  assert (released ack Applied run ++ carried (settle ack Applied <$> run) ≡ₚ
          answers (stage2.spec_view m0 (served y)) got) as Hrel.
  { rewrite <- Hv, <- carried_spec_run. apply released_carried. apply stage2.spec_run_nonempty.
    by apply Forall_take. }
  set (rest := carried (settle ack Applied <$> run)) in *.
  assert (exists more, (option_list msg ≫= in_message) ++ more = rest /\ unknown_ops more /\
    (level ack = Applied -> more = [])) as (more & Hmore & Hmk & Hma).
  { rewrite <- Hm. destruct (0 <? stage2.puts got) eqn:Ep.
    - exists []. simpl. rewrite !app_nil_r. split; [done|]. by split; [constructor|].
    - apply Z.ltb_ge in Ep. exists rest. split; [done|]. apply left_over. lia. }
  split; simpl.
  - exists (lost ++ more). split_and!.
    + rewrite answers_app, <- Hrel, <- Hl, <- Ho, <- Hmore. unfold sent, waiting. simpl. rewrite bind_app.
      solve_Permutation.
    + by apply Forall_app.
    + intros Hlv. by rewrite Ha, Hma.
  - intros Hlv. specialize (Hnf Hlv). unfold waiting in *. simpl. rewrite bind_app, app_assoc, Hnf.
    rewrite (Hma Hlv), app_nil_r in Hmore. rewrite Hmore. by apply nothing_left.
  - unfold buffers in *. simpl. rewrite Hrb, length_app. revert Hb. rewrite <- Hm.
    destruct (stage2.in_free _ Hin) as (fb & Hfb & _).
    destruct (stage2.recycled_batch (s2 y)) as [b|], (0 <? stage2.puts got); simpl; try lia;
      rewrite Hfr in Hfb by done; destruct (pool y); simplify_eq/=; lia.
  - destruct (stage2.recycled_batch (s2 y)); [done|]. destruct Hp; [constructor|done].
Qed.

Lemma books_take m0 l0 base y b rest e' :
  sys_inv m0 l0 y -> books m0 y -> durability.world_wf base (s3 y) ->
  chan y = Write b :: rest ->
  u64 (segment.offset (stage3.seg (durability.eng (s3 y))) + len (stage3.redo_bytes (lsn_low b) (items b))) ->
  stage3.handle_batch (durability.eng (s3 y)) b = Done e' ->
  books m0 (mk_sys (s2 y) rest
    (durability.mk_world e' (durability.uring (s3 y)) (durability.ingested (s3 y) ++ [stage3.encoded b]))
    (served y) (pool y) (replied y)).
Proof.
  intros I [(lost & Hl & Hk & Ha) Hnf Hb Hp] [Wf _] Hc Hu He.
  pose proof (head_ingestable m0 l0 y b rest I Hc Hu) as Hg.
  destruct (stage3.handle_batch_wf _ b Wf Hg) as (e2 & E2 & _ & [C1 C2]).
  rewrite He in E2. injection E2 as <-.
  rewrite stage3.handle_batch_ok in He by done. injection He as <-.
  set (e' := stage3.set_pending _ _) in *.
  change (stage3.trace e') with (stage3.trace (durability.eng (s3 y))) in *.
  split; simpl; [| |unfold buffers in *; simpl; rewrite Hc in Hb; simpl in *; lia|done].
  2: { intros Hlv. specialize (Hnf Hlv). unfold waiting in *. rewrite Hc, bind_cons in Hnf. simpl.
       apply app_eq_nil in Hnf as [Ho [Hu1 Hu2]%app_eq_nil]. simpl in Hu1. rewrite Hu2, app_nil_r.
       assert (([b] ≫= stage3.unsent) = []) as Eb by (simpl; by rewrite Hu1).
       rewrite Ho, Eb, app_nil_r in C2. rewrite <- (app_nil_r (stage3.sent_of _)) in C2 at 1.
       by apply owed_nothing in C2. }
  exists lost. split; [|done]. rewrite <- Hl. unfold sent, waiting in *. simpl. rewrite Hc, bind_cons.
  rewrite bind_cons in C2. simpl in C2. rewrite app_nil_r in C2. simpl.
  change (stage3.trace e') with (stage3.trace (durability.eng (s3 y))).
  rewrite <- !app_assoc. f_equiv. rewrite !app_assoc. do 2 f_equiv.
  rewrite Permutation_app_comm, C2. solve_Permutation.
Qed.

Lemma books_stage3 m0 base y w' :
  books m0 y -> durability.world_wf base (s3 y) -> durability.world_wf base w' ->
  durability.inv base (durability.own_bytes base) (durability.abs (s3 y)) ->
  durability.wstep (s3 y) w' -> durability.ingested w' = durability.ingested (s3 y) ->
  books m0 (mk_sys (s2 y) (chan y) w' (served y)
    (pool y ++ returned (durability.eng (s3 y)) (durability.eng w')) (replied y)).
Proof.
  intros [(lost & Hl & Hk & Ha) Hnf Hb Hp] W [W' _] I Hs Hg.
  destruct (durability.wstep_conserves base _ (durability.own_laws base) _ _ Hs W I) as (new & Hn & [C1 C2]).
  assert (new = []) as ->.
  { rewrite Hg in Hn. apply (f_equal length) in Hn. rewrite length_app, length_fmap in Hn.
    destruct new; [done|simpl in Hn; lia]. }
  destruct (wstep_log _ _ Hs Hg) as (_ & _ & [more Ht]). simpl in C2. rewrite app_nil_r in C2.
  assert (stage3.recycled_of (stage3.trace (durability.eng w')) =
    stage3.recycled_of (stage3.trace (durability.eng (s3 y))) ++ returned (durability.eng (s3 y)) (durability.eng w')) as Hre.
  { unfold returned. rewrite Ht, stage3.recycled_of_app, drop_app_length. done. }
  split; simpl.
  - exists lost. split; [|done]. rewrite <- Hl. unfold sent, waiting. simpl.
    rewrite <- !app_assoc. f_equiv. rewrite !app_assoc. do 2 f_equiv. rewrite Permutation_app_comm, C2.
    solve_Permutation.
  - intros Hlv. specialize (Hnf Hlv). unfold waiting in *. simpl in *. apply app_eq_nil in Hnf as [Ho Hu].
    rewrite Hu, app_nil_r. rewrite Ho, Ht, stage3.sent_of_app in C2. simpl in C2.
    by apply owed_nothing in C2.
  - unfold buffers in *. simpl. rewrite Hre, length_app in C1. rewrite length_app. simpl in C1. lia.
  - apply Forall_app. split; [done|]. pose proof (stage3.ew_recycled _ W') as Hall. rewrite Hre in Hall.
    by apply Forall_app in Hall as [_ Hall].
Qed.

Lemma books_ok y0 y :
  start y0 -> rtc (sys_step ack) y0 y -> books (kv_view (stage2.loop_db (s2 y0))) y.
Proof.
  intros Hs Hr0. revert y Hr0. refine (rtc_ind_r _ _ _ _); [by apply books_start|]. intros y1 y2 Hr Hy IH.
  destruct (sys_ok ack y0 y1 Hs Hr) as [I1 R1].
  destruct (sys_ok ack y0 y2 Hs) as [_ R2]; [by eapply rtc_r|].
  destruct (engine_ok _ _ (st_world _ Hs) R1) as [W1 J1]. destruct (engine_ok _ _ (st_world _ Hs) R2) as [W2 _].
  destruct Hy as [y inp st' out msg Hin Har Hfr Hu Hit|y b rest e' Hc Hu He|y w' Hw Hg].
  - by eapply books_stage2.
  - by eapply books_take.
  - by eapply books_stage3.
Qed.

End books.

(** ** Properties *)

Section properties.
Context {S : Type} `{KvLaws S} {L : Type} `{SlabLaws L} {K : Type} (R : Z -> Z -> Prop) `{UringLaws K R}.
Implicit Types y : Sys S L K.

(** C4: every request gets one answer, and the right one.  However the threads and
    the kernel interleave, and however short or interrupted the writes are: the
    responses that a sequential map gives to the requests served, each to the
    connection that asked, are exactly those sent so far, those that wait in the
    channel or in stage 3 for their level, and those that are lost; only
    responses to unknown operations are ever lost.  In no-fsync mode nothing is
    lost and nothing waits: every request served has been answered. *)
Theorem every_reply_once ack y0 y :
  start y0 -> rtc (sys_step ack) y0 y ->
  exists lost, sent y ++ waiting y ++ lost ≡ₚ answers (kv_view (stage2.loop_db (s2 y0))) (served y) /\
    unknown_ops lost /\ (level ack = Applied -> lost = [] /\ waiting y = []).
Proof.
  intros Hs Hr. destruct (books_ok R ack y0 y Hs Hr) as [(lost & Hl & Hk & Ha) Hnf _ _].
  exists lost. split_and!; [done..|]. intros Hlv. split; [by apply Ha|by apply Hnf].
Qed.

(** C26: the buffers go round.  At any time each of the [N_BUFFERS] buffers is in
    exactly one place: free, kept by stage 2, in the channel, or in stage 3; those
    that are free are empty.  So the unbounded channel of stages 2 and 3 holds at
    most [N_BUFFERS] messages, and when stage 2 waits for a buffer all of them
    are on stage 3's side. *)
Theorem buffers_circulate ack y0 y :
  start y0 -> rtc (sys_step ack) y0 y ->
  (length (pool y) + length (option_list (stage2.recycled_batch (s2 y))) + length (chan y) +
     length (stage3.held (durability.eng (s3 y))) = N_BUFFERS)%nat /\
  Forall (fun b => b = with_capacity MAX_BATCH OUT_CAP) (pool y) /\ (length (chan y) <= N_BUFFERS)%nat /\
  (stage2.recycled_batch (s2 y) = None -> pool y = [] ->
   (length (chan y) + length (stage3.held (durability.eng (s3 y))) = N_BUFFERS)%nat).
Proof.
  intros Hs Hr. destruct (books_ok R ack y0 y Hs Hr) as [_ _ Hb Hp]. unfold buffers in Hb.
  split_and!; [done|done|lia|]. intros Hn Hq. rewrite Hn, Hq in Hb. simpl in Hb. lia.
Qed.

(** Both threads wait for each other: stage 2 for a buffer, stage 3 for a message. *)
Definition stuck y : Prop :=
  stage2.recycled_batch (s2 y) = None /\ pool y = [] /\ chan y = [] /\
  stage3.should_park (durability.eng (s3 y)) = true.

Lemma stuck_step ack y y' :
  stuck y -> loop_step ack y y' -> stuck y' /\ served y' = served y /\ sent y' = sent y.
Proof.
  intros (Q1 & Q2 & Q3 & Q4) Hl.
  destruct Hl as [y inp st' out msg Hin Har Hfr Hu Hit|y i k1 n m e' Hroom Hin Hk Hc Hsub Hit|y k' Hk].
  - destruct (stage2.in_free _ Hin) as (b & Hb & _). rewrite Hfr, Q2 in Hb by done. done.
  - unfold stage3.iteration in Hit. rewrite Hin, Q3 in Hit. cbn [arriving stage3.poll_channel_or_park] in Hit.
    by rewrite Q4 in Hit.
  - by split_and!.
Qed.

Lemma stuck_for_ever ack y y' :
  stuck y -> rtc (loop_step ack) y y' -> served y' = served y /\ sent y' = sent y.
Proof.
  intros Hs. induction 1 as [|y1 y2 y3 Hl _ IH]; [done|].
  destruct (stuck_step ack y1 y2 Hs Hl) as (Hs2 & E1 & E2). destruct (IH Hs2). split; congruence.
Qed.

End properties.

(** C27: an unknown operation is never answered.  When the mode delays the answers to
    writes, a request with an opcode other than GET and PUT that is alone in its
    batch (or only among reads) gets its response [UnknownOp] from the table's
    thread, but the level it waits for is never reached: the batch has nothing
    for the WAL and is recycled, response and all. *)
Theorem unknown_op_unanswered {S} `{KvLaws S} ack (st : stage2.Loop S) inp r op :
  stage2.loop_wf st -> stage2.input_ok inp -> stage2.item_rx st = [] -> stage2.arrivals inp = [r] ->
  types.data r <> [] -> opc r = wire.Unknown op -> level ack <> Applied -> u64 (stage2.lsn st) ->
  stage2.spec_resp (kv_view (stage2.loop_db st)) r = wire.UnknownOp /\
  exists st', stage2.iteration ack st inp = Done (stage2.Continue st' [] None) /\
    stage2.item_rx st' = [] /\ stage2.recycled_batch st' = Some (with_capacity 0 0).
Proof.
  intros Hwf Hin Hq Har Hd Ho Hlv Hu.
  assert (is_put r = false /\ is_get r = false) as [Hp Hg] by (unfold is_put, is_get; by rewrite Ho).
  assert (stage2.puts [r] = 0) as Hz by (rewrite stage2.puts_cons, Hp; done).
  split; [unfold stage2.spec_resp; by rewrite Ho|].
  destruct (stage2.iteration_ok ack st inp Hwf Hin) as (st' & _ & Hx & _ & _ & Hb & E);
    rewrite ?Hq, ?Har in *; simpl app in *.
  - constructor; [|constructor]. unfold req_ok. unfold opc in Ho. destruct (types.data r); [done|by rewrite Ho].
  - done.
  - change (take (Z.to_nat MAX_BATCH) [r]) with [r]. rewrite Hz. by rewrite Z.add_0_r.
  - change (take (Z.to_nat MAX_BATCH) [r]) with [r] in *. rewrite Hz in *.
    exists st'. split; [|by split]. rewrite E. simpl. f_equal. unfold released. cbn [omap list_omap].
    unfold due, need. change (is_get (set_resp _ _)) with (is_get r). rewrite Hg.
    by destruct (level ack).
Qed.

(** ** A run that stops for ever *)

Definition put_of (c : N) : Request := stage2.ex_req wire.OP_PUT "k" "v" c.
Definition stuck_main : outcome (Acker * Sys db.Db (gmap N IoWork) (doc_kernel any_result)) :=
  server.main (recovery.ex_dir None []) server.ex_ring_new (fun _ => Done 4) (fun _ => Done 0) (mk_kernel [] ∅ ∅ [])
    (args.mk_args 9000 args.Sync (bstr "d")).

(** The write of the first batch is cut short while the fsync behind it is queued;
    31 more batches follow before the fsync runs. *)
Definition stuck_moves : list move :=
  [Serve [put_of 0]; Turn []; Serve [put_of 1]; Turn [durability.KWrite 0 10]] ++
  concat ((fun c => [Serve [put_of c]; Turn []]) <$> (N.of_nat <$> seq 2 30)) ++
  [Turn ([durability.KSync 0; durability.KWrite 0 27; durability.KWrite 0 17] ++
         replicate 30 (durability.KWrite 0 27))].

Definition stuck_test (y : Sys db.Db (gmap N IoWork) (doc_kernel any_result)) : bool :=
  Nat.eqb (length (served y)) N_BUFFERS && Nat.eqb (length (waiting y)) N_BUFFERS && is_nil (sent y) &&
  is_nil (option_list (stage2.recycled_batch (s2 y))) && is_nil (pool y) && is_nil (chan y) &&
  stage3.should_park (durability.eng (s3 y)).

Lemma stuck_run :
  match stuck_main with
  | Done (ack, y0) =>
      match exec ack any_result (fun _ _ => true) y0 stuck_moves with Some y => stuck_test y | None => false end
  | _ => false
  end = true.
Proof. vm_compute. reflexivity. Qed.


Lemma stuck_test_ok y :
  stuck_test y = true ->
  length (served y) = N_BUFFERS /\ length (waiting y) = N_BUFFERS /\ sent y = [] /\ stuck y.
Proof.
  unfold stuck_test. rewrite !andb_true_iff, !Nat.eqb_eq. intros [[[[[[T1 T2] T3] T4] T5] T6] T7].
  apply is_nil_ok in T3, T4, T5, T6. do 3 (split; [done|]). split; [|by split_and!].
  by destruct (stage2.recycled_batch (s2 y)).
Qed.

(** C10: the server can stop for ever.  In sync mode, started on an empty directory:
    the write of the first batch is short, so its rest is queued behind the fsync;
    31 more batches are queued meanwhile; then the fsync and all the writes
    complete and are reaped together.  The fsync released nobody, every buffer
    now waits for the next fsync, and stage 3, with nothing queued or in flight,
    parks on its channel without ordering one.  Stage 2 has no buffer to send it a
    message: none of the 32 writes is ever acknowledged and no request, not even
    a read, is served again. *)
Theorem server_can_freeze :
  exists ack y0 y, stuck_main = Done (ack, y0) /\ rtc (loop_step ack) y0 y /\
    length (served y) = N_BUFFERS /\ length (waiting y) = N_BUFFERS /\
    forall y', rtc (loop_step ack) y y' -> served y' = served y /\ sent y' = [].
Proof.
  pose proof stuck_run as Ht. destruct stuck_main as [[ack y0]| |] eqn:Em; [|done..].
  destruct (exec ack any_result (fun _ _ => true) y0 stuck_moves) as [y|] eqn:Ex; [|done].
  apply stuck_test_ok in Ht as (T1 & T2 & T3 & T4). exists ack, y0, y. split; [reflexivity|].
  split; [eapply exec_moves_ok; [|exact Ex]; by intros|]. split; [exact T1|]. split; [exact T2|].
  intros y' Hr. destruct (stuck_for_ever ack y y' T4 Hr) as [E1 E2]. split; [exact E1|]. by rewrite E2.
Qed.

(** ** Witnesses *)

Lemma every_reply_once_witness :
  exists (y : Sys db.Db (gmap N IoWork) (doc_kernel full_result)) lost,
    rtc (sys_step (acker.new args.Sync)) ex_sys0 y /\
    sent y ++ waiting y ++ lost ≡ₚ [(5%N, wire.RespOk); (6%N, wire.RespOk)] /\ unknown_ops lost.
Proof.
  destruct (every_reply_once full_result (acker.new args.Sync) ex_sys0 ex_sys1 ex_start ex_handover)
    as (lost & Hp & Hk & _).
  exists ex_sys1, lost. split; [exact ex_handover|]. split; [|exact Hk]. rewrite Hp.
  assert (answers (kv_view (stage2.loop_db (s2 ex_sys0))) (served ex_sys1) = [(5%N, wire.RespOk); (6%N, wire.RespOk)])
    as -> by (vm_compute; reflexivity). reflexivity.
Defined.

Lemma buffers_circulate_witness :
  length (pool ex_sys1) = 31%nat /\ length (chan ex_sys1) = 1%nat /\ (length (chan ex_sys1) <= N_BUFFERS)%nat.
Proof.
  destruct (buffers_circulate full_result (acker.new args.Sync) ex_sys0 ex_sys1 ex_start ex_handover)
    as (_ & _ & Hc & _).
  split; [vm_compute; reflexivity|]. split; [vm_compute; reflexivity|exact Hc].
Defined.

Definition ex_unknown : Request := mk_request [Byte.x07] 3 None.

Lemma unknown_op_unanswered_witness :
  exists st', stage2.iteration (acker.new args.Sync) stage2.ex_loop
    (stage2.mk_input (Some (with_capacity 0 0)) [ex_unknown] true) = Done (stage2.Continue st' [] None).
Proof.
  destruct (unknown_op_unanswered (acker.new args.Sync) stage2.ex_loop
    (stage2.mk_input (Some (with_capacity 0 0)) [ex_unknown] true) ex_unknown Byte.x07)
    as (_ & st' & E & _).
  - split; [exact stage2.ex_table_wf|done].
  - split; [discriminate|by exists (with_capacity 0 0)|reflexivity].
  - reflexivity.
  - reflexivity.
  - discriminate.
  - reflexivity.
  - discriminate.
  - decide_vm.
  - exists st'. exact E.
Defined.

End accounts.
