(* ===== verification/Backpressure.v ===== *)
(** * Back-pressure: the response channels ([acker.rs], [stage1/mod.rs])

    The channel from the threads that answer to the writer of a connection holds
    [RESP_BOUND] responses; [blocking_send] waits while it is full.  Here that
    waiting is modelled: the two threads that call [Acker::advance] (stage 2 and
    stage 3), the channels, the writers (a step per [recv], [try_recv] and write
    of [write_all]), the sockets, which hold a bounded number of bytes, and the
    peers, of whom some do not read and some close the connection. *)

From stdpp Require Import functions.
From S2P Require Import Prelude Wire Types Acker Stage1.
Local Open Scope Z_scope.

Module backpressure.
Import types acker stage1.

(** ** A connection *)

Inductive Writer :=
| Idle                       (* in [resp_rx.recv] *)
| Collecting (buf : bytes)   (* in the loop of [try_recv] *)
| Writing (buf : bytes)      (* in [write_all], these bytes being left *)
| Gone.                      (* a write failed: the task ended and dropped [resp_rx] *)

Record Conn := mk_conn {
  queue : list wire.Resp;    (* what the channel holds *)
  wr : Writer;
  sock : bytes;              (* written, and not yet read by the peer *)
  received : bytes;          (* what the peer has read *)
}.
Definition connected : Conn := mk_conn [] Idle [] [].

(** [req.reply.blocking_send(r)]: [None] while it waits for room; the error of a
    closed channel is ignored. *)
Definition blocking_send (x : Conn) (r : wire.Resp) : option Conn :=
  match wr x with
  | Gone => Some x
  | _ => if len (queue x) <? RESP_BOUND then Some (mk_conn (queue x ++ [r]) (wr x) (sock x) (received x)) else None
  end.

(** The writer up to [write_all]; [None] while it waits. *)
Definition writer_recv (x : Conn) : outcome (option Conn) :=
  match wr x, queue x with
  | Idle, first :: q =>
      buf ← encode_resp [] first;
      Done (Some (mk_conn q (Collecting buf) (sock x) (received x)))
  | Collecting buf, r :: q =>
      buf ← encode_resp buf r;
      Done (Some (mk_conn q (if WRITE_CHUNK <=? len buf then Writing buf else Collecting buf) (sock x) (received x)))
  | Collecting buf, [] => Done (Some (mk_conn [] (Writing buf) (sock x) (received x)))
  | _, _ => Done None
  end.

(** [write_all] hands the socket, of [cap] bytes, the next [n] bytes; with the last
    of them it returns, and the buffer is cleared. *)
Definition writer_write (cap : Z) (x : Conn) (n : nat) : option Conn :=
  match wr x with
  | Writing buf =>
      if (0 <? n)%nat && (n <=? length buf)%nat && (len (sock x) + Z.of_nat n <=? cap) then
        Some (mk_conn (queue x) (match drop n buf with [] => Idle | rest => Writing rest end)
                (sock x ++ take n buf) (received x))
      else None
  | _ => None
  end.
(** A write fails: the task ends, and the channel is closed. *)
Definition writer_fail (x : Conn) : option Conn :=
  match wr x with Writing _ => Some (mk_conn [] Gone (sock x) (received x)) | _ => None end.

(** The peer reads [n] bytes. *)
Definition peer_read (x : Conn) (n : nat) : option Conn :=
  if (0 <? n)%nat && (n <=? length (sock x))%nat
  then Some (mk_conn (queue x) (wr x) (drop n (sock x)) (received x ++ take n (sock x))) else None.

(** ** The threads that answer, and all connections *)

(** Stage 2 answers at [Applied], stage 3 at [Written] and [Durable]. *)
Inductive Thread := Table | Wal.
#[export] Instance thread_eq_dec : EqDecision Thread.
Proof. solve_decision. Defined.

Record Net := mk_net {
  todo : Thread -> replies;  (* what each thread has still to send *)
  conns : N -> Conn;
  log : replies;             (* what has been sent, in order *)
}.
(** The threads are to send these replies, in one [advance] after the other; the
    connections are idle. *)
Definition net (rs : Thread -> replies) : Net := mk_net rs (fun _ => connected) [].

Section net.
(** The bytes a connection's sockets hold between the writer and its peer. *)
Variable cap : Z.
(** The peers that read, and those that close. *)
Variables reading closing : N -> bool.

Inductive net_step (s : Net) : Net -> Prop :=
| n_send t c r rs x :
    todo s t = (c, r) :: rs -> blocking_send (conns s c) r = Some x ->
    net_step s (mk_net (<[t := rs]> (todo s)) (<[c := x]> (conns s)) (log s ++ [(c, r)]))
| n_recv c x :
    writer_recv (conns s c) = Done (Some x) -> net_step s (mk_net (todo s) (<[c := x]> (conns s)) (log s))
| n_write c n x :
    writer_write cap (conns s c) n = Some x -> net_step s (mk_net (todo s) (<[c := x]> (conns s)) (log s))
| n_fail c x :
    closing c = true -> writer_fail (conns s c) = Some x ->
    net_step s (mk_net (todo s) (<[c := x]> (conns s)) (log s))
| n_read c n x :
    reading c = true -> peer_read (conns s c) n = Some x ->
    net_step s (mk_net (todo s) (<[c := x]> (conns s)) (log s)).

(** ** Order *)

Definition to_conn (c : N) (rs : replies) : list wire.Resp :=
  omap (fun p => if decide (p.1 = c) then Some p.2 else None) rs.
Definition frames (l : list wire.Resp) : bytes := concat (resp_frame <$> l).
Definition in_hand (w : Writer) : bytes :=
  match w with Collecting buf | Writing buf => buf | _ => [] end.

(** Of [total], the bytes sent to a connection, some have reached the peer, some are
    in the socket, with the writer and in the channel. *)
Definition on_the_way (x : Conn) (total : bytes) : Prop :=
  match wr x with
  | Gone => received x ++ sock x `prefix_of` total
  | w => received x ++ sock x ++ in_hand w ++ frames (queue x) = total
  end /\ Forall resp_ok (queue x) /\ len (queue x) <= RESP_BOUND /\ len (sock x) <= Z.max 0 cap /\
  match wr x with Collecting buf | Writing buf => buf <> [] | _ => True end.

Lemma resp_frame_len r : 5 <= len (resp_frame r).
Proof. destruct r; cbn [resp_frame]; unfold frame; len_lia. Qed.
Lemma resp_frame_cons r buf : buf ++ resp_frame r <> [].
Proof. intros E%(f_equal length). pose proof (resp_frame_len r). rewrite length_app in E. cbn [length] in E. lia. Qed.

Lemma to_conn_app c l1 l2 : to_conn c (l1 ++ l2) = to_conn c l1 ++ to_conn c l2.
Proof. apply omap_app. Qed.
Lemma frames_app l1 l2 : frames (l1 ++ l2) = frames l1 ++ frames l2.
Proof. unfold frames. by rewrite fmap_app, concat_app. Qed.
Lemma frames_one r : frames [r] = resp_frame r.
Proof. unfold frames. simpl. by rewrite app_nil_r. Qed.

Lemma send_on_the_way x r y total :
  blocking_send x r = Some y -> resp_ok r -> on_the_way x total -> on_the_way y (total ++ resp_frame r).
Proof.
  unfold blocking_send, on_the_way. intros Hs Hr (Ht & Hq & Hl & Hk & Hb).
  destruct (wr x) eqn:Ew; [destruct (len (queue x) <? RESP_BOUND) eqn:El; [|done]..|]; injection Hs as <-;
    rewrite ?Ew in *; simpl; rewrite ?Ew; [..|by split; [apply prefix_app_r|]];
    (split; [|split; [by apply Forall_app; repeat constructor|split; [rewrite length_app; simpl; lia|done]]]);
    rewrite frames_app, frames_one, <- Ht, <- ?app_assoc; done.
Qed.

Lemma recv_on_the_way x total :
  on_the_way x total ->
  writer_recv x = Done None \/ exists y, writer_recv x = Done (Some y) /\ on_the_way y total.
Proof.
  unfold writer_recv, on_the_way. intros (Ht & Hq & Hl & Hk & Hb).
  destruct (wr x) as [|buf|buf|] eqn:Ew, (queue x) as [|r q] eqn:Eq; try (by left); right.
  - apply Forall_cons in Hq as [Hr Hq]. rewrite encode_resp_frame by done. ostep. eexists. split; [done|].
    unfold frames in *. simpl in *. split_and!; [by rewrite <- Ht|done|lia|done|by apply (resp_frame_cons r [])].
  - eexists. split; [done|]. simpl in *. by split_and!.
  - apply Forall_cons in Hq as [Hr Hq]. rewrite encode_resp_frame by done. ostep. eexists. split; [done|].
    simpl in *. rewrite <- Ht. unfold frames. simpl. pose proof (resp_frame_cons r buf).
    destruct (_ <=? _); simpl; (split_and!; [by rewrite <- !app_assoc|done|lia|done|done]).
Qed.

Lemma write_on_the_way x n y total :
  writer_write cap x n = Some y -> on_the_way x total -> on_the_way y total.
Proof.
  unfold writer_write, on_the_way. intros Hw (Ht & Hq & Hl & Hk & Hb). destruct (wr x) as [| |buf|]; try done.
  destruct (_ && _) eqn:E; [|done]. injection Hw as <-. simpl in *. rewrite !andb_true_iff, Z.leb_le in E.
  destruct E as [[_ En] Ec]. apply Nat.leb_le in En.
  assert (received x ++ (sock x ++ take n buf) ++ drop n buf ++ frames (queue x) = total) as E.
  { rewrite <- Ht, <- app_assoc, (app_assoc (take n buf)). by rewrite take_drop. }
  split; [|split_and!; [done|done|len_lia|by destruct (drop n buf)]].
  by destruct (drop n buf) as [|z rest].
Qed.

Lemma fail_on_the_way x y total : writer_fail x = Some y -> on_the_way x total -> on_the_way y total.
Proof.
  unfold writer_fail, on_the_way. intros Hw (Ht & _ & _ & Hk & _). destruct (wr x) as [| |buf|]; try done.
  injection Hw as <-. simpl in *. split_and!; [|constructor|unfold RESP_BOUND; simpl; lia|done|done].
  rewrite <- Ht, (app_assoc (received x)). by eexists.
Qed.

Lemma read_on_the_way x n y total : peer_read x n = Some y -> on_the_way x total -> on_the_way y total.
Proof.
  unfold peer_read, on_the_way. intros Hr (Ht & Hq & Hl & Hk & Hb). destruct (_ && _); [|done]. injection Hr as <-.
  simpl in *. split; [|split_and!; [done|done|len_lia|done]].
  rewrite <- (take_drop n (sock x)) in Ht. destruct (wr x); by rewrite <- ?app_assoc in *.
Qed.

(** Every connection is served what was sent to it, in order. *)
Definition in_order (s : Net) : Prop :=
  (forall t, Forall (fun p => resp_ok p.2) (todo s t)) /\
  forall c, on_the_way (conns s c) (frames (to_conn c (log s))).

Lemma in_order_net rs : (forall t, Forall (fun p => resp_ok p.2) (rs t)) -> in_order (net rs).
Proof.
  intros Hr. split; [done|]. intros c. split_and!; simpl; [done|constructor|unfold RESP_BOUND; simpl; lia|lia|done].
Qed.

Lemma in_order_step s s' : in_order s -> net_step s s' -> in_order s'.
Proof.
  intros [Hr Ho] Hs.
  assert (forall c x, on_the_way x (frames (to_conn c (log s))) ->
    in_order (mk_net (todo s) (<[c := x]> (conns s)) (log s))) as Hup.
  { intros c x Hx. split; [done|]. intros d. simpl. destruct (decide (c = d)) as [<-|Hne];
      [by rewrite fn_lookup_insert|by rewrite fn_lookup_insert_ne]. }
  destruct Hs as [t c r rs x Ht Hx|c x Hx|c n x Hx|c x Hc Hx|c n x Hc Hx].
  - assert (Forall (fun p => resp_ok p.2) ((c, r) :: rs)) as [Hr1 Hrs]%Forall_cons by (rewrite <- Ht; apply Hr). split.
    + intros u. simpl. destruct (decide (t = u)) as [<-|Hne]; [by rewrite fn_lookup_insert|by rewrite fn_lookup_insert_ne].
    + intros d. simpl. rewrite to_conn_app, frames_app. simpl.
      destruct (decide (c = d)) as [<-|Hne].
      * rewrite fn_lookup_insert, frames_one. by eapply send_on_the_way.
      * rewrite fn_lookup_insert_ne by done. unfold frames at 2. simpl. by rewrite app_nil_r.
  - apply Hup. destruct (recv_on_the_way _ _ (Ho c)) as [E|(y & E & Hy)]; congruence.
  - apply Hup. by eapply write_on_the_way.
  - apply Hup. by eapply fail_on_the_way.
  - apply Hup. by eapply read_on_the_way.
Qed.

Lemma in_order_rtc s s' : in_order s -> rtc net_step s s' -> in_order s'.
Proof. intros Ho. induction 1 as [|s1 s2 s3 Hs _ IH]; [done|]. apply IH. by eapply in_order_step. Qed.

(** What the threads have sent is what they had to send, interleaved. *)
Inductive interleaves {A} : list A -> list A -> list A -> Prop :=
| i_nil : interleaves [] [] []
| i_left x a b l : interleaves a b l -> interleaves (a ++ [x]) b (l ++ [x])
| i_right x a b l : interleaves a b l -> interleaves a (b ++ [x]) (l ++ [x]).

Definition sent_all (rs : Thread -> replies) (s : Net) : Prop :=
  exists done, (forall t, rs t = done t ++ todo s t) /\ interleaves (done Table) (done Wal) (log s).

Lemma sent_all_step rs s s' : sent_all rs s -> net_step s s' -> sent_all rs s'.
Proof.
  intros (dn & Hd & Hi) Hs. destruct Hs as [t c r tl x Ht Hx|c x Hx|c n x Hx|c x Hc Hx|c n x Hc Hx]; try by exists dn.
  exists (<[t := dn t ++ [(c, r)]]> dn). split.
  - intros u. simpl. destruct (decide (t = u)) as [<-|Hne]; [|by rewrite !fn_lookup_insert_ne].
    by rewrite !fn_lookup_insert, Hd, Ht, <- app_assoc.
  - simpl. destruct t; rewrite fn_lookup_insert, fn_lookup_insert_ne by done; by constructor.
Qed.
Lemma sent_all_rtc rs s s' : sent_all rs s -> rtc net_step s s' -> sent_all rs s'.
Proof. intros Ho. induction 1 as [|s1 s2 s3 Hs _ IH]; [done|]. apply IH. by eapply sent_all_step. Qed.
Lemma sent_all_net rs : sent_all rs (net rs).
Proof. exists (fun _ => []). split; [done|constructor]. Qed.

(** ** Progress *)

(** What a connection can still cause: per response queued the steps to take it,
    and for each byte that its peer has not read one to write and one to read it. *)
Definition resp_cost (r : wire.Resp) : nat := 3 + 2 * length (resp_frame r).
Definition writer_cost (w : Writer) : nat :=
  match w with Collecting buf => 2 + 2 * length buf | Writing buf => 1 + 2 * length buf | _ => 0 end.
Definition conn_cost (x : Conn) : nat := sum_list_with resp_cost (queue x) + writer_cost (wr x) + length (sock x).
Definition replies_cost (rs : replies) : nat := sum_list_with (fun p => S (resp_cost p.2)) rs.
Definition load (f : N -> Conn) (cs : list N) : nat := sum_list ((fun c => conn_cost (f c)) <$> cs).
Definition cost (cs : list N) (s : Net) : nat :=
  replies_cost (todo s Table) + replies_cost (todo s Wal) + load (conns s) cs.

Lemma load_outside cs (f : N -> Conn) c x : c ∉ cs -> load (<[c := x]> f) cs = load f cs.
Proof.
  intros Hc. unfold load. f_equal. apply list_fmap_ext. intros i d Hd.
  rewrite fn_lookup_insert_ne; [done|]. intros ->. apply Hc. by eapply list_elem_of_lookup_2.
Qed.

Lemma load_insert cs (f : N -> Conn) c x :
  NoDup cs -> c ∈ cs -> (load (<[c := x]> f) cs + conn_cost (f c) = load f cs + conn_cost x)%nat.
Proof.
  induction 1 as [|d cs Hd Hnd IH]; [by intros ?%not_elem_of_nil|]. unfold load in *. rewrite !fmap_cons. cbn [sum_list foldr].
  intros [->|Hc]%elem_of_cons; simpl.
  - rewrite fn_lookup_insert. pose proof (load_outside cs f d x Hd) as E. unfold load in E. rewrite E. lia.
  - rewrite fn_lookup_insert_ne by (intros ->; done). specialize (IH Hc). lia.
Qed.

(** Only the connections [cs] have anything to do. *)
Definition busy (cs : list N) (s : Net) : Prop :=
  (forall t, Forall (fun p => p.1 ∈ cs) (todo s t)) /\
  forall c, c ∉ cs -> conns s c = connected.

Lemma send_cost x r y : blocking_send x r = Some y -> (conn_cost y <= conn_cost x + resp_cost r)%nat.
Proof.
  unfold blocking_send, conn_cost. destruct (wr x) eqn:Ew; [destruct (_ <? _); [|done]..|];
    intros [= <-]; cbn [queue wr sock]; rewrite ?Ew, ?sum_list_with_app; unfold resp_cost; simpl; lia.
Qed.
Lemma recv_cost x y : writer_recv x = Done (Some y) -> Forall resp_ok (queue x) -> (conn_cost y < conn_cost x)%nat.
Proof.
  unfold writer_recv, conn_cost, resp_cost.
  destruct (wr x) as [|buf|buf|], (queue x) as [|r q]; try done; intros Hx Hq.
  - apply Forall_cons in Hq as [Hr _]. rewrite encode_resp_frame in Hx by done. injection Hx as <-. simpl. lia.
  - injection Hx as <-. simpl. lia.
  - apply Forall_cons in Hq as [Hr _]. rewrite encode_resp_frame in Hx by done. injection Hx as <-.
    cbn [queue wr sock]. destruct (_ <=? _); simpl; rewrite length_app; lia.
Qed.
Lemma write_cost x n y : writer_write cap x n = Some y -> (conn_cost y < conn_cost x)%nat.
Proof.
  unfold writer_write, conn_cost. destruct (wr x) as [| |buf|]; try done. destruct (_ && _) eqn:E; [|done].
  intros [= <-]. rewrite !andb_true_iff in E. destruct E as [[E1%Nat.ltb_lt E2%Nat.leb_le] _].
  pose proof (length_drop buf n) as Hd. cbn [queue wr sock]. rewrite length_app, length_take.
  destruct (drop n buf) as [|z rest] eqn:Ed; simpl in *; lia.
Qed.
Lemma fail_cost x y : writer_fail x = Some y -> (conn_cost y < conn_cost x)%nat.
Proof.
  unfold writer_fail, conn_cost. destruct (wr x) as [| |buf|]; try done. intros [= <-]. simpl. lia.
Qed.
Lemma read_cost x n y : peer_read x n = Some y -> (conn_cost y < conn_cost x)%nat.
Proof.
  unfold peer_read, conn_cost. destruct (_ && _) eqn:E; [|done]. intros [= <-].
  rewrite andb_true_iff in E. destruct E as [E1%Nat.ltb_lt E2%Nat.leb_le]. cbn [queue wr sock]. rewrite length_drop. lia.
Qed.

Lemma cost_step cs s s' :
  NoDup cs -> in_order s -> busy cs s -> net_step s s' -> busy cs s' /\ (cost cs s' < cost cs s)%nat.
Proof.
  intros Hnd [_ Ho] [Hb Hi] Hs.
  assert (forall c x, c ∈ cs -> forall d, d ∉ cs -> <[c := x]> (conns s) d = connected) as Hup.
  { intros c x Hc d Hd. rewrite fn_lookup_insert_ne; [by apply Hi|]. intros ->. done. }
  assert (forall c, conns s c <> connected -> c ∈ cs) as Hin.
  { intros c Hn. destruct (decide (c ∈ cs)); [done|]. by destruct Hn; apply Hi. }
  assert (forall c x, conns s c <> connected -> (conn_cost x < conn_cost (conns s c))%nat ->
    busy cs (mk_net (todo s) (<[c := x]> (conns s)) (log s)) /\
    (cost cs (mk_net (todo s) (<[c := x]> (conns s)) (log s)) < cost cs s)%nat) as Hconn.
  { intros c x Hc%Hin Hx. split; [split; [done|by apply Hup]|]. unfold cost. simpl.
    pose proof (load_insert cs (conns s) c x Hnd Hc). lia. }
  destruct Hs as [t c r rs x Ht Hx|c x Hx|c n x Hx|c x Hc Hx|c n x Hc Hx].
  - pose proof (Hb t) as Hbt. rewrite Ht in Hbt. apply Forall_cons in Hbt as [Hc Hrs]. split; [split|].
    + intros u. simpl. destruct (decide (t = u)) as [<-|Hne]; [by rewrite fn_lookup_insert|by rewrite fn_lookup_insert_ne].
    + by apply Hup.
    + pose proof (load_insert cs (conns s) c x Hnd Hc). pose proof (send_cost _ _ _ Hx). unfold cost. cbn [todo conns].
      destruct t; rewrite fn_lookup_insert, fn_lookup_insert_ne, Ht by done; unfold replies_cost; cbn [sum_list_with snd]; lia.
  - apply Hconn; [by intros E; rewrite E in Hx|]. apply recv_cost; [done|]. by destruct (Ho c) as (_ & Hq & _).
  - apply Hconn; [by intros E; rewrite E in Hx|]. by eapply write_cost.
  - apply Hconn; [by intros E; rewrite E in Hx|]. by eapply fail_cost.
  - apply Hconn; [|by eapply read_cost]. intros E. unfold peer_read in Hx. rewrite E in Hx.
    destruct n; simpl in Hx; done.
Qed.

Lemma cost_bounds cs n s s' :
  NoDup cs -> in_order s -> busy cs s -> nsteps net_step n s s' -> (n + cost cs s' <= cost cs s)%nat.
Proof.
  intros Hnd Ho Hb Hs. revert Ho Hb. induction Hs as [s|n s1 s2 s3 Hs _ IH]; intros Ho Hb; [lia|].
  destruct (cost_step cs s1 s2 Hnd Ho Hb Hs) as [Hb2 Hc]. specialize (IH (in_order_step _ _ Ho Hs) Hb2). lia.
Qed.

(** Nothing is left to do. *)
Definition quiet (x : Conn) : bool :=
  match sock x, wr x, queue x with
  | [], Gone, _ | [], Idle, [] => true
  | _, _, _ => false
  end.

(** A connection with something to do moves, if its peer reads. *)
Lemma conn_moves s c :
  0 < cap -> in_order s -> reading c = true -> quiet (conns s c) = false -> exists s', net_step s s'.
Proof.
  intros Hcap [_ Ho] Hread. destruct (Ho c) as (_ & Hq & _ & _ & Hb). unfold quiet.
  destruct (sock (conns s c)) as [|b bs] eqn:Es.
  - destruct (wr (conns s c)) as [|buf|buf|] eqn:Ew; [| | |done].
    + destruct (queue (conns s c)) as [|r q] eqn:Eq; [done|]. intros _. eexists. apply (n_recv s c).
      apply Forall_cons in Hq as [Hr _]. unfold writer_recv. rewrite Ew, Eq, encode_resp_frame by done. reflexivity.
    + intros _. unfold writer_recv in *. destruct (queue (conns s c)) as [|r q] eqn:Eq.
      * eexists. apply (n_recv s c). unfold writer_recv. by rewrite Ew, Eq.
      * eexists. apply (n_recv s c). apply Forall_cons in Hq as [Hr _].
        unfold writer_recv. rewrite Ew, Eq, encode_resp_frame by done. reflexivity.
    + intros _. destruct buf as [|b buf]; [done|]. eexists. apply (n_write s c 1). unfold writer_write.
      rewrite Ew, Es. simpl. replace (Z.of_nat 0 + Z.of_nat 1 <=? cap) with true by lia_bool. reflexivity.
  - intros _. eexists. apply (n_read s c 1); [done|]. unfold peer_read. rewrite Es. reflexivity.
Qed.

(** Everything sent to a connection that has not failed has reached its peer. *)
Definition delivered (s : Net) : Prop :=
  forall c, wr (conns s c) = Gone \/ received (conns s c) = frames (to_conn c (log s)).

Lemma quiet_delivered s : in_order s -> (forall c, quiet (conns s c) = true) -> delivered s.
Proof.
  intros [_ Ho] Hquiet c. specialize (Hquiet c). destruct (Ho c) as (Ht & _). unfold quiet in Hquiet.
  destruct (sock (conns s c)); [|done]. destruct (wr (conns s c)); [|done..|by left]. right.
  destruct (queue (conns s c)); [|done]. simpl in Ht. by rewrite app_nil_r in Ht.
Qed.

(** A thread whose next reply is for a connection that is quiet, or gone, sends it. *)
Lemma thread_moves s t c r rs : todo s t = (c, r) :: rs -> quiet (conns s c) = true -> exists s', net_step s s'.
Proof.
  intros Ht Hquiet. assert (exists x, blocking_send (conns s c) r = Some x) as [x Hx]; [|eexists; by eapply n_send].
  unfold quiet in Hquiet. unfold blocking_send. destruct (sock (conns s c)); [|done].
  destruct (wr (conns s c)); [|done..|by eexists]. destruct (queue (conns s c)); [|done]. by eexists.
Qed.

(** While all peers read, somebody moves or everything is delivered. *)
Lemma moves_or_delivered cs s :
  0 < cap -> in_order s -> busy cs s -> (forall c, reading c = true) ->
  (exists s', net_step s s') \/ (forall t, todo s t = []) /\ delivered s.
Proof.
  intros Hcap Ho [_ Hb] Hread.
  destruct (decide (Forall (fun c => quiet (conns s c) = true) cs)) as [Hq|Hq].
  - assert (forall c, quiet (conns s c) = true) as Hall.
    { intros c. destruct (decide (c ∈ cs)) as [Hc|Hc]; [by eapply Forall_forall in Hq|by rewrite Hb]. }
    destruct (todo s Table) as [|[c r] rs] eqn:Et; [|by left; eapply thread_moves].
    destruct (todo s Wal) as [|[c r] rs] eqn:Ew; [|by left; eapply thread_moves].
    right. split; [by intros []|]. by apply quiet_delivered.
  - apply not_Forall_Exists in Hq; [|apply _]. apply Exists_exists in Hq as (c & _ & Hc). left.
    apply (conn_moves s c); [done..|]. by apply not_true_is_false.
Qed.

(** While all peers read, everything can be delivered. *)
Lemma can_deliver cs s :
  0 < cap -> NoDup cs -> in_order s -> busy cs s -> (forall c, reading c = true) ->
  exists s', rtc net_step s s' /\ (forall t, todo s' t = []) /\ delivered s' /\ in_order s' /\ busy cs s'.
Proof.
  intros Hcap Hnd Ho Hb Hread. remember (cost cs s) as n eqn:Hn. revert s Ho Hb Hn.
  induction (lt_wf n) as [n _ IH]. intros s Ho Hb ->.
  destruct (moves_or_delivered cs s Hcap Ho Hb Hread) as [[s1 Hs]|[Ht Hd]]; [|by exists s].
  destruct (cost_step cs s s1 Hnd Ho Hb Hs) as [Hb1 Hc].
  destruct (IH _ Hc s1 (in_order_step _ _ Ho Hs) Hb1 eq_refl) as (s' & R & H'). exists s'. split; [by eapply rtc_l|done].
Qed.

Definition conns_of (rs : Thread -> replies) : list N := remove_dups ((rs Table).*1 ++ (rs Wal).*1).
Lemma busy_net rs : NoDup (conns_of rs) /\ busy (conns_of rs) (net rs).
Proof.
  split; [apply NoDup_remove_dups|]. split; [|done]. intros t. apply Forall_forall. intros p Hp.
  apply elem_of_remove_dups, elem_of_app. destruct t; [left|right]; by apply list_elem_of_fmap_2.
Qed.

(** *** A peer that does not read *)

(** What can be sent to it: what the socket, a buffer of the writer and the channel hold. *)
Definition stall_bound : Z := cap / 5 + (WRITE_CHUNK / 5 + 1) + RESP_BOUND.

Lemma frames_len l : 5 * len l <= len (frames l).
Proof.
  induction l as [|r l IH]; [done|]. change (frames (r :: l)) with (resp_frame r ++ frames l).
  pose proof (resp_frame_len r). rewrite length_app. simpl length. lia.
Qed.

(** Nothing was read: what was sent is the frames in the socket ([earlier]), those of the
    writer's round ([l]) and the channel. *)
Definition stalled (x : Conn) (sent : list wire.Resp) : Prop :=
  exists earlier l, sent = earlier ++ l ++ queue x /\ received x = [] /\ 5 * (len l - 1) < WRITE_CHUNK /\
  match wr x with
  | Idle => l = [] /\ sock x = frames earlier
  | Collecting buf => sock x = frames earlier /\ buf = frames l /\ (len l = 1 \/ len buf < WRITE_CHUNK)
  | Writing buf => exists w, sock x = frames earlier ++ w /\ frames l = w ++ buf
  | Gone => False
  end.

Lemma send_stalled x r y sent : blocking_send x r = Some y -> stalled x sent -> stalled y (sent ++ [r]).
Proof.
  unfold blocking_send, stalled. intros Hs (earlier & l & -> & Hrc & Hl & Hw). exists earlier, l.
  destruct (wr x) eqn:Ew; [destruct (_ <? _); [|done]..|done]; injection Hs as <-; cbn [queue received wr sock];
    (split; [by rewrite <- !app_assoc|]); done.
Qed.

Lemma recv_stalled x y sent :
  writer_recv x = Done (Some y) -> Forall resp_ok (queue x) -> stalled x sent -> stalled y sent.
Proof.
  unfold writer_recv, stalled. intros Hx Hq (earlier & l & -> & Hrc & Hl & Hw).
  destruct (wr x) as [|buf|buf|] eqn:Ew, (queue x) as [|r q] eqn:Eq; try done.
  - apply Forall_cons in Hq as [Hr Hq]. rewrite encode_resp_frame in Hx by done. injection Hx as <-.
    destruct Hw as [-> Hs]. exists earlier, [r]. cbn [queue received wr sock]. rewrite frames_one. simpl. split_and!; auto; done.
  - injection Hx as <-. destruct Hw as (Hs & -> & _). exists earlier, l. cbn [queue received wr sock].
    split_and!; [done..|]. exists []. by rewrite app_nil_r.
  - apply Forall_cons in Hq as [Hr Hq]. rewrite encode_resp_frame in Hx by done. injection Hx as <-.
    destruct Hw as (Hs & -> & Hlen). exists earlier, (l ++ [r]). cbn [queue received wr sock].
    pose proof (frames_len l). assert (5 * (len (l ++ [r]) - 1) < WRITE_CHUNK).
    { rewrite length_app. simpl length. unfold WRITE_CHUNK in *. lia. }
    rewrite <- app_assoc. split_and!; [done..|]. rewrite <- (frames_one r), <- frames_app.
    destruct (WRITE_CHUNK <=? _) eqn:E; [exists []; by rewrite app_nil_r|]. split_and!; [done..|right; lia].
Qed.

Lemma write_stalled x n y sent : writer_write cap x n = Some y -> stalled x sent -> stalled y sent.
Proof.
  unfold writer_write, stalled. intros Hx (earlier & l & -> & Hrc & Hl & Hw).
  destruct (wr x) as [| |buf|]; try done. destruct (_ && _); [|done]. injection Hx as <-. cbn [queue received wr sock].
  destruct Hw as (w & Hs & Hf). rewrite <- (take_drop n buf) in Hf. destruct (drop n buf) as [|z rest].
  - exists (earlier ++ l), []. rewrite <- !app_assoc. split_and!; [done..|].
    rewrite Hs, frames_app, Hf, app_nil_r. by rewrite <- app_assoc.
  - exists earlier, l. split_and!; [done..|]. exists (w ++ take n buf). rewrite Hs, Hf. by rewrite <- !app_assoc.
Qed.

Lemma stalled_bound x sent total : stalled x sent -> on_the_way x total -> 0 <= cap -> len sent <= stall_bound.
Proof.
  intros (earlier & l & -> & _ & Hl & Hw) (_ & _ & Hq & Hk & _) Hcap. unfold stall_bound.
  assert (5 * len earlier <= cap) as He.
  { pose proof (frames_len earlier). destruct (wr x); [destruct Hw as (_ & E)|destruct Hw as (E & _)|
      destruct Hw as (w & E & _)|done]; rewrite E in Hk; rewrite ?length_app in Hk; lia. }
  assert (len l <= WRITE_CHUNK / 5 + 1) by (change (WRITE_CHUNK / 5) with 52428; unfold WRITE_CHUNK in *; lia).
  assert (len earlier <= cap / 5) by (apply Z.div_le_lower_bound; lia). rewrite !length_app. lia.
Qed.

Lemma stalled_step c s s' :
  reading c = false -> closing c = false -> in_order s -> net_step s s' ->
  stalled (conns s c) (to_conn c (log s)) -> stalled (conns s' c) (to_conn c (log s')).
Proof.
  intros Hr Hc [_ Ho] Hs Hst. destruct (Ho c) as (_ & Hq & _).
  assert (forall d x, (d = c -> stalled x (to_conn c (log s))) ->
    stalled (<[d := x]> (conns s) c) (to_conn c (log s))) as Hup.
  { intros d x Hd. destruct (decide (d = c)) as [->|Hne];
      [rewrite fn_lookup_insert; by apply Hd|by rewrite fn_lookup_insert_ne]. }
  destruct Hs as [t d r rs x Ht Hx|d x Hx|d n x Hx|d x Hd Hx|d n x Hd Hx]; cbn [conns log].
  - rewrite to_conn_app. simpl. destruct (decide (d = c)) as [->|Hne].
    + rewrite fn_lookup_insert. by eapply send_stalled.
    + rewrite fn_lookup_insert_ne by done. simpl. by rewrite app_nil_r.
  - apply Hup. intros ->. by eapply recv_stalled.
  - apply Hup. intros ->. by eapply write_stalled.
  - apply Hup. congruence.
  - apply Hup. congruence.
Qed.

Lemma stalled_rtc c rs s :
  reading c = false -> closing c = false -> (forall t, Forall (fun p => resp_ok p.2) (rs t)) ->
  rtc net_step (net rs) s -> stalled (conns s c) (to_conn c (log s)).
Proof.
  intros Hr Hc Hok Hs. assert (in_order (net rs)) as Ho by by apply in_order_net.
  assert (stalled (conns (net rs) c) (to_conn c (log (net rs)))) as Hst.
  { exists [], []. simpl. done. }
  revert Ho Hst. induction Hs as [s|s1 s2 s3 Hs _ IH]; intros Ho Hst; [done|].
  apply IH; [by eapply in_order_step|by eapply stalled_step].
Qed.

Lemma interleaves_to_conn t c (dn : Thread -> replies) lg :
  interleaves (dn Table) (dn Wal) lg -> (length (to_conn c (dn t)) <= length (to_conn c lg))%nat.
Proof.
  intros Hi. cut (length (to_conn c lg) = length (to_conn c (dn Table)) + length (to_conn c (dn Wal)))%nat.
  { destruct t; lia. }
  induction Hi as [|p a b l _ IH|p a b l _ IH]; [done|..]; rewrite !to_conn_app, !length_app; lia.
Qed.

(** Where nothing can move, a thread that is not done waits for the peer that does not
    read. *)
Lemma blocked_at s t c p rs :
  0 < cap -> in_order s -> reading c = false ->
  (forall d, d <> c -> reading d = true) -> (forall s', ~ net_step s s') -> todo s t = p :: rs ->
  stalled (conns s c) (to_conn c (log s)) ->
  p.1 = c /\ len (queue (conns s c)) = RESP_BOUND /\ exists buf, wr (conns s c) = Writing buf.
Proof.
  intros Hcap Ho Hc Hread Hno Ht Hst. destruct p as [d r].
  destruct (decide (d = c)) as [->|Hne].
  - split; [done|]. destruct Ho as [_ Ho]. destruct (Ho c) as (_ & Hq & Hl & _ & Hb).
    destruct (blocking_send (conns s c) r) as [x|] eqn:Es; [by exfalso; eapply Hno, n_send|].
    unfold blocking_send in Es. destruct Hst as (earlier & l & _ & _ & _ & Hw).
    assert (len (queue (conns s c)) = RESP_BOUND) as Hfull.
    { destruct (wr (conns s c)); [destruct (_ <? _) eqn:E; [done|lia]..|done]. }
    split; [done|]. destruct (queue (conns s c)) as [|r1 q] eqn:Eq; [done|].
    destruct (wr (conns s c)) as [|buf|buf|] eqn:Ew; [..|by eexists|done];
      destruct (recv_on_the_way _ _ (Ho c)) as [E|(y & E & _)]; try (by exfalso; eapply Hno, n_recv);
      exfalso; unfold writer_recv in E; rewrite Ew, Eq in E; by apply bind_Done in E as (b & _ & E).
  - exfalso. destruct (quiet (conns s d)) eqn:Eq.
    + destruct (thread_moves s t d r rs Ht Eq) as [s' Hs']. by apply Hno in Hs'.
    + destruct (conn_moves s d Hcap Ho (Hread d Hne) Eq) as [s' Hs']. by apply Hno in Hs'.
Qed.

(** ** Properties *)

(** C15: what the peers get.  Whatever the interleaving of the two threads that
    answer, the writers, the sockets and the peers: what has been sent is an
    interleaving of beginnings of what the threads had to send; the bytes a peer has
    received, those in its socket, those its writer holds and the frames of the
    responses in its channel are together exactly the frames of what was sent to it,
    in order; after a failed write what reached the socket is a prefix of them; and
    no channel ever holds more than [RESP_BOUND] responses. *)
Theorem replies_in_order rs s c :
  (forall t, Forall (fun p => resp_ok p.2) (rs t)) -> rtc net_step (net rs) s ->
  sent_all rs s /\
  match wr (conns s c) with
  | Gone => received (conns s c) ++ sock (conns s c) `prefix_of` frames (to_conn c (log s))
  | w => received (conns s c) ++ sock (conns s c) ++ in_hand w ++ frames (queue (conns s c)) =
         frames (to_conn c (log s))
  end /\ len (queue (conns s c)) <= RESP_BOUND.
Proof.
  intros Hr Hs. destruct (in_order_rtc _ s (in_order_net rs Hr) Hs) as [_ Ho].
  split; [by eapply sent_all_rtc; [apply sent_all_net|]|]. by destruct (Ho c) as (H1 & _ & H2 & _).
Qed.

(** C16: nobody waits for ever while the peers read: from the moment the threads have
    replies to send, the number of steps made by them, the writers and the peers
    together is bounded (at most four per reply and two per byte of its frame), and
    where no more step is possible every reply has been sent and every peer whose
    connection did not fail has received all of its frames. *)
Theorem replies_get_out rs n s :
  (forall t, Forall (fun p => resp_ok p.2) (rs t)) -> 0 < cap -> (forall c, reading c = true) ->
  nsteps net_step n (net rs) s ->
  (n <= sum_list_with (fun p => 4 + 2 * length (resp_frame p.2)) (rs Table ++ rs Wal))%nat /\
  ((forall s', ~ net_step s s') ->
   sent_all rs s /\ (forall t, todo s t = []) /\
   forall c, wr (conns s c) = Gone \/ received (conns s c) = frames (to_conn c (log s))).
Proof.
  intros Hr Hcap Hread Hs. destruct (busy_net rs) as [Hnd Hb]. pose proof (in_order_net rs Hr) as Ho. split.
  - pose proof (cost_bounds _ n _ s Hnd Ho Hb Hs) as Hc. rewrite sum_list_with_app.
    assert (load (conns (net rs)) (conns_of rs) = 0%nat) as Hl.
    { unfold load. clear. induction (conns_of rs) as [|c cs IH]; [done|]. rewrite fmap_cons. simpl in *. lia. }
    unfold cost in Hc at 2. rewrite Hl in Hc. unfold replies_cost, resp_cost in Hc. simpl in *. lia.
  - intros Hno. pose proof (rtc_nsteps_2 _ _ _ Hs) as R.
    split; [by eapply sent_all_rtc; [apply sent_all_net|]|].
    destruct (moves_or_delivered (conns_of rs) s Hcap) as [[s' Hs']|H]; [by eapply in_order_rtc| |done|by apply Hno in Hs'|done].
    clear -Hs Hnd Hb Ho. revert Ho Hb. generalize (net rs) Hs. clear Hs. intros s0 Hs.
    induction Hs as [s|n s1 s2 s3 Hs _ IH]; intros Ho Hb; [done|].
    apply IH; [by eapply in_order_step|by eapply cost_step].
Qed.

(** C14: one client that does not read stops the thread that answers it, for all
    clients.  Take a client that neither reads nor closes, and a thread with more
    replies for it than its socket, a buffer of its writer and its channel can hold
    ([stall_bound]): whatever all the others do, and whether they read or not, what
    that thread has to send after those replies is never sent, whoever it is for.
    When nothing can move any more, though all other peers read, the thread waits in
    [blocking_send] for that client: its channel is full and its writer is in
    [write_all]. *)
Theorem slow_client_stops_all rs t c pre post s :
  (forall t, Forall (fun p => resp_ok p.2) (rs t)) -> 0 < cap ->
  reading c = false -> closing c = false ->
  rs t = pre ++ post -> stall_bound < len (to_conn c pre) -> rtc net_step (net rs) s ->
  exists r more, todo s t = r :: more ++ post /\
    ((forall d, d <> c -> reading d = true) -> (forall s', ~ net_step s s') ->
     r.1 = c /\ len (queue (conns s c)) = RESP_BOUND /\ exists buf, wr (conns s c) = Writing buf).
Proof.
  intros Hok Hcap Hr Hc Hrs Hlong Hs.
  pose proof (in_order_rtc _ s (in_order_net rs Hok) Hs) as Ho.
  pose proof (stalled_rtc c rs s Hr Hc Hok Hs) as Hst.
  destruct (sent_all_rtc rs _ s (sent_all_net rs) Hs) as (dn & Hdn & Hi).
  pose proof (stalled_bound _ _ _ Hst (proj2 Ho c) ltac:(lia)) as Hb.
  assert (length (to_conn c (dn t)) <= length (to_conn c (log s)))%nat as Hle by (by eapply interleaves_to_conn).
  destruct (app_eq_inv _ _ _ _ (eq_trans (eq_sym (Hdn t)) Hrs)) as [(k & E1 & E2)|(k & E1 & E2)].
  - exfalso. rewrite E1, to_conn_app, length_app in Hle. lia.
  - destruct k as [|r more].
    { exfalso. rewrite app_nil_r in E1. subst pre. lia. }
    exists r, more. split; [done|]. intros Hothers Hno. by eapply blocked_at.
Qed.
End net.

(** ** Witnesses *)

(** The thread of stage 2 has a reply for the first client, the one of stage 3 one for
    the second. *)
Definition ex_replies (t : Thread) : replies :=
  match t with Table => [(1%N, wire.RespOk)] | Wal => [(2%N, wire.Miss)] end.

(** The five steps of one reply. *)
Lemma ex_one_reply : exists s, nsteps (net_step 64 (fun _ => true) (fun _ => false)) 5 (net ex_replies) s /\
  log s = [(1%N, wire.RespOk)] /\ conns s 1%N = mk_conn [] Idle [] (resp_frame wire.RespOk).
Proof.
  eexists. split.
  - eapply nsteps_l; [eapply (n_send _ _ _ _ Table); reflexivity|].
    eapply nsteps_l; [eapply (n_recv _ _ _ _ 1%N); cbn [conns]; rewrite fn_lookup_insert; reflexivity|].
    eapply nsteps_l; [eapply (n_recv _ _ _ _ 1%N); cbn [conns]; rewrite fn_lookup_insert; reflexivity|].
    eapply nsteps_l; [eapply (n_write _ _ _ _ 1%N 5); cbn [conns]; rewrite fn_lookup_insert; reflexivity|].
    eapply nsteps_l; [eapply (n_read _ _ _ _ 1%N 5); [reflexivity|cbn [conns]; rewrite fn_lookup_insert; reflexivity]|].
    apply nsteps_O.
  - cbn [conns log]. rewrite fn_lookup_insert. by vm_compute.
Qed.

Lemma ex_replies_ok t : Forall (fun p => resp_ok p.2) (ex_replies t).
Proof. destruct t; by repeat constructor. Qed.

Lemma replies_in_order_witness :
  exists s, rtc (net_step 64 (fun _ => true) (fun _ => false)) (net ex_replies) s /\
    received (conns s 1%N) = frames [wire.RespOk].
Proof.
  destruct ex_one_reply as (s & R & El & Ec). apply rtc_nsteps_2 in R. exists s. split; [exact R|].
  destruct (replies_in_order 64 (fun _ => true) (fun _ => false) ex_replies s 1%N ex_replies_ok R) as (_ & E & _).
  rewrite Ec, El in E. rewrite Ec. cbn [wr received sock in_hand queue] in *.
  rewrite !app_nil_l in E. change (frames []) with (@nil Init.Byte.byte) in E. rewrite app_nil_r in E. exact E.
Defined.

Lemma replies_get_out_witness :
  exists s, nsteps (net_step 64 (fun _ => true) (fun _ => false)) 5 (net ex_replies) s /\ (5 <= 28)%nat.
Proof.
  destruct ex_one_reply as (s & R & _). exists s. split; [exact R|].
  destruct (replies_get_out 64 (fun _ => true) (fun _ => false) ex_replies 5 s ex_replies_ok) as [Hn _];
    [reflexivity|reflexivity|exact R|exact Hn].
Defined.

Lemma to_conn_replicate c r n : to_conn c (replicate n (c, r)) = replicate n r.
Proof. induction n as [|n IH]; [done|]. simpl. by rewrite decide_True, IH. Qed.

(** The first client does not read; the second one's reply is never sent. *)
Definition ex_stalled (t : Thread) : replies :=
  match t with
  | Table => replicate (Z.to_nat 70000) (1%N, wire.RespOk) ++ [(2%N, wire.RespOk)]
  | Wal => [(2%N, wire.Miss)]
  end.

Lemma ex_first_sent : exists s,
  rtc (net_step 64 (fun c => negb (N.eqb c 1)) (fun _ => false)) (net ex_stalled) s /\ log s = [(1%N, wire.RespOk)].
Proof.
  eexists. split; [apply rtc_once, (n_send _ _ _ _ Table 1%N wire.RespOk
    (replicate (Z.to_nat 69999) (1%N, wire.RespOk) ++ [(2%N, wire.RespOk)])); [|reflexivity]|reflexivity].
  cbn [todo net]. unfold ex_stalled. change 70000 with (1 + 69999). by rewrite Z2Nat.inj_add.
Qed.

Lemma slow_client_stops_all_witness :
  exists s, rtc (net_step 64 (fun c => negb (N.eqb c 1)) (fun _ => false)) (net ex_stalled) s /\
    log s = [(1%N, wire.RespOk)] /\ exists r more, todo s Table = r :: more ++ [(2%N, wire.RespOk)].
Proof.
  destruct ex_first_sent as (s & Hs & El). exists s. split; [exact Hs|]. split; [exact El|].
  destruct (slow_client_stops_all 64 (fun c => negb (N.eqb c 1)) (fun _ => false) ex_stalled Table 1%N
    (replicate (Z.to_nat 70000) (1%N, wire.RespOk)) [(2%N, wire.RespOk)] s) as (r & more & E & _);
    [|reflexivity|reflexivity|reflexivity|reflexivity| |exact Hs|exists r, more; exact E].
  - intros []; unfold ex_stalled; [|by repeat constructor]. apply Forall_app. split; [|by repeat constructor].
    apply Forall_replicate. exact I.
  - rewrite to_conn_replicate, length_replicate, Z2Nat.id by lia. reflexivity.
Defined.

End backpressure.
