(* ===== verification/Live.v ===== *)
(** * The server with its clients: threads that wait to answer

    [Threads.v] lets a thread hand over all its replies at once.  Here each of the
    two threads hands them to the channels of [Backpressure.v] one at a time, and
    does nothing else until the last one is accepted: stage 2 gives its batch to
    stage 3 only after that, stage 3 starts its next iteration only after that.
    What stage 3 returns to the pool and submits during an iteration is taken to
    have happened when the iteration starts, so others may see it earlier than in
    the program, never later. *)

From stdpp Require Import functions.
From S2P Require Import Prelude Wire Db WalFormat Snapshot Recovery Types Acker Stage1 Stage2.
From S2P Require Import FsyncPlanner IoWork Stage3 Kernel Durability NoLoss Pipeline System Threads Server Accounts Backpressure.
Local Open Scope Z_scope.

Module live.
Import types acker stage1 io_work kernel kernel_laws system threads accounts backpressure.

(** ** The model *)

Section live.
Context {S : Type} `{KvLaws S} {L : Type} `{SlabLaws L} {K : Type} (R : Z -> Z -> Prop) `{UringLaws K R}.
Variable ack : Acker.
(** The sizes of the sockets, the peers that read and those that close. *)
Variables (cap : Z) (reading closing : N -> bool).
Implicit Types y : Sys S L K.

(** What an iteration of stage 2 has computed: its input, the next state, the replies
    and the message. *)
Record Answering := mk_answering {
  a_in : stage2.Input;
  a_next : stage2.Loop S;
  a_out : replies;
  a_msg : option WalMsg;
}.
Definition can_serve y (a : Answering) : Prop :=
  stage2.input_ok (a_in a) /\ Forall arrives (stage2.arrivals (a_in a)) /\
  (stage2.recycled_batch (s2 y) = None -> stage2.free (a_in a) = head (pool y)) /\
  u64 (stage2.lsn (s2 y) + stage2.puts (stage2.item_rx (s2 y) ++ stage2.arrivals (a_in a))) /\
  stage2.iteration ack (s2 y) (a_in a) = Done (stage2.Continue (a_next a) (a_out a) (a_msg a)).
Definition handed_over y (a : Answering) : Sys S L K :=
  mk_sys (a_next a) (chan y ++ option_list (a_msg a)) (s3 y)
    (served y ++ take (Z.to_nat MAX_BATCH) (stage2.item_rx (s2 y) ++ stage2.arrivals (a_in a)))
    (match stage2.recycled_batch (s2 y) with Some _ => pool y | None => tail (pool y) end)
    (replied y ++ a_out a).

Record Live := mk_live {
  sys : Sys S L K;
  serving : option Answering;     (* stage 2 is in [advance], or about to send its message *)
  clients : Net;
}.

Definition more_todo (n : Net) (t : Thread) (rs : replies) : Net :=
  mk_net (<[t := todo n t ++ rs]> (todo n)) (conns n) (log n).
(** The replies that stage 3 gives from one state to a later one. *)
Definition answered (e e' : stage3.WalEngine L) : replies :=
  drop (length (stage3.sent_of (stage3.trace e))) (stage3.sent_of (stage3.trace e')).

Inductive live_step : Live -> Live -> Prop :=
| v_serve y n a :
    can_serve y a -> live_step (mk_live y None n) (mk_live y (Some a) (more_todo n Table (a_out a)))
| v_hand_over y n a :
    todo n Table = [] -> live_step (mk_live y (Some a) n) (mk_live (handed_over y a) None n)
| v_stage3 y y' sv n :
    todo n Wal = [] -> loop_step ack y y' -> served y' = served y ->
    live_step (mk_live y sv n)
      (mk_live y' sv (more_todo n Wal (answered (durability.eng (s3 y)) (durability.eng (s3 y')))))
| v_kernel y k' sv n :
    ku_step (durability.uring (s3 y)) k' ->
    live_step (mk_live y sv n)
      (mk_live (mk_sys (s2 y) (chan y) (durability.mk_world (durability.eng (s3 y)) k' (durability.ingested (s3 y)))
         (served y) (pool y) (replied y)) sv n)
| v_clients y sv n n' :
    net_step cap reading closing n n' -> live_step (mk_live y sv n) (mk_live y sv n').

(** The server has started, and nobody has been answered yet. *)
Definition running y : Live := mk_live y None (backpressure.net (fun _ => [])).

(** When stage 2 is done with what it has in hand. *)
Definition settled (x : Live) : Sys S L K :=
  match serving x with Some a => handed_over (sys x) a | None => sys x end.

(** ** Every reply can be encoded *)

Lemma kv_of_len r : len (kv_of r).2 <= len (types.data r).
Proof.
  unfold kv_of, wire.split_kv. destruct (wire.klen _) as [k| |]; [|simpl; lia..]. ostep.
  destruct (slice _ _ _) as [kb| |]; [|simpl; lia..]. ostep.
  destruct (slice_from _ _) as [vb| |] eqn:E; [|simpl; lia..]. apply slice_from_Done in E as [-> _]. simpl. rewrite length_drop. lia.
Qed.

Definition values_fit (m : gmap bytes bytes) : Prop := map_Forall (fun _ v => u32 (1 + len v)) m.

Lemma spec_resp_fits m r : values_fit m -> resp_ok (stage2.spec_resp m r).
Proof.
  intros Hm. unfold stage2.spec_resp. destruct (opc r); [|done..]. destruct (m !! _) as [v|] eqn:E; [|done].
  by apply (Hm _ _ E).
Qed.

Lemma spec_step_fits m r : values_fit m -> (is_put r = true -> arrives r) -> values_fit (stage2.spec_step m r).
Proof.
  intros Hm Hr. unfold stage2.spec_step. destruct (is_put r); [|done]. apply map_Forall_insert_2; [|done].
  destruct (Hr eq_refl) as [_ Hl]. pose proof (kv_of_len r). unfold u32 in *. lia.
Qed.

Lemma answers_fit m reqs :
  values_fit m -> Forall arrives (put_reqs reqs) -> Forall (fun p => resp_ok p.2) (answers m reqs).
Proof.
  revert m. induction reqs as [|r reqs IH]; intros m Hm Hr; [constructor|]. rewrite put_reqs_cons in Hr.
  apply Forall_app in Hr as [Hr1 Hr2]. constructor; [by apply spec_resp_fits|]. apply IH; [|done].
  apply spec_step_fits; [done|]. intros Hp. rewrite Hp in Hr1. by apply Forall_cons in Hr1 as [? _].
Qed.

Lemma sent_fits y0 y :
  start y0 -> values_fit (kv_view (stage2.loop_db (s2 y0))) -> rtc (loop_step ack) y0 y ->
  Forall (fun p => resp_ok p.2) (sent y).
Proof.
  intros Hs Hv Hr. pose proof (loops_system ack y0 y Hs Hr) as Hr1.
  destruct (sys_ok ack y0 y Hs Hr1) as [I _].
  destruct (books_ok R ack y0 y Hs Hr1) as [(lost & Hl & _) _ _ _].
  assert (Forall (fun p => resp_ok p.2) (sent y ++ waiting y ++ lost)) as Hall; [|by apply Forall_app in Hall as [? _]].
  rewrite Hl. apply answers_fit; [done|]. eapply arrives_data; [symmetry; apply (si_puts _ _ _ I)|].
  pose proof (si_arrived _ _ _ I) as Ha. rewrite Forall_forall in *. intros r [_ Hin]%list_elem_of_filter. by apply Ha.
Qed.

(** ** Stage 2 apart, nobody touches what it has computed *)

Lemma serve_loop_step y a : can_serve y a -> loop_step ack y (handed_over y a).
Proof. intros (A1 & A2 & A3 & A4 & A5). by apply l_stage2. Qed.

Lemma stage3_frame y y' :
  loop_step ack y y' -> served y' = served y ->
  s2 y' = s2 y /\ replied y' = replied y /\ pool y `prefix_of` pool y'.
Proof.
  intros Hl. destruct Hl as [y inp st' out msg Hin Har Hfr Hu Hit|y i k1 n m e' Hroom Hin Hk Hc Hsub Hit|y k' Hk];
    simpl; intros Hs.
  - exfalso. apply (f_equal length) in Hs. rewrite length_app, length_take, length_app in Hs.
    pose proof (stage2.in_arrivals _ Hin). destruct (stage2.arrivals inp); [done|]. change (Z.to_nat MAX_BATCH) with 1024%nat in Hs. simpl length in Hs. lia.
  - split_and!; [done|done|by eexists].
  - done.
Qed.

Lemma can_serve_frame y y' a :
  s2 y' = s2 y -> pool y `prefix_of` pool y' -> can_serve y a -> can_serve y' a.
Proof.
  intros E [more P] (A1 & A2 & A3 & A4 & A5). unfold can_serve. rewrite E. split_and!; try done.
  intros Hn. rewrite (A3 Hn). destruct (stage2.in_free _ A1) as (b & Hb & _). rewrite (A3 Hn) in Hb.
  rewrite P. by destruct (pool y).
Qed.

Lemma trace_grows y0 y y' :
  start y0 -> rtc (loop_step ack) y0 y -> loop_step ack y y' ->
  stage3.trace (durability.eng (s3 y)) `prefix_of` stage3.trace (durability.eng (s3 y')).
Proof.
  intros Hs Hr Hl. pose proof (loop_step_system ack y0 y y' Hs (loops_system ack y0 y Hs Hr) Hl) as R1. clear Hr Hl.
  induction R1 as [|y1 y2 y3 Hy _ IH]; [done|]. etransitivity; [|exact IH].
  destruct Hy as [y inp st' out msg|y b rest e' Hc Hu He|y w' Hw Hg]; simpl; [done| |].
  - by destruct (handle_batch_frame _ _ _ He) as [-> _].
  - by destruct (wstep_log _ _ Hw Hg) as (_ & _ & ?).
Qed.

Lemma sent_stage3 y0 y y' :
  start y0 -> rtc (loop_step ack) y0 y -> loop_step ack y y' -> served y' = served y ->
  sent y' = sent y ++ answered (durability.eng (s3 y)) (durability.eng (s3 y')).
Proof.
  intros Hs Hr Hl Hsv. destruct (stage3_frame _ _ Hl Hsv) as (_ & E & _).
  destruct (trace_grows y0 y y' Hs Hr Hl) as [more T]. unfold sent, answered.
  by rewrite E, T, stage3.sent_of_app, drop_app_length, app_assoc.
Qed.

(** ** The invariant *)

Record live_inv y0 (x : Live) : Prop := {
  li_run : rtc (loop_step ack) y0 (sys x);
  li_serving a : serving x = Some a -> can_serve (sys x) a;
  li_idle : serving x = None -> todo (clients x) Table = [];
  li_sent : log (clients x) ++ todo (clients x) Table ++ todo (clients x) Wal ≡ₚ
            sent (sys x) ++ match serving x with Some a => a_out a | None => [] end;
  li_order : in_order cap (clients x);
  li_busy : exists cs, NoDup cs /\ busy cs (clients x);
}.

Lemma more_in_order n t rs :
  Forall (fun p => resp_ok p.2) rs -> in_order cap n -> in_order cap (more_todo n t rs).
Proof.
  intros Hr [Ht Ho]. split; [|done]. intros u. simpl. destruct (decide (t = u)) as [<-|Hne].
  - rewrite fn_lookup_insert. by apply Forall_app.
  - by rewrite fn_lookup_insert_ne.
Qed.

Lemma more_busy n t rs :
  (exists cs, NoDup cs /\ busy cs n) -> exists cs, NoDup cs /\ busy cs (more_todo n t rs).
Proof.
  intros (cs & Hnd & Ht & Hc). exists (remove_dups (cs ++ rs.*1)). split; [apply NoDup_remove_dups|]. split.
  - assert (forall l, Forall (fun p => p.1 ∈ cs) l -> Forall (fun p : N * wire.Resp => p.1 ∈ remove_dups (cs ++ rs.*1)) l) as Hw.
    { intros l Hl. eapply Forall_impl; [exact Hl|]. intros p Hp. apply elem_of_remove_dups, elem_of_app. by left. }
    intros u. simpl. destruct (decide (t = u)) as [<-|Hne]; [rewrite fn_lookup_insert|rewrite fn_lookup_insert_ne by done].
    + apply Forall_app. split; [by apply Hw|]. apply Forall_forall. intros p Hp.
      apply elem_of_remove_dups, elem_of_app. right. by apply list_elem_of_fmap_2.
    + by apply Hw.
  - intros c Hn. apply Hc. intros Hin. apply Hn, elem_of_remove_dups, elem_of_app. by left.
Qed.

Lemma live_inv_start y0 : start y0 -> live_inv y0 (running y0).
Proof.
  intros Hs. split; simpl; [done|done|done| | |].
  - unfold sent. by rewrite (st_replied _ Hs), (durability.in_trace _ (st_world _ Hs)).
  - by apply in_order_net.
  - exists []. split; [constructor|]. by split.
Qed.

(** The replies that are sent, or will be, in a step of the clients. *)
Lemma clients_sent n n' :
  net_step cap reading closing n n' ->
  log n' ++ todo n' Table ++ todo n' Wal ≡ₚ log n ++ todo n Table ++ todo n Wal /\
  (todo n Table = [] -> todo n' Table = []).
Proof.
  intros Hn. destruct Hn as [t c r rs x Ht Hx|c x Hx|c k x Hx|c x Hc Hx|c k x Hc Hx]; simpl; try done.
  destruct t; rewrite fn_lookup_insert, fn_lookup_insert_ne, Ht by done; (split; [solve_Permutation|done]).
Qed.

Lemma live_inv_step y0 x x' :
  start y0 -> values_fit (kv_view (stage2.loop_db (s2 y0))) -> live_inv y0 x -> live_step x x' -> live_inv y0 x'.
Proof.
  intros Hs Hv [I1 I2 I3 I4 I5 I6] Hl.
  destruct Hl as [y n a Ha|y n a Ht|y y' sv n Ht Hl Hsv|y k' sv n Hk|y sv n n' Hn]; simpl in *.
  - pose proof (serve_loop_step y a Ha) as Hl.
    assert (Forall (fun p => resp_ok p.2) (a_out a)) as Hout.
    { pose proof (sent_fits y0 (handed_over y a) Hs Hv ltac:(by eapply rtc_r)) as Hf.
      unfold sent in Hf. simpl in Hf. rewrite <- app_assoc in Hf. apply Forall_app in Hf as [_ Hf].
      by apply Forall_app in Hf as [? _]. }
    split; simpl; [done|by intros a' [= <-]|done| |by apply more_in_order|by apply more_busy].
    rewrite fn_lookup_insert, fn_lookup_insert_ne by done. rewrite app_nil_r in I4. rewrite <- I4. solve_Permutation.
  - pose proof (serve_loop_step y a (I2 a eq_refl)) as Hl.
    split; simpl; [by eapply rtc_r|done|done| |done|done].
    rewrite app_nil_r. rewrite I4. unfold sent. simpl. solve_Permutation.
  - destruct (stage3_frame _ _ Hl Hsv) as (E2 & Er & Ep).
    assert (rtc (loop_step ack) y0 y') as Hr' by (by eapply rtc_r).
    pose proof (sent_stage3 y0 y y' Hs I1 Hl Hsv) as Hsent.
    assert (Forall (fun p => resp_ok p.2) (answered (durability.eng (s3 y)) (durability.eng (s3 y')))) as Hout.
    { pose proof (sent_fits y0 y' Hs Hv Hr') as Hf. rewrite Hsent in Hf. by apply Forall_app in Hf as [_ ?]. }
    split; simpl; [done| | | |by apply more_in_order|by apply more_busy].
    + intros a Ha. eapply can_serve_frame; [done..|by apply I2].
    + intros Hn. rewrite fn_lookup_insert_ne by done. by apply I3.
    + rewrite fn_lookup_insert, fn_lookup_insert_ne, Ht by done. rewrite Ht in I4. rewrite Hsent.
      rewrite app_nil_r in I4. simpl. rewrite (app_assoc (log n)), I4. solve_Permutation.
  - split; simpl; try done. eapply rtc_r; [exact I1|by apply l_kernel].
  - destruct (clients_sent n n' Hn) as [E Et]. split; simpl; [done|done|by intros ?; apply Et, I3|by rewrite E| |].
    + by eapply in_order_step.
    + destruct I6 as (cs & Hnd & Hb). exists cs. split; [done|]. by eapply cost_step.
Qed.

Lemma live_inv_rtc y0 x :
  start y0 -> values_fit (kv_view (stage2.loop_db (s2 y0))) -> rtc live_step (running y0) x -> live_inv y0 x.
Proof.
  intros Hs Hv. apply (rtc_ind_r (live_inv y0) (running y0)); [by apply live_inv_start|].
  intros x1 x2 _ Hl I. by eapply live_inv_step.
Qed.

End live.

Arguments Live : clear implicits.
Arguments Answering : clear implicits.

(** ** While the peers read, the server runs as if nobody ever waited *)

Section reading.
Context {S : Type} `{KvLaws S} {L : Type} `{SlabLaws L} {K : Type} (R : Z -> Z -> Prop) `{UringLaws K R}.
Variables (ack : Acker) (cap : Z) (closing : N -> bool).
Abbreviation step := (live_step ack cap (fun _ => true) closing).
Implicit Types (y : Sys S L K) (x : Live S L K).

(** Nobody is being answered, and what was sent has arrived. *)
Definition all_answered x : Prop :=
  serving x = None /\ (forall t, todo (clients x) t = []) /\ delivered (clients x).

Lemma clients_rtc y sv n n' :
  rtc (net_step cap (fun _ => true) closing) n n' -> rtc step (mk_live y sv n) (mk_live y sv n').
Proof. induction 1; [done|]. eapply rtc_l; [by apply v_clients|done]. Qed.

Variable y0 : Sys S L K.
Context (Hs : start y0) (Hv : values_fit (kv_view (stage2.loop_db (s2 y0)))) (Hcap : 0 < cap).

Lemma live_inv_more x x' : live_inv ack cap y0 x -> rtc step x x' -> live_inv ack cap y0 x'.
Proof. intros I. induction 1 as [|x1 x2 x3 Hl _ IH]; [done|]. apply IH. by eapply (live_inv_step R). Qed.

Lemma settle_down x :
  live_inv ack cap y0 x ->
  exists x', rtc step x x' /\ sys x' = settled x /\ all_answered x' /\ live_inv ack cap y0 x'.
Proof.
  intros I. destruct (li_busy _ _ _ _ I) as (cs & Hnd & Hb).
  destruct (can_deliver cap (fun _ => true) closing cs (clients x)) as (n' & Hn & Ht & Hd & _);
    [done|done|apply (li_order _ _ _ _ I)|done|done|].
  assert (exists x', rtc step x x' /\ sys x' = settled x /\ all_answered x') as (x' & R1 & E & A);
    [|exists x'; split_and!; [done..|by eapply live_inv_more]].
  destruct x as [y sv n]. simpl in *. pose proof (clients_rtc y sv n n' Hn) as R1. destruct sv as [a|].
  - exists (mk_live (handed_over y a) None n'). split; [|done].
    eapply rtc_r; [exact R1|]. by apply v_hand_over.
  - by exists (mk_live y None n').
Qed.

Lemma lift_step x y' :
  live_inv ack cap y0 x -> all_answered x -> loop_step ack (sys x) y' ->
  exists x', rtc step x x' /\ sys x' = y' /\ all_answered x' /\ live_inv ack cap y0 x'.
Proof.
  intros I (Hn & Ht & _) Hl. destruct x as [y sv n]. simpl in *. subst sv.
  assert (exists x1, step (mk_live y None n) x1 /\ settled x1 = y') as (x1 & Hx1 & E).
  { pose proof Hl as Hl'.
    destruct Hl as [y inp st' out msg Hin Har Hfr Hu Hit|y i k1 k m e' Hroom Hin Hk Hc Hsub Hit|y k' Hk].
    - eexists. split; [apply (v_serve _ _ _ _ y n (mk_answering inp st' out msg)); by split_and!|done].
    - eexists. split; [by eapply v_stage3|done].
    - eexists. split; [by eapply v_stage3|done]. }
  assert (live_inv ack cap y0 x1) as I1 by (by eapply (live_inv_step R)).
  destruct (settle_down x1 I1) as (x' & R2 & E2 & A). exists x'. split; [by eapply rtc_l|]. by rewrite E2.
Qed.

(** Whatever the loops do, they do here, every reply being delivered. *)
Lemma lift x y' :
  live_inv ack cap y0 x -> all_answered x -> rtc (loop_step ack) (sys x) y' ->
  exists x', rtc step x x' /\ sys x' = y' /\ all_answered x' /\ live_inv ack cap y0 x'.
Proof.
  intros I A Hr. remember (sys x) as y eqn:Ey. revert x I A Ey.
  induction Hr as [y|y1 y2 y3 Hl _ IH]; intros x I A ->; [by exists x|].
  destruct (lift_step x y2 I A Hl) as (x1 & R1 & E1 & A1 & I1).
  destruct (IH x1 I1 A1 (eq_sym E1)) as (x' & R2 & E2 & A2 & I2). exists x'. split; [by etransitivity|done].
Qed.

(** So from any state of the server: stage 2 answers, then the loops go on. *)
Lemma drive x y' :
  live_inv ack cap y0 x -> rtc (loop_step ack) (settled x) y' ->
  exists x', rtc step x x' /\ sys x' = y' /\ all_answered x' /\ live_inv ack cap y0 x'.
Proof.
  intros I Hr. destruct (settle_down x I) as (x1 & R1 & E1 & A1 & I1). rewrite <- E1 in Hr.
  destruct (lift x1 y' I1 A1 Hr) as (x' & R2 & H'). exists x'. split; [by etransitivity|done].
Qed.

Lemma drive_from_start y' :
  rtc (loop_step ack) y0 y' -> exists x, rtc step (running y0) x /\ sys x = y' /\ serving x = None.
Proof.
  intros Hr. destruct (lift (running y0) y') as (x & R1 & E & (A & _) & _); [by apply live_inv_start| |done|by exists x].
  split_and!; [done|done|]. intros c. by right.
Qed.

Lemma settled_run x : live_inv ack cap y0 x -> rtc (loop_step ack) y0 (settled x).
Proof.
  intros [I1 I2 _ _ _ _]. unfold settled. destruct (serving x) as [a|]; [|done].
  eapply rtc_r; [exact I1|]. apply serve_loop_step. by apply I2.
Qed.

(** When all are answered, what was sent is all that the threads had for anybody. *)
Lemma answered_sent x : live_inv ack cap y0 x -> all_answered x -> log (clients x) ≡ₚ sent (sys x).
Proof.
  intros [_ _ _ I4 _ _] (Hn & Ht & _). rewrite !Ht, Hn in I4. by rewrite !app_nil_r in I4.
Qed.

End reading.
(** ** Property *)

(** C9: what reaches the peers is what a sequential map answers.  Take any state that
    the threads, the kernel, the writers and the peers reach, with threads that wait
    in [blocking_send] wherever a channel is full, peers that read or do not,
    connections that fail, and writes of any length.  The responses of a sequential
    map to the requests served are then exactly those handed to the channels, those
    that the two threads have still in hand, those that wait in the channel to stage
    3 or in stage 3 for their level, and lost ones, which only answer unknown
    operations; at [Applied] none waits and none is lost.  And each peer has read, or
    finds in its socket, a prefix of the frames of its own responses, all those
    handed over but the ones that the channel, bounded by [RESP_BOUND], or the writer
    holds, or that a failed write has thrown away. *)
Theorem peers_get_answers {S} `{KvLaws S} {L} `{SlabLaws L} {K} R `{UringLaws K R} ack cap reading closing
    (y0 : Sys S L K) (x : Live S L K) :
  start y0 -> values_fit (kv_view (stage2.loop_db (s2 y0))) ->
  rtc (live_step ack cap reading closing) (running y0) x ->
  (exists lost,
    log (clients x) ++ todo (clients x) Table ++ todo (clients x) Wal ++ waiting (settled x) ++ lost ≡ₚ
      answers (kv_view (stage2.loop_db (s2 y0))) (served (settled x)) /\
    unknown_ops lost /\ (level ack = Applied -> lost = [] /\ waiting (settled x) = [])) /\
  forall c, match wr (conns (clients x) c) with
            | Gone => received (conns (clients x) c) ++ sock (conns (clients x) c)
                        `prefix_of` frames (to_conn c (log (clients x)))
            | w => received (conns (clients x) c) ++ sock (conns (clients x) c) ++ in_hand w ++
                     frames (queue (conns (clients x) c)) = frames (to_conn c (log (clients x)))
            end /\ len (queue (conns (clients x) c)) <= RESP_BOUND.
Proof.
  intros Hs Hv Hr. pose proof (live_inv_rtc R ack cap _ _ y0 x Hs Hv Hr) as I. split.
  - pose proof (loops_system ack y0 _ Hs (settled_run ack cap y0 x I)) as Hr1.
    destruct (books_ok R ack y0 _ Hs Hr1) as [(lost & Hl & Hk & Ha) Hnf _ _]. exists lost. split_and!; [|done|].
    + rewrite <- Hl. pose proof (li_sent _ _ _ _ I) as Hsent. unfold settled. destruct (serving x) as [a|].
      * rewrite !app_assoc in *. rewrite Hsent. unfold sent. simpl. solve_Permutation.
      * rewrite !app_assoc in *. by rewrite Hsent, app_nil_r.
    + intros Hlv. split; [by apply Ha|by apply Hnf].
  - intros c. destruct (li_order _ _ _ _ I) as [_ Ho]. by destruct (Ho c) as (Ht & _ & Hl & _).
Qed.

(** ** Witness: async mode; a PUT and a GET in one batch, the write completed *)

Definition ex_main : outcome (Acker * Sys db.Db (gmap N IoWork) (doc_kernel full_result)) :=
  server.main (recovery.ex_dir None []) server.ex_ring_new (fun _ => Done 4) (fun _ => Done 0) (mk_kernel [] ∅ ∅ [])
    (args.mk_args 9000 args.Async (bstr "d")).
Definition ex_moves : list move :=
  [Serve [put_of 0; stage2.ex_req wire.OP_GET "k" "" 1]; Turn []; Turn [durability.KWrite 0 27]].
Definition ex_answers : replies := [(0%N, wire.RespOk); (1%N, wire.Value (bstr "v"))].
Definition ex_test (y0 y : Sys db.Db (gmap N IoWork) (doc_kernel full_result)) : bool :=
  bool_decide (answers (kv_view (stage2.loop_db (s2 y0))) (served y) = ex_answers) && is_nil (waiting y).

Lemma answers_run :
  match ex_main with
  | Done (ack, y0) =>
      match threads.exec ack full_result noloss.full_ok y0 ex_moves with Some y => ex_test y0 y | None => false end
  | _ => false
  end = true.
Proof. vm_compute. reflexivity. Qed.

Lemma peers_get_answers_witness :
  exists ack y0 x lost, ex_main = Done (ack, y0) /\
    rtc (live_step ack 3 (fun _ => true) (fun _ => false)) (running y0) x /\
    log (clients x) ++ lost ≡ₚ ex_answers /\ unknown_ops lost /\
    len (queue (conns (clients x) 1%N)) <= RESP_BOUND.
Proof.
  pose proof answers_run as Ht. destruct ex_main as [[ack y0]| |] eqn:Em; [|done..].
  destruct (threads.exec ack full_result noloss.full_ok y0 ex_moves) as [y|] eqn:Ex; [|done].
  unfold ex_test in Ht. apply andb_true_iff in Ht as [T1%bool_decide_eq_true T2%is_nil_ok].
  assert (rtc (loop_step ack) y0 y) as Hr by (eapply exec_moves_ok; [|exact Ex]; exact noloss.full_ok_result).
  destruct (server.main_start (recovery.ex_dir None []) server.ex_ring_new (fun _ => Done 4) (fun _ => Done 0)
    (mk_kernel [] ∅ ∅ [] : doc_kernel full_result) (args.mk_args 9000 args.Async (bstr "d")) ack y0 None kv_new [] [])
    as (Hs & _ & Hview & _); [exact Em|exact server.ex_fresh| |reflexivity|done|decide_vm|].
  { split; [reflexivity|reflexivity|apply kv_new_wf|constructor|constructor]. }
  assert (values_fit (kv_view (stage2.loop_db (s2 y0)))) as Hv
    by (rewrite Hview; intros k v Hk; by destruct (lookup_empty_Some (M := gmap bytes) k v Hk)).
  destruct (lift full_result ack 3 (fun _ => false) y0 Hs Hv eq_refl (running y0) y) as (x & Rx & E & (A1 & A2 & _) & _);
    [by apply live_inv_start|by split_and!; [done..|right]|exact Hr|].
  assert (settled x = y) as Es by (unfold settled; rewrite A1; exact E).
  destruct (peers_get_answers full_result ack 3 (fun _ => true) (fun _ => false) y0 x Hs Hv Rx)
    as ((lost & P1 & P2 & _) & P3).
  rewrite Es, T1, T2, !A2 in P1. exists ack, y0, x, lost.
  split; [reflexivity|]. split; [exact Rx|]. split; [exact P1|]. split; [exact P2|]. apply P3.
Defined.

End live.
