(* ===== verification/Safety.v ===== *)
(** * When the threads panic

    Well-formed states of the two threads, the channel between them and the
    kernel; that [main] starts in one, that every step of the threads leads to
    one, and that in each of them an iteration of either loop returns, but for
    three cases: a malformed request stops stage 2, and a fatal error of a write or
    an fsync, or a failing call to the ring, stops stage 3, as the code intends. *)

From S2P Require Import Prelude Wire Db WalFormat Snapshot Recovery Types Acker Stage1 Stage2.
From S2P Require Import FsyncPlanner IoWork Stage3 Kernel Durability NoLoss Pipeline System Threads Server Accounts.
Local Open Scope Z_scope.

Module safety.
Import types acker io_work kernel kernel_laws system threads accounts.

(** A computation that panics if [bad], and returns otherwise. *)
Definition ends {A} (o : outcome A) (bad : bool) : Prop := if bad then o = Panic else exists a, o = Done a.

Lemma ends_bind {A B} (o : outcome A) (f : A -> outcome B) bad :
  ends o bad -> (forall a, o = Done a -> exists b, f a = Done b) -> ends (o ≫= f) bad.
Proof. destruct bad; simpl; [by intros ->|]. intros [a ->] Hf. by apply Hf. Qed.

(** ** The calls to the ring *)

(** How the iteration ends: with [submit_and_wait], with [submit], or with no call. *)
Inductive RingCall := SubmitsAndWaits | Submits | NoCall.

(** The calls that panic: every error of [submit], and those of [submit_and_wait] but
    for an interrupted one. *)
Definition fails (c : RingCall) (r : stage3.SubmitResult) : bool :=
  match c, r with
  | SubmitsAndWaits, stage3.SubmitErr n => negb (n =? EINTR)
  | Submits, stage3.SubmitErr _ => true
  | _, _ => false
  end.

Lemma fails_submitted c n : fails c (stage3.Submitted n) = false.
Proof. by destruct c. Qed.

Section calls.
Context {L : Type} `{Slab L}.

(** The call at the end of a turn, after the completions were reaped. *)
Definition turn_call (e : stage3.WalEngine L) (cqes : list stage3.Cqe) : RingCall :=
  match
    '(is_need_submit, e) ← stage3.handle_pending (stage3.plan_fsync e);
    e ← stage3.reap_cqes e cqes;
    Done (is_need_submit, e)
  with
  | Done (is_need_submit, e) =>
      if (stage3.out_of_spins e && negb (stage3.inflight_len e =? 0)) || stage3.ring_is_full e then SubmitsAndWaits
      else if (is_need_submit : bool) then Submits else NoCall
  | _ => NoCall
  end.
Definition ring_call (e : stage3.WalEngine L) (i : stage3.Input) : RingCall :=
  match stage3.poll_channel_or_park e (stage3.in_recv i) with
  | Done (stage3.NoMsg, e) => turn_call e (stage3.in_cqes i)
  | Done (stage3.Msg m, e) =>
      match stage3.handle_msg e i m with
      | Done (true, e) => turn_call (stage3.set_spin e stage3.DEFAULT_SPIN_BUDGET) (stage3.in_cqes i)
      | _ => NoCall
      end
  | _ => NoCall
  end.
End calls.

(** ** The engine *)

Section engine.
Context {L : Type} `{SlabLaws L}.
Implicit Types e : stage3.WalEngine L.

(** A completion with a fatal error. *)
Definition fatal e (c : stage3.Cqe) : bool :=
  match slab_view (stage3.inflight e) !! stage3.cq_user_data c with
  | Some w => match complete w (stage3.cq_result c) with VFatal _ => true | _ => false end
  | None => false
  end.

(** A completion of an operation in flight; a write does not report more than it was given. *)
Definition expected e (c : stage3.Cqe) : Prop :=
  exists w, slab_view (stage3.inflight e) !! stage3.cq_user_data c = Some w /\
    forall o, w = WriteWork o -> stage3.cq_result c <= len (out (io_work.data o)) - done o.

Lemma expected_ok e c : expected e c -> fatal e c = false -> stage3.cqe_ok e c.
Proof.
  intros (w & Hw & Hb) Hf. exists w. split; [done|]. split; [|done]. intros x Hx.
  unfold fatal in Hf. by rewrite Hw, Hx in Hf.
Qed.

Lemma fatal_panics e c : fatal e c = true -> stage3.reap_one e c = Panic.
Proof.
  unfold fatal, stage3.reap_one. destruct (_ !! _) as [w|] eqn:Hw; [|done].
  destruct (slab_remove_Some _ _ _ Hw) as (l & -> & _). ostep. by destruct (complete w _).
Qed.

(** Both depend on the operations in flight only. *)
Lemma same_ops e e' cs :
  (forall c, c ∈ cs -> expected e c -> slab_view (stage3.inflight e') !! stage3.cq_user_data c =
                         slab_view (stage3.inflight e) !! stage3.cq_user_data c) ->
  Forall (expected e) cs -> Forall (expected e') cs /\ existsb (fatal e') cs = existsb (fatal e) cs.
Proof.
  intros Hl Hx. induction Hx as [|c cs Hc Hx IH]; [done|].
  destruct IH as [I1 I2]; [intros c' Hc'; apply Hl; by right|].
  pose proof (Hl c ltac:(by left) Hc) as E. unfold expected in *. split.
  - constructor; [by rewrite E|done].
  - cbn [existsb]. rewrite I2. f_equal. unfold fatal. by rewrite E.
Qed.

Lemma reap_ends e cs :
  stage3.engine_wf e -> NoDup (stage3.cq_user_data <$> cs) -> Forall (expected e) cs ->
  ends (stage3.reap_cqes e cs) (existsb (fatal e) cs).
Proof.
  unfold stage3.reap_cqes. revert e. induction cs as [|c cs IH]; intros e Hwf Hnd Hx; [by exists e|].
  rewrite fmap_cons in Hnd. apply NoDup_cons in Hnd as [Hnin Hnd]. apply Forall_cons in Hx as [Hc Hx].
  cbn [existsb fold_outcome]. destruct (fatal e c) eqn:Ef; [by rewrite (fatal_panics _ _ Ef)|].
  destruct (stage3.reap_one_ok e c Hwf (expected_ok e c Hc Ef)) as (e1 & -> & Hre). ostep. simpl orb.
  destruct (stage3.reaped_wf e c e1 Hwf Hre) as [Hwf1 _].
  destruct (same_ops e e1 cs) as [Hx1 <-]; [|done|by apply IH].
  intros c' Hc' _. rewrite (stage3.reaped_inflight _ _ _ Hre). apply lookup_delete_ne. intros E.
  apply Hnin. rewrite E. by apply list_elem_of_fmap_2.
Qed.

Lemma pushed_lookup fd l ws es l' k w :
  stage3.pushed fd l ws es l' -> slab_view l !! k = Some w -> slab_view l' !! k = Some w.
Proof.
  induction 1 as [|l w' ws e es l' He Hp IH]; [done|]. intros Hk. apply IH.
  rewrite slab_insert_view, lookup_insert_ne; [done|]. intros <-. by rewrite slab_vacant_view in Hk.
Qed.

Lemma turn_ends e cs r :
  stage3.engine_wf e -> NoDup (stage3.cq_user_data <$> cs) -> Forall (expected e) cs ->
  ends (stage3.turn e cs r) (existsb (fatal e) cs || fails (turn_call e cs) r).
Proof.
  intros Hwf Hnd Hx. unfold stage3.turn, turn_call.
  destruct (stage3.plan_fsync_wf e Hwf) as [Hwf1 _].
  assert (stage3.inflight (stage3.plan_fsync e) = stage3.inflight e) as Ei
    by (unfold stage3.plan_fsync; by destruct (fsync_planner.should_fsync _) as [[|] ?]).
  destruct (stage3.handle_pending_wf _ Hwf1) as (n & e2 & E2 & Hwf2 & _).
  destruct (stage3.handle_pending_ok _ Hwf1) as (moved & new & pend' & infl' & need & E & _ & Hpu & _).
  cbv zeta in E. rewrite E in E2. injection E2 as <- E2. rewrite E. ostep. rewrite E2.
  destruct (same_ops e e2 cs) as [Hx2 <-]; [|done|].
  { intros c _ (w & Hw & _). rewrite Hw, <- E2. cbn. eapply pushed_lookup; [exact Hpu|]. by rewrite Ei. }
  pose proof (reap_ends e2 cs Hwf2 Hnd Hx2) as Hre. destruct (existsb (fatal e2) cs); simpl in Hre.
  { rewrite Hre. done. }
  destruct Hre as [e3 ->]. ostep. simpl orb.
  destruct (_ || _); [|destruct need]; destruct r as [k|n]; simpl; try by eexists. destruct (n =? EINTR); [by eexists|done].
Qed.

(** An iteration on what the system gives it. *)
Lemma iteration_ends e i :
  stage3.engine_wf e ->
  match stage3.in_recv i with
  | stage3.Received (Write b) => stage3.ingestable e b | stage3.Empty => True | _ => False end ->
  NoDup (stage3.cq_user_data <$> stage3.in_cqes i) -> Forall (expected e) (stage3.in_cqes i) ->
  ends (stage3.iteration e i) (existsb (fatal e) (stage3.in_cqes i) || fails (ring_call e i) (stage3.in_submit i)).
Proof.
  intros Hwf Hin Hnd Hx. unfold stage3.iteration, ring_call. set (cs := stage3.in_cqes i) in *.
  destruct (stage3.in_recv i) as [[b| |]| |]; try done; simpl stage3.poll_channel_or_park.
  - destruct (stage3.handle_batch_wf e b Hwf Hin) as (e1 & E1 & Hwf1 & _). ostep. cbn [stage3.handle_msg].
    rewrite E1. ostep. cbn [negb].
    assert (stage3.inflight e1 = stage3.inflight e) as Ei by (rewrite stage3.handle_batch_ok in E1 by done; by injection E1 as <-).
    destruct (same_ops e (stage3.set_spin e1 stage3.DEFAULT_SPIN_BUDGET) cs) as [Hx1 <-]; [|done|].
    { intros c _ _. cbn. by rewrite Ei. }
    apply ends_bind; [|by eexists]. apply turn_ends; [by destruct Hwf1; split|done..].
  - destruct (stage3.should_park e) eqn:Ep.
    + assert (slab_view (stage3.inflight e) = ∅) as E0.
      { unfold stage3.should_park, stage3.inflight_len in Ep. destruct (stage3.pending e); [|done].
        rewrite slab_len_view in Ep. apply map_size_empty_inv. lia. }
      destruct cs as [|c cs']; [by eexists|]. apply Forall_cons in Hx as [(w & Hw & _) _]. by rewrite E0 in Hw.
    + ostep. apply ends_bind; [|by eexists]. apply (turn_ends (stage3.set_spin e _)); [by destruct Hwf; split|done..].
Qed.

End engine.

(** ** Well-formed states *)

Section safety.
Context {S : Type} `{KvLaws S} {L : Type} `{SlabLaws L} {K : Type} (R : Z -> Z -> Prop) `{UringLaws K R}.
Variable ack : Acker.
Implicit Types y : Sys S L K.

(** Stage 2's table and buffer are well formed and the queued requests are what
    stage 1 lets through; the messages in the channel continue the log; stage 3's
    operations are in range, and what the kernel holds is what is in flight. *)
Definition well_formed y : Prop :=
  exists m0 l0 base, sys_inv m0 l0 y /\ durability.world_wf base (s3 y) /\
    durability.inv base (durability.own_bytes base) (durability.abs (s3 y)).

Lemma start_wf y : start y -> well_formed y.
Proof.
  intros Hs. exists (kv_view (stage2.loop_db (s2 y))), (stage2.lsn (s2 y)), (segment.offset (stage3.seg (durability.eng (s3 y)))).
  split; [by apply inv_start|]. apply durability.inv_initial; [apply Hs| |done]. apply durability.initial_wf, Hs.
Qed.

Lemma worlds_wf base (w w' : durability.World L K) :
  rtc durability.wstep w w' -> durability.world_wf base w ->
  durability.inv base (durability.own_bytes base) (durability.abs w) ->
  durability.world_wf base w' /\ durability.inv base (durability.own_bytes base) (durability.abs w').
Proof.
  apply (durability.wsteps_ok base (durability.own_bytes base) (durability.own_laws base) w w'
    (durability.own_startable base)).
Qed.

Lemma step_wf y y' : well_formed y -> loop_step ack y y' -> well_formed y'.
Proof.
  intros (m0 & l0 & base & I & W & J) Hl. pose proof (loop_step_inv ack m0 l0 y y' I Hl) as Hr.
  destruct (inv_steps ack m0 l0 y y' I Hr) as [I' Hw]. destruct (worlds_wf base _ _ Hw W J) as [W' J'].
  by exists m0, l0, base.
Qed.

(** ** Progress *)

Lemma stage2_returns y inp :
  let got := take (Z.to_nat MAX_BATCH) (stage2.item_rx (s2 y) ++ stage2.arrivals inp) in
  well_formed y -> stage2.input_ok inp -> u64 (stage2.lsn (s2 y) + stage2.puts got) ->
  if forallb req_ok got
  then exists st sent msg, stage2.iteration ack (s2 y) inp = Done (stage2.Continue st sent msg)
  else stage2.iteration ack (s2 y) inp = Panic.
Proof.
  intros got (m0 & l0 & base & I & _ & _) Hi Hu. destruct (forallb req_ok got) eqn:Eg.
  - rewrite forallb_forall in Eg.
    destruct (stage2.iteration_served ack (s2 y) inp) as (st & _ & _ & _ & _ & _ & E);
      [apply I|done| |apply I|done|rewrite E; by do 3 eexists].
    apply Forall_forall. intros r Hr. apply Eg. by apply list_elem_of_In.
  - apply stage2.iteration_panic; [apply I|done|]. apply Exists_exists.
    apply not_true_iff_false in Eg. rewrite forallb_forall in Eg.
    destruct (decide (Exists (fun r => req_ok r = false) got)) as [Hx|Hx]; [by apply Exists_exists in Hx|].
    destruct Eg. intros r Hr. apply not_false_iff_true. intros Hf. apply Hx, Exists_exists.
    exists r. split; [by apply list_elem_of_In|done].
Qed.

Lemma completions_expected base l (e : stage3.WalEngine L) (k : K) n :
  durability.inv base (durability.own_bytes base) (durability.abs (durability.mk_world e k l)) ->
  NoDup (stage3.cq_user_data <$> take n (cq (ku_view k))) /\ Forall (expected e) (take n (cq (ku_view k))).
Proof.
  intros J. split.
  - pose proof (durability.i_keys _ _ _ J) as Hk. unfold durability.keys in Hk.
    apply NoDup_app in Hk as (_ & _ & Hk). apply NoDup_app in Hk as (_ & _ & Hk). simpl in Hk.
    rewrite <- (take_drop n (cq (ku_view k))), fmap_app in Hk. by apply NoDup_app in Hk as (Hk & _ & _).
  - apply Forall_forall. intros c Hc. apply subseteq_take in Hc.
    destruct (durability.i_cq _ _ _ J c Hc) as (w & Hw & Hb). exists w. split; [done|].
    intros o Ho. by apply Hb.
Qed.

Lemma stage3_returns y i k1 n :
  well_formed y -> has_room y -> stage3.in_recv i = arriving (chan y) ->
  rtc ku_step (durability.uring (s3 y)) k1 -> stage3.in_cqes i = take n (cq (ku_view k1)) ->
  let e := durability.eng (s3 y) in
  ends (stage3.iteration e i) (existsb (fatal e) (stage3.in_cqes i) || fails (ring_call e i) (stage3.in_submit i)).
Proof.
  intros (m0 & l0 & base & I & W & J) Hroom Hin Hk Hc e. pose proof (si_tiles _ _ _ I) as Ht.
  destruct (worlds_wf base (s3 y) (durability.mk_world (durability.eng (s3 y)) k1 (durability.ingested (s3 y)))) as [_ J1];
    [|done|done|]; [destruct (s3 y); by apply durability.kernel_steps|].
  destruct (completions_expected base _ _ k1 n J1) as [Hnd Hx].
  apply iteration_ends; [apply W| |by rewrite Hc..].
  rewrite Hin. unfold arriving, has_room in *. destruct (chan y) as [|[b| |] c] eqn:Ec; try done.
  by apply (head_ingestable m0 l0 y b c).
Qed.

End safety.

(** C5: when the threads panic.  A started system is well formed; whatever stage
    2, stage 3 and the kernel do, it stays so; and in a well-formed state an
    iteration of stage 2, whatever requests have arrived, returns, unless one of
    those it takes is malformed (stage 1 checks their length only), and then it
    panics; and an iteration of stage 3, on what it finds in the channel and any
    completions the kernel can report, returns, unless one of these reports a fatal
    error of a write or an fsync, or the iteration then calls [submit] and the call
    fails, or [submit_and_wait] and the call fails with another error than EINTR;
    in these cases it panics.  (The buffer and the channel's other end are there,
    and the segment and the LSN stay below 2^64.) *)
Theorem threads_do_not_panic {S} `{KvLaws S} {L} `{SlabLaws L} {K} R `{UringLaws K R} ack :
  (forall y : Sys S L K, start y -> well_formed y) /\
  (forall y y' : Sys S L K, well_formed y -> loop_step ack y y' -> well_formed y') /\
  (forall (y : Sys S L K) inp,
    let got := take (Z.to_nat MAX_BATCH) (stage2.item_rx (s2 y) ++ stage2.arrivals inp) in
    well_formed y -> stage2.input_ok inp -> u64 (stage2.lsn (s2 y) + stage2.puts got) ->
    if forallb req_ok got
    then exists st sent msg, stage2.iteration ack (s2 y) inp = Done (stage2.Continue st sent msg)
    else stage2.iteration ack (s2 y) inp = Panic) /\
  (forall (y : Sys S L K) i k1 n, well_formed y -> has_room y -> stage3.in_recv i = arriving (chan y) ->
    rtc ku_step (durability.uring (s3 y)) k1 -> stage3.in_cqes i = take n (cq (ku_view k1)) ->
    let e := durability.eng (s3 y) in
    if existsb (fatal e) (stage3.in_cqes i) || fails (ring_call e i) (stage3.in_submit i)
    then stage3.iteration e i = Panic
    else exists goes_on e', stage3.iteration e i = Done (goes_on, e')).
Proof.
  split_and!.
  - apply start_wf.
  - intros y y'. by apply (step_wf R).
  - apply (stage2_returns ack).
  - intros y i k1 n W Hroom Hin Hk Hc e. pose proof (stage3_returns R y i k1 n W Hroom Hin Hk Hc) as E.
    cbv zeta in E. fold e in E. unfold ends in E. destruct (_ || _); [done|]. destruct E as [[g e'] E]. by exists g, e'.
Qed.

(** ** Witness: the kernel reports an I/O error of a write; [submit] fails *)

Definition ex_start : Sys db.Db (gmap N IoWork) (doc_kernel any_result) :=
  mk_sys (s2 ex_sys0) [] durability.ex_world [] buffers_pool [].

Lemma ex_start_ok : start ex_start.
Proof.
  split; [|done|split; [decide_vm|reflexivity]|done|by split|done|done|done|done].
  split; [by apply kv_insert_raw_wf, kv_new_wf|done].
Qed.

Definition any_ok (n r : Z) : bool := true.
(** One batch is served, and its write is submitted. *)
Definition ex_served : list move := [Serve (stage2.arrivals ex_input)].
Definition ex_moves : list move := ex_served ++ [Turn []].
Definition ex_turn (c : list WalMsg) (k : Kernel) (r : stage3.SubmitResult) : stage3.Input :=
  stage3.mk_input (arriving c) [] 0 (fun _ => Panic) (fun _ => Panic) Panic (cq k) r.

(** Then the kernel reports -5 (EIO) for the write. *)
Lemma ex_fatal_run :
  match exec (acker.new args.Sync) any_result any_ok ex_start ex_moves with
  | Some y =>
      match durability.kernel_exec any_ok (durability.uring (s3 y)) [durability.KWrite 0 (-5)] with
      | Some k => is_nil (chan y) && existsb (fatal (durability.eng (s3 y))) (cq k)
      | None => false
      end
  | None => false
  end = true.
Proof. vm_compute. reflexivity. Qed.

(** Or the first [submit] fails with -12 (ENOMEM). *)
Lemma ex_refused_run :
  match exec (acker.new args.Sync) any_result any_ok ex_start ex_served with
  | Some y => bool_decide (has_room y) &&
      fails (ring_call (durability.eng (s3 y)) (ex_turn (chan y) (durability.uring (s3 y) : Kernel) (stage3.SubmitErr 12)))
        (stage3.SubmitErr 12)
  | None => false
  end = true.
Proof. vm_compute. reflexivity. Qed.

Lemma threads_do_not_panic_witness :
  (exists (y : Sys db.Db (gmap N IoWork) (doc_kernel any_result)) (k : Kernel),
    rtc (loop_step (acker.new args.Sync)) ex_start y /\
    durability.kernel_exec any_ok (durability.uring (s3 y)) [durability.KWrite 0 (-5)] = Some k /\
    stage3.iteration (durability.eng (s3 y)) (ex_turn [] k (stage3.Submitted 1)) = Panic) /\
  exists y : Sys db.Db (gmap N IoWork) (doc_kernel any_result),
    rtc (loop_step (acker.new args.Sync)) ex_start y /\
    stage3.iteration (durability.eng (s3 y))
      (ex_turn (chan y) (durability.uring (s3 y) : Kernel) (stage3.SubmitErr 12)) = Panic.
Proof.
  destruct (threads_do_not_panic any_result (acker.new args.Sync) (S := db.Db) (L := gmap N IoWork)
    (K := doc_kernel any_result)) as (T1 & T2 & _ & T4).
  assert (forall y, rtc (loop_step (acker.new args.Sync)) ex_start y -> well_formed y) as Wf.
  { intros y Hr. generalize (T1 ex_start ex_start_ok). clear -Hr T2. induction Hr as [|y1 y2 y3 Hs _ IH]; [exact id|].
    intros W. apply IH. by eapply T2. }
  split.
  - pose proof ex_fatal_run as Ht.
    destruct (exec (acker.new args.Sync) any_result any_ok ex_start ex_moves) as [y|] eqn:Ex; [|done].
    destruct (durability.kernel_exec _ _ _) as [k|] eqn:Ek; [|done].
    apply andb_true_iff in Ht as [Hc Hf]. apply is_nil_ok in Hc.
    assert (rtc (loop_step (acker.new args.Sync)) ex_start y) as Hr by (eapply exec_moves_ok; [|exact Ex]; done).
    exists y, k. split; [exact Hr|]. split; [exact Ek|].
    pose proof (T4 y (ex_turn [] k (stage3.Submitted 1)) k (length (cq k)) (Wf y Hr)) as T.
    cbv zeta in T. cbn [stage3.in_cqes ex_turn] in T. rewrite Hf in T. simpl orb in T. cbv iota in T.
    apply T; [by unfold has_room; rewrite Hc|by rewrite Hc|by eapply (durability.kernel_exec_ok any_result any_ok)
      |simpl; by rewrite firstn_all].
  - pose proof ex_refused_run as Ht.
    destruct (exec (acker.new args.Sync) any_result any_ok ex_start ex_served) as [y|] eqn:Ex; [|done].
    apply andb_true_iff in Ht as [Hroom Hf].
    assert (rtc (loop_step (acker.new args.Sync)) ex_start y) as Hr by (eapply exec_moves_ok; [|exact Ex]; done).
    exists y. split; [exact Hr|].
    pose proof (T4 y (ex_turn (chan y) (durability.uring (s3 y) : Kernel) (stage3.SubmitErr 12))
      (durability.uring (s3 y)) (length (cq (durability.uring (s3 y) : Kernel))) (Wf y Hr)) as T.
    cbv zeta in T. cbn [stage3.in_submit ex_turn] in T. rewrite Hf, orb_true_r in T.
    apply T; [by apply bool_decide_eq_true in Hroom|reflexivity|reflexivity|simpl; by rewrite firstn_all].
Defined.

End safety.
