(* ===== verification/Progress.v ===== *)
(** * Progress: when writes are complete the server does not stop

    [Accounts.server_can_freeze] runs into a state in which both threads wait for
    each other; there a write was short.  Here: with complete writes that cannot
    happen, because stage 3 orders an fsync in every turn that leaves dirty bytes
    and no fsync running, and each fsync releases at least one buffer.  The
    invariant follows the operations in the order in which they will complete. *)

From S2P Require Import Prelude Wire Db WalFormat Snapshot Recovery Types Acker Stage1 Stage2.
From S2P Require Import FsyncPlanner IoWork Stage3 Kernel Durability NoLoss Pipeline System Threads Server Accounts.
Local Open Scope Z_scope.

Module progress.
Import types acker fsync_planner io_work stage3 kernel kernel_laws durability noloss system threads accounts pipeline.

(** ** The operations that are outstanding, in order *)

(** Those completed and not reaped, in completion order, then the others in
    submission order. *)
Definition finished (s : St) : list IoWork := omap (fun c => fl s !! cq_user_data c) (cq (kern s)).
Definition outstanding (s : St) : list IoWork := finished s ++ queue s.
Definition writes (q : list IoWork) : list Batch := q ≫= batches_of.
(** A batch with the response of a PUT that is not sent yet. *)
Definition owes (b : Batch) : Prop := Exists (fun r => is_put r = true /\ is_Some (resp r)) (items b).
Definition is_write (w : IoWork) : Prop := exists o, w = WriteWork o /\ owes (io_work.data o).
Definition all_writes (q : list IoWork) : Prop := Forall is_write q.

(** While an fsync is outstanding, some batch will be released by it; when there
    are dirty bytes, some batch has them. *)
Definition lively (running : bool) (dirty : Z) (a : list Batch) (q : list IoWork) : Prop :=
  if running then
    exists q1 t q2, q = q1 ++ FsyncWork t :: q2 /\ all_writes q1 /\ all_writes q2 /\
      a ++ writes q1 <> [] /\ (dirty <> 0 -> writes q2 <> [])
  else all_writes q /\ (dirty <> 0 -> a ++ writes q <> []).

Lemma writes_app q1 q2 : writes (q1 ++ q2) = writes q1 ++ writes q2.
Proof. apply bind_app. Qed.
Lemma writes_cons w q : writes (w :: q) = batches_of w ++ writes q.
Proof. apply bind_cons. Qed.

Lemma all_writes_app q1 q2 : all_writes (q1 ++ q2) <-> all_writes q1 /\ all_writes q2.
Proof. apply Forall_app. Qed.

Lemma not_all_writes t q : ~ all_writes (FsyncWork t :: q).
Proof. by intros [(o & [=] & _) _]%Forall_cons. Qed.

Lemma all_writes_one o : owes (io_work.data o) -> all_writes [WriteWork o].
Proof. intros Ho. constructor; [by exists o|constructor]. Qed.

Lemma app_ne {A} (l1 l2 : list A) : l1 ++ l2 <> [] <-> l1 <> [] \/ l2 <> [].
Proof. destruct l1; simpl; [tauto|]. split; [by left|done]. Qed.

(** An operation is queued at the end. *)
Lemma lively_write r d d' a q o :
  owes (io_work.data o) -> lively r d a q -> lively r d' a (q ++ [WriteWork o]).
Proof.
  intros Ho%all_writes_one. unfold lively. destruct r.
  - intros (q1 & t & q2 & -> & H1 & H2 & H3 & _). exists q1, t, (q2 ++ [WriteWork o]).
    split; [by rewrite <- app_assoc|]. split; [done|]. split; [apply all_writes_app; by split|].
    split; [done|]. intros _. rewrite writes_app. apply app_ne. by right.
  - intros [H1 _]. split; [by apply all_writes_app|].
    intros _. rewrite writes_app. apply app_ne. right. apply app_ne. by right.
Qed.

Lemma lively_arm d a q t : d <> 0 -> lively false d a q -> lively true 0 a (q ++ [FsyncWork t]).
Proof. intros Hd [H1 H2]. exists q, t, []. split_and!; [done|done|constructor|by apply H2|done]. Qed.

(** An operation completes before the writes [b] in front of it. *)
Lemma lively_move r d a q b w q' :
  lively r d a (q ++ b ++ w :: q') -> all_writes b -> is_write w \/ b = [] ->
  lively r d a (q ++ w :: b ++ q').
Proof.
  intros Hl Hb [(o & -> & Hw)| ->]; [|exact Hl]. clear Hw.
  assert (forall p p', all_writes (p ++ b ++ WriteWork o :: p') <-> all_writes (p ++ WriteWork o :: b ++ p')) as Ha.
  { intros p p'. unfold all_writes. rewrite !Forall_app, !Forall_cons, !Forall_app. tauto. }
  assert (forall p p' l, l ++ writes (p ++ b ++ WriteWork o :: p') <> [] ->
    l ++ writes (p ++ WriteWork o :: b ++ p') <> []) as Hw.
  { intros p p' l _. rewrite writes_app, writes_cons. do 2 (apply app_ne; right). by apply app_ne; left. }
  unfold lively in *. destruct r.
  - destruct Hl as (q1 & t & q2 & E & H1 & H2 & H3 & H4).
    apply app_eq_app in E as [z [[-> E]|[-> E]]].
    + (* the fsync comes before *)
      destruct z as [|x z]; simpl in E.
      * destruct b as [|x b]; simpl in E; [discriminate|]. injection E as <- _. by apply not_all_writes in Hb.
      * injection E as <- ->. exists q1, t, (z ++ WriteWork o :: b ++ q'). split; [by rewrite <- app_assoc|].
        split_and!; [done|by apply Ha|done|]. intros Hd. by apply (Hw z q' []), H4.
    + apply app_eq_app in E as [y [[-> E]|[-> E]]].
      * destruct y as [|x y]; simpl in E; [discriminate|]. injection E as <- _.
        apply all_writes_app in Hb as [_ Hb]. by apply not_all_writes in Hb.
      * destruct y as [|x y]; simpl in E; [discriminate|]. injection E as <- ->.
        exists (q ++ WriteWork o :: b ++ y), t, q2. split; [by rewrite <- !app_assoc; simpl; rewrite <- !app_assoc|].
        split_and!; [by apply Ha|done|by apply Hw|done].
  - destruct Hl as [H1 H2]. split; [by apply Ha|]. intros Hd. by apply Hw, H2.
Qed.

(** The first operation is a write and is reaped; or it is the fsync. *)
Lemma lively_reap_write r d a q o b : lively r d a (WriteWork o :: q) -> owes (io_work.data o) /\ lively r d (a ++ [b]) q.
Proof.
  unfold lively. assert (forall l, (a ++ [b]) ++ l <> []) as Hne by (intros l; rewrite !app_ne; naive_solver).
  destruct r.
  - intros ([|x q1] & t & q2 & E & H1 & H2 & H3 & H4); [done|]. injection E as <- ->.
    apply Forall_cons in H1 as [(x & [= ->] & Hx) H1]. split; [done|]. exists q1, t, q2. by split_and!.
  - intros [[(x & [= ->] & Hx) H1]%Forall_cons _]. by split.
Qed.

Lemma lively_reap_fsync r d a q t : lively r d a (FsyncWork t :: q) -> a <> [] /\ lively false d [] q.
Proof.
  unfold lively. destruct r; [|by intros [H%not_all_writes _]].
  intros ([|x q1] & t' & q2 & E & H1 & H2 & H3 & H4).
  - injection E as -> ->. simpl in H3. rewrite app_nil_r in H3. by split.
  - injection E as <- _. by apply not_all_writes in H1.
Qed.
Lemma lively_kinds r d a q w : lively r d a q -> w ∈ q -> is_write w \/ exists t, w = FsyncWork t.
Proof.
  unfold lively, all_writes. destruct r.
  - intros (q1 & t & q2 & -> & H1 & H2 & _). rewrite Forall_forall in H1, H2.
    intros [Hw|[->|Hw]%elem_of_cons]%elem_of_app; eauto.
  - rewrite Forall_forall. intros [H1 _] Hw. eauto.
Qed.

(** ** What the steps do to them *)

Section steps.
Variable base : Z.
Variable good : list Batch -> content -> nat -> Prop.
Abbreviation inv := (durability.inv base good).

Lemma outstanding_ingest s w l :
  outstanding (mk_st (pend s ++ [w]) (fl s) (subq s) (kern s) (aw s) (acked s) l) = outstanding s ++ [w].
Proof. unfold outstanding, queue. simpl. by rewrite !app_assoc. Qed.

Lemma outstanding_push s w p key fd e :
  inv s -> pend s = w :: p -> fl s !! key = None -> sqe w fd key = Done e ->
  outstanding (mk_st p (<[key := w]> (fl s)) (subq s ++ [e]) (kern s) (aw s) (acked s) (lg s)) = outstanding s.
Proof.
  intros I Hp Hk He. unfold outstanding. rewrite (queue_push base good s w p key fd e) by done. f_equal.
  apply omap_fl_ext. intros c Hc. by apply (insert_new_key base good), cq_key.
Qed.

Lemma outstanding_submit s n :
  outstanding (mk_st (pend s) (fl s) (drop n (subq s)) (submit_ops (kern s) (take n (subq s))) (aw s) (acked s) (lg s)) =
  outstanding s.
Proof. unfold outstanding. by rewrite queue_submit. Qed.

Lemma outstanding_pop s c q w a' k' :
  inv s -> cq (kern s) = c :: q -> fl s !! cq_user_data c = Some w ->
  outstanding s = w :: outstanding (mk_st (pend s) (delete (cq_user_data c) (fl s)) (subq s)
    (mk_kernel (ops (kern s)) (page (kern s)) (disk (kern s)) q) a' k' (lg s)).
Proof.
  intros I Hq Hw. unfold outstanding. rewrite (queue_pop base good s c q a' k' I Hq).
  unfold finished. simpl. rewrite Hq. cbn [omap list_omap]. rewrite Hw. simpl. do 2 f_equal.
  apply omap_fl_ext. intros x Hx. rewrite lookup_delete_ne; [done|].
  intros E. by apply (proj2 (head_key base good s c q I Hq) x).
Qed.

(** An entry that may run completes. *)
Lemma lively_complete r d a s before o after w pg dk c :
  inv s -> ops (kern s) = before ++ o :: after -> can_run before o ->
  fl s !! user_data (k_sqe o) = Some w -> cq_user_data c = user_data (k_sqe o) ->
  lively r d a (outstanding s) ->
  lively r d a (outstanding (set_kern s (mk_kernel (before ++ after) pg dk (cq (kern s) ++ [c])))).
Proof.
  intros I Ho Hc Hw Hud Hl. unfold outstanding in *.
  rewrite (queue_complete s before o after pg dk (cq (kern s) ++ [c]) Ho).
  rewrite (queue_split s before o after w Ho Hw) in Hl.
  set (q1 := omap _ (k_sqe <$> before)) in *. set (q2 := omap _ _ ++ pend s) in *.
  assert (finished (set_kern s (mk_kernel (before ++ after) pg dk (cq (kern s) ++ [c]))) = finished s ++ [w]) as ->.
  { unfold finished. simpl. rewrite omap_app. cbn [omap list_omap]. by rewrite Hud, Hw. }
  rewrite <- app_assoc. simpl. apply lively_move; [done|..].
  - apply Forall_forall. intros x Hx. destruct (lively_kinds _ _ _ _ x Hl) as [?|[t ->]]; [in_app|done|].
    by destruct (before_no_fsync base good s before o after t I Ho Hc).
  - destruct (lively_kinds _ _ _ _ w Hl) as [?|[t ->]]; [in_app|by left|right].
    destruct (i_sqe _ _ _ I (k_sqe o)) as (w & fd & Hw' & He); [rewrite Ho, fmap_app; simpl; in_app|].
    rewrite Hw in Hw'. injection Hw' as <-. injection He as He.
    destruct Hc as [_ Hc]. unfold q1. rewrite Hc; [done|]. by rewrite <- He.
Qed.

Lemma lively_entry r d a s before e after pg dk r' :
  inv s -> ops (kern s) = before ++ mk_kop e None :: after -> can_run before (mk_kop e None) ->
  lively r d a (outstanding s) ->
  lively r d a (outstanding (set_kern s (mk_kernel (before ++ after) pg dk (cq (kern s) ++ [mk_cqe (user_data e) r'])))).
Proof.
  intros I Ho Hc. destruct (i_sqe _ _ _ I e) as (w & fd & Hw & _); [rewrite Ho, fmap_app; simpl; in_app|].
  by apply (lively_complete r d a s before (mk_kop e None) after w pg dk (mk_cqe (user_data e) r')).
Qed.

Lemma lively_fsync_end r d a s before e m after pg dk r' :
  inv s -> ops (kern s) = before ++ mk_kop e (Some m) :: after -> lively r d a (outstanding s) ->
  lively r d a (outstanding (set_kern s (mk_kernel (before ++ after) pg dk (cq (kern s) ++ [mk_cqe (user_data e) r'])))).
Proof.
  intros I Ho. destruct (snap_head _ _ s before (mk_kop e (Some m)) after m I Ho eq_refl) as [-> _].
  destruct (i_sqe _ _ _ I e) as (w & fd & Hw & _); [rewrite Ho; simpl; in_app|].
  by apply (lively_complete r d a s [] (mk_kop e (Some m)) after w pg dk (mk_cqe (user_data e) r')).
Qed.

Lemma lively_kernel write_result r d a s k :
  inv s -> doc_step write_result (kern s) k -> lively r d a (outstanding s) -> lively r d a (outstanding (set_kern s k)).
Proof.
  intros I Hk. destruct s as [p f q k0 aws c l]. simpl in Hk.
  destruct Hk as [before e fd buf off after i j pg dk cqs Hop Hc Hij
                 |before e fd buf off after r' pg dk cqs Hop Hc Hr Hres
                 |before e fd ds after pg dk cqs Hop Hc
                 |before e m after r' pg dk cqs Hr
                 |before e m after r' pg dk cqs Hr
                 |before e path after r' pg dk cqs Hop Hc
                 |m o pg dk cqs Hm]; try done.
  - by apply (lively_entry r d a _ before e after _ _ r' I).
  - unfold outstanding, queue. simpl. by rewrite !fmap_app.
  - by apply (lively_fsync_end r d a _ before e m after _ _ r' I).
  - by apply (lively_fsync_end r d a _ before e m after _ _ r' I).
  - by apply (lively_entry r d a _ before e after _ _ r' I).
Qed.

End steps.

(** ** The engine keeps going *)

Section engine.
Context {L : Type} `{SlabLaws L} {K : Type} `{UringLaws K full_result}.
Variable base : Z.
Implicit Types e : WalEngine L.
Implicit Types w : World L K.
Abbreviation inv := (durability.inv base (prefix_bytes base)).

Definition st_of e (k : Kernel) (l : list Batch) : St :=
  mk_st (pending e) (slab_view (inflight e)) (sq (ring e)) k (awaiting_fsync e) (durable_acks (trace e)) l.

(** An engine in sync mode, with what is outstanding. *)
Record live e (k : Kernel) : Prop := {
  lv_level : level (ack e) = Durable;
  lv_cadence : cadence (planner e) = Consistently;
  lv_dirty : 0 <= dirty_bytes (planner e) <= segment.offset (seg e);
  lv_lively : lively (flush_running (planner e)) (dirty_bytes (planner e)) (awaiting_fsync e) (outstanding (st_of e k []));
}.

Record sound w : Prop := {
  sd_wf : world_wf base w;
  sd_inv : inv (abs w);
  sd_ordered : ordered base (abs w);
}.

(** *** Taking a batch *)

Lemma redo_nonempty l its : put_bodies its <> [] -> 0 < len (redo_bytes l its).
Proof.
  unfold redo_bytes. destruct (put_bodies its) as [|x bs]; [done|]. intros _. cbn [number].
  rewrite recovery.wal_bytes_cons, length_app. simpl fst. simpl snd.
  pose proof (wal_format.record_bytes_length (l + 1) x). lia.
Qed.

Lemma owes_puts b : owes b -> put_bodies (items b) <> [].
Proof.
  unfold owes, put_bodies. induction (items b) as [|r l IH]; [by intros ?%Exists_nil|].
  rewrite put_reqs_cons. intros [[-> _]|Hx]%Exists_cons; [done|].
  rewrite fmap_app. intros [_ E]%app_eq_nil. by apply IH.
Qed.

Lemma live_ingest e b e' k :
  ingestable e b -> handle_batch e b = Done e' -> owes b -> live e k -> live e' k /\ 0 < dirty_bytes (planner e').
Proof.
  intros Hb He Ho [A1 A2 A3 A4]. pose proof (redo_nonempty (lsn_low b) (items b) (owes_puts b Ho)) as Hn.
  rewrite handle_batch_ok in He by done. injection He as <-. pose proof (ig_end _ _ Hb) as Hu.
  set (n := len (redo_bytes (lsn_low b) (items b))) in *.
  set (w := write (encoded b) (segment.offset (seg e))).
  pose proof (outstanding_ingest (st_of e k []) w []) as E.
  assert (add64 (dirty_bytes (planner e)) n = dirty_bytes (planner e) + n) as Ea
    by (apply add64_small; unfold u64 in *; lia).
  split; [split; try done; simpl|simpl; rewrite Ea; lia].
  - rewrite Ea. lia.
  - unfold st_of. simpl. unfold st_of in E. simpl in E. rewrite E. eapply lively_write; [|exact A4]. exact Ho.
Qed.

(** *** Ordering an fsync, and submitting *)

Lemma live_plan e k :
  live e k -> live (plan_fsync e) k /\
  (flush_running (planner (plan_fsync e)) = true \/
   flush_running (planner e) = false /\ dirty_bytes (planner e) = 0 /\ plan_fsync e = e).
Proof.
  intros [A1 A2 A3 A4]. unfold plan_fsync.
  destruct (should_fsync_cases (planner e)) as [(E & Hz & Hm)|(E & Hm)]; rewrite E, A2 in *.
  - pose proof (outstanding_ingest (st_of e k []) (FsyncWork (last_ingested_lsn e)) []) as Eo.
    unfold st_of in Eo. simpl in Eo. split; [|by left]. split; try done; simpl; unfold st_of; simpl; rewrite ?Eo.
    + lia.
    + rewrite Hm in A4. by apply lively_arm with (d := dirty_bytes (planner e)).
  - assert (set_planner e (planner e) = e) as -> by (by destruct e). split; [by split|].
    destruct Hm as [Hz|Hr]; [|by left]. destruct (flush_running (planner e)); [by left|by right].
Qed.

Lemma pushed_outstanding fd l ws es l' p q k a c lg :
  pushed fd l ws es l' -> inv (mk_st (ws ++ p) (slab_view l) q k a c lg) ->
  outstanding (mk_st p (slab_view l') (q ++ es) k a c lg) = outstanding (mk_st (ws ++ p) (slab_view l) q k a c lg).
Proof.
  intros Hp. revert q. induction Hp as [l|l w ws e es l' He Hp IH]; intros q I; [by rewrite app_nil_r|].
  pose proof (slab_vacant_view l) as Hk.
  assert (inv (mk_st (ws ++ p) (slab_view (slab_insert l w)) (q ++ [e]) k a c lg)) as I'.
  { rewrite slab_insert_view. by apply (inv_push base (prefix_bytes base) (mk_st (w :: ws ++ p) (slab_view l) q k a c lg)
      w (ws ++ p) (slab_vacant_key l) fd e). }
  specialize (IH (q ++ [e]) I'). rewrite <- app_assoc in IH. simpl in IH. rewrite IH, slab_insert_view.
  by apply (outstanding_push base (prefix_bytes base) (mk_st (w :: ws ++ p) (slab_view l) q k a c lg)
      w (ws ++ p) (slab_vacant_key l) fd e).
Qed.

Lemma live_pending e n e' k l :
  engine_wf e -> inv (st_of e k l) -> handle_pending e = Done (n, e') -> live e k -> live e' k.
Proof.
  intros Hwf I He [A1 A2 A3 A4].
  destruct (handle_pending_ok e Hwf) as (moved & new & pend' & infl' & need & E & Ep & Hpu & _).
  rewrite He in E. injection E as -> ->. unfold st_of in I. rewrite Ep in I.
  pose proof (pushed_outstanding _ _ _ _ _ _ _ _ _ _ _ Hpu I) as Eo.
  rewrite <- Ep in Eo. change (outstanding (mk_st (pending e) _ _ _ _ _ _)) with (outstanding (st_of e k [])) in Eo.
  rewrite <- Eo in A4. by split.
Qed.

Lemma live_submit e k n :
  live e k -> live (submit_n e n) (submit_ops k (take n (sq (ring e)))).
Proof.
  intros [A1 A2 A3 A4]. pose proof (outstanding_submit (st_of e k []) n) as Eo. unfold st_of in *. simpl in *.
  split; try done; unfold st_of; simpl; by rewrite Eo.
Qed.

(** *** Reaping *)

(** An fsync was reaped: at least one buffer went back. *)
Definition relieved e e' : Prop :=
  flush_running (planner e') = false /\ (length (recycled_of (trace e)) < length (recycled_of (trace e')))%nat.

Lemma owes_kept a b sent b' :
  level a = Durable -> owes b -> batch_ok b -> advance a b Written = Done (sent, b') -> is_settled a b' = false.
Proof.
  intros Ha Ho Hb E. rewrite advance_ok in E by done. injection E as <- <-.
  apply not_true_iff_false. unfold is_settled. rewrite forallb_forall. intros Hs.
  apply Exists_exists in Ho as (r & Hr & Hp & Hx). specialize (Hs (settle a Written r)).
  rewrite <- list_elem_of_In, resp_settle in Hs. simpl items in Hs.
  assert (due a Written r = false) as Hd.
  { unfold due, need, is_get, is_put in *. by destruct (opc r); rewrite ?Ha. }
  rewrite Hd in Hs. destruct Hx as [x Hx]. rewrite Hx in Hs.
  enough (false = true) by done. apply Hs. by apply list_elem_of_fmap_2.
Qed.

Lemma live_reaped e c e' op pg dk q l :
  inv (st_of e (mk_kernel op pg dk (c :: q)) l) -> ordered base (st_of e (mk_kernel op pg dk (c :: q)) l) ->
  engine_wf e -> reaped e c e' -> live e (mk_kernel op pg dk (c :: q)) ->
  live e' (mk_kernel op pg dk q) /\ (planner e' = planner e \/ relieved e e').
Proof.
  intros I Ho Hwf Hre [A1 A2 A3 A4].
  assert (forall x, slab_view (inflight e) !! cq_user_data c = Some x ->
    outstanding (st_of e (mk_kernel op pg dk (c :: q)) []) =
    x :: outstanding (mk_st (pending e) (delete (cq_user_data c) (slab_view (inflight e))) (sq (ring e))
           (mk_kernel op pg dk q) [] [] [])) as Eo.
  { intros x Hw. by apply (outstanding_pop base (prefix_bytes base) _ c q x [] [] I). }
  destruct Hre as [o lb sent b' Hw Hc Hd Hl Hs Ea Hst|o o' lb Hw Ho' Hlt Hneg Hl Hst|t lb Hw Hc Hl Hst|p lb Hw Hl Hst];
    specialize (Eo _ Hw); rewrite Eo in A4.
  - assert (batch_ok (io_work.data o)) as Hb by (by destruct (map_Forall_lookup_1 _ _ _ _ (ew_inflight _ Hwf) Hw)).
    rewrite (owes_kept (ack e) (io_work.data o) sent b') in Hst; [|done| |done|done]; [|by apply lively_reap_write with (b := b') in A4 as [? _]].
    subst e'. split; [|by left]. split; try done; unfold st_of; simpl; rewrite Hl.
    by apply lively_reap_write with (b := b') in A4 as [_ A4].
  - exfalso. pose proof (o_fresh_fl _ _ Ho _ _ Hw) as Hdn.
    pose proof (o_full _ _ Ho c o ltac:(by left) Hw) as Hf. simpl in Hf.
    assert (0 <= len (out (io_work.data o))) by lia. rewrite Ho' in Hlt. simpl in Hlt. lia.
  - apply lively_reap_fsync in A4 as [Ha A4]. subst e'. split.
    + split; try done; unfold st_of; simpl; by rewrite Hl.
    + right. split; [done|]. simpl. rewrite recycled_of_app, recycled_of_release, length_app, length_replicate.
      destruct (awaiting_fsync e); [done|simpl; lia].
  - exfalso. destruct (lively_kinds _ _ _ _ (RemoveWork p) A4) as [(? & ? & _)|[? ?]]; [by left|done..].
Qed.

Lemma recycled_mono e e' : same_log e e' -> (length (recycled_of (trace e)) <= length (recycled_of (trace e')))%nat.
Proof. intros (_ & _ & [more ->]). rewrite recycled_of_app, length_app. lia. Qed.

Lemma live_reap cqes e e' op pg dk q l :
  inv (st_of e (mk_kernel op pg dk (cqes ++ q)) l) -> ordered base (st_of e (mk_kernel op pg dk (cqes ++ q)) l) ->
  engine_wf e -> reap_cqes e cqes = Done e' -> live e (mk_kernel op pg dk (cqes ++ q)) ->
  live e' (mk_kernel op pg dk q) /\ (planner e' = planner e \/ relieved e e').
Proof.
  unfold reap_cqes. revert e. induction cqes as [|c cqes IH]; intros e I Ho Hwf Hr Hl; cbn [fold_outcome] in Hr.
  - injection Hr as <-. by split; [|left].
  - apply bind_Done in Hr as (e1 & E1 & Hr).
    pose proof (inv_cqe_ok base (prefix_bytes base) e _ l c (cqes ++ q) e1 I eq_refl E1) as Hc.
    destruct (reap_one_ok e c Hwf Hc) as (e2 & E2 & Hre). rewrite E1 in E2. injection E2 as <-.
    pose proof (reaped_step base e c e1 op pg dk (cqes ++ q) l Hwf Hre) as Hstep.
    destruct (reaped_wf e c e1 Hwf Hre) as [Hwf1 _].
    destruct (live_reaped e c e1 op pg dk (cqes ++ q) l I Ho Hwf Hre Hl) as [Hl1 Hp1].
    destruct (IH e1) as [Hl' Hp']; [| |done|done|done|].
    + eapply (inv_astep base (prefix_bytes base) (prefix_laws base)); [exact I|exact Hstep].
    + eapply (ordered_astep base (prefix_bytes base)); [exact I|exact Ho|exact Hstep].
    + split; [done|]. pose proof (recycled_mono _ _ (reap_one_log _ _ _ E1)) as M1.
      pose proof (recycled_mono _ _ (reap_cqes_log _ _ _ Hr)) as M2. unfold relieved in *.
      destruct Hp' as [->|[F1 F2]]; [|by right; split; [|lia]].
      destruct Hp1 as [->|[F1 F2]]; [by left|]. right. split; [done|lia].
Qed.

(** *** A turn of the loop *)

Definition short (l : list Batch) : Prop := Forall (fun b => u32 (len (out b))) l.
Definition going w : Prop := sound w /\ live (eng w) (ku_view (uring w)).

Lemma going_wstep w w' :
  wstep w w' -> ingested w' = ingested w -> short (ingested w) -> going w -> going w'.
Proof.
  intros Hs Hg Hu [[W I O] Hl].
  destruct (wstep_ordered base w w' Hs Hu W I O) as (W' & I' & O'). split; [by split|].
  clear W' I' O'. destruct W as [Hwf _].
  destruct Hs as [e k l b e' Hb He|e k l|e k l n e' He|e k l n|e k l n e' He|e k l n|e k k' l Hk]; simpl in *.
  - apply (f_equal length) in Hg. rewrite length_app in Hg. simpl in Hg. lia.
  - by apply live_plan.
  - by eapply live_pending.
  - rewrite ku_submit_doc. by apply live_submit.
  - rewrite ku_take_doc. unfold abs, take_cqes in *. simpl in *. destruct (ku_view k) as [op pg dk q].
    simpl in *. rewrite <- (take_drop n q) in I, O, Hl. by eapply live_reap.
  - by destruct Hl; split.
  - apply ku_step_doc in Hk. destruct Hl as [A1 A2 A3 A4].
    split; try done. by apply (lively_kernel base (prefix_bytes base) full_result _ _ _
      (abs (mk_world e k l)) (ku_view k') I).
Qed.

Lemma going_rtc w w' :
  rtc wstep w w' -> ingested w' = ingested w -> short (ingested w) -> going w -> going w'.
Proof.
  induction 1 as [|w1 w2 w3 Hs Hr IH]; [done|]. intros Hg Hu Hgo.
  destruct (ingested_grows _ _ Hs) as [l1 E1], (ingested_grows_rtc _ _ Hr) as [l2 E2].
  assert (l1 = [] /\ l2 = []) as [-> ->].
  { rewrite E1, <- app_assoc in E2. rewrite E2 in Hg. rewrite <- (app_nil_r (ingested w1)) in Hg at 2.
    by apply app_inv_head, app_eq_nil in Hg. }
  rewrite app_nil_r in *. apply IH; [congruence|by rewrite E1|]. by apply (going_wstep w1).
Qed.

(** What a turn does to the buffers: when it ends with no fsync running, it has
    given one back, or there was nothing to sync from the start. *)
Definition eased e e' : Prop :=
  (length (held e') <= length (held e))%nat /\
  (flush_running (planner e') = false ->
   (length (held e') < length (held e))%nat \/ (flush_running (planner e) = false /\ dirty_bytes (planner e) = 0)).

Lemma turn_going e e' (k k1 : K) l n m :
  turn e (take n (cq (ku_view k1))) (Submitted m) = Done e' -> rtc ku_step k k1 -> short l ->
  going (mk_world e k l) -> going (mk_world e' (after_turn k1 n (entered e e')) l) /\ eased e e'.
Proof.
  intros Ht Hk Hu Hgo.
  split; [by eapply going_rtc; [eapply (turn_steps e _ m e' k k1 l n Ht Hk)|..]|].
  unfold turn in Ht. apply bind_Done in Ht as ([need e1] & E1 & Ht). apply bind_Done in Ht as (e2 & E2 & Ht).
  assert (rtc wstep (mk_world e k l) (mk_world e1 k1 l)) as R.
  { eapply rtc_l; [apply w_plan|]. eapply rtc_l; [by eapply w_pending|]. by apply kernel_steps. }
  destruct (going_rtc _ _ R eq_refl Hu Hgo) as [[[Hwf1 _] I1 O1] L1].
  destruct Hgo as [[[Hwf _] _ _] Hl]. simpl in *.
  destruct (live_plan e _ Hl) as [_ Hplan].
  destruct (plan_fsync_wf e Hwf) as [Hwfp [Cp _]].
  destruct (handle_pending_ok _ Hwfp) as (mv & new & pend' & infl' & need' & E & _).
  destruct (handle_pending_wf _ Hwfp) as (need'' & e1' & E' & _ & [C1 _]).
  rewrite E1 in E, E'. injection E' as <- <-.
  assert (planner e1 = planner (plan_fsync e) /\ trace e1 = trace e) as [P1 T1].
  { injection E as _ ->. simpl. split; [done|]. unfold plan_fsync. by destruct (should_fsync _) as [[|] ?]. }
  clear E. pose proof (recycled_mono _ _ (reap_cqes_log _ _ _ E2)) as M.
  unfold abs in I1, O1. simpl in I1, O1.
  destruct (ku_view k1) as [op pg dk q]. simpl in *. rewrite <- (take_drop n q) in I1, O1, L1.
  destruct (reap_steps base (prefix_bytes base) (prefix_laws base) _ _ _ _ _ _ _ _ I1 Hwf1 E2) as (_ & _ & _ & [C2 _]).
  destruct (live_reap _ _ _ _ _ _ _ _ I1 O1 Hwf1 E2 L1) as [_ Hre].
  unfold eased. assert (held e' = held e2 /\ planner e' = planner e2) as [-> ->].
  { destruct (_ || _); [by injection Ht as <-|]. by destruct need; injection Ht as <-. }
  assert (trace (plan_fsync e) = trace e) as Tp by (unfold plan_fsync; by destruct (should_fsync _) as [[|] ?]).
  rewrite T1, ?Tp in *. simpl in *. split; [lia|]. intros Hf. destruct Hre as [Hp|[_ Hp]]; [|left; rewrite T1 in Hp; lia].
  rewrite Hp, P1 in Hf. destruct Hplan as [Hx|(Hx & Hz & _)]; [congruence|by right].
Qed.

End engine.

(** ** The loops *)

Section loops.
Context {S : Type} `{KvLaws S} {L : Type} `{SlabLaws L} {K : Type} `{UringLaws K full_result}.
Variable base : Z.
Variable ack : Acker.
Implicit Types y : Sys S L K.

Definition msg_owes (m : WalMsg) : Prop := match m with Write b => owes b | _ => False end.

(** Between two iterations; when no fsync runs, stage 2 is not out of buffers. *)
Record moving y : Prop := {
  mv_going : going base (s3 y);
  mv_chan : Forall msg_owes (chan y);
  mv_room : flush_running (planner (eng (s3 y))) = false -> (length (held (eng (s3 y))) < N_BUFFERS)%nat;
}.

(** What stage 2 sends owes a response to a PUT. *)
Lemma spec_run_owes m l :
  level ack = Durable -> 0 < stage2.puts l ->
  Exists (fun r => is_put r = true /\ is_Some (resp r)) (settle ack Applied <$> stage2.spec_run m l).
Proof.
  intros Ha. revert m. induction l as [|r l IH]; intros m; [done|].
  rewrite stage2.puts_cons. cbn [stage2.spec_run]. rewrite fmap_cons. intros Hp. apply Exists_cons.
  destruct (is_put r) eqn:Er; [left|right; apply IH; lia].
  rewrite stage2.is_put_settle, resp_settle. split; [done|].
  unfold due, need. change (is_get (set_resp _ _)) with (is_get r). unfold is_get, is_put in *.
  destruct (opc r); try done. rewrite Ha. by eexists.
Qed.

Lemma moving_stage2 m0 l0 y inp st' out msg :
  sys_inv m0 l0 y -> stage2.input_ok inp -> Forall arrives (stage2.arrivals inp) ->
  u64 (stage2.lsn (s2 y) + stage2.puts (stage2.item_rx (s2 y) ++ stage2.arrivals inp)) ->
  stage2.iteration ack (s2 y) inp = Done (stage2.Continue st' out msg) -> level ack = Durable ->
  Forall msg_owes (option_list msg).
Proof.
  intros I Hin Har Hu Hit Ha. set (queue := stage2.item_rx (s2 y) ++ stage2.arrivals inp) in *.
  assert (Forall (fun r => req_ok r = true) queue) as Hq.
  { apply arrives_ok, Forall_app. split; [apply (si_queue _ _ _ I)|done]. }
  pose proof (stage2.puts_nonneg (drop (Z.to_nat MAX_BATCH) queue)). pose proof (stage2.puts_nonneg (take (Z.to_nat MAX_BATCH) queue)).
  rewrite <- (take_drop (Z.to_nat MAX_BATCH) queue), stage2.puts_app in Hu. pose proof (si_lsn _ _ _ I) as Hlsn.
  destruct (stage2.iteration_ok ack (s2 y) inp) as (st2 & _ & _ & _ & _ & _ & E);
    [apply (si_loop _ _ _ I)|done|done|done|fold queue; unfold u64 in *; lia|].
  fold queue in E. rewrite E in Hit. injection Hit as _ _ <-.
  destruct (0 <? _) eqn:Ep; simpl; constructor; [|constructor].
  apply Z.ltb_lt in Ep. by apply spec_run_owes.
Qed.

(** A turn, between two iterations or after the batch was taken. *)
Lemma moving_turn e l spin (k k1 : K) n m e' :
  turn (set_spin e spin) (take n (cq (ku_view k1))) (Submitted m) = Done e' -> rtc ku_step k k1 ->
  going base (mk_world e k l) -> short l -> (length (held e) <= N_BUFFERS)%nat ->
  (flush_running (planner e) = false -> dirty_bytes (planner e) = 0 -> (length (held e) < N_BUFFERS)%nat) ->
  going base (mk_world e' (after_turn k1 n (entered e e')) l) /\
  (flush_running (planner e') = false -> (length (held e') < N_BUFFERS)%nat).
Proof.
  intros Ht Hk Hg Hu Hh Hr.
  assert (going base (mk_world (set_spin e spin) k l)) as Hg'
    by (apply (going_wstep base (mk_world e k l)); [apply w_spin|done..]).
  destruct (turn_going base _ _ _ _ _ _ _ Ht Hk Hu Hg') as [Hgo [Hle Hlt]].
  change (held (set_spin e spin)) with (held e) in *. split; [done|]. intros Hf.
  destruct (Hlt Hf) as [?|[? ?]]; [lia|]. specialize (Hr ltac:(done) ltac:(done)). lia.
Qed.

Lemma going_take e b e' (k : K) l :
  ingestable e b -> handle_batch e b = Done e' -> owes b -> short l -> going base (mk_world e k l) ->
  going base (mk_world e' k (l ++ [encoded b])) /\ 0 < dirty_bytes (planner e').
Proof.
  intros Hb He Ho Hu [[W I O] Hl].
  destruct (wstep_ordered base (mk_world e k l) _ (w_ingest e k l b e' Hb He) Hu W I O) as (W' & I' & O').
  destruct (live_ingest e b e' (ku_view k) Hb He Ho Hl) as [Hl' Hd]. by split; [split; [split|]|].
Qed.

Lemma held_bound y0 y :
  start y0 -> rtc (sys_step ack) y0 y -> (length (held (eng (s3 y))) <= N_BUFFERS)%nat.
Proof. intros Hs Hr. destruct (books_ok full_result ack y0 y Hs Hr) as [_ _ Hb _]. unfold buffers in Hb. lia. Qed.

Lemma moving_stage3 y0 y i k1 n m e' :
  start y0 -> rtc (sys_step ack) y0 y -> moving y ->
  has_room y -> in_recv i = arriving (chan y) ->
  rtc ku_step (uring (s3 y)) k1 -> in_cqes i = take n (cq (ku_view k1)) -> in_submit i = Submitted m ->
  iteration (eng (s3 y)) i = Done (true, e') -> short (ingested (s3 y) ++ taken (chan y)) ->
  moving (mk_sys (s2 y) (tail (chan y))
      (mk_world e' (after_turn k1 n (entered (eng (s3 y)) e')) (ingested (s3 y) ++ taken (chan y)))
      (served y) (pool y ++ returned (eng (s3 y)) e') (replied y)).
Proof.
  intros Hs Hr [M1 M2 M3] Hroom Hin Hk Hc Hsub Hit [Hu Hu2]%Forall_app.
  destruct (sys_ok ack y0 y Hs Hr) as [I _]. unfold iteration in Hit. rewrite Hin, Hsub, Hc in Hit.
  pose proof (held_bound y0 y Hs Hr) as Hh.
  destruct y as [a c [e k l] sv p r]. unfold has_room in Hroom. simpl in *.
  destruct c as [|x c]; simpl arriving in Hit; simpl taken; simpl tail.
  - cbn [poll_channel_or_park] in Hit. destruct (should_park e); [done|].
    revert Hit. ostep. intros (e2 & E2 & [= <-])%bind_Done. rewrite app_nil_r.
    destruct (moving_turn e l _ k k1 n m e2 E2 Hk M1 Hu Hh) as [G1 G2]; [by intros ? _; apply M3|by split].
  - apply Forall_cons in M2 as [Mx M2]. destruct x as [b| |]; [|done..]. cbn [poll_channel_or_park handle_msg] in Hit.
    revert Hit. ostep. intros ([g e1] & (e1' & E1 & [= <- <-])%bind_Done & Hit)%bind_Done.
    cbn [negb] in Hit. apply bind_Done in Hit as (e2 & E2 & [= <-]).
    pose proof (head_ingestable _ _ _ b c I eq_refl Hroom) as Hg.
    destruct (handle_batch_frame e b e1' E1) as [_ Er].
    assert (length (held e1') <= N_BUFFERS)%nat as Hh1.
    { eapply (held_bound y0 (mk_sys a c (mk_world e1' k (l ++ [encoded b])) sv p r) Hs), rtc_r; [exact Hr|].
      by apply (y_take ack (mk_sys a (Write b :: c) (mk_world e k l) sv p r)). }
    destruct (going_take e b e1' k l Hg E1 Mx Hu M1) as [G0 Hd].
    destruct (moving_turn e1' (l ++ [encoded b]) _ k k1 n m e2 E2 Hk G0) as [G1 G2];
      [by apply Forall_app|done|lia|]. split; [|done|done]. unfold entered in *. simpl. by rewrite <- Er.
Qed.

Lemma moving_step y0 y y' :
  start y0 -> rtc (sys_step ack) y0 y -> level ack = Durable ->
  loop_step ack y y' -> short (ingested (s3 y')) -> moving y -> moving y'.
Proof.
  intros Hs Hr Ha Hl Hu Hm. destruct (sys_ok ack y0 y Hs Hr) as [I _].
  destruct Hl as [y inp st' out msg Hin Har Hfr Hz Hit|y i k1 n m e' Hroom Hin Hk Hc Hsub Hit|y k' Hk].
  - destruct Hm as [M1 M2 M3]. split; simpl; [done| |done]. apply Forall_app. split; [done|]. by eapply moving_stage2.
  - by eapply moving_stage3.
  - destruct Hm as [M1 M2 M3]. split; simpl in *; [|done|done].
    apply (going_wstep base (s3 y)); [|done..]. destruct (s3 y). by apply w_kernel.
Qed.

(** A parked engine holds only what waits for an fsync. *)
Lemma parked_held (e : WalEngine L) :
  should_park e = true -> pending e = [] /\ slab_view (inflight e) = ∅ /\ held e = awaiting_fsync e.
Proof.
  unfold should_park, held, inflight_len, inflight_ops. destruct (pending e); [|done].
  intros Hz%Z.eqb_eq. rewrite slab_len_view in Hz.
  assert (slab_view (inflight e) = ∅) as -> by (apply map_size_empty_iff; lia).
  by rewrite map_to_list_empty.
Qed.

Lemma moving_not_stuck y0 y :
  start y0 -> rtc (sys_step ack) y0 y -> moving y -> ~ stuck y.
Proof.
  intros Hs Hr [[[W I O] [A1 A2 A3 A4]] M2 M3] (Q1 & Q2 & Q3 & Q4).
  destruct (books_ok full_result ack y0 y Hs Hr) as [_ _ Hb _]. unfold buffers in Hb. rewrite Q1, Q2, Q3 in Hb. simpl in Hb.
  destruct (parked_held _ Q4) as (P1 & P2 & _).
  assert (outstanding (st_of (eng (s3 y)) (ku_view (uring (s3 y))) []) = []) as Eo.
  { unfold outstanding, finished, queue, st_of. simpl. rewrite P1, P2, app_nil_r.
    assert (forall A (key : A -> N) l, omap (fun x => (∅ : gmap N IoWork) !! key x) l = []) as En.
    { intros A key l. induction l as [|x l IH]; [done|]. cbn [omap list_omap]. by rewrite lookup_empty, IH. }
    by rewrite !En. }
  rewrite Eo in A4. destruct (flush_running (planner (eng (s3 y)))).
  - destruct A4 as ([|] & t & q2 & E & _); simpl in E; discriminate E.
  - specialize (M3 eq_refl). lia.
Qed.

Lemma moving_start y :
  start y -> base = segment.offset (seg (eng (s3 y))) -> level (stage3.ack (eng (s3 y))) = Durable ->
  planner (eng (s3 y)) = fsync_planner.new Consistently -> moving y.
Proof.
  intros Hs Hb Hlv Hp. pose proof (st_world _ Hs) as Hi.
  destruct (inv_initial base (prefix_bytes base) _ Hi (initial_wf _ Hi) Hb) as [W I].
  pose proof (ordered_initial base _ Hi) as O. pose proof (st_off _ Hs) as Hoff.
  destruct Hi as [I1 I2 I3 I4 I5 I6 I7 I8 _ _]. split; [split; [by split|]| |].
  - split; rewrite ?Hp; simpl; [done|done|lia|]. unfold outstanding, finished, queue, st_of. simpl.
    rewrite I1, I2, I3, I7, I8. simpl. split; [constructor|done].
  - rewrite (st_chan _ Hs). constructor.
  - intros _. unfold held, inflight_ops. rewrite I1, I2, I4, map_to_list_empty. simpl. unfold N_BUFFERS. lia.
Qed.

Lemma loop_step_ingested y y' : loop_step ack y y' -> exists l, ingested (s3 y') = ingested (s3 y) ++ l.
Proof. destruct 1; simpl; [by exists []; rewrite app_nil_r|by eexists|by exists []; rewrite app_nil_r]. Qed.

Lemma moving_reachable y0 y :
  start y0 -> rtc (loop_step ack) y0 y -> level ack = Durable -> moving y0 -> short (ingested (s3 y)) -> moving y.
Proof.
  intros Hs Hr0 Ha Hm0. revert y Hr0. refine (rtc_ind_r _ _ _ _); [done|]. intros y1 y2 Hr Hl IH Hu.
  pose proof (loops_system ack y0 y1 Hs Hr) as Hsys. destruct (loop_step_ingested _ _ Hl) as [l El].
  eapply (moving_step y0 y1); try done. apply IH. rewrite El in Hu. by apply Forall_app in Hu as [? _].
Qed.

End loops.

(** ** Modes that do not wait for an fsync *)

Section no_wait.
Context {L : Type} `{SlabLaws L} {K : Type} `{Uring K}.
Implicit Types e : WalEngine L.

(** Nothing waits for an fsync, and the level stays. *)
Definition calm e e' : Prop :=
  level (ack e) <> Durable -> awaiting_fsync e = [] -> awaiting_fsync e' = [] /\ ack e' = ack e.
#[local] Instance calm_preorder : PreOrder calm.
Proof.
  split; [by intros e|]. intros e1 e2 e3 A B Hl Ha. destruct (A Hl Ha) as [Ha2 E].
  destruct B as [? ?]; [by rewrite E|done|]. split; congruence.
Qed.

Lemma advance_one_settles a s r s' r' :
  level a <> Durable -> advance_one a Written s r = Done (s', r') -> resp r' = None.
Proof.
  intros Hl. unfold advance_one, required. intros (n & (ro & _ & [= <-])%bind_Done & Ha)%bind_Done.
  assert (ack_le (if ro then Applied else level a) Written = true) as E by (destruct ro, (level a); done).
  rewrite E in Ha. destruct (resp r) eqn:Er; by injection Ha as _ <-.
Qed.

Lemma advance_settles a b s b' : level a <> Durable -> advance a b Written = Done (s, b') -> is_settled a b' = true.
Proof.
  intros Hl. unfold advance. intros ([s1 its] & Hm & [= _ <-])%bind_Done. unfold is_settled. simpl.
  revert s1 its Hm. generalize ([] : replies). induction (items b) as [|r l IH]; intros s0 s1 its; cbn [map_outcome].
  - by intros [= _ <-].
  - intros ([s2 r'] & E & Hm)%bind_Done. apply bind_Done in Hm as ([s3 its'] & E' & [= _ <-]).
    cbn [forallb]. by rewrite (advance_one_settles _ _ _ _ _ Hl E), (IH _ _ _ E').
Qed.

Lemma release_awaiting_calm e e' : release_awaiting e = Done e' -> calm e e'.
Proof.
  intros Hr. transitivity (set_awaiting e []); [by intros ? ?|]. eapply (fold_outcome_rel _ _); [|exact Hr].
  intros e1 b e2. unfold release_one. by intros ([s b'] & _ & [= <-])%bind_Done.
Qed.

Lemma reap_one_calm e c e' : reap_one e c = Done e' -> calm e e'.
Proof.
  unfold reap_one. intros ([w l] & _ & Hr)%bind_Done.
  destruct (complete w (cq_result c)) as [[b|]|w'| |]; try done.
  - apply bind_Done in Hr as ([s b'] & E & Hr). intros Hl Ha.
    pose proof (advance_settles _ _ _ _ Hl E) as Hx. unfold is_settled in Hx, Hr. rewrite Hx in Hr. by injection Hr as <-.
  - by injection Hr as <-.
  - by injection Hr as <-.
  - apply bind_Done in Hr as (e1 & Hr & [= <-]). by apply release_awaiting_calm in Hr.
Qed.

Lemma wstep_calm (w w' : World L K) : wstep w w' -> calm (eng w) (eng w').
Proof.
  destruct 1 as [e k l b e' Hb He|e k l|e k l n e' He|e k l n|e k l n e' He|e k l n|e k k' l Hk]; simpl; try done.
  - unfold handle_batch in He. apply bind_Done in He as ([] & _ & He). apply bind_Done in He as ([lsn o] & _ & He).
    by injection He as <-.
  - unfold plan_fsync. by destruct (should_fsync _) as [[|] q].
  - revert He. unfold handle_pending. destruct (pending e); [by intros [= <- <-]|].
    by intros ([pi q] & _ & [= <- <-])%bind_Done.
  - by apply (fold_outcome_rel _ _ reap_one_calm) in He.
Qed.

Lemma wsteps_calm (w w' : World L K) : rtc wstep w w' -> calm (eng w) (eng w').
Proof. induction 1 as [|w1 w2 w3 Hs _ IH]; [done|]. transitivity (eng w2); [by apply wstep_calm|done]. Qed.

End no_wait.

(** ** Property *)

(** The engine [WalEngine::new] makes for a mode. *)
Definition engine_of {L} (m : args.Mode) (e : WalEngine L) : Prop :=
  stage3.ack e = acker.new m /\ planner e = fsync_planner.new (cadence_from m).

Lemma full_laws {K} `{Uring K} R : UringLaws K R -> (forall n r, R n r -> r = n) -> UringLaws K full_result.
Proof.
  intros [D1 D2 D3] HR. split; [|done|done]. intros k k' Hk%D1.
  destruct Hk; [by eapply doc_write_part|eapply doc_write_done; [done..|by apply HR]|by eapply doc_fsync_start
    |by apply doc_fsync_done|by apply doc_fsync_failed|by eapply doc_unlink_done|by apply doc_writeback].
Qed.

Lemma keeps_going {S} `{KvLaws S} {L} `{SlabLaws L} {K} `{Uring K} R (U : UringLaws K R) m (y0 y : Sys S L K) :
  start y0 -> engine_of m (eng (s3 y0)) -> rtc (loop_step (acker.new m)) y0 y ->
  (m = args.Sync -> (forall n r, R n r -> r = n) /\ short (ingested (s3 y))) ->
  ~ stuck y.
Proof.
  intros Hs [Ea Ep] Hr Hm. pose proof (loops_system _ y0 y Hs Hr) as Hsys.
  destruct (decide (m = args.Sync)) as [->|Hne].
  - destruct (Hm eq_refl) as [HR Hu]. pose proof (full_laws R U HR) as U'.
    eapply (moving_not_stuck (segment.offset (seg (eng (s3 y0)))) (acker.new args.Sync) y0 y Hs Hsys).
    eapply moving_reachable; try done. apply moving_start; [done|done|by rewrite Ea|done].
  - intros (Q1 & Q2 & Q3 & Q4). destruct (books_ok R _ y0 y Hs Hsys) as [_ _ Hb _].
    unfold buffers in Hb. rewrite Q1, Q2, Q3 in Hb. simpl in Hb.
    destruct (sys_ok _ y0 y Hs Hsys) as [_ Hw]. destruct (parked_held _ Q4) as (_ & _ & Hh).
    destruct (wsteps_calm _ _ Hw) as [Haw _]; [rewrite Ea; by destruct m|apply (st_world _ Hs)|].
    rewrite Hh, Haw in Hb. done.
Qed.

Lemma main_engine {S} `{KvLaws S} {L} `{SlabLaws L} {K} `{Uring K} d ring_new open_file file_len (k : K) a ack
    (y : Sys S L K) :
  server.main d ring_new open_file file_len k a = Done (ack, y) -> engine_of (args.mode a) (eng (s3 y)).
Proof.
  unfold server.main. intros ([db start_lsn] & _ & Hm)%bind_Done. apply bind_Done in Hm as (e & He & [= _ <-]).
  unfold stage3.new in He. apply bind_Done in He as (r & _ & He). by apply bind_Done in He as (sg & _ & [= <-]).
Qed.

(** C11: the server keeps going.  However the threads and the kernel interleave after
    [main] has started them, they never both wait for the other, so that no
    request could be served again: in no-fsync and async mode whatever the writes
    return, in sync mode as long as the writes are complete (and no batch's
    records exceed 4 GiB).  [Accounts.server_can_freeze] is thus the work of the
    short write. *)
Theorem server_keeps_going {S} `{KvLaws S} {L} `{SlabLaws L} {K} R `{UringLaws K R} d ring_new open_file file_len
    (k : K) a ack (y0 y : Sys S L K) o (db0 : S) segs logs :
  server.main d ring_new open_file file_len k a = Done (ack, y0) -> server.fresh_env ring_new file_len k ->
  intact d o db0 segs logs -> wal_format.list_segments true (recovery.read_dir d) = Done segs -> 0 <= default 0 o ->
  u64 (recovery.redo_lsn (default 0 o) (default 0 o) (concat logs) + 1) ->
  rtc (loop_step ack) y0 y ->
  (args.mode a = args.Sync ->
   (forall n r, R n r -> r = n) /\ Forall (fun b => u32 (len (out b))) (ingested (s3 y))) ->
  ~ stuck y.
Proof.
  intros Hm Hf Hd Hl Ho Hu Hr HR.
  destruct (server.main_start d ring_new open_file file_len k a ack y0 o db0 segs logs Hm Hf Hd Hl Ho Hu) as (Hs & -> & _).
  eapply keeps_going; [done|exact Hs|by eapply main_engine|done|done].
Qed.

(** ** Witness: the run of [Accounts.stuck_moves], without the short write *)

Definition going_main : outcome (Acker * Sys db.Db (gmap N IoWork) (doc_kernel full_result)) :=
  server.main (recovery.ex_dir None []) server.ex_ring_new (fun _ => Done 4) (fun _ => Done 0) (mk_kernel [] ∅ ∅ [])
    (args.mk_args 9000 args.Sync (bstr "d")).
Definition going_moves : list move :=
  [Serve [put_of 0]; Turn []; Serve [put_of 1]; Turn [KWrite 0 27]] ++
  concat ((fun c => [Serve [put_of c]; Turn []]) <$> (N.of_nat <$> seq 2 30)) ++
  [Turn (KSync 0 :: replicate 31 (KWrite 0 27))].

(** Stage 3 sleeps with 31 batches that wait for an fsync, and stage 2 has one buffer. *)
Definition going_test (y : Sys db.Db (gmap N IoWork) (doc_kernel full_result)) : bool :=
  Nat.eqb (length (served y)) 32 && Nat.eqb (length (waiting y)) 31 && Nat.eqb (length (pool y)) 1 && is_nil (chan y) &&
  should_park (eng (s3 y)) && forallb (fun b => bool_decide (u32 (len (out b)))) (ingested (s3 y)).

Lemma going_run :
  match going_main with
  | Done (ack, y0) =>
      match threads.exec ack full_result full_ok y0 going_moves with Some y => going_test y | None => false end
  | _ => false
  end = true.
Proof. vm_compute. reflexivity. Qed.

Lemma server_keeps_going_witness :
  exists ack y0 y, going_main = Done (ack, y0) /\ rtc (loop_step ack) y0 y /\
    should_park (eng (s3 y)) = true /\ length (waiting y) = 31%nat /\ ~ stuck y.
Proof.
  pose proof going_run as Ht. destruct going_main as [[ack y0]| |] eqn:Em; [|done..].
  destruct (threads.exec ack full_result full_ok y0 going_moves) as [y|] eqn:Ex; [|done].
  unfold going_test in Ht. rewrite !andb_true_iff, !Nat.eqb_eq in Ht. destruct Ht as [[[[[T1 T2] T3] T4] T5] T6].
  assert (rtc (loop_step ack) y0 y) as Hr by (eapply exec_moves_ok; [|exact Ex]; exact full_ok_result).
  exists ack, y0, y. split; [reflexivity|]. split; [exact Hr|]. split; [exact T5|]. split; [exact T2|].
  apply (server_keeps_going full_result (recovery.ex_dir None []) server.ex_ring_new (fun _ => Done 4) (fun _ => Done 0)
    (mk_kernel [] ∅ ∅ [] : doc_kernel full_result) (args.mk_args 9000 args.Sync (bstr "d")) ack y0 y None kv_new [] []).
  - exact Em.
  - exact server.ex_fresh.
  - split; [reflexivity|reflexivity|apply kv_new_wf|constructor|constructor].
  - reflexivity.
  - done.
  - decide_vm.
  - exact Hr.
  - intros _. split; [done|]. apply Forall_forall. intros b Hb. rewrite forallb_forall in T6.
    eapply bool_decide_eq_true, T6. by apply list_elem_of_In.
Defined.

End progress.
