(* ===== verification/Drain.v ===== *)
(** * The server can always finish its work

    From every state that the threads, the kernel and the clients reach without a
    fatal error, a kernel that completes what it holds and peers that read let
    stage 2 hand over what it has computed and stage 3 work off the channel and
    everything queued, so that it sleeps with nothing in flight; in the modes without
    durable acknowledgements every request that stage 2 has served is then answered.
    Each round of the loop moves operations towards their completion, or uses up a
    spin of the budget; the replies of a round are delivered before the next. *)

From S2P Require Import Prelude Wire Db WalFormat Snapshot Recovery Types Acker Stage1 Stage2.
From S2P Require Import FsyncPlanner IoWork Stage3 Kernel Durability NoLoss Pipeline System Threads Server Accounts.
From S2P Require Import Backpressure Live Safety Progress.
Local Open Scope Z_scope.

Module drain.
Import types acker fsync_planner io_work stage3 kernel kernel_laws durability noloss system threads accounts backpressure live safety progress.

(** ** A kernel that completes what it holds *)

Definition result_of (o : KOp) : Z :=
  match snap o, sq_op (k_sqe o) with None, SqWrite _ buf _ => len buf | _, _ => 0 end.
Definition completion (o : KOp) : Cqe := mk_cqe (user_data (k_sqe o)) (result_of o).

Lemma complete_all (R : Z -> Z -> Prop) k :
  (forall n, 0 <= n -> R n n) ->
  exists pg dk, rtc (doc_step R) k (mk_kernel [] pg dk (cq k ++ (completion <$> ops k))).
Proof.
  intros HR. destruct k as [o pg dk q]. simpl. revert pg dk q. induction o as [|[e sn] o IH]; intros pg dk q.
  { exists pg, dk. by rewrite app_nil_r. }
  assert (forall sn, can_run [] (mk_kop e sn)) as Hrun by (by split).
  assert (exists pg1 dk1, rtc (doc_step R) (mk_kernel (mk_kop e sn :: o) pg dk q)
    (mk_kernel o pg1 dk1 (q ++ [completion (mk_kop e sn)]))) as (pg1 & dk1 & R1).
  { unfold completion, result_of. simpl. destruct sn as [m|].
    - exists pg, (m ∪ dk). apply rtc_once. by apply (doc_fsync_done R [] e m o 0).
    - destruct (sq_op e) as [fd buf off|fd ds|p] eqn:Eo.
      + eexists _, _. apply rtc_once. by eapply (doc_write_done R [] e fd buf off o (len buf)); [| |lia|apply HR; lia].
      + exists pg, (pg ∪ dk). eapply rtc_l; [by eapply (doc_fsync_start R [] e fd ds o)|].
        apply rtc_once. by apply (doc_fsync_done R [] e pg o 0).
      + exists pg, dk. apply rtc_once. by apply (doc_unlink_done R [] e p o 0). }
  destruct (IH pg1 dk1 (q ++ [completion (mk_kop e sn)])) as (pg2 & dk2 & R2). exists pg2, dk2.
  rewrite fmap_cons. rewrite <- app_assoc in R2. by etransitivity.
Qed.

(** ** What is in flight is on its way *)

(** The key of an operation in flight is in the submission queue, in the kernel
    or among the completions. *)
Definition covered (s : St) : Prop := forall key, is_Some (fl s !! key) -> key ∈ keys s.

Lemma covered_reap p p' f q op pg dk c cq a a' d d' l :
  covered (mk_st p f q (mk_kernel op pg dk (c :: cq)) a d l) ->
  covered (mk_st p' (delete (cq_user_data c) f) q (mk_kernel op pg dk cq) a' d' l).
Proof.
  unfold covered, keys. simpl. intros C key [Hne Hk]%lookup_delete_is_Some. specialize (C key Hk).
  rewrite !elem_of_app, elem_of_cons in C. rewrite !elem_of_app. destruct C as [?|[?|[->|?]]]; tauto.
Qed.

Lemma covered_astep base s s' : astep base s s' -> covered s -> covered s'.
Proof.
  intros Hs C key Hk.
  destruct Hs as [p f q k a c l b Hb|p f q k a c l t|w p f q k a c l key' fd e Hn He|p f q k a c l n
    |p f q op pg dk cqe cq a c l o b' more Hf Hr Hd Hb Hm|p f q op pg dk cqe cq a c l o Hf H1 H2
    |p f q op pg dk cqe cq a c l t Hf Hr|p f q op pg dk cqe cq a c l path Hf]; simpl in *.
  1,2: by apply C.
  - unfold keys. simpl. rewrite fmap_app. destruct (decide (key = key')) as [->|Hne].
    + assert (user_data e = key') as <-.
      { destruct w; simpl in He; [|by injection He as <-..]. by apply bind_Done in He as (? & _ & [= <-]). }
      simpl. rewrite !elem_of_app. left. right. by left.
    + rewrite lookup_insert_ne in Hk by done. specialize (C key Hk). unfold keys in C. simpl in C.
      rewrite !elem_of_app in *. tauto.
  - specialize (C key Hk). unfold keys in *. simpl in *. rewrite <- (take_drop n q) in C.
    rewrite fmap_app, <- list_fmap_compose.
    rewrite !fmap_app, !elem_of_app in *. unfold compose. simpl. tauto.
  - revert key Hk. by eapply covered_reap.
  - revert key Hk. by eapply covered_reap.
  - revert key Hk. by eapply covered_reap.
  - revert key Hk. by eapply covered_reap.
Qed.

(** The kernel's steps keep the keys it holds. *)
Definition kernel_keys (k : Kernel) : list N := ((fun o => user_data (k_sqe o)) <$> ops k) ++ (cq_user_data <$> cq k).

Lemma kernel_keys_step R k k' : doc_step R k k' -> kernel_keys k' ≡ₚ kernel_keys k.
Proof.
  intros Hs. destruct Hs; unfold kernel_keys; simpl; rewrite ?fmap_app, ?fmap_cons; simpl; try done; solve_Permutation.
Qed.

Lemma covered_wsteps {L} `{SlabLaws L} {K} `{Uring K} {R} `{!UringLaws K R} base (w w' : World L K) :
  rtc wstep w w' -> world_wf base w -> inv base (own_bytes base) (abs w) -> covered (abs w) -> covered (abs w').
Proof.
  induction 1 as [|w1 w2 w3 Hs _ IH]; [done|]. intros W I C.
  destruct (worlds_wf R base w1 w2 (rtc_once _ _ Hs) W I) as [W2 I2]. apply IH; [done..|].
  destruct (wstep_sim base (own_bytes base) (own_laws base) w1 w2 Hs W I) as [_ [Ha|(k & Hk & E)]].
  - clear -C Ha. induction Ha as [s|s1 s2 s3 Hs _ IH]; [done|]. apply IH. by eapply covered_astep.
  - rewrite E. intros key Hx. specialize (C key Hx). unfold keys in *. simpl in *.
    apply kernel_keys_step in Hk. unfold kernel_keys in Hk. rewrite elem_of_app in *. by rewrite Hk.
Qed.

(** ** One turn of the loop *)

Section turn.
Context {L : Type} `{SlabLaws L}.
Implicit Types e : WalEngine L.

(** A completion that ends its operation. *)
Definition ending (v : Verdict) : Prop := match v with VOk _ | VDurable => True | _ => False end.
Definition clean e (c : Cqe) : Prop :=
  exists w, slab_view (inflight e) !! cq_user_data c = Some w /\ ending (complete w (cq_result c)).

(** What decides when the loop submits, and what waits to be submitted. *)
Definition same_work e e' : Prop :=
  pending e' = pending e /\ ring e' = ring e /\ spin_budget e' = spin_budget e /\
  dirty_bytes (planner e') = dirty_bytes (planner e) /\ depth e' = depth e.
#[local] Instance same_work_preorder : PreOrder same_work.
Proof. split; [by intros e|]. intros e1 e2 e3 (?&?&?&?&?) (?&?&?&?&?). split_and!; congruence. Qed.

Lemma release_awaiting_work e e' :
  release_awaiting e = Done e' -> same_work e e' /\ slab_view (inflight e') = slab_view (inflight e).
Proof.
  unfold release_awaiting. generalize (awaiting_fsync e). intros bs Hr.
  cut (same_work (set_awaiting e []) e' /\ inflight e' = inflight (set_awaiting e [])); [by intros [? ->]|].
  revert Hr. generalize (set_awaiting e []). induction bs as [|b bs IH]; intros e1; cbn [fold_outcome]; [by intros [= ->]|].
  unfold release_one at 1. intros (e2 & ([s b'] & _ & [= <-])%bind_Done & Hr)%bind_Done.
  destruct (IH _ Hr) as [Hw ->]. split; [|done]. by etransitivity; [|exact Hw].
Qed.

Lemma reap_clean_one e c e' :
  reap_one e c = Done e' -> clean e c ->
  same_work e e' /\ slab_view (inflight e') = delete (cq_user_data c) (slab_view (inflight e)).
Proof.
  unfold reap_one. intros ([w l] & Hl & Hr)%bind_Done (w' & Hw & Hv).
  destruct (slab_remove_Some _ _ _ Hw) as (l' & E & Hd). rewrite E in Hl. injection Hl as -> ->.
  destruct (complete w (cq_result c)) as [[b|]|w'| |]; try done.
  - apply bind_Done in Hr as ([s b'] & _ & Hr). by destruct (is_settled _ _); injection Hr as <-.
  - by injection Hr as <-.
  - apply bind_Done in Hr as (e1 & Hr & [= <-]). apply release_awaiting_work in Hr as [Hw1 E1].
    split; [|by rewrite <- Hd]. transitivity (set_inflight e l); [done|]. by etransitivity; [exact Hw1|].
Qed.

Lemma reap_clean e cs e' :
  reap_cqes e cs = Done e' -> NoDup (cq_user_data <$> cs) -> Forall (clean e) cs -> same_work e e'.
Proof.
  unfold reap_cqes. revert e. induction cs as [|c cs IH]; intros e; cbn [fold_outcome]; [by intros [= ->]|].
  rewrite fmap_cons. intros (e1 & E1 & Hr)%bind_Done [Hnin Hnd]%NoDup_cons [Hc Hcs]%Forall_cons.
  destruct (reap_clean_one _ _ _ E1 Hc) as [Hw Hi]. etransitivity; [exact Hw|]. apply (IH _ Hr Hnd).
  apply Forall_forall. intros c' Hc'. rewrite Forall_forall in Hcs. destruct (Hcs c' Hc') as (w & Hx & Hv).
  exists w. split; [|done]. rewrite Hi, lookup_delete_ne; [done|]. intros E. apply Hnin. rewrite E.
  by apply list_elem_of_fmap_2.
Qed.

(** Operations count until they complete, and dirty bytes as the fsync to come. *)
Definition to_sync e : nat := if dirty_bytes (planner e) =? 0 then 0 else 4.
Definition load e : nat := 3 * length (pending e) + 2 * length (sq (ring e)) + to_sync e.

Lemma plan_fsync_load e :
  (load (plan_fsync e) < load e)%nat \/ pending (plan_fsync e) = pending e /\ load (plan_fsync e) = load e.
Proof.
  unfold plan_fsync, load, to_sync. destruct (should_fsync_cases (planner e)) as [(E & Hz & _)|(E & _)]; rewrite E; [left|by right].
  simpl. rewrite length_app. simpl. destruct (dirty_bytes (planner e) =? 0) eqn:Ez; lia.
Qed.
Lemma plan_fsync_frame e :
  inflight (plan_fsync e) = inflight e /\ ring (plan_fsync e) = ring e /\ spin_budget (plan_fsync e) = spin_budget e /\
  depth (plan_fsync e) = depth e.
Proof. unfold plan_fsync. by destruct (should_fsync _) as [[|] q]. Qed.

Lemma pushed_length fd l ws es l' : pushed fd l ws es l' -> length ws = length es /\ (ws = [] -> l' = l).
Proof. induction 1 as [|l w ws e es l' _ _ [IH _]]; [done|]. simpl. by rewrite IH. Qed.

(** Every turn lightens the load, unless there is nothing to submit, or the
    budget of spins is not used up. *)
Lemma turn_load e cs m e' :
  engine_wf e -> turn e cs (Submitted m) = Done e' -> NoDup (cq_user_data <$> cs) -> Forall (clean e) cs ->
  (length (pending (plan_fsync e)) + length (sq (ring e)) <= m)%nat ->
  spin_budget e' = spin_budget e /\
  ((load e' + length (entered e e') < load e)%nat \/
   load e' = load e /\ entered e e' = [] /\
   (pending e = [] \/ sq_entries (ring e) <= len (sq (ring e)) \/ depth e <= slab_len (inflight e)) /\
   (sq (ring e) = [] \/ out_of_spins e = false \/ cs <> [] \/ slab_view (inflight e) = ∅)).
Proof.
  intros Hwf Ht Hnd Hc Hm. destruct (plan_fsync_frame e) as (F1 & F2 & F3 & F4).
  destruct (plan_fsync_wf e Hwf) as [Hwf1 _].
  destruct (handle_pending_ok _ Hwf1) as (moved & new & pend' & infl' & need & E & Ep & Hpu & Hstop & _ & _).
  unfold turn in Ht. cbv zeta in E. rewrite E in Ht. apply bind_Done in Ht as ([need1 e1] & [= <- <-] & Ht).
  clear E. apply bind_Done in Ht as (e2 & E2 & Ht). rewrite F1, F2, F4 in *.
  destruct (pushed_length _ _ _ _ _ Hpu) as [Hlen Hnil].
  destruct (reap_clean _ _ _ E2 Hnd) as (W1 & W2 & W3 & W4 & W5); [|].
  { apply Forall_forall. intros c Hin. rewrite Forall_forall in Hc. destruct (Hc c Hin) as (w & Hw & Hv).
    exists w. split; [|done]. simpl. by eapply pushed_lookup. }
  simpl in W1, W2, W3, W4, W5. rewrite F3 in W3.
  assert (length (pending (plan_fsync e)) = length moved + length pend')%nat as Hlp by (by rewrite Ep, length_app).
  pose proof (plan_fsync_load e) as Hpl. unfold load in Hpl. rewrite F2, Ep in Hpl. rewrite length_app in Hpl.
  assert (to_sync e2 = to_sync (plan_fsync e)) as Es by (unfold to_sync; by rewrite W4).
  assert (e' = submit_n e2 m \/ e' = e2 /\ (out_of_spins e2 && negb (inflight_len e2 =? 0)) = false) as Hsub.
  { destruct (_ && _) eqn:Es1; [left; simpl in Ht; congruence|].
    simpl orb in Ht. destruct (ring_is_full e2); [left; simpl in Ht; congruence|].
    destruct need; [left; simpl in Ht; congruence|]. right. by injection Ht as <-. }
  clear Ht. destruct Hsub as [->|[-> Hspin]].
  - split; [done|].
    assert (drop m (sq (ring e2)) = [] /\ take m (sq (ring e2)) = sq (ring e) ++ new) as [Hd Hk].
    { rewrite W2. simpl. assert (length (sq (ring e) ++ new) <= m)%nat by (rewrite length_app; lia).
      split; [by apply drop_ge|by apply take_ge]. }
    assert (entered e (submit_n e2 m) = sq (ring e) ++ new) as ->.
    { unfold entered, submit_n. simpl. rewrite Hk, W2. simpl. by rewrite drop_app_length. }
    assert (load (submit_n e2 m) = 3 * length pend' + to_sync (plan_fsync e))%nat as ->.
    { unfold load. simpl. rewrite Hd, W1. simpl. change (to_sync (submit_n e2 m)) with (to_sync e2). lia. }
    unfold load. rewrite length_app.
    destruct (decide (length moved = 0 /\ length (sq (ring e)) = 0)%nat) as [[Z1 Z2]|]; [|left; lia].
    apply nil_length_inv in Z1, Z2. subst moved. simpl in Hlen. symmetry in Hlen. apply nil_length_inv in Hlen. subst new.
    rewrite Z2 in *. simpl in *. destruct Hpl as [Hpl|[E Hpl]]; [left; lia|]. right. split; [lia|]. split; [done|].
    rewrite Hnil in Hstop by done. rewrite <- E. split; [|by left]. exact Hstop.
  - split; [done|].
    assert (entered e e2 = []) as -> by (unfold entered; rewrite W2; simpl; by rewrite drop_all).
    assert (load e2 = 3 * length pend' + 2 * (length (sq (ring e)) + length new) + to_sync (plan_fsync e))%nat as ->.
    { unfold load. rewrite W1, W2, Es. simpl. by rewrite length_app. }
    unfold load. simpl. destruct (decide (length moved = 0)%nat) as [Z1|]; [|left; lia].
    apply nil_length_inv in Z1. subst moved. simpl in Hlen. symmetry in Hlen. apply nil_length_inv in Hlen. subst new.
    simpl in *. rewrite app_nil_r in *. destruct Hpl as [Hpl|[E Hpl]]; [left; lia|]. right. split; [lia|]. split; [done|].
    rewrite Hnil in * by done. rewrite <- E. split; [exact Hstop|].
    destruct cs as [|c cs]; [|by do 2 right; left]. injection E2 as <-. right.
    unfold out_of_spins, inflight_len in Hspin. simpl in Hspin. rewrite F3 in Hspin.
    apply andb_false_iff in Hspin as [Hx|Hx]; [by left|]. apply negb_false_iff, Z.eqb_eq in Hx.
    rewrite slab_len_view in Hx. do 2 right. apply map_size_empty_inv. lia.
Qed.

End turn.

(** The sizes of the window and of the submission queue are fixed. *)
Section window.
Context {L : Type} `{SlabLaws L} {K : Type} `{Uring K}.
Implicit Types e : WalEngine L.

Definition same_window e e' : Prop := depth e' = depth e /\ sq_entries (ring e') = sq_entries (ring e).
#[local] Instance same_window_preorder : PreOrder same_window.
Proof. split; [by intros e|]. intros e1 e2 e3 [??] [??]. split; congruence. Qed.

Lemma reap_one_window e c e' : reap_one e c = Done e' -> same_window e e'.
Proof.
  unfold reap_one. intros ([w l] & _ & Hr)%bind_Done.
  destruct (complete w (cq_result c)) as [[b|]|w'| |]; try done.
  - apply bind_Done in Hr as ([s b'] & _ & Hr). by destruct (is_settled _ _); injection Hr as <-.
  - by injection Hr as <-.
  - by injection Hr as <-.
  - apply bind_Done in Hr as (e1 & Hr & [= <-]). apply release_awaiting_work in Hr as [(_ & W2 & _ & _ & W5) _].
    split; simpl in *; congruence.
Qed.

Lemma wsteps_window (w w' : World L K) : rtc wstep w w' -> same_window (eng w) (eng w').
Proof.
  induction 1 as [|w1 w2 w3 Hs _ IH]; [done|]. transitivity (eng w2); [|done]. clear IH.
  destruct Hs as [e k l b e' Hb He|e k l|e k l n e' He|e k l n|e k l n e' He|e k l n|e k k' l Hk]; simpl; try done.
  - rewrite handle_batch_ok in He by done. by injection He as <-.
  - destruct (plan_fsync_frame e) as (_ & F2 & _ & F4). by split; rewrite ?F2, ?F4.
  - revert He. unfold handle_pending. destruct (pending e); [by intros [= <- <-]|].
    by intros ([pi q] & _ & [= <- <-])%bind_Done.
  - by apply (fold_outcome_rel _ _ reap_one_window) in He.
Qed.

Lemma turn_log e cs m e' : turn e cs (Submitted m) = Done e' -> same_log e e'.
Proof.
  unfold turn. intros ([need e1] & E1%handle_pending_log & (e2 & E2%reap_cqes_log & Ht)%bind_Done)%bind_Done.
  transitivity (plan_fsync e); [apply plan_fsync_log|]. etransitivity; [exact E1|]. etransitivity; [exact E2|].
  destruct (_ || _); [by injection Ht as <-|]. by destruct need; injection Ht as <-.
Qed.

End window.

(** ** A round: the kernel completes everything, and stage 3 makes a turn *)

Section drain.
Context {S : Type} `{KvLaws S} {L : Type} `{SlabLaws L}.
Context (R : Z -> Z -> Prop) (complete_results : forall n, 0 <= n -> R n n).
Variable ack : Acker.
Implicit Types y : Sys S L (doc_kernel R).

(** What the kernel completes so is the end of its operation. *)
Lemma completions_clean base l (e : WalEngine L) (k : doc_kernel R) :
  inv base (own_bytes base) (abs (mk_world e k l)) -> short l -> Forall (clean e) (completion <$> ops k).
Proof.
  intros I Hu. apply Forall_fmap, Forall_forall. intros o Ho.
  destruct (i_sqe _ _ _ I (k_sqe o)) as (w & fd & Hw & He).
  { simpl. apply elem_of_app. right. by apply list_elem_of_fmap_2. }
  exists w. split; [done|]. cbn [completion cq_result]. unfold result_of.
  assert (forall m, snap o = Some m -> sq_drain (k_sqe o) = true) as Hd
    by (intros m Hm; by destruct (i_run _ _ _ I o m Ho Hm) as (_ & ? & _)).
  destruct w as [x|t|p]; [|injection He as <-; by destruct (snap o)|done].
  destruct (i_fl _ _ _ I _ _ Hw) as (Hx & (i & (b & Hb & Hb1 & _) & _) & _).
  assert (u32 (len (out (io_work.data x)))) as Hlen.
  { rewrite Hb1. unfold short in Hu. rewrite Forall_forall in Hu. apply (Hu b). by eapply list_elem_of_lookup_2. }
  rewrite sqe_write in He by done. injection He as He. rewrite <- He in Hd |- *.
  destruct (snap o) as [m|]; [by specialize (Hd m eq_refl)|]. cbn [sq_op].
  pose proof (wo_done _ Hx) as Hdn. unfold u32 in Hlen.
  set (r := len _). assert (r = len (out (io_work.data x)) - done x) as Er.
  { unfold r, as_u32. rewrite Z.mod_small by lia. len_lia. }
  destruct (complete_write_cases x r Hx ltac:(lia)) as [[_ Hc]|[[_ Hc]|[Hc|(_ & _ & ->)]]]; [..|done];
    unfold EINTR, EAGAIN in *; lia.
Qed.

Lemma clean_not_fatal (e : WalEngine L) c : clean e c -> fatal e c = false.
Proof. intros (w & Hw & Hv). unfold fatal. rewrite Hw. by destruct (complete w _). Qed.

(** The segment has room for what is in the channel, and the writes are not too long for io_uring. *)
Fixpoint room_for (off : Z) (c : list WalMsg) : Prop :=
  match c with
  | Write b :: c =>
      let n := len (redo_bytes (lsn_low b) (items b)) in u64 (off + n) /\ u32 n /\ room_for (off + n) c
  | _ :: c => room_for off c
  | [] => True
  end.

Record sturdy y : Prop := {
  st_wf : well_formed y;
  st_covered : covered (abs (s3 y));
  st_depth : 0 < depth (eng (s3 y));
  st_entries : 0 < sq_entries (ring (eng (s3 y)));
  st_short : short (ingested (s3 y));
  st_room : room_for (segment.offset (seg (eng (s3 y)))) (chan y);
}.

Definition weight y : nat := load (eng (s3 y)) + length (ops (uring (s3 y) : Kernel)).
Definition spins_left y : nat := Z.to_nat (dec32 (spin_budget (eng (s3 y)))).
Definition lighter y' y : Prop :=
  (weight y' < weight y)%nat \/ weight y' = weight y /\ (spins_left y' < spins_left y)%nat.

Lemma sturdy_step y y' :
  sturdy y -> loop_step ack y y' -> short (ingested (s3 y')) ->
  room_for (segment.offset (seg (eng (s3 y')))) (chan y') -> sturdy y'.
Proof.
  intros [(m0 & l0 & base & I & W & J) C D E _ _] Hl Hu Hroom.
  pose proof (loop_step_inv ack m0 l0 y y' I Hl) as Hr. destruct (inv_steps ack m0 l0 y y' I Hr) as [I' Hw].
  destruct (wsteps_window _ _ Hw) as [E1 E2]. split; [|by eapply covered_wsteps|by rewrite E1|by rewrite E2|done|done].
  by eapply (step_wf R ack y); [exists m0, l0, base|].
Qed.

(** Stage 3 in a round: it finds every completion, and submits the whole queue. *)
Definition round_input y (k1 : Kernel) (m : nat) : stage3.Input :=
  mk_input (arriving (chan y)) [] 0 (fun _ => Panic) (fun _ => Panic) Panic (cq k1) (Submitted m).
Definition after_round y (k1 : doc_kernel R) (e' : WalEngine L) : Sys S L (doc_kernel R) :=
  mk_sys (s2 y) (tail (chan y))
    (mk_world e' (after_turn k1 (length (cq k1)) (entered (eng (s3 y)) e')) (ingested (s3 y) ++ taken (chan y)))
    (served y) (pool y ++ returned (eng (s3 y)) e') (replied y).

Lemma round_ingestable y b c :
  well_formed y -> chan y = Write b :: c ->
  u64 (segment.offset (seg (eng (s3 y))) + len (redo_bytes (lsn_low b) (items b))) -> ingestable (eng (s3 y)) b.
Proof. intros (m0 & l0 & base & I & _) Hc Hu. by eapply head_ingestable. Qed.

Lemma chan_writes y x c : well_formed y -> chan y = x :: c -> exists b, x = Write b.
Proof.
  intros (m0 & l0 & base & I & _) Hc. pose proof (si_tiles _ _ _ I) as Ht. rewrite Hc in Ht.
  destruct x as [b| |]; [by exists b|done..].
Qed.

Lemma round_step y (k1 : doc_kernel R) m :
  sturdy y -> rtc ku_step (uring (s3 y)) k1 -> existsb (fatal (eng (s3 y))) (cq k1) = false ->
  chan y <> [] \/ should_park (eng (s3 y)) = false ->
  exists e', iteration (eng (s3 y)) (round_input y k1 m) = Done (true, e') /\ loop_step ack y (after_round y k1 e').
Proof.
  intros St Hk Hf Hgo. pose proof (st_wf _ St) as Wf. pose proof (st_room _ St) as Hroom.
  assert (has_room y) as Hr by (unfold has_room; destruct (chan y) as [|[b| |] c]; [done| |done..]; by destruct Hroom).
  assert (cq k1 = take (length (cq k1)) (cq k1)) as Ht by (by rewrite firstn_all).
  pose proof (stage3_returns R y (round_input y k1 m) k1 (length (cq k1)) Wf Hr eq_refl Hk Ht) as Hd.
  cbv zeta in Hd. cbn [in_cqes in_submit round_input] in Hd. rewrite Hf, fails_submitted in Hd. destruct Hd as [[g e'] Hd].
  assert (g = true) as ->.
  { clear -Hd Hgo Wf. unfold iteration in Hd. cbn [in_recv round_input] in Hd. destruct (chan y) as [|x c] eqn:Ec.
    - cbn [arriving poll_channel_or_park] in Hd. destruct Hgo as [?|Hp]; [done|]. rewrite Hp in Hd.
      revert Hd. ostep. by intros (e2 & _ & [= <- _])%bind_Done.
    - destruct (chan_writes y x c Wf Ec) as [b ->]. cbn [arriving poll_channel_or_park handle_msg] in Hd.
      revert Hd. ostep. intros ([g1 e1] & (e2 & _ & [= <- <-])%bind_Done & Hd)%bind_Done. cbn [negb] in Hd.
      by apply bind_Done in Hd as (e3 & _ & [= <- _]). }
  exists e'. split; [done|]. by apply (l_stage3 ack y (round_input y k1 m) k1 (length (cq k1)) m e').
Qed.

(** What is left in the channel has its room. *)
Lemma round_room y (k1 : doc_kernel R) m e' :
  sturdy y -> iteration (eng (s3 y)) (round_input y k1 m) = Done (true, e') ->
  room_for (segment.offset (seg e')) (tail (chan y)) /\ short (ingested (s3 y) ++ taken (chan y)).
Proof.
  intros [Wf _ _ _ Hu Hroom] Hi. unfold iteration in Hi. cbn [in_recv round_input] in Hi.
  destruct (chan y) as [|x c] eqn:Ec; [simpl; split; [done|by rewrite app_nil_r]|].
  destruct (chan_writes y x c Wf Ec) as [b ->]. cbn [arriving poll_channel_or_park handle_msg] in Hi.
  revert Hi. ostep. intros ([g1 e1] & (e2 & E2 & [= <- <-])%bind_Done & Hd)%bind_Done. cbn [negb] in Hd.
  apply bind_Done in Hd as (e3 & E3 & [= <-]). destruct Hroom as (R1 & R2 & R3).
  rewrite handle_batch_ok in E2 by (by eapply round_ingestable). injection E2 as <-.
  apply turn_log in E3 as (_ & -> & _). split; [done|]. apply Forall_app. split; [done|]. constructor; [exact R2|constructor].
Qed.

(** With nothing in the channel the work that is left becomes less. *)
Lemma round_lighter y (k1 : doc_kernel R) e' :
  sturdy y -> chan y = [] -> cq (uring (s3 y) : Kernel) = [] -> should_park (eng (s3 y)) = false ->
  ops k1 = [] -> cq k1 = completion <$> ops (uring (s3 y) : Kernel) ->
  let m := (length (pending (plan_fsync (set_spin (eng (s3 y)) (dec32 (spin_budget (eng (s3 y))))))) +
            length (sq (ring (eng (s3 y)))))%nat in
  iteration (eng (s3 y)) (round_input y k1 m) = Done (true, e') -> lighter (after_round y k1 e') y.
Proof.
  intros [(m0 & l0 & base & I & [Hwf _] & J) C Hdep Hent Hu _] Hc Hq Hp Ho Hk1 m Hi.
  unfold iteration in Hi. cbn [in_recv round_input in_cqes in_submit] in Hi. rewrite Hc in Hi.
  cbn [arriving poll_channel_or_park] in Hi. rewrite Hp in Hi. revert Hi. ostep. intros (e2 & E2 & [= <-])%bind_Done.
  destruct y as [a c [e k l] sv p r]. simpl in *. subst c.
  set (e1 := set_spin e (dec32 (spin_budget e))) in *.
  assert (Forall (clean e1) (cq k1)) as Hcl by (rewrite Hk1; by apply (completions_clean base l e)).
  assert (NoDup (cq_user_data <$> cq k1)) as Hnd.
  { rewrite Hk1, <- list_fmap_compose. pose proof (i_keys _ _ _ J) as Hn. unfold keys in Hn. simpl in Hn.
    apply NoDup_app in Hn as (_ & _ & Hn). by apply NoDup_app in Hn as (Hn & _ & _). }
  assert (engine_wf e1) as Hwf1 by (destruct Hwf; by split).
  destruct (turn_load e1 (cq k1) m e2 Hwf1 E2 Hnd Hcl) as [Hs Hload]; [done|].
  assert (weight (after_round (mk_sys a [] (mk_world e k l) sv p r) k1 e2) = load e2 + length (entered e e2))%nat as Hw.
  { unfold weight, after_round, after_turn. simpl. f_equal. destruct (entered e e2); simpl; rewrite Ho; [done|].
    simpl. by rewrite length_fmap. }
  unfold lighter. rewrite Hw. unfold weight, spins_left. simpl. change (load e1) with (load e) in Hload.
  change (entered e1 e2) with (entered e e2) in Hload.
  destruct Hload as [Hlt|(Hl & He & Hstop & Hspin)]; [left; lia|]. rewrite He, Hl. simpl.
  destruct (ops k) as [|o os] eqn:Eo; [right|left; simpl; lia]. split; [done|].
  rewrite Hs. simpl in *. rewrite Hk1 in Hspin. simpl in Hspin.
  assert (slab_view (inflight e) <> ∅ -> sq (ring e) <> []) as Hsq.
  { intros Hne Hz. apply Hne, map_empty. intros key. destruct (_ !! key) as [w|] eqn:Ew; [|done].
    specialize (C key (mk_is_Some _ _ Ew)). unfold keys in C. simpl in C. rewrite Hz, Eo, Hq in C. simpl in C. set_solver. }
  assert (slab_view (inflight e) <> ∅) as Hne.
  { intros Hz. assert (slab_len (inflight e) = 0) as Hz2 by (by rewrite slab_len_view, Hz, map_size_empty).
    assert (sq (ring e) = []) as Hz3.
    { destruct (sq (ring e)) as [|x q] eqn:Esq; [done|]. destruct (i_sqe _ _ _ J x) as (w & fd & Hx & _).
      - simpl. rewrite Esq. by left.
      - simpl in Hx. by rewrite Hz in Hx. }
    rewrite Hz2, Hz3 in Hstop. simpl in Hstop. destruct Hstop as [Hx|[?|?]]; [|lia..].
    unfold should_park, inflight_len in Hp. by rewrite Hx, Hz2 in Hp. }
  destruct Hspin as [?|[Hx|[?|?]]]; [by destruct (Hsq Hne)| |done..].
  unfold out_of_spins in Hx. unfold e1 in Hx. simpl in Hx. apply Z.leb_gt in Hx.
  set (s := dec32 (spin_budget e)) in *. assert (s < 2 ^ 31) as Hs2.
  { unfold s, dec32. pose proof (Z.mod_pos_bound (spin_budget e - 1 + 2 ^ 31) (2 ^ 32)). lia. }
  assert (dec32 s = s - 1) as ->; [|lia]. unfold dec32. rewrite Z.mod_small; lia.
Qed.

Lemma round y :
  sturdy y -> existsb (fatal (eng (s3 y))) (cq (uring (s3 y) : Kernel)) = false ->
  chan y <> [] \/ should_park (eng (s3 y)) = false ->
  exists y', loop_step ack y y' /\ sturdy y' /\ cq (uring (s3 y') : Kernel) = [] /\ chan y' = tail (chan y) /\
    s2 y' = s2 y /\ served y' = served y /\ (chan y = [] -> cq (uring (s3 y) : Kernel) = [] -> lighter y' y).
Proof.
  intros St Hf Hgo. destruct (complete_all R (uring (s3 y) : Kernel) complete_results) as (pg & dk & Hk).
  set (k := uring (s3 y) : Kernel) in *. set (k1 := mk_kernel [] pg dk (cq k ++ (completion <$> ops k)) : doc_kernel R) in *.
  assert (existsb (fatal (eng (s3 y))) (cq k1) = false) as Hf1.
  { destruct St as [(m0 & l0 & base & _ & _ & J) _ _ _ Hu _]. simpl. rewrite existsb_app, Hf. simpl.
    pose proof (completions_clean base (ingested (s3 y)) (eng (s3 y)) k) as Hc.
    apply not_true_iff_false. rewrite existsb_exists. intros (c & Hin%list_elem_of_In & Hx).
    specialize (Hc ltac:(by destruct (s3 y)) Hu). rewrite Forall_forall in Hc.
    by rewrite (clean_not_fatal _ c (Hc c Hin)) in Hx. }
  set (m := (length (pending (plan_fsync (set_spin (eng (s3 y)) (dec32 (spin_budget (eng (s3 y))))))) +
             length (sq (ring (eng (s3 y)))))%nat).
  destruct (round_step y k1 m St Hk Hf1 Hgo) as (e' & Hi & Hl). destruct (round_room y k1 m e' St Hi) as [Hr Hu].
  exists (after_round y k1 e'). split; [done|]. split; [by apply (sturdy_step y)|]. split; [|split_and!; try done].
  - unfold after_round, after_turn. cbn [s3 uring].
    destruct (entered _ _); simpl; apply drop_ge; done.
  - intros Hc Hq. destruct Hgo as [?|Hp]; [done|]. apply round_lighter; [done|done|done|done|done| |exact Hi].
    simpl. unfold k in *. by rewrite Hq.
Qed.

(** Every such round taken, the work comes to its end. *)
Definition drained y y' : Prop :=
  rtc (loop_step ack) y y' /\ chan y' = [] /\ should_park (eng (s3 y')) = true /\ s2 y' = s2 y /\ served y' = served y.

Lemma drained_step y y1 y' :
  loop_step ack y y1 -> s2 y1 = s2 y -> served y1 = served y -> drained y1 y' -> drained y y'.
Proof. intros Hl E1 E2 (D1 & D2 & D3 & D4 & D5). split_and!; [by eapply rtc_l|done|done|congruence|congruence]. Qed.

Lemma drain_quiet y : sturdy y -> chan y = [] -> cq (uring (s3 y) : Kernel) = [] -> exists y', drained y y'.
Proof.
  remember (weight y) as w eqn:Ew. revert y Ew. induction (lt_wf w) as [w _ IHw]. intros y ->.
  remember (spins_left y) as n eqn:En. revert y En IHw. induction (lt_wf n) as [n _ IHn]. intros y -> IHw St Hc Hq.
  destruct (should_park (eng (s3 y))) eqn:Hp; [by exists y|].
  destruct (round y St) as (y1 & Hl & St1 & Hq1 & Hc1 & E1 & E2 & Hlt); [by rewrite Hq|by right|].
  rewrite Hc in Hc1. destruct (Hlt Hc Hq) as [Hlt1|[Ew Hlt1]].
  - destruct (IHw _ Hlt1 y1 eq_refl St1 Hc1 Hq1) as (y' & D). exists y'. by eapply drained_step.
  - destruct (IHn _ Hlt1 y1 eq_refl) as (y' & D); [by rewrite Ew|done..|]. exists y'. by eapply drained_step.
Qed.

Lemma drain y :
  sturdy y -> existsb (fatal (eng (s3 y))) (cq (uring (s3 y) : Kernel)) = false -> exists y', drained y y'.
Proof.
  remember (chan y) as c eqn:Ec. revert y Ec. induction c as [|x c IH]; intros y Ec St Hf.
  - destruct (should_park (eng (s3 y))) eqn:Hp; [by exists y|].
    destruct (round y St Hf) as (y1 & Hl & St1 & Hq1 & Hc1 & E1 & E2 & _); [by right|].
    destruct (drain_quiet y1 St1) as (y' & D); [by rewrite Hc1, <- Ec|done|]. exists y'. by eapply drained_step.
  - destruct (round y St Hf) as (y1 & Hl & St1 & Hq1 & Hc1 & E1 & E2 & _); [left; by rewrite <- Ec|].
    destruct (IH y1) as (y' & D); [by rewrite Hc1, <- Ec|done|by rewrite Hq1|]. exists y'. by eapply drained_step.
Qed.

Lemma sturdy_reachable y0 y :
  start y0 -> rtc (loop_step ack) y0 y -> 0 < depth (eng (s3 y0)) -> 0 < sq_entries (ring (eng (s3 y0))) ->
  short (ingested (s3 y)) -> room_for (segment.offset (seg (eng (s3 y)))) (chan y) -> sturdy y.
Proof.
  intros Hs Hr Hd He Hu Hroom. pose proof (loops_system ack y0 y Hs Hr) as Hr1.
  destruct (sys_ok ack y0 y Hs Hr1) as [_ Hw]. destruct (wsteps_window _ _ Hw) as [E1 E2].
  destruct (start_wf y0 Hs) as (m0 & l0 & base & I0 & W0 & J0).
  split; [| |by rewrite E1|by rewrite E2|done|done].
  - destruct (inv_steps ack m0 l0 y0 y I0 Hr1) as [I1 _]. destruct (worlds_wf R base _ _ Hw W0 J0) as [W1 J1].
    by exists m0, l0, base.
  - eapply (covered_wsteps base); [exact Hw|done..|]. intros key Hk. unfold abs in Hk. simpl in Hk.
    rewrite (in_inflight _ (st_world _ Hs)) in Hk. by destruct Hk.
Qed.

End drain.

(** ** Property *)

(** C12: the server can finish its work.  Take any state that the threads, the kernel
    and the clients reach, the threads waiting in [blocking_send] wherever a channel
    is full, in which no completion reports a fatal error and the segment has room
    for the batches on their way.  From there on let the kernel complete what it
    holds and the clients read: then stage 2 can finish the batch it has in hand,
    and stage 3 take every message of the channel and complete every operation,
    until it sleeps in [recv] with nothing pending and nothing in flight, and all
    replies are sent and have reached the peers whose connection did not fail.
    Every request served is then answered, or waits for an fsync, or was an unknown
    operation; when the mode does not wait for fsyncs none waits. *)
Theorem server_can_drain {S} `{KvLaws S} {L} `{SlabLaws L} R ack cap reading closing
    (y0 : Sys S L (doc_kernel R)) (x : Live S L (doc_kernel R)) :
  (forall n, 0 <= n -> R n n) ->
  start y0 -> values_fit (kv_view (stage2.loop_db (s2 y0))) ->
  0 < depth (eng (s3 y0)) -> 0 < sq_entries (ring (eng (s3 y0))) -> 0 < cap ->
  rtc (live_step ack cap reading closing) (running y0) x ->
  existsb (fatal (eng (s3 (sys x)))) (cq (uring (s3 (sys x)) : Kernel)) = false ->
  Forall (fun b => u32 (len (out b))) (ingested (s3 (sys x))) ->
  room_for (segment.offset (seg (eng (s3 (sys x))))) (chan (settled x)) ->
  exists x', rtc (live_step ack cap (fun _ => true) closing) x x' /\
    serving x' = None /\ (forall t, todo (clients x') t = []) /\
    chan (sys x') = [] /\ should_park (eng (s3 (sys x'))) = true /\
    s2 (sys x') = s2 (settled x) /\ served (sys x') = served (settled x) /\
    (forall c, wr (conns (clients x') c) = Gone \/
               received (conns (clients x') c) = frames (to_conn c (log (clients x')))) /\
    exists lost late,
      log (clients x') ++ late ++ lost ≡ₚ answers (kv_view (stage2.loop_db (s2 y0))) (served (sys x')) /\
      unknown_ops lost /\ late = awaiting_fsync (eng (s3 (sys x'))) ≫= unsent /\
      (level (stage3.ack (eng (s3 y0))) <> Durable -> late = []).
Proof.
  intros HR Hs Hv Hd He Hcap Hr Hf Hu Hroom. pose proof (live_inv_rtc R ack cap _ _ y0 x Hs Hv Hr) as I.
  assert (s3 (settled x) = s3 (sys x)) as E3 by (unfold settled; by destruct (serving x)).
  destruct (drain R HR ack (settled x)) as (y' & D1 & D2 & D3 & D4 & D5);
    [eapply sturdy_reachable; try done; [by eapply settled_run|by rewrite E3|by rewrite E3]|by rewrite E3|].
  destruct (drive R ack cap closing y0 Hs Hv Hcap x y' I D1) as (x' & R1 & <- & A & I').
  pose proof (answered_sent _ _ _ _ I' A) as Hsent. destruct A as (A1 & A2 & A3).
  exists x'. do 8 (split; [done|]).
  pose proof (loops_system ack y0 (sys x') Hs (li_run _ _ _ _ I')) as Hr1.
  destruct (books_ok R ack y0 (sys x') Hs Hr1) as [(lost & Hl & Hk & _) _ _ _].
  destruct (parked_held _ D3) as (_ & _ & Hh). exists lost. eexists. split_and!; [|exact Hk|reflexivity|].
  - rewrite Hsent, <- Hl. unfold waiting, owed. by rewrite Hh, D2, app_nil_r.
  - intros Hlv. destruct (sys_ok ack y0 (sys x') Hs Hr1) as [_ Hws].
    destruct (wsteps_calm _ _ Hws Hlv (in_awaiting _ (st_world _ Hs))) as [-> _]. done.
Qed.

(** ** Witness: async mode; a write is in flight and two batches are in the channel *)

Definition ex_main : outcome (Acker * Sys db.Db (gmap N IoWork) (doc_kernel full_result)) :=
  server.main (recovery.ex_dir None []) server.ex_ring_new (fun _ => Done 4) (fun _ => Done 0) (mk_kernel [] ∅ ∅ [])
    (args.mk_args 9000 args.Async (bstr "d")).
Definition ex_moves : list move := [Serve [put_of 0]; Turn []; Serve [put_of 1]; Serve [put_of 2]].

#[local] Instance room_for_dec off c : Decision (room_for off c).
Proof. revert off. induction c as [|[b| |] c IH]; intros off; simpl; apply _. Defined.

Definition ex_test (y0 y : Sys db.Db (gmap N IoWork) (doc_kernel full_result)) : bool :=
  (0 <? depth (eng (s3 y0))) && (0 <? sq_entries (ring (eng (s3 y0)))) &&
  match level (stage3.ack (eng (s3 y0))) with Durable => false | _ => true end &&
  Nat.eqb (length (chan y)) 2 && Nat.eqb (length (waiting y)) 3 && Nat.eqb (length (ops (uring (s3 y) : Kernel))) 1 &&
  is_nil (cq (uring (s3 y) : Kernel)) && forallb (fun b => bool_decide (u32 (len (out b)))) (ingested (s3 y)) &&
  bool_decide (room_for (segment.offset (seg (eng (s3 y)))) (chan y)).

Lemma drain_run :
  match ex_main with
  | Done (ack, y0) =>
      match threads.exec ack full_result full_ok y0 ex_moves with Some y => ex_test y0 y | None => false end
  | _ => false
  end = true.
Proof. vm_compute. reflexivity. Qed.

Lemma server_can_drain_witness :
  exists ack y0 x x', ex_main = Done (ack, y0) /\
    rtc (live_step ack 64 (fun _ => true) (fun _ => false)) (running y0) x /\
    length (chan (sys x)) = 2%nat /\ length (waiting (sys x)) = 3%nat /\
    rtc (live_step ack 64 (fun _ => true) (fun _ => false)) x x' /\
    chan (sys x') = [] /\ should_park (eng (s3 (sys x'))) = true /\
    exists lost, log (clients x') ++ lost ≡ₚ answers (kv_view (stage2.loop_db (s2 y0))) (served (sys x')) /\
      unknown_ops lost.
Proof.
  pose proof drain_run as Ht. destruct ex_main as [[ack y0]| |] eqn:Em; [|done..].
  destruct (threads.exec ack full_result full_ok y0 ex_moves) as [y|] eqn:Ex; [|done].
  unfold ex_test in Ht. rewrite !andb_true_iff, !Nat.eqb_eq, !Z.ltb_lt in Ht.
  destruct Ht as [[[[[[[[T1 T2] T3] T4] T5] T6] T7] T8] T9].
  assert (rtc (loop_step ack) y0 y) as Hr by (eapply exec_moves_ok; [|exact Ex]; exact full_ok_result).
  destruct (server.main_start (recovery.ex_dir None []) server.ex_ring_new (fun _ => Done 4) (fun _ => Done 0)
    (mk_kernel [] ∅ ∅ [] : doc_kernel full_result) (args.mk_args 9000 args.Async (bstr "d")) ack y0 None kv_new [] [])
    as (Hs & _ & Hview & _); [exact Em|exact server.ex_fresh| |reflexivity|done|decide_vm|].
  { split; [reflexivity|reflexivity|apply kv_new_wf|constructor|constructor]. }
  assert (values_fit (kv_view (stage2.loop_db (s2 y0)))) as Hv
    by (rewrite Hview; intros k v Hk; by destruct (lookup_empty_Some (M := gmap bytes) k v Hk)).
  destruct (drive_from_start full_result ack 64 (fun _ => false) y0 Hs Hv eq_refl y Hr) as (x & Rx & Ex1 & Ex2).
  assert (settled x = y) as Es by (unfold settled; rewrite Ex2; exact Ex1).
  destruct (server_can_drain full_result ack 64 (fun _ => true) (fun _ => false) y0 x)
    as (x' & D1 & _ & _ & D2 & D3 & _ & _ & _ & lost & late & D4 & D5 & _ & D6).
  - by intros n _.
  - exact Hs.
  - exact Hv.
  - exact T1.
  - exact T2.
  - reflexivity.
  - exact Rx.
  - rewrite Ex1. apply is_nil_ok in T7. by rewrite T7.
  - rewrite Ex1. apply Forall_forall. intros b Hb. rewrite forallb_forall in T8.
    eapply bool_decide_eq_true, T8. by apply list_elem_of_In.
  - rewrite Ex1, Es. by apply bool_decide_eq_true in T9.
  - exists ack, y0, x, x'. rewrite Ex1. split; [reflexivity|]. do 6 (split; [assumption|]).
    rewrite D6 in D4 by (intros Hx; by rewrite Hx in T3). exists lost. split; [exact D4|exact D5].
Defined.

End drain.
