(* ===== verification/Lifetime.v ===== *)
(** * The life of a data directory: one run of the server after the other

    Each run starts with [main] on the segments that the runs before it have
    left, and ends at any moment, in an orderly stop, a kill or a power loss.  As
    long as none of them leaves a torn record behind, the table that a start
    recovers is the table of having served, run after run, a prefix of what the
    run served; of a run that was stopped when it had nothing left to do, all of
    it. *)

From stdpp Require Import sorting.
From S2P Require Import Prelude Wire Db WalFormat Snapshot Recovery Types Acker Stage1 Stage2.
From S2P Require Import FsyncPlanner IoWork Stage3 Kernel Durability NoLoss Pipeline System Threads Server Accounts.
From S2P Require Import Backpressure Live Safety Progress Drain.
Local Open Scope Z_scope.

Module lifetime.
Import types acker wal_format io_work stage3 kernel kernel_laws pipeline durability system threads server accounts backpressure live.

(** ** Every batch is in the page cache or still to be written *)

Section logged.
Variable base : Z.

Definition to_write (s : St) (o : WriteOp) : Prop := WriteWork o ∈ pend s \/ exists k, fl s !! k = Some (WriteWork o).
Definition written (s : St) : Prop := forall i, (i < length (lg s))%nat ->
  present (page (kern s)) (pos base (lg s) i) (pos base (lg s) (S i)) \/ exists o, to_write s o /\ placed base (lg s) o i.

Variable good : list Batch -> content -> nat -> Prop.
Abbreviation inv := (durability.inv base good).

(** A completion ends [w], and its place in the queue goes to [w'], if any. *)
Lemma written_pop s c q w p' a' k' :
  written s -> cq (kern s) = c :: q -> fl s !! cq_user_data c = Some w ->
  (forall x, x ∈ pend s -> x ∈ p') ->
  (forall o i, w = WriteWork o -> placed base (lg s) o i ->
     present (page (kern s)) (pos base (lg s) i) (pos base (lg s) (S i)) \/
     exists o', WriteWork o' ∈ p' /\ placed base (lg s) o' i) ->
  written (mk_st p' (delete (cq_user_data c) (fl s)) (subq s)
    (mk_kernel (ops (kern s)) (page (kern s)) (disk (kern s)) q) a' k' (lg s)).
Proof.
  intros Wr Hq Hw Hp Hend i Hi. unfold to_write. simpl. destruct (Wr i Hi) as [?|(o & [Ho|[k Hk]] & Hpl)]; [by left|right|].
  - exists o. split; [left; by apply Hp|done].
  - destruct (decide (k = cq_user_data c)) as [->|Hne].
    + rewrite Hw in Hk. injection Hk as ->. destruct (Hend o i eq_refl Hpl) as [?|(o' & Ho & Hpl')]; [by left|right].
      exists o'. split; [by left|done].
    + right. exists o. split; [right; exists k; by rewrite lookup_delete_ne|done].
Qed.

Lemma written_astep s s' : inv s -> written s -> astep base s s' -> written s'.
Proof.
  intros I Wr Hs.
  destruct Hs as [p f q k a c l b Hok|p f q k a c l t|w p f q k a c l key fd e Hk He|p f q k a c l n
                 |p f q op pg dk x cqs a c l o b' more Hf Hr Hd Hw Hm
                 |p f q op pg dk x cqs a c l o Hf Hlt Hn
                 |p f q op pg dk x cqs a c l t Hf Hr
                 |p f q op pg dk x cqs a c l path Hf];
    match type of I with inv ?s0 => set (s0' := s0) in * end.
  - intros i Hi. simpl in Hi. rewrite length_app in Hi. simpl in Hi. unfold to_write. simpl.
    destruct (decide (i < length l)%nat) as [Hlt|Hge].
    + destruct (Wr i Hlt) as [Hp|(o & [Ho|Ho] & Hpl)]; [left; rewrite !pos_app by lia; exact Hp|right; exists o..].
      * split; [left; by apply elem_of_app; left|by apply placed_app].
      * split; [by right|by apply placed_app].
    + assert (i = length l) as -> by lia. right. exists (mk_write b (pos base l (length l)) 0).
      split; [left; apply elem_of_app; right; by left|]. split; [|simpl; by rewrite pos_app].
      exists b. by rewrite lookup_app_r, Nat.sub_diag.
  - intros i Hi. destruct (Wr i Hi) as [?|(o & [Ho|Ho] & Hpl)]; [by left|right; exists o..].
    + split; [left; simpl; by apply elem_of_app; left|done].
    + split; [by right|done].
  - intros i Hi. destruct (Wr i Hi) as [?|(o & [[<-|Ho]%elem_of_cons|[k' Ho]] & Hpl)]; [by left|right; exists o; split; [|done]..].
    + right. exists key. simpl. by rewrite lookup_insert_eq.
    + by left.
    + right. exists k'. simpl. rewrite lookup_insert_ne; [done|]. intros <-. simpl in Ho. congruence.
  - intros i Hi. destruct (Wr i Hi) as [?|Ho]; [by left|by right].
  - apply (written_pop s0' x cqs (WriteWork o)); try done. intros o0 i [= <-] [Hi Ho]. left.
    destruct (i_cq _ _ _ I x) as (w & Hw' & Hc); [by left|]. simpl in Hw'. rewrite Hf in Hw'. injection Hw' as <-.
    destruct (Hc o eq_refl) as [_ Hp]. specialize (Hp Hr). rewrite (at_index_S _ _ _ _ Hi), <- Ho.
    rewrite <- Z.add_assoc, Hd in Hp. done.
  - apply (written_pop s0' x cqs (WriteWork o)); try done.
    + intros y Hy. by right.
    + intros o0 i [= <-] [Hi Ho]. right. eexists. split; [by left|]. by split.
  - by apply (written_pop s0' x cqs (FsyncWork t)).
  - by apply (written_pop s0' x cqs (RemoveWork path)).
Qed.

Lemma kernel_grows R k k' : doc_step R k k' -> grows (page k) (page k').
Proof. destruct 1; simpl; try apply grows_write_at; apply grows_refl. Qed.

End logged.

Lemma written_wsteps {L} `{SlabLaws L} {K} `{Uring K} {R} `{!UringLaws K R} base (w w' : World L K) :
  rtc wstep w w' -> world_wf base w -> inv base (own_bytes base) (abs w) -> written base (abs w) -> written base (abs w').
Proof.
  induction 1 as [|w1 w2 w3 Hs _ IH]; [done|]. intros W I C.
  destruct (safety.worlds_wf R base w1 w2 (rtc_once _ _ Hs) W I) as [W2 I2]. apply IH; [done..|].
  destruct (wstep_sim base (own_bytes base) (own_laws base) w1 w2 Hs W I) as [_ [Ha|(k & Hk & E)]].
  - clear -C Ha I. induction Ha as [s|s1 s2 s3 Hs _ IH]; [done|].
    apply IH; [by eapply inv_astep; [apply own_laws|..]|by eapply written_astep].
  - rewrite E. intros i Hi. destruct (C i Hi) as [Hp|?]; [left|by right].
    eapply present_grows; [by eapply kernel_grows|exact Hp].
Qed.

(** ** The records in the bytes of a log *)

Lemma wal_bytes_prefix r1 r2 :
  Forall recovery.rec_ok r1 -> Forall recovery.rec_ok r2 ->
  recovery.wal_bytes r1 `prefix_of` recovery.wal_bytes r2 -> r1 `prefix_of` r2.
Proof.
  intros H1 H2. revert r2 H2. induction H1 as [|[l w] r1 Hr H1 IH]; intros r2 H2 [k Hp]; [by exists r2|].
  rewrite recovery.wal_bytes_cons in Hp. simpl in Hp. destruct H2 as [|[l' w'] r2 Hr' H2].
  - apply (f_equal length) in Hp. pose proof (record_bytes_length l w). simpl in Hp. rewrite !length_app in Hp. lia.
  - rewrite recovery.wal_bytes_cons, <- app_assoc in Hp. simpl in Hp.
    destruct Hr as (U1 & U2 & _), Hr' as (U1' & U2' & _). simpl in *.
    pose proof (decode_record_app l w (recovery.wal_bytes r1 ++ k) U1 U2) as E. rewrite <- Hp in E.
    rewrite decode_record_app in E by done. injection E as -> -> _.
    apply app_inv_head in Hp. destruct (IH r2 H2) as [k' ->]; [by exists k|]. by exists k'.
Qed.

Lemma number_take l ws k : take k (stage3.number l ws) = stage3.number l (take k ws).
Proof. revert l k. induction ws as [|w ws IH]; intros l [|k]; [done..|]. simpl. by rewrite IH. Qed.
Lemma number_length l ws : length (stage3.number l ws) = length ws.
Proof. revert l. induction ws as [|w ws IH]; intros l; [done|]. simpl. by rewrite IH. Qed.

Lemma number_prefix l ws rs : rs `prefix_of` stage3.number l ws -> exists k, rs = stage3.number l (take k ws).
Proof.
  intros [more E]. exists (length rs). rewrite <- number_take, E. by rewrite take_app_length.
Qed.

(** The records numbered from [l] are above [l]; the highest is the last. *)
Lemma number_above l ws : Forall (fun r => l < r.1) (stage3.number l ws).
Proof.
  revert l. induction ws as [|w ws IH]; intros l; [constructor|]. simpl. constructor; [simpl; lia|].
  eapply Forall_impl; [apply IH|]. simpl. lia.
Qed.
Lemma redo_lsn_number snap h l ws :
  snap <= h -> h <= l -> recovery.redo_lsn snap h (stage3.number l ws) = (if is_nil ws then h else l + len ws).
Proof.
  revert h l. induction ws as [|w ws IH]; intros h l H1 H2; [done|]. unfold recovery.redo_lsn in *. simpl.
  replace (l + 1 <=? snap) with false by lia_bool. rewrite Z.max_r, IH by lia. destruct ws; simpl; lia.
Qed.

(** ** The files of a directory *)

(** The segments by start LSN, in the order of [list_segments]. *)
Definition files_of (F : gmap Z bytes) : list (Z * bytes) := sort_by_key (map_to_list F).

(** The directory has exactly these segments (and files that are none), and a
    snapshot that loads as [db0] up to [o], or no snapshot. *)
Record holds {S} `{KvLaws S} (d : recovery.DataDir) (o : option Z) (db0 : S) (F : gmap Z bytes) : Prop := {
  hd_dir : recovery.create_dir_all d = Done tt;
  hd_start : recovery.start_of d = Done (o, db0);
  hd_wf : kv_wf db0;
  hd_names : exists names, recovery.read_dir d = Done (Done <$> names) /\
    segments_of names ≡ₚ (fun p => (p.1, segment_path p.1)) <$> map_to_list F;
  hd_read l b : F !! l = Some b -> recovery.read d (segment_path l) = Done b;
}.

Lemma sort_by_key_eq {A} (l1 l2 : list (Z * A)) : NoDup l1.*1 -> l1 ≡ₚ l2 -> sort_by_key l1 = sort_by_key l2.
Proof.
  intros Hnd Hp. eapply StronglySorted_unique_strong; [|apply sort_by_key_sorted..|by rewrite !sort_by_key_perm].
  intros x1 x2. rewrite !sort_by_key_perm, <- Hp. unfold by_key. intros H1 H2 L1 L2.
  apply list_elem_of_lookup in H1 as [i Hi], H2 as [j Hj].
  assert (i = j) as ->; [|congruence].
  eapply (NoDup_lookup l1.*1); [exact Hnd|rewrite list_lookup_fmap, Hi; done|].
  rewrite list_lookup_fmap, Hj. simpl. f_equal. lia.
Qed.

Lemma sort_by_key_fmap {A B} (f : Z * A -> Z * B) l :
  (forall x, (f x).1 = x.1) -> sort_by_key (f <$> l) = f <$> sort_by_key l.
Proof.
  intros Hf. assert (forall x q, insert_by_key (f x) (f <$> q) = f <$> insert_by_key x q) as Hi.
  { intros x q. induction q as [|y q IH]; [done|]. simpl. rewrite !Hf. destruct (x.1 <=? y.1); [done|].
    rewrite fmap_cons. f_equal. exact IH. }
  induction l as [|x l IH]; [done|]. unfold sort_by_key in *. rewrite fmap_cons. cbn [foldr]. by rewrite IH, Hi.
Qed.

Lemma holds_list {S} `{KvLaws S} d o (db0 : S) F :
  holds d o db0 F ->
  list_segments true (recovery.read_dir d) = Done ((fun p => (p.1, segment_path p.1)) <$> files_of F).
Proof.
  intros [_ _ _ (names & -> & Hn) _]. rewrite list_segments_ok. f_equal. unfold files_of.
  rewrite <- sort_by_key_fmap by done. apply sort_by_key_eq; [|done].
  rewrite Hn, <- list_fmap_compose. apply NoDup_fst_map_to_list.
Qed.

Lemma files_of_insert F l b :
  (forall k, is_Some (F !! k) -> k <= l) -> files_of (<[l := b]> F) = files_of (delete l F) ++ [(l, b)].
Proof.
  intros Hk. unfold files_of. rewrite <- recovery.sort_by_key_last.
  - apply sort_by_key_eq; [apply NoDup_fst_map_to_list|].
    rewrite <- insert_delete_eq, map_to_list_insert by apply lookup_delete_eq. apply Permutation_cons_append.
  - apply Forall_forall. intros [k c] [Hne Hc]%elem_of_map_to_list%lookup_delete_Some. simpl in *.
    specialize (Hk k (mk_is_Some _ _ Hc)). lia.
Qed.

(** *** Complete logs *)

(** The LSN a start with these records returns. *)
Definition next_lsn (o : option Z) (recs : list (Z * bytes)) : Z :=
  recovery.redo_lsn (default 0 o) (default 0 o) recs + 1.

(** The files hold [recs]; the next segment is new, or empty. *)
Definition healthy (o : option Z) (F : gmap Z bytes) (recs : list (Z * bytes)) : Prop :=
  Forall recovery.rec_ok recs /\
  (exists logs, Forall2 (fun f log => f.2 = recovery.wal_bytes log) (files_of F) logs /\ concat logs = recs) /\
  forall l b, F !! l = Some b -> l < next_lsn o recs \/ l = next_lsn o recs /\ b = [].

Lemma healthy_intact {S} `{KvLaws S} d o (db0 : S) F recs :
  holds d o db0 F -> healthy o F recs ->
  exists segs logs, intact d o db0 segs logs /\ list_segments true (recovery.read_dir d) = Done segs /\ concat logs = recs.
Proof.
  intros Hd (Hok & (logs & Hl & Hc) & _). exists ((fun p => (p.1, segment_path p.1)) <$> files_of F), logs.
  split; [|split; [by eapply holds_list|done]]. pose proof Hd as [H1 H2 H3 _ H5].
  split; [done|done|done| |by rewrite Hc]. unfold recovery.holds_logs.
  assert (forall f, f ∈ files_of F -> recovery.read d (segment_path f.1) = Done f.2) as Hr.
  { intros [l b] Hf. unfold files_of in Hf. rewrite sort_by_key_perm, elem_of_map_to_list in Hf. by apply H5. }
  clear Hc. induction Hl as [|f log fs logs Hf Hl IH]; [constructor|]. rewrite fmap_cons.
  constructor; [simpl; rewrite Hr by left; by rewrite Hf|]. apply IH. intros x Hx. apply Hr. by right.
Qed.

Lemma healthy_recover {S} `{KvLaws S} d o (db0 : S) F recs :
  holds d o db0 F -> healthy o F recs -> u64 (next_lsn o recs) -> 0 <= default 0 o ->
  exists db, recovery.recover d = Done (db, next_lsn o recs) /\ kv_view db = recovery.redo (default 0 o) (kv_view db0) recs.
Proof.
  intros Hd Hh Hu Ho. destruct (healthy_intact d o db0 F recs Hd Hh) as (segs & logs & [I1 I2 I3 I4 I5] & Hls & <-).
  destruct (recovery.recover_intact d o db0 segs logs I1 I2 I3 Hls I4 I5) as (db & E & _ & V).
  pose proof (redo_lsn_ge (default 0 o) (default 0 o) (concat logs)).
  exists db. rewrite E, add64_small; [done|]. unfold next_lsn, u64 in *. lia.
Qed.

(** A run adds its segment. *)
Lemma healthy_run o F recs ws :
  healthy o F recs -> let l := next_lsn o recs in Forall recovery.rec_ok (stage3.number l ws) ->
  healthy o (<[l := recovery.wal_bytes (stage3.number l ws)]> F) (recs ++ stage3.number l ws) /\
  next_lsn o (recs ++ stage3.number l ws) = (if is_nil ws then l else l + len ws + 1).
Proof.
  intros (Hok & (logs & Hl & Hc) & Hn) l Hw.
  pose proof (redo_lsn_ge (default 0 o) (default 0 o) recs) as Hge.
  assert (next_lsn o (recs ++ stage3.number l ws) = (if is_nil ws then l else l + len ws + 1)) as Hnext.
  { unfold next_lsn. unfold recovery.redo_lsn. rewrite fold_left_app. fold (recovery.redo_lsn (default 0 o) (default 0 o) recs).
    fold (recovery.redo_lsn (default 0 o) (recovery.redo_lsn (default 0 o) (default 0 o) recs) (stage3.number l ws)).
    rewrite redo_lsn_number by (unfold l, next_lsn; lia). by destruct ws. }
  split; [|done]. split; [by apply Forall_app|]. split.
  - assert (forall k, is_Some (F !! k) -> k <= l) as Hk.
    { intros k [b Hb]. destruct (Hn k b Hb) as [?|[? _]]; unfold l; lia. }
    rewrite files_of_insert by done.
    assert (exists logs', Forall2 (fun f log => f.2 = recovery.wal_bytes log) (files_of (delete l F)) logs' /\
      concat logs' = recs) as (logs' & Hl' & <-).
    { destruct (F !! l) as [b|] eqn:Eb; [|exists logs; by rewrite delete_id].
      assert (b = []) as -> by (destruct (Hn l b Eb) as [?|[_ ?]]; [unfold l in *; lia|done]).
      rewrite <- (insert_id F l [] Eb), files_of_insert in Hl by done.
      apply Forall2_app_inv_l in Hl as (logs' & ll & Hl' & Hx & ->). exists logs'. split; [done|].
      apply Forall2_cons_inv_l in Hx as (log & ll' & Hx & ->%Forall2_nil_inv_l & ->). rewrite concat_app in Hc.
      destruct log as [|r log]; [simpl in Hc; by rewrite app_nil_r in Hc|].
      rewrite recovery.wal_bytes_cons in Hx. apply (f_equal length) in Hx.
      pose proof (record_bytes_length r.1 r.2). simpl in Hx. rewrite length_app in Hx. lia. }
    exists (logs' ++ [stage3.number l ws]). split; [apply Forall2_app; [done|by repeat constructor]|].
    by rewrite concat_app; simpl; rewrite app_nil_r.
  - intros k b Hb. rewrite Hnext. apply lookup_insert_Some in Hb as [[<- <-]|[Hne Hb]].
    + destruct ws; [by right|left]. simpl. lia.
    + destruct (Hn k b Hb) as [?|[? _]]; [left|done]. destruct ws; simpl; unfold l; lia.
Qed.

(** ** One run *)

Section run.
Context {S : Type} `{KvLaws S} {L : Type} `{SlabLaws L} {K : Type} (R : Z -> Z -> Prop) `{UringLaws K R}.
Implicit Types y : Sys S L K.

Definition cached y : content := page (ku_view (uring (s3 y))).
Definition stored y : content := disk (ku_view (uring (s3 y))).

(** What a run leaves in its segment, whether the process was stopped or killed or
    the power failed: all that is on disk and nothing that is not in the page
    cache; and no torn record. *)
Record ended y (img : bytes) : Prop := {
  en_disk n x : stored y !! Z.of_nat n = Some x -> img !! n = Some x;
  en_page n x : img !! n = Some x -> cached y !! Z.of_nat n = Some x;
  en_whole : exists recs, img = recovery.wal_bytes recs /\ Forall recovery.rec_ok recs;
}.

(** The process was stopped, or killed, when stage 3 had nothing to do. *)
Definition orderly y (img : bytes) : Prop :=
  chan y = [] /\ should_park (eng (s3 y)) = true /\ forall n, img !! n = cached y !! Z.of_nat n.

(** What a run leaves is the log of the requests [l] it has served first: all, if
    it was stopped in order, and with complete writes at least those that were
    acknowledged as durable. *)
Record keeps y0 y (img : bytes) (l : list Request) : Prop := {
  kp_prefix : l `prefix_of` served y;
  kp_image : img = recovery.wal_bytes (stage3.number (stage2.lsn (s2 y0)) (types.data <$> put_reqs l));
  kp_stop : orderly y img -> l = served y;
  kp_acked b : (forall n r, R n r -> r = n) -> Forall (fun b => u32 (len (out b))) (ingested (s3 y)) ->
    b ∈ durable_acks (trace (eng (s3 y))) -> lsn_hi b <= stage2.lsn (s2 y0) + stage2.puts l;
}.

(** The page cache holds bytes of the log only; when stage 3 sleeps, the whole log. *)
Lemma cached_log ack y0 y :
  start y0 -> rtc (sys_step ack) y0 y ->
  let log := recovery.wal_bytes (log_records (ingested (s3 y))) in
  (forall n x, cached y !! Z.of_nat n = Some x -> log !! n = Some x) /\
  (should_park (eng (s3 y)) = true -> forall n, cached y !! Z.of_nat n = log !! n).
Proof.
  intros Hs Hr log. destruct (sys_ok ack y0 y Hs Hr) as [I Rw].
  pose proof (st_world _ Hs) as Hi0. destruct (engine_ok R _ _ Hi0 Rw) as [W J]. rewrite (st_off _ Hs) in *.
  assert (log = concat (out <$> ingested (s3 y))) as El.
  { unfold log. rewrite wal_bytes_log; [done|]. eapply ingested_logged; [exact Rw|]. by rewrite (in_log _ Hi0). }
  assert (forall n x, cached y !! Z.of_nat n = Some x -> log !! n = Some x) as Hsub.
  { intros n x Hx. pose proof (i_page _ _ _ J _ _ Hx ltac:(lia)) as Hl. simpl in Hl.
    by rewrite Z.sub_0_r, Nat2Z.id, <- El in Hl. }
  split; [done|]. intros Hp n. apply option_eq. intros x. split; [apply Hsub|]. intros Hx.
  enough (is_Some (cached y !! Z.of_nat n)) as [x' Hx']; [by rewrite (Hsub _ _ Hx') in Hx; injection Hx as <-|].
  destruct (inv_initial 0 (own_bytes 0) _ Hi0 (initial_wf _ Hi0)) as [W0 J0]; [by rewrite (st_off _ Hs)|].
  assert (written 0 (abs (s3 y))) as Wr.
  { eapply written_wsteps; [exact Rw|done..|]. intros i Hi. simpl in Hi. by rewrite (in_log _ Hi0) in Hi; simpl in Hi; lia. }
  destruct (progress.parked_held _ Hp) as (P1 & P2 & _).
  assert (forall i, (i < length (ingested (s3 y)))%nat ->
    present (cached y) (pos 0 (ingested (s3 y)) i) (pos 0 (ingested (s3 y)) (Datatypes.S i))) as Hall.
  { intros i Hi. destruct (Wr i Hi) as [Hx0|(o & [Ho|[k Ho]] & _)]; [done|..]; simpl in Ho.
    - rewrite P1 in Ho. by apply not_elem_of_nil in Ho.
    - by rewrite P2 in Ho. }
  rewrite El in Hx. apply lookup_lt_Some in Hx. destruct (length (ingested (s3 y))) as [|m] eqn:Em.
  { apply nil_length_inv in Em. rewrite Em in Hx. simpl in Hx. lia. }
  apply (noloss.present_prefix 0 (cached y) (ingested (s3 y)) m); [intros j Hj; apply Hall; lia|].
  unfold pos. rewrite take_ge by lia. lia.
Qed.

(** The log of a run: the PUTs, numbered, of what it served and stage 3 has taken. *)
Lemma run_log ack y0 y :
  start y0 -> rtc (sys_step ack) y0 y ->
  let its := log_items (ingested (s3 y)) in
  log_records (ingested (s3 y)) = stage3.number (stage2.lsn (s2 y0)) (types.data <$> put_reqs its) /\
  Forall recovery.rec_ok (log_records (ingested (s3 y))) /\
  exists more, types.data <$> put_reqs (served y) = (types.data <$> put_reqs its) ++ more /\ (chan y = [] -> more = []).
Proof.
  intros Hs Hr its. destruct (sys_ok ack y0 y Hs Hr) as [I Rw]. pose proof (st_world _ Hs) as Hi0. destruct I.
  apply Forall_app in si_arrived0 as [Hok _]. split_and!.
  - apply log_records_number. intros i b Hb. by destruct (si_batch0 i b Hb).
  - apply log_rec_ok; [|by apply arrives_ok]. eapply ingested_logged; [exact Rw|]. by rewrite (in_log _ Hi0).
  - exists (types.data <$> put_reqs (stage2.wal_items (chan y))). split; [by rewrite <- si_puts0, put_reqs_app, fmap_app|].
    by intros ->.
Qed.

(** What the disk has when a batch is acknowledged as durable is in the image. *)
Lemma acked_kept ack y0 y img recs b :
  (forall n r, R n r -> r = n) -> Forall (fun b => u32 (len (out b))) (ingested (s3 y)) ->
  start y0 -> rtc (sys_step ack) y0 y -> b ∈ durable_acks (trace (eng (s3 y))) ->
  (forall n x, stored y !! Z.of_nat n = Some x -> img !! n = Some x) ->
  img = recovery.wal_bytes recs -> Forall recovery.rec_ok recs -> lsn_hi b <= stage2.lsn (s2 y0) + len recs.
Proof.
  intros HR Hu Hs Hr Hb Hd Hi Hok. destruct (sys_ok ack y0 y Hs Hr) as [I Rw]. pose proof (st_world _ Hs) as Hi0.
  pose proof (progress.full_laws R _ HR) as U.
  destruct (noloss.ack_covers (s3 y0) (s3 y) b Hi0 Rw Hu Hb) as (i & b' & Hl & (_ & _ & ->) & Hdisk).
  rewrite (st_off _ Hs) in Hdisk. set (got := take (Datatypes.S i) (ingested (s3 y))) in *.
  destruct (si_batch _ _ _ I i b' Hl) as [_ ->]. fold got.
  assert (Forall logged got) as Hlg.
  { apply Forall_take. eapply ingested_logged; [exact Rw|]. by rewrite (in_log _ Hi0). }
  rewrite wal_bytes_log in Hdisk by done.
  assert (Forall (fun r => req_ok r = true) (log_items got)) as Hgok.
  { pose proof (si_arrived _ _ _ I) as Ha. apply Forall_app in Ha as [Ha%arrives_ok _]. unfold log_items in *.
    rewrite <- (take_drop (Datatypes.S i) (ingested (s3 y))), fmap_app, concat_app in Ha. by apply Forall_app in Ha as [? _]. }
  destruct (lookup_prefix (recovery.wal_bytes (log_records got)) img) as [rest Hrest].
  { intros n x Hn. apply Hd. by rewrite <- (Hdisk n x Hn). }
  assert (log_records got `prefix_of` recs) as Hp.
  { apply wal_bytes_prefix; [by apply log_rec_ok|done|]. exists rest. by rewrite <- Hi. }
  apply prefix_length in Hp.
  assert (length (log_records got) = length (put_reqs (log_items got))) as El; [|lia].
  rewrite (log_records_number (stage2.lsn (s2 y0)) got), number_length, length_fmap; [done|].
  intros j bj Hj. unfold got in *. apply lookup_take_Some in Hj as [Hj Hji].
  destruct (si_batch _ _ _ I j bj Hj) as [-> _]. by rewrite take_take, Nat.min_l by lia.
Qed.

Lemma run_keeps ack y0 y img :
  start y0 -> rtc (sys_step ack) y0 y -> ended y img ->
  exists l, keeps y0 y img l /\ Forall recovery.rec_ok (stage3.number (stage2.lsn (s2 y0)) (types.data <$> put_reqs l)).
Proof.
  intros Hs Hr [Hd Hp (recs & Hi & Hok)].
  destruct (cached_log ack y0 y Hs Hr) as [Hsub Hall]. destruct (run_log ack y0 y Hs Hr) as (El & Hlok & more & Em & Hm).
  set (its := log_items (ingested (s3 y))) in *.
  destruct (lookup_prefix img (recovery.wal_bytes (log_records (ingested (s3 y))))) as [rest Hrest];
    [intros n x Hn; by apply Hsub, Hp|].
  assert (recs `prefix_of` log_records (ingested (s3 y))) as Hpre by (apply wal_bytes_prefix; [done..|]; exists rest; congruence).
  pose proof Hpre as Hpre'. rewrite El in Hpre'. apply number_prefix in Hpre' as [k Ek].
  assert (exists l, l `prefix_of` served y /\ types.data <$> put_reqs l = take k (types.data <$> put_reqs its) /\
    (types.data <$> put_reqs (served y) = take k (types.data <$> put_reqs its) -> l = served y)) as (l & Hl & Edl & Hfull).
  { destruct (decide (types.data <$> put_reqs (served y) = take k (types.data <$> put_reqs its))) as [E|E].
    - by exists (served y).
    - destruct (put_prefix (served y) (take k (types.data <$> put_reqs its)) (drop k (types.data <$> put_reqs its) ++ more))
        as (n & _ & En); [by rewrite app_assoc, take_drop|].
      exists (take n (served y)). split; [by eexists; symmetry; apply take_drop|done]. }
  exists l. rewrite Edl, <- Ek. split; [|done]. split; [done|by rewrite Edl, <- Ek| |].
  - intros (Hc & Hpark & Himg). apply Hfull. rewrite Em, (Hm Hc), app_nil_r.
    assert (img = recovery.wal_bytes (log_records (ingested (s3 y)))) as Eimg.
    { apply list_eq. intros n. rewrite Himg. by apply Hall. }
    assert (log_records (ingested (s3 y)) = recs) as Erec.
    { apply (anti_symm prefix); [|done]. apply wal_bytes_prefix; [done..|]. exists []. rewrite app_nil_r. congruence. }
    apply (f_equal length) in Erec. rewrite Ek, El, !number_length in Erec. symmetry. apply take_ge.
    rewrite Erec, length_take. rewrite length_take in Erec. lia.
  - intros b HR Hu Hb. pose proof (acked_kept ack y0 y img recs b HR Hu Hs Hr Hb Hd Hi Hok) as Hle.
    rewrite Ek, number_length, <- Edl, length_fmap in Hle. exact Hle.
Qed.

End run.

(** ** The chain of runs *)

(** Replaying the log of some requests is serving them. *)
Lemma put_req_ok r : is_put r = true -> recovery.redo_ok (types.data r) = true -> req_ok r = true.
Proof.
  intros Hp%stage2.is_put_opc. unfold recovery.redo_ok, req_ok, opc in *. destruct (types.data r) as [|o d]; [done|].
  rewrite op_index. destruct (decide (o = wire.OP_PUT)) as [->|Hne]; [done|].
  unfold wire.operation_from in *. repeat case_decide; done.
Qed.

Lemma redo_served snap m l its :
  0 <= snap -> snap <= l -> Forall recovery.rec_ok (stage3.number l (types.data <$> put_reqs its)) ->
  recovery.redo snap m (stage3.number l (types.data <$> put_reqs its)) = stage2.spec_view m its.
Proof.
  intros Hs. revert l m. induction its as [|r its IH]; intros l m Hl; [done|]. rewrite put_reqs_cons, fmap_app.
  unfold stage2.spec_view. cbn [fold_left]. fold (stage2.spec_view (stage2.spec_step m r) its).
  destruct (is_put r) eqn:Ep.
  - cbn [app fmap list_fmap stage3.number]. intros [(_ & _ & Hr) Hok]%Forall_cons. unfold recovery.redo. cbn [fold_left fst snd].
    replace (l + 1 <=? snap) with false by lia_bool. rewrite redo_body_put by (done || by apply put_req_ok).
    by apply IH; [lia|].
  - intros Hok. simpl app in *. simpl fmap in *. rewrite IH by done. f_equal. unfold stage2.spec_step. by rewrite Ep.
Qed.

Section chain.
Context {S : Type} `{KvLaws S} {L : Type} `{SlabLaws L} {K : Type} (R : Z -> Z -> Prop) `{UringLaws K R}.

(** The content of a segment's file before it is opened; it need not exist. *)
Definition segment_bytes (F : gmap Z bytes) (start : Z) : bytes := default [] (F !! start).

(** The environment in which a run starts: a new ring, and the kernel holds the
    file of the segment that [main] opens. *)
Record boots (F : gmap Z bytes) (start : Z) (ring_new : Z -> outcome stage3.Ring) (file_len : Z -> outcome Z) (k : K) : Prop := {
  bt_ring n r : ring_new n = Done r -> stage3.sq r = [];
  bt_len fd n : file_len fd = Done n -> n = len (segment_bytes F start);
  bt_idle : ops (ku_view k) = [] /\ cq (ku_view k) = [];
  bt_page z x : page (ku_view k) !! z = Some x -> segment_bytes F start !! Z.to_nat z = Some x;
  bt_disk z x : disk (ku_view k) !! z = Some x -> segment_bytes F start !! Z.to_nat z = Some x;
}.

Variable o : option Z.
Variable db0 : S.

(** From the files [F0], runs that start with [main] and end with an image of
    their segment lead to the files [F]. *)
Inductive lived (F0 : gmap Z bytes) : gmap Z bytes -> list (Sys S L K * Sys S L K * bytes) -> Prop :=
| lived_new : lived F0 F0 []
| lived_run F runs d ring_new open_file file_len k a ack y0 y img :
    lived F0 F runs -> holds d o db0 F ->
    main d ring_new open_file file_len k a = Done (ack, y0) ->
    boots F (stage2.lsn (s2 y0)) ring_new file_len k ->
    rtc (loop_step ack) y0 y -> u64 (stage2.lsn (s2 y) + 1) -> ended y img ->
    lived F0 (<[stage2.lsn (s2 y0) := img]> F) (runs ++ [(y0, y, img)]).

Lemma main_lsn d ring_new open_file file_len (k : K) a ack (y : Sys S L K) db n :
  main d ring_new open_file file_len k a = Done (ack, y) -> recovery.recover d = Done (db, n) -> stage2.lsn (s2 y) = n.
Proof. unfold main. intros Hm E. rewrite E in Hm. revert Hm. ostep. by intros (e & _ & [= _ <-])%bind_Done. Qed.

(** A run that starts on complete files: the system starts at their LSN. *)
Lemma main_healthy d F recs ring_new open_file file_len (k : K) a ack (y : Sys S L K) :
  main d ring_new open_file file_len k a = Done (ack, y) -> holds d o db0 F -> healthy o F recs ->
  u64 (next_lsn o recs) -> 0 <= default 0 o -> boots F (stage2.lsn (s2 y)) ring_new file_len k ->
  start y /\ stage2.lsn (s2 y) = next_lsn o recs.
Proof.
  intros Hm Hd Hh Hu Ho [B1 B2 B3 B4 B5].
  destruct (healthy_recover d o db0 F recs Hd Hh Hu Ho) as (db & E & _). pose proof (main_lsn _ _ _ _ _ _ _ _ _ _ Hm E) as El.
  destruct (healthy_intact d o db0 F recs Hd Hh) as (segs & logs & Hi & Hls & <-).
  assert (segment_bytes F (stage2.lsn (s2 y)) = []) as Eb.
  { destruct Hh as (_ & _ & Hn). unfold segment_bytes. rewrite El. destruct (F !! _) as [b|] eqn:Eb; [|done].
    destruct (Hn _ _ Eb) as [?|[_ ->]]; [lia|done]. }
  rewrite Eb in *.
  destruct (main_start d ring_new open_file file_len k a ack y o db0 segs logs Hm) as (Hs & _); try done.
  split; [done|by intros fd n Hfd; rewrite (B2 fd n Hfd)|done|].
  intros z. split; [destruct (page _ !! z) eqn:Ez|destruct (disk _ !! z) eqn:Ez]; try done;
    [by apply B4 in Ez|by apply B5 in Ez].
Qed.

(** Stage 2's LSN counts the PUTs served. *)
Lemma lsn_counts m0 l0 (y : Sys S L K) : sys_inv m0 l0 y -> stage2.lsn (s2 y) = l0 + len (put_reqs (served y)).
Proof.
  intros I. pose proof (f_equal length (si_puts _ _ _ I)) as Hp. rewrite !length_fmap, put_reqs_app, length_app in Hp.
  assert (forall c z, stage2.tiles z c (stage2.lsn (s2 y)) -> stage2.lsn (s2 y) = z + len (put_reqs (stage2.wal_items c))) as Ht.
  { clear. induction c as [|[b| |] c IH]; intros z; simpl; [intros ->; simpl; lia| |done..].
    intros (_ & _ & Hhi & _ & _ & Ht). specialize (IH _ Ht). unfold stage2.wal_items in *. rewrite fmap_cons. cbn [concat].
    rewrite put_reqs_app, length_app. lia. }
  rewrite (Ht _ _ (si_tiles _ _ _ I)), (si_last _ _ _ I). lia.
Qed.

Lemma lived_healthy F0 recs0 F runs :
  healthy o F0 recs0 -> u64 (next_lsn o recs0) -> 0 <= default 0 o -> lived F0 F runs ->
  exists recs kept, healthy o F recs /\ u64 (next_lsn o recs) /\
    Forall2 (fun r l => keeps R r.1.1 r.1.2 r.2 l) runs kept /\
    recovery.redo (default 0 o) (kv_view db0) recs =
    stage2.spec_view (recovery.redo (default 0 o) (kv_view db0) recs0) (concat kept).
Proof.
  intros Hh0 Hu0 Ho. induction 1 as [|F runs d ring_new open_file file_len k a ack y0 y img Hl IH Hd Hm Hb Hr Hu He].
  { exists recs0, []. done. }
  destruct IH as (recs & kept & Hh & Hnu & Hk & Hv).
  destruct (main_healthy d F recs _ _ _ _ _ _ _ Hm Hd Hh Hnu Ho Hb) as [Hs El].
  pose proof (loops_system ack y0 y Hs Hr) as Hr1.
  destruct (run_keeps R ack y0 y img Hs Hr1 He) as (l & Kl & Hok).
  pose proof (kp_image _ _ _ _ _ Kl) as Himg. rewrite El in *.
  destruct (healthy_run o F recs (types.data <$> put_reqs l) Hh Hok) as [Hh' Hn'].
  exists (recs ++ stage3.number (next_lsn o recs) (types.data <$> put_reqs l)), (kept ++ [l]).
  split; [by rewrite Himg|]. split; [|split].
  - rewrite Hn'. destruct (sys_ok ack y0 y Hs Hr1) as [I _]. pose proof (lsn_counts _ _ _ I) as Hlsn. rewrite El in Hlsn.
    destruct (kp_prefix _ _ _ _ _ Kl) as [more Em]. rewrite Em, put_reqs_app, length_app in Hlsn.
    rewrite length_fmap. destruct (is_nil _); [done|]. unfold u64 in *. lia.
  - apply Forall2_app; [done|]. constructor; [exact Kl|constructor].
  - rewrite recovery.redo_app, Hv, concat_app, stage2.spec_view_app. simpl. rewrite app_nil_r.
    apply redo_served; [done| |done]. pose proof (redo_lsn_ge (default 0 o) (default 0 o) recs). unfold next_lsn. lia.
Qed.

End chain.

(** *** An orderly stop *)

(** When stage 3 sleeps, what is in the page cache is the whole log. *)
Lemma orderly_end {S} `{KvLaws S} {L} `{SlabLaws L} {K} R `{UringLaws K R} ack (y0 y : Sys S L K) :
  start y0 -> rtc (sys_step ack) y0 y -> chan y = [] -> should_park (eng (s3 y)) = true ->
  exists img, ended y img /\ orderly y img.
Proof.
  intros Hs Hr Hc Hp. destruct (cached_log R ack y0 y Hs Hr) as [_ Hall]. specialize (Hall Hp).
  destruct (run_log ack y0 y Hs Hr) as (_ & Hok & _).
  exists (recovery.wal_bytes (log_records (ingested (s3 y)))). split; [split|split_and!; [done..|]].
  - intros n x Hx. destruct (sys_ok ack y0 y Hs Hr) as [I Rw]. pose proof (st_world _ Hs) as Hi0.
    destruct (engine_ok R _ _ Hi0 Rw) as [W J]. rewrite (st_off _ Hs) in *.
    pose proof (i_disk _ _ _ J _ _ Hx ltac:(lia)) as Hd. simpl in Hd. rewrite Z.sub_0_r, Nat2Z.id in Hd.
    rewrite wal_bytes_log in Hd; [done|]. eapply ingested_logged; [exact Rw|]. by rewrite (in_log _ Hi0).
  - intros n x Hx. by rewrite Hall.
  - by eexists.
  - intros n. symmetry. apply Hall.
Qed.

Lemma served_view {S} `{KvLaws S} {L} `{SlabLaws L} {K} R `{UringLaws K R} o (db0 : S) d F recs ring_new open_file file_len (k : K) a ack
    (y0 y : Sys S L K) :
  main d ring_new open_file file_len k a = Done (ack, y0) -> holds d o db0 F -> healthy o F recs ->
  u64 (next_lsn o recs) -> 0 <= default 0 o -> boots F (stage2.lsn (s2 y0)) ring_new file_len k ->
  rtc (loop_step ack) y0 y ->
  kv_view (stage2.loop_db (s2 y)) = stage2.spec_view (recovery.redo (default 0 o) (kv_view db0) recs) (served y).
Proof.
  intros Hm Hd Hh Hu Ho Hb Hr. destruct (main_healthy o db0 d F recs _ _ _ _ _ _ _ Hm Hd Hh Hu Ho Hb) as [Hs El].
  destruct (sys_ok ack y0 y Hs (loops_system ack y0 y Hs Hr)) as [I _]. rewrite (si_view _ _ _ I). f_equal.
  destruct (healthy_recover d o db0 F recs Hd Hh Hu Ho) as (db & E & V). rewrite <- V.
  unfold main in Hm. rewrite E in Hm. revert Hm. ostep. by intros (e & _ & [= _ <-])%bind_Done.
Qed.

(** ** Properties *)

(** C2: the data outlives the runs.  Start from a data directory with complete
    logs (or none), and let the server run any number of times: [main] on what the
    runs before have left, the threads and the kernel in any interleaving, an end
    at any moment that leaves no torn record.  Then what each run has left is the
    log of a prefix [l] of the requests it served: all of them if it was stopped
    in order, and with complete writes at least up to every batch acknowledged as
    durable; and the next start recovers exactly the table of having served these
    prefixes, one after the other, on the table of the beginning. *)
Theorem runs_add_up {S} `{KvLaws S} {L} `{SlabLaws L} {K} R `{UringLaws K R} o (db0 : S) F0 recs0 F
    (runs : list (Sys S L K * Sys S L K * bytes)) :
  healthy o F0 recs0 -> u64 (next_lsn o recs0) -> 0 <= default 0 o -> lived o db0 F0 F runs ->
  exists kept, Forall2 (fun r l => keeps R r.1.1 r.1.2 r.2 l) runs kept /\
    forall d, holds d o db0 F -> exists db next, recovery.recover d = Done (db, next) /\
      kv_view db = stage2.spec_view (recovery.redo (default 0 o) (kv_view db0) recs0) (concat kept).
Proof.
  intros Hh Hu Ho Hl. destruct (lived_healthy R o db0 F0 recs0 F runs Hh Hu Ho Hl) as (recs & kept & Hh' & Hu' & Hk & Hv).
  exists kept. split; [done|]. intros d Hd.
  destruct (healthy_recover d o db0 F recs Hd Hh' Hu' Ho) as (db & E & V). exists db, (next_lsn o recs).
  split; [done|]. by rewrite V, Hv.
Qed.

(** C13: a stop loses nothing.  Take, after [main] on complete files, any state that
    the threads, the kernel and the clients reach, the threads waiting wherever a
    response channel is full, in which no completion reports a fatal error and the
    segment has room for the batches on their way.  Let the kernel complete what it
    holds and the clients read: then stage 2 can finish the batch it has in hand and
    stage 3 everything else; the server can then be stopped, whatever its mode and
    whatever was acknowledged, and the next start recovers exactly the table that
    stage 2 has at the end. *)
Theorem stop_keeps_table {S} `{KvLaws S} {L} `{SlabLaws L} R o (db0 : S) d F recs ring_new open_file file_len
    (k : doc_kernel R) a ack cap reading closing (y0 : Sys S L (doc_kernel R)) (x : Live S L (doc_kernel R)) :
  (forall n, 0 <= n -> R n n) ->
  main d ring_new open_file file_len k a = Done (ack, y0) -> holds d o db0 F -> healthy o F recs ->
  u64 (next_lsn o recs) -> 0 <= default 0 o -> boots F (stage2.lsn (s2 y0)) ring_new file_len k ->
  values_fit (kv_view (stage2.loop_db (s2 y0))) ->
  0 < depth (eng (s3 y0)) -> 0 < sq_entries (ring (eng (s3 y0))) -> 0 < cap ->
  rtc (live_step ack cap reading closing) (running y0) x -> u64 (stage2.lsn (s2 (settled x)) + 1) ->
  existsb (safety.fatal (eng (s3 (sys x)))) (cq (uring (s3 (sys x)) : Kernel)) = false ->
  Forall (fun b => u32 (len (out b))) (ingested (s3 (sys x))) ->
  drain.room_for (segment.offset (seg (eng (s3 (sys x))))) (chan (settled x)) ->
  exists x' img, rtc (live_step ack cap (fun _ => true) closing) x x' /\
    s2 (sys x') = s2 (settled x) /\ serving x' = None /\ (forall t, todo (clients x') t = []) /\
    ended (sys x') img /\ orderly (sys x') img /\
    forall d', holds d' o db0 (<[stage2.lsn (s2 y0) := img]> F) ->
      exists db next, recovery.recover d' = Done (db, next) /\ kv_view db = kv_view (stage2.loop_db (s2 (sys x'))).
Proof.
  intros HR Hm Hd Hh Hu Ho Hb Hfit Hdep Hent Hcap Hr Hlsn Hf Hlen Hroom.
  destruct (main_healthy o db0 d F recs _ _ _ _ _ _ _ Hm Hd Hh Hu Ho Hb) as [Hs El].
  pose proof (live_inv_rtc R ack cap _ _ y0 x Hs Hfit Hr) as I.
  assert (s3 (settled x) = s3 (sys x)) as E3 by (unfold settled; by destruct (serving x)).
  destruct (drain.drain R HR ack (settled x)) as (y' & D1 & D2 & D3 & D4 & D5);
    [eapply drain.sturdy_reachable; try done; [by eapply settled_run|by rewrite E3|by rewrite E3]|by rewrite E3|].
  destruct (drive R ack cap closing y0 Hs Hfit Hcap x y' I D1) as (x' & R1 & <- & (A1 & A2 & _) & I').
  pose proof (loops_system ack y0 (sys x') Hs (li_run _ _ _ _ I')) as Hr1.
  destruct (orderly_end R ack y0 (sys x') Hs Hr1 D2 D3) as (img & He & Hor). exists x', img. do 6 (split; [done|]).
  intros d' Hd'.
  destruct (lived_healthy R o db0 F recs (<[stage2.lsn (s2 y0) := img]> F) [(y0, sys x', img)] Hh Hu Ho) as (recs' & kept & Hh' & Hu' & Hk & Hv).
  { apply (lived_run o db0 F F [] d ring_new open_file file_len k a ack y0 (sys x') img); try done;
      [constructor|apply (li_run _ _ _ _ I')|by rewrite D4]. }
  apply Forall2_cons_inv_l in Hk as (l & ls & Kl & ->%Forall2_nil_inv_l & ->). simpl in Kl, Hv.
  rewrite (kp_stop _ _ _ _ _ Kl Hor), app_nil_r in Hv.
  destruct (healthy_recover d' o db0 _ recs' Hd' Hh' Hu' Ho) as (db & E & V). exists db, (next_lsn o recs').
  split; [done|]. rewrite V, Hv. symmetry. eapply (served_view R); try done. apply (li_run _ _ _ _ I').
Qed.

(** ** Witnesses: two runs on a new directory

    The first serves one PUT and is stopped in order; the second serves two, and
    the power fails when only the first of them is on disk. *)

Definition files_dir (fs : list (Z * bytes)) : recovery.DataDir :=
  recovery.ex_dir None ((fun f => (segment_path f.1, f.2)) <$> fs).
Definition life_put (k v : string) (c : N) : Request := stage2.ex_req wire.OP_PUT k v c.
Definition life_main (fs : list (Z * bytes)) : outcome (Acker * Sys db.Db (gmap N IoWork) (doc_kernel kernel.full_result)) :=
  server.main (files_dir fs) server.ex_ring_new (fun _ => Done 4) (fun _ => Done 0) (mk_kernel [] ∅ ∅ [])
    (args.mk_args 9000 args.Async (bstr "d")).

Definition moves1 : list move := [Serve [life_put "k" "v" 0]; Turn []; Turn [KWrite 0 27]].
Definition moves2 : list move :=
  [Serve [life_put "k" "w" 1]; Turn []; Turn [KWrite 0 27]; Serve [life_put "x" "y" 2]; Turn []].

Definition img1 : bytes := recovery.wal_bytes (stage3.number 1 [types.data (life_put "k" "v" 0)]).
Definition img2 : bytes := recovery.wal_bytes (stage3.number 3 [types.data (life_put "k" "w" 1)]).

(** What a step of the chain needs of a directory and of a run, as tests. *)
Definition holds_test (fs : list (Z * bytes)) (F : gmap Z bytes) : bool :=
  bool_decide (segments_of (segment_path <$> fs.*1) ≡ₚ (fun p => (p.1, segment_path p.1)) <$> map_to_list F) &&
  forallb (fun f => match recovery.read (files_dir fs) (segment_path f.1) with
                    | Done b => bool_decide (b = f.2) | _ => false end) (map_to_list F).

Definition page_has (m : content) (img : bytes) : bool :=
  forallb (fun n => bool_decide (m !! Z.of_nat n = img !! n)) (seq 0 (length img)).
Definition run_test (y0 y : Sys db.Db (gmap N IoWork) (doc_kernel kernel.full_result)) (start : Z) (img : bytes) : bool :=
  (stage2.lsn (s2 y0) =? start) && bool_decide (u64 (stage2.lsn (s2 y) + 1)) &&
  server.disk_in (stored y) img && page_has (cached y) img.
Definition life_test (fs : list (Z * bytes)) (ms : list move) (start : Z) (img : bytes) : bool :=
  match life_main fs with
  | Done (ack, y0) => match threads.exec ack kernel.full_result noloss.full_ok y0 ms with
                      | Some y => run_test y0 y start img | None => false end
  | _ => false
  end.

Lemma files_hold fs F : holds_test fs F = true -> holds (S := db.Db) (files_dir fs) None kv_new F.
Proof.
  unfold holds_test. rewrite andb_true_iff, bool_decide_eq_true, forallb_forall. intros [Hn Hf].
  split; [reflexivity|reflexivity|apply kv_new_wf| |].
  - exists (segment_path <$> fs.*1). split; [|exact Hn]. simpl. f_equal. rewrite <- !list_fmap_compose. reflexivity.
  - intros l b Hb. assert (In (l, b) (map_to_list F)) as Hin by by apply list_elem_of_In, elem_of_map_to_list.
    specialize (Hf _ Hin). cbn [fst snd] in Hf. destruct (recovery.read _ _) as [c| |]; [|done..].
    f_equal. by eapply bool_decide_eq_true.
Qed.

Lemma page_has_ok m img n x : page_has m img = true -> img !! n = Some x -> m !! Z.of_nat n = Some x.
Proof.
  unfold page_has. rewrite forallb_forall. intros Hf Hx. rewrite <- Hx. eapply bool_decide_eq_true, Hf, in_seq.
  apply lookup_lt_Some in Hx. lia.
Qed.

(** A run whose tests succeed is a step of the chain. *)
Lemma life_step F0 F runs fs ms start img recs :
  lived (L := gmap N IoWork) None kv_new F0 F runs -> holds_test fs F = true -> life_test fs ms start img = true ->
  segment_bytes F start = [] -> img = recovery.wal_bytes recs -> Forall recovery.rec_ok recs ->
  exists ack y0 y, life_main fs = Done (ack, y0) /\ threads.exec ack kernel.full_result noloss.full_ok y0 ms = Some y /\
    lived (L := gmap N IoWork) None kv_new F0 (<[start := img]> F) (runs ++ [(y0, y, img)]).
Proof.
  intros Hl Hf Ht Hb Hi Hok. unfold life_test in Ht. destruct (life_main fs) as [[ack y0]| |] eqn:Em; [|done..].
  destruct (threads.exec ack kernel.full_result noloss.full_ok y0 ms) as [y|] eqn:Ex; [|done].
  unfold run_test in Ht. rewrite !andb_true_iff, Z.eqb_eq, bool_decide_eq_true in Ht. destruct Ht as [[[E Hu] Hd] Hp].
  exists ack, y0, y. split; [done|]. split; [done|]. rewrite <- E.
  eapply (lived_run None kv_new F0 F runs); [exact Hl|by apply files_hold|exact Em| | |exact Hu|].
  - split; [by intros n r [= <-]|intros fd n [= <-]; rewrite E, Hb; done|done|intros z x Hz; by destruct (lookup_empty_Some (M := gmap Z) z x Hz)..].
  - eapply exec_moves_ok; [|exact Ex]. exact noloss.full_ok_result.
  - split; [intros n x; by apply server.disk_in_ok|intros n x; by apply page_has_ok|by exists recs].
Qed.

Definition files1 : gmap Z bytes := {[1 := img1]}.
Definition files2 : gmap Z bytes := <[3 := img2]> files1.

Lemma runs_add_up_witness :
  exists (y01 y1 y02 y2 : Sys db.Db (gmap N IoWork) (doc_kernel kernel.full_result)) l1 l2 (d : db.Db) n,
    keeps kernel.full_result y01 y1 img1 l1 /\ keeps kernel.full_result y02 y2 img2 l2 /\
    recovery.recover (files_dir [(1, img1); (3, img2)]) = Done (d, n) /\
    kv_view d = stage2.spec_view ∅ (l1 ++ l2).
Proof.
  destruct (life_step ∅ ∅ [] [] moves1 1 img1 (stage3.number 1 [types.data (life_put "k" "v" 0)]))
    as (ack1 & y01 & y1 & _ & _ & Hl1);
    [constructor|vm_compute; reflexivity|vm_compute; reflexivity|reflexivity|reflexivity|decide_vm|].
  destruct (life_step ∅ files1 _ [(1, img1)] moves2 3 img2 (stage3.number 3 [types.data (life_put "k" "w" 1)]) Hl1)
    as (ack2 & y02 & y2 & _ & _ & Hl2);
    [vm_compute; reflexivity|vm_compute; reflexivity|vm_compute; reflexivity|reflexivity|decide_vm|].
  destruct (runs_add_up kernel.full_result None kv_new ∅ [] files2 ([] ++ [(y01, y1, img1)] ++ [(y02, y2, img2)]))
    as (kept & Hk & Hrec).
  - split; [constructor|]. split; [|intros l b Hb; by destruct (lookup_empty_Some (M := gmap Z) l b Hb)].
    exists []. split; [constructor|reflexivity].
  - decide_vm.
  - reflexivity.
  - exact Hl2.
  - destruct (Hrec (files_dir [(1, img1); (3, img2)])) as (d & n & E & V);
      [apply files_hold; vm_compute; reflexivity|].
    apply Forall2_cons_inv_l in Hk as (l1 & ls1 & K1 & Hk & ->).
    apply Forall2_cons_inv_l in Hk as (l2 & ls2 & K2 & ->%Forall2_nil_inv_l & ->).
    exists y01, y1, y02, y2, l1, l2, d, n. simpl in V. rewrite app_nil_r in V. split_and!; [exact K1|exact K2|exact E|exact V].
Defined.

Lemma one_file_holds img : holds (S := db.Db) (files_dir [(1, img)]) None kv_new {[1 := img]}.
Proof.
  split; [reflexivity|reflexivity|apply kv_new_wf| |].
  - exists [segment_path 1]. split; [reflexivity|]. rewrite map_to_list_singleton. by vm_compute.
  - intros l b [<- <-]%lookup_singleton_Some. by vm_compute.
Qed.

(** A write is in flight and two batches are in the channel. *)
Definition stop_moves : list move :=
  [Serve [life_put "k" "v" 0]; Turn []; Serve [life_put "k" "w" 1]; Serve [life_put "x" "y" 2]].

#[local] Existing Instance drain.room_for_dec.

Definition stop_test (y0 y : Sys db.Db (gmap N IoWork) (doc_kernel kernel.full_result)) : bool :=
  (0 <? depth (eng (s3 y0))) && (0 <? sq_entries (ring (eng (s3 y0)))) && (stage2.lsn (s2 y0) =? 1) &&
  bool_decide (u64 (stage2.lsn (s2 y) + 1)) && is_nil (cq (uring (s3 y) : Kernel)) &&
  forallb (fun b => bool_decide (u32 (len (out b)))) (ingested (s3 y)) &&
  bool_decide (drain.room_for (segment.offset (seg (eng (s3 y)))) (chan y)) &&
  Nat.eqb (length (chan y)) 2 && Nat.eqb (length (ops (uring (s3 y) : Kernel))) 1.

Lemma stop_run :
  match life_main [] with
  | Done (ack, y0) =>
      match threads.exec ack kernel.full_result noloss.full_ok y0 stop_moves with Some y => stop_test y0 y | None => false end
  | _ => false
  end = true.
Proof. vm_compute. reflexivity. Qed.

Lemma empty_holds : holds (S := db.Db) (files_dir []) None kv_new ∅.
Proof. by apply files_hold; vm_compute. Qed.
Lemma empty_healthy : healthy None ∅ [].
Proof.
  split; [constructor|]. split; [|intros l b Hb; by destruct (lookup_empty_Some (M := gmap Z) l b Hb)].
  exists []. split; [constructor|reflexivity].
Qed.

(** On a new directory the server starts with an empty table. *)
Lemma fresh_start ack (y0 : Sys db.Db (gmap N IoWork) (doc_kernel kernel.full_result)) :
  life_main [] = Done (ack, y0) ->
  boots (∅ : gmap Z bytes) (stage2.lsn (s2 y0)) server.ex_ring_new (fun _ => Done 0)
    (mk_kernel [] ∅ ∅ [] : doc_kernel kernel.full_result) ->
  start y0 /\ values_fit (kv_view (stage2.loop_db (s2 y0))).
Proof.
  intros Em Hb. split.
  - eapply (main_healthy None kv_new (files_dir []) ∅ []); [exact Em|exact empty_holds|exact empty_healthy|decide_vm|done|exact Hb].
  - destruct (server.main_start (files_dir []) server.ex_ring_new (fun _ => Done 4) (fun _ => Done 0)
      (mk_kernel [] ∅ ∅ [] : doc_kernel kernel.full_result) (args.mk_args 9000 args.Async (bstr "d")) ack y0 None kv_new [] [])
      as (_ & _ & Hview & _); [exact Em|exact server.ex_fresh| |reflexivity|done|decide_vm|].
    { split; [reflexivity|reflexivity|apply kv_new_wf|constructor|constructor]. }
    rewrite Hview. intros k v Hk. by destruct (lookup_empty_Some (M := gmap bytes) k v Hk).
Qed.

Lemma stop_keeps_table_witness :
  exists ack (y0 : Sys db.Db (gmap N IoWork) (doc_kernel kernel.full_result)) x x' img (d : db.Db) n,
    life_main [] = Done (ack, y0) /\
    rtc (live_step ack 64 (fun _ => true) (fun _ => false)) (running y0) x /\ length (chan (sys x)) = 2%nat /\
    rtc (live_step ack 64 (fun _ => true) (fun _ => false)) x x' /\ orderly (sys x') img /\
    recovery.recover (files_dir [(1, img)]) = Done (d, n) /\ kv_view d = kv_view (stage2.loop_db (s2 (sys x'))).
Proof.
  pose proof stop_run as Ht. destruct (life_main []) as [[ack y0]| |] eqn:Em; [|done..].
  destruct (threads.exec ack kernel.full_result noloss.full_ok y0 stop_moves) as [y|] eqn:Ex; [|done].
  unfold stop_test in Ht. rewrite !andb_true_iff, !Nat.eqb_eq, !Z.ltb_lt, Z.eqb_eq, !bool_decide_eq_true in Ht.
  destruct Ht as [[[[[[[[T1 T2] T3] T4] T5] T6] T7] T8] T9].
  assert (rtc (loop_step ack) y0 y) as Hr by (eapply exec_moves_ok; [|exact Ex]; exact noloss.full_ok_result).
  pose proof (empty_holds : holds (S := db.Db) (files_dir []) None kv_new ∅) as Hd.
  assert (boots (∅ : gmap Z bytes) (stage2.lsn (s2 y0)) server.ex_ring_new (fun _ => Done 0)
    (mk_kernel [] ∅ ∅ [] : doc_kernel kernel.full_result)) as Hb.
  { split; [by intros n r [= <-]|intros fd n [= <-]; by rewrite T3|done|intros z v Hz; by destruct (lookup_empty_Some (M := gmap Z) z v Hz)..]. }
  destruct (fresh_start ack y0 Em Hb) as [Hs Hv].
  destruct (drive_from_start kernel.full_result ack 64 (fun _ => false) y0 Hs Hv eq_refl y Hr) as (x & Rx & Ex1 & Ex2).
  assert (settled x = y) as Es by (unfold settled; rewrite Ex2; exact Ex1).
  destruct (stop_keeps_table kernel.full_result None kv_new (files_dir []) ∅ [] server.ex_ring_new (fun _ => Done 4)
    (fun _ => Done 0) (mk_kernel [] ∅ ∅ [] : doc_kernel kernel.full_result) (args.mk_args 9000 args.Async (bstr "d"))
    ack 64 (fun _ => true) (fun _ => false) y0 x)
    as (x' & img & Rx' & _ & _ & _ & _ & Hor & Hrec).
  - by intros n _.
  - exact Em.
  - exact Hd.
  - exact empty_healthy.
  - decide_vm.
  - reflexivity.
  - exact Hb.
  - exact Hv.
  - exact T1.
  - exact T2.
  - reflexivity.
  - exact Rx.
  - rewrite Es. exact T4.
  - rewrite Ex1. apply is_nil_ok in T5. by rewrite T5.
  - rewrite Ex1. apply Forall_forall. intros b Hin. rewrite forallb_forall in T6.
    eapply bool_decide_eq_true, T6. by apply list_elem_of_In.
  - rewrite Ex1, Es. exact T7.
  - destruct (Hrec (files_dir [(1, img)])) as (d & n & E & V); [rewrite T3; apply one_file_holds|].
    exists ack, y0, x, x', img, d, n. rewrite Ex1.
    split_and!; [reflexivity|exact Rx|exact T8|exact Rx'|exact Hor|exact E|exact V].
Defined.

End lifetime.
