(* ===== verification/Rotation.v ===== *)
(** * Rotation with the kernel ([rotate] of [stage3/mod.rs])

    [Stage3.v] models [rotate] with the completions and the result of [fsync] as
    inputs.  Here the kernel of the other proofs gives the completions, in every
    round of the loop: what the segment holds when it is sealed, before any response
    that waited for the disk is sent and before the new segment is opened. *)

From S2P Require Import Prelude Wire Db WalFormat Snapshot Recovery Types Acker Stage1 Stage2.
From S2P Require Import FsyncPlanner IoWork Stage3 Kernel Durability NoLoss Pipeline System Threads Server Accounts.
From S2P Require Import Backpressure Live Safety Progress Drain Lifetime.
Local Open Scope Z_scope.

Module rotation.
Import types acker fsync_planner io_work stage3 kernel kernel_laws durability.

Section rounds.
Context {L : Type} `{SlabLaws L} {K : Type} (R : Z -> Z -> Prop) `{UringLaws K R}.
Implicit Types w : World L K.

(** The [while] loop of [rotate], to its end: each round queues what is pending, enters
    the ring (the kernel takes the entries, or the call is interrupted), and reaps
    some of the completions that the kernel then has. *)
Inductive drains : World L K -> list (SubmitResult * list Cqe) -> World L K -> Prop :=
| d_end w : should_park (eng w) = true -> drains w [] w
| d_round w need e1 r e2 k k1 n e3 rounds w' :
    should_park (eng w) = false ->
    handle_pending (eng w) = Done (need, e1) -> submit_ring_and_park e1 r = Done e2 ->
    k = match r with Submitted m => ku_submit (uring w) (take m (sq (ring e1))) | SubmitErr _ => uring w end ->
    rtc ku_step k k1 -> reap_cqes e2 (take n (cq (ku_view k1))) = Done e3 ->
    drains (mk_world e3 (ku_take k1 n) (ingested w)) rounds w' ->
    drains w ((r, take n (cq (ku_view k1))) :: rounds) w'.

Lemma drain_goes_on (e : WalEngine L) :
  negb (inflight_len e =? 0) || match pending e with [] => false | _ => true end = negb (should_park e).
Proof. unfold should_park. by destruct (pending e), (inflight_len e =? 0). Qed.

Lemma drains_rotate w rounds w' :
  drains w rounds w' -> rotate_drain (eng w) rounds = Done (true, eng w') /\ ingested w' = ingested w /\
    should_park (eng w') = true.
Proof.
  induction 1 as [w Hp|w need e1 r e2 k k1 n e3 rounds w' Hp E1 E2 Hk Hk1 E3 _ (IH1 & IH2 & IH3)];
    cbn [rotate_drain]; rewrite drain_goes_on, Hp; simpl negb; cbv iota; [done|].
  rewrite E1. ostep. rewrite E2. ostep. rewrite E3. ostep. by split_and!.
Qed.

Lemma drains_wsteps w rounds w' : drains w rounds w' -> rtc wstep w w'.
Proof.
  induction 1 as [w Hp|w need e1 r e2 k k1 n e3 rounds w' Hp E1 E2 Hk Hk1 E3 _ IH]; [done|].
  etransitivity; [|exact IH]. destruct w as [e k0 l]. simpl in *.
  eapply rtc_l; [by apply (w_pending e k0 l need e1)|].
  transitivity (mk_world e2 k l).
  { destruct r as [m|x]; simpl in E2.
    - injection E2 as <-. subst k. apply rtc_once, w_submit.
    - destruct (x =? EINTR); [|done]. injection E2 as <-. by subst k. }
  etransitivity; [by apply kernel_steps|]. apply rtc_once. by apply w_reap.
Qed.

(** The bytes of the log, where they belong. *)
Definition holds_log (base : Z) (m : content) (l : list Batch) : Prop :=
  forall n x, concat (out <$> l) !! n = Some x -> m !! (base + Z.of_nat n) = Some x.

Lemma parked_page w0 w :
  initial w0 -> rtc wstep w0 w -> should_park (eng w) = true ->
  holds_log (segment.offset (seg (eng w0))) (page (ku_view (uring w))) (ingested w).
Proof.
  intros Hi0 Rw Hp n x Hx. destruct (accounts.engine_ok R _ _ Hi0 Rw) as [W J].
  set (base := segment.offset (seg (eng w0))) in *.
  enough (is_Some (page (ku_view (uring w)) !! (base + Z.of_nat n))) as [x' Hx'].
  { pose proof (i_page _ _ _ J _ _ Hx' ltac:(lia)) as Hl. simpl in Hl.
    replace (base + Z.of_nat n - base) with (Z.of_nat n) in Hl by lia. rewrite Nat2Z.id in Hl. congruence. }
  destruct (inv_initial base (own_bytes base) _ Hi0 (initial_wf _ Hi0) eq_refl) as [W0 J0].
  assert (lifetime.written base (abs w)) as Wr.
  { eapply lifetime.written_wsteps; [exact Rw|done..|]. intros i Hi. simpl in Hi. rewrite (in_log _ Hi0) in Hi. simpl in Hi. lia. }
  destruct (progress.parked_held _ Hp) as (P1 & P2 & _).
  assert (forall i, (i < length (ingested w))%nat ->
    present (page (ku_view (uring w))) (pos base (ingested w) i) (pos base (ingested w) (S i))) as Hall.
  { intros i Hi. destruct (Wr i Hi) as [Hx0|(o & [Ho|[k Ho]] & _)]; [done|..]; simpl in Ho.
    - rewrite P1 in Ho. by apply not_elem_of_nil in Ho.
    - by rewrite P2 in Ho. }
  apply lookup_lt_Some in Hx. destruct (length (ingested w)) as [|m] eqn:Em.
  { apply nil_length_inv in Em. rewrite Em in Hx. simpl in Hx. lia. }
  apply (noloss.present_prefix base _ (ingested w) m); [intros j Hj; apply Hall; lia|].
  unfold pos. rewrite take_ge by lia. lia.
Qed.

(** C29: a rotation seals a complete segment.  Whatever was pending, in flight or
    waiting for an fsync when it starts, and whatever the kernel does in the rounds of
    its loop: when the loop ends the page cache holds every byte of every batch taken
    since the segment was opened, at its place; so does the disk after the [fsync] that
    follows (which returns 0, or the thread panics).  Only then the responses that
    waited for the disk are sent and their buffers recycled, and the new segment is
    opened; no response and no buffer is left behind. *)
Theorem rotate_seals_log w0 w rounds w1 open_file file_len boundary s :
  let base := segment.offset (seg (eng w0)) in
  initial w0 -> rtc wstep w0 w -> drains w rounds w1 -> segment.open open_file file_len boundary = Done s ->
  (forall ret, ret <> 0 -> rotate (eng w) rounds ret open_file file_len boundary = Panic) /\
  exists e', rotate (eng w) rounds 0 open_file file_len boundary = Done (true, e') /\
    holds_log base (page (ku_view (uring w1))) (ingested w) /\
    holds_log base (page (ku_view (uring w1)) ∪ disk (ku_view (uring w1))) (ingested w) /\
    trace e' = trace (eng w1) ++ (awaiting_fsync (eng w1) ≫= release_events (ack (eng w1))) /\
    conserves [] (eng w1) e' /\ owed e' = [] /\ held e' = [] /\ seg e' = s /\ flush_running (planner e') = false.
Proof.
  intros base Hi0 Rw Hd Hs. destruct (drains_rotate _ _ _ Hd) as (E & Eg & Hp).
  pose proof (drains_wsteps _ _ _ Hd) as Rd. assert (rtc wstep w0 w1) as R1 by (by etransitivity).
  pose proof (parked_page w0 w1 Hi0 R1 Hp) as Hpage. rewrite Eg in Hpage. fold base in Hpage.
  destruct (accounts.engine_ok R _ _ Hi0 R1) as [[Hwf _] _].
  unfold rotate. rewrite E. ostep. cbn [negb]. split.
  { intros ret Hret. unfold assert_that. by rewrite (proj2 (Z.eqb_neq _ _) Hret). }
  cbn [assert_that Z.eqb]. ostep. set (st2 := set_planner (eng w1) _).
  assert (engine_wf st2) as Hwf2 by (by destruct Hwf; split).
  rewrite release_awaiting_ok by (by destruct Hwf2). destruct (release_conserves st2 Hwf2) as [_ C]. ostep. rewrite Hs.
  destruct (progress.parked_held _ Hp) as (P1 & P2 & _). eexists. split; [done|].
  split; [done|]. split.
  { intros n x Hx. apply lookup_union_Some_l. by apply Hpage. }
  split; [done|].
  assert (held (set_seg (emit (set_awaiting st2 []) (awaiting_fsync st2 ≫= release_events (stage3.ack st2))) s) = []) as Hh.
  { unfold held, inflight_ops. simpl. by rewrite P1, P2, map_to_list_empty. }
  assert (conserves [] (eng w1) st2) as C2 by (by apply conserves_refl).
  pose proof (conserves_trans [] [] _ _ _ C2 C) as C3.
  split; [by destruct C3; split|]. unfold owed. rewrite Hh. by split_and!.
Qed.

End rounds.

(** ** Witness: the write is short first; the rotation completes it *)

(** A round of [n] submitted entries, the kernel's acts, and the reaping of one completion. *)
Definition drain_one (w : World (gmap N IoWork) (doc_kernel any_result)) (n : nat) (acts : list action)
    : option (World (gmap N IoWork) (doc_kernel any_result) * (SubmitResult * list Cqe)) :=
  if should_park (eng w) then None else
  match handle_pending (eng w) with
  | Done (_, e1) =>
      k1 ← kernel_exec (fun _ _ => true) (submit_ops (uring w) (take n (sq (ring e1)))) acts;
      match reap_cqes (submit_n e1 n) (take 1 (cq k1)) with
      | Done e3 => Some (mk_world e3 (take_cqes k1 1) (ingested w), (Submitted n, take 1 (cq k1)))
      | _ => None
      end
  | _ => None
  end.

Lemma drain_one_ok w n acts w1 x rounds w' :
  drain_one w n acts = Some (w1, x) -> drains w1 rounds w' -> drains w (x :: rounds) w'.
Proof.
  unfold drain_one. destruct (should_park (eng w)) eqn:Hp; [done|].
  destruct (handle_pending (eng w)) as [[need e1]| |] eqn:E1; [|done..].
  intros (k1 & Hk & H)%bind_Some Hd. destruct (reap_cqes _ _) as [e3| |] eqn:E3; [|done..]. injection H as <- <-.
  pose proof (kernel_exec_ok any_result (fun _ _ => true) ltac:(done) _ _ _ Hk) as Hr.
  exact (d_round w need e1 (Submitted n) (submit_n e1 n) _ (k1 : doc_kernel any_result) 1 e3 rounds w' Hp E1
    eq_refl eq_refl Hr E3 Hd).
Qed.

Definition ex_before : option (World (gmap N IoWork) (doc_kernel any_result)) :=
  exec any_result (fun _ _ => true) ex_world [Ingest ex_batch].
Definition ex_drain : option (World (gmap N IoWork) (doc_kernel any_result) * list (SubmitResult * list Cqe)) :=
  w ← ex_before;
  '(w1, x1) ← drain_one w 1 [KWrite 0 20];
  '(w2, x2) ← drain_one w1 1 [KWrite 0 34];
  Some (w2, [x1; x2]).

Lemma ex_drain_run :
  match ex_before, ex_drain with
  | Some w, Some (w2, rounds) => drains w rounds w2 /\ len (concat (out <$> ingested w)) = 54 /\
      bool_decide (page (uring w2 : Kernel) !! 0 = concat (out <$> ingested w) !! 0%nat) = true
  | _, _ => False
  end.
Proof.
  unfold ex_drain. destruct ex_before as [w|] eqn:E0; [|by vm_compute in E0]. cbn [mbind option_bind].
  destruct (drain_one w 1 [KWrite 0 20]) as [[w1 x1]|] eqn:E1;
    [|vm_compute in E0; injection E0 as <-; by vm_compute in E1]. cbn [mbind option_bind].
  destruct (drain_one w1 1 [KWrite 0 34]) as [[w2 x2]|] eqn:E2;
    [|vm_compute in E0; injection E0 as <-; vm_compute in E1; injection E1 as <- <-; by vm_compute in E2].
  cbn [mbind option_bind].
  assert (should_park (eng w2) = true /\ len (concat (out <$> ingested w)) = 54 /\
    bool_decide (page (uring w2 : Kernel) !! 0 = concat (out <$> ingested w) !! 0%nat) = true) as (Hp & Hrest).
  { vm_compute in E0. injection E0 as <-. vm_compute in E1. injection E1 as <- <-. vm_compute in E2. injection E2 as <- <-.
    vm_compute. done. }
  split; [|exact Hrest]. eapply drain_one_ok; [exact E1|]. eapply drain_one_ok; [exact E2|]. by apply d_end.
Qed.

Lemma rotate_seals_log_witness :
  exists w rounds w1 e', ex_before = Some w /\ drains w rounds w1 /\ len (concat (out <$> ingested w)) = 54 /\
    rotate (eng w) rounds 0 (fun _ => Done 9) (fun _ => Done 0) 3 = Done (true, e') /\
    holds_log 0 (page (uring w1 : Kernel)) (ingested w) /\ owed e' = [].
Proof.
  pose proof ex_drain_run as Hd. destruct ex_before as [w|] eqn:E0; [|destruct Hd].
  destruct ex_drain as [[w1 rounds]|]; [|destruct Hd]. destruct Hd as (Hd & Hl & _).
  destruct (rotate_seals_log any_result ex_world w rounds w1 (fun _ => Done 9) (fun _ => Done 0) 3
    (segment.mk_segment 9 0 3)) as (_ & e' & E & H1 & _ & _ & _ & H2 & _).
  - by split.
  - eapply exec_ok; [|exact E0]. done.
  - exact Hd.
  - reflexivity.
  - exists w, rounds, w1, e'. split; [reflexivity|]. split; [exact Hd|]. split; [exact Hl|]. split; [exact E|].
    split; [exact H1|exact H2].
Defined.

End rotation.
