(* ===== verification/Client.v ===== *)
(** * The clients ([crates/smart_client/src])

    [FrameReader] of [reader.rs], and the connection of [sync.rs] (the driver's
    writer loop, [read_loop], [reconnect]) as a state with one definition per
    action of its two threads.  A reply channel ([mpsc::SyncSender]) is a number;
    an answer is what its receiver gets.  The sockets are inputs: which writes
    succeed, what the reads return. *)

From S2P Require Import Prelude Wire Types Stage1.
Local Open Scope Z_scope.

Module client.

(** ** [reader.rs] *)

Definition FRAME_HDR : Z := 4.

Record FrameReader := mk_reader { buf : bytes }.

Definition new_reader : FrameReader := mk_reader [].
Definition feed (fr : FrameReader) (data : bytes) : FrameReader := mk_reader (buf fr ++ data).

Definition try_extract (fr : FrameReader) : outcome (option wire.Resp * FrameReader) :=
  if len (buf fr) <? FRAME_HDR then Done (None, fr) else
  hdr ← slice (buf fr) 0 FRAME_HDR;
  body_len ← wire.rd_u32 hdr;
  let total := FRAME_HDR + body_len in
  if len (buf fr) <? total then Done (None, fr) else
  body ← slice (buf fr) FRAME_HDR total;
  rest ← slice_from (buf fr) total;                 (* [drain(..total)] *)
  Done (Some (wire.from_proto_code body), mk_reader rest).

(** [while let Some(resp) = framer.try_extract()]: the frames taken, in order.
    Each takes at least 4 bytes, so the length of the buffer is enough fuel. *)
Fixpoint extract_all (fuel : nat) (fr : FrameReader) : outcome (list wire.Resp * FrameReader) :=
  match fuel with
  | O => Done ([], fr)
  | S fuel =>
      '(r, fr) ← try_extract fr;
      match r with
      | None => Done ([], fr)
      | Some r => '(rs, fr) ← extract_all fuel fr; Done (r :: rs, fr)
      end
  end.
Definition extract (fr : FrameReader) : outcome (list wire.Resp * FrameReader) :=
  extract_all (length (buf fr)) fr.

(** Reading chunk after chunk, extracting after each. *)
Fixpoint read_chunks (fr : FrameReader) (chunks : list bytes) : outcome (list wire.Resp * FrameReader) :=
  match chunks with
  | [] => Done ([], fr)
  | c :: chunks =>
      '(rs, fr) ← extract (feed fr c);
      '(rs', fr) ← read_chunks fr chunks;
      Done (rs ++ rs', fr)
  end.

(** ** [sync.rs]: a connection *)

Record Call := mk_call { op : wire.Operation; key : bytes; value : option bytes; tx : N }.

Inductive Answer :=
| Reply (r : wire.Resp)          (* [Ok(resp)] *)
| ConnectionLost                 (* [Err("connection lost")] *)
| DriverDead.                    (* the channel was dropped unanswered *)

(** Where the writer loop is. *)
Inductive Writer :=
| Receiving                                       (* in [rx.recv] *)
| Sending (batch : list Call) (write_buf : bytes) (* in the [for], then [write_all] *)
| Gone.                                           (* reconnecting; [fifo_tx] is dropped *)

(** Where [read_loop] is. *)
Inductive Reader :=
| Reading                        (* in [sock.read] *)
| Extracting                     (* in the [while let] loop *)
| Draining                       (* in the last loop *)
| Leaving                        (* past it *)
| Returned.                      (* the receiver of the fifo is dropped *)

#[export] Instance Reader_eq_dec : EqDecision Reader.
Proof. solve_decision. Defined.

Record Conn := mk_conn {
  rx : list Call;                (* the calls not yet received *)
  writer : Writer;
  fifo : list N;                 (* the channel of reply channels *)
  framer : FrameReader;
  reader : Reader;
  dead : bool;
  answers : list (N * Answer);   (* given by the reader *)
  refused : list (N * Answer);   (* given by the driver *)
  sent : bytes;                  (* what has been written to the socket *)
  received : bytes;              (* what has been read from it *)
}.

(** A pass of ['reconnect: loop]. *)
Definition connected (calls : list Call) : Conn :=
  mk_conn calls Receiving [] new_reader Reading false [] [] [] [].

Definition encode_call (b : bytes) (c : Call) : bytes := (wire.encode_raw b (op c) (key c) (value c)).1.

(** [rx.recv], then [n] further calls by [rx.try_recv]; nothing if it waits. *)
Definition writer_recv (st : Conn) (n : nat) : option Conn :=
  match writer st, rx st with
  | Receiving, first :: rest =>
      if dead st then
        Some (mk_conn rest Gone (fifo st) (framer st) (reader st) true (answers st)
                (refused st ++ [(tx first, ConnectionLost)]) (sent st) (received st))
      else
        Some (mk_conn (drop n rest) (Sending (first :: take n rest) []) (fifo st) (framer st) (reader st)
                (dead st) (answers st) (refused st) (sent st) (received st))
  | _, _ => None
  end.

(** One turn of [for call in batch]: the send fails, and drops the call's
    channel, when the reader has returned. *)
Definition writer_enqueue (st : Conn) : option Conn :=
  match writer st with
  | Sending (c :: batch) wb =>
      let w := Sending batch (encode_call wb c) in
      match reader st with
      | Returned =>
          Some (mk_conn (rx st) w (fifo st) (framer st) (reader st) (dead st) (answers st)
                  (refused st ++ [(tx c, DriverDead)]) (sent st) (received st))
      | _ =>
          Some (mk_conn (rx st) w (fifo st ++ [tx c]) (framer st) (reader st) (dead st) (answers st)
                  (refused st) (sent st) (received st))
      end
  | _ => None
  end.

(** [write_all] and [flush]: [Some n] is a failure after [n] bytes. *)
Definition writer_write (st : Conn) (failed : option nat) : option Conn :=
  match writer st, failed with
  | Sending [] wb, None =>
      Some (mk_conn (rx st) Receiving (fifo st) (framer st) (reader st) (dead st) (answers st) (refused st)
              (sent st ++ wb) (received st))
  | Sending [] wb, Some n =>
      Some (mk_conn (rx st) Gone (fifo st) (framer st) (reader st) true (answers st) (refused st)
              (sent st ++ take n wb) (received st))
  | _, _ => None
  end.

(** [sock.read]: [None] is the end of the stream or an error. *)
Definition reader_read (st : Conn) (chunk : option bytes) : option Conn :=
  match reader st, chunk with
  | Reading, Some c =>
      Some (mk_conn (rx st) (writer st) (fifo st) (feed (framer st) c) Extracting (dead st) (answers st)
              (refused st) (sent st) (received st ++ c))
  | Reading, None =>
      Some (mk_conn (rx st) (writer st) (fifo st) (framer st) Draining true (answers st) (refused st)
              (sent st) (received st))
  | _, _ => None
  end.

(** One turn of the [while let]; nothing when it waits in [fifo.recv]. *)
Definition reader_extract (st : Conn) : outcome (option Conn) :=
  match reader st with
  | Extracting =>
      '(r, fr) ← try_extract (framer st);
      match r with
      | None => Done (Some (mk_conn (rx st) (writer st) (fifo st) fr Reading (dead st) (answers st)
                              (refused st) (sent st) (received st)))
      | Some resp =>
          match fifo st, writer st with
          | t :: fifo, _ =>
              Done (Some (mk_conn (rx st) (writer st) fifo fr Extracting (dead st)
                            (answers st ++ [(t, Reply resp)]) (refused st) (sent st) (received st)))
          | [], Gone =>
              Done (Some (mk_conn (rx st) (writer st) [] fr Draining true (answers st) (refused st)
                            (sent st) (received st)))
          | [], _ => Done None
          end
      end
  | _ => Done None
  end.

(** One turn of the last loop. *)
Definition reader_drain (st : Conn) : option Conn :=
  match reader st, fifo st with
  | Draining, t :: fifo =>
      Some (mk_conn (rx st) (writer st) fifo (framer st) Draining (dead st)
              (answers st ++ [(t, ConnectionLost)]) (refused st) (sent st) (received st))
  | Draining, [] =>
      Some (mk_conn (rx st) (writer st) [] (framer st) Leaving (dead st) (answers st) (refused st)
              (sent st) (received st))
  | _, _ => None
  end.

(** The return of [read_loop] drops the fifo, with what the driver has put there
    since the last [try_recv]. *)
Definition reader_return (st : Conn) : option Conn :=
  match reader st with
  | Leaving =>
      Some (mk_conn (rx st) (writer st) [] (framer st) Returned (dead st)
              (answers st ++ ((fun t => (t, DriverDead)) <$> fifo st)) (refused st) (sent st) (received st))
  | _ => None
  end.

(** [rx.recv] fails when no handle is left and the channel is empty: the driver
    returns, and [fifo_tx], [sock] and [stream] are dropped. *)
Definition driver_exit (handles : nat) (st : Conn) : option Conn :=
  match handles, writer st, rx st with
  | O, Receiving, [] =>
      Some (mk_conn [] Gone (fifo st) (framer st) (reader st) (dead st) (answers st) (refused st)
              (sent st) (received st))
  | _, _, _ => None
  end.

(** The threads interleave. *)
Inductive conn_step (st : Conn) : Conn -> Prop :=
| c_recv n st' : writer_recv st n = Some st' -> conn_step st st'
| c_enqueue st' : writer_enqueue st = Some st' -> conn_step st st'
| c_write f st' : writer_write st f = Some st' -> conn_step st st'
| c_read c st' : reader_read st c = Some st' -> conn_step st st'
| c_extract st' : reader_extract st = Done (Some st') -> conn_step st st'
| c_drain st' : reader_drain st = Some st' -> conn_step st st'
| c_return st' : reader_return st = Some st' -> conn_step st st'.

(** Executions. *)
Inductive ConnAction :=
| Recv (n : nat) | Enqueue | Write (failed : option nat) | Read (chunk : option bytes) | Extract | Drain | Return.

Definition conn_act (st : Conn) (a : ConnAction) : option Conn :=
  match a with
  | Recv n => writer_recv st n
  | Enqueue => writer_enqueue st
  | Write f => writer_write st f
  | Read c => reader_read st c
  | Extract => match reader_extract st with Done r => r | _ => None end
  | Drain => reader_drain st
  | Return => reader_return st
  end.
Fixpoint conn_run (st : Conn) (l : list ConnAction) : option Conn :=
  match l with [] => Some st | a :: l => match conn_act st a with Some st => conn_run st l | None => None end end.

Lemma conn_act_ok st a st' : conn_act st a = Some st' -> conn_step st st'.
Proof.
  intros E. destruct a; simpl in E; [by eapply c_recv|by eapply c_enqueue|by eapply c_write|by eapply c_read| |
    by eapply c_drain|by eapply c_return].
  apply c_extract. destruct (reader_extract st) as [o| |]; by subst.
Qed.

Lemma conn_run_ok st l st' : conn_run st l = Some st' -> rtc conn_step st st'.
Proof.
  revert st. induction l as [|a l IH]; intros st; cbn [conn_run]; [by intros [= <-]|].
  destruct (conn_act st a) as [st1|] eqn:E; [|done]. intros H. eapply rtc_l; [by eapply conn_act_ok|by apply IH].
Qed.

(** *** [reconnect] *)

(** The sleeps, in milliseconds, before the attempts whose results are given;
    it returns after the first success. *)
Fixpoint reconnect_loop (delay : Z) (attempts : list bool) : list Z :=
  match attempts with
  | [] => []
  | true :: _ => [delay]
  | false :: attempts => delay :: reconnect_loop (Z.min (delay * 2) 5000) attempts
  end.
Definition reconnect (attempts : list bool) : list Z := reconnect_loop 100 attempts.

(** ** Lemmas: frames *)

Lemma try_extract_cases fr :
  (try_extract fr = Done (None, fr) /\
   (len (buf fr) < 4 \/ len (buf fr) < 4 + le_combine (take 4 (buf fr)))) \/
  exists body rest, u32 (len body) /\ buf fr = stage1.frame body ++ rest /\
    try_extract fr = Done (Some (wire.from_proto_code body), mk_reader rest).
Proof.
  destruct fr as [b]. unfold try_extract, FRAME_HDR. simpl buf.
  destruct (len b <? 4) eqn:E4; [left; split; [done|lia]|].
  assert (slice b 0 4 = Done (take 4 b)) as -> by (apply slice_Done; split_and!; [lia..|done]). ostep.
  rewrite wire.rd_u32_Done by len_lia. ostep.
  pose proof (le_combine_u32 (take 4 b) ltac:(len_lia)) as Hu. set (n := le_combine (take 4 b)) in *.
  destruct (len b <? 4 + n) eqn:En; [left; split; [done|lia]|right]. unfold u32 in Hu.
  set (body := take (Z.to_nat n) (drop 4 b)). set (rest := drop (Z.to_nat n) (drop 4 b)).
  assert (len body = n) as Hb by (unfold body; len_lia).
  exists body, rest. split; [unfold u32; lia|].
  assert (b = stage1.frame body ++ rest) as Eb.
  { unfold stage1.frame. rewrite Hb. unfold n. rewrite split_le_combine' by len_lia.
    unfold body, rest. by rewrite <- app_assoc, !take_drop. }
  split; [done|].
  assert (slice b 4 (4 + n) = Done body) as ->.
  { apply slice_Done. split_and!; [lia..|]. unfold body. do 2 f_equal; lia. }
  assert (slice_from b (4 + n) = Done rest) as ->; [|done].
  rewrite Eb at 1. apply slice_from_app. unfold stage1.frame. len_lia.
Qed.

Lemma try_extract_frame body rest :
  u32 (len body) ->
  try_extract (mk_reader (stage1.frame body ++ rest)) = Done (Some (wire.from_proto_code body), mk_reader rest).
Proof.
  intros Hb. assert (len (stage1.frame body) = 4 + len body) as Hl by (unfold stage1.frame; len_lia).
  set (b := stage1.frame body ++ rest).
  assert (len b = 4 + len body + len rest) as Hlb by (unfold b; rewrite length_app; lia).
  assert (slice b 0 4 = Done (le_split 4 (len body))) as E1.
  { unfold b, stage1.frame. rewrite <- app_assoc. apply slice_prefix. len_lia. }
  assert (slice b 4 (4 + len body) = Done body) as E2.
  { unfold b, stage1.frame. rewrite <- app_assoc. apply slice_mid; len_lia. }
  assert (slice_from b (4 + len body) = Done rest) as E3 by (by apply slice_from_app).
  unfold try_extract, FRAME_HDR. simpl buf. replace (len b <? 4) with false by lia_bool.
  rewrite E1. ostep. rewrite wire.rd_u32_le by done. ostep.
  replace (len b <? 4 + len body) with false by lia_bool. by rewrite E2, E3.
Qed.

(** More input does not change a frame that is complete. *)
Lemma try_extract_feed fr r fr' more :
  try_extract fr = Done (Some r, fr') -> try_extract (feed fr more) = Done (Some r, feed fr' more).
Proof.
  destruct (try_extract_cases fr) as [[-> _]|(body & rest & Hb & E & ->)]; [done|]. intros [= <- <-].
  unfold feed. rewrite E, <- app_assoc. by apply try_extract_frame.
Qed.

(** A frame taken shortens the buffer. *)
Lemma try_extract_shorter fr r fr' :
  try_extract fr = Done (Some r, fr') -> (length (buf fr') < length (buf fr))%nat.
Proof.
  destruct (try_extract_cases fr) as [[-> _]|(body & rest & Hb & E & ->)]; [done|]. intros [= <- <-].
  rewrite E. unfold stage1.frame. simpl. len_lia.
Qed.

Lemma try_extract_total fr :
  exists r fr', try_extract fr = Done (r, fr') /\ (r = None -> fr' = fr).
Proof. destruct (try_extract_cases fr) as [[-> _]|(body & rest & _ & _ & ->)]; by do 2 eexists. Qed.

Lemma extract_all_fuel (f1 f2 : nat) fr :
  (length (buf fr) <= f1)%nat -> (length (buf fr) <= f2)%nat -> extract_all f1 fr = extract_all f2 fr.
Proof.
  assert (forall f fr, length (buf fr) = 0%nat -> extract_all f fr = Done ([], fr)) as H0.
  { intros [|f] [b] Hb; [done|]. simpl in Hb. cbn [extract_all]. unfold try_extract. simpl buf.
    by replace (len b <? FRAME_HDR) with true by (unfold FRAME_HDR; lia_bool). }
  revert f2 fr. induction f1 as [|f1 IH]; intros [|f2] fr H1 H2; [done|by rewrite !H0 by lia..|].
  cbn [extract_all]. destruct (try_extract fr) as [[[r|] fr']| |] eqn:E; ostep; [|done..].
  apply try_extract_shorter in E. rewrite (IH f2) by lia. done.
Qed.

(** The loop equation, with no fuel. *)
Lemma extract_unfold fr :
  extract fr =
  '(r, fr) ← try_extract fr;
  match r with
  | None => Done ([], fr)
  | Some r => '(rs, fr) ← extract fr; Done (r :: rs, fr)
  end.
Proof.
  unfold extract at 1. rewrite (extract_all_fuel _ (S (length (buf fr)))) by lia. cbn [extract_all].
  destruct (try_extract fr) as [[[r|] fr']| |] eqn:E; ostep; [|done..].
  apply try_extract_shorter in E. unfold extract. by rewrite (extract_all_fuel _ (length (buf fr'))) by lia.
Qed.

(** [extract] is total; what it leaves holds no complete frame. *)
Lemma extract_total fr : exists rs fr', extract fr = Done (rs, fr') /\ try_extract fr' = Done (None, fr').
Proof.
  destruct fr as [b]. remember (length b) as n eqn:Hn. revert b Hn.
  induction (lt_wf n) as [n _ IH]. intros b ->. rewrite extract_unfold.
  destruct (try_extract_total (mk_reader b)) as ([r|] & fr' & E & Hr); rewrite E; ostep.
  - apply try_extract_shorter in E. destruct fr' as [b']. simpl in E.
    destruct (IH _ E b' eq_refl) as (rs & fr2 & E2 & H2). rewrite E2. ostep. by eexists _, _.
  - rewrite (Hr eq_refl) in *. by exists [], (mk_reader b).
Qed.

(** Extracting, then feeding and extracting, is feeding first. *)
Lemma extract_feed fr rs fr' more :
  extract fr = Done (rs, fr') ->
  extract (feed fr more) = ('(rs', fr2) ← extract (feed fr' more); Done (rs ++ rs', fr2)).
Proof.
  destruct fr as [b]. remember (length b) as n eqn:Hn. revert b Hn rs fr'.
  induction (lt_wf n) as [n _ IH]. intros b -> rs fr'. rewrite extract_unfold.
  destruct (try_extract_total (mk_reader b)) as ([r|] & fr1 & E & Hr); rewrite E; ostep.
  - intros ([rs1 fr2] & E1 & [= <- <-])%bind_Done. rewrite extract_unfold, (try_extract_feed _ _ _ _ E). ostep.
    apply try_extract_shorter in E. destruct fr1 as [b']. simpl in E.
    rewrite (IH _ E b' eq_refl rs1 fr2) by done. by destruct (extract (feed fr2 more)) as [[? ?]| |].
  - intros [= <- <-]. rewrite (Hr eq_refl). by destruct (extract _) as [[? ?]| |].
Qed.

(** ** Properties of the frame reader *)

Lemma read_chunks_whole fr chunks :
  try_extract fr = Done (None, fr) -> read_chunks fr chunks = extract (feed fr (concat chunks)).
Proof.
  revert fr. induction chunks as [|c chunks IH]; intros fr Hfr; cbn [read_chunks concat].
  - unfold feed. rewrite app_nil_r, extract_unfold. destruct fr as [b]. simpl. by rewrite Hfr.
  - destruct (extract_total (feed fr c)) as (rs & fr' & E & H'). rewrite E. ostep. rewrite IH by done.
    assert (feed fr (c ++ concat chunks) = feed (feed fr c) (concat chunks)) as ->
      by (unfold feed; simpl; by rewrite app_assoc).
    by rewrite (extract_feed _ _ _ _ E).
Qed.

Lemma resp_frame_body r :
  stage1.resp_ok r -> exists body, u32 (len body) /\ stage1.resp_frame r = stage1.frame body /\
    wire.from_proto_code body = r.
Proof.
  destruct r as [v| | | |]; intros Hr; [|by eexists [_]..|done].
  exists (wire.to_proto_code (wire.Value v) :: v). simpl in Hr. split; [|done].
  unfold u32 in *. simpl length. lia.
Qed.

Lemma extract_frames rs rest :
  Forall stage1.resp_ok rs ->
  extract (mk_reader (concat (stage1.resp_frame <$> rs) ++ rest)) =
  ('(rs', fr) ← extract (mk_reader rest); Done (rs ++ rs', fr)).
Proof.
  induction 1 as [|r rs Hr Hok IH].
  - simpl. by destruct (extract _) as [[? ?]| |].
  - destruct (resp_frame_body r Hr) as (body & Hb & E & Er). rewrite fmap_cons. cbn [concat].
    rewrite extract_unfold, E, <- app_assoc, try_extract_frame by done. ostep. rewrite IH, Er.
    by destruct (extract (mk_reader rest)) as [[? ?]| |].
Qed.

(** ** Lemmas: a connection *)

Definition is_error (a : N * Answer) : Prop := match a.2 with Reply _ => False | _ => True end.
Definition in_hand (w : Writer) : list Call := match w with Sending b _ => b | _ => [] end.
Definition encode_calls (cs : list Call) : bytes := fold_left encode_call cs [].

Lemma encode_call_app b c : encode_call b c = b ++ encode_call [] c.
Proof.
  unfold encode_call, wire.encode_raw. destruct (_ && _); simpl; [by rewrite app_nil_r|].
  by destruct (value c); rewrite <- !app_assoc.
Qed.

Lemma encode_calls_snoc d c : encode_calls (d ++ [c]) = encode_call (encode_calls d) c.
Proof. unfold encode_calls. by rewrite fold_left_app. Qed.

Lemma encode_calls_app d d' : encode_calls (d ++ d') = encode_calls d ++ encode_calls d'.
Proof.
  induction d' as [|c d' IH] using rev_ind; [by rewrite !app_nil_r|].
  by rewrite app_assoc, !encode_calls_snoc, IH, encode_call_app, (encode_call_app (encode_calls d')), app_assoc.
Qed.

(** [d]: the calls dealt with; [ps]: the calls that got a response, with it. *)
Record conn_inv (calls : list Call) (st : Conn) (d : list Call) (ps : list (N * wire.Resp))
    (errs : list (N * Answer)) : Prop := {
  ci_calls : calls = d ++ in_hand (writer st) ++ rx st;
  ci_order : tx <$> d = (answers st).*1 ++ fifo st ++ (refused st).*1;
  ci_answers : answers st = (prod_map id Reply <$> ps) ++ errs;
  ci_errs : Forall is_error errs /\ Forall is_error (refused st);
  ci_fifo : reader st = Returned -> fifo st = [];
  ci_refused : refused st = [] \/ reader st = Returned \/ writer st = Gone;
  ci_reading : match reader st with
               | Reading => errs = [] /\ extract (mk_reader (received st)) = Done (ps.*2, framer st)
               | Extracting => errs = [] /\
                   extract (mk_reader (received st)) =
                     ('(rs', fr) ← extract (framer st); Done (ps.*2 ++ rs', fr))
               | _ => exists more fr, extract (mk_reader (received st)) = Done (ps.*2 ++ more, fr)
               end;
  ci_sent : match writer st with
            | Receiving => sent st = encode_calls d
            | Sending _ wb => sent st ++ wb = encode_calls d
            | Gone => sent st `prefix_of` encode_calls calls
            end;
}.

Lemma inv_connected calls : conn_inv calls (connected calls) [] [] [].
Proof. split; simpl; try done. by left. Qed.

Definition has_inv (calls : list Call) (st : Conn) : Prop := exists d ps errs, conn_inv calls st d ps errs.

Lemma inv_recv calls st n st' : has_inv calls st -> writer_recv st n = Some st' -> has_inv calls st'.
Proof.
  intros (d & ps & errs & [A1 A2 A3 [A4 A4'] A5 A6 A7 A8]). unfold writer_recv.
  destruct (writer st) eqn:Ew; [|done..]. destruct (rx st) as [|first rest] eqn:Er; [done|].
  simpl in A1. destruct (dead st); intros [= <-].
  - exists (d ++ [first]), ps, errs. split; simpl; try done.
    + by rewrite <- app_assoc.
    + rewrite !fmap_app, A2, <- !app_assoc. done.
    + split; [done|]. apply Forall_app. by repeat constructor.
    + by right; right.
    + rewrite A8, A1, encode_calls_app. by eexists.
  - exists d, ps, errs. split; simpl; try done.
    + by rewrite take_drop.
    + destruct A6 as [?|[?|?]]; [by left|by right; left|done].
    + by rewrite app_nil_r.
Qed.

Lemma inv_enqueue calls st st' : has_inv calls st -> writer_enqueue st = Some st' -> has_inv calls st'.
Proof.
  intros (d & ps & errs & [A1 A2 A3 [A4 A4'] A5 A6 A7 A8]). unfold writer_enqueue.
  destruct (writer st) as [|[|c batch] wb|] eqn:Ew; try done. simpl in A1.
  assert (calls = (d ++ [c]) ++ batch ++ rx st) as A1' by (by rewrite <- app_assoc).
  assert (sent st ++ encode_call wb c = encode_calls (d ++ [c])) as A8'.
  { by rewrite encode_call_app, app_assoc, A8, encode_calls_snoc, (encode_call_app (encode_calls d)). }
  destruct (decide (reader st = Returned)) as [Hr|Hr].
  - rewrite Hr. intros [= <-]. exists (d ++ [c]), ps, errs.
    split; simpl; rewrite ?Hr in *; try done.
    + by rewrite !fmap_app, A2, <- !app_assoc.
    + split; [done|]. apply Forall_app. by repeat constructor.
    + by right; left.
  - assert (refused st = []) as Hf by (by destruct A6 as [?|[?|?]]).
    assert (has_inv calls (mk_conn (rx st) (Sending batch (encode_call wb c)) (fifo st ++ [tx c]) (framer st)
      (reader st) (dead st) (answers st) (refused st) (sent st) (received st))) as Hgo.
    { exists (d ++ [c]), ps, errs. split; simpl; try done.
      - rewrite !fmap_app, A2, Hf. simpl. by rewrite !app_nil_r, app_assoc.
      - by left. }
    destruct (reader st); try done; by intros [= <-].
Qed.

Lemma inv_write calls st f st' : has_inv calls st -> writer_write st f = Some st' -> has_inv calls st'.
Proof.
  intros (d & ps & errs & [A1 A2 A3 [A4 A4'] A5 A6 A7 A8]). unfold writer_write.
  destruct (writer st) as [|[|c batch] wb|] eqn:Ew; try done. simpl in A1.
  destruct f as [n|]; intros [= <-]; exists d, ps, errs; split; simpl; try done.
  - by right; right.
  - exists (drop n wb ++ encode_calls (rx st)).
    by rewrite A1, encode_calls_app, <- A8, <- !app_assoc, (app_assoc (take n wb)), take_drop.
  - destruct A6 as [?|[?|?]]; [by left|by right; left|done].
Qed.

Lemma inv_read calls st c st' : has_inv calls st -> reader_read st c = Some st' -> has_inv calls st'.
Proof.
  intros (d & ps & errs & [A1 A2 A3 [A4 A4'] A5 A6 A7 A8]). unfold reader_read.
  destruct (reader st) eqn:Er; try done. destruct A7 as [-> A7].
  assert (refused st = [] \/ writer st = Gone) as A6' by (destruct A6 as [?|[?|?]]; auto; done).
  destruct c as [c|]; intros [= <-]; exists d, ps, []; split; simpl; try done.
  - tauto.
  - split; [done|]. by apply (extract_feed _ _ _ c) in A7.
  - tauto.
  - exists [], (framer st). by rewrite app_nil_r.
Qed.

Lemma inv_extract calls st st' :
  has_inv calls st -> reader_extract st = Done (Some st') -> has_inv calls st'.
Proof.
  intros (d & ps & errs & [A1 A2 A3 [A4 A4'] A5 A6 A7 A8]). unfold reader_extract.
  destruct (reader st) eqn:Er; try done. destruct A7 as [-> A7].
  assert (refused st = [] \/ writer st = Gone) as A6' by (destruct A6 as [?|[?|?]]; auto; done).
  destruct (try_extract_total (framer st)) as ([r|] & fr & E & Hn); rewrite E; ostep.
  - destruct (extract_total fr) as (rs & fr2 & E2 & _).
    assert (extract (framer st) = Done (r :: rs, fr2)) as E3.
    { rewrite extract_unfold, E. ostep. by rewrite E2. }
    rewrite E3 in A7. simpl in A7. destruct (fifo st) as [|t fifo'] eqn:Ef.
    + destruct (writer st) eqn:Ew; try done. intros [= <-]. exists d, ps, [].
      split; simpl; rewrite ?Ew; try done; [tauto|]. by eexists _, _.
    + intros [= <-]. exists d, (ps ++ [(t, r)]), []. split; simpl; try done.
      * by rewrite A2, fmap_app, <- app_assoc.
      * by rewrite A3, fmap_app, !app_nil_r.
      * split; [done|]. rewrite A7, fmap_app, E2. ostep. by rewrite <- app_assoc.
  - intros [= <-]. rewrite (Hn eq_refl) in *. exists d, ps, []. split; simpl; try done; [tauto|].
    split; [done|]. rewrite A7, extract_unfold, E. ostep. by rewrite app_nil_r.
Qed.

Lemma inv_drain calls st st' : has_inv calls st -> reader_drain st = Some st' -> has_inv calls st'.
Proof.
  intros (d & ps & errs & [A1 A2 A3 [A4 A4'] A5 A6 A7 A8]). unfold reader_drain.
  destruct (reader st) eqn:Er; try done.
  assert (refused st = [] \/ writer st = Gone) as A6' by (destruct A6 as [?|[?|?]]; auto; done).
  destruct (fifo st) as [|t fifo'] eqn:Ef; intros [= <-].
  - exists d, ps, errs. split; simpl; try done. tauto.
  - exists d, ps, (errs ++ [(t, ConnectionLost)]). split; simpl; try done.
    + by rewrite A2, fmap_app, <- app_assoc.
    + by rewrite A3, app_assoc.
    + split; [|done]. apply Forall_app. by repeat constructor.
Qed.

Lemma inv_return calls st st' : has_inv calls st -> reader_return st = Some st' -> has_inv calls st'.
Proof.
  intros (d & ps & errs & [A1 A2 A3 [A4 A4'] A5 A6 A7 A8]). unfold reader_return.
  destruct (reader st) eqn:Er; try done. intros [= <-].
  exists d, ps, (errs ++ ((fun t => (t, DriverDead)) <$> fifo st)). split; simpl; try done.
  - rewrite A2, fmap_app, <- list_fmap_compose, list_fmap_id. by rewrite <- app_assoc.
  - by rewrite A3, app_assoc.
  - split; [|done]. apply Forall_app. split; [done|]. by apply Forall_fmap, Forall_true.
  - tauto.
Qed.

Lemma inv_conn_step calls st st' : has_inv calls st -> conn_step st st' -> has_inv calls st'.
Proof.
  intros I [n s H|s H|f s H|c s H|s H|s H|s H]; [by eapply inv_recv|by eapply inv_enqueue|by eapply inv_write
    |by eapply inv_read|by eapply inv_extract|by eapply inv_drain|by eapply inv_return].
Qed.

Lemma rtc_inv calls st : rtc conn_step (connected calls) st -> has_inv calls st.
Proof.
  assert (has_inv calls (connected calls)) as I by (exists [], [], []; apply inv_connected).
  revert I. generalize (connected calls). intros st0 I Hr.
  induction Hr as [st|s1 s2 s3 Hs _ IH]; [done|]. apply IH. by eapply inv_conn_step.
Qed.

(** What has been written is part of the encoding of the calls. *)
Lemma sent_prefix calls st d ps errs : conn_inv calls st d ps errs -> sent st `prefix_of` encode_calls calls.
Proof.
  intros [-> _ _ _ _ _ _ Hs]. destruct (writer st); [| |done]; rewrite encode_calls_app, <- Hs.
  - by eexists.
  - rewrite <- app_assoc. by eexists.
Qed.

Lemma received_frames calls st d ps errs :
  conn_inv calls st d ps errs -> exists more fr, extract (mk_reader (received st)) = Done (ps.*2 ++ more, fr).
Proof.
  intros [_ _ _ _ _ _ Hr _]. destruct (reader st); try done.
  - destruct Hr as [_ ->]. exists [], (framer st). by rewrite app_nil_r.
  - destruct Hr as [_ ->]. destruct (extract_total (framer st)) as (rs & fr & -> & _). by eexists _, _.
Qed.

(** ** Properties *)

(** The frame reader does not depend on how the stream is cut: from the frames
    of any responses, in any chunks, it extracts exactly these responses in order,
    and keeps the bytes of an unfinished frame. *)
Theorem frames_any_chunking rs chunks tail :
  Forall stage1.resp_ok rs -> concat chunks = concat (stage1.resp_frame <$> rs) ++ tail ->
  try_extract (mk_reader tail) = Done (None, mk_reader tail) ->
  read_chunks new_reader chunks = Done (rs, mk_reader tail).
Proof.
  intros Hok Hc Ht. rewrite read_chunks_whole by done. rewrite Hc. unfold feed. simpl.
  rewrite extract_frames by done. rewrite extract_unfold, Ht. ostep. by rewrite app_nil_r.
Qed.

(** C20: answers match calls.  In every interleaving of the driver's and the
    reader's actions on a connection, with any socket behaviour: each call the
    driver has dealt with ([d], the calls in order) is either answered once, by
    the reader or by the driver, or waits in the fifo; the [i]-th response frame
    received answers the [i]-th call; whoever gets no response gets an error;
    nothing waits once the reader has returned; and what is written to the socket
    is the encoding of the calls, up to where it failed. *)
Theorem answers_match_calls calls st :
  rtc conn_step (connected calls) st ->
  exists d ps errs more fr,
    calls = d ++ in_hand (writer st) ++ rx st /\
    tx <$> d = (answers st).*1 ++ fifo st ++ (refused st).*1 /\
    answers st = (prod_map id Reply <$> ps) ++ errs /\
    Forall is_error errs /\ Forall is_error (refused st) /\
    extract (mk_reader (received st)) = Done (ps.*2 ++ more, fr) /\
    (reader st = Returned -> fifo st = []) /\
    sent st `prefix_of` encode_calls calls.
Proof.
  intros (d & ps & errs & I)%rtc_inv. pose proof (sent_prefix _ _ _ _ _ I).
  destruct (received_frames _ _ _ _ _ I) as (more & fr & E). destruct I as [A1 A2 A3 [A4 A4'] A5 A6 A7 A8].
  exists d, ps, errs, more, fr. by split_and!.
Qed.

(** The reconnect delays double from 100 ms and stay at 5 s: the [k]-th is
    [min(100 * 2^k, 5000)] ms, and the first success ends them. *)
Theorem reconnect_delays n more :
  exists delays, reconnect (replicate n false ++ true :: more) = delays /\ length delays = S n /\
    forall k, (k <= n)%nat -> delays !! k = Some (Z.min (100 * 2 ^ Z.of_nat k) 5000).
Proof.
  eexists. split; [done|]. unfold reconnect.
  assert (forall d m, 0 < d <= 5000 ->
    length (reconnect_loop d (replicate m false ++ true :: more)) = S m /\
    forall k, (k <= m)%nat ->
      reconnect_loop d (replicate m false ++ true :: more) !! k = Some (Z.min (d * 2 ^ Z.of_nat k) 5000)) as H.
  { intros d m. revert d. induction m as [|m IH]; intros d Hd; cbn [replicate app reconnect_loop].
    - split; [done|]. intros k Hk. assert (k = 0%nat) as -> by lia. simpl. f_equal. lia.
    - destruct (IH (Z.min (d * 2) 5000)) as [H1 H2]; [lia|]. split; [simpl; by rewrite H1|].
      intros [|k] Hk; [simpl; f_equal; lia|]. simpl. rewrite H2 by lia. f_equal.
      rewrite Nat2Z.inj_succ, Z.pow_succ_r by lia. pose proof (Z.pow_pos_nonneg 2 (Z.of_nat k)). nia. }
  apply H. lia.
Qed.

(** *** After the driver *)

(** The connection after the driver has returned, all requests having been
    answered.  The reader holds the last of the client's descriptors; the server
    closes its side when it reads the end of the stream, which is when that
    descriptor is closed, and then the client's reads end. *)
Inductive end_step : bool * Conn -> bool * Conn -> Prop :=
| e_extract closed st st' : reader_extract st = Done (Some st') -> end_step (closed, st) (closed, st')
| e_drain closed st st' : reader_drain st = Some st' -> end_step (closed, st) (closed, st')
| e_return closed st st' : reader_return st = Some st' -> end_step (closed, st) (closed, st')
| e_close st : reader st = Returned -> end_step (false, st) (true, st)
| e_eof st st' : reader_read st None = Some st' -> end_step (true, st) (true, st').

(** The reader outlives the driver: when the last handle of an idle client is
    dropped the driver returns, every call has its answer, and then the reader and
    the server wait for each other to close the connection: neither moves again. *)
Theorem reader_outlives_driver calls st st' :
  rtc conn_step (connected calls) st -> driver_exit 0 st = Some st' -> reader st = Reading -> fifo st = [] ->
  (answers st').*1 ++ (refused st').*1 = tx <$> calls /\ forall x, ~ end_step (false, st') x.
Proof.
  intros (d & ps & errs & [A1 A2 _ _ _ _ _ _])%rtc_inv. unfold driver_exit.
  destruct (writer st) eqn:Ew, (rx st) eqn:Er; try done. intros [= <-] Hr Hf. rewrite Hf in *. simpl in *.
  rewrite app_nil_r in A1. subst d. split; [by rewrite A2|].
  intros x Hs. inversion Hs as [? ? ? Hx|? ? ? Hx|? ? ? Hx|? Hx|]; subst; clear Hs;
    unfold reader_extract, reader_drain, reader_return in Hx; simpl in Hx; by rewrite Hr in Hx.
Qed.

(** ** Witnesses *)

Definition ex_calls : list Call :=
  [mk_call wire.Put (bstr "k") (Some (bstr "v")) 1; mk_call wire.Get (bstr "k") None 2].

Lemma frames_any_chunking_witness :
  read_chunks new_reader [[Byte.x02]; [Byte.x00; Byte.x00]; [Byte.x00; Byte.x00; Byte.x76; Byte.x01; Byte.x00]] =
  Done ([wire.Value (bstr "v")], mk_reader [Byte.x01; Byte.x00]).
Proof.
  apply (frames_any_chunking [wire.Value (bstr "v")]); [repeat constructor; decide_vm|reflexivity|reflexivity].
Defined.

(** Two calls are written, one response arrives, then the connection is lost. *)
Definition ex_lost : Conn :=
  mk_conn [] Receiving [] new_reader Draining true
    [(1%N, Reply wire.RespOk); (2%N, ConnectionLost)] [] (encode_calls ex_calls) (stage1.resp_frame wire.RespOk).

Lemma ex_lost_reached : rtc conn_step (connected ex_calls) ex_lost.
Proof.
  apply (conn_run_ok _ [Recv 1; Enqueue; Enqueue; Write None; Read (Some (stage1.resp_frame wire.RespOk));
    Extract; Extract; Read None; Drain]). vm_compute. reflexivity.
Qed.

(** One call, answered; then the client is dropped. *)
Lemma reader_outlives_driver_witness :
  exists st st', rtc conn_step (connected [mk_call wire.Get (bstr "k") None 2]) st /\ driver_exit 0 st = Some st' /\
    (answers st').*1 = [2%N] /\ forall x, ~ end_step (false, st') x.
Proof.
  set (c := mk_call wire.Get (bstr "k") None 2).
  destruct (conn_run (connected [c]) [Recv 0; Enqueue; Write None; Read (Some (stage1.resp_frame wire.Miss)); Extract; Extract])
    as [st|] eqn:E; [|by vm_compute in E].
  assert (rtc conn_step (connected [c]) st) as Hr by (by eapply conn_run_ok). vm_compute in E. injection E as E.
  destruct (driver_exit 0 st) as [st'|] eqn:Ed; [|by subst st].
  exists st, st'. split; [exact Hr|]. split; [exact Ed|].
  destruct (reader_outlives_driver [c] st st' Hr Ed) as [Ha Hq]; [by subst st..|].
  split; [|exact Hq]. subst st. injection Ed as <-. reflexivity.
Defined.

Lemma answers_match_calls_witness :
  exists d, tx <$> d = [1%N; 2%N] /\ d `prefix_of` ex_calls.
Proof.
  destruct (answers_match_calls ex_calls ex_lost ex_lost_reached) as (d & ps & errs & more & fr & H1 & H2 & _).
  exists d. split; [exact H2|]. rewrite H1. eexists. reflexivity.
Defined.

End client.
