(* ===== verification/EndToEnd.v ===== *)
(** * Client, stage 1 and stage 2: what a client sees

    The path of a request that waits for no disk: from [Client::call] through the
    client's writer, the server's reader, stage 2, the server's writer, the
    client's frame reader and its fifo, back to the caller; and what becomes of it
    when the responses to PUTs wait for the disk. *)

From S2P Require Import Prelude Wire Db WalFormat Snapshot Recovery Types Acker Stage1 Stage2 Client.
Local Open Scope Z_scope.

Module end_to_end.
Import types acker client.

(** A call within the server's frame limit; a PUT has a value. *)
Definition call_ok (c : Call) : Prop :=
  (client.op c = wire.Put -> value c <> None) /\ 5 + len (client.key c) + wire.value_len (value c) <= stage1.MAX_FRAME.
(** The body of its request. *)
Definition body_of (c : Call) : bytes :=
  wire.mk_body (wire.operation_into (client.op c)) (client.key c) (default [] (value c)).

(** The requests of a connection. *)
Definition of_conn (conn : N) (l : list Request) : list Request := filter (fun r => reply r = conn) l.

(** ** The way in *)

Lemma encode_calls_frames calls :
  Forall call_ok calls -> encode_calls calls = concat (stage1.frame <$> (body_of <$> calls)).
Proof.
  intros Hok. induction calls as [|c calls IH] using rev_ind; [done|].
  apply Forall_app in Hok as [Hok [[H1 H2] _]%Forall_cons].
  rewrite encode_calls_snoc, encode_call_app, IH, !fmap_app, concat_app by done. f_equal.
  unfold encode_call. rewrite wire.encode_raw_frame; [|done|].
  - simpl. by rewrite app_nil_r.
  - unfold u32, stage1.MAX_FRAME, wire.value_len in *. destruct (value c); lia.
Qed.

Lemma body_of_bounds c : call_ok c -> 0 < len (body_of c) <= stage1.MAX_FRAME.
Proof.
  intros [_ H]. unfold body_of, wire.mk_body, wire.value_len in *. destruct (value c); len_lia.
Qed.

(** What the server reads from a part of a client's stream: the first requests. *)
Lemma reader_prefix tx conn i bodies stream :
  Forall (fun b => 0 < len b <= stage1.MAX_FRAME) bodies ->
  stream `prefix_of` concat (stage1.frame <$> bodies) ->
  data <$> stage1.reader_loop (length stream) tx conn i stream `prefix_of` bodies /\
  Forall (fun r => reply r = conn) (stage1.reader_loop (length stream) tx conn i stream).
Proof.
  intros Hb. revert i stream. induction Hb as [|b bodies Hb Hbs IH]; intros i stream [rest Hs].
  - destruct stream; [|done]. simpl. by split; [exists []|constructor].
  - rewrite fmap_cons in Hs. cbn [concat] in Hs.
    destruct (decide (length stream < length (stage1.frame b))%nat) as [Hlt|Hge].
    + assert (stage1.reader_loop (length stream) tx conn i stream = []) as ->;
        [|by split; [eexists|constructor]].
      rewrite stage1.reader_loop_unfold. unfold stage1.read_exact at 1.
      destruct (len stream <? 4) eqn:E4; [done|]. apply Z.ltb_ge in E4.
      assert (take (Z.to_nat 4) stream = le_split 4 (len b)) as ->.
      { apply (f_equal (take 4)) in Hs. rewrite (take_app_le stream) in Hs by lia.
        change (Z.to_nat 4) with 4%nat. rewrite <- Hs. unfold stage1.frame. rewrite <- app_assoc.
        by rewrite take_app_length' by len_lia. }
      cbv zeta. rewrite le_split_u32 by (unfold u32, stage1.MAX_FRAME in *; lia).
      destruct (_ || _); [done|]. unfold stage1.read_exact.
      replace (_ <? _) with true; [done|]. symmetry. apply Z.ltb_lt. unfold stage1.frame in Hlt. len_lia.
    + assert (exists s', stream = stage1.frame b ++ s') as [s' ->].
      { exists (drop (length (stage1.frame b)) stream).
        rewrite <- (take_drop (length (stage1.frame b)) stream) at 1. f_equal.
        apply (f_equal (take (length (stage1.frame b)))) in Hs.
        by rewrite take_app_length, take_app_le in Hs by lia. }
      rewrite <- app_assoc in Hs. apply app_inv_head in Hs.
      rewrite stage1.reader_frame by done. destruct (tx i); [|by split; [eexists|constructor]].
      destruct (IH (S i) s') as [[more H1] H2]; [by exists rest|].
      split; [|by constructor]. exists more. rewrite fmap_cons. cbn [app]. by rewrite H1.
Qed.

(** ** The way out *)

Lemma frames_prefix rs stream more fr l :
  Forall stage1.resp_ok l -> stream `prefix_of` concat (stage1.resp_frame <$> l) ->
  extract (mk_reader stream) = Done (rs ++ more, fr) -> rs `prefix_of` l.
Proof.
  intros Hok [rest Hs] He. apply (extract_feed _ _ _ rest) in He. unfold feed in He at 1. simpl in He.
  rewrite <- Hs, <- (app_nil_r (concat _)), extract_frames in He by done.
  change (extract (mk_reader [])) with (Done ([], mk_reader []) : outcome (list wire.Resp * FrameReader)) in He.
  simpl in He. destruct (extract (feed fr rest)) as [[rs' fr']| |]; simpl in He; [|done..].
  injection He as He _. rewrite app_nil_r in He. subst l. rewrite <- app_assoc. by eexists.
Qed.

(** Without fsync nothing waits: stage 2 sends every response. *)
Lemma released_nofsync l :
  released (new args.NoFsync) Applied l = omap (fun r => (fun x => (reply r, x)) <$> resp r) l.
Proof.
  unfold released. induction l as [|r l IH]; [done|]. cbn [omap list_omap]. rewrite IH.
  assert (due (new args.NoFsync) Applied r = true) as ->; [|done].
  unfold due, need. by destruct (is_get r).
Qed.

(** The responses a connection gets, in order. *)
Definition resps_of (conn : N) (l : replies) : list wire.Resp := snd <$> filter (fun p => p.1 = conn) l.

Lemma resps_of_run conn m l :
  resps_of conn (released (new args.NoFsync) Applied (stage2.spec_run m l)) =
  omap resp (of_conn conn (stage2.spec_run m l)).
Proof.
  rewrite released_nofsync. revert m. induction l as [|r l IH]; intros m; [done|].
  cbn [stage2.spec_run omap list_omap]. simpl resp. simpl reply. cbn [fmap option_fmap option_map].
  unfold resps_of, of_conn in *. rewrite !filter_cons. simpl reply. simpl fst.
  destruct (decide (reply r = conn)); [|apply IH]. cbn [omap list_omap]. rewrite fmap_cons. f_equal. apply IH.
Qed.

(** The [i]-th of them is the response to the [i]-th request of the connection,
    where it is served. *)
Lemma resps_of_nth conn m l i r :
  omap resp (of_conn conn (stage2.spec_run m l)) !! i = Some r ->
  exists before q after, l = before ++ q :: after /\ reply q = conn /\
    length (of_conn conn before) = i /\ r = stage2.spec_resp (stage2.spec_view m before) q.
Proof.
  revert m i. induction l as [|q l IH]; intros m i; [done|]. cbn [stage2.spec_run]. unfold of_conn in *.
  rewrite filter_cons. simpl reply. destruct (decide (reply q = conn)) as [Hc|Hc].
  - destruct i as [|i]; cbn [omap list_omap]; simpl resp.
    + intros [= <-]. by exists [], q, l.
    + intros H. destruct (IH (stage2.spec_step m q) i) as (b & q' & a & -> & H1 & H2 & H3); [exact H|].
      exists (q :: b), q', a. split_and!; [done|done| |done]. by rewrite filter_cons_True, length_cons, H2.
  - intros H. destruct (IH (stage2.spec_step m q) i) as (b & q' & a & -> & H1 & H2 & H3); [exact H|].
    exists (q :: b), q', a. split_and!; [done|done| |done]. by rewrite filter_cons_False.
Qed.

(** A client connected as [conn] and the server without fsync: stage 2 serves [inps],
    among them what the reader of the connection has read of [stream]; the writer of
    the connection writes [ws]. *)
Record serves {S} `{KvLaws S} (st st' : stage2.Loop S) inps out msgs conn opens stream rounds ws : Prop := {
  sv_wf : stage2.loop_wf st;
  sv_inputs : Forall stage2.input_ok inps;
  sv_ok : Forall (fun r => req_ok r = true) (stage2.all_requests st inps);
  sv_lsn : u64 (stage2.lsn st);
  sv_lsns : u64 (stage2.lsn st + stage2.puts (stage2.all_requests st inps));
  sv_run : stage2.run (new args.NoFsync) st inps = Done (st', out, msgs);
  sv_read : of_conn conn (stage2.all_requests st inps) `prefix_of` stage1.handle_conn_reader opens conn stream;
  sv_fits : Forall stage1.resp_ok (resps_of conn out);
  sv_written : stage1.writer_run rounds (resps_of conn out) = Done ws;
}.

(** The responses in what the client has received, if what it has sent is part of the
    encoding of [calls]: the [i]-th is the one of the [i]-th call, where it is served. *)
Lemma served_in_order {S} `{KvLaws S} (st st' : stage2.Loop S) inps out msgs conn opens calls stream rounds ws
    got rs more fr i r :
  serves st st' inps out msgs conn opens stream rounds ws ->
  Forall call_ok calls -> stream `prefix_of` encode_calls calls ->
  got `prefix_of` concat ws -> extract (mk_reader got) = Done (rs ++ more, fr) -> rs !! i = Some r ->
  exists c before q after, calls !! i = Some c /\
    stage2.all_requests st inps = before ++ q :: after /\ reply q = conn /\
    data <$> of_conn conn before = take i (body_of <$> calls) /\ data q = body_of c /\
    r = stage2.spec_resp (stage2.spec_view (kv_view (stage2.loop_db st)) before) q.
Proof.
  intros [V1 V2 V3 V4 V5 V6 V7 V8 V9] Hcalls Hstream Hrecv Hfr Hi.
  destruct (stage1.writer_run_ok rounds _ V8) as (ws' & n & Ew & Hcat & _). rewrite V9 in Ew.
  injection Ew as <-. rewrite Hcat in Hrecv.
  apply (frames_prefix rs got more fr) in Hrecv; [|by apply Forall_take|done].
  destruct (stage2.run_ok (new args.NoFsync) st inps) as (st2 & msgs2 & served & Hall & _ & Er & _); [done..|].
  rewrite V6 in Er. injection Er as _ -> _. rewrite resps_of_run in Hrecv.
  destruct (resps_of_nth conn (kv_view (stage2.loop_db st)) served i r) as (before & q & after & -> & Hq & Hlen & ->).
  { destruct Hrecv as [l Hr]. eapply lookup_take_Some. rewrite Hr. by apply lookup_app_l_Some. }
  assert (stream `prefix_of` concat (stage1.frame <$> (body_of <$> calls))) as Hpre by by rewrite <- encode_calls_frames.
  destruct (reader_prefix opens conn 0 (body_of <$> calls) stream) as [[l1 E1] _]; [|done|].
  { apply Forall_fmap. eapply Forall_impl; [exact Hcalls|]. apply body_of_bounds. }
  destruct V7 as [l2 E2]. unfold stage1.handle_conn_reader in E2. rewrite E2, Hall in E1.
  unfold of_conn in E1, Hlen. rewrite <- (app_assoc before), filter_app in E1. simpl app in E1.
  rewrite filter_cons_True, !fmap_app, <- !app_assoc in E1 by done.
  assert ((body_of <$> calls) !! i = Some (data q)) as Hd.
  { rewrite E1, lookup_app_r; rewrite length_fmap, Hlen; [|done]. by rewrite Nat.sub_diag. }
  assert (exists c, calls !! i = Some c /\ data q = body_of c) as (c & Hc & Hb).
  { apply list_lookup_fmap_Some in Hd as (c & Hb & Hc). by exists c. }
  exists c, before, q, (after ++ stage2.item_rx st2). split_and!; try done.
  - by rewrite Hall, <- app_assoc.
  - rewrite E1, take_app_length'; [done|by rewrite length_fmap].
Qed.

(** C3: without fsync a client sees one sequential store.  Any number of clients
    talk to the server; take one, connected as [conn], in any interleaving of its
    threads with any chunking and any cut of its streams.  If a call is answered
    with a response, then its request is in the order in which stage 2 serves the
    requests of all clients, and the response is the one a map gives that serves
    them one at a time; the calls of the client are served in the order made. *)
Theorem nofsync_client_sees_store {S} `{KvLaws S} (st st' : stage2.Loop S) inps out msgs
    conn opens calls cst stream rounds ws :
  stage2.loop_wf st -> Forall stage2.input_ok inps ->
  Forall (fun r => req_ok r = true) (stage2.all_requests st inps) ->
  u64 (stage2.lsn st) -> u64 (stage2.lsn st + stage2.puts (stage2.all_requests st inps)) ->
  stage2.run (new args.NoFsync) st inps = Done (st', out, msgs) ->
  Forall call_ok calls -> rtc conn_step (connected calls) cst -> stream `prefix_of` sent cst ->
  of_conn conn (stage2.all_requests st inps) `prefix_of` stage1.handle_conn_reader opens conn stream ->
  Forall stage1.resp_ok (resps_of conn out) -> stage1.writer_run rounds (resps_of conn out) = Done ws ->
  received cst `prefix_of` concat ws ->
  forall i t r, answers cst !! i = Some (t, Reply r) ->
    exists c before q after, calls !! i = Some c /\ client.tx c = t /\
      stage2.all_requests st inps = before ++ q :: after /\ reply q = conn /\
      length (of_conn conn before) = i /\ data q = body_of c /\
      r = stage2.spec_resp (stage2.spec_view (kv_view (stage2.loop_db st)) before) q.
Proof.
  intros Hwf Hin Hok Hl Hu Hrun Hcalls Hc Hstream Hreqs Hresp Hws Hrecv i t r Ha.
  apply rtc_inv in Hc as (d & ps & errs & I). destruct (received_frames _ _ _ _ _ I) as (more & fr & Hfr).
  pose proof (sent_prefix _ _ _ _ _ I) as Hsent. destruct I as [A1 A2 A3 [A4 _] _ _ _ _].
  assert (ps !! i = Some (t, r)) as Hp.
  { rewrite A3 in Ha. apply lookup_app_Some in Ha as [Ha|[_ Ha]].
    - rewrite list_lookup_fmap in Ha. destruct (ps !! i) as [[t' r']|]; [|done]. by injection Ha as -> ->.
    - apply list_elem_of_lookup_2 in Ha. rewrite Forall_forall in A4. by apply A4 in Ha. }
  destruct (served_in_order st st' inps out msgs conn opens calls stream rounds ws (received cst) ps.*2 more fr i r)
    as (c & before & q & after & Hci & Hall & Hq & Hb & Hd & Hr); [by split|done| |done|done| |].
  { by etransitivity. }
  { by rewrite list_lookup_fmap, Hp. }
  exists c, before, q, after. split_and!; try done.
  - assert ((client.tx <$> calls) !! i = Some t) as Hi.
    { rewrite A1, fmap_app, A2, <- app_assoc. apply lookup_app_l_Some. by rewrite list_lookup_fmap, Ha. }
    rewrite list_lookup_fmap, Hci in Hi. by injection Hi.
  - apply (f_equal length) in Hb. rewrite length_fmap, length_take, length_fmap in Hb. rewrite Hb.
    apply lookup_lt_Some in Hci. lia.
Qed.

(** ** Acknowledgements that wait for the disk *)









(** ** Witness *)

(** The requests of the client's two calls, with another client's PUT between. *)
Definition ex_arrivals : list Request :=
  [mk_request (wire.mk_body wire.OP_PUT (bstr "k") (bstr "v")) 7 None;
   mk_request (wire.mk_body wire.OP_PUT (bstr "k") (bstr "w")) 8 None;
   mk_request (wire.mk_body wire.OP_GET (bstr "k") []) 7 None].
Definition ex_inputs : list stage2.Input := [stage2.mk_input (Some (with_capacity 0 0)) ex_arrivals true].
Definition ex_stream : bytes := stage1.resp_frame wire.RespOk ++ stage1.resp_frame (wire.Value (bstr "w")).
Definition ex_done : Conn :=
  mk_conn [] Receiving [] new_reader Extracting false
    [(1%N, Reply wire.RespOk); (2%N, Reply (wire.Value (bstr "w")))] [] (encode_calls ex_calls) ex_stream.

Lemma nofsync_client_sees_store_witness :
  exists before q after, ex_arrivals = before ++ q :: after /\ length (of_conn 7 before) = 1%nat /\
    stage2.spec_resp (stage2.spec_view ∅ before) q = wire.Value (bstr "w").
Proof.
  assert (exists q, stage2.run (new args.NoFsync) (stage2.run_main_loop_init (kv_new (S := db.Db)) 1) ex_inputs = Done q /\
    resps_of 7 q.1.2 = [wire.RespOk; wire.Value (bstr "w")]) as ([[st' out] msgs] & E & Ho)
    by (eexists; split; vm_compute; reflexivity).
  simpl in Ho.
  destruct (nofsync_client_sees_store (stage2.run_main_loop_init (kv_new (S := db.Db)) 1) st' ex_inputs out msgs
    7 (fun _ => true) ex_calls ex_done (encode_calls ex_calls) [(1%nat, true)] [ex_stream])
    with (i := 1%nat) (t := 2%N) (r := wire.Value (bstr "w"))
    as (c & before & q & after & _ & _ & Hs & _ & Hl & _ & Hr).
  - split; [apply kv_new_wf|done].
  - constructor; [|constructor]. split; [discriminate|by exists (with_capacity 0 0)|reflexivity].
  - decide_vm.
  - decide_vm.
  - decide_vm.
  - exact E.
  - repeat (apply Forall_cons; split); [split; [discriminate|vm_compute; discriminate]..|constructor].
  - apply (conn_run_ok _ [Recv 1; Enqueue; Enqueue; Write None; Read (Some ex_stream); Extract; Extract]).
    vm_compute. reflexivity.
  - exists []. by rewrite app_nil_r.
  - exists []. vm_compute. reflexivity.
  - rewrite Ho. repeat constructor; decide_vm.
  - rewrite Ho. vm_compute. reflexivity.
  - exists []. vm_compute. reflexivity.
  - reflexivity.
  - exists before, q, after. split; [exact Hs|]. split; [exact Hl|]. symmetry. exact Hr.
Defined.



End end_to_end.
