(* ===== verification/AllocStat.v ===== *)
(** * The counting allocator ([crates/server/src/alloc_stat.rs])

    Four atomic counters around the system allocator, and the line that stage 1
    prints from two samples of them.  The system allocator itself is not in the
    source; the counters do not depend on what it returns. *)

From S2P Require Import Prelude.
Local Open Scope Z_scope.

Module alloc_stat.

Record Stats := mk_stats { allocs : Z; reallocs : Z; frees : Z; bytes_ : Z }.
(** The statics, at the start. *)
Definition ZERO : Stats := mk_stats 0 0 0 0.

(** A call of the [GlobalAlloc] methods, with the sizes they are given. *)
Inductive Call := Alloc (size : Z) | Dealloc | Realloc (new_size : Z).

(** What a call adds to the counters ([fetch_add] wraps around). *)
Definition count (s : Stats) (c : Call) : Stats :=
  match c with
  | Alloc n => mk_stats (add64 (allocs s) 1) (reallocs s) (frees s) (add64 (bytes_ s) n)
  | Dealloc => mk_stats (allocs s) (reallocs s) (add64 (frees s) 1) (bytes_ s)
  | Realloc _ => mk_stats (allocs s) (add64 (reallocs s) 1) (frees s) (bytes_ s)
  end.

(** [snapshot] after some calls, none of which is under way. *)
Definition snapshot (calls : list Call) : Stats := fold_left count calls ZERO.

(** The numbers of the line that stage 1 prints every two seconds. *)
Definition as_i64 (z : Z) : Z := (z + 2 ^ 63) mod 2 ^ 64 - 2 ^ 63.
Definition printed (last now : Stats) : Z * Z * Z * Z :=
  (sub64 (allocs now) (allocs last), sub64 (reallocs now) (reallocs last), sub64 (frees now) (frees last),
   as_i64 (as_i64 (allocs now) - as_i64 (frees now))).

(** ** What the counters count *)

Definition number (p : Call -> bool) (calls : list Call) : Z := len (filter (fun c => p c = true) calls).
Definition is_alloc (c : Call) : bool := match c with Alloc _ => true | _ => false end.
Definition is_free (c : Call) : bool := match c with Dealloc => true | _ => false end.
Definition is_realloc (c : Call) : bool := match c with Realloc _ => true | _ => false end.

(** [realloc] does not count the bytes it is asked for. *)
Definition asked (c : Call) : Z := match c with Alloc n => n | _ => 0 end.

Lemma number_cons p c calls : number p (c :: calls) = (if p c then 1 else 0) + number p calls.
Proof. unfold number. rewrite filter_cons. destruct (p c); simpl; lia. Qed.

Lemma count_all calls s :
  fold_left count calls (mk_stats (wrap64 (allocs s)) (wrap64 (reallocs s)) (wrap64 (frees s)) (wrap64 (bytes_ s))) =
  mk_stats (wrap64 (allocs s + number is_alloc calls)) (wrap64 (reallocs s + number is_realloc calls))
    (wrap64 (frees s + number is_free calls))
    (wrap64 (bytes_ s + foldr Z.add 0 (asked <$> calls))).
Proof.
  revert s. induction calls as [|c calls IH]; intros [a r f b]; simpl; [by rewrite !Z.add_0_r|].
  rewrite !number_cons. destruct c as [n| |n]; simpl; unfold add64, wrap64 in *; rewrite ?Zplus_mod_idemp_l;
    [pose proof (IH (mk_stats (a + 1) r f (b + n))) as E|pose proof (IH (mk_stats a r (f + 1) b)) as E
    |pose proof (IH (mk_stats a (r + 1) f b)) as E]; simpl in E; rewrite E; simpl;
    by rewrite ?Z.add_0_l, <- ?Z.add_assoc.
Qed.

Lemma snapshot_counts calls :
  allocs (snapshot calls) = wrap64 (number is_alloc calls) /\
  reallocs (snapshot calls) = wrap64 (number is_realloc calls) /\
  frees (snapshot calls) = wrap64 (number is_free calls).
Proof.
  unfold snapshot. pose proof (count_all calls ZERO) as E.
  change (mk_stats (wrap64 (allocs ZERO)) _ _ _) with ZERO in E. rewrite E. simpl. done.
Qed.

Lemma number_of_app p l1 l2 : number p (l1 ++ l2) = number p l1 + number p l2.
Proof. unfold number. rewrite filter_app, length_app. lia. Qed.

Lemma as_i64_sub a b : as_i64 (as_i64 (wrap64 a) - as_i64 (wrap64 b)) = as_i64 (a - b).
Proof.
  unfold as_i64, wrap64. f_equal.
  rewrite !Zplus_mod_idemp_l.
  replace ((a + 2 ^ 63) mod 2 ^ 64 - 2 ^ 63 - ((b + 2 ^ 63) mod 2 ^ 64 - 2 ^ 63) + 2 ^ 63)
    with ((a + 2 ^ 63) mod 2 ^ 64 - (b + 2 ^ 63) mod 2 ^ 64 + 2 ^ 63) by lia.
  rewrite <- Zplus_mod_idemp_l, <- Zminus_mod, Zplus_mod_idemp_l. f_equal. lia.
Qed.

(** ** Properties *)

(** Calls of several threads may hit the counters in any order. *)
#[export] Instance snapshot_proper : Proper ((≡ₚ) ==> (=)) snapshot.
Proof.
  intros l1 l2 Hp. unfold snapshot. pose proof (count_all l1 ZERO) as E1. pose proof (count_all l2 ZERO) as E2.
  change (mk_stats (wrap64 (allocs ZERO)) _ _ _) with ZERO in *. rewrite E1, E2. unfold number.
  assert (foldr Z.add 0 (asked <$> l1) =
          foldr Z.add 0 (asked <$> l2)) as ->.
  { clear E1 E2. induction Hp; rewrite ?fmap_cons; cbn [foldr]; lia. }
  by rewrite !Hp.
Qed.

(** The printed line is right: its first three numbers are the calls made between
    the two samples, even when a counter has wrapped around in between, and the
    last one is the allocations not yet freed. *)
Theorem printed_counts before since :
  let n p := number p since in
  u64 (n is_alloc) -> u64 (n is_realloc) -> u64 (n is_free) ->
  - 2 ^ 63 <= number is_alloc (before ++ since) - number is_free (before ++ since) < 2 ^ 63 ->
  printed (snapshot before) (snapshot (before ++ since)) =
    (n is_alloc, n is_realloc, n is_free,
     number is_alloc (before ++ since) - number is_free (before ++ since)).
Proof.
  intros n H1 H2 H3 Hl. unfold printed. destruct (snapshot_counts before) as (-> & -> & ->).
  destruct (snapshot_counts (before ++ since)) as (-> & -> & ->). rewrite as_i64_sub.
  assert (forall p, u64 (n p) -> sub64 (wrap64 (number p (before ++ since))) (wrap64 (number p before)) = n p) as E.
  { intros p Hp. unfold sub64, wrap64. rewrite <- Zminus_mod, number_of_app.
    replace (number p before + number p since - number p before) with (n p) by (unfold n; lia). by apply wrap64_small. }
  rewrite !E by done. do 2 f_equal. unfold as_i64. rewrite Z.mod_small by lia. lia.
Qed.

Lemma printed_counts_witness :
  printed (snapshot [Alloc 8; Alloc 16]) (snapshot [Alloc 8; Alloc 16; Realloc 32; Dealloc]) = (0, 1, 1, 1).
Proof.
  apply (printed_counts [Alloc 8; Alloc 16] [Realloc 32; Dealloc]); [decide_vm..|vm_compute; split; [discriminate|reflexivity]].
Defined.

End alloc_stat.
