(* ===== verification/Bench.v ===== *)
(** * The throughput benchmark ([crates/smart_client/examples/bench.rs])

    Its tasks put and get keys from a fixed pool: here are the keys each task
    uses in the warm-up and in the two phases, and what the table of stage 2
    answers to the reads after the warm-up. *)

From S2P Require Import Prelude Wire WalFormat Types Stage2.
Local Open Scope Z_scope.

Module bench.
Import types wal_format.

Definition key_count : Z := 10000.

(** [format!("bench:{i:08}")] *)
Definition key (i : Z) : bytes := bstr "bench:" ++ dec_digits 8 i.

(** [key_count / conc as u64]: a division by zero panics. *)
Definition keys_per_task (conc : Z) : outcome Z := if conc =? 0 then Panic else Done (key_count / conc).

(** The keys task [t] puts in the warm-up. *)
Definition warm_keys (keys_per_task t : Z) : list Z := seqZ (t * keys_per_task) keys_per_task.
Definition warmup (conc : Z) : outcome (list Z) :=
  n ← keys_per_task conc;
  Done ((seqZ 0 conc ≫= warm_keys n)).

(** The [i]-th key of task [t] in the PUT and in the GET phase. *)
Definition base_key (keys_per_task t : Z) : Z := (t * keys_per_task) mod key_count.
Definition phase_key (keys_per_task t i : Z) : Z := add64 (base_key keys_per_task t) i mod key_count.

(** ** The keys *)

Lemma key_inj i j : 0 <= i < 10 ^ 8 -> 0 <= j < 10 ^ 8 -> key i = key j -> i = j.
Proof.
  intros Hi Hj E%app_inv_head.
  pose proof (parse_dec_digits 8 0 i ltac:(lia) Hi ltac:(simpl; lia)) as Ei.
  pose proof (parse_dec_digits 8 0 j ltac:(lia) Hj ltac:(simpl; lia)) as Ej.
  rewrite E, Ej in Ei. injection Ei as Ei. lia.
Qed.

Lemma phase_key_bounds n t i : 0 <= phase_key n t i < key_count.
Proof. apply Z.mod_pos_bound. done. Qed.

(** Together the tasks warm the keys below [conc * n], no more. *)
Lemma warmup_spec conc n k :
  0 < conc -> 0 <= n -> k ∈ (seqZ 0 conc ≫= warm_keys n) <-> 0 <= k < conc * n.
Proof.
  intros Hc Hn. rewrite list_elem_of_bind. split.
  - intros (t & Hk & Ht). apply elem_of_seqZ in Ht.
    unfold warm_keys in Hk. apply elem_of_seqZ in Hk. nia.
  - intros Hk. exists (k / n). assert (0 < n) by nia.
    pose proof (Z.div_mod k n ltac:(lia)). pose proof (Z.mod_pos_bound k n ltac:(lia)).
    split; [apply elem_of_seqZ; nia|]. apply elem_of_seqZ. split; [apply Z.div_pos; lia|]. apply Z.div_lt_upper_bound; nia.
Qed.

(** Whether every key of the pool is warmed. *)
Lemma warmup_all conc :
  0 < conc -> (forall k, 0 <= k < key_count -> k < conc * (key_count / conc)) <-> (conc | key_count).
Proof.
  intros Hc. pose proof (Z.div_mod key_count conc ltac:(lia)) as E.
  pose proof (Z.mod_pos_bound key_count conc Hc) as B. rewrite <- Z.mod_divide by lia. split.
  - intros Hk. specialize (Hk (key_count - 1) ltac:(unfold key_count; lia)). lia.
  - intros Hm k Hk. lia.
Qed.
(** ** The table after the warm-up *)

(** The bodies the tasks send. *)
Definition put_body (v : bytes) (k : Z) : bytes := wire.mk_body wire.OP_PUT (key k) v.
Definition get_body (k : Z) : bytes := wire.mk_body wire.OP_GET (key k) [].

Lemma key_u32 k : u32 (len (key k)).
Proof. unfold key. rewrite length_app, dec_digits_length. vm_compute. split; [discriminate|reflexivity]. Qed.

Lemma kv_of_body o k v r : types.data r = wire.mk_body o (key k) v -> kv_of r = (key k, v).
Proof. intros Hd. unfold kv_of. by rewrite Hd, wire.split_kv_mk_body by apply key_u32. Qed.

(** Every order of the warm-up's requests leaves the same table. *)
Lemma view_after m v ks reqs k :
  types.data <$> reqs ≡ₚ put_body v <$> ks ->
  (k ∈ ks -> stage2.spec_view m reqs !! key k = Some v) /\
  (0 <= k < 10 ^ 8 -> Forall (fun j => 0 <= j < 10 ^ 8) ks -> k ∉ ks ->
   stage2.spec_view m reqs !! key k = m !! key k).
Proof.
  intros Hp.
  assert (Forall (fun r => exists j, j ∈ ks /\ types.data r = put_body v j) reqs) as Hr.
  { apply Forall_forall. intros r Hr. apply (list_elem_of_fmap_2 types.data) in Hr. rewrite Hp in Hr.
    apply list_elem_of_fmap in Hr as (j & E & Hj). by exists j. }
  split.
  - intros Hk. assert (put_body v k ∈ types.data <$> reqs) as Hin by (rewrite Hp; by apply list_elem_of_fmap_2).
    clear Hp. revert m. induction Hr as [|r reqs (j & Hj & Ej) Hr IH]; intros m; [by apply not_elem_of_nil in Hin|].
    rewrite fmap_cons in Hin. unfold stage2.spec_view in *. simpl.
    destruct (decide (put_body v k ∈ types.data <$> reqs)) as [Hin2|Hout]; [by apply IH|].
    apply elem_of_cons in Hin as [Hin|]; [|done]. fold (stage2.spec_view (stage2.spec_step m r) reqs).
    assert (stage2.spec_step m r = <[key k := v]> m) as ->.
    { unfold stage2.spec_step, is_put, opc. rewrite <- Hin. simpl. symmetry in Hin. by rewrite (kv_of_body _ _ _ _ Hin). }
    rewrite stage2.spec_view_untouched, ?lookup_insert_eq; [done|].
    apply Forall_forall. intros r' Hr' _ Hk'. apply Hout. rewrite Forall_forall in Hr.
    destruct (Hr r' Hr') as (j' & _ & Ej'). rewrite (kv_of_body _ _ _ _ Ej') in Hk'. simpl in Hk'.
    apply list_elem_of_fmap. exists r'. split; [|done]. rewrite Ej'. unfold put_body. by rewrite Hk'.
  - intros Hk Hks Hout. apply stage2.spec_view_untouched. eapply Forall_impl; [exact Hr|].
    intros r (j & Hj & Ej) _ E. rewrite (kv_of_body _ _ _ _ Ej) in E. simpl in E. rewrite Forall_forall in Hks.
    apply key_inj in E as ->; [done|by apply Hks|done].
Qed.

Lemma get_answer m r k :
  types.data r = get_body k ->
  stage2.spec_resp m r = match m !! key k with Some v => wire.Value v | None => wire.Miss end.
Proof. intros Hd. unfold stage2.spec_resp, opc. rewrite (kv_of_body _ _ _ _ Hd), Hd. done. Qed.

(** ** Property *)

(** The warm-up warms what it says exactly when the number of tasks divides the
    number of keys: then, whatever the order in which the server gets the PUTs,
    every GET of the last phase is a hit.  Otherwise (32 tasks, the default) the
    GETs of some keys miss; and no task at all is a division by zero. *)
Theorem warmup_hits conc v m reqs :
  0 <= conc -> (forall k, 0 <= k < key_count -> m !! key k = None) ->
  match warmup conc with
  | Done ks =>
      types.data <$> reqs ≡ₚ put_body v <$> ks ->
      (forall n t i r, keys_per_task conc = Done n -> types.data r = get_body (phase_key n t i) ->
         (conc | key_count) -> stage2.spec_resp (stage2.spec_view m reqs) r = wire.Value v) /\
      (~ (conc | key_count) -> exists n i, keys_per_task conc = Done n /\ forall r,
         types.data r = get_body (phase_key n 0 i) -> stage2.spec_resp (stage2.spec_view m reqs) r = wire.Miss)
  | Panic => conc = 0
  | IoErr _ => False
  end.
Proof.
  intros Hc Hm. unfold warmup, keys_per_task. destruct (conc =? 0) eqn:E0; [by apply Z.eqb_eq in E0|].
  apply Z.eqb_neq in E0. ostep. set (n := key_count / conc). intros Hp. assert (0 < conc) as Hc' by lia.
  assert (0 <= n) as Hn by (apply Z.div_pos; unfold key_count; lia).
  set (ks := (seqZ 0 conc ≫= warm_keys n)) in *.
  split.
  - intros n' t i r [= <-] Hd Hdiv. rewrite (get_answer _ _ _ Hd).
    pose proof (phase_key_bounds n t i) as Hb. destruct (view_after m v ks reqs (phase_key n t i) Hp) as [Hv _].
    rewrite Hv; [done|]. apply warmup_spec; [done|done|]. split; [lia|]. by apply warmup_all.
  - intros Hdiv. exists n, (key_count - 1). split; [done|]. intros r Hd. rewrite (get_answer _ _ _ Hd).
    assert (phase_key n 0 (key_count - 1) = key_count - 1) as Ek by reflexivity. rewrite Ek in *.
    assert (conc * n < key_count) as Hlt.
    { pose proof (Z.div_mod key_count conc ltac:(lia)). pose proof (Z.mod_pos_bound key_count conc Hc').
      rewrite <- Z.mod_divide in Hdiv by lia. unfold n. lia. }
    destruct (view_after m v ks reqs (key_count - 1) Hp) as [_ Hv]. rewrite Hv, Hm; [done|unfold key_count; lia..| |].
    + apply Forall_forall. intros k Hk. apply warmup_spec in Hk; [|done|done]. unfold key_count in *. lia.
    + intros Hk. apply warmup_spec in Hk; [|done|done]. nia.
Qed.

(** With the default 32 tasks the key 9999 is not warmed: 32 does not divide 10000. *)
Definition ex_put (k : Z) : Request := mk_request (put_body (bstr "x") k) 0 None.

Lemma warmup_hits_witness :
  exists ks n i, warmup 32 = Done ks /\ keys_per_task 32 = Done n /\ forall r,
    types.data r = get_body (phase_key n 0 i) ->
    stage2.spec_resp (stage2.spec_view ∅ (ex_put <$> ks)) r = wire.Miss.
Proof.
  exists (seqZ 0 32 ≫= warm_keys 312).
  destruct (warmup_hits 32 (bstr "x") ∅ (ex_put <$> (seqZ 0 32 ≫= warm_keys 312))) as [_ H].
  - discriminate.
  - intros k _. apply lookup_empty.
  - rewrite <- list_fmap_compose. reflexivity.
  - destruct H as (n & i & Hn & Hr).
    + intros [q Hq]. unfold key_count in Hq. lia.
    + exists n, i. split; [reflexivity|]. split; [exact Hn|exact Hr].
Defined.

End bench.
