(* ===== verification/LoadGen.v ===== *)
(** * The load generator ([crates/server/benches/loadgen.rs])

    Its own codec ([write_key], [push_req], [FrameReader]), its random numbers
    and the loops of a worker.  The socket is an input: what arrives on it, and
    whether a write succeeds.  [LoadMain] has its [main]. *)

From S2P Require Import Prelude Wire WalFormat Types Stage1 Stage2.
Local Open Scope Z_scope.

Module loadgen.
Import stage1.

Definition KEYSPACE : Z := 100000.
Definition KEY_LEN : nat := 9.

Record Cfg := mk_cfg { conns : Z; pipeline : Z; put_pct : Z; val_size : Z }.

(** ** Requests *)

(** The loop of [write_key], from the last index down to 1. *)
Fixpoint write_digits (i : nat) (buf : bytes) (n : Z) : bytes :=
  match i with
  | O => buf
  | S i' => write_digits i' (<[i := byte.of_Z (48 + n mod 10)]> buf) (n / 10)
  end.
Definition write_key (buf : bytes) (n : Z) : bytes := write_digits (KEY_LEN - 1) buf n.

Definition push_req (buf : bytes) (op : Init.Byte.byte) (key val : bytes) : bytes :=
  let body := 1 + 4 + len key + len val in
  let buf := buf ++ le_split 4 (as_u32 body) in
  let buf := buf ++ [op] in
  let buf := buf ++ le_split 4 (as_u32 (len key)) in
  let buf := buf ++ key in
  buf ++ val.

(** [u64] shifts drop the bits above the 64th. *)
Definition xorshift (r : Z) : Z :=
  let r := Z.lxor r (wrap64 (Z.shiftl r 13)) in
  let r := Z.lxor r (Z.shiftr r 7) in
  Z.lxor r (wrap64 (Z.shiftl r 17)).

Definition seed (tid : Z) : Z :=
  Z.lxor 0x9e3779b97f4a7c15 (wrap64 ((tid + 1) * 0xd1b54a32d192ed03)).

(** ** [FrameReader] *)

(** [buf[pos..have]] is what was read and not parsed. *)
Record FrameReader := mk_reader { buf : bytes; have : Z; pos : Z; misses : Z }.

Definition BUF_SIZE : nat := Nat.pow 2 20.
Definition new_reader : FrameReader := mk_reader (replicate BUF_SIZE Byte.x00) 0 0 0.

(** What the socket does: bytes arrive, or it fails; at the end of the list the
    peer has closed it. *)
Inductive Event := Arrived (b : bytes) | Broken (e : Z).

(** [read] fills at most [space] bytes. *)
Definition sock_read (space : Z) (sock : list Event) : outcome (bytes * list Event) :=
  match sock with
  | [] => Done ([], [])
  | Arrived b :: sock =>
      if len b <=? space then Done (b, sock)
      else Done (take (Z.to_nat space) b, Arrived (drop (Z.to_nat space) b) :: sock)
  | Broken e :: _ => IoErr e
  end.

(** The error made for ["server closed"] has no OS code. *)
Definition SERVER_CLOSED : Z := 0.

(** The part of the loop that takes a full frame from the buffer. *)
Definition next_frame (fr : FrameReader) : outcome (option FrameReader) :=
  if 4 <=? have fr - pos fr then
    hdr ← slice (buf fr) (pos fr) (pos fr + 4);
    n ← wire.rd_u32 hdr;
    if 4 + n <=? have fr - pos fr then
      m ← (if 1 <=? n then
             c ← index (buf fr) (pos fr + 4);
             Done (if decide (c = Byte.x02) then misses fr + 1 else misses fr)
           else Done (misses fr));
      Done (Some (mk_reader (buf fr) (have fr) (pos fr + (4 + n)) m))
    else Done None
  else Done None.

(** [copy_within] moves the remainder to the front. *)
Definition compact (fr : FrameReader) : outcome FrameReader :=
  if 0 <? pos fr then
    s ← slice (buf fr) (pos fr) (have fr);
    Done (mk_reader (s ++ drop (length s) (buf fr)) (have fr - pos fr) 0 (misses fr))
  else Done fr.
Definition grow (fr : FrameReader) : FrameReader :=
  if have fr =? len (buf fr)
  then mk_reader (buf fr ++ replicate (length (buf fr)) Byte.x00) (have fr) (pos fr) (misses fr) else fr.
(** The bytes that [read] puts behind those it has. *)
Definition store (fr : FrameReader) (b : bytes) : FrameReader :=
  mk_reader (take (Z.to_nat (have fr)) (buf fr) ++ b ++ drop (Z.to_nat (have fr) + length b) (buf fr))
    (have fr + len b) (pos fr) (misses fr).

(** [io::Result<u64>]; the reader keeps what it has either way. *)
Inductive ReadResult := Got (rx : Z) | Failed (e : Z).

(** The loop of [read_frames]; it returns the bytes received.  Every turn takes a
    frame or bytes from the socket, so the fuel of [read_frames] is enough
    ([read_loop_fuel]). *)
Fixpoint read_loop (fuel : nat) (fr : FrameReader) (sock : list Event) (count : nat) (rx : Z)
    : outcome (ReadResult * FrameReader * list Event) :=
  match count, fuel with
  | O, _ => Done (Got rx, fr, sock)
  | _, O => Panic
  | S count', S fuel =>
      o ← next_frame fr;
      match o with
      | Some fr => read_loop fuel fr sock count' rx
      | None =>
          fr ← compact fr;
          let fr := grow fr in
          match sock_read (len (buf fr) - have fr) sock with
          | Done (b, sock) =>
              if len b =? 0 then Done (Failed SERVER_CLOSED, fr, sock)
              else read_loop fuel (store fr b) sock count (rx + len b)
          | IoErr e => Done (Failed e, fr, sock)
          | Panic => Panic
          end
      end
  end.
Definition event_size (e : Event) : nat := match e with Arrived b => length b | Broken _ => 0 end.
Definition sock_size (sock : list Event) : nat := sum_list (event_size <$> sock).
Definition read_frames (fr : FrameReader) (sock : list Event) (count : nat)
    : outcome (ReadResult * FrameReader * list Event) :=
  read_loop (count + sock_size sock) fr sock count 0.

(** ** A connection *)

Definition range_start (tid : Z) (cfg : Cfg) : Z := tid * KEYSPACE / conns cfg.
Definition range_end (tid : Z) (cfg : Cfg) : Z := (tid + 1) * KEYSPACE / conns cfg.

Definition value_of (cfg : Cfg) : bytes := replicate (Z.to_nat (val_size cfg)) Byte.x76.
Definition keybuf0 : bytes := bstr "k00000000".

(** A loop over [push_req] with the key buffer reused. *)
Fixpoint push_puts (cfg : Cfg) (keybuf sendbuf : bytes) (keys : list Z) : bytes * bytes :=
  match keys with
  | [] => (keybuf, sendbuf)
  | k :: keys =>
      let keybuf := write_key keybuf k in
      push_puts cfg keybuf (push_req sendbuf wire.OP_PUT keybuf (value_of cfg)) keys
  end.

(** The [while] of [setup_conn]; [wr]: the outcome of [write_all].  It returns
    what was sent, in batches. *)
Fixpoint prefill (fuel : nat) (cfg : Cfg) (wr : bytes -> outcome unit) (keybuf : bytes) (i end_ : Z)
    (fr : FrameReader) (sock : list Event) : outcome (list bytes * FrameReader * list Event) :=
  if i <? end_ then
    match fuel with
    | O => Panic
    | S fuel =>
        let n := Z.min (end_ - i) (pipeline cfg) in
        let '(keybuf, sendbuf) := push_puts cfg keybuf [] (seqZ i n) in
        _ ← wr sendbuf;
        '(got, fr, sock) ← read_frames fr sock (Z.to_nat n);
        match got with
        | Failed e => IoErr e
        | Got _ =>
            '(bs, fr, sock) ← prefill fuel cfg wr keybuf (i + n) end_ fr sock;
            Done (sendbuf :: bs, fr, sock)
        end
    end
  else Done ([], fr, sock).
Definition setup_conn (tid : Z) (cfg : Cfg) (wr : bytes -> outcome unit) (sock : list Event)
    : outcome (list bytes * FrameReader * list Event) :=
  prefill (Z.to_nat (range_end tid cfg - range_start tid cfg)) cfg wr keybuf0
    (range_start tid cfg) (range_end tid cfg) new_reader sock.

(** The requests of a round of [worker]: the key is drawn, and whether to write. *)
Fixpoint round_reqs (n : nat) (cfg : Cfg) (rng : Z) (keybuf sendbuf : bytes) : Z * bytes * bytes :=
  match n with
  | O => (rng, keybuf, sendbuf)
  | S n =>
      let r := xorshift rng in
      let keybuf := write_key keybuf (r mod KEYSPACE) in
      let sendbuf :=
        if as_u32 (Z.shiftr r 32) mod 100 <? put_pct cfg
        then push_req sendbuf wire.OP_PUT keybuf (value_of cfg) else push_req sendbuf wire.OP_GET keybuf [] in
      round_reqs n cfg r keybuf sendbuf
  end.

(** One turn of the loop of [worker]: whether results are recorded, the outcome
    of [write_all] and the time it took. *)
Record Round := mk_round { recording : bool; wrote : bool; elapsed : Z }.
Record Worker := mk_worker {
  rng : Z; w_key : bytes; frames : FrameReader; w_sock : list Event;
  lats : list Z; ops : Z; tx : Z; rx : Z }.

(** The turns until [stop] is set (the end of the list) or an error breaks the loop. *)
Fixpoint worker_loop (cfg : Cfg) (w : Worker) (rounds : list Round) : outcome Worker :=
  match rounds with
  | [] => Done w
  | r :: rounds =>
      let '(rg, key, sendbuf) := round_reqs (Z.to_nat (pipeline cfg)) cfg (rng w) (w_key w) [] in
      if negb (wrote r) then
        Done (mk_worker rg key (frames w) (w_sock w) (lats w) (ops w) (tx w) (rx w))
      else
      '(got, fr, sock) ← read_frames (frames w) (w_sock w) (Z.to_nat (pipeline cfg));
      match got with
      | Failed _ => Done (mk_worker rg key fr sock (lats w) (ops w) (tx w) (rx w))
      | Got n =>
          let w := if recording r
            then mk_worker rg key fr sock (lats w ++ [elapsed r]) (add64 (ops w) (pipeline cfg))
                   (add64 (tx w) (len sendbuf)) (add64 (rx w) n)
            else mk_worker rg key fr sock (lats w) (ops w) (tx w) (rx w) in
          worker_loop cfg w rounds
      end
  end.

(** The four totals, and what a worker adds to them at its end. *)
Record Shared := mk_shared { total_ops : Z; total_tx : Z; total_rx : Z; total_miss : Z }.
Definition add_totals (sh : Shared) (w : Worker) : Shared :=
  mk_shared (add64 (total_ops sh) (ops w)) (add64 (total_tx sh) (tx w)) (add64 (total_rx sh) (rx w))
    (add64 (total_miss sh) (misses (frames w))).

(** The sizes that [main] compares with the socket buffers. *)
Definition batch_out (cfg : Cfg) : Z := wrap64 (pipeline cfg * (4 + 1 + 4 + Z.of_nat KEY_LEN + val_size cfg)).
Definition batch_in (cfg : Cfg) : Z := wrap64 (pipeline cfg * (4 + 1 + val_size cfg)).

(** ** Keys and requests *)

Lemma write_digits_spec i buf n :
  (i < length buf)%nat ->
  write_digits i buf n = take 1 buf ++ wal_format.dec_digits i n ++ drop (S i) buf.
Proof.
  revert buf n. induction i as [|i IH]; intros buf n Hi; cbn [write_digits].
  - simpl. by rewrite take_drop.
  - rewrite IH by (rewrite length_insert; lia). cbn [wal_format.dec_digits]. rewrite <- !app_assoc.
    rewrite take_insert_ge by lia. do 2 f_equal. rewrite drop_insert_ge, Nat.sub_diag by lia.
    destruct (lookup_lt_is_Some_2 buf (S i) Hi) as [x Hx]. by rewrite (drop_S _ _ _ Hx).
Qed.

(** The key of a number of at most eight digits. *)
Lemma write_key_ok c rest n :
  length rest = 8%nat -> write_key (c :: rest) n = c :: wal_format.dec_digits 8 n.
Proof.
  intros Hl. unfold write_key, KEY_LEN. rewrite write_digits_spec by (simpl; lia). simpl take.
  rewrite drop_ge by (simpl; lia). by rewrite app_nil_r.
Qed.

Lemma push_req_frame b o k v :
  u32 (len k) -> u32 (1 + 4 + len k + len v) -> push_req b o k v = b ++ frame (wire.mk_body o k v).
Proof.
  intros Hk Hu. unfold push_req, frame, wire.mk_body. rewrite !as_u32_small by done. rewrite <- !app_assoc.
  do 2 f_equal. f_equal. rewrite !length_cons, !length_app, length_le_split. lia.
Qed.

(** The same bytes as the clients'. *)
Lemma push_req_encode_raw b k v :
  push_req b wire.OP_PUT k v = (wire.encode_raw b wire.Put k (Some v)).1 /\
  push_req b wire.OP_GET k [] = (wire.encode_raw b wire.Get k None).1.
Proof. split; unfold push_req, wire.encode_raw; simpl; [done|]. by rewrite app_nil_r. Qed.

(** ** Random numbers *)

(** Each of the three steps can be undone: bit by bit from below for a left shift,
    from above for a right shift. *)
Lemma xor_shl_inj k x y :
  0 < k -> u64 x -> u64 y -> Z.lxor x (wrap64 (Z.shiftl x k)) = Z.lxor y (wrap64 (Z.shiftl y k)) -> x = y.
Proof.
  intros Hk Hx Hy E. apply Z.bits_inj'. intros n Hn.
  induction n as [n IH] using (well_founded_induction (Z.lt_wf 0)).
  destruct (decide (n < 64)); [|by rewrite !bits_u64 by (done || lia)].
  apply (f_equal (fun z => Z.testbit z n)) in E. rewrite !Z.lxor_spec in E.
  unfold wrap64 in E. rewrite !Z.mod_pow2_bits_low, !Z.shiftl_spec in E by lia.
  destruct (decide (n < k)).
  - by rewrite !(Z.testbit_neg_r _ (n - k)), !xorb_false_r in E by lia.
  - rewrite (IH (n - k)) in E by lia. by destruct (Z.testbit x n), (Z.testbit y n), (Z.testbit y (n - k)).
Qed.

Lemma xor_shr_inj k x y :
  0 < k -> u64 x -> u64 y -> Z.lxor x (Z.shiftr x k) = Z.lxor y (Z.shiftr y k) -> x = y.
Proof.
  intros Hk Hx Hy E. apply Z.bits_inj'. intros n Hn. remember (Z.to_nat (64 - n)) as m eqn:Em.
  revert n Hn Em. induction m as [m IH] using lt_wf_ind. intros n Hn ->.
  destruct (decide (n < 64)); [|by rewrite !bits_u64 by (done || lia)].
  apply (f_equal (fun z => Z.testbit z n)) in E. rewrite !Z.lxor_spec, !Z.shiftr_spec in E by lia.
  rewrite (IH (Z.to_nat (64 - (n + k))) ltac:(lia) (n + k) ltac:(lia) eq_refl) in E.
  by destruct (Z.testbit x n), (Z.testbit y n), (Z.testbit y (n + k)).
Qed.

(** The numbers of a worker never reach 0, from which there is no way out. *)
Theorem xorshift_permutes x y :
  u64 x -> u64 y ->
  u64 (xorshift x) /\ (xorshift x = xorshift y -> x = y) /\ (x <> 0 -> xorshift x <> 0).
Proof.
  intros Hx Hy.
  assert (forall z, u64 z -> u64 (Z.lxor z (wrap64 (Z.shiftl z 13)))) as H1
    by (intros; apply lxor_u64; [done|apply wrap64_u64]).
  assert (forall z, u64 z -> u64 (Z.lxor z (Z.shiftr z 7))) as H2
    by (intros; apply lxor_u64; [done|by apply shiftr_u64]).
  assert (forall u v, u64 u -> u64 v -> xorshift u = xorshift v -> u = v) as Hi.
  { intros u v Hu Hv E. unfold xorshift in E. apply xor_shl_inj in E; [|done|by apply H2, H1..].
    apply xor_shr_inj in E; [|done|by apply H1..]. by apply xor_shl_inj in E. }
  split; [apply lxor_u64; [by apply H2, H1|apply wrap64_u64]|]. split; [by apply Hi|].
  intros Hne E. apply Hne, (Hi x 0); [done|done|]. by rewrite E.
Qed.

(** The seeds of the threads are different, and not 0 for any number of threads
    that a machine has. *)
Theorem seeds_differ t1 t2 :
  0 <= t1 < 2 ^ 63 -> 0 <= t2 < 2 ^ 63 -> (seed t1 = seed t2 -> t1 = t2) /\ seed t1 <> 0.
Proof.
  intros H1 H2. set (M := 0xd1b54a32d192ed03). set (I := 436968802925209003).
  assert (forall a b, (a * M) mod 2 ^ 64 = b -> (a - b * I) mod 2 ^ 64 = 0) as Hinv.
  { intros a b <-. rewrite Zminus_mod, Zmult_mod_idemp_l, <- Zminus_mod.
    replace (a - a * M * I) with (a * (1 - M * I)) by lia. rewrite Zmult_mod.
    replace ((1 - M * I) mod 2 ^ 64) with 0 by reflexivity. by rewrite Z.mul_0_r. }
  unfold seed. fold M. unfold wrap64. split.
  - intros E. apply (f_equal (Z.lxor 0x9e3779b97f4a7c15)) in E. rewrite <- !Z.lxor_assoc, Z.lxor_nilpotent, !Z.lxor_0_l in E.
    apply Hinv in E. pose proof (Hinv (t2 + 1) _ eq_refl) as E2. rewrite Zminus_mod in E, E2.
    set (q := ((t2 + 1) * M mod 2 ^ 64 * I) mod 2 ^ 64) in *.
    apply Z.mod_divide in E; [|lia]. apply Z.mod_divide in E2; [|lia].
    pose proof (Z.mod_small (t1 + 1) (2 ^ 64) ltac:(lia)). pose proof (Z.mod_small (t2 + 1) (2 ^ 64) ltac:(lia)).
    destruct E as [a Ea], E2 as [b Eb]. lia.
  - intros E. apply Z.lxor_eq in E. symmetry in E. apply Hinv in E. apply Z.mod_divide in E; [|lia].
    destruct E as [a Ea]. unfold I in Ea.
    assert (0x9e3779b97f4a7c15 * 436968802925209003 = 17981733329013549831 + 2 ^ 64 * ((0x9e3779b97f4a7c15 * 436968802925209003) / 2 ^ 64)) as Eq
      by reflexivity. lia.
Qed.

(** ** Reading frames *)

(** The reader has [v] in its buffer, and [room] bytes behind it. *)
Definition holds (fr : FrameReader) (v : bytes) (room : Z) : Prop :=
  exists a b, buf fr = a ++ v ++ b /\ pos fr = len a /\ have fr = len a + len v /\ room = len b /\ buf fr <> [].

Definition is_miss (body : bytes) : Z := if decide (head body = Some Byte.x02) then 1 else 0.

(** That is the response [Miss] of the protocol. *)
Lemma is_miss_resp body : is_miss body = if decide (wire.from_proto_code body = wire.Miss) then 1 else 0.
Proof. unfold is_miss. by destruct body as [|[] body]. Qed.

Lemma frame_len b : len (frame b) = 4 + len b.
Proof. unfold frame. len_lia. Qed.

Lemma next_frame_full fr b v room :
  u32 (len b) -> holds fr (frame b ++ v) room ->
  exists fr', next_frame fr = Done (Some fr') /\ holds fr' v room /\ misses fr' = misses fr + is_miss b.
Proof.
  intros Hu (x & y & Eb & Ep & Eh & Er & Hne). unfold next_frame.
  rewrite length_app in Eh. pose proof (frame_len b) as Hf.
  replace (4 <=? have fr - pos fr) with true by lia_bool.
  assert (slice (buf fr) (pos fr) (pos fr + 4) = Done (le_split 4 (len b))) as ->.
  { rewrite Eb. unfold frame. rewrite <- !app_assoc. apply slice_mid; len_lia. }
  ostep. rewrite wire.rd_u32_le by done. ostep.
  replace (4 + len b <=? have fr - pos fr) with true by lia_bool.
  assert ((if 1 <=? len b then c ← index (buf fr) (pos fr + 4);
             Done (if decide (c = Byte.x02) then misses fr + 1 else misses fr) else Done (misses fr)) =
          Done (misses fr + is_miss b)) as ->.
  { unfold is_miss. destruct b as [|c b]; [simpl; by rewrite Z.add_0_r|].
    replace (1 <=? len (c :: b)) with true by (simpl; lia_bool).
    assert (index (buf fr) (pos fr + 4) = Done c) as ->.
    { apply index_Done. split; [lia|]. rewrite Eb, Ep. unfold frame. rewrite <- !app_assoc.
      rewrite lookup_app_r by lia. rewrite lookup_app_r by len_lia.
      replace (Z.to_nat (len x + 4) - length x - length (le_split 4 (len (c :: b))))%nat with 0%nat by len_lia. done. }
    ostep. simpl head. destruct (decide (c = Byte.x02)) as [->|Hc]; [by rewrite decide_True|].
    rewrite decide_False by (by intros [= ?]). by rewrite Z.add_0_r. }
  ostep. eexists. split; [done|]. split; [|done]. exists (x ++ frame b), y. simpl.
  split; [by rewrite Eb, <- !app_assoc|]. rewrite length_app. split_and!; [lia|lia|done|done].
Qed.

Lemma next_frame_part fr b v more room :
  u32 (len b) -> holds fr v room -> frame b = v ++ more -> more <> [] -> next_frame fr = Done None.
Proof.
  intros Hu (x & y & Eb & Ep & Eh & Er & Hne) Ev Hm. unfold next_frame.
  pose proof (f_equal length Ev) as Hl. rewrite length_app in Hl. pose proof (frame_len b) as Hf.
  assert (0 < len more) by (destruct more; [done|simpl; lia]).
  destruct (4 <=? have fr - pos fr) eqn:E4; [|done]. apply Z.leb_le in E4.
  assert (exists w, v = le_split 4 (len b) ++ w) as [w Ew].
  { exists (drop 4 v). unfold frame in Ev. rewrite <- (take_drop 4 v) in Ev at 1. rewrite <- app_assoc in Ev.
    apply app_inj_1 in Ev as [-> _]; [by rewrite take_drop|]. len_lia. }
  assert (slice (buf fr) (pos fr) (pos fr + 4) = Done (le_split 4 (len b))) as ->.
  { rewrite Eb, Ew, <- !app_assoc. apply slice_mid; len_lia. }
  ostep. rewrite wire.rd_u32_le by done. ostep.
  by replace (4 + len b <=? have fr - pos fr) with false by lia_bool.
Qed.

Lemma compact_ok fr v room :
  holds fr v room -> exists fr', compact fr = Done fr' /\ holds fr' v (len (buf fr) - len v) /\
    misses fr' = misses fr /\ len (buf fr') = len (buf fr).
Proof.
  intros (x & y & Eb & Ep & Eh & Er & Hne). unfold compact. destruct (0 <? pos fr) eqn:E.
  - assert (slice (buf fr) (pos fr) (have fr) = Done v) as -> by (rewrite Eb; apply slice_mid; lia). ostep.
    assert (length v <= length (buf fr))%nat by (rewrite Eb; len_lia).
    eexists. split; [done|]. simpl. split; [|split; [done|len_lia]].
    exists [], (drop (length v) (buf fr)). simpl. split_and!; [done|done|lia|len_lia|].
    intros E2. apply Hne. apply (f_equal length) in E2. rewrite length_app, length_drop in E2. simpl in E2.
    destruct (buf fr); [done|simpl in *; lia].
  - exists fr. split; [done|]. split; [|done]. apply Z.ltb_ge in E. destruct x; [|simpl in Ep; lia].
    exists [], y. split_and!; [done|done|done|rewrite Eb; len_lia|done].
Qed.

Lemma grow_ok fr v :
  holds fr v (len (buf fr) - len v) -> exists room, holds (grow fr) v room /\ 0 < room /\
    room = len (buf (grow fr)) - have (grow fr) /\ misses (grow fr) = misses fr.
Proof.
  intros (x & y & Eb & Ep & Eh & Er & Hne). pose proof (f_equal length Eb) as Hl. rewrite !length_app in Hl.
  unfold grow. destruct (have fr =? len (buf fr)) eqn:E.
  - apply Z.eqb_eq in E. assert (y = []) as -> by (destruct y; [done|simpl in *; lia]).
    exists (len (replicate (length (buf fr)) Byte.x00)). simpl. split.
    + exists x, (replicate (length (buf fr)) Byte.x00). rewrite app_nil_r in Eb. simpl.
      split_and!; [by rewrite Eb at 1; rewrite <- app_assoc|done|done|done|]. intros [E2 _]%app_eq_nil. done.
    + rewrite length_app, length_replicate. destruct (buf fr); [done|]. simpl in *. lia.
  - apply Z.eqb_neq in E. exists (len y). split; [by exists x, y|]. lia.
Qed.

Lemma store_ok fr v room b :
  holds fr v room -> len b <= room -> exists room', holds (store fr b) (v ++ b) room' /\ misses (store fr b) = misses fr.
Proof.
  intros (x & y & Eb & Ep & Eh & Er & Hne) Hb. exists (len (drop (length b) y)). split; [|done].
  exists x, (drop (length b) y). unfold store. simpl.
  assert (Z.to_nat (have fr) = length (x ++ v)) as -> by len_lia.
  split_and!; [|done|len_lia|done|].
  - rewrite Eb, <- drop_drop, !(app_assoc x v), take_app_length, drop_app_length. by rewrite <- !app_assoc.
  - intros E. apply Hne. apply (f_equal length) in E, Eb. rewrite !length_app, length_take, length_drop in E.
    rewrite !length_app in Eb. simpl in E. apply length_zero_iff_nil. lia.
Qed.

(** What arrives, while the connection holds. *)
Definition stream (sock : list Event) : bytes :=
  sock ≫= (fun e => match e with Arrived b => b | Broken _ => [] end).
Definition sound (sock : list Event) : Prop := Forall (fun e => exists b, e = Arrived b /\ b <> []) sock.
Definition missed (bodies : list bytes) : Z := foldr (fun b n => is_miss b + n) 0 bodies.
Lemma missed_app l1 l2 : missed (l1 ++ l2) = missed l1 + missed l2.
Proof. induction l1 as [|x l1 IH]; simpl; [done|]. rewrite IH. lia. Qed.
Abbreviation framed bodies := (concat (frame <$> bodies)).

Lemma sock_read_ok space sock :
  0 < space -> sound sock -> stream sock <> [] ->
  exists b sock', sock_read space sock = Done (b, sock') /\ 0 < len b <= space /\
    stream sock = b ++ stream sock' /\ sound sock' /\ sock_size sock = (length b + sock_size sock')%nat.
Proof.
  intros Hs Hok Hne. destruct Hok as [|e sock (b & -> & Hb) Hok]; [done|]. cbn [sock_read].
  assert (0 < len b) by (destruct b; [done|simpl; lia]).
  destruct (len b <=? space) eqn:E.
  - exists b, sock. split_and!; [done|done|lia|done|done|done].
  - apply Z.leb_gt in E. eexists _, _. split; [done|]. split; [len_lia|]. split.
    + unfold stream. rewrite !bind_cons, app_assoc, take_drop. done.
    + split; [|unfold sock_size; simpl; len_lia]. constructor; [|done]. eexists. split; [done|].
      intros E2. apply (f_equal length) in E2. rewrite length_drop in E2. simpl in E2. lia.
Qed.

(** Making room and reading, as the loop does when no frame is complete. *)
Lemma refill_ok fr v room sock :
  holds fr v room -> sound sock -> stream sock <> [] ->
  exists fr1 b sock' room', compact fr = Done fr1 /\
    sock_read (len (buf (grow fr1)) - have (grow fr1)) sock = Done (b, sock') /\
    len b <> 0 /\ stream sock = b ++ stream sock' /\ sound sock' /\ sock_size sock = (length b + sock_size sock')%nat /\
    holds (store (grow fr1) b) (v ++ b) room' /\ misses (store (grow fr1) b) = misses fr.
Proof.
  intros Hh Hok Hne. destruct (compact_ok fr v room Hh) as (fr1 & E1 & Hh1 & M1 & L1). rewrite <- L1 in Hh1.
  destruct (grow_ok fr1 v Hh1) as (room2 & Hh2 & Hr & Er & M2).
  destruct (sock_read_ok room2 sock Hr Hok Hne) as (b & sock' & E2 & Hb & Hst & Hok' & Hsz).
  destruct (store_ok (grow fr1) v room2 b Hh2 ltac:(lia)) as (room3 & Hh3 & M3).
  exists fr1, b, sock', room3. rewrite <- Er. split_and!; [done|done|lia|done|done|done|done|congruence].
Qed.

(** A frame is there, or a part of it. *)
Lemma first_frame (b v s tail : bytes) :
  v ++ s = frame b ++ tail ->
  (exists v', v = frame b ++ v' /\ v' ++ s = tail) \/
  (exists more, frame b = v ++ more /\ more <> [] /\ s = more ++ tail).
Proof.
  intros E. destruct (decide (length (frame b) <= length v)%nat) as [Hl|Hl].
  - left. exists (drop (length (frame b)) v). rewrite <- (take_drop (length (frame b)) v), <- app_assoc in E.
    apply app_inj_1 in E as [E1 E2]; [|rewrite length_take; lia]. split; [|done].
    by rewrite <- E1 at 1; rewrite take_drop.
  - right. exists (drop (length v) (frame b)). rewrite <- (take_drop (length v) (frame b)), <- app_assoc in E.
    apply app_inj_1 in E as [E1 E2]; [|rewrite length_take; lia]. split; [by rewrite E1 at 1; rewrite take_drop|].
    split; [|done]. intros Hd. apply (f_equal length) in Hd. rewrite length_drop in Hd. simpl in Hd. lia.
Qed.

Lemma read_loop_ok fuel fr v room sock bodies rest rx :
  holds fr v room -> sound sock -> Forall (fun b => u32 (len b)) bodies ->
  v ++ stream sock = framed bodies ++ rest -> (length bodies + sock_size sock <= fuel)%nat ->
  exists fr' v' room' sock', read_loop fuel fr sock (length bodies) rx =
      Done (Got (rx + (len (stream sock) - len (stream sock'))), fr', sock') /\
    holds fr' v' room' /\ v' ++ stream sock' = rest /\ sound sock' /\ misses fr' = misses fr + missed bodies.
Proof.
  revert fr v room sock bodies rx. induction fuel as [|fuel IH]; intros fr v room sock bodies rx Hh Hok Hu E Hf;
    (destruct bodies as [|b bodies]; [exists fr, v, room, sock; simpl; rewrite Z.sub_diag, !Z.add_0_r; by split_and!|]).
  - simpl in Hf. lia.
  - apply Forall_cons in Hu as [Hb Hu]. rewrite fmap_cons in E. cbn [concat] in E. rewrite <- app_assoc in E.
    cbn [length read_loop]. destruct (first_frame b v _ _ E) as [(v' & -> & E')|(more & Eb & Hm & E')].
    + destruct (next_frame_full fr b v' room Hb Hh) as (fr1 & -> & Hh1 & M1). ostep.
      destruct (IH fr1 v' room sock bodies rx Hh1 Hok Hu E' ltac:(simpl in Hf; lia))
        as (fr' & w & room' & sock' & -> & Hh' & Ew & Hok' & M').
      exists fr', w, room', sock'. split_and!; [done|done|done|done|simpl; lia].
    + rewrite (next_frame_part fr b v more room Hb Hh Eb Hm). ostep.
      assert (stream sock <> []) as Hne by (rewrite E'; by destruct more).
      destruct (refill_ok fr v room sock Hh Hok Hne) as (fr1 & d & s1 & room1 & E1 & E2 & Hd & Hst & Hok1 & Hsz & Hh1 & M1).
      rewrite E1. ostep. rewrite E2. replace (len d =? 0) with false by lia_bool.
      destruct (IH (store (grow fr1) d) (v ++ d) room1 s1 (b :: bodies) (rx + len d))
        as (fr' & w & room' & sock' & R & Hh' & Ew & Hok' & M'); [done|done|by constructor| |simpl in *; lia|].
      { rewrite <- app_assoc, <- Hst, E. rewrite fmap_cons. cbn [concat]. by rewrite <- app_assoc. }
      exists fr', w, room', sock'. cbn [length] in R. rewrite R, Hst. split_and!; [|done|done|done|simpl in *; lia].
      do 4 f_equal. len_lia.
Qed.

(** [read_frames] reads exactly the frames asked for, whatever the pieces in
    which they arrive and whatever the state of the buffer; what is behind them
    is kept for the next call, and the misses are those of the protocol. *)
Theorem read_frames_exact fr v room sock bodies rest :
  holds fr v room -> sound sock -> Forall (fun b => u32 (len b)) bodies ->
  v ++ stream sock = framed bodies ++ rest ->
  exists fr' v' room' sock', read_frames fr sock (length bodies) =
      Done (Got (len (stream sock) - len (stream sock')), fr', sock') /\
    holds fr' v' room' /\ v' ++ stream sock' = rest /\ sound sock' /\ misses fr' = misses fr + missed bodies.
Proof. intros Hh Hok Hu E. by apply (read_loop_ok _ fr v room sock bodies rest 0 Hh Hok Hu E). Qed.

(** When the server closes before the last of them, the caller gets an error. *)
Lemma read_loop_closed fuel fr v room sock bodies more rx :
  holds fr v room -> sound sock -> Forall (fun b => u32 (len b)) bodies ->
  framed bodies = v ++ stream sock ++ more -> more <> [] -> (length bodies + sock_size sock <= fuel)%nat ->
  exists fr' sock', read_loop fuel fr sock (length bodies) rx = Done (Failed SERVER_CLOSED, fr', sock').
Proof.
  revert fr v room sock bodies rx. induction fuel as [|fuel IH]; intros fr v room sock bodies rx Hh Hok Hu E Hm Hf;
    (destruct bodies as [|b bodies]; [symmetry in E; apply app_eq_nil in E as [_ [_ E]%app_eq_nil]; done|]);
    [simpl in Hf; lia|].
  apply Forall_cons in Hu as [Hb Hu]. pose proof E as E0. rewrite fmap_cons in E. cbn [concat] in E. symmetry in E.
  cbn [length read_loop]. destruct (first_frame b v _ _ E) as [(v' & -> & E')|(m & Eb & Hm' & E')].
  - destruct (next_frame_full fr b v' room Hb Hh) as (fr1 & -> & Hh1 & M1). ostep.
    apply (IH fr1 v' room); try done. simpl in Hf. lia.
  - rewrite (next_frame_part fr b v m room Hb Hh Eb Hm'). ostep.
    destruct (decide (stream sock = [])) as [Hz|Hne].
    + destruct (compact_ok fr v room Hh) as (fr1 & -> & _). ostep.
      assert (sock = []) as -> by (destruct Hok as [|e sock (d & -> & Hd) Hok]; [done|by destruct d]). by do 2 eexists.
    + destruct (refill_ok fr v room sock Hh Hok Hne) as (fr1 & d & s1 & room1 & E1 & E2 & Hd & Hst & Hok1 & Hsz & Hh1 & M1).
      rewrite E1. ostep. rewrite E2. replace (len d =? 0) with false by lia_bool.
      apply (IH (store (grow fr1) d) (v ++ d) room1 s1 (b :: bodies)); [done|done|by constructor| |done|simpl in *; lia].
      by rewrite E0, Hst, <- !app_assoc.
Qed.

Lemma sock_read_size space sock b sock' :
  sock_read space sock = Done (b, sock') -> sock_size sock = (length b + sock_size sock')%nat.
Proof.
  destruct sock as [|[d|e] sock]; cbn [sock_read]; [by intros [= <- <-]| |done].
  destruct (len d <=? space); intros [= <- <-]; [done|]. unfold sock_size. simpl. len_lia.
Qed.

(** More fuel than turns changes nothing, whatever the input. *)
Lemma read_loop_fuel f1 f2 fr sock count rx :
  (count + sock_size sock <= f1)%nat -> (count + sock_size sock <= f2)%nat ->
  read_loop f1 fr sock count rx = read_loop f2 fr sock count rx.
Proof.
  revert f2 fr sock count rx. induction f1 as [|f1 IH]; intros f2 fr sock count rx H1 H2;
    (destruct count as [|count]; [by destruct f2|]); [lia|]. destruct f2 as [|f2]; [lia|]. cbn [read_loop].
  destruct (next_frame fr) as [[fr'|]| |]; ostep; [apply IH; lia| |done..].
  destruct (compact fr) as [fr'| |]; ostep; [|done..].
  destruct (sock_read _ sock) as [[b sock']| |] eqn:E; [|done..].
  apply sock_read_size in E. destruct (len b =? 0) eqn:Eb; [done|]. apply Z.eqb_neq in Eb. apply IH; lia.
Qed.

(** ** Filling the key space *)

Definition key_of (n : Z) : bytes := Byte.x6b :: wal_format.dec_digits 8 n.
Definition put_body (cfg : Cfg) (n : Z) : bytes := wire.mk_body wire.OP_PUT (key_of n) (value_of cfg).
Definition get_body (n : Z) : bytes := wire.mk_body wire.OP_GET (key_of n) [].

(** A key buffer: ["k"] and eight more bytes. *)
Definition is_keybuf (b : bytes) : Prop := exists rest, b = Byte.x6b :: rest /\ length rest = 8%nat.
Definition cfg_ok (cfg : Cfg) : Prop := 0 < conns cfg /\ 0 < pipeline cfg /\ 0 <= val_size cfg /\ u32 (14 + val_size cfg).

Lemma write_key_keybuf b n : is_keybuf b -> write_key b n = key_of n /\ is_keybuf (write_key b n).
Proof.
  intros (r & -> & Hr). rewrite write_key_ok by done. split; [done|]. eexists. split; [done|].
  apply wal_format.dec_digits_length.
Qed.

Lemma key_of_length n : len (key_of n) = 9.
Proof. unfold key_of. rewrite length_cons, wal_format.dec_digits_length. done. Qed.

Lemma value_of_length cfg : 0 <= val_size cfg -> len (value_of cfg) = val_size cfg.
Proof. intros Hv. unfold value_of. len_lia. Qed.

Lemma push_key cfg b o n v :
  len v <= val_size cfg -> cfg_ok cfg -> push_req b o (key_of n) v = b ++ frame (wire.mk_body o (key_of n) v).
Proof.
  intros Hv (_ & _ & Hs & Hu). apply push_req_frame; rewrite key_of_length; unfold u32 in *; lia.
Qed.

Lemma push_puts_ok cfg keybuf b keys :
  cfg_ok cfg -> is_keybuf keybuf ->
  is_keybuf (push_puts cfg keybuf b keys).1 /\
  (push_puts cfg keybuf b keys).2 = b ++ framed (put_body cfg <$> keys).
Proof.
  intros Hc. revert keybuf b. induction keys as [|k keys IH]; intros keybuf b Hk; cbn [push_puts].
  - simpl. by rewrite app_nil_r.
  - destruct (write_key_keybuf keybuf k Hk) as [E Hk']. destruct (IH (write_key keybuf k)
      (push_req b wire.OP_PUT (write_key keybuf k) (value_of cfg)) Hk') as [I1 I2].
    split; [exact I1|]. rewrite I2, E, (push_key cfg); [|rewrite value_of_length; [lia|apply Hc]|done].
    rewrite !fmap_cons. cbn [concat]. by rewrite <- app_assoc.
Qed.

Lemma prefill_ok fuel cfg wr keybuf i end_ fr v room sock answers rest :
  cfg_ok cfg -> is_keybuf keybuf -> (forall b, wr b = Done tt) -> holds fr v room -> sound sock ->
  Forall (fun b => u32 (len b)) answers -> length answers = Z.to_nat (end_ - i) ->
  v ++ stream sock = framed answers ++ rest -> (Z.to_nat (end_ - i) <= fuel)%nat ->
  exists bs fr' v' room' sock', prefill fuel cfg wr keybuf i end_ fr sock = Done (bs, fr', sock') /\
    concat bs = framed (put_body cfg <$> seqZ i (end_ - i)) /\ holds fr' v' room' /\ v' ++ stream sock' = rest /\
    sound sock' /\ misses fr' = misses fr + missed answers.
Proof.
  intros Hc Hk Hwr. revert keybuf i fr v room sock answers Hk.
  induction fuel as [|fuel IH]; intros keybuf i fr v room sock answers Hk Hh Hok Hu Ha E Hf; cbn [prefill];
    destruct (i <? end_) eqn:Ei.
  1: lia.
  1, 3: assert (answers = []) as -> by (apply length_zero_iff_nil; lia); exists [], fr, v, room, sock;
    rewrite (seqZ_nil i) by lia; simpl; rewrite Z.add_0_r; by split_and!.
  apply Z.ltb_lt in Ei. set (n := Z.min (end_ - i) (pipeline cfg)).
  assert (0 < n <= end_ - i) as Hn by (destruct Hc as (_ & Hp & _); lia).
  destruct (push_puts_ok cfg keybuf [] (seqZ i n) Hc Hk) as [Hk' Eb].
  destruct (push_puts cfg keybuf [] (seqZ i n)) as [kb sb]. simpl in Hk', Eb. rewrite Hwr. ostep.
  assert (Z.to_nat n = length (take (Z.to_nat n) answers)) as El by len_lia.
  rewrite <- (take_drop (Z.to_nat n) answers) in E, Hu. rewrite fmap_app, concat_app, <- app_assoc in E.
  apply Forall_app in Hu as [Hu1 Hu2].
  destruct (read_frames_exact fr v room sock _ _ Hh Hok Hu1 E) as (fr1 & v1 & room1 & s1 & R & Hh1 & E1 & Hok1 & M1).
  rewrite <- El in R. rewrite R. ostep.
  destruct (IH kb (i + n) fr1 v1 room1 s1 (drop (Z.to_nat n) answers) Hk' Hh1 Hok1 Hu2)
    as (bs & fr2 & v2 & room2 & s2 & R2 & Eb2 & Hh2 & E2 & Hok2 & M2); [len_lia|done|lia|].
  rewrite R2. ostep. exists (sb :: bs), fr2, v2, room2, s2. split; [done|]. split; [|split_and!; try done].
  - cbn [concat]. rewrite Eb, Eb2, <- concat_app, <- !fmap_app. do 3 f_equal.
    replace (end_ - i) with (n + (end_ - (i + n))) by lia. by rewrite seqZ_app by lia.
  - rewrite M2, M1. rewrite <- (take_drop (Z.to_nat n) answers) at 3. rewrite missed_app. lia.
Qed.

(** The ranges of the connections, in order, are the key space. *)
Lemma ranges_tile cfg :
  0 < conns cfg ->
  (seqZ 0 (conns cfg) ≫= fun t => seqZ (range_start t cfg) (range_end t cfg - range_start t cfg)) = seqZ 0 KEYSPACE.
Proof.
  intros Hc. assert (forall n : nat, Z.of_nat n <= conns cfg ->
    (seqZ 0 (Z.of_nat n) ≫= fun t => seqZ (range_start t cfg) (range_end t cfg - range_start t cfg)) =
    seqZ 0 (Z.of_nat n * KEYSPACE / conns cfg)) as Hn.
  { induction n as [|n IH]; intros Hn; [done|].
    rewrite Nat2Z.inj_succ, <- Z.add_1_r, seqZ_app, bind_app, IH by lia. simpl. rewrite app_nil_r.
    assert (0 <= range_start (Z.of_nat n) cfg <= range_end (Z.of_nat n) cfg) as Hr.
    { unfold range_start, range_end. split; [apply Z.div_pos; unfold KEYSPACE; lia|].
      apply Z.div_le_mono; unfold KEYSPACE; lia. }
    replace ((Z.of_nat n + 1) * KEYSPACE / conns cfg) with
      (range_start (Z.of_nat n) cfg + (range_end (Z.of_nat n) cfg - range_start (Z.of_nat n) cfg))
      by (unfold range_end, range_start; lia).
    rewrite (seqZ_app 0) by lia. by rewrite Z.add_0_l. }
  specialize (Hn (Z.to_nat (conns cfg)) ltac:(lia)). rewrite Z2Nat.id in Hn by lia. rewrite Hn.
  f_equal. rewrite Z.mul_comm. by apply Z.div_mul; lia.
Qed.

Lemma new_reader_holds : holds new_reader [] (Z.of_nat BUF_SIZE).
Proof.
  exists [], (replicate BUF_SIZE Byte.x00). unfold new_reader. cbn [buf have pos].
  rewrite length_replicate. split_and!; [reflexivity..|].
  intros E%(f_equal length). rewrite length_replicate in E. by apply Nat.pow_nonzero in E.
Qed.

(** [setup_conn] sends the PUTs of its range, each key once and in order, however
    they are cut into batches, and gets as many answers; what the server sends
    behind them is left for [worker]. *)
Theorem setup_conn_fills tid cfg wr sock answers rest :
  cfg_ok cfg -> (forall b, wr b = Done tt) -> sound sock -> Forall (fun b => u32 (len b)) answers ->
  length answers = Z.to_nat (range_end tid cfg - range_start tid cfg) -> stream sock = framed answers ++ rest ->
  exists bs fr v room sock', setup_conn tid cfg wr sock = Done (bs, fr, sock') /\
    concat bs = framed (put_body cfg <$> seqZ (range_start tid cfg) (range_end tid cfg - range_start tid cfg)) /\
    holds fr v room /\ v ++ stream sock' = rest /\ sound sock' /\ misses fr = missed answers.
Proof.
  intros Hc Hwr Hok Hu Ha E. unfold setup_conn.
  destruct (prefill_ok (Z.to_nat (range_end tid cfg - range_start tid cfg)) cfg wr keybuf0 (range_start tid cfg)
    (range_end tid cfg) new_reader [] (Z.of_nat BUF_SIZE) sock answers rest Hc) as (bs & fr & v & room & s' & R);
    [by exists (bstr "00000000")|done|apply new_reader_holds|done..|].
  by exists bs, fr, v, room, s'.
Qed.

(** ** The rounds of a worker *)

(** The body of a request for key [k], a PUT or a GET. *)
Definition req_body (cfg : Cfg) (r : bool * Z) : bytes := if r.1 then put_body cfg r.2 else get_body r.2.

Lemma round_reqs_ok n cfg rg keybuf b :
  cfg_ok cfg -> is_keybuf keybuf ->
  exists reqs rg' keybuf', round_reqs n cfg rg keybuf b = (rg', keybuf', b ++ framed (req_body cfg <$> reqs)) /\
    is_keybuf keybuf' /\ length reqs = n /\ Forall (fun r => 0 <= r.2 < KEYSPACE) reqs.
Proof.
  intros Hc. revert rg keybuf b. induction n as [|n IH]; intros rg keybuf b Hk; cbn [round_reqs].
  - exists [], rg, keybuf. simpl. by rewrite app_nil_r.
  - set (r := xorshift rg). destruct (write_key_keybuf keybuf (r mod KEYSPACE) Hk) as [E Hk'].
    set (w := as_u32 (Z.shiftr r 32) mod 100 <? put_pct cfg).
    assert ((if w then push_req b wire.OP_PUT (write_key keybuf (r mod KEYSPACE)) (value_of cfg)
             else push_req b wire.OP_GET (write_key keybuf (r mod KEYSPACE)) []) =
            b ++ frame (req_body cfg (w, r mod KEYSPACE))) as ->.
    { rewrite E. destruct w; apply (push_key cfg); [rewrite value_of_length; [lia|apply Hc]|done|simpl; apply Hc|done]. }
    destruct (IH r (write_key keybuf (r mod KEYSPACE)) (b ++ frame (req_body cfg (w, r mod KEYSPACE))) Hk')
      as (reqs & rg' & kb & -> & Hkb & Hl & Hf).
    exists ((w, r mod KEYSPACE) :: reqs), rg', kb. rewrite fmap_cons. cbn [concat]. rewrite <- app_assoc.
    split_and!; [done|done|simpl; lia|]. constructor; [apply Z.mod_pos_bound; done|done].
Qed.

(** [main]'s [batch_out] bounds the bytes of a round, and is reached when all are PUTs. *)
Lemma round_size cfg reqs :
  cfg_ok cfg -> len (framed (req_body cfg <$> reqs)) <= len reqs * (4 + 1 + 4 + Z.of_nat KEY_LEN + val_size cfg) /\
  (Forall (fun r => r.1 = true) reqs ->
   len (framed (req_body cfg <$> reqs)) = len reqs * (4 + 1 + 4 + Z.of_nat KEY_LEN + val_size cfg)).
Proof.
  intros (_ & _ & Hv & _). pose proof (value_of_length cfg Hv) as Hl. unfold KEY_LEN.
  assert (forall k, len (frame (put_body cfg k)) = 18 + val_size cfg /\ len (frame (get_body k)) = 18) as Hf.
  { intros k. pose proof (key_of_length k). rewrite !frame_len. unfold put_body, get_body, wire.mk_body.
    rewrite !length_cons, !length_app, !length_le_split. simpl length. lia. }
  induction reqs as [|[w k] reqs [IH1 IH2]]; [done|]. destruct (Hf k) as [F1 F2].
  rewrite !fmap_cons. cbn [concat]. rewrite length_app, length_cons. split.
  - unfold req_body at 1. simpl fst. simpl snd. destruct w; lia.
  - intros [Hw Hws]%Forall_cons. simpl in Hw. subst w. specialize (IH2 Hws). unfold req_body at 1. simpl fst. simpl snd. lia.
Qed.

(** While its connection lasts a worker gets all the responses to its requests:
    it records the recorded rounds and nothing else, and counts the misses. *)
Theorem worker_counts cfg w v room rounds answers rest :
  cfg_ok cfg -> is_keybuf (w_key w) -> holds (frames w) v room -> sound (w_sock w) ->
  Forall (fun b => u32 (len b)) answers -> Forall (fun r => wrote r = true) rounds ->
  length answers = (length rounds * Z.to_nat (pipeline cfg))%nat -> v ++ stream (w_sock w) = framed answers ++ rest ->
  let recorded := filter (fun r => recording r = true) rounds in
  exists w', worker_loop cfg w rounds = Done w' /\ lats w' = lats w ++ (elapsed <$> recorded) /\
  (u64 (ops w + len recorded * pipeline cfg) -> 0 <= ops w -> ops w' = ops w + len recorded * pipeline cfg) /\
  misses (frames w') = misses (frames w) + missed answers /\
  exists v' room', holds (frames w') v' room' /\ v' ++ stream (w_sock w') = rest.
Proof.
  intros Hc. set (p := Z.to_nat (pipeline cfg)). revert w v room answers.
  induction rounds as [|r rounds IH]; intros w v room answers Hk Hh Hok Hu Hw Ha E; cbn [worker_loop].
  { apply length_zero_iff_nil in Ha as ->. exists w. simpl. rewrite app_nil_r, !Z.add_0_r. split_and!; [done|done|done|done|by exists v, room]. }
  apply Forall_cons in Hw as [Hw1 Hw].
  fold p. destruct (round_reqs_ok p cfg (rng w) (w_key w) [] Hc Hk) as (reqs & rg & kb & -> & Hkb & Hl & _).
  rewrite Hw1. cbn [negb app].
  assert (length (take p answers) = p) as El by (simpl in Ha; len_lia).
  rewrite <- (take_drop p answers) in E, Hu. rewrite fmap_app, concat_app, <- app_assoc in E.
  apply Forall_app in Hu as [Hu1 Hu2].
  destruct (read_frames_exact (frames w) v room (w_sock w) _ _ Hh Hok Hu1 E) as (fr1 & v1 & room1 & s1 & R & Hh1 & E1 & Hok1 & M1).
  rewrite El in R. rewrite R. ostep. set (w1 := if recording r then _ else _).
  assert (w_key w1 = kb /\ frames w1 = fr1 /\ w_sock w1 = s1) as (K1 & K2 & K3) by (unfold w1; by destruct (recording r)).
  destruct (IH w1 v1 room1 (drop p answers)) as (w' & I0 & I1 & I2 & I3 & I4);
    rewrite ?K1, ?K2, ?K3; try done; [simpl in Ha; len_lia|].
  assert (missed answers = missed (take p answers) + missed (drop p answers)) as Hm by (rewrite <- missed_app, take_drop; done).
  exists w'. rewrite filter_cons. split_and!; [done| | |rewrite I3, K2, M1; lia|done].
  - rewrite I1. unfold w1. destruct (recording r); simpl; [by rewrite <- app_assoc|done].
  - intros Hu Ho. destruct Hc as (_ & Hp & _).
    assert (ops w1 = if recording r then ops w + pipeline cfg else ops w) as Eo.
    { unfold w1. destruct (recording r); [|done]. simpl. apply add64_small. simpl in Hu. unfold u64 in *. lia. }
    rewrite I2; rewrite Eo; destruct (recording r); simpl in *; unfold u64 in *; lia.
Qed.

(** What [main] prints as the total of operations is the number of rounds it
    prints, each of [pipeline] requests. *)
Lemma totals_are_rounds p sh ws :
  Forall (fun w => ops w = len (lats w) * p) ws -> 0 <= p -> 0 <= total_ops sh ->
  u64 (total_ops sh + len (concat (lats <$> ws)) * p) ->
  total_ops (fold_left add_totals ws sh) = total_ops sh + len (concat (lats <$> ws)) * p.
Proof.
  intros Hf Hp. revert sh. induction Hf as [|w ws Hw Hf IH]; intros sh Hs Hu; cbn [fold_left]; [simpl; lia|].
  rewrite fmap_cons in *. cbn [concat] in *. rewrite length_app in *.
  assert (total_ops (add_totals sh w) = total_ops sh + len (lats w) * p) as E.
  { simpl. rewrite Hw. apply add64_small. unfold u64 in *. nia. }
  rewrite IH; rewrite E; unfold u64 in *; nia.
Qed.

(** ** What the server answers *)

Section hits.
Variable cfg : Cfg.

Lemma kv_of_key (r : types.Request) o k v : types.data r = wire.mk_body o (key_of k) v -> types.kv_of r = (key_of k, v).
Proof.
  intros Hd. unfold types.kv_of. rewrite Hd, wire.split_kv_mk_body; [done|]. rewrite key_of_length.
  unfold u32. lia.
Qed.

Definition sends (r : types.Request) (b : bool * Z) : Prop := types.data r = req_body cfg b.

Lemma step_put m r k : sends r (true, k) -> stage2.spec_step m r !! key_of k = Some (value_of cfg).
Proof.
  intros Hd. unfold sends, req_body in Hd. simpl in Hd. unfold stage2.spec_step, types.is_put, types.opc.
  rewrite (kv_of_key _ _ _ _ Hd), Hd. simpl. apply lookup_insert_eq.
Qed.

(** Everybody writes the same value. *)
Lemma step_keeps m r b k :
  sends r b -> m !! key_of k = Some (value_of cfg) -> stage2.spec_step m r !! key_of k = Some (value_of cfg).
Proof.
  destruct b as [[|] j]; intros Hd Hm.
  - pose proof (step_put m r j Hd) as Hj. destruct (decide (key_of k = key_of j)) as [->|Hne]; [done|].
    unfold sends, req_body in Hd. simpl in Hd. unfold stage2.spec_step, types.is_put, types.opc.
    rewrite (kv_of_key _ _ _ _ Hd), Hd. simpl. by rewrite lookup_insert_ne.
  - unfold stage2.spec_step, types.is_put, types.opc. unfold sends, req_body in Hd. simpl in Hd. by rewrite Hd.
Qed.

Lemma view_keeps m reqs bs k :
  Forall2 sends reqs bs -> m !! key_of k = Some (value_of cfg) \/ (true, k) ∈ bs ->
  stage2.spec_view m reqs !! key_of k = Some (value_of cfg).
Proof.
  intros Hf. unfold stage2.spec_view. revert m. induction Hf as [|r b reqs bs Hr Hf IH]; intros m Hm; cbn [fold_left].
  - destruct Hm as [?|?%not_elem_of_nil]; done.
  - apply IH. destruct Hm as [Hm|[<-|Hm]%elem_of_cons]; [left; by eapply step_keeps|left; by apply step_put|by right].
Qed.

(** After the prefill every GET of a worker is a hit: in whatever order the server
    gets the connections' requests, once it has those of the prefill, a GET of any
    round returns the value that everybody writes. *)
Theorem prefilled_gets_hit m reqs bs r k :
  0 < conns cfg -> Forall2 sends reqs bs ->
  (forall t j, t ∈ seqZ 0 (conns cfg) -> j ∈ seqZ (range_start t cfg) (range_end t cfg - range_start t cfg) -> (true, j) ∈ bs) ->
  0 <= k < KEYSPACE -> sends r (false, k) ->
  stage2.spec_resp (stage2.spec_view m reqs) r = wire.Value (value_of cfg).
Proof.
  intros Hc Hf Hall Hk Hr.
  assert (k ∈ seqZ 0 KEYSPACE) as Hin by (apply elem_of_seqZ; lia).
  rewrite <- (ranges_tile cfg Hc) in Hin. apply list_elem_of_bind in Hin as (t & Hj & Ht).
  unfold stage2.spec_resp, types.opc. unfold sends, req_body in Hr. simpl in Hr.
  rewrite (kv_of_key _ _ _ _ Hr), Hr. simpl. rewrite (view_keeps m reqs bs k Hf); [done|]. right. by eapply Hall.
Qed.

End hits.

(** ** Examples *)

Example ex_key : write_key keybuf0 4711 = bstr "k00004711".
Proof. vm_compute. reflexivity. Qed.

(** Two frames, a miss and a value, in three pieces through a buffer of 8 bytes
    that is compacted and grows. *)
Example ex_frames :
  match read_frames (mk_reader (replicate 8 Byte.x00) 0 0 0)
    [Arrived [Byte.x01; Byte.x00; Byte.x00]; Arrived [Byte.x00; Byte.x02; Byte.x05; Byte.x00; Byte.x00; Byte.x00];
     Arrived (Byte.x00 :: bstr "abcd!!")] 2 with
  | Done (Got n, fr, sock) => n = 16 /\ misses fr = 1 /\ have fr - pos fr = 2 /\ sock = [] /\ len (buf fr) = 16
  | _ => False
  end.
Proof. vm_compute. repeat split. Qed.

End loadgen.
