(* ===== verification/LoadMain.v ===== *)
(** * The run of the load generator ([main] of [crates/server/benches/loadgen.rs])

    Its arguments, the workers of [LoadGen], the totals and the percentiles.  What
    the outside decides is an argument: what each connection does, the rounds for
    which its worker runs, the measured times.  The output is the arguments of each
    line; the quotients printed in floating point are left to the reader of a line,
    but the index of a percentile, which decides which latency is printed and
    whether [main] panics, is computed in the 64-bit floating point of the code. *)

From stdpp Require Import sorting.
From Stdlib Require Import Floats.SpecFloat.
From S2P Require Import Prelude Wire WalFormat LoadGen.
Local Open Scope Z_scope.

Module load_main.
Import loadgen.

(** ** 64-bit floating point

    The values that occur are integers and integers times 2^-53, far from the
    limits of the exponent: what is left of IEEE 754 is the rounding to 53 bits, to
    the nearest, ties to even ([rank_is_binary64] compares it with the Standard
    Library's arithmetic). *)

(** [n / d], rounded. *)
Definition rne (n d : Z) : Z :=
  let q := n / d in
  let r := n mod d in
  if 2 * r <? d then q else if d <? 2 * r then q + 1 else if Z.even q then q else q + 1.
(** The nearest number with 53 significant bits. *)
Definition round53 (n : Z) : Z :=
  let s := Z.max 0 (Z.log2 n - 52) in rne n (2 ^ s) * 2 ^ s.

(** The literal [num/den] between 1/2 and 1, in units of 2^-53. *)
Definition literal (num den : Z) : Z := rne (num * 2 ^ 53) den.

(** [((n as f64 - 1.0) * p).round() as usize]: [round] takes ties away from 0. *)
Definition rank (n p : Z) : Z :=
  let x := round53 (round53 n - 1) in
  let y := round53 (x * p) in
  Z.min (2 ^ 64 - 1) ((y + 2 ^ 52) / 2 ^ 53).

(** The closure [pct]; the latency in nanoseconds. *)
Definition pct (lat : list Z) (p : Z) : outcome Z :=
  match lat with [] => Done 0 | _ => index lat (rank (len lat) p) end.

(** ** Arguments *)

Record Settings := mk_settings { addr : bytes; secs : Z; cfg : Cfg }.

(** [s.parse::<u32>().ok()] *)
Definition parse_u32 (s : bytes) : option Z :=
  n ← wal_format.parse_u64 s; if n <? 2 ^ 32 then Some n else None.

(** An argument that is missing or does not parse has its default. *)
Definition arg (a : list bytes) (i : nat) (parse : bytes -> option Z) (dflt : Z) : Z := default dflt (a !! i ≫= parse).
Definition settings (args : list bytes) : Settings :=
  let a := filter (fun s => s <> bstr "--bench") args in
  mk_settings (default (bstr "127.0.0.1:9000") (a !! 1%nat)) (arg a 4 wal_format.parse_u64 10)
    (mk_cfg (arg a 2 wal_format.parse_u64 16) (arg a 3 wal_format.parse_u64 64) (arg a 5 parse_u32 50)
       (arg a 6 wal_format.parse_u64 64)).

(** ** Workers *)

(** What the outside does to a worker: whether it connects, its writes in
    [setup_conn], what arrives, the rounds until [stop]. *)
Record Env := mk_env {
  connected : outcome unit; write_all : bytes -> outcome unit; sock : list Event; rounds : list Round }.

(** [None]: the setup failed; the worker adds nothing and returns no latencies. *)
Definition worker (tid : Z) (c : Cfg) (env : Env) : outcome (option Worker) :=
  match (_ ← connected env; setup_conn tid c (write_all env) (sock env)) with
  | Panic => Panic
  | IoErr _ => Done None
  | Done (_, fr, sock) =>
      w ← worker_loop c (mk_worker (seed tid) keybuf0 fr sock [] 0 0 0) (rounds env);
      Done (Some w)
  end.
Definition lats_of (w : option Worker) : list Z := match w with Some w => lats w | None => [] end.
Definition totals_with (sh : Shared) (w : option Worker) : Shared :=
  match w with Some w => add_totals sh w | None => sh end.

(** ** [main] *)

Inductive Line :=
| Warning (out in_ : Z)
| Bench (s : Settings)
| PrefillDone
| Window (elapsed : Z)
| TotalOps (n : Z)
| Throughput (ops elapsed : Z)                 (* [ops / elapsed] *)
| Net (tx rx elapsed : Z)                      (* [tx / elapsed / 1048576], ... *)
| Misses (n : Z)
| PerRound (pipeline : Z)
| Percentile (name : string) (ns : Z)          (* [ns / 1000] *)
| Rounds (n : Z).

(** [for h in handles]: the latencies, in the order of the threads. *)
Definition join_one (c : Cfg) (envs : Z -> Env) (st : list Z * Shared) (tid : Z) : outcome (list Z * Shared) :=
  w ← worker tid c (envs tid);
  Done (st.1 ++ lats_of w, totals_with st.2 w).

(** The lines with the results. *)
Definition results (c : Cfg) (elapsed : Z) (sh : Shared) (n p50 p90 p99 p999 max : Z) : list Line :=
  [Window elapsed; TotalOps (total_ops sh); Throughput (total_ops sh) elapsed; Net (total_tx sh) (total_rx sh) elapsed;
   Misses (total_miss sh); PerRound (pipeline c); Percentile "p50" p50; Percentile "p90" p90; Percentile "p99" p99;
   Percentile "p999" p999; Percentile "max" max; Rounds n].

Definition report (c : Cfg) (elapsed : Z) (lat : list Z) (sh : Shared) : outcome (list Line) :=
  p50 ← pct lat (literal 1 2);
  p90 ← pct lat (literal 9 10);
  p99 ← pct lat (literal 99 100);
  p999 ← pct lat (literal 999 1000);
  max ← pct lat (literal 1 1);
  Done (results c elapsed sh (len lat) p50 p90 p99 p999 max).

(** The atomic counters are sums, so the order in which the workers add to them
    does not matter ([totals_any_order]); here it is that of the threads. *)
Definition main (args : list bytes) (envs : Z -> Env) (elapsed : Z) : outcome (list Line) :=
  let s := settings args in
  let c := cfg s in
  _ ← assert_that ((1 <=? conns c) && (1 <=? pipeline c));
  let warning := if 128 * 1024 <? Z.max (batch_out c) (batch_in c) then [Warning (batch_out c) (batch_in c)] else [] in
  '(lat, sh) ← fold_outcome (join_one c envs) ([], mk_shared 0 0 0 0) (seqZ 0 (conns c));
  lines ← report c elapsed (merge_sort Z.le lat) sh;
  Done (warning ++ [Bench s; PrefillDone] ++ lines).

(** ** Percentiles *)

Lemma rne_mono n m d : 0 < d -> n <= m -> rne n d <= rne m d.
Proof.
  intros Hd Hn. unfold rne. pose proof (Z.div_mod n d ltac:(lia)). pose proof (Z.div_mod m d ltac:(lia)).
  pose proof (Z.mod_pos_bound n d Hd). pose proof (Z.mod_pos_bound m d Hd).
  assert (n / d <= m / d) by (by apply Z.div_le_mono).
  destruct (decide (n / d = m / d)) as [E|]; [|repeat case_match; lia].
  assert (n mod d <= m mod d) by nia. rewrite E.
  repeat case_match; rewrite ?Z.ltb_lt, ?Z.ltb_ge in *; lia.
Qed.

Lemma rne_exact q d : 0 < d -> rne (q * d) d = q.
Proof.
  intros Hd. unfold rne. rewrite Z.div_mul, Z.mod_mul by lia. by replace (2 * 0 <? d) with true by lia_bool.
Qed.

(** An integer up to 2^53 is a 64-bit float. *)
Lemma round53_exact n : 0 <= n <= 2 ^ 53 -> round53 n = n.
Proof.
  intros Hn. unfold round53. destruct (decide (n = 2 ^ 53)) as [->|]; [reflexivity|].
  assert (n = 0 \/ Z.log2 n < 53) as [->|Hl]; [|reflexivity|].
  { destruct (decide (n = 0)); [by left|right]. apply Z.log2_lt_pow2; lia. }
  replace (Z.max 0 (Z.log2 n - 52)) with 0 by lia. rewrite Z.pow_0_r, Z.mul_1_r.
  pose proof (rne_exact n 1 ltac:(lia)) as E. by rewrite Z.mul_1_r in E.
Qed.

Lemma rne_le n d y : 0 < d -> n <= y * d -> rne n d <= y.
Proof. intros Hd Hn. rewrite <- (rne_exact y d) by done. by apply rne_mono. Qed.
Lemma rne_ge n d y : 0 < d -> y * d <= n -> y <= rne n d.
Proof. intros Hd Hn. rewrite <- (rne_exact y d) by done. by apply rne_mono. Qed.

Lemma round53_mono n m : 0 <= n -> n <= m -> round53 n <= round53 m.
Proof.
  intros Hn Hm. pose proof (Z.log2_le_mono n m Hm) as Hl. unfold round53.
  set (s := Z.max 0 (Z.log2 n - 52)). set (t := Z.max 0 (Z.log2 m - 52)).
  assert (0 < 2 ^ s /\ 0 < 2 ^ t) as [Hs Ht] by lia.
  destruct (decide (s = t)) as [<-|Hne]; [apply Z.mul_le_mono_nonneg_r; [lia|by apply rne_mono]|].
  assert (0 < m) as Hm0.
  { enough (m <> 0) by lia. intros ->. apply Hne. unfold s, t. assert (n = 0) as -> by lia. reflexivity. }
  destruct (Z.log2_spec m Hm0) as [Hm1 _].
  transitivity (2 ^ 53 * 2 ^ s); [|transitivity (2 ^ 52 * 2 ^ t)].
  - apply Z.mul_le_mono_nonneg_r; [lia|]. apply rne_le; [lia|]. rewrite <- Z.pow_add_r by lia.
    destruct (decide (n = 0)) as [->|]; [lia|]. destruct (Z.log2_spec n ltac:(lia)) as [_ H2].
    etransitivity; [apply Z.lt_le_incl, H2|]. apply Z.pow_le_mono_r; lia.
  - rewrite <- !Z.pow_add_r by lia. apply Z.pow_le_mono_r; lia.
  - apply Z.mul_le_mono_nonneg_r; [lia|]. apply rne_ge; [lia|]. rewrite <- Z.pow_add_r by lia.
    etransitivity; [|apply Hm1]. apply Z.pow_le_mono_r; lia.
Qed.

Lemma round53_prod x p : 0 <= x < 2 ^ 53 -> 0 <= p <= 2 ^ 53 -> 0 <= round53 (x * p) <= x * 2 ^ 53.
Proof.
  intros Hx Hp. assert (0 <= x * p <= x * 2 ^ 53) as Hn by nia. split.
  { rewrite <- (round53_exact 0) by lia. apply round53_mono; lia. }
  unfold round53. set (s := Z.max 0 (Z.log2 (x * p) - 52)).
  assert (Z.log2 (x * p) < 106) as Hl.
  { destruct (decide (x * p = 0)) as [->|]; [done|]. apply Z.log2_lt_pow2; [lia|].
    replace (2 ^ 106) with (2 ^ 53 * 2 ^ 53) by lia. nia. }
  assert (x * 2 ^ 53 = x * 2 ^ (53 - s) * 2 ^ s) as E by (rewrite <- Z.mul_assoc, <- Z.pow_add_r by lia; do 2 f_equal; lia).
  rewrite E in *. apply Z.mul_le_mono_nonneg_r; [lia|]. apply rne_le; lia.
Qed.

(** For every length up to 2^53 the index of a percentile is in range, grows with
    the percentile, and is the last for 1. *)
Lemma rank_range n p : 0 < n <= 2 ^ 53 -> 0 <= p <= 2 ^ 53 -> 0 <= rank n p < n.
Proof.
  intros Hn Hp. unfold rank. rewrite (round53_exact n), (round53_exact (n - 1)) by lia.
  pose proof (round53_prod (n - 1) p ltac:(lia) Hp). split.
  - apply Z.min_glb; [lia|]. apply Z.div_pos; lia.
  - assert ((round53 ((n - 1) * p) + 2 ^ 52) / 2 ^ 53 < n); [|lia]. apply Z.div_lt_upper_bound; lia.
Qed.

Lemma rank_mono n p q : 0 < n <= 2 ^ 53 -> 0 <= p <= q -> q <= 2 ^ 53 -> rank n p <= rank n q.
Proof.
  intros Hn Hp Hq. unfold rank. rewrite (round53_exact n), (round53_exact (n - 1)) by lia.
  apply Z.min_le_compat_l, Z.div_le_mono; [lia|]. apply Z.add_le_mono_r, round53_mono; nia.
Qed.

Lemma rank_last n : 0 < n <= 2 ^ 53 -> rank n (literal 1 1) = n - 1.
Proof.
  intros Hn. unfold rank. rewrite (round53_exact n), (round53_exact (n - 1)) by lia.
  change (literal 1 1) with (2 ^ 53).
  assert (round53 ((n - 1) * 2 ^ 53) = (n - 1) * 2 ^ 53) as ->.
  { apply Z.le_antisymm; [apply round53_prod; lia|]. unfold round53.
    set (s := Z.max 0 (Z.log2 ((n - 1) * 2 ^ 53) - 52)).
    assert (Z.log2 ((n - 1) * 2 ^ 53) < 106) as Hl.
    { destruct (decide (n - 1 = 0)) as [->|]; [done|]. apply Z.log2_lt_pow2; [lia|].
      replace (2 ^ 106) with (2 ^ 53 * 2 ^ 53) by lia. nia. }
    assert ((n - 1) * 2 ^ 53 = (n - 1) * 2 ^ (53 - s) * 2 ^ s) as E by (rewrite <- Z.mul_assoc, <- Z.pow_add_r by lia; do 2 f_equal; lia).
    rewrite E at 1 2. by rewrite rne_exact by lia. }
  rewrite Z.div_add_l by lia. change (2 ^ 52 / 2 ^ 53) with 0. lia.
Qed.

(** The latencies a worker brings to [main], sorted; what [pct] returns. *)
Lemma pct_ok lat p : lat <> [] -> len lat <= 2 ^ 53 -> 0 <= p <= 2 ^ 53 ->
  exists x, pct lat p = Done x /\ lat !! Z.to_nat (rank (len lat) p) = Some x.
Proof.
  intros Hne Hl Hp. assert (0 < len lat) by (destruct lat; [done|simpl; lia]).
  pose proof (rank_range (len lat) p ltac:(lia) Hp) as Hr.
  destruct (lookup_lt_is_Some_2 lat (Z.to_nat (rank (len lat) p))) as [x Hx]; [lia|].
  exists x. split; [|done]. unfold pct. destruct lat; [done|]. apply index_Done. by split; [apply Hr|].
Qed.

(** ** Readers of any input *)

(** Whatever the server sends, the reader stays in its bounds. *)
Lemma next_frame_total fr v room :
  holds fr v room -> exists o, next_frame fr = Done o /\
    match o with Some fr' => exists v' room', holds fr' v' room' | None => True end.
Proof.
  intros (x & y & Eb & Ep & Eh & Er & Hne). unfold next_frame. destruct (4 <=? have fr - pos fr) eqn:E4; [|by exists None].
  apply Z.leb_le in E4.
  assert (slice (buf fr) (pos fr) (pos fr + 4) = Done (take 4 v)) as ->.
  { rewrite Eb, <- (take_drop 4 v) at 1. rewrite <- app_assoc. apply slice_mid; len_lia. }
  ostep. rewrite wire.rd_u32_Done by len_lia. ostep.
  pose proof (le_combine_bound (take 4 v)) as Hn. set (n := le_combine (take 4 v)) in *.
  destruct (4 + n <=? have fr - pos fr) eqn:En; [|by exists None]. apply Z.leb_le in En.
  assert (exists m, (if 1 <=? n then c ← index (buf fr) (pos fr + 4);
             Done (if decide (c = Byte.x02) then misses fr + 1 else misses fr) else Done (misses fr)) = Done m) as [m ->].
  { destruct (1 <=? n) eqn:E1; [|by eexists]. apply Z.leb_le in E1.
    destruct (index (buf fr) (pos fr + 4)) as [c|e|] eqn:Ei; [by eexists| |].
    - unfold index in Ei. by repeat case_match.
    - apply index_Panic in Ei. exfalso. apply Ei. rewrite Eb. len_lia. }
  ostep. eexists. split; [done|]. exists (drop (Z.to_nat (4 + n)) v), room, (x ++ take (Z.to_nat (4 + n)) v), y. simpl.
  split_and!; [|len_lia..|done|done]. rewrite <- !app_assoc, (app_assoc (take _ v)), take_drop. done.
Qed.

Lemma read_loop_total fuel fr v room sock count rx :
  holds fr v room -> (count + sock_size sock <= fuel)%nat ->
  exists r fr' sock' v' room', read_loop fuel fr sock count rx = Done (r, fr', sock') /\ holds fr' v' room'.
Proof.
  revert fr v room sock count rx. induction fuel as [|fuel IH]; intros fr v room sock count rx Hh Hf;
    (destruct count as [|count]; [by exists (Got rx), fr, sock, v, room|]); [lia|]. cbn [read_loop].
  destruct (next_frame_total fr v room Hh) as ([fr1|] & -> & Ho); ostep.
  { destruct Ho as (v1 & room1 & Hh1). apply (IH fr1 v1 room1); [done|lia]. }
  destruct (compact_ok fr v room Hh) as (fr1 & -> & Hh1 & _ & L1). ostep. rewrite <- L1 in Hh1.
  destruct (grow_ok fr1 v Hh1) as (room2 & Hh2 & Hr & Er & _). rewrite <- Er.
  destruct (sock_read room2 sock) as [[b s1]|e|] eqn:Es; [|by eexists _, _, _, v, room2|].
  - pose proof (sock_read_size _ _ _ _ Es). destruct (len b =? 0) eqn:Eb; [by eexists _, _, _, v, room2|].
    apply Z.eqb_neq in Eb. destruct (store_ok (grow fr1) v room2 b Hh2) as (room3 & Hh3 & _).
    { destruct sock as [|[d|e] sock]; cbn [sock_read] in Es; [by injection Es as <- <-|destruct (len d <=? room2) eqn:El|done];
        injection Es as <- <-; [lia|len_lia]. }
    apply (IH (store (grow fr1) b) (v ++ b) room3); [done|lia].
  - destruct sock as [|[d|e] sock]; cbn [sock_read] in Es; [done|by destruct (len d <=? room2)|done].
Qed.

Lemma read_frames_total fr v room sock count :
  holds fr v room ->
  exists r fr' sock' v' room', read_frames fr sock count = Done (r, fr', sock') /\ holds fr' v' room'.
Proof. intros Hh. by eapply read_loop_total. Qed.

(** ** Workers *)

Lemma prefill_total fuel c wr keybuf i end_ fr v room sock :
  0 < pipeline c -> (forall b, wr b <> Panic) -> holds fr v room -> (Z.to_nat (end_ - i) <= fuel)%nat ->
  (exists e, prefill fuel c wr keybuf i end_ fr sock = IoErr e) \/
  exists bs fr' sock' v' room', prefill fuel c wr keybuf i end_ fr sock = Done (bs, fr', sock') /\ holds fr' v' room'.
Proof.
  intros Hp Hwr. revert keybuf i fr v room sock. induction fuel as [|fuel IH]; intros keybuf i fr v room sock Hh Hf;
    cbn [prefill]; destruct (i <? end_) eqn:Ei; [lia|right; by exists [], fr, sock, v, room| |right; by exists [], fr, sock, v, room].
  apply Z.ltb_lt in Ei. destruct (push_puts c keybuf [] _) as [kb sb]. specialize (Hwr sb).
  destruct (wr sb) as [[]|e|]; [|left; by exists e|done]. ostep.
  destruct (read_frames_total fr v room sock (Z.to_nat (Z.min (end_ - i) (pipeline c))) Hh)
    as ([n|e] & fr1 & s1 & v1 & room1 & -> & Hh1); ostep; [|left; by exists e].
  destruct (IH kb (i + Z.min (end_ - i) (pipeline c)) fr1 v1 room1 s1 Hh1 ltac:(lia))
    as [[e ->]|(bs & fr2 & s2 & v2 & room2 & -> & Hh2)]; ostep; [left; by exists e|right].
  by exists (sb :: bs), fr2, s2, v2, room2.
Qed.

(** A worker's operations are those of the rounds whose latency it keeps. *)
Definition counted (c : Cfg) (w : Worker) : Prop := ops w = wrap64 (len (lats w) * pipeline c).

Lemma worker_loop_total c w v room rs :
  holds (frames w) v room -> counted c w ->
  exists w' ls, worker_loop c w rs = Done w' /\ counted c w' /\
    lats w' = lats w ++ ls /\ ls `sublist_of` (elapsed <$> filter (fun r => recording r = true) rs).
Proof.
  revert w v room. induction rs as [|r rs IH]; intros w v room Hh Hc; cbn [worker_loop].
  { exists w, []. by rewrite app_nil_r. }
  destruct (round_reqs _ c (rng w) (w_key w) []) as [[rg kb] sb].
  assert (forall fr s, exists w' ls,
    Done (mk_worker rg kb fr s (lats w) (ops w) (tx w) (rx w)) = Done w' /\ counted c w' /\ lats w' = lats w ++ ls /\
    ls `sublist_of` (elapsed <$> filter (fun r => recording r = true) (r :: rs))) as Hstop.
  { intros fr s. eexists _, []. rewrite app_nil_r. split_and!; [done|done|done|apply sublist_nil_l]. }
  destruct (wrote r); [|by apply Hstop]. cbn [negb].
  destruct (read_frames_total (frames w) v room (w_sock w) (Z.to_nat (pipeline c)) Hh)
    as ([n|e] & fr1 & s1 & v1 & room1 & -> & Hh1); ostep; [|by apply Hstop].
  rewrite filter_cons. destruct (recording r) eqn:Er.
  - destruct (IH (mk_worker rg kb fr1 s1 (lats w ++ [elapsed r]) (add64 (ops w) (pipeline c)) (add64 (tx w) (len sb)) (add64 (rx w) n)) v1 room1 Hh1)
      as (w' & ls & E & Hc' & El & Hs).
    { unfold counted in *. simpl. rewrite Hc, add64_wrap, length_app. simpl. f_equal. lia. }
    exists w', (elapsed r :: ls). split; [done|]. split; [done|]. simpl in El. rewrite <- app_assoc in El.
    split; [done|]. rewrite decide_True, fmap_cons by done. by apply sublist_skip.
  - destruct (IH (mk_worker rg kb fr1 s1 (lats w) (ops w) (tx w) (rx w)) v1 room1 Hh1) as (w' & ls & E & Hc' & El & Hs); [done|].
    exists w', ls. by rewrite decide_False by done.
Qed.

Definition steady (env : Env) : Prop := connected env <> Panic /\ forall b, write_all env b <> Panic.

(** The rounds that a worker may record. *)
Definition recorded (env : Env) : list Z := elapsed <$> filter (fun r => recording r = true) (rounds env).

Lemma worker_total tid c env :
  0 < pipeline c -> steady env ->
  exists w, worker tid c env = Done w /\ lats_of w `sublist_of` recorded env /\
    match w with Some w => counted c w | None => True end.
Proof.
  intros Hp [Hcon Hwr]. unfold worker. destruct (connected env) as [[]|e|]; [|by exists None; split; [|split; [apply sublist_nil_l|]]|done].
  ostep. unfold setup_conn.
  destruct (prefill_total (Z.to_nat (range_end tid c - range_start tid c)) c (write_all env) keybuf0 (range_start tid c)
    (range_end tid c) new_reader [] (Z.of_nat BUF_SIZE) (sock env) Hp Hwr new_reader_holds (le_n _))
    as [[e ->]|(bs & fr & s & v & room & -> & Hh)]; [by exists None; split; [|split; [apply sublist_nil_l|]]|].
  destruct (worker_loop_total c (mk_worker (seed tid) keybuf0 fr s [] 0 0 0) v room (rounds env) Hh)
    as (w & ls & -> & Hc & El & Hs); [done|]. ostep. exists (Some w). simpl in El. simpl. rewrite El. done.
Qed.

(** The counters are sums. *)
Lemma totals_any_order ws ws' sh : ws ≡ₚ ws' -> fold_left totals_with ws sh = fold_left totals_with ws' sh.
Proof.
  intros Hp. revert sh. induction Hp as [|w ws ws' _ IH|w1 w2 ws|ws1 ws2 ws3 _ IH1 _ IH2]; intros sh; simpl; [done|apply IH| |by rewrite IH1].
  f_equal. destruct w1, w2; simpl; try done. unfold add_totals, add64. simpl.
  f_equal; unfold wrap64; rewrite !Zplus_mod_idemp_l; f_equal; lia.
Qed.

Lemma join_total c envs tids lat sh :
  0 < pipeline c -> (forall t, steady (envs t)) -> total_ops sh = wrap64 (len lat * pipeline c) ->
  exists ls sh', fold_outcome (join_one c envs) (lat, sh) tids = Done (lat ++ ls, sh') /\
    total_ops sh' = wrap64 (len (lat ++ ls) * pipeline c) /\ ls `sublist_of` (tids ≫= fun t => recorded (envs t)).
Proof.
  intros Hp Hs. revert lat sh. induction tids as [|t tids IH]; intros lat sh Ho; cbn [fold_outcome].
  { exists [], sh. by rewrite app_nil_r. }
  destruct (worker_total t c (envs t) Hp (Hs t)) as (w & Ew & Hl & Hc).
  assert (join_one c envs (lat, sh) t = Done (lat ++ lats_of w, totals_with sh w)) as -> by (unfold join_one; by rewrite Ew). ostep.
  destruct (IH (lat ++ lats_of w) (totals_with sh w)) as (ls & sh' & -> & Ho' & Hl').
  { destruct w as [w|]; simpl; [|by rewrite app_nil_r]. unfold counted in Hc.
    rewrite Ho, Hc, add64_wrap2, length_app. f_equal. lia. }
  exists (lats_of w ++ ls), sh'. rewrite <- app_assoc in *. split; [done|]. split; [done|].
  rewrite bind_cons. by apply sublist_app.
Qed.

(** ** The report *)

#[local] Instance Zle_total : Total Z.le.
Proof. intros x y. lia. Qed.

Lemma sorted_lookup lat i j x y :
  StronglySorted Z.le lat -> (i <= j)%nat -> lat !! i = Some x -> lat !! j = Some y -> x <= y.
Proof.
  intros Hs Hij Hx Hy. rewrite <- (take_drop_middle lat i x Hx) in Hs, Hy.
  destruct (decide (i = j)) as [<-|Hne].
  { pose proof (lookup_lt_Some _ _ _ Hx). rewrite list_lookup_middle in Hy by len_lia. injection Hy as ->. lia. }
  apply StronglySorted_app_1_r, StronglySorted_cons in Hs as [Hs _]. rewrite Forall_forall in Hs. apply Hs.
  pose proof (lookup_lt_Some _ _ _ Hx). rewrite lookup_app_r in Hy by len_lia.
  apply list_elem_of_lookup_2 with (i := (j - i - 1)%nat). rewrite <- Hy. rewrite length_take.
  replace (j - min i (length lat))%nat with (S (j - i - 1)) by lia. done.
Qed.

(** Percentiles of sorted latencies: latencies, and increasing. *)
Lemma pct_sorted lat p q x y :
  StronglySorted Z.le lat -> len lat <= 2 ^ 53 -> 0 <= p <= q -> q <= 2 ^ 53 ->
  pct lat p = Done x -> pct lat q = Done y -> x <= y.
Proof.
  intros Hs Hl Hp Hq Hx Hy. destruct (decide (lat = [])) as [->|Hne]; [injection Hx as <-; by injection Hy as <-|].
  destruct (pct_ok lat p Hne Hl ltac:(lia)) as (x' & Ex & Lx), (pct_ok lat q Hne Hl ltac:(lia)) as (y' & Ey & Ly).
  rewrite Ex in Hx. rewrite Ey in Hy. injection Hx as ->. injection Hy as ->.
  assert (0 < len lat) by (destruct lat; [done|simpl; lia]).
  eapply sorted_lookup; [exact Hs| |exact Lx|exact Ly].
  apply Z2Nat.inj_le; [by apply rank_range; lia|by apply rank_range; lia|]. by apply rank_mono; lia.
Qed.

Lemma pct_max lat x y :
  StronglySorted Z.le lat -> len lat <= 2 ^ 53 -> pct lat (literal 1 1) = Done y -> x ∈ lat -> x <= y /\ y ∈ lat.
Proof.
  intros Hs Hl Hy Hx. assert (lat <> []) as Hne by (by destruct lat; [apply not_elem_of_nil in Hx|]).
  destruct (pct_ok lat (literal 1 1) Hne Hl ltac:(by vm_compute)) as (y' & Ey & Ly). rewrite Ey in Hy. injection Hy as ->.
  split; [|by eapply list_elem_of_lookup_2]. apply list_elem_of_lookup in Hx as [i Hi]. pose proof (lookup_lt_Some _ _ _ Hi).
  rewrite rank_last in Ly by lia. eapply sorted_lookup; [exact Hs| |exact Hi|exact Ly]. lia.
Qed.

Lemma report_ok c elapsed lat sh :
  StronglySorted Z.le lat -> len lat <= 2 ^ 53 ->
  exists p50 p90 p99 p999 max, report c elapsed lat sh = Done (results c elapsed sh (len lat) p50 p90 p99 p999 max) /\
    p50 <= p90 <= p99 /\ p99 <= p999 <= max /\ forall x, x ∈ lat -> x <= max /\ max ∈ lat.
Proof.
  intros Hs Hl.
  assert (forall p, 0 <= p <= 2 ^ 53 -> exists x, pct lat p = Done x) as Hx.
  { intros p Hp. destruct (decide (lat = [])) as [->|Hne]; [by exists 0|].
    destruct (pct_ok lat p Hne Hl Hp) as (x & E & _). by exists x. }
  destruct (Hx (literal 1 2)) as [p50 E1]; [by vm_compute|]. destruct (Hx (literal 9 10)) as [p90 E2]; [by vm_compute|].
  destruct (Hx (literal 99 100)) as [p99 E3]; [by vm_compute|]. destruct (Hx (literal 999 1000)) as [p999 E4]; [by vm_compute|].
  destruct (Hx (literal 1 1)) as [max E5]; [by vm_compute|].
  exists p50, p90, p99, p999, max. unfold report. rewrite E1, E2, E3, E4, E5. split; [done|].
  split_and!.
  - by eapply pct_sorted; [exact Hs|exact Hl| | |exact E1|exact E2]; vm_compute.
  - by eapply pct_sorted; [exact Hs|exact Hl| | |exact E2|exact E3]; vm_compute.
  - by eapply pct_sorted; [exact Hs|exact Hl| | |exact E3|exact E4]; vm_compute.
  - by eapply pct_sorted; [exact Hs|exact Hl| | |exact E4|exact E5]; vm_compute.
  - intros x. by apply pct_max.
Qed.

(** The load generator reports what it measured.  With at least one connection and
    one request per round, whatever the connections do and the server sends, no
    worker panics and [main] prints its report; [lat] are latencies of recorded
    rounds, each printed percentile is below the next one and the last is their
    maximum, the number of rounds is theirs, and the total of operations is
    [pipeline] for each of them, whatever worker broke off where.  (Up to 2^53
    rounds; from there on the rounding of the length can take the index of a
    percentile past the end.) *)
Theorem main_reports args envs elapsed :
  let c := cfg (settings args) in
  1 <= conns c -> 1 <= pipeline c -> (forall t, steady (envs t)) ->
  len (seqZ 0 (conns c) ≫= fun t => recorded (envs t)) <= 2 ^ 53 ->
  exists before lat sh p50 p90 p99 p999 max,
    main args envs elapsed = Done (before ++ results c elapsed sh (len lat) p50 p90 p99 p999 max) /\
    lat `sublist_of` (seqZ 0 (conns c) ≫= fun t => recorded (envs t)) /\
    total_ops sh = wrap64 (len lat * pipeline c) /\
    p50 <= p90 <= p99 /\ p99 <= p999 <= max /\ forall x, x ∈ lat -> x <= max /\ max ∈ lat.
Proof.
  intros c Hc Hp Hs Hl. unfold main. fold c.
  replace ((1 <=? conns c) && (1 <=? pipeline c)) with true by lia_bool. unfold assert_that. ostep.
  destruct (join_total c envs (seqZ 0 (conns c)) [] (mk_shared 0 0 0 0)) as (lat & sh & -> & Ho & Hsub); [lia|done|done|].
  ostep. simpl app in *. pose proof (sublist_length _ _ Hsub) as Hlen.
  pose proof (merge_sort_Permutation Z.le lat) as Hperm. pose proof (Permutation_length Hperm) as El.
  destruct (report_ok c elapsed (merge_sort Z.le lat) sh) as (p50 & p90 & p99 & p999 & max & -> & H1 & H2 & H3);
    [apply (StronglySorted_merge_sort Z.le)|lia|]. ostep.
  eexists (_ ++ [Bench (settings args); PrefillDone]), lat, sh, p50, p90, p99, p999, max. rewrite El, <- app_assoc.
  split_and!; [done|done|done|lia..|]. intros x. rewrite <- Hperm. apply H3.
Qed.

(** ** Examples *)

(** An argument that does not parse has its default; [--bench] is cargo's. *)
Example ex_settings :
  settings [bstr "loadgen"; bstr "--bench"; bstr "10.0.0.1:9000"; bstr "4"; bstr "-1"; bstr "5"; bstr "101"] =
  mk_settings (bstr "10.0.0.1:9000") 5 (mk_cfg 4 64 101 64).
Proof. vm_compute. reflexivity. Qed.

(** The index of the median of two is 1; from 2^53 + 3 rounds on that of the
    maximum can be past the end. *)
Example ex_ranks :
  rank 2 (literal 1 2) = 1 /\ rank 1000 (literal 99 100) = 989 /\ rank (2 ^ 53 + 3) (literal 1 1) = 2 ^ 53 + 4.
Proof. vm_compute. repeat split. Qed.

(** The arithmetic of [rank] is that of the Standard Library's binary64, on the
    literals and on products of lengths small and large. *)
Definition sf_of (n : Z) : spec_float := binary_normalize 53 1024 n 0 false.
Definition in_units (x : spec_float) : option Z :=
  match x with
  | S754_zero _ => Some 0
  | S754_finite false m e => if 0 <=? e + 53 then Some (Z.pos m * 2 ^ (e + 53)) else None
  | _ => None
  end.
Definition as_binary64 (n : Z) (lit : Z * Z) : bool :=
  let p := SFdiv 53 1024 (sf_of lit.1) (sf_of lit.2) in
  let x := SFsub 53 1024 (sf_of n) (sf_of 1) in
  bool_decide (in_units p = Some (literal lit.1 lit.2)) &&
  bool_decide (in_units (SFmul 53 1024 x p) = Some (round53 (round53 (round53 n - 1) * literal lit.1 lit.2))).
Example rank_is_binary64 :
  forallb (fun n => forallb (as_binary64 n) [(1, 2); (9, 10); (99, 100); (999, 1000); (1, 1)])
    (seqZ 1 300 ++ [10 ^ 6; 10 ^ 9 + 7; 2 ^ 40 - 3; 2 ^ 52 + 1; 2 ^ 53 - 1; 2 ^ 53; 2 ^ 53 + 3; 2 ^ 60 - 1]) = true.
Proof. vm_compute. reflexivity. Qed.

(** A server that is not there: the report is printed, with nothing in it. *)
Example ex_refused :
  main [bstr "loadgen"] (fun _ => mk_env (IoErr 111) (fun _ => Done tt) [] []) 10 =
  Done ([Bench (mk_settings (bstr "127.0.0.1:9000") 10 (mk_cfg 16 64 50 64)); PrefillDone] ++
    results (mk_cfg 16 64 50 64) 10 (mk_shared 0 0 0 0) 0 0 0 0 0 0).
Proof. vm_compute. reflexivity. Qed.

Lemma main_reports_witness :
  exists before (lat : list Z) sh p50 p90 p99 p999 max,
    main [bstr "loadgen"; bstr "a:1"; bstr "2"] (fun _ => mk_env (IoErr 111) (fun _ => Done tt) [] [mk_round true true 7]) 10 =
      Done (before ++ results (mk_cfg 2 64 50 64) 10 sh (len lat) p50 p90 p99 p999 max) /\
    total_ops sh = wrap64 (len lat * 64) /\ p99 <= p999 <= max.
Proof.
  destruct (main_reports [bstr "loadgen"; bstr "a:1"; bstr "2"]
    (fun _ => mk_env (IoErr 111) (fun _ => Done tt) [] [mk_round true true 7]) 10)
    as (before & lat & sh & p50 & p90 & p99 & p999 & max & E & _ & Ho & _ & Hm & _);
    [by vm_compute|by vm_compute|by intros t|by vm_compute|].
  exists before, lat, sh, p50, p90, p99, p999, max. split_and!; [exact E|exact Ho|exact (proj1 Hm)|exact (proj2 Hm)].
Defined.

End load_main.
