(* ===== verification/AsyncClient.v ===== *)
(** * The asynchronous client ([crates/smart_client/src/async_client.rs])

    The supervisor runs the writer task and the reader task of a connection
    inside one [select!], so they interleave only where they wait: a definition
    per stretch between two waits.  Dropping the loser of the [select!] drops
    the fifo's ends with it.  Calls, frames and the encoder are those of
    [Client.v]. *)

From S2P Require Import Prelude Wire Types Stage1 Client.
Local Open Scope Z_scope.

Module async_client.
Import client.

(** ** A session: one round of the supervisor's loop *)

Inductive Answer :=
| Reply (r : wire.Resp)          (* [Ok(resp)] *)
| ConnectionLost                 (* [Err("connection lost")] *)
| ReaderGone.                    (* [Err("reader task is gone")]: the sender was dropped *)

Inductive Task :=
| Waiting                        (* the writer in [guard.recv], the reader in [read] *)
| Busy (write_buf : bytes).      (* the writer in [write_all], these bytes being left *)

Record Session := mk_session {
  rx : list Call;                (* the calls not yet received *)
  handles : bool;                (* some [AsyncClient] is alive *)
  writer : Task;
  extracting : bool;             (* the reader is in its [while let] *)
  over : bool;                   (* the [select!] has completed *)
  fifo : list N;
  framer : FrameReader;
  answers : list (N * Answer);
  sent : bytes;
  received : bytes;
}.

Definition session (calls : list Call) (handles : bool) : Session :=
  mk_session calls handles Waiting false false [] new_reader [] [] [].

(** [select!] completes: both halves of the fifo are dropped with the tasks. *)
Definition finish (st : Session) (wrote : bytes) (left_over : Answer) : Session :=
  mk_session (rx st) (handles st) Waiting false true [] (framer st)
    (answers st ++ ((fun t => (t, left_over)) <$> fifo st)) (sent st ++ wrote) (received st).

(** The writer from [guard.recv] to [write_all]: the first call and the [n] that
    are ready are encoded, and their channels queued; it returns when every
    handle is dropped. *)
Definition writer_recv (st : Session) (n : nat) : option Session :=
  match writer st, rx st with
  | Waiting, first :: rest =>
      let batch := first :: take n rest in
      Some (mk_session (drop n rest) (handles st) (Busy (fold_left encode_call batch [])) (extracting st)
              (over st) (fifo st ++ (tx <$> batch)) (framer st) (answers st) (sent st) (received st))
  | Waiting, [] => if handles st then None else Some (finish st [] ReaderGone)
  | _, _ => None
  end.

(** [write_all] has written [n] bytes and waits. *)
Definition writer_progress (st : Session) (n : nat) : option Session :=
  match writer st with
  | Busy wb =>
      Some (mk_session (rx st) (handles st) (Busy (drop n wb)) (extracting st) (over st) (fifo st) (framer st)
              (answers st) (sent st ++ take n wb) (received st))
  | Waiting => None
  end.

(** [write_all] and [flush] return: [Some n] is a failure after [n] more bytes. *)
Definition writer_write (st : Session) (failed : option nat) : option Session :=
  match writer st, failed with
  | Busy wb, None =>
      Some (mk_session (rx st) (handles st) Waiting (extracting st) (over st) (fifo st) (framer st)
              (answers st) (sent st ++ wb) (received st))
  | Busy wb, Some n => Some (finish st (take n wb) ReaderGone)
  | _, _ => None
  end.

(** [read]: [None] is the end of the stream or an error, after which the reader
    fails what waits in the fifo and returns. *)
Definition reader_read (st : Session) (chunk : option bytes) : option Session :=
  if extracting st then None else
  match chunk with
  | Some c =>
      Some (mk_session (rx st) (handles st) (writer st) true (over st) (fifo st) (feed (framer st) c)
              (answers st) (sent st) (received st ++ c))
  | None => Some (finish st [] ConnectionLost)
  end.

(** A turn of the [while let]; nothing while it waits in [fifo_rx.recv]. *)
Definition reader_extract (st : Session) : outcome (option Session) :=
  if extracting st then
    '(r, fr) ← try_extract (framer st);
    match r, fifo st with
    | None, _ =>
        Done (Some (mk_session (rx st) (handles st) (writer st) false (over st) (fifo st) fr (answers st)
                      (sent st) (received st)))
    | Some resp, t :: fifo =>
        Done (Some (mk_session (rx st) (handles st) (writer st) true (over st) fifo fr
                      (answers st ++ [(t, Reply resp)]) (sent st) (received st)))
    | Some _, [] => Done None
    end
  else Done None.

Inductive session_step (st : Session) : Session -> Prop :=
| a_recv n st' : over st = false -> writer_recv st n = Some st' -> session_step st st'
| a_progress n st' : over st = false -> writer_progress st n = Some st' -> session_step st st'
| a_write f st' : over st = false -> writer_write st f = Some st' -> session_step st st'
| a_read c st' : over st = false -> reader_read st c = Some st' -> session_step st st'
| a_extract st' : over st = false -> reader_extract st = Done (Some st') -> session_step st st'
| a_call c : handles st = true -> session_step st
    (mk_session (rx st ++ [c]) true (writer st) (extracting st) (over st) (fifo st) (framer st) (answers st)
       (sent st) (received st))
| a_drop : session_step st
    (mk_session (rx st) false (writer st) (extracting st) (over st) (fifo st) (framer st) (answers st)
       (sent st) (received st)).

(** ** The supervisor *)

(** The inner loop: the sleeps before the attempts, and the delay it leaves. *)
Fixpoint reconnect_loop (delay : Z) (attempts : list bool) : list Z * Z :=
  match attempts with
  | [] => ([], delay)
  | true :: _ => ([delay], 100)
  | false :: attempts =>
      let '(sleeps, d) := reconnect_loop (Z.min (delay * 2) 5000) attempts in (delay :: sleeps, d)
  end.

Inductive Phase :=
| Running (st : Session)
| Reconnecting (calls : list Call) (handles : bool).  (* asleep, or in [TcpStream::connect] *)

Record Supervisor := mk_supervisor {
  task : Phase;
  delay : Z;                     (* the variable of the loop *)
  attempts : nat;                (* the calls of [connect] so far *)
  connects : nat;                (* those that succeeded *)
}.

(** Which attempts to connect succeed. *)
Inductive supervisor_step (accepts : nat -> bool) : Supervisor -> Supervisor -> Prop :=
| s_session st st' d a n :
    session_step st st' ->
    supervisor_step accepts (mk_supervisor (Running st) d a n) (mk_supervisor (Running st') d a n)
| s_over st d a n :
    over st = true ->
    supervisor_step accepts (mk_supervisor (Running st) d a n)
      (mk_supervisor (Reconnecting (rx st) (handles st)) d a n)
| s_attempt q h d a n :
    supervisor_step accepts (mk_supervisor (Reconnecting q h) d a n)
      (if accepts a then mk_supervisor (Running (session q h)) 100 (S a) (S n)
       else mk_supervisor (Reconnecting q h) (Z.min (d * 2) 5000) (S a) n)
| s_call q c d a n :
    supervisor_step accepts (mk_supervisor (Reconnecting q true) d a n)
      (mk_supervisor (Reconnecting (q ++ [c]) true) d a n)
| s_drop q h d a n :
    supervisor_step accepts (mk_supervisor (Reconnecting q h) d a n) (mk_supervisor (Reconnecting q false) d a n).

(** The channel of calls, and whether anybody can still send. *)
Definition calls_left (s : Supervisor) : list Call :=
  match task s with Running st => rx st | Reconnecting q _ => q end.
Definition alive (s : Supervisor) : bool :=
  match task s with Running st => handles st | Reconnecting _ h => h end.

(** ** The invariant of a session *)

Definition is_error (a : N * Answer) : Prop := match a.2 with Reply _ => False | _ => True end.
(** The bytes of the batch being written. *)
Definition in_hand (w : Task) : bytes := match w with Busy wb => wb | Waiting => [] end.

(** [d]: the calls taken; [ps]: those that got a response, with it. *)
Record session_inv (st : Session) (d : list Call) (ps : list (N * wire.Resp)) (errs : list (N * Answer))
    : Prop := {
  si_order : tx <$> d = (answers st).*1 ++ fifo st;
  si_answers : answers st = (prod_map id Reply <$> ps) ++ errs;
  si_errs : Forall is_error errs;
  si_over : if over st then fifo st = [] else errs = [];
  si_reading :
    if over st then exists more fr, extract (mk_reader (received st)) = Done (ps.*2 ++ more, fr)
    else if extracting st then
      extract (mk_reader (received st)) = ('(rs, fr) ← extract (framer st); Done (ps.*2 ++ rs, fr))
    else extract (mk_reader (received st)) = Done (ps.*2, framer st);
  si_sent : if over st then sent st `prefix_of` encode_calls d
            else sent st ++ in_hand (writer st) = encode_calls d;
}.

(** [calls]: all the calls made so far. *)
Definition has_inv (calls : list Call) (st : Session) : Prop :=
  exists d ps errs, calls = d ++ rx st /\ session_inv st d ps errs.

Lemma inv_session calls h : has_inv calls (session calls h).
Proof. exists [], [], []. split; [done|]. by split. Qed.

Lemma session_received st d ps errs :
  session_inv st d ps errs -> exists more fr, extract (mk_reader (received st)) = Done (ps.*2 ++ more, fr).
Proof.
  intros [_ _ _ _ Hr _]. destruct (over st); [done|]. destruct (extracting st).
  - destruct (extract_total (framer st)) as (rs & fr & E & _). rewrite Hr, E. by exists rs, fr.
  - exists [], (framer st). by rewrite app_nil_r.
Qed.

Lemma inv_finish calls st wrote a :
  has_inv calls st -> over st = false -> is_error (0%N, a) -> wrote `prefix_of` in_hand (writer st) ->
  has_inv calls (finish st wrote a).
Proof.
  intros (d & ps & errs & Hc & I) Hov Ha [more Hw]. pose proof (session_received st d ps errs I) as Hf.
  destruct I as [A1 A2 A3 A4 A5 A6]. rewrite Hov in *.
  exists d, ps, (errs ++ ((fun t => (t, a)) <$> fifo st)). split; [done|]. split; simpl; try done.
  - by rewrite A1, fmap_app, <- list_fmap_compose, list_fmap_id, app_nil_r.
  - by rewrite A2, app_assoc.
  - apply Forall_app. split; [done|]. by apply Forall_fmap, Forall_true.
  - rewrite <- A6, Hw. exists more. by rewrite app_assoc.
Qed.

Lemma kept_recv calls st n st' :
  has_inv calls st -> over st = false -> writer_recv st n = Some st' -> has_inv calls st'.
Proof.
  intros I Hov. unfold writer_recv. destruct (writer st) eqn:Ew; [|done].
  destruct (rx st) as [|first rest] eqn:Er.
  - destruct (handles st); [done|]. intros [= <-]. by apply inv_finish; [| |done|exists (in_hand (writer st))].
  - set (batch := first :: take n rest). intros [= <-].
    destruct I as (d & ps & errs & Hc & [A1 A2 A3 A4 A5 A6]). rewrite Hov, Ew, Er in *. simpl in A6.
    rewrite app_nil_r in A6.
    exists (d ++ batch), ps, errs. split.
    { rewrite Hc, <- app_assoc. f_equal. unfold batch. simpl. by rewrite take_drop. }
    split; simpl; rewrite ?Hov; try done.
    + by rewrite fmap_app, A1, app_assoc.
    + by rewrite encode_calls_app, A6.
Qed.

Lemma kept_progress calls st n st' :
  has_inv calls st -> over st = false -> writer_progress st n = Some st' -> has_inv calls st'.
Proof.
  intros (d & ps & errs & Hc & [A1 A2 A3 A4 A5 A6]) Hov. unfold writer_progress.
  destruct (writer st) as [|wb] eqn:Ew; [done|]. intros [= <-]. rewrite Hov in *.
  exists d, ps, errs. split; [done|]. split; simpl; rewrite ?Hov; try done. rewrite <- A6, <- app_assoc. simpl.
  by rewrite take_drop.
Qed.

Lemma kept_write calls st f st' :
  has_inv calls st -> over st = false -> writer_write st f = Some st' -> has_inv calls st'.
Proof.
  intros I Hov. unfold writer_write. destruct (writer st) as [|wb] eqn:Ew; [done|].
  destruct f as [n|]; intros [= <-].
  - apply inv_finish; [done|done|done|]. rewrite Ew. exists (drop n wb). simpl. by rewrite take_drop.
  - destruct I as (d & ps & errs & Hc & [A1 A2 A3 A4 A5 A6]). rewrite Hov, Ew in *.
    exists d, ps, errs. split; [done|]. split; simpl; rewrite ?Hov; try done. by rewrite app_nil_r.
Qed.

Lemma kept_read calls st c st' :
  has_inv calls st -> over st = false -> reader_read st c = Some st' -> has_inv calls st'.
Proof.
  intros I Hov. unfold reader_read. destruct (extracting st) eqn:Ex; [done|].
  destruct c as [c|]; intros [= <-]; [|by apply inv_finish; [| |done|exists (in_hand (writer st))]].
  destruct I as (d & ps & errs & Hc & [A1 A2 A3 A4 A5 A6]). rewrite Hov, Ex in *.
  exists d, ps, errs. split; [done|]. split; simpl; rewrite ?Hov; try done.
  by apply (extract_feed _ _ _ c) in A5.
Qed.

Lemma kept_extract calls st st' :
  has_inv calls st -> over st = false -> reader_extract st = Done (Some st') -> has_inv calls st'.
Proof.
  intros I Hov. unfold reader_extract. destruct (extracting st) eqn:Ex; [|done].
  destruct I as (d & ps & errs & Hc & [A1 A2 A3 A4 A5 A6]). rewrite Hov, Ex in *.
  destruct (try_extract_total (framer st)) as ([r|] & fr & E & Hn); rewrite E; ostep.
  - destruct (fifo st) as [|t fifo'] eqn:Ef; [done|]. intros [= <-].
    exists d, (ps ++ [(t, r)]), []. split; [done|]. split; simpl; rewrite ?Hov; try done.
    + by rewrite A1, fmap_app, <- app_assoc.
    + by rewrite A2, A4, fmap_app, !app_nil_r.
    + rewrite A5, extract_unfold, E, fmap_app. ostep. destruct (extract fr) as [[rs fr2]| |]; ostep; [|done..].
      by rewrite <- app_assoc.
  - intros [= <-]. rewrite (Hn eq_refl) in *. exists d, ps, errs. split; [done|].
    split; simpl; rewrite ?Hov; try done. rewrite A5, extract_unfold, E. ostep. by rewrite app_nil_r.
Qed.

(** The calls made so far grow by those that arrive. *)
Lemma kept_step calls st st' :
  has_inv calls st -> session_step st st' -> exists calls', has_inv calls' st' /\ calls `prefix_of` calls'.
Proof.
  intros I [n s Ho H|n s Ho H|f s Ho H|c s Ho H|s Ho H|c Hh|];
    [exists calls; split; [|done]..| |exists calls; split; [|done]].
  - by eapply kept_recv.
  - by eapply kept_progress.
  - by eapply kept_write.
  - by eapply kept_read.
  - by eapply kept_extract.
  - exists (calls ++ [c]). split; [|by eexists]. destruct I as (d & ps & errs & -> & [A1 A2 A3 A4 A5 A6]).
    exists d, ps, errs. split; [by rewrite <- app_assoc|]. by split.
  - destruct I as (d & ps & errs & -> & [A1 A2 A3 A4 A5 A6]). exists d, ps, errs. split; [done|]. by split.
Qed.

Lemma kept_rtc st0 st calls :
  rtc session_step st0 st -> has_inv calls st0 -> exists calls', has_inv calls' st /\ calls `prefix_of` calls'.
Proof.
  intros Hr. revert calls. induction Hr as [st|s1 s2 s3 Hs _ IH]; intros calls I; [by exists calls|].
  destruct (kept_step calls s1 s2 I Hs) as (c2 & I2 & P2). destruct (IH c2 I2) as (c3 & I3 & P3).
  exists c3. split; [done|]. by etransitivity.
Qed.

(** ** Properties *)

(** C39: the asynchronous client gives every call one answer.  In every state that a
    session reaches, while calls keep arriving: each call taken ([d]) is answered
    once or waits in the fifo; the [i]-th response received answers the [i]-th
    call; nobody gets an error while the session lasts, and when it is over the
    fifo is empty, so every call taken has its answer, and the calls not taken
    are left for the next session. *)
Theorem async_answers_match_calls calls h st :
  rtc session_step (session calls h) st ->
  exists d ps errs more fr,
    calls `prefix_of` d ++ rx st /\ tx <$> d = (answers st).*1 ++ fifo st /\
    answers st = (prod_map id Reply <$> ps) ++ errs /\ Forall is_error errs /\
    (if over st then fifo st = [] else errs = []) /\
    extract (mk_reader (received st)) = Done (ps.*2 ++ more, fr) /\ sent st `prefix_of` encode_calls d.
Proof.
  intros Hr. destruct (kept_rtc _ _ calls Hr (inv_session calls h)) as (calls' & (d & ps & errs & -> & I) & Hp).
  destruct (session_received _ _ _ _ I) as (more & fr & E). destruct I as [A1 A2 A3 A4 A5 A6].
  exists d, ps, errs, more, fr. split_and!; try done. destruct (over st); [done|]. rewrite <- A6. by eexists.
Qed.

(** *** After the last handle is dropped *)

Lemma session_closed st st' :
  session_step st st' -> handles st = false -> handles st' = false /\ rx st' `suffix_of` rx st.
Proof.
  intros Hs Hh. destruct Hs as [n s Ho H|n s Ho H|f s Ho H|c s Ho H|s Ho H|c H|]; [| | | | |congruence|done].
  - revert H. unfold writer_recv. destruct (writer st); [|done]. destruct (rx st) as [|c q] eqn:Er.
    + rewrite Hh. intros [= <-]. simpl. by rewrite Er.
    + intros [= <-]. simpl. split; [done|]. exists (c :: take n q). simpl. by rewrite take_drop.
  - revert H. unfold writer_progress. destruct (writer st); [done|]. by intros [= <-].
  - revert H. unfold writer_write. destruct (writer st); [done|]. by destruct f; intros [= <-].
  - revert H. unfold reader_read. destruct (extracting st); [done|]. by destruct c; intros [= <-].
  - revert H. unfold reader_extract. destruct (extracting st); [|done].
    intros ([o fr] & _ & H)%bind_Done. destruct o; [destruct (fifo st); [done|]|]; injection H as <-; done.
Qed.

Section after_drop.
Variable accepts : nat -> bool.
Abbreviation step := (supervisor_step accepts).

Lemma closed_step s s' : step s s' -> alive s = false -> alive s' = false /\ calls_left s' `suffix_of` calls_left s.
Proof.
  unfold alive, calls_left. intros [st st' d a n Hs|st d a n Ho|q h d a n|q c d a n|q h d a n]; simpl; try done.
  - by apply session_closed.
  - destruct (accepts a); simpl; done.
Qed.
Lemma closed_rtc s s' : rtc step s s' -> alive s = false -> alive s' = false /\ calls_left s' `suffix_of` calls_left s.
Proof.
  induction 1 as [|s1 s2 s3 Hs _ IH]; intros Ha; [done|]. destruct (closed_step _ _ Hs Ha) as [Ha2 Hq2].
  destruct (IH Ha2) as [Ha3 Hq3]. split; [done|]. by etransitivity.
Qed.

(** A session that finds the channel empty and closed. *)
Definition idle_session (st : Session) : Prop :=
  rx st = [] /\ handles st = false /\ writer st = Waiting /\ fifo st = [] /\ answers st = [] /\ sent st = [].
(** Since [n] connections, every session was of this kind. *)
Definition idle_since (n : nat) (s : Supervisor) : Prop :=
  alive s = false /\ calls_left s = [] /\ (n <= connects s)%nat /\
  ((n < connects s)%nat -> match task s with Running st => idle_session st | Reconnecting _ _ => True end).

Lemma idle_session_step st st' : session_step st st' -> idle_session st -> idle_session st'.
Proof.
  intros Hs (I1 & I2 & I3 & I4 & I5 & I6).
  destruct Hs as [n s Ho H|n s Ho H|f s Ho H|c s Ho H|s Ho H|c H|]; [..|congruence|done].
  - unfold writer_recv in H. rewrite I1, I2, I3 in H. injection H as <-. unfold finish, idle_session. simpl.
    by rewrite I1, I4, I5, I6.
  - unfold writer_progress in H. by rewrite I3 in H.
  - unfold writer_write in H. by rewrite I3 in H.
  - unfold reader_read in H. destruct (extracting st); [done|]. destruct c; injection H as <-; unfold idle_session; simpl;
      by rewrite ?I4, ?I5, ?I6.
  - unfold reader_extract in H. destruct (extracting st); [|done]. rewrite I4 in H.
    apply bind_Done in H as ([o fr] & _ & H). destruct o; [done|]. injection H as <-. done.
Qed.

Lemma idle_since_step n s s' : step s s' -> idle_since n s -> idle_since n s'.
Proof.
  intros Hs (Ha & Hq & Hn & Hi). destruct (closed_step _ _ Hs Ha) as [Ha' Hq'].
  assert (calls_left s' = []) as Eq by (rewrite Hq in Hq'; destruct Hq' as [k E]; by destruct k, (calls_left s')).
  split; [done|]. split; [done|].
  destruct Hs as [st st' d a k Hs|st d a k Ho|q h d a k|q c d a k|q h d a k]; simpl in *; try done.
  - split; [done|]. intros Hk. eapply idle_session_step; [done|by apply Hi].
  - unfold alive, calls_left in *. simpl in *. subst h q. destruct (accepts a); simpl; (split; [lia|done]).
Qed.
Lemma idle_since_rtc n s s' : rtc step s s' -> idle_since n s -> idle_since n s'.
Proof. induction 1 as [|s1 s2 s3 Hs _ IH]; [done|]. intros I. by eapply IH, idle_since_step. Qed.

(** What the writer does next, whatever the peer does: it returns, takes calls, or is
    in [write_all]. *)
Definition writer_moves (st : Session) : Prop :=
  over st = true \/ (exists st', writer_recv st 0 = Some st') \/ exists st', writer_write st None = Some st'.
Lemma closed_writer_moves st : handles st = false -> writer_moves st.
Proof.
  intros Hh. unfold writer_moves, writer_recv, writer_write. rewrite Hh. right.
  destruct (writer st); [left|right; by eexists]. destruct (rx st); by eexists.
Qed.

Lemma rtc_running st st' d a n :
  rtc session_step st st' -> rtc step (mk_supervisor (Running st) d a n) (mk_supervisor (Running st') d a n).
Proof. induction 1; [done|]. eapply rtc_l; [by apply s_session|done]. Qed.

(** A session comes to its end by its writer alone. *)
Lemma session_ends st : handles st = false -> exists st', rtc session_step st st' /\ over st' = true /\ handles st' = false.
Proof.
  intros Hh. destruct (over st) eqn:Ho; [by exists st|].
  assert (forall st, handles st = false -> over st = false -> writer st = Waiting ->
    exists st', rtc session_step st st' /\ over st' = true /\ handles st' = false) as Hwait.
  { clear. intros st Hh Ho Hw.
    assert (exists st1, rtc session_step st st1 /\ handles st1 = false /\ over st1 = false /\ writer st1 = Waiting /\ rx st1 = [])
      as (st1 & R1 & Hh1 & Ho1 & Hw1 & Hr1).
    { destruct (rx st) as [|c q] eqn:Er; [by exists st|]. eexists. split.
      - eapply rtc_l; [apply (a_recv st (length q)); [done|]; unfold writer_recv; rewrite Hw, Er; reflexivity|].
        apply rtc_once. by eapply (a_write _ None).
      - simpl. by rewrite drop_all. }
    eexists. split; [eapply rtc_r; [exact R1|]|].
    - apply (a_recv st1 0); [done|]. unfold writer_recv. rewrite Hw1, Hr1, Hh1. reflexivity.
    - done. }
  destruct (writer st) as [|wb] eqn:Ew; [by apply Hwait|].
  set (st1 := mk_session (rx st) (handles st) Waiting (extracting st) (over st) (fifo st) (framer st) (answers st)
    (sent st ++ wb) (received st)).
  destruct (Hwait st1 Hh Ho eq_refl) as (st' & R & H'). exists st'. split; [|done].
  eapply rtc_l; [|exact R]. apply (a_write st None); [done|]. unfold writer_write. by rewrite Ew.
Qed.

(** It tries until the server accepts. *)
Lemma next_connection s :
  alive s = false -> (forall k, exists j, (k <= j)%nat /\ accepts j = true) ->
  exists s', rtc step s s' /\ alive s' = false /\ connects s' = S (connects s).
Proof.
  intros Ha Hacc.
  assert (forall q d a n, exists s', rtc step (mk_supervisor (Reconnecting q false) d a n) s' /\
    alive s' = false /\ connects s' = S n) as Htry.
  { intros q d a n. destruct (Hacc a) as (j & Hj & Hok). remember (j - a)%nat as m eqn:Em. revert d a Hj Em.
    induction m as [|m IH]; intros d a Hj Em.
    - assert (j = a) as -> by lia. eexists. split; [apply rtc_once, s_attempt|]. by rewrite Hok.
    - destruct (accepts a) eqn:Ea.
      + eexists. split; [apply rtc_once, s_attempt|]. by rewrite Ea.
      + destruct (IH (Z.min (d * 2) 5000) (S a)) as (s' & R & H'); [lia|lia|]. exists s'. split; [|done].
        eapply rtc_l; [apply s_attempt|]. by rewrite Ea. }
  destruct s as [[st|q h] d a n]; unfold alive in Ha; simpl in *.
  - destruct (session_ends st Ha) as (st' & R & Ho & Hh). destruct (Htry (rx st') d a n) as (s' & R' & H').
    exists s'. split; [|done]. etransitivity; [by apply rtc_running|]. eapply rtc_l; [by apply s_over|]. by rewrite Hh.
  - subst h. destruct (Htry q d a n) as (s' & R & H'). by exists s'.
Qed.

End after_drop.

(** C40: the supervisor outlives the client.  From any state in which the last
    [AsyncClient] has been dropped, and in every state after it: no call arrives any
    more, and the task goes on (a session is over, or its writer returns, takes
    calls or is in [write_all]; between sessions there is the next attempt to
    connect), so it never ends, unlike the blocking client's driver.  As long as the
    server accepts again and again it can make any number of further connections;
    and once the channel is empty every connection made after that is for nothing:
    no call is taken, nothing is written, and the writer, which finds the channel
    closed, ends the session. *)
Theorem supervisor_outlives_handles accepts s :
  alive s = false ->
  (forall s', rtc (supervisor_step accepts) s s' ->
    alive s' = false /\ calls_left s' `suffix_of` calls_left s /\
    match task s' with Running st => writer_moves st | Reconnecting _ _ => True end) /\
  ((forall k, exists j, (k <= j)%nat /\ accepts j = true) ->
   forall n, exists s', rtc (supervisor_step accepts) s s' /\ connects s' = (connects s + n)%nat) /\
  (calls_left s = [] -> forall s' st, rtc (supervisor_step accepts) s s' -> task s' = Running st ->
    (connects s < connects s')%nat ->
    fifo st = [] /\ answers st = [] /\ sent st = [] /\
    (over st = true \/ exists st', writer_recv st 0 = Some st' /\ over st' = true /\ sent st' = [])).
Proof.
  intros Ha. split; [|split].
  - intros s' R. destruct (closed_rtc accepts _ _ R Ha) as [Ha' Hq]. split_and!; [done|done|].
    unfold alive in Ha'. destruct (task s') as [st|]; [by apply closed_writer_moves|done].
  - intros Hacc n. assert (exists s', rtc (supervisor_step accepts) s s' /\ alive s' = false /\ connects s' = (connects s + n)%nat)
      as (s' & R & _ & E); [|by exists s'].
    induction n as [|n (s1 & R1 & Ha1 & E1)]; [exists s; by rewrite Nat.add_0_r|].
    destruct (next_connection accepts s1 Ha1 Hacc) as (s2 & R2 & Ha2 & E2). exists s2.
    split; [by etransitivity|]. split; [done|lia].
  - intros Hq s' st R Ht Hn.
    assert (idle_since (connects s) s) as I by (split_and!; [done|done|lia|lia]).
    destruct (idle_since_rtc accepts _ _ _ R I) as (_ & _ & _ & Hi). specialize (Hi Hn). rewrite Ht in Hi.
    destruct Hi as (I1 & I2 & I3 & I4 & I5 & I6). split_and!; [done..|]. right.
    unfold writer_recv. rewrite I1, I2, I3. eexists. split_and!; [done|done|]. simpl. by rewrite I6.
Qed.

(** The supervisor's back-off is the one of the blocking client. *)
Lemma reconnect_loop_same delay attempts :
  (reconnect_loop delay attempts).1 = client.reconnect_loop delay attempts.
Proof.
  revert delay. induction attempts as [|[|] attempts IH]; intros delay; [done|done|]. simpl.
  rewrite <- IH. by destruct (reconnect_loop _ attempts).
Qed.

(** ** Witness *)

Lemma async_answers_match_calls_witness :
  exists st d, rtc session_step (session ex_calls true) st /\ over st = true /\
    answers st = [(1%N, Reply wire.RespOk); (2%N, ReaderGone)] /\ ex_calls `prefix_of` d.
Proof.
  assert (exists s1 s2 s3 s4 s5, writer_recv (session ex_calls true) 0 = Some s1 /\
    writer_write s1 None = Some s2 /\ writer_recv s2 0 = Some s3 /\
    reader_read s3 (Some (stage1.resp_frame wire.RespOk)) = Some s4 /\
    reader_extract s4 = Done (Some s5) /\ over s1 = false /\ over s2 = false /\ over s3 = false /\
    over s4 = false /\ over s5 = false /\
    exists s6, writer_write s5 (Some 3%nat) = Some s6 /\ over s6 = true /\ rx s6 = [] /\
      answers s6 = [(1%N, Reply wire.RespOk); (2%N, ReaderGone)])
    as (s1 & s2 & s3 & s4 & s5 & H1 & H2 & H3 & H4 & H5 & O1 & O2 & O3 & O4 & O5 & s6 & H6 & O6 & Hr & Ha)
    by (do 5 eexists; split_and!; try (vm_compute; reflexivity);
        eexists; split_and!; vm_compute; reflexivity).
  assert (rtc session_step (session ex_calls true) s6) as Hs.
  { eapply rtc_l; [by eapply a_recv|]. eapply rtc_l; [by eapply a_write|]. eapply rtc_l; [by eapply a_recv|].
    eapply rtc_l; [by eapply a_read|]. eapply rtc_l; [by eapply a_extract|]. apply rtc_once. by eapply a_write. }
  destruct (async_answers_match_calls ex_calls true s6 Hs) as (d & ps & errs & more & fr & Hp & _).
  exists s6, (d ++ rx s6). split; [exact Hs|]. split; [exact O6|]. split; [exact Ha|exact Hp].
Defined.

(** A session with its first call in flight, whose handles are dropped; the server
    accepts every second attempt. *)
Definition ex_dropped : Session := mk_session [] false (Busy (encode_call [] (mk_call wire.Get (bstr "k") None 1)))
  false false [1%N] new_reader [] [] [].

Lemma supervisor_outlives_handles_witness :
  rtc session_step (session [mk_call wire.Get (bstr "k") None 1] true) ex_dropped /\
  exists s', rtc (supervisor_step Nat.odd) (mk_supervisor (Running ex_dropped) 100 0 0) s' /\ connects s' = 3%nat /\
    alive s' = false.
Proof.
  split.
  { eapply rtc_l; [by eapply (a_recv _ 0)|]. apply rtc_once, a_drop. }
  destruct (supervisor_outlives_handles Nat.odd (mk_supervisor (Running ex_dropped) 100 0 0)) as (H1 & H2 & _); [reflexivity|].
  destruct (H2 ltac:(intros k; exists (S (2 * k)); split; [lia|by rewrite Nat.odd_succ, Nat.even_mul]) 3%nat)
    as (s' & R & E). exists s'. split; [exact R|]. split; [exact E|]. exact (proj1 (H1 s' R)).
Defined.

End async_client.
