(* ===== verification/Api.v ===== *)
(** * The calls of the clients ([Client] of [sync.rs], [AsyncClient] of [async_client.rs])

    [connect], [get], [put] and [call] over the connection underneath: a call
    waits for room in the bounded channel to the writer, then for its reply
    channel.  Connections come and go; the channel stays.  What the layer needs
    of a connection is the interface [Connection], which the connection of
    [Client.v] and the session of [AsyncClient.v] implement. *)

From S2P Require Import Prelude Wire Types Stage1 Client AsyncClient.
Local Open Scope Z_scope.

(** ** The interface: a connection as its calls see it *)

(** [anyhow::Result<Resp>], the error by its message. *)
Definition call_result : Type := wire.Resp + string.

Class Connection (C : Type) := {
  open_conn : list client.Call -> C;              (* on a socket, with what the channel holds *)
  queue : C -> list client.Call;                  (* the channel of calls *)
  push : C -> client.Call -> C;                   (* a handle sends a call *)
  in_flight : C -> list N;                        (* reply channels taken and not answered *)
  given : C -> list (N * call_result);            (* what the receivers of reply channels got *)
  finished : C -> Prop;                           (* about to be replaced *)
  conn_move : C -> C -> Prop;                     (* its threads or tasks *)
}.

Class ConnectionLaws (C : Type) `{Connection C} := {
  conn_wf : C -> Prop;
  open_law q : conn_wf (open_conn q) /\ queue (open_conn q) = q /\ in_flight (open_conn q) = [] /\
    given (open_conn q) = [];
  push_law s c : conn_wf s -> conn_wf (push s c) /\ queue (push s c) = queue s ++ [c] /\
    in_flight (push s c) = in_flight s /\ given (push s c) = given s;
  move_law s s' : conn_wf s -> conn_move s s' ->
    conn_wf s' /\ queue s' `suffix_of` queue s /\ given s ⊆+ given s' /\
    (client.tx <$> queue s') ++ in_flight s' ++ (given s').*1 ≡ₚ
    (client.tx <$> queue s) ++ in_flight s ++ (given s).*1;
  finished_law s : conn_wf s -> finished s -> in_flight s = [];
}.

Module api.
Import client.

(** ** The calls *)

(** The bound of [mpsc::sync_channel] and of tokio's [mpsc::channel]. *)
Definition CALL_BOUND : Z := 512.

Inductive Link (C : Type) :=
| Up (c : C)
| Down (calls : list Call).        (* reconnecting; the channel keeps its calls *)
Arguments Up {C}.
Arguments Down {C}.

(** [made] and [delivered] record the past: the calls made, and the results given
    by earlier connections. *)
Record Api (C : Type) := mk_api {
  link : Link C;
  blocked : list Call;             (* in [send] *)
  made : list Call;
  delivered : list (N * call_result);
}.
Arguments mk_api {C}.
Arguments link {C}.
Arguments blocked {C}.
Arguments made {C}.
Arguments delivered {C}.

Section calls.
Context {C : Type} `{Connection C}.
Implicit Types a : Api C.

(** [connect]: the connection fails, or the socket option, or the driver starts. *)
Definition connect (connected nodelay : bool) : option (Api C) :=
  if connected && nodelay then Some (mk_api (Up (open_conn [])) [] [] []) else None.

Definition calls_of a : list Call := match link a with Up c => queue c | Down q => q end.
Definition waiting_of a : list N := match link a with Up c => in_flight c | Down _ => [] end.
Definition results a : list (N * call_result) :=
  delivered a ++ match link a with Up c => given c | Down _ => [] end.

(** [call]: a fresh reply channel [tx], and the caller goes into [send]. *)
Definition call a (op : wire.Operation) (key : bytes) (value : option bytes) (tx : N) : Api C :=
  let c := mk_call op key value tx in mk_api (link a) (blocked a ++ [c]) (made a ++ [c]) (delivered a).
Definition get a (key : bytes) (tx : N) : Api C := call a wire.Get key None tx.
Definition put a (key value : bytes) (tx : N) : Api C := call a wire.Put key (Some value) tx.

(** [send] of the [i]-th waiting caller: it waits while the channel is full. *)
Definition send a (i : nat) : option (Api C) :=
  if len (calls_of a) <? CALL_BOUND then
    c ← blocked a !! i;
    Some (mk_api (match link a with Up s => Up (push s c) | Down q => Down (q ++ [c]) end)
            (delete i (blocked a)) (made a) (delivered a))
  else None.

(** [rx.recv] of the caller: its result, when it is there. *)
Definition recv a (tx : N) : option call_result := (fun p => p.2.2) <$> list_find (fun p => p.1 = tx) (results a).

Inductive api_step : Api C -> Api C -> Prop :=
| api_call a op key value tx : tx ∉ client.tx <$> made a -> api_step a (call a op key value tx)
| api_send a i a' : send a i = Some a' -> api_step a a'
| api_work s s' b m d : conn_move s s' -> api_step (mk_api (Up s) b m d) (mk_api (Up s') b m d)
| api_lost s b m d : finished s -> api_step (mk_api (Up s) b m d) (mk_api (Down (queue s)) b m (d ++ given s))
| api_reconnected q b m d : api_step (mk_api (Down q) b m d) (mk_api (Up (open_conn q)) b m d).

(** Where the reply channels of the calls are. *)
Definition places a : list N := (tx <$> blocked a) ++ (tx <$> calls_of a) ++ waiting_of a ++ (results a).*1.

(** ** The invariant *)

Context `{!ConnectionLaws C}.

Record api_inv a : Prop := {
  ai_wf : match link a with Up s => conn_wf s | Down _ => True end;
  ai_fresh : NoDup (tx <$> made a);
  ai_places : places a ≡ₚ tx <$> made a;
  ai_bound : len (calls_of a) <= CALL_BOUND;
}.

Lemma inv_connect a : connect true true = Some a -> api_inv a.
Proof.
  intros [= <-]. destruct (open_law (C := C) []) as (W & Q & F & G).
  split; unfold places, calls_of, waiting_of, results; simpl; rewrite ?Q, ?F, ?G; [done|constructor|done|done].
Qed.

(** A call moves from the callers to the channel. *)
Lemma enqueued (b b' q : list Call) c (l : list N) :
  b ≡ₚ c :: b' -> (tx <$> b') ++ (tx <$> q ++ [c]) ++ l ≡ₚ (tx <$> b) ++ (tx <$> q) ++ l.
Proof.
  intros ->. rewrite fmap_cons, fmap_app. simpl. rewrite <- app_assoc. simpl.
  by rewrite <- Permutation_middle, <- Permutation_middle.
Qed.

Lemma inv_send a i a' : api_inv a -> send a i = Some a' -> api_inv a' /\ results a' = results a.
Proof.
  intros [W Fr P B]. unfold send. destruct (len (calls_of a) <? CALL_BOUND) eqn:El; [|done]. apply Z.ltb_lt in El.
  intros (c & Hc & [= <-])%bind_Some. pose proof (delete_Permutation _ _ _ Hc) as Hp.
  destruct a as [[s|q] b m d]; unfold places, calls_of, waiting_of, results in *; simpl in *.
  - destruct (push_law s c W) as (W' & Q & F & G). split; [|by rewrite G].
    split; simpl; unfold places, calls_of, waiting_of, results; simpl; rewrite ?Q, ?F, ?G; try done.
    + rewrite <- P. by apply enqueued.
    + rewrite length_app. simpl. lia.
  - split; [|done]. split; simpl; unfold places, calls_of, waiting_of, results; simpl; try done.
    + rewrite <- P. by apply enqueued.
    + rewrite length_app. simpl. lia.
Qed.

(** The results only grow. *)
Lemma api_inv_step a a' : api_inv a -> api_step a a' -> api_inv a' /\ results a ⊆+ results a'.
Proof.
  intros I Hs. destruct Hs as [a o k v t Ht|a i a' Hs|s s' b m d Hs|s b m d Hs|q b m d].
  - split; [|done]. destruct I as [W Fr P B].
    split; unfold places, calls_of, waiting_of, results in *; simpl; try done.
    + rewrite fmap_app. apply NoDup_app. split_and!; [done| |by apply NoDup_singleton]. by intros t' Ht' ->%list_elem_of_singleton.
    + rewrite (fmap_app _ (blocked a)), (fmap_app _ (made a)), <- app_assoc. simpl.
      rewrite <- (Permutation_middle _ _ t), P. by apply Permutation_cons_append.
  - destruct (inv_send a i a' I Hs) as [I' ->]. done.
  - destruct I as [W Fr P B]. destruct (move_law s s' W Hs) as (W' & [l Q] & G & Hp).
    unfold places, calls_of, waiting_of, results in *; simpl in *. split; [|by apply submseteq_app].
    split; unfold places, calls_of, waiting_of, results; simpl; try done.
    + rewrite <- P. f_equiv. rewrite !fmap_app, (Permutation_app_comm (d.*1)), (Permutation_app_comm (d.*1)), !app_assoc.
      f_equiv. by rewrite <- !app_assoc.
    + rewrite Q, length_app in B. lia.
  - destruct I as [W Fr P B]. simpl in W. pose proof (finished_law s W Hs) as F.
    unfold places, calls_of, waiting_of, results in *; simpl in *. rewrite app_nil_r. split; [|done].
    split; unfold places, calls_of, waiting_of, results; simpl; try done. by rewrite app_nil_r, <- P, F.
  - destruct I as [W Fr P B]. destruct (open_law (C := C) q) as (W' & Q & F & G).
    unfold places, calls_of, waiting_of, results in *; simpl in *. rewrite G, app_nil_r in *. split; [|done].
    split; unfold places, calls_of, waiting_of, results; simpl; rewrite ?Q, ?F, ?G; try done. by rewrite app_nil_r in *.
Qed.

Lemma api_inv_steps a a' : api_inv a -> rtc api_step a a' -> api_inv a' /\ results a ⊆+ results a'.
Proof.
  intros I Hr. revert I. induction Hr as [a|a1 a2 a3 Hs _ IH]; intros I; [done|].
  destruct (api_inv_step a1 a2 I Hs) as [I2 S2]. destruct (IH I2) as [I3 S3]. split; [done|]. by etransitivity.
Qed.

Lemma result_unique a t r1 r2 : api_inv a -> (t, r1) ∈ results a -> (t, r2) ∈ results a -> r1 = r2.
Proof.
  intros [_ Fr P _] H1 H2. rewrite <- P in Fr. unfold places in Fr.
  apply NoDup_app in Fr as (_ & _ & Fr). apply NoDup_app in Fr as (_ & _ & Fr). apply NoDup_app in Fr as (_ & _ & Fr).
  apply list_elem_of_lookup in H1 as [i Hi], H2 as [j Hj].
  assert (i = j) as <-.
  { eapply (NoDup_lookup _ i j t Fr); rewrite list_lookup_fmap; [by rewrite Hi|by rewrite Hj]. }
  congruence.
Qed.

(** [recv] finds the result of a call wherever it stands. *)
Lemma recv_spec a t r : api_inv a -> recv a t = Some r <-> (t, r) ∈ results a.
Proof.
  intros I. unfold recv. split.
  - intros ([i [t' r']] & Hf & ->)%fmap_Some. apply list_find_Some in Hf as (Hl & E & _). simpl in *. subst.
    by eapply list_elem_of_lookup_2.
  - intros Hr. destruct (list_find (fun p => p.1 = t) (results a)) as [[i [t' r']]|] eqn:Hf.
    + apply list_find_Some in Hf as (Hl & E & _). simpl in *. subst. f_equal.
      eapply result_unique; [done| |done]. by eapply list_elem_of_lookup_2.
    + rewrite list_find_None, Forall_forall in Hf. by destruct (Hf _ Hr).
Qed.

Lemma made_place a t : api_inv a -> t ∈ places a <-> t ∈ tx <$> made a.
Proof. intros [_ _ P _]. by rewrite P. Qed.

End calls.

(** ** The blocking client *)

Definition sync_result (x : Answer) : call_result :=
  match x with
  | Reply r => inl r
  | ConnectionLost => inr "connection lost"%string
  | DriverDead => inr "client driver is dead"%string
  end.

Definition sync_push (s : Conn) (c : Call) : Conn :=
  mk_conn (rx s ++ [c]) (writer s) (fifo s) (framer s) (reader s) (dead s) (answers s) (refused s) (sent s) (received s).

#[export] Instance sync_connection : Connection Conn := {|
  open_conn := connected;
  queue := rx;
  push := sync_push;
  in_flight s := (tx <$> in_hand (writer s)) ++ fifo s;
  given s := prod_map id sync_result <$> answers s ++ refused s;
  finished s := writer s = Gone /\ reader s = Returned;
  conn_move := conn_step;
|}.

(** More calls than those taken into account so far. *)
Lemma sync_push_inv calls s c : has_inv calls s -> has_inv (calls ++ [c]) (sync_push s c).
Proof.
  intros (d & ps & errs & [A1 A2 A3 A4 A5 A6 A7 A8]). exists d, ps, errs. split; simpl; try done.
  - by rewrite A1, <- !app_assoc.
  - destruct (writer s); [done..|]. destruct A8 as [more A8]. rewrite encode_calls_app, A8, <- app_assoc. by eexists.
Qed.

(** A step takes calls from the channel and adds answers. *)
Lemma sync_step_grows s s' : conn_step s s' ->
  rx s' `suffix_of` rx s /\ answers s ++ refused s ⊆+ answers s' ++ refused s'.
Proof.
  intros [n s1 Hs|s1 Hs|f s1 Hs|c s1 Hs|s1 Hs|s1 Hs|s1 Hs]; revert Hs.
  - unfold writer_recv. destruct (writer s); [|done..]. destruct (rx s) as [|c q]; [done|].
    destruct (dead s); intros [= <-]; simpl.
    + split; [by exists [c]|]. rewrite app_assoc. by apply submseteq_inserts_r.
    + split; [|done]. exists (c :: take n q). simpl. by rewrite take_drop.
  - unfold writer_enqueue. destruct (writer s) as [|[|c b] wb|]; [done..| |done].
    destruct (reader s); intros [= <-]; simpl; (split; [done|]); [done..|].
    rewrite app_assoc. by apply submseteq_inserts_r.
  - unfold writer_write. destruct (writer s) as [|[|c b] wb|]; [done| |done..]. by destruct f; intros [= <-].
  - unfold reader_read. by destruct (reader s), c; intros [= <-].
  - unfold reader_extract. destruct (reader s); [done| |done..].
    destruct (try_extract_total (framer s)) as ([r|] & fr & -> & _); ostep; [|by intros [= <-]].
    destruct (fifo s) as [|t q]; [destruct (writer s); [done..|]; by intros [= <-]|].
    intros [= <-]. split; [done|]. simpl. apply submseteq_app; [|done]. by apply submseteq_inserts_r.
  - unfold reader_drain. destruct (reader s); try done. destruct (fifo s); intros [= <-]; [done|].
    split; [done|]. simpl. apply submseteq_app; [|done]. by apply submseteq_inserts_r.
  - unfold reader_return. destruct (reader s); try done. intros [= <-].
    split; [done|]. simpl. apply submseteq_app; [|done]. by apply submseteq_inserts_r.
Qed.

(** Where the calls of a connection are. *)
Lemma sync_places calls s :
  has_inv calls s -> (tx <$> rx s) ++ ((tx <$> in_hand (writer s)) ++ fifo s) ++ (given s).*1 ≡ₚ tx <$> calls.
Proof.
  intros (d & ps & errs & [-> A2 _ _ _ _ _ _]). rewrite !fmap_app, A2. simpl.
  rewrite <- list_fmap_compose, fmap_app.
  assert (forall l : list (N * Answer), (fst ∘ prod_map id sync_result) <$> l = l.*1) as E
    by (intros l; by apply list_fmap_ext).
  rewrite !E. solve_Permutation.
Qed.

#[export] Instance sync_laws : ConnectionLaws Conn.
Proof.
  refine {| conn_wf s := exists calls, has_inv calls s |}.
  - intros q. split_and!; [|done..]. exists q, [], [], []. apply inv_connected.
  - intros s c [calls I]. split_and!; [|done..]. exists (calls ++ [c]). by apply sync_push_inv.
  - intros s s' [calls I] Hs. pose proof (inv_conn_step _ _ _ I Hs) as I'.
    destruct (sync_step_grows s s' Hs) as [Q G]. split_and!; [by exists calls|done| |].
    + simpl. by apply fmap_submseteq.
    + etransitivity; [by apply (sync_places calls)|]. symmetry. by apply (sync_places calls).
  - intros s [calls (d & ps & errs & I)] [Hw Hr]. simpl. rewrite Hw. by apply (ci_fifo _ _ _ _ _ I).
Defined.

(** ** The asynchronous client *)

Section async.
Import async_client.

Definition async_result (x : async_client.Answer) : call_result :=
  match x with
  | async_client.Reply r => inl r
  | async_client.ConnectionLost => inr "connection lost"%string
  | ReaderGone => inr "reader task is gone"%string
  end.

Definition async_push (s : Session) (c : Call) : Session :=
  mk_session (async_client.rx s ++ [c]) (handles s) (async_client.writer s) (extracting s) (over s)
    (async_client.fifo s) (async_client.framer s) (async_client.answers s) (async_client.sent s)
    (async_client.received s).

(** The steps of the tasks: no call is made, no handle dropped. *)
Definition task_step (s s' : Session) : Prop :=
  session_step s s' /\ handles s' = handles s /\ async_client.rx s' `suffix_of` async_client.rx s.

#[export] Instance async_connection : Connection Session := {|
  open_conn q := session q true;
  queue := async_client.rx;
  push := async_push;
  in_flight := async_client.fifo;
  given s := prod_map id async_result <$> async_client.answers s;
  finished s := over s = true;
  conn_move := task_step;
|}.

(** The public functions, over sessions. *)
Definition async_connect (connected nodelay : bool) : option (Api Session) := connect connected nodelay.
Definition async_call (a : Api Session) (op : wire.Operation) (key : bytes) (value : option bytes) (tx : N)
    : Api Session := call a op key value tx.
Definition async_get (a : Api Session) (key : bytes) (tx : N) : Api Session := async_call a wire.Get key None tx.
Definition async_put (a : Api Session) (key value : bytes) (tx : N) : Api Session :=
  async_call a wire.Put key (Some value) tx.

Lemma task_step_inv calls s s' :
  async_client.has_inv calls s -> task_step s s' ->
  async_client.has_inv calls s' /\ async_client.answers s ⊆+ async_client.answers s'.
Proof.
  intros I (Hs & Hh & Hq). destruct Hs as [n s1 Ho Hs|n s1 Ho Hs|f s1 Ho Hs|c s1 Ho Hs|s1 Ho Hs|c Hc|].
  - split; [by eapply kept_recv|]. revert Hs. unfold async_client.writer_recv.
    destruct (async_client.writer s); [|done]. destruct (async_client.rx s); [|by intros [= <-]].
    destruct (handles s); [done|]. intros [= <-]. by apply submseteq_inserts_r.
  - split; [by eapply kept_progress|]. revert Hs. unfold async_client.writer_progress.
    destruct (async_client.writer s); [done|]. by intros [= <-].
  - split; [by eapply kept_write|]. revert Hs. unfold async_client.writer_write.
    destruct (async_client.writer s); [done|]. destruct f; intros [= <-]; [by apply submseteq_inserts_r|done].
  - split; [by eapply kept_read|]. revert Hs. unfold async_client.reader_read.
    destruct (extracting s); [done|]. destruct c; intros [= <-]; [done|by apply submseteq_inserts_r].
  - split; [by eapply kept_extract|]. revert Hs. unfold async_client.reader_extract.
    destruct (extracting s); [|done].
    destruct (try_extract_total (async_client.framer s)) as ([r|] & fr & -> & _); ostep; [|by intros [= <-]].
    destruct (async_client.fifo s); intros [= <-]; by apply submseteq_inserts_r.
  - apply suffix_length in Hq. simpl in Hq. rewrite length_app in Hq. simpl in Hq. lia.
  - destruct I as (d & ps & errs & -> & [A1 A2 A3 A4 A5 A6]). split; [|done]. exists d, ps, errs. by split.
Qed.

Lemma async_places calls s :
  async_client.has_inv calls s -> (tx <$> async_client.rx s) ++ async_client.fifo s ++ (given s).*1 ≡ₚ tx <$> calls.
Proof.
  intros (d & ps & errs & -> & [A1 _ _ _ _ _]). rewrite fmap_app, A1. simpl. rewrite <- list_fmap_compose.
  assert (forall l : list (N * async_client.Answer), (fst ∘ prod_map id async_result) <$> l = l.*1) as ->
    by (intros l; by apply list_fmap_ext).
  solve_Permutation.
Qed.

#[export] Instance async_laws : ConnectionLaws Session.
Proof.
  refine {| conn_wf s := exists calls, async_client.has_inv calls s |}.
  - intros q. split_and!; [|done..]. exists q. apply inv_session.
  - intros s c [calls (d & ps & errs & -> & [A1 A2 A3 A4 A5 A6])]. split_and!; [|done..].
    exists ((d ++ async_client.rx s) ++ [c]), d, ps, errs. split; [by rewrite <- app_assoc|]. by split.
  - intros s s' [calls I] Hs. destruct (task_step_inv calls s s' I Hs) as [I' G].
    split_and!; [by exists calls|by destruct Hs as (_ & _ & ?)| |].
    + simpl. by apply fmap_submseteq.
    + etransitivity; [by apply (async_places calls)|]. symmetry. by apply (async_places calls).
  - intros s [calls (d & ps & errs & _ & [A1 A2 A3 A4 A5 A6])] Hf. simpl in *. by rewrite Hf in A4.
Defined.

End async.

(** ** Property *)

(** C21: a call returns once.  For either client, however callers, threads, lost
    connections and reconnections interleave: every call made is in exactly one
    place (blocked in [send], in the channel, in flight on the connection, or
    answered), so none is lost or answered twice, not even when a connection is
    replaced; the channel never holds more than 512 calls; a result once there
    stays what it is; and when nothing is blocked, queued or in flight, every
    call made has its result. *)
Theorem calls_return_once {C} `{ConnectionLaws C} (a0 a a' : Api C) :
  connect true true = Some a0 -> rtc api_step a0 a -> rtc api_step a a' ->
  NoDup (tx <$> made a) /\ places a ≡ₚ tx <$> made a /\ len (calls_of a) <= CALL_BOUND /\
  (forall t r, recv a t = Some r -> t ∈ tx <$> made a /\ recv a' t = Some r) /\
  (blocked a = [] -> calls_of a = [] -> waiting_of a = [] -> forall c, c ∈ made a -> is_Some (recv a (tx c))).
Proof.
  intros Hc R1 R2. destruct (api_inv_steps a0 a (inv_connect a0 Hc) R1) as [I _].
  destruct (api_inv_steps a a' I R2) as [I' G]. split_and!; [apply I..| |].
  - intros t r Hr. apply (recv_spec a t r I) in Hr. split.
    + apply (made_place a t I). unfold places. rewrite !elem_of_app. do 3 right. by apply (list_elem_of_fmap_2 fst) in Hr.
    + apply (recv_spec a' t r I'). by eapply elem_of_submseteq.
  - intros Hb Hq Hw c Hm. apply (list_elem_of_fmap_2 tx), (made_place a _ I) in Hm.
    unfold places in Hm. rewrite Hb, Hq, Hw in Hm. simpl in Hm. apply list_elem_of_fmap in Hm as ([t r] & E & Hr).
    exists r. apply (recv_spec a _ r I). simpl in E. by rewrite E.
Qed.

(** ** Executions *)

Inductive sync_action := Put (k v : bytes) (t : N) | Get (k : bytes) (t : N) | Send (i : nat) | Act (c : ConnAction)
  | Lose | Reconnect.

Definition sync_act (a : Api Conn) (x : sync_action) : option (Api Conn) :=
  match x, link a with
  | Put k v t, _ => if decide (t ∈ tx <$> made a) then None else Some (put a k v t)
  | Get k t, _ => if decide (t ∈ tx <$> made a) then None else Some (get a k t)
  | Send i, _ => send a i
  | Act c, Up s => s' ← conn_act s c; Some (mk_api (Up s') (blocked a) (made a) (delivered a))
  | Lose, Up s =>
      match writer s, reader s with
      | Gone, Returned => Some (mk_api (Down (rx s)) (blocked a) (made a) (delivered a ++ given s))
      | _, _ => None
      end
  | Reconnect, Down q => Some (mk_api (Up (connected q)) (blocked a) (made a) (delivered a))
  | _, _ => None
  end.
Fixpoint sync_run (a : Api Conn) (l : list sync_action) : option (Api Conn) :=
  match l with [] => Some a | x :: l => a' ← sync_act a x; sync_run a' l end.

Lemma sync_act_ok a x a' : sync_act a x = Some a' -> api_step a a'.
Proof.
  destruct a as [[s|q] b m d], x as [k v t|k t|i|c| |]; cbn [sync_act link made blocked delivered]; try done;
    try (destruct (decide _); [done|]; intros [= <-]; by apply api_call); try (by apply api_send).
  - intros (s' & Hs & [= <-])%bind_Some. apply (api_work s s' b m d). simpl. by apply (conn_act_ok s c).
  - destruct (writer s) eqn:Ew, (reader s) eqn:Er; try done. intros [= <-]. exact (api_lost s b m d (conj Ew Er)).
  - intros [= <-]. exact (api_reconnected q b m d).
Qed.

Lemma sync_run_ok a l a' : sync_run a l = Some a' -> rtc api_step a a'.
Proof.
  revert a. induction l as [|x l IH]; intros a; cbn [sync_run]; [by intros [= <-]|].
  intros (a1 & H1 & H2)%bind_Some. eapply rtc_l; [by eapply sync_act_ok|by apply IH].
Qed.

(** ** Witness: two calls, of which the first is answered before the connection
    is lost; a third waits for the next connection. *)

Definition ex_actions : list sync_action :=
  [Put (bstr "k") (bstr "v") 1; Send 0; Get (bstr "k") 2; Send 0; Act (Recv 1); Act Enqueue; Act Enqueue;
   Act (Write None); Act (Read (Some (stage1.resp_frame wire.RespOk))); Act Extract; Act Extract;
   Act (Read None); Act Drain; Act Drain; Act Return; Get (bstr "l") 3; Send 0; Get (bstr "m") 4; Send 0;
   Act (Recv 0); Lose].

Definition ex_api : Api Conn := mk_api (Up (connected [])) [] [] [].

Lemma calls_return_once_witness :
  exists a, sync_run ex_api ex_actions = Some a /\
    recv a 1 = Some (inl wire.RespOk) /\ recv a 2 = Some (inr "connection lost"%string) /\
    recv a 3 = Some (inr "connection lost"%string) /\ recv a 4 = None /\ tx <$> calls_of a = [4%N] /\
    NoDup (tx <$> made a) /\ places a ≡ₚ tx <$> made a.
Proof.
  assert (exists a, sync_run ex_api ex_actions = Some a /\
    recv a 1 = Some (inl wire.RespOk) /\ recv a 2 = Some (inr "connection lost"%string) /\
    recv a 3 = Some (inr "connection lost"%string) /\ recv a 4 = None /\ tx <$> calls_of a = [4%N])
    as (a & Ha & H1 & H2 & H3 & H4 & H5).
  { eexists. split; [vm_compute; reflexivity|]. split_and!; vm_compute; reflexivity. }
  exists a. split_and!; [exact Ha|exact H1|exact H2|exact H3|exact H4|exact H5|..];
    apply (calls_return_once (C := Conn) ex_api a a); try reflexivity; by apply (sync_run_ok _ ex_actions).
Defined.

End api.
