(* ===== verification/BenchRun.v ===== *)
(** * The benchmark's run ([main] of [crates/smart_client/examples/bench.rs])

    Its configuration, the warm-up and the two phases, with the keys of
    [Bench.v].  What the outside decides is an argument: the environment, the
    results of the calls, whether the deadline has passed when a task looks, the
    measured times.  The output is the arguments of each [println!]; the
    quotients in floating point are left to the reader of a line. *)

From S2P Require Import Prelude Wire WalFormat Types Stage1 Stage2 Bench Client AsyncClient Api.
Local Open Scope Z_scope.

Module bench_run.
Import bench.

(** ** Configuration *)

Definition cfg (env : string -> option bytes) (key : string) (dflt : bytes) : bytes := default dflt (env key).

Record Config := mk_config { addr : bytes; secs : Z; conc : Z; val_sz : Z }.

(** [None]: a number does not parse, and [main] returns the error. *)
Definition read_config (env : string -> option bytes) : option Config :=
  let addr := cfg env "BENCH_ADDR" (bstr "127.0.0.1:9000") in
  secs ← wal_format.parse_u64 (cfg env "BENCH_SECS" (bstr "5"));
  conc ← wal_format.parse_u64 (cfg env "BENCH_CONC" (bstr "32"));
  val_sz ← wal_format.parse_u64 (cfg env "BENCH_VAL_SIZE" (bstr "64"));
  Some (mk_config addr secs conc val_sz).

(** ** Tasks *)

(** A task of the warm-up, with the results of its calls in turn: the keys it
    puts, and how it ends; [None]: the results given are used up. *)
Fixpoint warm_task (keys : list Z) (results : list call_result) : list Z * option (unit + string) :=
  match keys, results with
  | [], _ => ([], Some (inl tt))
  | k :: _, [] => ([k], None)
  | k :: keys, inl _ :: results => let '(ks, e) := warm_task keys results in (k :: ks, e)
  | k :: _, inr e :: _ => ([k], Some (inr e))
  end.

(** [for h in handles { h.await??; }]: the first task that failed, in task order. *)
Fixpoint await_all (ends : list (option (unit + string))) : option (unit + string) :=
  match ends with
  | [] => Some (inl tt)
  | None :: _ => None
  | Some (inr e) :: _ => Some (inr e)
  | Some (inl _) :: ends => await_all ends
  end.

(** A turn of a task in a phase: whether the deadline is still ahead, and the
    result of the call.  The keys the task asks for, what it adds to the counter,
    and whether it has ended. *)
Fixpoint phase_task (n t i : Z) (turns : list (bool * call_result)) : list Z * Z * bool :=
  match turns with
  | (true, r) :: turns =>
      let k := phase_key n t i in
      match r with
      | inl _ => let '(ks, ops, e) := phase_task n t (add64 i 1) turns in (k :: ks, ops + 1, e)
      | inr _ => ([k], 0, true)
      end
  | (false, _) :: _ => ([], 0, true)
  | [] => ([], 0, false)
  end.

(** What happens in a phase: the clock at its start, the turns of each task, the
    time it took. *)
Record Phase := mk_phase { start : Z; turns : list (list (bool * call_result)); elapsed : Z }.
Definition turns_of (p : Phase) (t : Z) : list (bool * call_result) := default [] (turns p !! Z.to_nat t).

(** [fetch_add] on the shared [AtomicU64], the tasks in any order; [None]: a task
    has not ended. *)
Definition phase_ops (n conc : Z) (p : Phase) : option Z :=
  let tasks := (fun t => phase_task n t 0 (turns_of p t)) <$> seqZ 0 conc in
  if forallb snd tasks then Some (foldr (fun task total => add64 task.1.2 total) 0 tasks) else None.

(** [Instant::now() + duration] panics when the seconds exceed an [i64]. *)
Definition deadline (now secs : Z) : outcome Z := if now + secs <? 2 ^ 63 then Done (now + secs) else Panic.

(** ** [main] *)

Inductive Line :=
| Banner (c : Config)
| ConnectedTo (addr : bytes)
| WarmingUp (keys : Z)
| WarmedUp                                          (* "done." *)
| Header (phase : string) (conc secs : Z)
| PhaseResult (ops elapsed : Z)
| Summary (phase : string) (ops elapsed : Z).       (* [ops / elapsed] *)

Inductive Exit :=
| Finished
| BadNumber
| NotConnected
| CallFailed (e : string).

Definition print_header (phase : string) (conc secs : Z) : list Line := [Header phase conc secs].
Definition print_result (ops elapsed : Z) : list Line := [PhaseResult ops elapsed].

(** The lines printed, and how it ends. [None]: it waits for a task.
    Allocations succeed. *)
Definition main (env : string -> option bytes) (connected : bool) (warm : list (list call_result))
    (puts gets : Phase) : outcome (list Line * option Exit) :=
  match read_config env with
  | None => Done ([], Some BadNumber)
  | Some c =>
      let out := [Banner c] in
      if negb connected then Done (out, Some NotConnected) else
      let out := out ++ [ConnectedTo (addr c); WarmingUp key_count] in
      n ← keys_per_task (conc c);
      let ends := (fun t => (warm_task (warm_keys n t) (default [] (warm !! Z.to_nat t))).2) <$> seqZ 0 (conc c) in
      match await_all ends with
      | None => Done (out, None)
      | Some (inr e) => Done (out, Some (CallFailed e))
      | Some (inl _) =>
          let out := out ++ [WarmedUp] ++ print_header "PUT" (conc c) (secs c) in
          _ ← deadline (start puts) (secs c);
          match phase_ops n (conc c) puts with
          | None => Done (out, None)
          | Some put_ops =>
              let out := out ++ print_result put_ops (elapsed puts) ++ print_header "GET" (conc c) (secs c) in
              _ ← deadline (start gets) (secs c);
              match phase_ops n (conc c) gets with
              | None => Done (out, None)
              | Some get_ops =>
                  let out := out ++ print_result get_ops (elapsed gets) in
                  Done (out ++ [Summary "PUT" put_ops (elapsed puts); Summary "GET" get_ops (elapsed gets)], Some Finished)
              end
          end
      end
  end.

(** ** Lemmas *)

(** The turns a task takes part in: up to the deadline or the first error. *)
Fixpoint answered (turns : list (bool * call_result)) : nat :=
  match turns with (true, inl _) :: turns => S (answered turns) | _ => 0%nat end.

Lemma phase_task_ops n t i turns : (phase_task n t i turns).1.2 = Z.of_nat (answered turns).
Proof.
  revert i. induction turns as [|[[|] [r|e]] turns IH]; intros i; try done. cbn [phase_task answered].
  specialize (IH (add64 i 1)). destruct (phase_task n t (add64 i 1) turns) as [[ks ops] e]. simpl in *. lia.
Qed.

Lemma phase_task_keys n t i turns j k :
  0 <= i -> u64 (i + len turns) -> (phase_task n t i turns).1.1 !! j = Some k -> k = phase_key n t (i + Z.of_nat j).
Proof.
  revert i j. induction turns as [|[[|] [r|e]] turns IH]; intros i j Hi Hu; try done; cbn [phase_task].
  - specialize (IH (add64 i 1)). rewrite length_cons in Hu. rewrite add64_small in * by (unfold u64 in *; lia).
    destruct (phase_task n t (i + 1) turns) as [[ks ops] e]. simpl in *.
    destruct j as [|j]; simpl; [intros [= <-]; f_equal; lia|].
    intros Hj. rewrite (IH j ltac:(lia) ltac:(unfold u64 in *; lia) Hj). f_equal. lia.
  - destruct j as [|j]; simpl; [|done]. intros [= <-]. f_equal. lia.
Qed.

(** The answers of a phase, over its tasks. *)
Definition answers_of (conc : Z) (p : Phase) : nat := sum_list ((fun t => answered (turns_of p t)) <$> seqZ 0 conc).

Lemma phase_ops_total n conc p ops : phase_ops n conc p = Some ops -> ops = wrap64 (Z.of_nat (answers_of conc p)).
Proof.
  unfold phase_ops, answers_of. destruct (forallb _ _); [|done]. intros [= <-].
  induction (seqZ 0 conc) as [|t l IH]; [done|]. rewrite !fmap_cons. cbn [foldr]. rewrite IH, phase_task_ops.
  unfold add64, wrap64. rewrite Zplus_mod_idemp_r. f_equal. simpl. lia.
Qed.

(** A warm-up that ends well has put all keys of the task. *)
Lemma warm_task_all keys results ks : warm_task keys results = (ks, Some (inl tt)) -> ks = keys.
Proof.
  revert results ks. induction keys as [|k keys IH]; intros results ks; cbn [warm_task]; [by intros [= <-]|].
  destruct results as [|[r|e] results]; [done| |done].
  destruct (warm_task keys results) as [ks' e'] eqn:E. intros [= <- ->]. f_equal. by eapply IH.
Qed.

Lemma await_all_ok ends : await_all ends = Some (inl tt) -> Forall (fun e => e = Some (inl tt)) ends.
Proof. induction ends as [|[[[]|e]|] ends IH]; [done| |done..]. intros H%IH. by constructor. Qed.

Lemma phase_key_plain n t i :
  0 <= n -> 0 <= t -> 0 <= i -> u64 (key_count + i) -> phase_key n t i = (t * n + i) mod key_count.
Proof.
  intros Hn Ht Hi Hu. unfold phase_key, base_key. pose proof (Z.mod_pos_bound (t * n) key_count ltac:(done)).
  rewrite add64_small by (unfold u64 in *; lia). by rewrite Zplus_mod_idemp_l.
Qed.

(** ** Properties *)

(** What the benchmark counts.  The total of a phase is the number of calls
    that were answered before a task saw the deadline or its first error, modulo
    2^64, whatever the answers say (a [Miss] counts); an error ends its task and
    not the run; and if [main] ends well, the warm-up has put every key of every
    task, and these totals are what it prints. *)
Theorem bench_counts_answers env connected warm puts gets out c :
  read_config env = Some c -> main env connected warm puts gets = Done (out, Some Finished) ->
  let total p := wrap64 (Z.of_nat (answers_of (conc c) p)) in
  connected = true /\ conc c <> 0 /\
  (exists n, keys_per_task (conc c) = Done n /\
     Forall (fun t => (warm_task (warm_keys n t) (default [] (warm !! Z.to_nat t))).1 = warm_keys n t) (seqZ 0 (conc c))) /\
  out = [Banner c; ConnectedTo (addr c); WarmingUp key_count; WarmedUp; Header "PUT" (conc c) (secs c);
         PhaseResult (total puts) (elapsed puts); Header "GET" (conc c) (secs c);
         PhaseResult (total gets) (elapsed gets);
         Summary "PUT" (total puts) (elapsed puts);
         Summary "GET" (total gets) (elapsed gets)].
Proof.
  intros Hc. unfold main. rewrite Hc. destruct connected; [|done]. cbn [negb].
  intros (n & Hn & Hm)%bind_Done. unfold keys_per_task in Hn.
  destruct (conc c =? 0) eqn:E0; [done|]. apply Z.eqb_neq in E0.
  destruct (await_all _) as [[[]|e]|] eqn:Ew; [|done..]. apply bind_Done in Hm as (d1 & _ & Hm).
  destruct (phase_ops n (conc c) puts) as [po|] eqn:Ep; [|done]. apply bind_Done in Hm as (d2 & _ & Hm).
  destruct (phase_ops n (conc c) gets) as [go|] eqn:Eg; [|done]. injection Hm as <-.
  apply phase_ops_total in Ep as ->, Eg as ->. split_and!; try done. exists n. unfold keys_per_task.
  rewrite (proj2 (Z.eqb_neq _ _) E0). split; [done|].
  apply await_all_ok in Ew. rewrite Forall_fmap in Ew. eapply Forall_impl; [exact Ew|]. intros t Ht. simpl in Ht.
  destruct (warm_task _ _) as [ks e] eqn:E. simpl in *. subst e. by apply warm_task_all in E.
Qed.

(** The comment in the PUT phase says that each task cycles through its own slice
    of the keys.  It cycles through all of them: the [j]-th key of a task is the
    [(base + j) mod key_count]-th, any [key_count] turns in a row ask for
    different keys, and after [keys_per_task] turns a task is where the next one
    started. *)
Theorem tasks_share_keys conc n t :
  keys_per_task conc = Done n -> 0 < conc -> 0 <= t ->
  (forall turns j k, u64 (len turns) -> (phase_task n t 0 turns).1.1 !! j = Some k -> k = phase_key n t (Z.of_nat j)) /\
  (forall i j, 0 <= i < j -> j < i + key_count -> u64 (key_count + j) -> phase_key n t i <> phase_key n t j) /\
  phase_key n t n = phase_key n (t + 1) 0.
Proof.
  intros Hn Hc Ht. unfold keys_per_task in Hn. destruct (conc =? 0) eqn:E0; [done|]. injection Hn as <-.
  set (n := key_count / conc).
  assert (0 <= n <= key_count) as Hb
    by (unfold n; split; [apply Z.div_pos; unfold key_count; lia|apply Z.div_le_upper_bound; unfold key_count; nia]).
  split_and!.
  - intros turns j k Hu Hj. by apply phase_task_keys in Hj.
  - intros i j Hij Hj Hu. rewrite !phase_key_plain by (unfold u64 in *; lia). intros E.
    assert ((t * n + j - (t * n + i)) mod key_count = 0) as E2 by (rewrite Zminus_mod, E, Z.sub_diag; done).
    replace (t * n + j - (t * n + i)) with (j - i) in E2 by lia. rewrite Z.mod_small in E2 by lia. lia.
  - rewrite !phase_key_plain by (unfold u64, key_count in *; lia). f_equal. lia.
Qed.

(** ** Witnesses *)

Definition ok : call_result := inl wire.RespOk.
Definition ex_env (k : string) : option bytes := if String.eqb k "BENCH_CONC" then Some (bstr "2") else None.

(** Two tasks; in the GET phase one sees a miss and one an error. *)
Definition ex_warm : list (list call_result) := [replicate 5000 ok; replicate 5000 ok].
Definition ex_puts : Phase := mk_phase 100 [[(true, ok); (true, ok); (false, ok)]; [(true, ok); (false, ok)]] 7.
Definition ex_gets : Phase :=
  mk_phase 105 [[(true, inl wire.Miss); (false, ok)]; [(true, inr "connection lost"%string); (true, ok)]] 9.

Lemma bench_counts_answers_witness :
  exists c out, read_config ex_env = Some c /\ main ex_env true ex_warm ex_puts ex_gets = Done (out, Some Finished) /\
    out !! 5%nat = Some (PhaseResult 3 7) /\ out !! 7%nat = Some (PhaseResult 1 9).
Proof.
  eexists _, _. split; [reflexivity|]. split; [vm_compute; reflexivity|].
  set (out := [_; _; _; _; _; _; _; _; _; _]).
  destruct (bench_counts_answers ex_env true ex_warm ex_puts ex_gets out
    (mk_config (bstr "127.0.0.1:9000") 5 2 64)) as (_ & _ & _ & Ho); [reflexivity|vm_compute; reflexivity|].
  rewrite Ho. split; reflexivity.
Defined.

Lemma tasks_share_keys_witness : phase_key 312 0 312 = phase_key 312 1 0.
Proof. apply (tasks_share_keys 32 312 0); [reflexivity|lia..]. Defined.

End bench_run.
