(* ===== verification/Examples.v ===== *)
(** * The example programs ([sync_client.rs], [async_client.rs] of [crates/smart_client/examples])

    The programs as computations that print, call the client and may fail or wait,
    given what the client has answered so far; their output when the answers are
    those of a store; and, for the connection of the blocking client and the session
    of the asynchronous one, with the server at the other end, that the answers are
    those of a store. *)

From S2P Require Import Prelude Wire Db WalFormat Snapshot Recovery Types Acker Stage1 Stage2 Client EndToEnd.
From S2P Require Import AsyncClient Api.
Local Open Scope Z_scope.

(** ** The interface: a connection that answers in order *)

(** The results with a response, [ps], are those of the first calls, in order, and their
    frames are the first that were received. *)
Class OrderedClient (C : Type) `{Connection C} := {
  wrote : C -> bytes;
  read : C -> bytes;
  ordered_law calls s : rtc conn_move (open_conn calls) s ->
    wrote s `prefix_of` client.encode_calls calls /\
    exists ps more fr, (forall t r, (t, inl r) ∈ given s -> (t, r) ∈ ps) /\ ps.*1 `prefix_of` (client.tx <$> calls) /\
      client.extract (client.mk_reader (read s)) = Done (ps.*2 ++ more, fr);
}.

Module examples.
Import types client end_to_end.
#[local] Existing Instances api.sync_connection api.async_connection.

#[export] Instance sync_ordered : OrderedClient Conn.
Proof.
  refine {| wrote := sent; read := received |}. intros calls s (d & ps & errs & I)%rtc_inv.
  split; [by eapply sent_prefix|]. destruct (received_frames _ _ _ _ _ I) as (more & fr & E).
  destruct I as [A1 A2 A3 [A4 A5] _ _ _ _]. exists ps, more, fr. split_and!; [| |done].
  - intros t r Hg. simpl in Hg. apply list_elem_of_fmap in Hg as ([u x] & Ex & Hx). simpl in Ex.
    injection Ex as <- Ex. destruct x as [r'| |]; [|done..]. injection Ex as <-.
    apply elem_of_app in Hx as [Hx|Hx]; [|rewrite Forall_forall in A5; by apply A5 in Hx].
    rewrite A3 in Hx. apply elem_of_app in Hx as [Hx|Hx]; [|rewrite Forall_forall in A4; by apply A4 in Hx].
    apply list_elem_of_fmap in Hx as ([u' r''] & [= -> ->] & Hx). done.
  - rewrite A1, fmap_app, A2, A3, fmap_app, <- !app_assoc, <- list_fmap_compose.
    assert ((fst ∘ prod_map id Reply) <$> ps = ps.*1) as -> by (by apply list_fmap_ext). by eexists.
Defined.

#[export] Instance async_ordered : OrderedClient async_client.Session.
Proof.
  refine {| wrote := async_client.sent; read := async_client.received |}. intros calls s Hr.
  assert (async_client.has_inv calls s) as (d & ps & errs & -> & I).
  { pose proof (async_client.inv_session calls true) as I0. simpl in Hr. revert Hr I0.
    generalize (async_client.session calls true). intros s0 Hr I0. induction Hr as [|s1 s2 s3 Hs _ IH]; [done|].
    apply IH. by apply (api.task_step_inv calls s1 s2 I0 Hs). }
  destruct (async_client.session_received _ _ _ _ I) as (more & fr & E). destruct I as [A1 A2 A3 A4 A5 A6]. split.
  - rewrite encode_calls_app. destruct (async_client.over s).
    + destruct A6 as [k ->]. rewrite <- app_assoc; by eexists.
    + rewrite <- A6, <- app_assoc. by eexists.
  - exists ps, more, fr. split_and!; [| |done].
    + intros t r Hg. simpl in Hg. apply list_elem_of_fmap in Hg as ([u x] & Ex & Hx). simpl in Ex.
      injection Ex as <- Ex. destruct x as [r'| |]; [|done..]. injection Ex as <-.
      rewrite A2 in Hx. apply elem_of_app in Hx as [Hx|Hx]; [|rewrite Forall_forall in A3; by apply A3 in Hx].
      apply list_elem_of_fmap in Hx as ([u' r''] & [= -> ->] & Hx). done.
    + rewrite fmap_app, A1, A2, fmap_app, <- !app_assoc, <- list_fmap_compose.
      assert ((fst ∘ prod_map id async_client.Reply) <$> ps = ps.*1) as -> by (by apply list_fmap_ext). by eexists.
Defined.

(** ** Printing and calling *)

(** The arguments of a [println!]: text, [{:?}] of [String::from_utf8_lossy], and
    [{:?}] of a response. *)
Inductive Piece := Text (s : string) | Lossy (b : bytes) | Debug (r : wire.Resp).
Definition Line : Type := list Piece.

(** What the reply channels have given: nothing as long as the caller waits. *)
Definition Answers : Type := N -> option call_result.

Inductive Res (A : Type) := Returns (x : A) | Fails (e : string) | Waits.
Arguments Returns {A}.
Arguments Fails {A}.
Arguments Waits {A}.

(** Given the answers and the calls made before, a program makes further calls and
    prints lines; it returns, fails with an [anyhow] error, or waits for an answer. *)
Definition Prog (A : Type) : Type := Answers -> list Call -> list Call * list Line * Res A.

Definition ret {A} (x : A) : Prog A := fun ans made => (made, [], Returns x).
Definition throw {A} (e : string) : Prog A := fun ans made => (made, [], Fails e).
(** [?] *)
Definition andThen {A B} (m : Prog A) (f : A -> Prog B) : Prog B := fun ans made =>
  match m ans made with
  | (made, out, Returns x) => let '(made, out', r) := f x ans made in (made, out ++ out', r)
  | (made, out, Fails e) => (made, out, Fails e)
  | (made, out, Waits) => (made, out, Waits)
  end.
Definition println (l : Line) : Prog unit := fun ans made => (made, [l], Returns tt).

Local Notation "x ⇐ m ; f" := (andThen m (fun x => f)) (at level 20, m at level 100, f at level 200, right associativity).
Local Notation "m ;;; f" := (andThen m (fun _ => f)) (at level 100, f at level 200, right associativity).

(** [rx.recv] of the reply channel [t]. *)
Definition result (ans : Answers) (t : N) : Res wire.Resp :=
  match ans t with Some (inl r) => Returns r | Some (inr e) => Fails e | None => Waits end.

(** The reply channels are numbered in the order in which they are made. *)
Definition call (op : wire.Operation) (k : bytes) (v : option bytes) : Prog wire.Resp := fun ans made =>
  let t := N.of_nat (length made) in (made ++ [mk_call op k v t], [], result ans t).
Definition put (k v : bytes) : Prog wire.Resp := call wire.Put k (Some v).
Definition get (k : bytes) : Prog wire.Resp := call wire.Get k None.

Fixpoint for_each {A} (l : list A) (body : A -> Prog unit) : Prog unit :=
  match l with [] => ret tt | x :: l => body x ;;; for_each l body end.

Definition connect (connected : bool) (e : string) : Prog unit := if connected then ret tt else throw e.

(** [match &resp] of both programs. *)
Definition print_get (k : bytes) (resp : wire.Resp) : Prog unit :=
  match resp with
  | wire.Value val => println [Text "GET "; Lossy k; Text "  →  "; Lossy val]
  | other => println [Text "GET "; Lossy k; Text "  →  "; Debug other]
  end.

(** ** [sync_client.rs] *)

Definition sync_pairs : list (bytes * bytes) :=
  [(bstr "name", bstr "lavashik"); (bstr "project", bstr "in-memory-poc"); (bstr "lang", bstr "rust");
   (bstr "mood", bstr "hype")].

Definition sync_main (connected : bool) (e : string) : Prog unit :=
  println [Text "Connecting to 127.0.0.1:9000 …"] ;;;
  connect connected e ;;;
  println [Text "Connected!"] ;;; println [] ;;;
  for_each sync_pairs (fun '(k, v) =>
    resp ⇐ put k v; println [Text "PUT "; Lossy k; Text " = "; Lossy v; Text "  →  "; Debug resp]) ;;;
  println [] ;;;
  for_each sync_pairs (fun '(k, _) => resp ⇐ get k; print_get k resp) ;;;
  println [] ;;;
  resp ⇐ get (bstr "does_not_exist");
  println [Text "GET 'does_not_exist'  →  "; Debug resp; Text "  (expected Miss)"].

(** ** [async_client.rs] *)

Definition async_pairs : list (bytes * bytes) :=
  [(bstr "async_key_1", bstr "hello from async"); (bstr "async_key_2", bstr "tokio is cool");
   (bstr "async_key_3", bstr "rust ftw")].

(** The spawned tasks: the [i]-th reads the key of the [i]-th pair, on the [i]-th of
    the next reply channels; the runtime lets them send in the order [order].  The
    handles are known by the first of the channels. *)
Definition spawn_all (keys : list bytes) (order : list nat) : Prog N := fun ans made =>
  let t := N.of_nat (length made) in
  (made ++ omap (fun i => (fun k => mk_call wire.Get k None (t + N.of_nat i)) <$> keys !! i) order, [], Returns t).

(** [handle.await??] of the [i]-th task. *)
Definition await (handles : N) (i : nat) : Prog wire.Resp := fun ans made =>
  (made, [], result ans (handles + N.of_nat i)).

Definition async_main (connected : bool) (e : string) (order : list nat) : Prog unit :=
  println [Text "Connecting to 127.0.0.1:9000 …"] ;;;
  connect connected e ;;;
  println [Text "Connected!"] ;;; println [] ;;;
  for_each async_pairs (fun '(k, v) =>
    resp ⇐ put k v; println [Text "PUT "; Lossy k; Text "  →  "; Debug resp]) ;;;
  println [] ;;;
  println [Text "Firing concurrent GETs …"] ;;;
  handles ⇐ spawn_all async_pairs.*1 order;
  for_each (zip (seq 0 (length async_pairs)) async_pairs) (fun '(i, (k, _)) =>
    resp ⇐ await handles i; print_get k resp) ;;;
  println [] ;;;
  resp ⇐ get (bstr "nope");
  println [Text "GET 'nope'  →  "; Debug resp; Text "  (expected Miss)"].

(** ** More answers, more output *)

(** The responses of [a] are also in [b]. *)
Definition agree (a b : Answers) : Prop := forall t r, a t = Some (inl r) -> b t = Some (inl r).

(** A program that, with more answers, does the same and goes on: it waits only for
    an answer that is missing, and fails only with the error of a call. *)
Definition well {A} (p : Prog A) : Prop := forall a b made, agree a b ->
  made `prefix_of` (p b made).1.1 /\
  match p a made with
  | (m, o, Returns x) => p b made = (m, o, Returns x)
  | (m, o, Fails e) => m `prefix_of` (p b made).1.1 /\ o `prefix_of` (p b made).1.2 /\ exists t, a t = Some (inr e)
  | (m, o, Waits) => m `prefix_of` (p b made).1.1 /\ o `prefix_of` (p b made).1.2 /\
      exists t, a t = None /\ (is_Some (b t) \/ (p b made).2 = Waits)
  end.

Lemma well_ret {A} (x : A) : well (ret x).
Proof. by intros a b made Hab. Qed.
Lemma well_println l : well (println l).
Proof. by intros a b made Hab. Qed.
Lemma well_spawn keys order : well (spawn_all keys order).
Proof. intros a b made Hab. split; [by eexists|done]. Qed.

Lemma well_result (a b : Answers) (m : list Call) t :
  agree a b ->
  match result a t with
  | Returns x => result b t = Returns x
  | Fails e => exists u, a u = Some (inr e)
  | Waits => exists u, a u = None /\ (is_Some (b u) \/ result b t = Waits)
  end.
Proof.
  intros Hab. unfold result. destruct (a t) as [[r|e]|] eqn:Ea; [by rewrite (Hab _ _ Ea)|by exists t|].
  exists t. split; [done|]. destruct (b t) as [x|]; [left; by eexists|by right].
Qed.
Lemma well_call op k v : well (call op k v).
Proof.
  intros a b made Hab. split; [by eexists|]. unfold call. pose proof (well_result a b made (N.of_nat (length made)) Hab) as Hr.
  destruct (result a _); simpl; [by rewrite Hr|split; [done|split; [done|exact Hr]]..].
Qed.
Lemma well_await h i : well (await h i).
Proof.
  intros a b made Hab. split; [done|]. unfold await. pose proof (well_result a b made (h + N.of_nat i) Hab) as Hr.
  destruct (result a _); simpl; [by rewrite Hr|split; [done|split; [done|exact Hr]]..].
Qed.

Lemma well_then {A B} (m : Prog A) (f : A -> Prog B) : well m -> (forall x, well (f x)) -> well (andThen m f).
Proof.
  intros Hm Hf a b made Hab. destruct (Hm a b made Hab) as [G1 H1]. unfold andThen.
  destruct (m b made) as [[m2 o2] r2] eqn:Eb. simpl in G1.
  assert (m2 `prefix_of` (andThen m f b made).1.1 /\ o2 `prefix_of` (andThen m f b made).1.2) as [Gm Go].
  { unfold andThen. rewrite Eb. destruct r2 as [x|e|]; [|done..]. destruct (Hf x b b m2 ltac:(by intros ?)) as [G _].
    destruct (f x b m2) as [[m3 o3] r3]. simpl in *. split; [done|by eexists]. }
  unfold andThen in Gm, Go. rewrite Eb in Gm, Go.
  split; [by etransitivity|].
  destruct (m a made) as [[m1 o1] [x|e|]].
  - injection H1 as -> -> ->. destruct (Hf x a b m1 Hab) as [_ H2].
    destruct (f x a m1) as [[m3 o3] r3], (f x b m1) as [[m4 o4] r4]. simpl in *. destruct r3 as [y|e|].
    + by injection H2 as -> -> ->.
    + destruct H2 as (P1 & P2 & P3). split_and!; [done|by apply prefix_app|done].
    + destruct H2 as (P1 & P2 & P3). split_and!; [done|by apply prefix_app|done].
  - destruct H1 as (P1 & P2 & P3). split_and!; [by etransitivity|by etransitivity|done].
  - destruct H1 as (P1 & P2 & t & P3 & P4). split_and!; [by etransitivity|by etransitivity|].
    exists t. split; [done|]. destruct P4 as [P4|P4]; [by left|right]. simpl in P4. by rewrite P4.
Qed.

Lemma well_for_each {A} (l : list A) body : (forall x, well (body x)) -> well (for_each l body).
Proof. intros Hb. induction l; simpl; [apply well_ret|by apply well_then]. Qed.
Lemma well_print_get k r : well (print_get k r).
Proof. destruct r; apply well_println. Qed.

Ltac well :=
  repeat match goal with
    | |- well (andThen _ _) => apply well_then; [|intros ?]
    | |- well (for_each _ _) => apply well_for_each; intros ?
    | |- well (let '_ := ?x in _) => destruct x
    | |- well (connect true _) => apply well_ret
    | |- well _ => first [apply well_println|apply well_call|apply well_spawn|apply well_await|apply well_print_get]
    end.

Lemma sync_well e : well (sync_main true e).
Proof. unfold sync_main. well. Qed.
Lemma async_well e order : well (async_main true e order).
Proof. unfold async_main. well. Qed.

(** ** Answers of a store *)

(** The value of the last PUT of [k] among some calls. *)
Fixpoint last_put (k : bytes) (cs : list Call) : option bytes :=
  match cs with
  | [] => None
  | c :: cs =>
      match last_put k cs with
      | Some v => Some v
      | None => if bool_decide (op c = wire.Put /\ key c = k) then Some (default [] (value c)) else None
      end
  end.
(** The response to the [i]-th call [c] from a table without the keys that are read
    before they are put. *)
Definition expected (cs : list Call) (i : nat) (c : Call) : wire.Resp :=
  match op c with
  | wire.Put => wire.RespOk
  | _ => match last_put (key c) (take i cs) with Some v => wire.Value v | None => wire.Miss end
  end.
Definition of_store (cs : list Call) : Answers := fun t =>
  (fun p => inl (expected cs p.1 p.2)) <$> list_find (fun c => tx c = t) cs.

Definition get_line (kv : bytes * bytes) : Line := [Text "GET "; Lossy kv.1; Text "  →  "; Lossy kv.2].

(** The output of [sync_client.rs]. *)
Definition sync_lines : list Line :=
  [[Text "Connecting to 127.0.0.1:9000 …"]; [Text "Connected!"]; []] ++
  ((fun kv : bytes * bytes =>
      [Text "PUT "; Lossy kv.1; Text " = "; Lossy kv.2; Text "  →  "; Debug wire.RespOk]) <$> sync_pairs) ++
  [[]] ++ (get_line <$> sync_pairs) ++
  [[]; [Text "GET 'does_not_exist'  →  "; Debug wire.Miss; Text "  (expected Miss)"]].

(** The output of [async_client.rs]. *)
Definition async_lines : list Line :=
  [[Text "Connecting to 127.0.0.1:9000 …"]; [Text "Connected!"]; []] ++
  ((fun kv : bytes * bytes => [Text "PUT "; Lossy kv.1; Text "  →  "; Debug wire.RespOk]) <$> async_pairs) ++
  [[]; [Text "Firing concurrent GETs …"]] ++ (get_line <$> async_pairs) ++
  [[]; [Text "GET 'nope'  →  "; Debug wire.Miss; Text "  (expected Miss)"]].

(** The calls of the programs, by reply channel. *)
Definition put_calls (pairs : list (bytes * bytes)) : list Call :=
  imap (fun i kv => mk_call wire.Put kv.1 (Some kv.2) (N.of_nat i)) pairs.
Definition get_calls (t : nat) (keys : list bytes) (order : list nat) : list Call :=
  omap (fun i => (fun k => mk_call wire.Get k None (N.of_nat (t + i))) <$> keys !! i) order.

Definition sync_calls : list Call :=
  put_calls sync_pairs ++ get_calls 4 sync_pairs.*1 [0; 1; 2; 3]%nat ++ [mk_call wire.Get (bstr "does_not_exist") None 8].
Definition async_calls (order : list nat) : list Call :=
  put_calls async_pairs ++ get_calls 3 async_pairs.*1 order ++ [mk_call wire.Get (bstr "nope") None 6].

Lemma sync_ideal e : sync_main true e (of_store sync_calls) [] = (sync_calls, sync_lines, Returns tt).
Proof. vm_compute. reflexivity. Qed.

Lemma order_cases (order : list nat) :
  order ≡ₚ [0; 1; 2]%nat -> order ∈ [[0; 1; 2]; [0; 2; 1]; [1; 0; 2]; [1; 2; 0]; [2; 0; 1]; [2; 1; 0]]%nat.
Proof.
  intros Ho. assert (order ∈ permutations [0; 1; 2]%nat) as Hp by by apply permutations_Permutation.
  revert Hp. generalize order. apply Forall_forall. vm_compute. repeat constructor; set_solver.
Qed.

Lemma async_ideal e order :
  order ≡ₚ [0; 1; 2]%nat ->
  async_main true e order (of_store (async_calls order)) [] = (async_calls order, async_lines, Returns tt).
Proof.
  intros Ho%order_cases. revert order Ho. apply Forall_forall. repeat (constructor; [vm_compute; reflexivity|]). constructor.
Qed.

(** ** The server's answers are those of a store *)

(** What the receivers of the reply channels have got. *)
Definition results_of {C} `{Connection C} (s : C) : Answers := fun t =>
  (fun p => p.2.2) <$> list_find (fun p => p.1 = t) (given s).

(** A GET or PUT within the server's frame limit. *)
Definition call_fine (c : Call) : bool :=
  match op c with wire.Put => match value c with Some _ => true | None => false end | wire.Get => true | _ => false end &&
  (5 + len (key c) + wire.value_len (value c) <=? stage1.MAX_FRAME).
(** Only [k] is read before it is put. *)
Definition reads_known (k : bytes) (cs : list Call) : bool :=
  forallb (fun i => match cs !! i with
                    | Some c => bool_decide (op c = wire.Put) || bool_decide (is_Some (last_put (key c) (take i cs))) ||
                                bool_decide (key c = k)
                    | None => true
                    end) (seq 0 (length cs)).
(** The calls of a program: their reply channels are different ones. *)
Definition program_calls (k : bytes) (cs : list Call) : Prop :=
  forallb call_fine cs = true /\ NoDup (tx <$> cs) /\ reads_known k cs = true.

Lemma call_fine_ok c : call_fine c = true -> call_ok c /\ (op c = wire.Get \/ op c = wire.Put) /\ u32 (len (key c)).
Proof.
  unfold call_fine, call_ok. rewrite andb_true_iff, Z.leb_le. intros [Ho Hl].
  assert (u32 (len (key c))) as Hk by (unfold u32, stage1.MAX_FRAME, wire.value_len in *; destruct (value c); lia).
  destruct (op c), (value c); try done; split_and!; auto; done.
Qed.

Lemma request_of_call q c :
  call_fine c = true -> types.data q = body_of c ->
  opc q = op c /\ kv_of q = (key c, default [] (value c)).
Proof.
  intros (_ & Ho & Hk)%call_fine_ok Hd. unfold opc, kv_of. rewrite Hd. unfold body_of.
  rewrite wire.split_kv_mk_body by done. split; [|done]. by destruct Ho as [-> | ->].
Qed.

Lemma spec_view_conn conn k l m1 m2 :
  Forall (fun r => is_put r = true -> reply r <> conn -> (kv_of r).1 <> k) l -> m1 !! k = m2 !! k ->
  stage2.spec_view m1 l !! k = stage2.spec_view m2 (of_conn conn l) !! k.
Proof.
  intros Hl. revert m1 m2. induction Hl as [|r l Hr Hl IH]; intros m1 m2 Hm; [done|].
  unfold of_conn in *. rewrite filter_cons. unfold stage2.spec_view in *. simpl. destruct (decide (reply r = conn)) as [Hc|Hc].
  - simpl. apply IH. unfold stage2.spec_step. destruct (is_put r); [|done].
    destruct (decide ((kv_of r).1 = k)) as [->|Hne]; [by rewrite !lookup_insert_eq|by rewrite !lookup_insert_ne].
  - apply IH. unfold stage2.spec_step. destruct (is_put r); [|done]. by rewrite lookup_insert_ne by auto.
Qed.

Lemma spec_view_calls k l cs m :
  forallb call_fine cs = true -> types.data <$> l = body_of <$> cs ->
  stage2.spec_view m l !! k = match last_put k cs with Some v => Some v | None => m !! k end.
Proof.
  revert m l. induction cs as [|c cs IH]; intros m [|r l]; try done. simpl. rewrite andb_true_iff. intros [Hc Hcs] [= Hd Hl].
  unfold stage2.spec_view in *. simpl. rewrite (IH _ l Hcs Hl). destruct (last_put k cs) as [v|]; [done|].
  destruct (request_of_call r c Hc Hd) as [Eo Ek]. unfold stage2.spec_step, is_put. rewrite Eo, Ek. simpl.
  destruct (decide (op c = wire.Put)) as [Ep|Ep].
  - rewrite (bool_decide_true _ Ep). destruct (decide (key c = k)) as [->|Hne].
    + by rewrite bool_decide_true, lookup_insert_eq.
    + by rewrite bool_decide_false, lookup_insert_ne by tauto.
  - rewrite (bool_decide_false _ Ep). by rewrite bool_decide_false by tauto.
Qed.

(** Without fsync, and if nobody else puts their keys, the answers to the calls of a
    program are those of a table without the key [k]. *)
Lemma store_agrees {S} `{KvLaws S} {C} `{OrderedClient C} (st st' : stage2.Loop S) inps out msgs conn opens
    stream rounds ws k full calls (s : C) :
  serves st st' inps out msgs conn opens stream rounds ws ->
  program_calls k full -> kv_view (stage2.loop_db st) !! k = None ->
  Forall (fun r => is_put r = true -> reply r <> conn -> (kv_of r).1 ∉ key <$> full) (stage2.all_requests st inps) ->
  calls `prefix_of` full -> rtc conn_move (open_conn calls) s ->
  stream `prefix_of` wrote s -> read s `prefix_of` concat ws -> agree (results_of s) (of_store full).
Proof.
  intros Hsv (Hfine & Hnd & Hknown) Hk Hothers [later Hf] Hr Hstream Hread t r Hres.
  destruct (ordered_law calls s Hr) as (Hw & ps & more & fr & Hgiven & Hps & Hfr).
  unfold results_of in Hres. apply fmap_Some in Hres as ([i0 [t0 x]] & Hfind & Ex). simpl in Ex. subst x.
  apply list_find_Some in Hfind as (Hi0 & Et & _). simpl in Et. subst t0.
  apply list_elem_of_lookup_2, Hgiven, list_elem_of_lookup in Hi0 as [i Hi].
  assert (Forall (fun c => call_fine c = true) full) as Hall.
  { apply Forall_forall. intros c Hc. rewrite forallb_forall in Hfine. by apply Hfine, list_elem_of_In. }
  destruct (served_in_order st st' inps out msgs conn opens calls stream rounds ws (read s) ps.*2 more fr i r)
    as (c & before & q & after & Hci & Hreqs & Hq & Hbefore & Hd & ->); try done.
  { subst full. apply Forall_app in Hall as [Hall _]. eapply Forall_impl; [exact Hall|]. by intros c [? _]%call_fine_ok. }
  { by etransitivity. }
  { by rewrite list_lookup_fmap, Hi. }
  assert (full !! i = Some c) as Hfi by (subst full; by apply lookup_app_l_Some).
  assert (take i full = take i calls) as Htake.
  { subst full. rewrite take_app_le; [done|]. apply lookup_lt_Some in Hci. lia. }
  assert (tx c = t) as Htx.
  { destruct Hps as [l Hl]. assert ((tx <$> calls) !! i = Some t) as Ht.
    { rewrite Hl. apply lookup_app_l_Some. by rewrite list_lookup_fmap, Hi. }
    rewrite list_lookup_fmap, Hci in Ht. by injection Ht. }
  assert (list_find (fun c => tx c = t) full = Some (i, c)) as Hof.
  { apply list_find_Some. split_and!; [done|done|]. intros j c' Hj Hlt E.
    assert (i = j); [|lia]. eapply (NoDup_lookup _ i j t Hnd); rewrite list_lookup_fmap; [by rewrite Hfi, <- Htx|by rewrite Hj, <- E]. }
  unfold of_store. rewrite Hof. simpl. do 2 f_equal.
  pose proof (proj1 (Forall_lookup _ _) Hall _ _ Hfi) as Hc. simpl in Hc.
  destruct (request_of_call q c Hc Hd) as [Eo Ek]. unfold expected, stage2.spec_resp. rewrite Eo, Ek. simpl.
  destruct (call_fine_ok c Hc) as (_ & [Ho|Ho] & _); rewrite Ho; [|done].
  rewrite (spec_view_conn conn (key c) before _ (kv_view (stage2.loop_db st))); [|apply Forall_forall|done].
  - rewrite (spec_view_calls _ _ (take i calls)).
    + rewrite Htake. destruct (last_put (key c) (take i calls)) as [v|] eqn:El; [done|].
      unfold reads_known in Hknown. rewrite forallb_forall in Hknown.
      specialize (Hknown i ltac:(apply in_seq; apply lookup_lt_Some in Hfi; lia)). rewrite Hfi, Htake, El, Ho in Hknown.
      rewrite !orb_true_iff, !bool_decide_eq_true in Hknown. destruct Hknown as [[?|[? ?]]| ->]; [done|done|by rewrite Hk].
    + rewrite forallb_forall. intros c' Hc'. rewrite forallb_forall in Hfine. apply Hfine. apply list_elem_of_In.
      apply list_elem_of_In in Hc'. rewrite <- Htake in Hc'. by apply subseteq_take in Hc'.
    + by rewrite Hbefore, fmap_take.
  - intros r Hin Hp Hne Heq. rewrite Forall_forall in Hothers. apply (Hothers r); [|done|done|].
    + rewrite Hreqs. apply elem_of_app. by left.
    + rewrite Heq. apply list_elem_of_fmap_2. by eapply list_elem_of_lookup_2.
Qed.

Lemma sync_fine : program_calls (bstr "does_not_exist") sync_calls.
Proof. split_and!; [reflexivity|decide_vm|reflexivity]. Qed.
Lemma async_fine order : order ≡ₚ [0; 1; 2]%nat -> program_calls (bstr "nope") (async_calls order).
Proof.
  intros Ho%order_cases. revert order Ho. apply Forall_forall.
  repeat (constructor; [split_and!; [reflexivity|decide_vm|reflexivity]|]). constructor.
Qed.

(** ** What the programs print *)

(** With the answers [ans], a program has made the first of the calls [cs] and printed
    the first of [lines]; it has returned only with all of them, it fails with the
    error of a call, and waits only for the answer to one of its calls. *)
Definition prints (p : Prog unit) (ans : Answers) (cs : list Call) (lines : list Line) : Prop :=
  let '(made, out, r) := p ans [] in
  made `prefix_of` cs /\ out `prefix_of` lines /\
  match r with
  | Returns _ => made = cs /\ out = lines
  | Fails e => exists t, ans t = Some (inr e)
  | Waits => exists c, c ∈ cs /\ ans (tx c) = None
  end.

Lemma prints_ideal p ans cs lines :
  well p -> p (of_store cs) [] = (cs, lines, Returns tt) -> agree ans (of_store cs) -> prints p ans cs lines.
Proof.
  intros Hp Hideal Hagree. destruct (Hp ans (of_store cs) [] Hagree) as [_ H]. unfold prints.
  destruct (p ans []) as [[made out] [[]|e|]]; rewrite Hideal in H; simpl in H.
  - by injection H as <- <-.
  - done.
  - destruct H as (P1 & P2 & t & Ht & [Hs|?]); [|done]. split_and!; [done|done|].
    unfold of_store in Hs. destruct (list_find _ cs) as [[i c]|] eqn:Hf; [|by destruct Hs].
    apply list_find_Some in Hf as (Hi & Et & _). exists c. rewrite Et. split; [|done]. by eapply list_elem_of_lookup_2.
Qed.

(** C22: the examples print what their comments promise.  A server without fsync
    serves any number of clients, none of which puts the keys of the example, from a
    table without the key that it reads last; the example is connected as [conn],
    and has one connection for the whole run.  In every state that the threads of
    the blocking client, or the tasks of the asynchronous one, then reach, with the
    streams cut anywhere: what the program has printed is a beginning of the expected
    lines, it waits only for an answer that it has not got, it fails only with the
    error of a call, and it returns only when it has printed all of them: the PUTs
    with their Ok, each GET with the value put for its key, and the Miss; in the
    asynchronous one whatever the order in which the runtime lets the concurrent
    GETs go.  If it cannot connect it prints one line and returns the error. *)
Theorem examples_print_expected {S} `{KvLaws S} (st st' : stage2.Loop S) inps out msgs conn opens stream rounds ws e order :
  serves st st' inps out msgs conn opens stream rounds ws -> order ≡ₚ [0; 1; 2]%nat ->
  (forall calls (s : Conn),
    kv_view (stage2.loop_db st) !! bstr "does_not_exist" = None ->
    Forall (fun r => is_put r = true -> reply r <> conn -> (kv_of r).1 ∉ key <$> sync_calls) (stage2.all_requests st inps) ->
    calls `prefix_of` sync_calls -> rtc conn_step (connected calls) s ->
    stream `prefix_of` sent s -> received s `prefix_of` concat ws ->
    prints (sync_main true e) (results_of s) sync_calls sync_lines) /\
  (forall calls (s : async_client.Session),
    kv_view (stage2.loop_db st) !! bstr "nope" = None ->
    Forall (fun r => is_put r = true -> reply r <> conn -> (kv_of r).1 ∉ key <$> async_calls order) (stage2.all_requests st inps) ->
    calls `prefix_of` async_calls order -> rtc api.task_step (async_client.session calls true) s ->
    stream `prefix_of` async_client.sent s -> async_client.received s `prefix_of` concat ws ->
    prints (async_main true e order) (results_of s) (async_calls order) async_lines) /\
  (forall ans, sync_main false e ans [] = ([], take 1 sync_lines, Fails e)) /\
  (forall ans, async_main false e order ans [] = ([], take 1 async_lines, Fails e)).
Proof.
  intros Hsv Ho. split_and!; [| |done|done].
  - intros calls s Hk Hothers Hc Hr Hw Hrd. apply prints_ideal; [apply sync_well|apply sync_ideal|].
    eapply (store_agrees (C := Conn)); [exact Hsv|exact sync_fine|exact Hk|exact Hothers|exact Hc|exact Hr|exact Hw|exact Hrd].
  - intros calls s Hk Hothers Hc Hr Hw Hrd. apply prints_ideal; [apply async_well|by apply async_ideal|].
    eapply (store_agrees (C := async_client.Session));
      [exact Hsv|by apply async_fine|exact Hk|exact Hothers|exact Hc|exact Hr|exact Hw|exact Hrd].
Qed.

(** ** Witness: the asynchronous example, its tasks sending in another order, next to a
    client that puts another key *)

Definition ex_order : list nat := [2; 0; 1]%nat.
Definition ex_full : list Call := async_calls ex_order.
Definition ex_requests : list Request :=
  mk_request (wire.mk_body wire.OP_PUT (bstr "k") (bstr "v")) 8 None :: ((fun c => mk_request (body_of c) 7 None) <$> ex_full).
Definition ex_served : list stage2.Input := [stage2.mk_input (Some (with_capacity 0 0)) ex_requests true].
Definition ex_responses : list wire.Resp := imap (fun i c => expected ex_full i c) ex_full.
Definition ex_bytes : bytes := concat (stage1.resp_frame <$> ex_responses).
Definition ex_state0 : stage2.Loop db.Db := stage2.run_main_loop_init kv_new 1.

#[local] Instance resp_ok_dec r : Decision (stage1.resp_ok r).
Proof. destruct r; apply _. Defined.

Lemma ex_serves : exists st' out msgs,
  serves ex_state0 st' ex_served out msgs 7 (fun _ => true) (encode_calls ex_full) [(6%nat, true)] [ex_bytes].
Proof.
  assert (exists q, stage2.run (acker.new args.NoFsync) ex_state0 ex_served = Done q /\ resps_of 7 q.1.2 = ex_responses)
    as ([[st' out] msgs] & E & Ho) by (eexists; split; vm_compute; reflexivity).
  simpl in Ho. exists st', out, msgs. split; [| | | | |exact E|..].
  - split; [apply kv_new_wf|done].
  - constructor; [|constructor]. split; [discriminate|by exists (with_capacity 0 0)|reflexivity].
  - decide_vm.
  - decide_vm.
  - decide_vm.
  - exists []. vm_compute. reflexivity.
  - rewrite Ho. decide_vm.
  - rewrite Ho. vm_compute. reflexivity.
Qed.

(** All calls in one write, all responses in one read. *)
Fixpoint extracts (n : nat) (s : async_client.Session) : option async_client.Session :=
  match n with
  | O => Some s
  | S n => match async_client.reader_extract s with Done (Some s) => extracts n s | _ => None end
  end.
Definition ex_session : option async_client.Session :=
  s ← async_client.writer_recv (async_client.session ex_full true) 6;
  s ← async_client.writer_write s None;
  s ← async_client.reader_read s (Some ex_bytes);
  extracts 7 s.

Lemma extracts_steps n s s' : async_client.over s = false -> extracts n s = Some s' -> rtc api.task_step s s'.
Proof.
  revert s. induction n as [|n IH]; intros s Ho; cbn [extracts]; [by intros [= <-]|].
  destruct (async_client.reader_extract s) as [[s1|]| |] eqn:E; [|done..]. intros Hs.
  assert (async_client.over s1 = false /\ async_client.handles s1 = async_client.handles s /\
    async_client.rx s1 = async_client.rx s) as (Ho1 & Hh & Hq).
  { revert E. unfold async_client.reader_extract. destruct (async_client.extracting s); [|done].
    intros ([o fr] & _ & E)%bind_Done. destruct o; [destruct (async_client.fifo s); [done|]|]; by injection E as <-. }
  eapply rtc_l; [|by apply IH]. split; [by eapply async_client.a_extract|]. split; [done|by rewrite Hq].
Qed.

Lemma ex_session_run :
  match ex_session with
  | Some s => rtc api.task_step (async_client.session ex_full true) s /\
      async_client.sent s = encode_calls ex_full /\ async_client.received s = ex_bytes
  | None => False
  end.
Proof.
  unfold ex_session. destruct (async_client.writer_recv _ 6) as [s1|] eqn:E1; [|by vm_compute in E1]. cbn [mbind option_bind].
  assert (async_client.over s1 = false) as O1 by (by injection E1 as <-).
  assert (api.task_step (async_client.session ex_full true) s1) as T1.
  { split; [by eapply async_client.a_recv|]. injection E1 as <-. split; [done|exists ex_full; vm_compute; reflexivity]. }
  destruct (async_client.writer_write s1 None) as [s2|] eqn:E2; [|by injection E1 as <-]. cbn [mbind option_bind].
  assert (api.task_step s1 s2 /\ async_client.over s2 = false /\ async_client.extracting s2 = false) as (T2 & O2 & X2).
  { split; [split; [by eapply async_client.a_write|]|]; injection E1 as <-; injection E2 as <-; done. }
  destruct (async_client.reader_read s2 (Some ex_bytes)) as [s3|] eqn:E3;
    [|unfold async_client.reader_read in E3; by rewrite X2 in E3]. cbn [mbind option_bind].
  assert (api.task_step s2 s3 /\ async_client.over s3 = false) as (T3 & O3).
  { split; [split; [by eapply async_client.a_read|]|]; injection E1 as <-; injection E2 as <-; injection E3 as <-; done. }
  assert (match extracts 7 s3 with
          | Some s => async_client.sent s = encode_calls ex_full /\ async_client.received s = ex_bytes | None => False end) as Hx.
  { injection E1 as <-. injection E2 as <-. injection E3 as <-. vm_compute. done. }
  destruct (extracts 7 s3) as [s4|] eqn:E4; [|destruct Hx]. split; [|exact Hx].
  do 3 (eapply rtc_l; [eassumption|]). by eapply extracts_steps.
Qed.

Lemma examples_print_expected_witness :
  exists s : async_client.Session, ex_session = Some s /\
    prints (async_main true "" ex_order) (results_of s) (async_calls ex_order) async_lines /\
    last (async_main true "" ex_order (results_of s) []).1.2 =
      Some [Text "GET 'nope'  →  "; Debug wire.Miss; Text "  (expected Miss)"].
Proof.
  assert (match ex_session with
          | Some s => last (async_main true "" ex_order (results_of s) []).1.2 =
              Some [Text "GET 'nope'  →  "; Debug wire.Miss; Text "  (expected Miss)"]
          | None => False end) as Hl by (vm_compute; reflexivity).
  pose proof ex_session_run as Hs. destruct ex_session as [s|]; [|destruct Hs].
  destruct Hs as (Hr & Hw & Hrd). destruct ex_serves as (st' & out & msgs & Hsv).
  destruct (examples_print_expected ex_state0 st' ex_served out msgs 7 (fun _ => true) (encode_calls ex_full)
    [(6%nat, true)] [ex_bytes] "" ex_order Hsv) as (_ & Ha & _); [decide_vm|].
  exists s. split; [reflexivity|]. split; [|exact Hl]. apply (Ha ex_full s).
  - reflexivity.
  - change (stage2.all_requests ex_state0 ex_served) with (ex_requests ++ []). rewrite app_nil_r. apply Forall_cons. split; [intros _ _; decide_vm|].
    apply Forall_fmap, Forall_true. intros c _ Hne. by destruct Hne.
  - reflexivity.
  - exact Hr.
  - rewrite Hw. reflexivity.
  - rewrite Hrd. exists []. simpl. by rewrite !app_nil_r.
Defined.

End examples.
